(* ===== verification/_CoqProject ===== *)
-Q . S2P
Prelude.v
Bytes.v
Backoff.v
PduId.v
DbMap.v
DbSer.v
DbScan.v
DbWindow.v
Tables.v
Short.v
ShortProps.v
AccountData.v
Users.v
Timeline.v
RoomVersion.v
Event.v
PowerLevels.v
EventAuth.v
EventAuthProps.v
Membership.v
AuthContext.v
AuthDemo.v
TopoSort.v
StateRes.v
StateResProps.v
AuthGraph.v
Mainline.v
ConflictGraph.v
Resolve.v
Convergence.v
StateResDemo.v
StateCompressor.v
CompressorProps.v
RoomState.v
StateAccessor.v
RoomStateProps.v
RoomStateRefine.v
StateAccessorProps.v
RoomStateDemo.v
StateCache.v
StateCacheProps.v
UserDevices.v
UserKeys.v
UserDevicesProps.v
UserKeysProps.v
DemoText.v
RegistrationTokens.v
Threepid.v
Uiaa.v
Sending.v
SendingProps.v
SendingSystem.v
SendingDemo.v
Transactions.v
KeyBackups.v
AuthChain.v
AuthChainProps.v
ReadReceipts.v
Presence.v
PresenceTimers.v
CurrentState.v
IncomingPdu.v
EventHandler.v
EventHandlerProps.v
EventHandlerEnds.v
EventHandlerDemo.v
StateAtEvent.v
ResolveState.v
Unsigned.v
PduMetadata.v
RoomUser.v
Search.v
Threads.v
Services.v
TimelineAppend.v
Promotion.v
TimelineAppendProps.v
PromotionProps.v
