(* ===== verification/Prelude.v ===== *)
(** * A verification library for the continuwuity homeserver

    The program is a Matrix homeserver: clients and other servers send events to rooms, the
    server checks them against the authorization rules of the room version, resolves
    conflicting states, stores everything in RocksDB tables and answers queries from them.
    This library models its core services as executable functions and proves what they
    promise.  Source paths below are relative to [src/src/].

    ** Layers

    _Foundations_.  [Prelude] (this file): outcomes, 64-bit integers, lists and sorting, and
    the class [Schedule] of what the runtime decides.  [Bytes]: [core/utils/bytes.rs] and the
    byte order of keys.  [DbMap]: the class [Store] of what is relied on of RocksDB, with the
    point operations and cursors of [database/map/].  [DbSer]: the tuple format of keys and
    values, [database/ser.rs] and [de.rs].  [DbScan]: scans by prefix of tables whose keys
    are two names.  [DbWindow]: reads of rows counted under a name.  [Tables]: the tables of a
    service as a function from names to maps, and lists of writes.

    _Rooms_.  [RoomVersion], [Event], [PowerLevels] and [EventAuth] are
    [core/matrix/state_res/room_version.rs], [core/matrix/event.rs] and [pdu.rs],
    [power_levels.rs] and [event_auth.rs]; [TopoSort] and [StateRes] are
    [state_res/mod.rs].  [PduId] and [Timeline] are the positions of events
    ([core/matrix/pdu/]) and the store they are in ([service/rooms/timeline/data.rs]).
    [Short], [StateCompressor], [RoomState] and [StateAccessor] are
    [service/rooms/short], [state_compressor], [state] and [state_accessor/state.rs]: a room
    state is a map from (event type, state key) to an event id, kept as a number that stands
    for layers of sets of pairs of short ids.  [StateCache] is [service/rooms/state_cache/]:
    who is where.

    [CurrentState] is the rest of [service/rooms/state_accessor/].  [AuthChain] is
    [service/rooms/auth_chain/], [Unsigned] and [PduMetadata] are [core/matrix/pdu/] and
    [service/rooms/pdu_metadata/] (what is known of an event beside it), [RoomUser],
    [ReadReceipts], [Search] and [Threads] are [service/rooms/user], [read_receipt/],
    [search], [threads] and [metadata].

    _Users_.  [AccountData] is [service/account_data]; [Users], [UserDevices] and [UserKeys]
    are [service/users/]; [RegistrationTokens], [Threepid], [Uiaa], [KeyBackups] and [Presence]
    (with the worker in [PresenceTimers]) are the services of those names.

    _Other servers_.  [Sending] is [service/sending/]: the queues, the worker and, as a state
    machine, the worker with its channel and the transactions in flight; [Backoff] its delays.
    [Transactions] is [service/transactions/].  [IncomingPdu] is events as they come in; [EventHandler], [StateAtEvent] and [Promotion] are
    [service/rooms/event_handler/].

    _All together_.  [Services] is the state of the services an event passes, with the one
    counter of the server, and a monad for calls between them.  [TimelineAppend] is
    [service/rooms/timeline/append.rs] and [redact.rs] on it, with [force_state] and what
    is called of the admin, push, alias and application services.

    ** The way of an event

    [Promotion.handle_incoming_pdu] is the whole way: it asks the access list
    ([acl_check]), checks the event with its auth events ([EventHandler.handle_outlier_pdu],
    which calls [fetch_and_handle_outliers], which calls it), fetches the events before it
    ([fetch_prev]), works out the state it comes in ([StateAtEvent]), authorizes it by
    that state and by the current one ([EventAuth.auth_check]), resolves the new state of the
    room ([resolve_state], [StateRes.resolve]), saves it ([RoomState.save_state],
    [force_state]) and appends the event ([append_incoming_pdu], [append_pdu]).  The state is
    the [Handler]: the timeline, the rate limiter, the number of interactions with the outside,
    and the [Services].

    A service that calls another has the other's state in its own: [RoomState] has the
    tables of [Short] and [StateCompressor]; the record [Cache] of [StateCache] has the
    counter, the account data and the user tables, and is the state of the device
    operations too.  Between the foundations and the services stand classes: [Store]
    (instance: finite maps over byte strings), [Schedule], [Ruma] of [Event] (the
    decoders of event contents; instance in [AuthDemo]), [EventSource] and [LruCache] of
    [AuthChain] (where events are found; a cache of a crate), [World] of [EventHandler] (the
    answers of other servers, signatures and the clock, by the number of the interaction),
    [Wire], [EventWire] and [AppendWire] (serde and ruma on events), [Unicode] of [Search], and
    [Settings] of [TimelineAppend] (the configuration).

    ** Conventions

    A Rust function returns [Ok], [Err] or panics: [outcome].  Operations on a service are
    functions from its state to an outcome of the new state; where an error is returned
    after a write, to the new state and an outcome.  Integers are [Z] with their width
    written out ([u64_checked], [as_i64], ...).  Identifiers are texts; ruma's validation of
    an identifier that is read back from a table is not modelled.  A hash map is iterated,
    and concurrent fetches complete, in the order of a [Schedule]; every place has a number.
    Loops that are not structural take fuel; termination theorems say how much is enough.
    Third-party code is a parameter: [serde_json] texts are bytes with a reader and a
    printer, ruma's types are their fields.  [cork] (delaying a flush) and locks have no
    effect in the model: operations run one after the other.

    ** What is shown

    - _Authorization_ ([EventAuthProps], [Membership], [AuthContext]): no escalation through
      power levels, membership changes exactly as the rules of the protocol, a banned user
      stays out, only joined members with the power for it act; the decision reads only the
      announced part of the state and does not panic on well-formed events.
    - _State resolution_ ([TopoSort], [StateResProps], [AuthGraph], [ConflictGraph],
      [Mainline], [Resolve], [Convergence]): the sorts terminate on acyclic auth events, are
      complete, sorted and independent of iteration orders; agreement is kept; what is
      admitted was accepted by the rules at its turn; servers with the same input converge if
      at most one third-party invite is stored and the fetches the order of the sorted events
      passes through complete in order.
    - _Room state_ ([ShortProps], [CompressorProps], [RoomStateProps], [RoomStateRefine],
      [StateAccessorProps]): short ids name one thing each; saving and loading a state is a
      round trip through any coherent cache; appending an event inserts it into the map the
      current state stands for; lookups and listings read that map.
    - _Timeline_ ([PduId], [Timeline]): key order is timeline order, and pagination lists
      exactly the events after (before) a position, but from the last backfilled one it starts over.
    - _Memberships_ ([StateCacheProps]): ten tables implement one map from (user, room) to
      the place of the user; counts and servers follow it.
    - _Users_ ([AccountData], [UserDevicesProps], [UserKeysProps]): account data is a map
      with a log of changes; a token other than the empty one, which dehydrated devices share, identifies one
      device; deactivation removes them all; events to devices are a queue; one-time keys and login tokens are used once.

    - _Accounts_ ([RegistrationTokens], [Threepid], [Uiaa], [KeyBackups]): tokens are
      used as often as they may be; an authenticated request had every stage of a flow; what a
      validation session and a password check let through that they should not.
    - _Receipts, presence, counts_ ([ReadReceipts], [Presence], [PresenceTimers],
      [RoomUser]): which rows an update replaces; users without activity go offline, but for those of
      other servers who were online before a restart.
    - _Sending_ ([SendingProps], [SendingSystem]): with the burst at start-up on and large enough, no event is lost in any run of the worker
      and one transaction per destination is in flight; queues empty while transactions succeed.
      [Transactions]: a transaction is started once.
    - _Auth chains_ ([AuthChainProps]): the closure of auth events, whichever of the chains are cached, if those cached are
      right (two examples are not).
    - _Events of other servers_ ([IncomingPdu], [EventHandlerProps], [EventHandlerEnds]): what is kept as an outlier passed the rules by auth events that were stored before or
      verified and checked themselves;
      the recursion ends if the answers are ranked, and does not if they name themselves;
      previous events come sorted.
    - _States at events_ ([StateAtEvent], [ResolveState]): the state after one event, the
      entries lost among previous events made in one state, and [resolve_state] as the resolution of the two maps.
    - _Into the timeline_ ([PromotionProps], [TimelineAppendProps]): an event that gets in
      passed every check of the run, as itself or as a previous event, and is stored; it is stored too when what follows fails;
      soft failure keeps it out of the timeline but not out of the state; an invitation that is
      taken back stays.
    - _Metadata_ ([PduMetadata], [Search], [Threads], [Unsigned]): relations by
      position, the walk of relations ends, a search finds the messages with all words.

    [AuthDemo], [StateResDemo], [RoomStateDemo], [SendingDemo], [EventHandlerDemo] and the modules
    named [...Demo], [Contested] and [Promoted] (a room built by appending its first
    events, and a message that comes to it) in other files have concrete inputs at which the theorems apply, and
    examples of behaviour that looks unintended (the order lost by [iterative_auth_check],
    rooms listed for a longer user id, the empty token of dehydrated devices, ...).

    ** Fuel

    [lexicographical_topological_sort] takes a round per node; [calculate_conflicted_subgraph],
    the auth chains and [mainline_sort] take rounds bounded by the number of known events
    (and their auth events); [generate_unique_token] one per text drawn;
    [handle_outlier_pdu] a round per rank of the answers and per answer; the loading of a
    state one per layer.  The theorems give
    the bound each time and prove that with it the result is there.

    ** Not modelled

    The HTTP interface ([api/], [router/]) decodes requests, calls the services and shapes
    answers in types of ruma; admin commands ([admin/]) are a command line over the
    services; configuration and logging ([core/config], [core/log], ...) and the bindings to
    RocksDB and its thread pool have no logic of their own; media, DNS and federation
    clients, server keys, mail and push gateways are network and file I/O around signature and image
    libraries.  Of [service/rooms/timeline], making and signing a new event and asking other
    servers for older ones are left out, of [service/users] LDAP and the signatures inside
    cross-signing keys, of [service/rooms/search] the loading of what was found.
    What a call that fails has written before it fails is followed where the code of this
    library says so (the room tables, the event handler) and not otherwise (the state cache).
    Futures that run side by side run one after the other, in an order a parameter decides;
    the locks that keep writers apart are taken as held. *)

From Stdlib Require Export ZArith Lia Strings.Byte Strings.Ascii.
From stdpp Require Export base tactics option numbers strings gmap sorting.
From stdpp Require Export list.

(** ** Hint databases and the scope of the development *)

Create HintDb srv discriminated.
Create Rewrite HintDb srv_int.

Declare Scope srv_scope.
Delimit Scope srv_scope with srv.

(** ** Outcomes

    A Rust function returns normally, returns [Err] or panics ([unwrap],
    [expect], an arithmetic [expected!]).  [outcome E A] keeps the three apart. *)

Inductive outcome (E A : Type) : Type :=
  | Ok (a : A)
  | Err (e : E)
  | Panic.
Arguments Ok {E A} a.
Arguments Err {E A} e.
Arguments Panic {E A}.

#[export] Instance outcome_eq_dec `{EqDecision E, EqDecision A} : EqDecision (outcome E A).
Proof. solve_decision. Defined.

#[export] Instance outcome_ret E : MRet (outcome E) := @Ok E.
#[export] Instance outcome_bind E : MBind (outcome E) := fun A B f m =>
  match m with Ok a => f a | Err e => Err e | Panic => Panic end.
#[export] Instance outcome_fmap E : FMap (outcome E) := fun A B f m =>
  match m with Ok a => Ok (f a) | Err e => Err e | Panic => Panic end.

(** [Option::ok_or], [Option::expect], [Result::ok] and [Result::is_err]. *)
Definition ok_or {E A} (e : E) (o : option A) : outcome E A :=
  match o with Some a => Ok a | None => Err e end.
Definition expect {E A} (o : option A) : outcome E A :=
  match o with Some a => Ok a | None => Panic end.

(** Early returns: [reject_if b ; k] is [if b { return Ok(false) } k] and
    [let? p := o else r in k] is [let Some(p) = o else { r } ; k]. *)
Notation "'reject_if' b ; k" := (if b then Ok false else k)
  (at level 20, b at level 100, k at level 200, only parsing) : srv_scope.
Notation "'let?' x := o 'else' r 'in' k" :=
  (match o with Some x => k | None => r end)
  (at level 10, x name, o at level 100, r at level 100, k at level 200,
   only parsing) : srv_scope.

Section outcome_laws.
Context {E A B : Type}.
Implicit Types (m : outcome E A) (f : A → outcome E B).

Lemma bind_Ok_inv m f b :
  m ≫= f = Ok b → ∃ a, m = Ok a ∧ f a = Ok b.
Proof. destruct m; cbn; naive_solver. Qed.

Lemma bind_Panic_inv m f :
  m ≫= f = Panic → m = Panic ∨ ∃ a, m = Ok a ∧ f a = Panic.
Proof. destruct m; cbn; naive_solver. Qed.

Lemma bind_Err_inv m f e :
  m ≫= f = Err e → m = Err e ∨ ∃ a, m = Ok a ∧ f a = Err e.
Proof. destruct m; cbn; naive_solver. Qed.

Lemma expect_Panic (o : option A) : @expect E A o = Panic ↔ o = None.
Proof. destruct o; naive_solver. Qed.

Lemma ok_or_Ok (e : E) (o : option A) a : ok_or e o = Ok a ↔ o = Some a.
Proof. destruct o; naive_solver. Qed.

Lemma expect_Ok (o : option A) a : @expect E A o = Ok a ↔ o = Some a.
Proof. destruct o; naive_solver. Qed.

Lemma ok_or_not_Panic (e : E) (o : option A) : ok_or e o ≠ Panic.
Proof. by destruct o. Qed.

Lemma expect_no_panic (o : option A) : is_Some o → @expect E A o ≠ Panic.
Proof. by intros [a ->]. Qed.

Lemma bind_no_panic m f :
  m ≠ Panic → (∀ a, m = Ok a → f a ≠ Panic) → m ≫= f ≠ Panic.
Proof. destruct m; cbn; auto. Qed.
End outcome_laws.

#[export] Hint Resolve ok_or_not_Panic expect_no_panic : srv.

(** A body does not panic when no step of it does. *)
Ltac no_panic :=
  repeat first
    [ discriminate
    | solve [eauto with srv]
    | apply bind_no_panic; [|intros ? ?]
    | case_match ].

(** What a passed early return tells. *)
Lemma reject_Ok_inv {E} (b : bool) (k : outcome E bool) :
  (if b then Ok false else k) = Ok true → b = false ∧ k = Ok true.
Proof. by destruct b. Qed.

(** [mapM]-style traversal with early exit, the model of [try_collect] over a
    list that is already in the order of completion. *)
(** *** Sorted lists *)

Lemma sorted_fmap {A B} (f : A → B) (R1 : relation A) (R2 : relation B) l :
  (∀ x y, x ∈ l → y ∈ l → R1 x y → R2 (f x) (f y)) → StronglySorted R1 l → StronglySorted R2 (f <$> l).
Proof.
  intros Hf Hs. revert Hf. induction Hs as [|x l _ IH Hx]; intros Hf; [constructor|]. rewrite fmap_cons. constructor.
  - apply IH. intros ????. apply Hf; by right.
  - rewrite Forall_fmap, Forall_forall in *. intros y Hy. apply Hf; [by left|by right|by apply Hx].
Qed.
Lemma sorted_of_fmap {A B} (f : A → B) (R1 : relation A) (R2 : relation B) l :
  (∀ x y, R2 (f x) (f y) → R1 x y) → StronglySorted R2 (f <$> l) → StronglySorted R1 l.
Proof.
  intros Hf. induction l as [|x l IH]; [constructor|]. rewrite fmap_cons.
  intros [Hx Hs]%StronglySorted_cons. constructor; [by apply IH|]. rewrite Forall_fmap in Hx.
  eapply Forall_impl; [exact Hx|]. intros y. apply Hf.
Qed.
Lemma sorted_NoDup {A} (R : relation A) l : (∀ x, ¬ R x x) → StronglySorted R l → NoDup l.
Proof.
  intros Hr. induction 1 as [|x l _ IH Hx]; constructor; [|done].
  intros Hin. rewrite Forall_forall in Hx. by apply (Hr x), Hx.
Qed.

Lemma NoDup_fmap_inj {A B} (f : A → B) l x y : NoDup (f <$> l) → x ∈ l → y ∈ l → f x = f y → x = y.
Proof.
  induction l as [|z l IH]; [by intros _ ?%not_elem_of_nil|]. rewrite fmap_cons, NoDup_cons. intros [Hz Hnd].
  intros [->|Hx]%elem_of_cons [->|Hy]%elem_of_cons E; [done|..|by apply IH]; exfalso; apply Hz.
  - rewrite E. by apply list_elem_of_fmap_2.
  - rewrite <- E. by apply list_elem_of_fmap_2.
Qed.

Fixpoint try_map {E A B} (f : A → outcome E B) (l : list A) : outcome E (list B) :=
  match l with
  | [] => Ok []
  | x :: l => y ← f x; ys ← try_map f l; Ok (y :: ys)
  end.

Lemma try_map_fmap {E A B} (f : A → outcome E B) l ys : f <$> l = Ok <$> ys → try_map f l = Ok ys.
Proof.
  revert ys. induction l as [|x l IH]; intros [|y ys]; rewrite ?fmap_nil, ?fmap_cons; [done..|].
  intros [= Hx Hl]. cbn. rewrite Hx. cbn. by rewrite (IH ys Hl).
Qed.
Lemma try_map_Ok {E A B} (f : A → outcome E B) l ys :
  try_map f l = Ok ys ↔ Forall2 (λ x y, f x = Ok y) l ys.
Proof.
  revert ys. induction l as [|x l IH]; intros ys; simpl.
  - split; [by intros [= <-]|by inversion 1].
  - split.
    + intros (y & Hy & (ys' & Hys & [= <-])%bind_Ok_inv)%bind_Ok_inv.
      constructor; [done|by apply IH].
    + intros (y & ys' & Hy & Hys & ->)%Forall2_cons_inv_l.
      rewrite Hy; cbn. apply IH in Hys. by rewrite Hys.
Qed.

Lemma try_map_elem {E A B} (f : A → outcome E B) l ys y :
  try_map f l = Ok ys → y ∈ ys → ∃ x, x ∈ l ∧ f x = Ok y.
Proof.
  intros Hm%try_map_Ok [i Hi]%list_elem_of_lookup.
  destruct (Forall2_lookup_r _ _ _ _ _ Hm Hi) as (x & Hx & Hf). exists x. split; [|done].
  apply list_elem_of_lookup. eauto.
Qed.

(** Case analysis on the code's own control flow: every [match] and [if] the
    hypothesis [H] depends on, with contradictory branches closed. *)
Ltac step_in H :=
  repeat first
    [ discriminate H
    | progress simplify_eq H
    | apply bind_Ok_inv in H as (? & ? & H)
    | match type of H with
      | context [match ?x with _ => _ end] => destruct x eqn:?
      end ].

(** The path of an accepting run: [H : run = Ok true] becomes the results of its
    steps, in order, with the tests that did not reject. *)
Ltac pass_in H :=
  repeat first
    [ apply reject_Ok_inv in H as [? H]
    | apply bind_Ok_inv in H as (? & ? & H) ].

(** The facts such a path consists of, in the vocabulary of the model. *)
Ltac outcome_simp :=
  repeat (progress simplify_eq || match goal with
    | H : ok_or _ _ = Ok _ |- _ => apply ok_or_Ok in H
    | H : expect _ = Ok _ |- _ => apply expect_Ok in H
    | H : negb _ = false |- _ => apply negb_false_iff in H
    | H : bool_decide _ = true |- _ => apply bool_decide_eq_true in H
    | H : bool_decide _ = false |- _ => apply bool_decide_eq_false in H
    | H : ¬ (?x ≠ ?y) |- _ => apply (dec_stable (P := x = y)) in H
    end).

(** Case analysis on one decidable test of the goal. *)
Ltac by_test P :=
  let HP := fresh in
  destruct (decide P) as [HP|HP];
  [rewrite ?(bool_decide_eq_true_2 P HP) | rewrite ?(bool_decide_eq_false_2 P HP)].

Ltac split_ifs := repeat (case_match || case_bool_decide).

(** ** Machine integers: [u64], [i64], [usize] (64-bit targets) *)

Definition u64_bound : Z := 2 ^ 64.
Definition is_u64 (z : Z) : Prop := (0 ≤ z < 2 ^ 64)%Z.
Definition is_i64 (z : Z) : Prop := (- 2 ^ 63 ≤ z < 2 ^ 63)%Z.

(** [x as u64] and [x as i64]. *)
Definition as_u64 (z : Z) : Z := (z mod 2 ^ 64)%Z.
Definition as_i64 (z : Z) : Z :=
  let u := (z mod 2 ^ 64)%Z in if bool_decide (u < 2 ^ 63)%Z then u else (u - 2 ^ 64)%Z.

(** [checked_add], [checked_sub], [saturating_add], [saturating_sub]. *)
Definition in_range (lo hi z : Z) : bool := bool_decide (lo ≤ z ≤ hi)%Z.
Definition checked (lo hi z : Z) : option Z := if in_range lo hi z then Some z else None.
Definition saturate (lo hi z : Z) : Z := Z.max lo (Z.min hi z).
Definition u64_max : Z := (2 ^ 64 - 1)%Z.
Definition i64_min : Z := (- 2 ^ 63)%Z.
Definition i64_max : Z := (2 ^ 63 - 1)%Z.
Definition u64_checked := checked 0 u64_max.
Definition i64_checked := checked i64_min i64_max.
Definition u64_saturate := saturate 0 u64_max.
Definition i64_saturate := saturate i64_min i64_max.

Ltac int_unfold :=
  unfold is_u64, is_i64, as_u64, as_i64, u64_checked, i64_checked, u64_saturate,
    i64_saturate, checked, saturate, in_range, u64_max, i64_min, i64_max, u64_bound in *.

(** Arithmetic goals on machine integers: expose the bounds, split the range
    tests, finish with [lia] (the moduli are powers of two, as constants). *)
Ltac int_solve :=
  int_unfold; repeat case_bool_decide; simplify_eq;
  change (2 ^ 64)%Z with 18446744073709551616%Z in *;
  change (2 ^ 63)%Z with 9223372036854775808%Z in *;
  try (Z.to_euclidean_division_equations; lia).

Lemma as_u64_range z : is_u64 (as_u64 z).
Proof. int_solve. Qed.
Lemma as_i64_range z : is_i64 (as_i64 z).
Proof. int_solve. Qed.
Lemma as_i64_as_u64 z : is_i64 z → as_i64 (as_u64 z) = z.
Proof. int_solve. Qed.
Lemma as_u64_as_i64 z : is_u64 z → as_u64 (as_i64 z) = z.
Proof. int_solve. Qed.
Lemma as_i64_id z : is_i64 z → as_i64 z = z.
Proof. int_solve. Qed.
Lemma as_u64_id z : is_u64 z → as_u64 z = z.
Proof. int_solve. Qed.
#[export] Hint Resolve as_u64_range as_i64_range : srv.
#[export] Hint Rewrite as_i64_as_u64 as_u64_as_i64 using assumption : srv_int.

(** ** Lists *)

Lemma filter_none {A} (P : A → Prop) `{∀ x, Decision (P x)} (l : list A) :
  (∀ x, x ∈ l → ¬ P x) → filter P l = [].
Proof.
  induction l as [|x l IH]; intros Hn; [done|].
  rewrite filter_cons_False by (apply Hn; set_solver). apply IH. set_solver.
Qed.

Lemma filter_ext_in {A} (P Q : A → Prop) `{∀ x, Decision (P x), ∀ x, Decision (Q x)} (l : list A) :
  (∀ x, x ∈ l → P x ↔ Q x) → filter P l = filter Q l.
Proof.
  induction l as [|x l IH]; intros HPQ; [done|]. rewrite !filter_cons.
  rewrite IH by (intros y ?; apply HPQ; by right).
  pose proof (HPQ x ltac:(by left)). by destruct (decide (P x)), (decide (Q x)); tauto.
Qed.

(** Nested loops are one loop over the concatenation. *)
Lemma foldl_concat {A B C} (f : A → B → A) (g : C → list B) (a : A) (l : list C) :
  foldl (λ a c, foldl f a (g c)) a l = foldl f a (concat (g <$> l)).
Proof. revert a. induction l as [|c l IH]; intros a; simpl; [done|]. by rewrite IH, foldl_app. Qed.

Lemma foldl_fmap {A B C} (f : A → B → A) (g : C → B) (a : A) (l : list C) :
  foldl f a (g <$> l) = foldl (λ a c, f a (g c)) a l.
Proof. revert a. induction l as [|c l IH]; intros a; simpl; auto. Qed.

Lemma foldl_ext {A B} (f g : A → B → A) (a : A) (l : list B) :
  (∀ a b, b ∈ l → f a b = g a b) → foldl f a l = foldl g a l.
Proof.
  revert a. induction l as [|b l IH]; intros a Hfg; simpl; [done|].
  rewrite Hfg by (by left). apply IH. intros. apply Hfg. by right.
Qed.

Lemma elem_of_concat {A} (x : A) (ls : list (list A)) : x ∈ concat ls ↔ ∃ l, x ∈ l ∧ l ∈ ls.
Proof. induction ls as [|l ls IH]; simpl; set_solver. Qed.

Lemma elem_of_concat_fmap {A B} (f : A → list B) (x : B) (l : list A) :
  x ∈ concat (f <$> l) ↔ ∃ a, a ∈ l ∧ x ∈ f a.
Proof. rewrite elem_of_concat. setoid_rewrite list_elem_of_fmap. naive_solver. Qed.

(** [iter().find(p)]. *)
Fixpoint find {A} (p : A → bool) (l : list A) : option A :=
  match l with [] => None | x :: l => if p x then Some x else find p l end.

(** The multiplicity of an element. *)
Definition multiplicity {A} `{EqDecision A} (x : A) (l : list A) : nat :=
  length (filter (.= x) l).

Lemma multiplicity_app {A} `{EqDecision A} (x : A) l1 l2 :
  multiplicity x (l1 ++ l2) = multiplicity x l1 + multiplicity x l2.
Proof. unfold multiplicity. by rewrite filter_app, length_app. Qed.

Lemma multiplicity_singleton {A} `{EqDecision A} (x y : A) :
  multiplicity x [y] = if bool_decide (y = x) then 1 else 0.
Proof. unfold multiplicity. rewrite filter_cons, filter_nil. case_decide; by case_bool_decide. Qed.

Lemma multiplicity_elem_of {A} `{EqDecision A} (x : A) l : multiplicity x l = 0 ↔ x ∉ l.
Proof.
  unfold multiplicity. rewrite length_zero_iff_nil. split.
  - intros Hf Hx. assert (x ∈ filter (.= x) l) as Hin by (by apply list_elem_of_filter).
    rewrite Hf in Hin. by apply not_elem_of_nil in Hin.
  - intros Hx. apply filter_none. by intros y Hy ->.
Qed.

Lemma multiplicity_NoDup {A} `{EqDecision A} (x : A) l :
  NoDup l → multiplicity x l = if bool_decide (x ∈ l) then 1 else 0.
Proof.
  induction 1 as [|y l Hy Hnd IH]; [done|]. unfold multiplicity in *. rewrite filter_cons.
  destruct (decide (y = x)) as [->|Hne]; simpl.
  - rewrite bool_decide_eq_true_2 by (by left). rewrite IH, bool_decide_eq_false_2; done.
  - rewrite IH. apply (f_equal (λ b : bool, if b then 1 else 0)), bool_decide_ext.
    rewrite elem_of_cons. naive_solver.
Qed.

#[export] Instance multiplicity_perm {A} `{EqDecision A} (x : A) :
  Proper ((≡ₚ) ==> (=)) (multiplicity x).
Proof. intros l1 l2 Hp. unfold multiplicity. by rewrite Hp. Qed.

Lemma omap_cons {A B} (f : A → option B) x (l : list A) :
  omap f (x :: l) = match f x with Some y => y :: omap f l | None => omap f l end.
Proof. done. Qed.

Lemma Forall_filter {A} (Q P : A → Prop) `{∀ x, Decision (P x)} (l : list A) :
  Forall Q l → Forall Q (filter P l).
Proof. rewrite !Forall_forall. intros HQ x [_ ?]%list_elem_of_filter. auto. Qed.

Lemma StronglySorted_filter {A} (R : relation A) (P : A → Prop) `{∀ x, Decision (P x)} l :
  StronglySorted R l → StronglySorted R (filter P l).
Proof.
  induction 1 as [|x l Hs IH Hx]; [constructor|]. rewrite filter_cons. case_decide; [|done].
  constructor; [done|]. by apply Forall_filter.
Qed.

Lemma StronglySorted_reverse {A} (R : relation A) l :
  StronglySorted R l → StronglySorted (flip R) (reverse l).
Proof.
  induction 1 as [|x l Hs IH Hx]; [constructor|]. rewrite reverse_cons.
  apply StronglySorted_app_2; [|done|repeat constructor].
  intros y z Hy ->%list_elem_of_singleton. rewrite elem_of_reverse in Hy.
  rewrite Forall_forall in Hx. by apply Hx.
Qed.

(** ** What the runtime decides

    The order in which a hash map or set is iterated and in which concurrently running
    fetches complete ([broad_filter_map], [broad_and_then]); every place in the program has
    a number of its own. *)

Class Schedule := {
  order : nat → ∀ {A : Type}, list A → list A;
  order_perm n A (l : list A) : order n l ≡ₚ l;
}.
