(* ===== verification/Bytes.v ===== *)
(** * Byte strings: big-endian integers and the database key order

    Models [src/core/utils/bytes.rs] (the conversions between [u64] and its eight
    big-endian bytes) and the byte-wise lexicographic order in which the database
    iterates over keys.  The lemmas relate the two: on encodings of equal length
    the key order is the numeric order. *)

From S2P Require Import Prelude.

Local Open Scope Z_scope.

(** ** Bytes *)

Definition byte_val (b : byte) : Z := Z.of_N (Byte.to_N b).
Definition byte_of (z : Z) : byte := default x00 (Byte.of_N (Z.to_N (z mod 256))).

Lemma byte_val_range b : 0 ≤ byte_val b < 256.
Proof. unfold byte_val. pose proof (Byte.to_N_bounded b). lia. Qed.

Lemma byte_val_of z : byte_val (byte_of z) = z mod 256.
Proof.
  unfold byte_val, byte_of.
  destruct (Byte.of_N (Z.to_N (z mod 256))) as [b|] eqn:E; simpl.
  - apply Byte.to_of_N in E. rewrite E. pose proof (Z.mod_pos_bound z 256). lia.
  - apply Byte.of_N_None_iff in E. pose proof (Z.mod_pos_bound z 256). lia.
Qed.

Lemma byte_val_inj b c : byte_val b = byte_val c → b = c.
Proof.
  unfold byte_val. intros H%N2Z.inj.
  assert (Some b = Some c) as [= <-]; [|done].
  by rewrite <-(Byte.of_to_N b), <-(Byte.of_to_N c), H.
Qed.

Lemma byte_of_val b : byte_of (byte_val b) = b.
Proof.
  apply byte_val_inj. rewrite byte_val_of.
  apply Z.mod_small, byte_val_range.
Qed.

#[export] Instance byte_eq_dec : EqDecision byte := Byte.byte_eq_dec.

(** The bytes of a string ([str::as_bytes]). *)
Definition bytes_of_string (s : string) : list byte := String.list_byte_of_string s.
Lemma bytes_of_string_inj s t : bytes_of_string s = bytes_of_string t → s = t.
Proof.
  unfold bytes_of_string. intros E.
  rewrite <- (String.string_of_list_byte_of_string s), E. apply String.string_of_list_byte_of_string.
Qed.
#[export] Program Instance byte_countable : Countable byte :=
  inj_countable' byte_val byte_of _.
Next Obligation. apply byte_of_val. Qed.

(** ** Big-endian encodings *)

(** The [n] low-order bytes of [z], most significant first: [to_be_bytes] of an
    [n]-byte integer type (two's complement for a negative [z]). *)
Fixpoint be_bytes (n : nat) (z : Z) : list byte :=
  match n with
  | O => []
  | S n => byte_of (Z.shiftr z (8 * Z.of_nat n)) :: be_bytes n z
  end.

Definition be_value (l : list byte) : Z :=
  foldl (λ acc b, acc * 256 + byte_val b) 0 l.

Definition u64_be (z : Z) : list byte := be_bytes 8 z.

Lemma length_be_bytes n z : length (be_bytes n z) = n.
Proof. induction n; simpl; congruence. Qed.

Lemma be_value_acc l acc :
  foldl (λ acc b, acc * 256 + byte_val b) acc l = acc * 256 ^ Z.of_nat (length l) + be_value l.
Proof.
  unfold be_value. revert acc. induction l as [|b l IH]; intros acc; simpl foldl; simpl length.
  - cbn. lia.
  - rewrite IH, (IH (0 * 256 + byte_val b)), Nat2Z.inj_succ, Z.pow_succ_r by lia. lia.
Qed.

Lemma be_value_cons b l :
  be_value (b :: l) = byte_val b * 256 ^ Z.of_nat (length l) + be_value l.
Proof. unfold be_value at 1. simpl foldl. by rewrite be_value_acc. Qed.

Lemma be_value_app l k :
  be_value (l ++ k) = be_value l * 256 ^ Z.of_nat (length k) + be_value k.
Proof. unfold be_value at 1. rewrite foldl_app. by rewrite be_value_acc. Qed.

Lemma be_value_range l : 0 ≤ be_value l < 256 ^ Z.of_nat (length l).
Proof.
  induction l as [|b l IH]; [cbn; lia|].
  rewrite be_value_cons. simpl length. rewrite Nat2Z.inj_succ, Z.pow_succ_r by lia.
  pose proof (byte_val_range b). nia.
Qed.

Lemma be_value_bytes n z : be_value (be_bytes n z) = z mod 256 ^ Z.of_nat n.
Proof.
  induction n as [|n IH]; simpl be_bytes.
  - cbn. by rewrite Z.mod_1_r.
  - rewrite be_value_cons, length_be_bytes, IH, byte_val_of, Z.shiftr_div_pow2 by lia.
    rewrite Nat2Z.inj_succ, Z.pow_succ_r by lia.
    replace (2 ^ (8 * Z.of_nat n)) with (256 ^ Z.of_nat n) by (by rewrite Z.pow_mul_r by lia).
    rewrite (Z.mul_comm 256). rewrite Z.rem_mul_r by lia. lia.
Qed.

Lemma be_bytes_value l : be_bytes (length l) (be_value l) = l.
Proof.
  enough (∀ k, be_bytes (length l) (k * 256 ^ Z.of_nat (length l) + be_value l) = l) as H.
  { specialize (H 0). by rewrite Z.mul_0_l, Z.add_0_l in H. }
  induction l as [|b l IH]; intros k; [done|]. simpl length. simpl be_bytes.
  rewrite be_value_cons. f_equal.
  - rewrite Z.shiftr_div_pow2, Nat2Z.inj_succ, Z.pow_succ_r by lia.
    replace (2 ^ (8 * Z.of_nat (length l))) with (256 ^ Z.of_nat (length l))
      by (by rewrite Z.pow_mul_r by lia).
    pose proof (be_value_range l).
    replace (k * (256 * 256 ^ Z.of_nat (length l)) +
             (byte_val b * 256 ^ Z.of_nat (length l) + be_value l))
      with (be_value l + (k * 256 + byte_val b) * 256 ^ Z.of_nat (length l)) by lia.
    rewrite Z.div_add, Z.div_small by lia.
    apply byte_val_inj. rewrite byte_val_of.
    rewrite Z.add_0_l, Z.add_comm, Z_mod_plus_full. apply Z.mod_small, byte_val_range.
  - rewrite Nat2Z.inj_succ, Z.pow_succ_r by lia.
    replace (k * (256 * 256 ^ Z.of_nat (length l)) +
             (byte_val b * 256 ^ Z.of_nat (length l) + be_value l))
      with ((k * 256 + byte_val b) * 256 ^ Z.of_nat (length l) + be_value l) by lia.
    apply IH.
Qed.

(** ** [src/core/utils/bytes.rs] *)

(** The conversion of a slice to [[u8; 8]] fails unless it has eight bytes. *)
Definition u8x8_from_bytes (bytes : list byte) : option (list byte) :=
  if bool_decide (length bytes = 8%nat) then Some bytes else None.
Definition u64_from_u8x8 (bytes : list byte) : Z := be_value bytes.
Definition u64_from_bytes (bytes : list byte) : option Z :=
  u64_from_u8x8 <$> u8x8_from_bytes bytes.
Definition u64_from_bytes_or_zero (bytes : list byte) : Z := default 0 (u64_from_bytes bytes).
Definition u64_from_u8 (bytes : list byte) : outcome unit Z := expect (u64_from_bytes bytes).
Definition increment (old : option (list byte)) : list byte :=
  u64_be (as_u64 (from_option u64_from_bytes_or_zero 0 old + 1)).

Lemma length_u64_be z : length (u64_be z) = 8%nat.
Proof. apply length_be_bytes. Qed.

Lemma u64_from_be z : is_u64 z → u64_from_bytes (u64_be z) = Some z.
Proof.
  intros Hz. unfold u64_from_bytes, u8x8_from_bytes.
  rewrite length_u64_be. simpl. unfold u64_from_u8x8, u64_be. rewrite be_value_bytes.
  f_equal. apply Z.mod_small. int_solve.
Qed.

Lemma u64_be_inj x y : is_u64 x → is_u64 y → u64_be x = u64_be y → x = y.
Proof.
  intros Hx Hy H. apply (f_equal u64_from_bytes) in H.
  rewrite !u64_from_be in H by done. congruence.
Qed.

Lemma u64_be_i64 z : is_i64 z → be_value (u64_be z) = as_u64 z.
Proof. intros. unfold u64_be. by rewrite be_value_bytes. Qed.

Lemma u64_from_bytes_Some l z : u64_from_bytes l = Some z → l = u64_be z ∧ is_u64 z.
Proof.
  unfold u64_from_bytes, u8x8_from_bytes. case_bool_decide as Hl; [|done].
  simpl. intros [= <-]. unfold u64_from_u8x8, u64_be. rewrite <-Hl, be_bytes_value.
  split; [done|]. pose proof (be_value_range l) as Hr. rewrite Hl in Hr. int_solve.
Qed.

(** ** Byte-wise lexicographic order (slices and database keys) *)

Fixpoint bytes_cmp (l k : list byte) : comparison :=
  match l, k with
  | [], [] => Eq
  | [], _ :: _ => Lt
  | _ :: _, [] => Gt
  | b :: l, c :: k =>
      match byte_val b ?= byte_val c with Eq => bytes_cmp l k | o => o end
  end.

Definition bytes_lt (l k : list byte) : Prop := bytes_cmp l k = Lt.
Definition bytes_le (l k : list byte) : Prop := bytes_cmp l k ≠ Gt.

#[export] Instance bytes_lt_dec : RelDecision bytes_lt.
Proof. unfold bytes_lt. intros ??. apply _. Defined.
#[export] Instance bytes_le_dec : RelDecision bytes_le.
Proof. unfold bytes_le. intros ??. apply _. Defined.

Lemma bytes_cmp_refl l : bytes_cmp l l = Eq.
Proof. induction l; simpl; [done|]. by rewrite Z.compare_refl. Qed.

Lemma bytes_cmp_eq l k : bytes_cmp l k = Eq ↔ l = k.
Proof.
  split; [|intros ->; apply bytes_cmp_refl].
  revert k. induction l as [|b l IH]; intros [|c k]; simpl; try done.
  destruct (byte_val b ?= byte_val c) eqn:E; try done.
  apply Z.compare_eq in E. apply byte_val_inj in E as ->. intros ?. f_equal. by apply IH.
Qed.

Lemma bytes_cmp_antisym l k : bytes_cmp k l = CompOpp (bytes_cmp l k).
Proof.
  revert k. induction l as [|b l IH]; intros [|c k]; simpl; try done.
  rewrite (Z.compare_antisym (byte_val b) (byte_val c)).
  by destruct (byte_val b ?= byte_val c); simpl.
Qed.

Lemma bytes_cmp_trans l k m : bytes_cmp l k = Lt → bytes_cmp k m = Lt → bytes_cmp l m = Lt.
Proof.
  revert k m. induction l as [|b l IH]; intros [|c k] [|d m]; simpl; try done.
  destruct (Z.compare_spec (byte_val b) (byte_val c)) as [E|E|E],
    (Z.compare_spec (byte_val c) (byte_val d)) as [F|F|F]; try done; intros.
  - rewrite E, F, Z.compare_refl. eauto.
  - rewrite E. apply Z.compare_lt_iff in F. by rewrite F.
  - rewrite <-F. apply Z.compare_lt_iff in E. by rewrite E.
  - assert (byte_val b < byte_val d) as G%Z.compare_lt_iff by lia. by rewrite G.
Qed.

#[export] Instance bytes_lt_trans : Transitive bytes_lt.
Proof. intros ???. apply bytes_cmp_trans. Qed.
#[export] Instance bytes_lt_irrefl : Irreflexive bytes_lt.
Proof. intros l. unfold complement, bytes_lt. by rewrite bytes_cmp_refl. Qed.
#[export] Instance bytes_lt_trichotomy : Trichotomy bytes_lt.
Proof.
  intros l k. destruct (bytes_cmp l k) eqn:E.
  - right; left. by apply bytes_cmp_eq.
  - by left.
  - right; right. unfold bytes_lt. by rewrite bytes_cmp_antisym, E.
Qed.

Lemma bytes_le_lteq l k : bytes_le l k ↔ bytes_lt l k ∨ l = k.
Proof.
  unfold bytes_le, bytes_lt. rewrite <-bytes_cmp_eq. destruct (bytes_cmp l k); naive_solver.
Qed.

#[export] Instance bytes_le_trans : Transitive bytes_le.
Proof.
  intros l k m. rewrite !bytes_le_lteq. intros [?| ->] [?| ->]; auto. left. by trans k.
Qed.

Lemma bytes_cmp_app_same p l k : bytes_cmp (p ++ l) (p ++ k) = bytes_cmp l k.
Proof. induction p; simpl; [done|]. by rewrite Z.compare_refl. Qed.

(** A difference in an equal-length prefix decides the comparison. *)
Lemma bytes_cmp_app_prefix p q l k :
  length p = length q → bytes_cmp p q ≠ Eq → bytes_cmp (p ++ l) (q ++ k) = bytes_cmp p q.
Proof.
  revert q. induction p as [|b p IH]; intros [|c q] Hlen Hne; simpl in *; try done.
  destruct (byte_val b ?= byte_val c); naive_solver.
Qed.

(** On byte strings of one length, the key order is the order of the values. *)
Lemma bytes_cmp_value l k :
  length l = length k → bytes_cmp l k = (be_value l ?= be_value k).
Proof.
  revert k. induction l as [|b l IH]; intros [|c k] Hlen; simpl in *; try done.
  injection Hlen as Hlen. rewrite !be_value_cons, <-Hlen.
  pose proof (be_value_range l) as Hl. pose proof (be_value_range k) as Hk.
  rewrite <-Hlen in Hk.
  destruct (Z.compare_spec (byte_val b) (byte_val c)) as [E|E|E].
  - by rewrite E, IH, Z.add_compare_mono_l by done.
  - symmetry. apply Z.compare_lt_iff. nia.
  - symmetry. apply Z.compare_gt_iff. nia.
Qed.

Lemma bytes_cmp_u64 x y :
  is_u64 x → is_u64 y → bytes_cmp (u64_be x) (u64_be y) = (x ?= y).
Proof.
  intros Hx Hy. rewrite bytes_cmp_value by (by rewrite !length_u64_be).
  unfold u64_be. rewrite !be_value_bytes. f_equal; apply Z.mod_small; int_solve.
Qed.
Lemma cmp_counts n n' k k' :
  is_u64 n → is_u64 n' → n ≠ n' → bytes_cmp (u64_be n ++ k) (u64_be n' ++ k') = (n ?= n').
Proof.
  intros ?? Hne. rewrite bytes_cmp_app_prefix; rewrite ?length_u64_be, ?bytes_cmp_u64 by done; try done.
  by rewrite Z.compare_eq_iff.
Qed.
