(* ===== verification/Backoff.v ===== *)
(** * Exponential backoff

    Models [src/core/utils/time/exponential_backoff.rs]: whether what failed some times is to
    be left alone for now.  Times are in nanoseconds. *)

From S2P Require Import Prelude.

Local Open Scope Z_scope.

(** Durations saturate. *)
Definition DURATION_MAX : Z := u64_max * 10 ^ 9 + 999999999.
Definition duration_mul (x n : Z) : Z := Z.min (x * n) DURATION_MAX.
Definition continue_exponential_backoff (min max elapsed tries : Z) : bool :=
  let min := duration_mul (duration_mul min tries) tries in
  let min := Z.min min max in
  bool_decide (elapsed < min).
Definition continue_exponential_backoff_secs (min max elapsed tries : Z) : bool :=
  continue_exponential_backoff (min * 10 ^ 9) (max * 10 ^ 9) elapsed tries.
Definition u32_max : Z := 2 ^ 32 - 1.

(** The backoff lasts as long as the smaller of the square of the tries and the maximum,
    whatever saturates on the way. *)
Lemma continue_exponential_backoff_iff min max elapsed tries :
  0 ≤ min → 0 ≤ tries → max ≤ DURATION_MAX →
  continue_exponential_backoff min max elapsed tries = true ↔ elapsed < Z.min (min * tries * tries) max.
Proof.
  intros Hmin Ht Hmax. unfold continue_exponential_backoff, duration_mul. rewrite bool_decide_eq_true.
  assert (0 < DURATION_MAX) by by vm_compute. generalize dependent DURATION_MAX. intros D HmD HD.
  destruct (decide (tries = 0)) as [->|Hne]; [rewrite !Z.mul_0_r; lia|].
  assert (0 ≤ min * tries) by nia. assert (D ≤ D * tries) by nia.
  destruct (Z.le_gt_cases (min * tries) D) as [Hm|Hm].
  - rewrite (Z.min_l (min * tries)) by done. lia.
  - rewrite (Z.min_r (min * tries)) by lia. assert (min * tries ≤ min * tries * tries) by nia. lia.
Qed.

(** More tries never make the backoff shorter. *)
Lemma continue_exponential_backoff_mono min max elapsed tries tries' :
  0 ≤ min → 0 ≤ tries ≤ tries' → max ≤ DURATION_MAX →
  continue_exponential_backoff min max elapsed tries = true → continue_exponential_backoff min max elapsed tries' = true.
Proof.
  intros Hmin Ht Hmax. rewrite !continue_exponential_backoff_iff by lia.
  assert (min * tries * tries ≤ min * tries' * tries') by (apply Z.mul_le_mono_nonneg; nia). lia.
Qed.
