(* ===== verification/PduId.v ===== *)
(** * Timeline positions: [Count], [Id] and [RawId]

    Models [src/core/matrix/pdu/count.rs], [id.rs] and [raw_id.rs].  A position
    in a room's timeline is a [Count]: live events count up from the global
    counter ([Normal]), backfilled history counts down ([Backfilled]).  The
    database key of an event is the [RawId], sixteen or twenty-four bytes, and
    every timeline scan depends on the byte order of those keys being the order
    of the counts. *)

From S2P Require Import Prelude Bytes.

Local Open Scope Z_scope.

(** [ruma::api::Direction]. *)
Inductive Direction := Forward | Backward.

Module Count.

(** [Normal] holds a [u64], [Backfilled] an [i64]. *)
Inductive Count :=
| Normal (n : Z)
| Backfilled (n : Z).

#[export] Instance Count_eq_dec : EqDecision Count.
Proof. solve_decision. Defined.

(** The machine types of the two payloads. *)
Definition typed (c : Count) : Prop :=
match c with Normal n => is_u64 n | Backfilled n => is_i64 n end.

(** The invariant of the positions the server hands out: live counts are positive
  and fit an [i64], backfilled ones are not positive (what [debug_assert_valid]
  checks in debug builds). *)
Definition valid (c : Count) : Prop :=
match c with Normal n => 0 < n < 2 ^ 63 | Backfilled n => - 2 ^ 63 ≤ n ≤ 0 end.

#[export] Instance valid_dec c : Decision (valid c).
Proof. destruct c; apply _. Defined.

Definition from_signed (signed : Z) : Count :=
if bool_decide (i64_min ≤ signed ≤ 0) then Backfilled signed else Normal (as_u64 signed).
Definition from_unsigned (unsigned : Z) : Count := from_signed (as_i64 unsigned).

Definition into_unsigned (c : Count) : Z :=
match c with Normal i => i | Backfilled i => as_u64 i end.
Definition into_signed (c : Count) : Z :=
match c with Normal i => as_i64 i | Backfilled i => i end.
Definition into_normal (c : Count) : Count :=
match c with Normal i => Normal i | Backfilled _ => Normal 0 end.

Definition checked_add (c : Count) (add : Z) : option Count :=
match c with
| Normal i => Normal <$> u64_checked (i + add)
| Backfilled i => Backfilled <$> i64_checked (i + as_i64 add)
end.
Definition checked_sub (c : Count) (sub : Z) : option Count :=
match c with
| Normal i => Normal <$> u64_checked (i - sub)
| Backfilled i => Backfilled <$> i64_checked (i - as_i64 sub)
end.
Definition checked_inc (c : Count) (dir : Direction) : option Count :=
match dir with Forward => checked_add c 1 | Backward => checked_sub c 1 end.

Definition saturating_add (c : Count) (add : Z) : Count :=
match c with
| Normal i => Normal (u64_saturate (i + add))
| Backfilled i => Backfilled (i64_saturate (i + as_i64 add))
end.
Definition saturating_sub (c : Count) (sub : Z) : Count :=
match c with
| Normal i => Normal (u64_saturate (i - sub))
| Backfilled i => Backfilled (i64_saturate (i - as_i64 sub))
end.
Definition saturating_inc (c : Count) (dir : Direction) : Count :=
match dir with Forward => saturating_add c 1 | Backward => saturating_sub c 1 end.

Definition min : Count := Backfilled i64_min.
Definition max : Count := Normal (as_u64 i64_max).
Definition default_count : Count := Normal 0.

(** [impl Ord for Count]. *)
Definition cmp (a b : Count) : comparison := into_signed a ?= into_signed b.

(** ** Lemmas *)

Lemma into_signed_from_signed z : is_i64 z → into_signed (from_signed z) = z.
Proof. unfold from_signed. int_solve; cbn; int_solve. Qed.

Lemma from_signed_into_signed c : valid c → from_signed (into_signed c) = c.
Proof.
unfold from_signed. destruct c as [n|n]; cbn; intros; int_unfold;
  repeat case_bool_decide; try f_equal; int_solve.
Qed.

Lemma into_signed_valid c : valid c → is_i64 (into_signed c).
Proof. destruct c; cbn; int_solve. Qed.

Lemma from_unsigned_into_unsigned c : valid c → from_unsigned (into_unsigned c) = c.
Proof.
intros Hc. unfold from_unsigned.
replace (as_i64 (into_unsigned c)) with (into_signed c).
- by apply from_signed_into_signed.
- destruct c; cbn in *; int_solve.
Qed.

Lemma into_signed_inj a b : valid a → valid b → into_signed a = into_signed b → a = b.
Proof.
intros Ha Hb H. rewrite <-(from_signed_into_signed a), <-(from_signed_into_signed b) by done.
by rewrite H.
Qed.

Lemma into_signed_Normal n : valid (Normal n) → into_signed (Normal n) = n.
Proof. cbn. int_solve. Qed.

Lemma cmp_eq_valid a b : valid a → valid b → cmp a b = Eq ↔ a = b.
Proof.
intros Ha Hb. unfold cmp. rewrite Z.compare_eq_iff. split; [by apply into_signed_inj|congruence].
Qed.

Lemma saturating_inc_forward c :
valid c → c ≠ max → into_signed (saturating_inc c Forward) = into_signed c + 1.
Proof.
intros Hc Hm. destruct c as [n|n]; cbn in *; [|int_solve].
assert (n ≠ i64_max) by (intros ->; apply Hm; unfold max; f_equal; int_solve).
int_solve.
Qed.

Lemma saturating_inc_backward c :
valid c → c ≠ min → into_signed (saturating_inc c Backward) = into_signed c - 1.
Proof.
intros Hc Hm. destruct c as [n|n]; cbn in *; [int_solve|].
assert (n ≠ i64_min) by (intros ->; by apply Hm). int_solve.
Qed.

End Count.
Import Count.

(** ** Ids and their database keys *)

Record Id := mkId { shortroomid : Z; shorteventid : Count }.

Inductive RawId :=
  | RawNormal (raw : list byte)
  | RawBackfilled (raw : list byte).

Definition INT_LEN : nat := 8.
Definition NORMAL_LEN : nat := 16.
Definition BACKFILLED_LEN : nat := 24.

Definition as_bytes (r : RawId) : list byte :=
  match r with RawNormal raw => raw | RawBackfilled raw => raw end.

Definition raw_shortroomid (r : RawId) : list byte := take INT_LEN (as_bytes r).
Definition raw_shorteventid (r : RawId) : list byte :=
  match r with
  | RawNormal raw => take INT_LEN (drop INT_LEN raw)
  | RawBackfilled raw => take INT_LEN (drop (INT_LEN * 2) raw)
  end.

(** [impl From<&[u8]> for RawId]; any other length is [unimplemented!]. *)
Definition raw_of_slice (id : list byte) : outcome unit RawId :=
  if bool_decide (length id = NORMAL_LEN) then Ok (RawNormal id)
  else if bool_decide (length id = BACKFILLED_LEN) then Ok (RawBackfilled id)
  else Panic.

(** [impl From<Id> for RawId]. *)
Definition raw_of_id (id : Id) : RawId :=
  match shorteventid id with
  | Normal n => RawNormal (u64_be (shortroomid id) ++ u64_be n)
  | Backfilled n => RawBackfilled (u64_be (shortroomid id) ++ u64_be 0 ++ u64_be n)
  end.

(** [impl From<RawId> for Id]. *)
Definition id_of_raw (r : RawId) : Id :=
  {| shortroomid := u64_from_u8x8 (raw_shortroomid r);
     shorteventid := from_unsigned (u64_from_u8x8 (raw_shorteventid r)) |}.

Definition pdu_count (r : RawId) : Count := shorteventid (id_of_raw r).

Definition id_valid (id : Id) : Prop := is_u64 (shortroomid id) ∧ valid (shorteventid id).

(** ** Properties *)

Lemma take_u64_be z l : take INT_LEN (u64_be z ++ l) = u64_be z.
Proof. by rewrite take_app_length' by (by rewrite length_u64_be). Qed.
Lemma drop_u64_be z l : drop INT_LEN (u64_be z ++ l) = l.
Proof. by rewrite drop_app_length' by (by rewrite length_u64_be). Qed.
Lemma take_u64_be' z : take INT_LEN (u64_be z) = u64_be z.
Proof. by rewrite take_ge by (by rewrite length_u64_be). Qed.

Lemma u64_value z : is_u64 z → u64_from_u8x8 (u64_be z) = z.
Proof.
  intros Hz. unfold u64_from_u8x8, u64_be. rewrite be_value_bytes.
  apply Z.mod_small. int_solve.
Qed.

Lemma raw_shortroomid_of_id id : raw_shortroomid (raw_of_id id) = u64_be (shortroomid id).
Proof. unfold raw_shortroomid, raw_of_id. destruct (shorteventid id); apply take_u64_be. Qed.

Lemma raw_shorteventid_of_id id :
  raw_shorteventid (raw_of_id id) =
    match shorteventid id with Normal n => u64_be n | Backfilled n => u64_be n end.
Proof.
  unfold raw_shorteventid, raw_of_id. destruct (shorteventid id) as [n|n]; cbv iota.
  - by rewrite drop_u64_be, take_u64_be'.
  - rewrite app_assoc, drop_app_length' by (by rewrite length_app, !length_u64_be).
    by rewrite take_u64_be'.
Qed.

Lemma id_of_raw_of_id id : id_valid id → id_of_raw (raw_of_id id) = id.
Proof.
  intros [Hr Hc]. unfold id_of_raw. rewrite raw_shortroomid_of_id, raw_shorteventid_of_id.
  destruct id as [room count]; simpl in *. f_equal; [by apply u64_value|].
  rewrite <-(from_unsigned_into_unsigned count) at 2 by done.
  destruct count as [n|n]; simpl in *.
  - rewrite u64_value by int_solve. done.
  - f_equal. unfold u64_from_u8x8. rewrite u64_be_i64 by int_solve. done.
Qed.

(** The key of a position, and the positions whose keys are ordered like their
    counts: every valid one but the boundary [Backfilled 0]. *)
Definition raw_key (room : Z) (c : Count) : list byte := as_bytes (raw_of_id (mkId room c)).
Definition keyable (c : Count) : Prop := valid c ∧ c ≠ Backfilled 0.

#[export] Instance keyable_dec c : Decision (keyable c).
Proof. unfold keyable. apply _. Defined.

Lemma raw_key_cons room c :
  raw_key room c = u64_be room ++
    match c with Normal n => u64_be n | Backfilled n => u64_be 0 ++ u64_be n end.
Proof. by destruct c. Qed.

Lemma bytes_cmp_neg x y :
  - 2 ^ 63 ≤ x < 0 → - 2 ^ 63 ≤ y < 0 → bytes_cmp (u64_be x) (u64_be y) = (x ?= y).
Proof.
  intros Hx Hy. rewrite bytes_cmp_value by (by rewrite !length_u64_be).
  rewrite !u64_be_i64 by int_solve.
  destruct (Z.compare_spec x y); [subst; apply Z.compare_refl|apply Z.compare_lt_iff|
    apply Z.compare_gt_iff]; int_solve.
Qed.

Lemma bytes_cmp_live_backfilled n m : 0 < n < 2 ^ 63 → bytes_cmp (u64_be n) (u64_be 0 ++ m) = Gt.
Proof.
  intros Hn. rewrite <-(app_nil_r (u64_be n)).
  assert (bytes_cmp (u64_be n) (u64_be 0) = Gt) as H.
  { rewrite bytes_cmp_u64 by int_solve. apply Z.compare_gt_iff. lia. }
  rewrite bytes_cmp_app_prefix; [done|by rewrite !length_u64_be|by rewrite H].
Qed.

Lemma raw_key_cmp room a b :
  is_u64 room → keyable a → keyable b →
  bytes_cmp (raw_key room a) (raw_key room b) = cmp a b.
Proof.
  intros Hr [Ha Ha0] [Hb Hb0]. rewrite !raw_key_cons, bytes_cmp_app_same. unfold cmp.
  destruct a as [n|n], b as [m|m]; simpl in Ha, Hb.
  - rewrite bytes_cmp_u64, !into_signed_Normal by (done || int_solve). done.
  - rewrite bytes_cmp_live_backfilled, into_signed_Normal by done.
    symmetry. apply Z.compare_gt_iff. cbn. lia.
  - rewrite bytes_cmp_antisym, bytes_cmp_live_backfilled, into_signed_Normal by done.
    symmetry. apply Z.compare_lt_iff. cbn. lia.
  - rewrite bytes_cmp_app_same. cbn. apply bytes_cmp_neg; split; try lia;
      apply Z.le_neq; (split; [lia|]); congruence.
Qed.

(** The keys of one room are contiguous: rooms compare first. *)
Lemma raw_key_cmp_rooms r s a b :
  is_u64 r → is_u64 s → r ≠ s → bytes_cmp (raw_key r a) (raw_key s b) = (r ?= s).
Proof.
  intros Hr Hs Hne. rewrite !raw_key_cons, bytes_cmp_app_prefix, bytes_cmp_u64;
    rewrite ?length_u64_be, ?bytes_cmp_u64 by done; try done.
  by rewrite Z.compare_eq_iff.
Qed.

(** The boundary: [Backfilled 0] is the greatest backfilled position but has the
    least key of its room. *)
Lemma raw_key_zero_least room n :
  - 2 ^ 63 ≤ n < 0 → bytes_cmp (raw_key room (Backfilled 0)) (raw_key room (Backfilled n)) = Lt.
Proof.
  intros Hn. rewrite !raw_key_cons, !bytes_cmp_app_same.
  rewrite bytes_cmp_value by (by rewrite !length_u64_be).
  rewrite !u64_be_i64 by int_solve. apply Z.compare_lt_iff. int_solve.
Qed.

Lemma as_bytes_of_id id : as_bytes (raw_of_id id) = raw_key (shortroomid id) (shorteventid id).
Proof. by destruct id. Qed.

Lemma length_raw_key room c :
  length (raw_key room c) =
    match c with Normal _ => NORMAL_LEN | Backfilled _ => BACKFILLED_LEN end.
Proof. rewrite raw_key_cons. destruct c; by rewrite ?length_app, !length_u64_be. Qed.

Lemma raw_of_slice_key room c :
  raw_of_slice (raw_key room c) = Ok (raw_of_id (mkId room c)).
Proof. unfold raw_of_slice. rewrite length_raw_key. by destruct c. Qed.

Lemma raw_of_slice_id id : raw_of_slice (as_bytes (raw_of_id id)) = Ok (raw_of_id id).
Proof. rewrite as_bytes_of_id, raw_of_slice_key. by destruct id. Qed.

Lemma pdu_count_key room c :
  is_u64 room → valid c → pdu_count (raw_of_id (mkId room c)) = c.
Proof. intros. unfold pdu_count. by rewrite id_of_raw_of_id. Qed.

Lemma raw_key_inj r s a b :
  is_u64 r → is_u64 s → valid a → valid b → raw_key r a = raw_key s b → r = s ∧ a = b.
Proof.
  intros Hr Hs Ha Hb H.
  assert (Ok (raw_of_id (mkId r a)) = Ok (E:=unit) (raw_of_id (mkId s b))) as [= E].
  { by rewrite <-!raw_of_slice_key, H. }
  apply (f_equal id_of_raw) in E. rewrite !id_of_raw_of_id in E by done. by simplify_eq.
Qed.

(** ** Claims *)

(** Reading back the database key of a well-formed timeline position
    succeeds and gives the position, live or backfilled, that was stored. *)
Theorem raw_id_round_trip id :
  id_valid id →
  ∃ r, raw_of_slice (as_bytes (raw_of_id id)) = Ok r ∧
       id_of_raw r = id ∧ pdu_count r = shorteventid id.
Proof.
  intros H. exists (raw_of_id id). rewrite as_bytes_of_id, raw_of_slice_key.
  destruct id, H. rewrite id_of_raw_of_id, pdu_count_key by done. done.
Qed.

Lemma raw_id_round_trip_witness :
  ∃ r, raw_of_slice (as_bytes (raw_of_id (mkId 7 (Backfilled (-5))))) = Ok r ∧
       id_of_raw r = mkId 7 (Backfilled (-5)) ∧ pdu_count r = Backfilled (-5).
Proof. apply (raw_id_round_trip (mkId 7 (Backfilled (-5)))). vm_compute. done. Defined.

(** The byte order of the database keys is the order of the rooms and, within
    a room, of the timeline positions, so a key scan visits the backfilled and the
    live events of a room contiguously and in timeline order. *)
Theorem raw_key_order r s a b :
  is_u64 r → is_u64 s → keyable a → keyable b →
  bytes_cmp (raw_key r a) (raw_key s b) =
    match r ?= s with Eq => cmp a b | o => o end.
Proof.
  intros Hr Hs Ha Hb. destruct (Z.compare_spec r s) as [->|E|E].
  - by apply raw_key_cmp.
  - rewrite raw_key_cmp_rooms by (done || lia). by apply Z.compare_lt_iff.
  - rewrite raw_key_cmp_rooms by (done || lia). by apply Z.compare_gt_iff.
Qed.

Lemma raw_key_order_witness :
  bytes_cmp (raw_key 3 (Backfilled (-9))) (raw_key 3 (Normal 4)) = Lt.
Proof. apply (raw_key_order 3 3 (Backfilled (-9)) (Normal 4)); vm_compute; done. Defined.
