(* ===== verification/DbMap.v ===== *)
(** * The ordered key-value store behind [database::Map]

    [Store] is what the server relies on of RocksDB, which is not part of the
    repository: point reads and writes, and cursors that visit the entries in the
    byte order of their keys.  On top of it stand the operations of
    [src/database/map/]: [get], [insert], [remove], [raw_stream_from],
    [rev_raw_stream_from] and [raw_stream_prefix].  [gmap_store] is an instance, so
    the laws are consistent and the definitions run. *)

From S2P Require Import Prelude Bytes.

Abbreviation bytes := (list byte).
Abbreviation KeyVal := (bytes * bytes)%type.

(** Entries in ascending key order. *)
Definition key_lt (x y : KeyVal) : Prop := bytes_lt x.1 y.1.

(** The engine: RocksDB's documented contract. *)
Class Store (DB : Type) := {
  store_empty : DB;
  store_get : DB → bytes → option bytes;
  store_put : DB → bytes → bytes → DB;
  store_delete : DB → bytes → DB;
  (** every entry, as a cursor from the first key visits them *)
  store_scan : DB → list KeyVal;
  (** a cursor positioned by [seek] (first key not below) and moved by [next] *)
  store_seek : DB → bytes → list KeyVal;
  (** a cursor positioned by [seek_for_prev] (last key not above), moved by [prev] *)
  store_seek_for_prev : DB → bytes → list KeyVal;
  store_get_empty k : store_get store_empty k = None;
  store_get_put s k v k' :
    store_get (store_put s k v) k' = if bool_decide (k = k') then Some v else store_get s k';
  store_get_delete s k k' :
    store_get (store_delete s k) k' = if bool_decide (k = k') then None else store_get s k';
  store_scan_sorted s : StronglySorted key_lt (store_scan s);
  store_scan_spec s k v : (k, v) ∈ store_scan s ↔ store_get s k = Some v;
  store_seek_spec s k :
    store_seek s k = filter (λ kv : KeyVal, bytes_le k kv.1) (store_scan s);
  store_seek_for_prev_spec s k :
    store_seek_for_prev s k = reverse (filter (λ kv : KeyVal, bytes_le kv.1 k) (store_scan s));
}.

(** ** The instance over finite maps *)

Definition kv_le (x y : KeyVal) : Prop := bytes_le x.1 y.1.
#[export] Instance kv_le_dec : RelDecision kv_le.
Proof. intros x y. unfold kv_le. apply _. Defined.

#[export] Instance kv_le_total : Total kv_le.
Proof.
  intros [k v] [k' v']. unfold kv_le; simpl. rewrite !bytes_le_lteq.
  destruct (trichotomy bytes_lt k k') as [?|[?|?]]; naive_solver.
Qed.
#[export] Instance kv_le_trans : Transitive kv_le.
Proof.
  intros [k v] [k' v'] [k'' v'']. unfold kv_le; simpl. rewrite !bytes_le_lteq.
  intros [?|?] [?|?]; subst; eauto. left. by trans k'.
Qed.

Definition gmap_scan (m : gmap bytes bytes) : list KeyVal := merge_sort kv_le (map_to_list m).

Lemma gmap_scan_perm m : gmap_scan m ≡ₚ map_to_list m.
Proof. apply merge_sort_Permutation. Qed.

Lemma strict_of_nodup (l : list KeyVal) :
  NoDup (l.*1) → StronglySorted kv_le l → StronglySorted key_lt l.
Proof.
  induction l as [|[k v] l IH]; simpl; [constructor|].
  intros [Hk Hnd]%NoDup_cons [Hall Hs]%StronglySorted_cons. constructor; [by apply IH|].
  rewrite Forall_forall in Hall |- *. intros [k' v'] Hin.
  specialize (Hall _ Hin). unfold kv_le in Hall; simpl in Hall.
  apply bytes_le_lteq in Hall as [?| ->]; [done|].
  destruct Hk. apply list_elem_of_fmap. by eexists (_, v').
Qed.

Lemma gmap_scan_sorted m : StronglySorted key_lt (gmap_scan m).
Proof.
  apply strict_of_nodup.
  - rewrite gmap_scan_perm. apply NoDup_fst_map_to_list.
  - apply StronglySorted_merge_sort; apply _.
Qed.

#[export] Program Instance gmap_store : Store (gmap bytes bytes) := {|
  store_empty := ∅;
  store_get m k := m !! k;
  store_put m k v := <[k:=v]> m;
  store_delete m k := delete k m;
  store_scan := gmap_scan;
  store_seek m k := filter (λ kv : KeyVal, bytes_le k kv.1) (gmap_scan m);
  store_seek_for_prev m k := reverse (filter (λ kv : KeyVal, bytes_le kv.1 k) (gmap_scan m));
|}.
Next Obligation. apply lookup_empty. Qed.
Next Obligation. intros. simpl. rewrite lookup_insert. by case_bool_decide; case_decide. Qed.
Next Obligation. intros. simpl. rewrite lookup_delete. by case_bool_decide; case_decide. Qed.
Next Obligation. apply gmap_scan_sorted. Qed.
Next Obligation. intros m k v. simpl. by rewrite gmap_scan_perm, elem_of_map_to_list. Qed.
Next Obligation. done. Qed.
Next Obligation. done. Qed.

(** ** [src/database/map/] *)

Section map.
Context {DB : Type} `{Store DB}.
Implicit Types (m : DB) (k v : bytes).

Definition map_get m k : option bytes := store_get m k.
Definition map_insert m k v : DB := store_put m k v.
Definition map_remove m k : DB := store_delete m k.
Definition insert_batch m (rows : list KeyVal) : DB := foldl (λ m row, map_insert m row.1 row.2) m rows.
Definition map_contains m k : bool := bool_decide (is_Some (store_get m k)).

(** Entries from the lower bound upwards. *)
Definition raw_stream_from m k : list KeyVal := store_seek m k.
(** Entries from the upper bound downwards. *)
Definition rev_raw_stream_from m k : list KeyVal := store_seek_for_prev m k.

Definition starts_with (k prefix : bytes) : Prop := take (length prefix) k = prefix.
#[export] Instance starts_with_dec k p : Decision (starts_with k p).
Proof. unfold starts_with. apply _. Defined.

(** [take_while] on an ordered stream. *)
Fixpoint take_while {A} (P : A → Prop) `{∀ x, Decision (P x)} (l : list A) : list A :=
  match l with
  | [] => []
  | x :: l => if decide (P x) then x :: take_while P l else []
  end.

Definition raw_stream_prefix m prefix : list KeyVal :=
  take_while (λ kv : KeyVal, starts_with kv.1 prefix) (raw_stream_from m prefix).
End map.

(** ** Lemmas *)

Lemma take_while_all {A} (P : A → Prop) `{∀ x, Decision (P x)} l :
  Forall P l → take_while P l = l.
Proof. induction 1; simpl; [done|]. rewrite decide_True by done. by f_equal. Qed.

Lemma take_while_filter {A} (R : relation A) (P : A → Prop) `{∀ x, Decision (P x)} l :
  StronglySorted R l →
  (∀ x y, x ∈ l → y ∈ l → R x y → P y → P x) →
  take_while P l = filter P l.
Proof.
  induction 1 as [|x l Hs IH Hx]; intros Hdown; simpl; [done|].
  rewrite filter_cons. case_decide as HP.
  - f_equal. apply IH. intros y z Hy Hz. apply Hdown; set_solver.
  - symmetry. rewrite Forall_forall in Hx.
    apply filter_none. intros y Hy HPy. apply HP, (Hdown x y); [set_solver..| |done].
    by apply Hx.
Qed.

Create Rewrite HintDb srv_map.

Section map_lemmas.
Context {DB : Type} `{Store DB}.
Implicit Types (m : DB) (k v : bytes).

Lemma map_get_insert_eq m k v : map_get (map_insert m k v) k = Some v.
Proof. unfold map_get, map_insert. by rewrite store_get_put, bool_decide_eq_true_2. Qed.
Lemma map_get_insert_ne m k v k' : k ≠ k' → map_get (map_insert m k v) k' = map_get m k'.
Proof. intros. unfold map_get, map_insert. by rewrite store_get_put, bool_decide_eq_false_2. Qed.
Lemma map_get_remove_eq m k : map_get (map_remove m k) k = None.
Proof. unfold map_get, map_remove. by rewrite store_get_delete, bool_decide_eq_true_2. Qed.
Lemma map_get_remove_ne m k k' : k ≠ k' → map_get (map_remove m k) k' = map_get m k'.
Proof. intros. unfold map_get, map_remove. by rewrite store_get_delete, bool_decide_eq_false_2. Qed.
Lemma map_get_empty k : map_get store_empty k = None.
Proof. apply store_get_empty. Qed.
Lemma map_contains_get m k : map_contains m k = match map_get m k with Some _ => true | _ => false end.
Proof. unfold map_contains, map_get. destruct (store_get m k); [|done]. by apply bool_decide_eq_true_2. Qed.
End map_lemmas.
#[export] Hint Rewrite @map_get_insert_eq @map_get_remove_eq @map_get_empty @map_contains_get : srv_map.
#[export] Hint Rewrite @map_get_insert_ne @map_get_remove_ne using done : srv_map.
