(* ===== verification/DbSer.v ===== *)
(** * Keys and values of the database as bytes

    Models [src/database/ser.rs] and [src/database/de.rs]: the serde back end that writes
    the fields of a tuple one after the other with the byte 0xFF between them, and reads
    them back.  A Rust value is a term of serde's data model ([Value]), the type it is read
    at a [Shape].  The model is that of a release build: [depth] and [fin] change only under
    [debug_assertions] and decide nothing else. *)

From S2P Require Import Prelude Bytes DbMap.

Inductive SerdeError := WriteZero | Utf8Error | SerdeDe | InvalidLength.
#[export] Instance SerdeError_eq_dec : EqDecision SerdeError.
Proof. solve_decision. Defined.

(** Record separator; a byte that no UTF-8 text has. *)
Definition SEP : byte := xff.

(** ** Serialization *)

(** [VText] is what [serde_json] or [minicbor] writes for the newtypes [Json] and [Cbor];
    [VUnhandled] stands for the types whose method is [unhandled!]: bool, floats, unit,
    maps, structs and enum variants. *)
Inductive Value :=
  | VStr (s : bytes)
  | VBytes (b : bytes)
  | VU64 (z : Z)
  | VI64 (z : Z)
  | VU32 (z : Z)
  | VI32 (z : Z)
  | VU8 (z : Z)
  | VNone
  | VSome (v : Value)
  | VSeq (vs : list Value)
  | VTuple (vs : list Value)
  | VInterfix
  | VSeparator
  | VText (b : bytes)
  | VUnit
  | VUnhandled.

(** [capacity] is that of an [ArrayVec]; a growing buffer has none. *)
Record Serializer := mkSerializer { out : bytes; sep : bool; capacity : option nat }.

(** [write_all]: an [ArrayVec] that is full takes no more bytes. *)
Definition write (s : Serializer) (buf : bytes) : outcome SerdeError Serializer :=
  let out' := out s ++ buf in
  match capacity s with
  | Some n => if bool_decide (length out' ≤ n) then Ok (mkSerializer out' (sep s) (capacity s))
              else Err WriteZero
  | None => Ok (mkSerializer out' (sep s) (capacity s))
  end.

Definition separator (s : Serializer) : outcome SerdeError Serializer := write s [SEP].

(** Every field of a tuple but the first has a separator before it. *)
Definition record_start (s : Serializer) : outcome SerdeError Serializer :=
  let s' := mkSerializer (out s) true (capacity s) in
  if sep s then separator s' else Ok s'.

(** [SerializeSeq] and [SerializeTuple]: the elements of a sequence follow each other
    without separators. *)
Section compound.
Context (ser : Value → Serializer → outcome SerdeError Serializer).
Fixpoint ser_elements (vs : list Value) (s : Serializer) : outcome SerdeError Serializer :=
  match vs with
  | [] => Ok s
  | v :: vs => s ← ser v s; ser_elements vs s
  end.
Fixpoint ser_fields (vs : list Value) (s : Serializer) : outcome SerdeError Serializer :=
  match vs with
  | [] => Ok s
  | v :: vs => s ← record_start s; s ← ser v s; ser_fields vs s
  end.
End compound.

Fixpoint serialize_value (v : Value) (s : Serializer) : outcome SerdeError Serializer :=
  match v with
  | VStr b | VBytes b | VText b => write s b
  | VU64 z | VI64 z => write s (be_bytes 8 z)
  | VU32 z | VI32 z => write s (be_bytes 4 z)
  | VU8 z => write s (be_bytes 1 z)
  | VNone | VInterfix => Ok s
  | VSome v => serialize_value v s
  | VSeparator => separator s
  | VSeq vs => ser_elements serialize_value vs s
  | VTuple vs => ser_fields serialize_value vs s
  | VUnit | VUnhandled => Panic
  end.

Definition serialize (cap : option nat) (v : Value) : outcome SerdeError bytes :=
  out <$> serialize_value v (mkSerializer [] false cap).
Definition serialize_to_vec (v : Value) : outcome SerdeError bytes := serialize None v.

(** ** Deserialization *)

(** [std::str::from_utf8]: the well-formed sequences of Unicode, table 3-7. *)
Definition in_byte (lo hi : Z) (b : byte) : bool := bool_decide (lo ≤ byte_val b ≤ hi)%Z.
Definition cont (b : byte) : bool := in_byte 128 191 b.
Fixpoint utf8_valid (l : bytes) : bool :=
  match l with
  | [] => true
  | b0 :: l =>
      if in_byte 0 127 b0 then utf8_valid l
      else match l with
      | [] => false
      | b1 :: l =>
          if in_byte 194 223 b0 then cont b1 && utf8_valid l
          else match l with
          | [] => false
          | b2 :: l =>
              if in_byte 224 239 b0 then
                (if in_byte 224 224 b0 then in_byte 160 191 b1
                 else if in_byte 237 237 b0 then in_byte 128 159 b1 else cont b1)
                && cont b2 && utf8_valid l
              else match l with
              | [] => false
              | b3 :: l =>
                  in_byte 240 244 b0 &&
                  (if in_byte 240 240 b0 then in_byte 144 191 b1
                   else if in_byte 244 244 b0 then in_byte 128 143 b1 else cont b1)
                  && cont b2 && cont b3 && utf8_valid l
              end
          end
      end
  end.
Definition str_from_bytes (b : bytes) : outcome SerdeError bytes :=
  if utf8_valid b then Ok b else Err Utf8Error.

(** The types values are read at; [SUnhandled] is a type whose method is [unhandled!]. *)
Inductive Shape :=
  | SStr
  | SBytes
  | SU64
  | SI64
  | SOption (s : Shape)
  | SIgnore
  | SIgnoreAll
  | SSeq (s : Shape)
  | STuple (l : list Shape)
  | SUnhandled.

Record Deserializer := mkDeserializer { buf : bytes; pos : nat; rec : nat; seq : bool }.

Definition inc_pos (d : Deserializer) (n : nat) : Deserializer :=
  mkDeserializer (buf d) (pos d + n) (rec d) (seq d).
Definition inc_rec (d : Deserializer) (n : nat) : Deserializer :=
  mkDeserializer (buf d) (pos d) (rec d + n) (seq d).
Definition sequence_start (d : Deserializer) : Deserializer :=
  mkDeserializer (buf d) (pos d) (rec d) true.

(** [&self.buf[self.pos..]]. *)
Definition rest (d : Deserializer) : outcome SerdeError bytes :=
  if bool_decide (pos d ≤ length (buf d)) then Ok (drop (pos d) (buf d)) else Panic.

(** The current record: up to the next separator. *)
Definition record_next (d : Deserializer) : outcome SerdeError (bytes * Deserializer) :=
  l ← rest d;
  let record := take_while (λ b, b ≠ SEP) l in
  Ok (record, inc_pos d (length record)).
Definition record_trail (d : Deserializer) : outcome SerdeError (bytes * Deserializer) :=
  l ← rest d; Ok (l, inc_pos d (length l)).
Definition record_ignore_all (d : Deserializer) : outcome SerdeError Deserializer :=
  snd <$> record_trail d.
Definition record_ignore (d : Deserializer) : outcome SerdeError Deserializer :=
  if seq d then snd <$> record_next d else record_ignore_all d.

(** Step over the separator in front of the next record. *)
Definition next_record (d : Deserializer) : Deserializer :=
  let started := bool_decide (pos d ≠ 0) || bool_decide (0 < rec d) in
  inc_rec (inc_pos d (if started then 1 else 0)) 1.

(** The eight bytes of an integer. *)
Definition read_8 (d : Deserializer) : outcome SerdeError (bytes * Deserializer) :=
  l ← rest d;
  let b := take 8 l in
  if bool_decide (length b = 8) then Ok (b, inc_pos d 8) else Err SerdeDe.

(** [SeqAccess]: [next_element_seed] has no element once the input is used up.  A [Vec]
    takes elements until then; a tuple needs all its fields. *)
Definition de_elements (de : Deserializer → outcome SerdeError (Value * Deserializer)) :=
  fix go (fuel : nat) (acc : list Value) (d : Deserializer) : outcome SerdeError (Value * Deserializer) :=
    if bool_decide (length (buf d) ≤ pos d) then Ok (VSeq (reverse acc), d)
    else match fuel with
         | O => Panic
         | S fuel => '(v, d) ← de (next_record d); go fuel (v :: acc) d
         end.
Section access.
Context (de : Shape → Deserializer → outcome SerdeError (Value * Deserializer)).
Fixpoint de_fields (l : list Shape) (acc : list Value) (d : Deserializer)
    : outcome SerdeError (Value * Deserializer) :=
  match l with
  | [] => Ok (VTuple (reverse acc), d)
  | sh :: l =>
      if bool_decide (length (buf d) ≤ pos d) then Err InvalidLength
      else '(v, d) ← de sh (next_record d); de_fields l (v :: acc) d
  end.
End access.

Fixpoint deserialize (sh : Shape) (d : Deserializer) : outcome SerdeError (Value * Deserializer) :=
  match sh with
  | SStr => '(input, d) ← record_next d; s ← str_from_bytes input; Ok (VStr s, d)
  | SBytes => '(input, d) ← record_trail d; Ok (VBytes input, d)
  | SU64 => '(b, d) ← read_8 d; Ok (VU64 (be_value b), d)
  | SI64 => '(b, d) ← read_8 d; Ok (VI64 (as_i64 (be_value b)), d)
  | SOption sh =>
      match buf d !! pos d with
      | None => Ok (VNone, d)
      | Some b => if bool_decide (b = SEP) then Ok (VNone, d)
                  else '(v, d) ← deserialize sh d; Ok (VSome v, d)
      end
  | SIgnore => d ← record_ignore d; Ok (VUnit, d)
  | SIgnoreAll => d ← record_ignore_all d; Ok (VUnit, d)
  | SSeq sh => de_elements (deserialize sh) (S (length (buf d))) [] (sequence_start d)
  | STuple l => de_fields deserialize l [] (sequence_start d)
  | SUnhandled => Panic
  end.

Definition from_slice (sh : Shape) (b : bytes) : outcome SerdeError Value :=
  fst <$> deserialize sh (mkDeserializer b 0 0 false).

(** ** No separator inside a text *)

(** The texts of the program: Rust strings. *)
Definition utf8 (s : string) : Prop := utf8_valid (bytes_of_string s) = true.

Lemma sep_value : byte_val SEP = 255%Z.
Proof. by vm_compute. Qed.
Lemma in_byte_not_sep lo hi b : in_byte lo hi b = true → (hi < 255)%Z → b ≠ SEP.
Proof. unfold in_byte. rewrite bool_decide_eq_true. intros ?? ->. rewrite sep_value in *. lia. Qed.

Lemma utf8_no_sep l : utf8_valid l = true → SEP ∉ l.
Proof.
  induction l as [l IH'] using (well_founded_induction (Wf_nat.well_founded_ltof _ length)).
  unfold Wf_nat.ltof in IH'.
  assert (∀ lo hi b k, in_byte lo hi b = true → (hi < 255)%Z → SEP ∉ k → SEP ∉ b :: k) as Hc.
  { intros lo hi b k Hb Hh Hk [Heq|?]%elem_of_cons; [|done]. by apply (in_byte_not_sep lo hi b). }
  destruct l as [|b0 l]; [set_solver|]. cbn [utf8_valid].
  destruct (in_byte 0 127 b0) eqn:E0; 
    [intros; eapply Hc; [exact E0|done|apply IH'; cbn; [lia|done]]|].
  destruct l as [|b1 l]; [done|].
  destruct (in_byte 194 223 b0) eqn:E1.
  { intros [? ?]%andb_true_iff. do 2 (eapply Hc; [eassumption|done|]). apply IH'; cbn; [lia|done]. }
  destruct l as [|b2 l]; [done|].
  assert (∀ (x y : bool) lo hi lo' hi' b, (if x then in_byte lo hi b else if y then in_byte lo' hi' b else cont b) = true →
    (hi < 255)%Z → (hi' < 255)%Z → b ≠ SEP) as Hb.
  { intros x y lo hi lo' hi' b Hx ??. destruct x, y; eapply in_byte_not_sep in Hx; done || lia. }
  destruct (in_byte 224 239 b0) eqn:E2.
  { intros [[H1 H2]%andb_true_iff Hl]%andb_true_iff. eapply Hc; [exact E2|done|].
    apply Hb in H1; [|done..]. rewrite not_elem_of_cons. split; [done|].
    eapply Hc; [exact H2|done|]. apply IH'; cbn; [lia|done]. }
  destruct l as [|b3 l]; [done|].
  intros [[[[H0 H1]%andb_true_iff H2]%andb_true_iff H3]%andb_true_iff Hl]%andb_true_iff.
  eapply Hc; [exact H0|done|]. apply Hb in H1; [|done..]. rewrite not_elem_of_cons.
  split; [done|]. eapply Hc; [exact H2|done|]. eapply Hc; [exact H3|done|].
  apply IH'; cbn; [lia|done].
Qed.

(** ** Round trips of tuples *)

(** Values of a field that are read back at a shape.  An optional field tells [Some] from
    [None] by its first byte, so what is inside must have one that is not the separator. *)
Fixpoint field_bytes (v : Value) : bytes :=
  match v with
  | VStr b => b
  | VU64 z | VI64 z => be_bytes 8 z
  | VSome v => field_bytes v
  | _ => []
  end.

Inductive fits : Shape → Value → Prop :=
  | fits_str s : utf8_valid s = true → fits SStr (VStr s)
  | fits_u64 z : is_u64 z → fits SU64 (VU64 z)
  | fits_i64 z : is_i64 z → fits SI64 (VI64 z)
  | fits_none sh : fits (SOption sh) VNone
  | fits_some sh v b l :
      fits sh v → field_bytes v = b :: l → b ≠ SEP → fits (SOption sh) (VSome v).

Ltac fits_solve :=
  repeat lazymatch goal with
  | |- Forall2 fits _ _ => constructor
  | |- fits SStr _ => apply fits_str
  | |- fits SU64 _ => apply fits_u64
  end; done.

Lemma serialize_field sh v o b :
  fits sh v → serialize_value v (mkSerializer o b None) = Ok (mkSerializer (o ++ field_bytes v) b None).
Proof. induction 1; cbn; [done..|by rewrite app_nil_r|done]. Qed.

(** What comes after the first field. *)
Definition tail_bytes (vs : list Value) : bytes := concat ((λ v, SEP :: field_bytes v) <$> vs).

Lemma serialize_fields shapes vs o :
  Forall2 fits shapes vs →
  serialize_value (VTuple vs) (mkSerializer o true None) = Ok (mkSerializer (o ++ tail_bytes vs) true None).
Proof.
  intros Hf. revert o. induction Hf as [|sh v shapes vs Hv _ IH]; intros o; cbn.
  { by rewrite app_nil_r. }
  rewrite (serialize_field sh) by done. cbn. cbn in IH. rewrite IH. unfold tail_bytes. cbn.
  by rewrite <- !(assoc_L (++)).
Qed.

Lemma serialize_tuple shapes v vs :
  Forall2 fits shapes (v :: vs) → serialize_to_vec (VTuple (v :: vs)) = Ok (field_bytes v ++ tail_bytes vs).
Proof.
  intros Hf. inversion Hf as [|sh ? shapes' ? Hv Hvs]; subst. unfold serialize_to_vec, serialize. cbn.
  rewrite (serialize_field sh) by done. cbn. pose proof (serialize_fields shapes' vs) as Hs.
  cbn in Hs. by rewrite Hs.
Qed.

Lemma serialize_tuple' shapes v vs :
  Forall2 fits shapes (v :: vs) → serialize None (VTuple (v :: vs)) = Ok (field_bytes v ++ tail_bytes vs).
Proof. apply serialize_tuple. Qed.

(** The end of a record: the end of the input or a separator. *)
Definition ends (l : bytes) : Prop := match l with [] => True | b :: _ => b = SEP end.

Lemma record_of_text l k : SEP ∉ l → ends k → take_while (λ b, b ≠ SEP) (l ++ k) = l.
Proof.
  intros Hl Hk. induction l as [|b l IH]; cbn.
  - destruct k as [|b k]; cbn in *; [done|]. subst. by rewrite decide_False by auto.
  - rewrite decide_True by set_solver. f_equal. apply IH. set_solver.
Qed.

Lemma read_8_be d z k :
  rest d = Ok (drop (pos d) (buf d)) → drop (pos d) (buf d) = be_bytes 8 z ++ k →
  read_8 d = Ok (be_bytes 8 z, inc_pos d 8).
Proof.
  intros Hr Hd. unfold read_8. rewrite Hr, Hd. cbn [mbind outcome_bind].
  rewrite take_app_length' by (symmetry; apply length_be_bytes).
  by rewrite bool_decide_eq_true_2 by apply length_be_bytes.
Qed.

Lemma deserialize_field sh v d k :
  fits sh v → pos d ≤ length (buf d) → drop (pos d) (buf d) = field_bytes v ++ k → ends k →
  deserialize sh d = Ok (v, inc_pos d (length (field_bytes v))).
Proof.
  intros Hf Hp Hd Hk. revert Hd. assert (rest d = Ok (drop (pos d) (buf d))) as Hr.
  { unfold rest. by rewrite bool_decide_eq_true_2. }
  induction Hf as [s Hs|z Hz|z Hz|sh|sh v b l Hf IH Hb Hne]; cbn [deserialize field_bytes]; intros Hd.
  - unfold record_next, str_from_bytes. rewrite Hr, Hd. cbn.
    rewrite record_of_text, Hs by (try apply utf8_no_sep; done). done.
  - rewrite (read_8_be d z k) by done. cbn [mbind outcome_bind]. rewrite be_value_bytes.
    rewrite length_be_bytes. by rewrite Z.mod_small by apply Hz.
  - rewrite (read_8_be d z k) by done. cbn [mbind outcome_bind]. rewrite be_value_bytes.
    rewrite length_be_bytes. change (256 ^ Z.of_nat 8)%Z with (2 ^ 64)%Z. fold (as_u64 z).
    by rewrite as_i64_as_u64.
  - replace (buf d !! pos d) with (head k).
    + destruct k as [|b k]; cbn; [by destruct d; unfold inc_pos; cbn; rewrite Nat.add_0_r|].
      cbn in Hk. subst. rewrite bool_decide_eq_true_2 by done.
      by destruct d; unfold inc_pos; cbn; rewrite Nat.add_0_r.
    + rewrite <- (Nat.add_0_r (pos d)), <- lookup_drop, Hd. by destruct k.
  - replace (buf d !! pos d) with (Some b).
    + rewrite bool_decide_eq_false_2 by done. by rewrite IH.
    + rewrite <- (Nat.add_0_r (pos d)), <- lookup_drop, Hd, Hb. done.
Qed.

(** What a field of a tuple is read as: itself, or nothing where it is ignored. *)
Inductive reads : Shape → Value → Value → Prop :=
  | reads_field sh v : fits sh v → reads sh v v
  | reads_ignore s : SEP ∉ s → reads SIgnore (VStr s) VUnit.

Lemma deserialize_record sh v w d k :
  reads sh v w → seq d = true → pos d ≤ length (buf d) → drop (pos d) (buf d) = field_bytes v ++ k → ends k →
  deserialize sh d = Ok (w, inc_pos d (length (field_bytes v))).
Proof.
  intros [sh' v' Hf|s Hs] Hq Hp Hd Hk; [by apply (deserialize_field _ _ _ k)|].
  cbn [deserialize field_bytes] in *. unfold record_ignore, record_next, rest.
  rewrite Hq, bool_decide_eq_true_2 by done. cbn [mbind outcome_bind]. rewrite Hd.
  rewrite record_of_text by done. done.
Qed.

Ltac reads_solve :=
  repeat lazymatch goal with
  | |- Forall3 reads _ _ _ => constructor
  | |- reads SIgnore _ _ => apply reads_ignore, utf8_no_sep
  | |- reads _ _ _ => apply reads_field
  | |- fits SStr _ => apply fits_str
  | |- fits SU64 _ => apply fits_u64
  end; done.

(** Reading the fields after the first one. *)
Lemma deserialize_fields shapes vs ws acc d :
  Forall3 reads shapes vs ws → seq d = true → pos d ≤ length (buf d) → 0 < rec d →
  drop (pos d) (buf d) = tail_bytes vs →
  fst <$> de_fields deserialize shapes acc d = Ok (VTuple (reverse acc ++ ws)).
Proof.
  intros Hf. revert acc d. induction Hf as [|sh v w shapes vs ws Hv Hvs IH]; intros acc d Hq Hp Hrec Hd; cbn.
  { by rewrite app_nil_r. }
  assert (length (buf d) = pos d + length (tail_bytes (v :: vs))) as Hlen.
  { rewrite <- Hd, length_drop. lia. }
  unfold tail_bytes in Hlen, Hd. cbn in Hlen, Hd. fold (tail_bytes vs) in Hlen, Hd.
  rewrite length_app in Hlen.
  rewrite bool_decide_eq_false_2 by lia. unfold next_record.
  rewrite (bool_decide_eq_true_2 (0 < rec d)), orb_true_r by done.
  rewrite (deserialize_record sh v w _ (tail_bytes vs)); [|done|done|cbn; lia| |].
  - cbn. rewrite IH; [by rewrite reverse_cons, <- (assoc_L (++))|done|cbn; lia..|].
    cbn [buf pos inc_pos inc_rec]. rewrite <- !drop_drop, Hd. cbn [drop]. apply drop_app_length.
  - cbn. rewrite <- drop_drop, Hd. done.
  - unfold tail_bytes. by destruct vs.
Qed.

Lemma tuple_read shapes v vs ws :
  Forall3 reads shapes (v :: vs) ws → field_bytes v ++ tail_bytes vs ≠ [] →
  from_slice (STuple shapes) (field_bytes v ++ tail_bytes vs) = Ok (VTuple ws).
Proof.
  intros Hf Hb. inversion Hf as [|sh ? w shapes' ? ws' Hv Hvs]; subst.
  unfold from_slice. cbn [deserialize de_fields sequence_start].
  cbn [buf pos]. rewrite bool_decide_eq_false_2.
  2: { intros ?%Nat.le_0_r. by apply Hb, nil_length_inv. }
  change (next_record _) with (mkDeserializer (field_bytes v ++ tail_bytes vs) 0 1 true).
  rewrite (deserialize_record sh v w _ (tail_bytes vs)); [|done|done|apply Nat.le_0_l|done|unfold tail_bytes; by destruct vs].
  cbn [mbind outcome_bind]. rewrite (deserialize_fields shapes' vs ws'); [done|done|done| |cbn; lia|].
  - cbn. rewrite length_app. lia.
  - cbn. apply drop_app_length.
Qed.

Lemma tuple_written_read shapes vs b :
  Forall2 fits shapes vs → serialize_to_vec (VTuple vs) = Ok b → b ≠ [] →
  from_slice (STuple shapes) b = Ok (VTuple vs).
Proof.
  intros Hf Hser Hb. destruct vs as [|v vs]; [by injection Hser as <-; inversion Hf|].
  rewrite (serialize_tuple shapes) in Hser by done. injection Hser as <-. apply tuple_read; [|done].
  clear Hb. induction Hf; constructor; [by constructor|done].
Qed.

(** Different tuples of the same shape have different keys. *)
Lemma tuple_key_inj shapes vs vs' b :
  Forall2 fits shapes vs → Forall2 fits shapes vs' →
  serialize_to_vec (VTuple vs) = Ok b → serialize_to_vec (VTuple vs') = Ok b → b ≠ [] → vs = vs'.
Proof.
  intros Hf Hf' Hb Hb' Hne. pose proof (tuple_written_read _ _ _ Hf Hb Hne) as E.
  rewrite (tuple_written_read _ _ _ Hf' Hb' Hne) in E. congruence.
Qed.


Module SerDemo.
Definition user : Value := VStr (bytes_of_string "@user:example.com").
Definition room : Value := VStr (bytes_of_string "!room:example.com").

(** Cases of [src/database/tests.rs]: a tuple, an absent option in front, a full buffer,
    a tuple that misses a field, ignored fields. *)
Example ser_tuple :
  serialize_to_vec (VTuple [user; room])
  = Ok (bytes_of_string "@user:example.com" ++ [SEP] ++ bytes_of_string "!room:example.com").
Proof. reflexivity. Qed.
Example ser_tuple_option :
  serialize_to_vec (VTuple [VNone; user]) = Ok (SEP :: bytes_of_string "@user:example.com").
Proof. reflexivity. Qed.
Example ser_overflow : serialize (Some 10) (VTuple [user; room]) = Err WriteZero.
Proof. reflexivity. Qed.
Example de_tuple_incomplete :
  from_slice (STuple [SStr; SStr]) (bytes_of_string "@user:example.com") = Err InvalidLength.
Proof. by vm_compute. Qed.
Example de_tuple_ignore :
  from_slice (STuple [SStr; SIgnore; SStr]) (bytes_of_string "a" ++ [SEP] ++ bytes_of_string "b"
                                              ++ [SEP] ++ bytes_of_string "c")
  = Ok (VTuple [VStr (bytes_of_string "a"); VUnit; VStr (bytes_of_string "c")]).
Proof. by vm_compute. Qed.
(** A sequence is written without separators and read with them. *)
Example de_array :
  serialize_to_vec (VSeq [VU64 1; VU64 2]) = Ok (be_bytes 8 1 ++ be_bytes 8 2)
  ∧ from_slice (SSeq SU64) (be_bytes 8 1 ++ be_bytes 8 2) = Err SerdeDe.
Proof. by vm_compute. Qed.

Definition receipt : list Value := [user; VU64 255; VNone; VSome (VI64 7)].
End SerDemo.

(** ** Writes and queries with serialized keys and values

    The overloads of [src/database/map/insert.rs] and [qry.rs]: they differ in which of key
    and value is serialized and into which buffer; a failed serialization panics. *)

Definition must {E E' A} (o : outcome E A) : outcome E' A :=
  match o with Ok a => Ok a | _ => Panic end.

Section map_ser.
Context {DB : Type} `{Store DB} {E : Type}.
Implicit Types (m : DB) (key val : Value) (cap : option nat).

Definition bput_raw m key (val : bytes) cap : outcome E DB :=
  key ← must (serialize cap key); Ok (map_insert m key val).
Definition bput m key val (caps : option nat * option nat) : outcome E DB :=
  val ← must (serialize caps.2 val); bput_raw m key val caps.1.
Definition raw_bput m (key : bytes) val cap : outcome E DB :=
  val ← must (serialize cap val); Ok (map_insert m key val).
Definition put_aput (vmax : nat) m key val := bput m key val (None, Some vmax).
Definition aput_put (kmax : nat) m key val := bput m key val (Some kmax, None).
Definition aput (kmax vmax : nat) m key val := bput m key val (Some kmax, Some vmax).
Definition put_raw m key (val : bytes) := bput_raw m key val None.
Definition aput_raw (kmax : nat) m key (val : bytes) := bput_raw m key val (Some kmax).
Definition raw_aput (vmax : nat) m (key : bytes) val := raw_bput m key val (Some vmax).

Definition bqry m key cap : outcome E (option bytes) :=
  key ← must (serialize cap key); Ok (map_get m key).
Definition qry m key := bqry m key None.
Definition aqry (max : nat) m key := bqry m key (Some max).
End map_ser.

Lemma serialize_u64 n z : 8 ≤ n → serialize (Some n) (VU64 z) = Ok (u64_be z).
Proof.
  intros Hn. unfold serialize, u64_be. cbn [serialize_value]. unfold write. cbn [out sep capacity app].
  rewrite bool_decide_eq_true_2 by (by rewrite length_be_bytes). done.
Qed.
Lemma serialize_u64_vec z : serialize None (VU64 z) = Ok (u64_be z).
Proof. unfold serialize, u64_be. cbn [serialize_value]. unfold write. by cbn [out sep capacity app]. Qed.
Lemma from_slice_u64 z : is_u64 z → from_slice SU64 (u64_be z) = Ok (VU64 z).
Proof.
  intros Hz. unfold from_slice. rewrite (deserialize_field SU64 (VU64 z) _ []); [done|by constructor| | |done].
  - apply Nat.le_0_l.
  - cbn [pos buf field_bytes]. by rewrite drop_0, app_nil_r.
Qed.
Lemma from_slice_str s : utf8_valid s = true → from_slice SStr s = Ok (VStr s).
Proof.
  intros Hs. unfold from_slice. rewrite (deserialize_field SStr (VStr s) _ []); [done|by constructor| | |done].
  - apply Nat.le_0_l.
  - cbn [pos buf field_bytes]. by rewrite drop_0, app_nil_r.
Qed.
