(* ===== verification/DbScan.v ===== *)
(** * Tables keyed by two names

    Models the scans of [src/database/map/keys_prefix.rs] and [stream_prefix.rs] and the
    deletions of [remove.rs], with the lemmas that the services with keys of the form
    (name, name) share: such a scan lists the second names of the entries whose first name is
    the one asked for, in byte order. *)

From S2P Require Import Prelude Bytes DbMap DbSer.

(** ** Names in keys *)

Definition string_of_bytes (b : bytes) : string := String.string_of_list_byte b.
Lemma string_of_bytes_of_string s : string_of_bytes (bytes_of_string s) = s.
Proof. apply String.string_of_list_byte_of_string. Qed.

Definition pair_key (a b : string) : bytes := bytes_of_string a ++ SEP :: bytes_of_string b.
Definition pair_value (a b : string) : Value := VTuple [VStr (bytes_of_string a); VStr (bytes_of_string b)].

Lemma serialize_pair a b : serialize None (pair_value a b) = Ok (pair_key a b).
Proof. unfold pair_key. cbn. by rewrite <- (assoc_L (++)). Qed.
Lemma serialize_interfix a : serialize None (VTuple [VStr a; VInterfix]) = Ok (a ++ [SEP]).
Proof. done. Qed.

Lemma split_at_sep (l l' k k' : bytes) : SEP ∉ l → SEP ∉ l' → l ++ SEP :: k = l' ++ SEP :: k' → l = l' ∧ k = k'.
Proof.
  intros Hl Hl' E. assert (∀ x y, SEP ∉ x → take_while (λ b, b ≠ SEP) (x ++ SEP :: y) = x) as Ht
    by (intros; by apply record_of_text).
  assert (l = l') as <- by by rewrite <- (Ht l k), E, Ht.
  apply (inj (l ++.)) in E. by injection E.
Qed.
Lemma pair_key_inj a b a' b' : utf8 a → utf8 a' → pair_key a b = pair_key a' b' → a = a' ∧ b = b'.
Proof.
  intros Ha Ha' E. apply split_at_sep in E as [?%bytes_of_string_inj ?%bytes_of_string_inj]; [done|..];
    by apply utf8_no_sep.
Qed.

Definition read_second (o : outcome SerdeError Value) : option string :=
  match o with Ok (VTuple [_; VStr b]) => Some (string_of_bytes b) | _ => None end.
Lemma read_pair a b : utf8 a → utf8 b → read_second (from_slice (STuple [SIgnore; SStr]) (pair_key a b)) = Some b.
Proof.
  intros Ha Hb. pose proof (tuple_read [SIgnore; SStr] (VStr (bytes_of_string a)) [VStr (bytes_of_string b)]
    [VUnit; VStr (bytes_of_string b)]) as Hr. unfold tail_bytes in Hr. cbn [fmap list_fmap concat field_bytes] in Hr.
  rewrite app_nil_r in Hr. unfold pair_key. rewrite Hr; [by cbn; rewrite string_of_bytes_of_string| |].
  - constructor; [by constructor; apply utf8_no_sep|]. constructor; [by constructor; constructor|constructor].
  - by destruct (bytes_of_string a).
Qed.

(** A single name has no second one. *)
Lemma read_single a : utf8 a → read_second (from_slice (STuple [SIgnore; SStr]) (bytes_of_string a)) = None.
Proof.
  intros Ha%utf8_no_sep. unfold from_slice. cbn [deserialize de_fields sequence_start buf pos].
  case_bool_decide as Hl; [done|].
  replace (next_record _) with (mkDeserializer (bytes_of_string a) 0 1 true) by done.
  unfold record_ignore, record_next, rest. cbn [seq buf pos drop]. rewrite bool_decide_eq_true_2 by lia.
  cbn [mbind outcome_bind]. pose proof (record_of_text (bytes_of_string a) [] Ha I) as Ht. rewrite app_nil_r in Ht.
  rewrite drop_0, Ht. cbn. by rewrite bool_decide_eq_true_2 by lia.
Qed.

(** The separator is the greatest byte. *)
Lemma below_sep b : b ≠ SEP → (byte_val b < byte_val SEP)%Z.
Proof.
  intros Hb. pose proof (byte_val_range b). rewrite sep_value. assert (byte_val b ≠ 255)%Z; [|lia].
  rewrite <- sep_value. by intros ?%byte_val_inj.
Qed.
Lemma bytes_lt_cons b c l k : (byte_val b < byte_val c)%Z → bytes_lt (b :: l) (c :: k).
Proof. intros Hb. unfold bytes_lt. cbn. by apply Z.compare_lt_iff in Hb as ->. Qed.

(** The rows read from an ordered stream, in order. *)
Lemma sorted_omap {A B} (f : A → option B) (R1 : relation A) (R2 : relation B) l :
  (∀ x y a b, x ∈ l → y ∈ l → R1 x y → f x = Some a → f y = Some b → R2 a b) →
  StronglySorted R1 l → StronglySorted R2 (omap f l).
Proof.
  intros Hf. induction 1 as [|x l Hs IH Hx]; [constructor|]. rewrite omap_cons.
  assert (StronglySorted R2 (omap f l)) by (apply IH; intros x' y' a b ??; apply Hf; by right).
  destruct (f x) as [a|] eqn:E; [|done]. constructor; [done|]. apply Forall_forall. rewrite Forall_forall in Hx.
  intros b (y & Hy & Eb)%list_elem_of_omap. apply (Hf x y); [by left|by right|by apply Hx|done|done].
Qed.

(** ** Scans *)

Section scan.
Context {DB : Type} `{Store DB} {E : Type}.
Implicit Types (m : DB) (k : bytes) (key prefix : Value) (sh : Shape).

(** [del] serializes the key, [remove] takes its bytes. *)
Definition del m key : outcome E DB := key ← must (serialize None key); Ok (map_remove m key).

(** Prefix as bytes ([raw]) or serialized, keys as they are stored or deserialized. *)
Definition raw_keys_prefix m (prefix : bytes) : list bytes := (raw_stream_prefix m prefix).*1.
Definition keys_raw_prefix sh m (prefix : bytes) : list (outcome SerdeError Value) :=
  from_slice sh <$> raw_keys_prefix m prefix.
Definition keys_prefix_raw m prefix : outcome E (list bytes) :=
  prefix ← must (serialize None prefix); Ok (raw_keys_prefix m prefix).
Definition keys_prefix sh m prefix : outcome E (list (outcome SerdeError Value)) :=
  prefix ← must (serialize None prefix); Ok (keys_raw_prefix sh m prefix).
(** The keys of a scan removed one by one. *)
Definition remove_keys m (keys : list bytes) : DB := foldl map_remove m keys.
Definition stream_prefix_raw m prefix : outcome E (list KeyVal) :=
  prefix ← must (serialize None prefix); Ok (raw_stream_prefix m prefix).
End scan.

Section scan_lemmas.
Context {DB : Type} `{Store DB}.
Implicit Types (m : DB) (k p : bytes).

Lemma between_prefix p q k : bytes_le p k → bytes_lt k (p ++ q) → starts_with k p.
Proof.
  unfold bytes_le, bytes_lt, starts_with. revert k. induction p as [|b p IH]; intros [|c k]; cbn; try done.
  rewrite (Z.compare_antisym (byte_val c) (byte_val b)).
  destruct (byte_val c ?= byte_val b)%Z eqn:Hc; cbn; [|done|done].
  intros ??. apply Z.compare_eq, byte_val_inj in Hc as ->. f_equal. by apply IH.
Qed.

Lemma starts_with_split k p : starts_with k p → k = p ++ drop (length p) k.
Proof. unfold starts_with. intros Hp. by rewrite <- Hp at 1; rewrite take_drop. Qed.
Lemma starts_with_above k p : starts_with k p → bytes_le p k.
Proof.
  intros ->%starts_with_split. unfold bytes_le. rewrite <- (app_nil_r p) at 1. rewrite bytes_cmp_app_same.
  by destruct (drop _ _).
Qed.

Lemma raw_stream_prefix_filter m p :
  raw_stream_prefix m p = filter (λ kv : KeyVal, starts_with kv.1 p) (store_scan m).
Proof.
  unfold raw_stream_prefix, raw_stream_from. rewrite store_seek_spec.
  rewrite (take_while_filter key_lt).
  - rewrite list_filter_filter. apply list_filter_iff. intros [k v]. cbn. split; [by intros []|]. intros Hp.
    split; [done|by apply starts_with_above].
  - apply StronglySorted_filter, store_scan_sorted.
  - intros [k v] [k' v'] [Hk _]%list_elem_of_filter _ Hlt Hp. cbn in *.
    eapply between_prefix; [done|]. unfold key_lt in Hlt. cbn in Hlt.
    rewrite (starts_with_split k' p) in Hlt by done. exact Hlt.
Qed.

Lemma elem_of_raw_stream_prefix m p k v :
  (k, v) ∈ raw_stream_prefix m p ↔ map_get m k = Some v ∧ starts_with k p.
Proof. rewrite raw_stream_prefix_filter, list_elem_of_filter, store_scan_spec. cbn. tauto. Qed.

Lemma raw_stream_prefix_sorted m p : StronglySorted key_lt (raw_stream_prefix m p).
Proof. rewrite raw_stream_prefix_filter. apply StronglySorted_filter, store_scan_sorted. Qed.

Lemma get_remove_keys m keys k : map_get (remove_keys m keys) k = if bool_decide (k ∈ keys) then None else map_get m k.
Proof.
  revert m. induction keys as [|k' keys IH]; intros m; [by rewrite bool_decide_eq_false_2 by apply not_elem_of_nil|].
  cbn [remove_keys foldl]. change (foldl map_remove ?m keys) with (remove_keys m keys). rewrite IH.
  destruct (decide (k = k')) as [->|Hne].
  - rewrite map_get_remove_eq, (bool_decide_eq_true_2 (_ ∈ _ :: _)) by set_solver. by case_bool_decide.
  - rewrite map_get_remove_ne by done. by rewrite (bool_decide_ext (k ∈ k' :: keys) (k ∈ keys)) by set_solver.
Qed.
Lemma elem_of_raw_keys m p k : k ∈ raw_keys_prefix m p ↔ is_Some (map_get m k) ∧ starts_with k p.
Proof.
  unfold raw_keys_prefix. rewrite list_elem_of_fmap. split.
  - intros ([k' v] & -> & [Hv ?]%elem_of_raw_stream_prefix). split; [by exists v|done].
  - intros [[v Hv] Hp]. exists (k, v). split; [done|]. by apply elem_of_raw_stream_prefix.
Qed.
Lemma raw_keys_NoDup m p : NoDup (raw_keys_prefix m p).
Proof.
  apply (sorted_NoDup bytes_lt).
  - intros k Hk. unfold bytes_lt in Hk. by rewrite bytes_cmp_refl in Hk.
  - apply (sorted_fmap fst key_lt); [done|apply raw_stream_prefix_sorted].
Qed.
Lemma raw_keys_le m p (l : list bytes) : (∀ k, k ∈ raw_keys_prefix m p → k ∈ l) → (length (raw_keys_prefix m p) ≤ length l)%nat.
Proof. intros Hl. apply submseteq_length, NoDup_submseteq; [apply raw_keys_NoDup|exact Hl]. Qed.
End scan_lemmas.

(** ** Tables of pairs *)

Section pair_table.
Context {DB : Type} `{Store DB}.
Implicit Types (m : DB) (k p : bytes).

(** Every key is a pair of names, or a single name. *)
Definition pair_keys m : Prop :=
  ∀ k v, map_get m k = Some v → (∃ a b, utf8 a ∧ utf8 b ∧ k = pair_key a b) ∨ ∃ a, utf8 a ∧ k = bytes_of_string a.
Definition has_pair m (a b : string) : Prop := is_Some (map_get m (pair_key a b)).

Lemma pair_keys_empty : pair_keys store_empty.
Proof. intros k v. by rewrite map_get_empty. Qed.
Lemma pair_keys_insert m a b v : utf8 a → utf8 b → pair_keys m → pair_keys (map_insert m (pair_key a b) v).
Proof.
  intros Ha Hb Hm k w. unfold map_get, map_insert. rewrite store_get_put. case_bool_decide as E; [|apply Hm].
  intros _. left. by exists a, b.
Qed.
Lemma pair_keys_insert_name m a v : utf8 a → pair_keys m → pair_keys (map_insert m (bytes_of_string a) v).
Proof.
  intros Ha Hm k w. unfold map_get, map_insert. rewrite store_get_put. case_bool_decide as E; [|apply Hm].
  intros _. right. by exists a.
Qed.
Lemma pair_keys_remove m k : pair_keys m → pair_keys (map_remove m k).
Proof.
  intros Hm k' w. unfold map_get, map_remove. rewrite store_get_delete. case_bool_decide; [done|apply Hm].
Qed.

Lemma has_pair_insert m a b v a' b' :
  utf8 a → utf8 a' → has_pair (map_insert m (pair_key a b) v) a' b' ↔ (a = a' ∧ b = b') ∨ has_pair m a' b'.
Proof.
  intros Ha Ha'. unfold has_pair, map_get, map_insert. rewrite store_get_put. case_bool_decide as E.
  - split; [|by eauto]. intros _. left. by apply pair_key_inj.
  - split; [by right|]. intros [[-> ->]|?]; done.
Qed.
Lemma has_pair_remove m a b a' b' :
  utf8 a → utf8 a' → has_pair (map_remove m (pair_key a b)) a' b' ↔ ¬ (a = a' ∧ b = b') ∧ has_pair m a' b'.
Proof.
  intros Ha Ha'. unfold has_pair, map_get, map_remove. rewrite store_get_delete. case_bool_decide as E.
  - split; [by intros [? ?]|]. intros [Hn _]. by apply pair_key_inj in E as ?.
  - split; [|tauto]. intros ?. split; [|done]. intros [-> ->]. done.
Qed.
(** A single name is no pair. *)
Lemma pair_key_not_name a b c : utf8 c → pair_key a b ≠ bytes_of_string c.
Proof. intros Hc E. apply utf8_no_sep in Hc. rewrite <- E in Hc. apply Hc. unfold pair_key. set_solver. Qed.
Lemma has_pair_insert_name m c v a b : utf8 c → has_pair (map_insert m (bytes_of_string c) v) a b ↔ has_pair m a b.
Proof.
  intros Hc. unfold has_pair, map_get, map_insert. rewrite store_get_put, bool_decide_eq_false_2; [done|].
  intros E. by apply (pair_key_not_name a b c).
Qed.

(** [keys_prefix] of (name, [Interfix]), read as (ignored, name). *)
Definition seconds m (a : string) : list string :=
  omap read_second (keys_raw_prefix (STuple [SIgnore; SStr]) m (bytes_of_string a ++ [SEP])).

Lemma starts_with_pair k a : utf8 a →
  ((∃ b c, utf8 b ∧ utf8 c ∧ k = pair_key b c) ∨ ∃ b, utf8 b ∧ k = bytes_of_string b) →
  starts_with k (bytes_of_string a ++ [SEP]) → ∃ b, utf8 b ∧ k = pair_key a b.
Proof.
  intros Ha Hk Hp%starts_with_split. rewrite <- (assoc_L (++)) in Hp. cbn [app] in Hp.
  destruct Hk as [(b & c & Hb & Hc & ->)|(b & Hb & ->)].
  - apply split_at_sep in Hp as [<-%bytes_of_string_inj _]; [by exists c|by apply utf8_no_sep..].
  - apply utf8_no_sep in Hb. destruct Hb. rewrite Hp. set_solver.
Qed.
Lemma pair_key_starts a b : starts_with (pair_key a b) (bytes_of_string a ++ [SEP]).
Proof.
  unfold starts_with, pair_key. change (SEP :: bytes_of_string b) with ([SEP] ++ bytes_of_string b).
  rewrite (assoc_L (++)). apply take_app_length.
Qed.

(** The scan and the second names of its entries. *)
Lemma seconds_keys m a :
  pair_keys m → utf8 a →
  raw_keys_prefix m (bytes_of_string a ++ [SEP]) = pair_key a <$> seconds m a
  ∧ Forall utf8 (seconds m a).
Proof.
  intros Hm Ha. unfold seconds, keys_raw_prefix, raw_keys_prefix.
  assert (∀ l : list KeyVal, (∀ k v, (k, v) ∈ l → ∃ b, utf8 b ∧ k = pair_key a b) →
    l.*1 = pair_key a <$> omap read_second (from_slice (STuple [SIgnore; SStr]) <$> l.*1)
    ∧ Forall utf8 (omap read_second (from_slice (STuple [SIgnore; SStr]) <$> l.*1))) as Hl.
  { induction l as [|[k v] l IH]; intros Hl; [done|].
    destruct (Hl k v) as (b & Hb & ->); [by left|].
    destruct IH as [IH1 IH2]; [intros ???; eapply Hl; by right|].
    rewrite !fmap_cons. cbn [omap list_omap fst]. rewrite read_pair by done. rewrite fmap_cons.
    split; [by f_equal|by constructor]. }
  apply Hl. intros k v [Hv Hp]%elem_of_raw_stream_prefix. by eapply starts_with_pair; [|eapply Hm|].
Qed.

Lemma elem_of_seconds m a b : pair_keys m → utf8 a → b ∈ seconds m a ↔ utf8 b ∧ has_pair m a b.
Proof.
  intros Hm Ha. destruct (seconds_keys m a Hm Ha) as [E HF]. rewrite Forall_forall in HF.
  assert (pair_key a b ∈ raw_keys_prefix m (bytes_of_string a ++ [SEP]) ↔ has_pair m a b) as Hk.
  { unfold raw_keys_prefix, has_pair. rewrite list_elem_of_fmap. split.
    - intros ([k v] & -> & [? _]%elem_of_raw_stream_prefix). by eexists.
    - intros [v Hv]. exists (pair_key a b, v). split; [done|]. apply elem_of_raw_stream_prefix.
      split; [done|apply pair_key_starts]. }
  rewrite <- Hk, E, list_elem_of_fmap. split.
  - intros Hb. split; [by apply HF|by exists b].
  - intros [_ (c & [_ ->]%pair_key_inj & Hc)]; done.
Qed.

(** In byte order. *)
Definition name_lt (a b : string) : Prop := bytes_lt (bytes_of_string a) (bytes_of_string b).
Lemma seconds_sorted m a : pair_keys m → utf8 a → StronglySorted name_lt (seconds m a).
Proof.
  intros Hm Ha. destruct (seconds_keys m a Hm Ha) as [E _].
  assert (StronglySorted bytes_lt (raw_keys_prefix m (bytes_of_string a ++ [SEP]))) as Hs.
  { apply (sorted_fmap fst key_lt); [done|apply raw_stream_prefix_sorted]. }
  rewrite E in Hs. revert Hs. apply sorted_of_fmap. intros b c.
  unfold pair_key, name_lt, bytes_lt. rewrite bytes_cmp_app_same.
  change (SEP :: bytes_of_string b) with ([SEP] ++ bytes_of_string b).
  change (SEP :: bytes_of_string c) with ([SEP] ++ bytes_of_string c). by rewrite bytes_cmp_app_same.
Qed.
Lemma seconds_NoDup m a : pair_keys m → utf8 a → NoDup (seconds m a).
Proof.
  intros Hm Ha. eapply sorted_NoDup; [|by apply seconds_sorted].
  intros b Hb. unfold name_lt, bytes_lt in Hb. by rewrite bytes_cmp_refl in Hb.
Qed.
End pair_table.
