(* ===== verification/DbWindow.v ===== *)
(** * Counted rows under a name

    Several tables have keys of a name (or several) and a count, big endian, and are read
    from some count on, forwards or backwards, for as long as the rows have the name.  The
    rows of a name are a window of the table in which the byte order is the order of the
    counts; here such reads are turned into a filter and a sort. *)

From S2P Require Import Prelude Bytes DbMap DbSer DbScan.

Local Open Scope Z_scope.

Section window.
Context {DB : Type} `{Store DB} {W : Type} `{EqDecision W} (win : W → bytes) (valid : W → Prop).
Context {X : Type} (val : bytes → option X) (read : KeyVal → option (W * Z * X)).
Implicit Types (m : DB) (w : W) (n : Z) (x : X).

Definition row_key w n : bytes := win w ++ u64_be n.

(** All keys are a name and a count. *)
Definition window_keys m : Prop :=
  ∀ k v, map_get m k = Some v → ∃ w n, valid w ∧ is_u64 n ∧ k = row_key w n.

(** No name continues another, and a row reads as what it was written from. *)
Hypothesis win_inj : ∀ w w' k k', valid w → valid w' → win w ++ k = win w' ++ k' → w = w' ∧ k = k'.
Hypothesis read_row : ∀ w n v, valid w → is_u64 n → read (row_key w n, v) = (λ x, (w, n, x)) <$> val v.

Lemma row_key_inj w n w' n' :
  valid w → valid w' → is_u64 n → is_u64 n' → row_key w n = row_key w' n' → w = w' ∧ n = n'.
Proof. intros Hw Hw' Hn Hn' E. apply win_inj in E as [-> E]; [|done..]. split; [done|]. by apply u64_be_inj. Qed.

Lemma row_key_le w n n' : is_u64 n → is_u64 n' → bytes_le (row_key w n) (row_key w n') ↔ n ≤ n'.
Proof.
  intros ??. unfold bytes_le, row_key. rewrite bytes_cmp_app_same, bytes_cmp_u64 by done. rewrite Z.compare_ngt_iff. lia.
Qed.
Lemma row_key_lt w n n' : is_u64 n → is_u64 n' → bytes_lt (row_key w n) (row_key w n') ↔ n < n'.
Proof.
  intros ??. unfold bytes_lt, row_key. rewrite bytes_cmp_app_same, bytes_cmp_u64 by done. by rewrite Z.compare_lt_iff.
Qed.

(** Between two rows of a window there is only the window. *)
Lemma between_rows w n n' k :
  bytes_le (row_key w n) k → bytes_le k (row_key w n') → starts_with k (win w).
Proof.
  intros Hle [Hlt| ->]%bytes_le_lteq; [|apply take_app_length].
  eapply between_prefix; [|exact Hlt]. apply bytes_le_lteq.
  assert (bytes_le (win w) (row_key w n)) as Hp by (apply starts_with_above, take_app_length).
  apply bytes_le_lteq in Hle as [Hle|E1], Hp as [Hp|E2]; rewrite <- ?E1, ?E2; auto. left. by trans (row_key w n).
Qed.
Lemma row_in_window w w' n : valid w → valid w' → starts_with (row_key w' n) (win w) → w' = w.
Proof. intros Hw Hw' Hs%starts_with_split. unfold row_key at 1 in Hs. by apply win_inj in Hs as [? _]. Qed.

(** Rows of the table, read, in the order of their keys. *)
Definition row_rel (R : relation bytes) : relation (W * Z * X) := λ a b, R (row_key a.1.1 a.1.2) (row_key b.1.1 b.1.2).
Lemma rows_read m (R : relation bytes) (l : list KeyVal) :
  window_keys m → (∀ k v, (k, v) ∈ l → map_get m k = Some v) → StronglySorted (λ a b, R a.1 b.1) l →
  StronglySorted (row_rel R) (omap read l)
  ∧ ∀ w n x, (w, n, x) ∈ omap read l ↔ valid w ∧ is_u64 n ∧ ∃ v, (row_key w n, v) ∈ l ∧ val v = Some x.
Proof.
  intros Hm Hl Hs. assert (∀ w n x, (w, n, x) ∈ omap read l → valid w ∧ is_u64 n ∧ ∃ v, (row_key w n, v) ∈ l ∧ val v = Some x) as Hin.
  { intros w n x ([k v] & Hkv & Hr)%list_elem_of_omap. destruct (Hm k v (Hl _ _ Hkv)) as (w' & n' & Hw & Hn & ->).
    rewrite read_row in Hr by done. destruct (val v) as [x'|] eqn:Hv; [|done]. injection Hr as -> -> ->. eauto. }
  split.
  - induction Hs as [|[k v] l Hs IH Hk]; [constructor|]. rewrite omap_cons.
    assert (StronglySorted (row_rel R) (omap read l)) as Hs'.
    { apply IH; [intros; apply Hl; by right|]. intros w n x ([k' v'] & Hkv & Hr)%list_elem_of_omap.
      destruct (Hm k' v') as (w' & n' & ? & ? & ->); [apply Hl; by right|].
      rewrite read_row in Hr by done. destruct (val v') eqn:?; [|done]. injection Hr as -> -> ->. eauto. }
    destruct (Hm k v) as (w & n & Hw & Hn & ->); [apply Hl; by left|]. rewrite read_row by done.
    destruct (val v) as [x|]; [|done]. constructor; [done|]. apply Forall_forall. rewrite Forall_forall in Hk.
    intros [[w' n'] x'] ([k' v'] & Hkv & Hr)%list_elem_of_omap. specialize (Hk _ Hkv).
    destruct (Hm k' v') as (w2 & n2 & ? & ? & ->); [apply Hl; by right|].
    rewrite read_row in Hr by done. destruct (val v'); [|done]. by injection Hr as -> -> ->.
  - intros w n x. split; [apply Hin|]. intros (Hw & Hn & v & Hkv & Hv). apply list_elem_of_omap.
    exists (row_key w n, v). split; [done|]. by rewrite read_row, Hv.
Qed.

(** Reading forwards from a count, up to an optional bound. *)
Lemma window_forward m w first (P : W * Z * X → Prop) `{∀ r, Decision (P r)} (to : option Z) :
  window_keys m → valid w → is_u64 first →
  (∀ r, P r ↔ r.1.1 = w ∧ from_option (λ to, r.1.2 ≤ to) True to) →
  let L := take_while P (omap read (raw_stream_from m (row_key w first))) in
  StronglySorted (λ a b, a.1.2 < b.1.2) L
  ∧ ∀ w' n x, (w', n, x) ∈ L ↔ w' = w ∧ is_u64 n ∧ first ≤ n ∧ from_option (λ to, n ≤ to) True to
      ∧ ∃ v, map_get m (row_key w n) = Some v ∧ val v = Some x.
Proof.
  intros Hm Hw Hf HP.
  assert (∀ k v, (k, v) ∈ raw_stream_from m (row_key w first) ↔ bytes_le (row_key w first) k ∧ map_get m k = Some v) as Hraw.
  { intros k v. unfold raw_stream_from. by rewrite store_seek_spec, list_elem_of_filter, store_scan_spec. }
  destruct (rows_read m bytes_lt (raw_stream_from m (row_key w first))) as [Hs Hin]; [done|by intros k v [_ ?]%Hraw| |].
  { unfold raw_stream_from. rewrite store_seek_spec. apply StronglySorted_filter, store_scan_sorted. }
  setoid_rewrite Hraw in Hin.
  rewrite (take_while_filter (row_rel bytes_lt)); [|done|].
  - cbv zeta. assert (∀ w' n x, (w', n, x) ∈ filter P (omap read (raw_stream_from m (row_key w first)))
      ↔ w' = w ∧ is_u64 n ∧ first ≤ n ∧ from_option (λ to, n ≤ to) True to
      ∧ ∃ v, map_get m (row_key w n) = Some v ∧ val v = Some x) as HL.
    { intros w' n x. rewrite list_elem_of_filter, HP, Hin. cbn [fst snd]. split.
      - intros ([-> ?] & _ & Hn & v & [Hle Hg] & Hv). rewrite row_key_le in Hle by done. eauto 10.
      - intros (-> & Hn & Hle & ? & v & Hg & Hv). split; [done|]. split; [done|]. split; [done|]. exists v.
        by rewrite row_key_le. }
    split; [|done]. assert (StronglySorted (row_rel bytes_lt) (filter P (omap read (raw_stream_from m (row_key w first))))) as Hs'
      by by apply StronglySorted_filter.
    rewrite <- (list_fmap_id (filter P _)). revert Hs'. apply sorted_fmap.
    intros [[w1 n1] x1] [[w2 n2] x2] (-> & ? & _)%HL (-> & ? & _)%HL. unfold row_rel. cbn. by rewrite row_key_lt.
  - intros [[w1 n1] x1] [[w2 n2] x2] (Hw1 & Hn1 & v1 & [Hle1 _] & _)%Hin (Hw2 & Hn2 & _)%Hin. unfold row_rel. cbn [fst snd].
    rewrite !HP. cbn [fst snd]. intros Hlt [-> Hto]. assert (w1 = w) as ->.
    { apply (row_in_window w w1 n1); [done..|]. apply (between_rows w first n2); [done|]. apply bytes_le_lteq. by left. }
    split; [done|]. rewrite row_key_lt in Hlt by done. destruct to; cbn in *; lia.
Qed.

(** Reading backwards from a count. *)
Lemma window_backward m w last (P : W * Z * X → Prop) `{∀ r, Decision (P r)} :
  window_keys m → valid w → is_u64 last → (∀ r, P r ↔ r.1.1 = w) →
  let L := take_while P (omap read (rev_raw_stream_from m (row_key w last))) in
  ∀ w' n x, (w', n, x) ∈ L ↔ w' = w ∧ is_u64 n ∧ n ≤ last ∧ ∃ v, map_get m (row_key w n) = Some v ∧ val v = Some x.
Proof.
  intros Hm Hw Hl HP.
  assert (∀ k v, (k, v) ∈ rev_raw_stream_from m (row_key w last) ↔ bytes_le k (row_key w last) ∧ map_get m k = Some v) as Hraw.
  { intros k v. unfold rev_raw_stream_from.
    by rewrite store_seek_for_prev_spec, elem_of_reverse, list_elem_of_filter, store_scan_spec. }
  destruct (rows_read m (flip bytes_lt) (rev_raw_stream_from m (row_key w last))) as [Hs Hin]; [done|by intros k v [_ ?]%Hraw| |].
  { unfold rev_raw_stream_from. rewrite store_seek_for_prev_spec. apply (StronglySorted_reverse key_lt).
    apply StronglySorted_filter, store_scan_sorted. }
  setoid_rewrite Hraw in Hin.
  rewrite (take_while_filter (row_rel (flip bytes_lt))); [|done|].
  - cbv zeta. intros w' n x. rewrite list_elem_of_filter, HP, Hin. cbn [fst snd]. split.
    + intros (-> & _ & Hn & v & [Hle Hg] & Hv). rewrite row_key_le in Hle by done. eauto 10.
    + intros (-> & Hn & Hle & v & Hg & Hv). split; [done|]. split; [done|]. split; [done|]. exists v.
      by rewrite row_key_le.
  - intros [[w1 n1] x1] [[w2 n2] x2] (Hw1 & Hn1 & v1 & [Hle1 _] & _)%Hin (Hw2 & Hn2 & _)%Hin. unfold row_rel, flip. cbn [fst snd].
    rewrite !HP. cbn [fst snd]. intros Hlt ->. apply (row_in_window w w1 n1); [done..|].
    apply (between_rows w n2 last); [|done]. apply bytes_le_lteq. by left.
Qed.
End window.
