(* ===== verification/Tables.v ===== *)
(** * The tables of a service

    A service of the server keeps its data in named maps of the database: its [struct Data]
    has a field per map.  Here the names are an enumeration and the data a function from
    names to maps.  The writes of an operation are a list, in the order the code makes them,
    and a row after them is decided by the last write that concerns it. *)

From S2P Require Import Prelude Bytes DbMap DbSer DbScan.

Section tables.
Context {DB : Type} `{Store DB} {T : Type} `{EqDecision T}.
Implicit Types (c : T → DB) (t : T) (k v : bytes).

Definition set_table c t (m : DB) : T → DB := λ t', if decide (t = t') then m else c t'.

Lemma set_table_eq c t m : set_table c t m t = m.
Proof. unfold set_table. by rewrite decide_True. Qed.
Lemma set_table_ne c t t' m : t ≠ t' → set_table c t m t' = c t'.
Proof. intros Ht. unfold set_table. by rewrite decide_False. Qed.

Inductive Write :=
  | Insert (t : T) (k v : bytes)
  | Remove (t : T) (k : bytes).

Definition apply_write c (w : Write) : T → DB :=
  match w with
  | Insert t k v => set_table c t (map_insert (c t) k v)
  | Remove t k => set_table c t (map_remove (c t) k)
  end.
Definition writes c (ws : list Write) : T → DB := foldl apply_write c ws.

(** The row after the writes, if one of them concerns it. *)
Definition written1 (w : Write) t k : option (option bytes) :=
  match w with
  | Insert t' k' v => if decide (t' = t) then if decide (k' = k) then Some (Some v) else None else None
  | Remove t' k' => if decide (t' = t) then if decide (k' = k) then Some None else None else None
  end.
Fixpoint written (ws : list Write) t k : option (option bytes) :=
  match ws with
  | [] => None
  | w :: ws => match written ws t k with Some r => Some r | None => written1 w t k end
  end.

Lemma get_apply_write c w t k :
  map_get (apply_write c w t) k = default (map_get (c t) k) (written1 w t k).
Proof.
  destruct w as [t' k' v|t' k']; cbn; unfold set_table; case_decide as Ht; try done; subst t';
    unfold map_get, map_insert, map_remove; rewrite ?store_get_put, ?store_get_delete;
    case_bool_decide; case_decide; done.
Qed.

Lemma get_writes c ws t k :
  map_get (writes c ws t) k = default (map_get (c t) k) (written ws t k).
Proof.
  revert c. induction ws as [|w ws IH]; intros c; [done|]. cbn. unfold writes in IH. rewrite IH, get_apply_write.
  by destruct (written ws t k).
Qed.

(** Writes keep the form of the keys. *)
Lemma pair_keys_writes c ws t :
  pair_keys (c t) →
  Forall (λ w, match w with Insert _ k _ => (∃ a b, utf8 a ∧ utf8 b ∧ k = pair_key a b) ∨ ∃ a, utf8 a ∧ k = bytes_of_string a
                          | Remove _ _ => True end) ws →
  pair_keys (writes c ws t).
Proof.
  intros Hc Hws. revert c Hc. induction Hws as [|w ws Hw _ IH]; intros c Hc; [done|]. cbn. apply IH.
  destruct w as [t' k v|t' k]; cbn; unfold set_table; case_decide as E; try done; subst t'.
  - destruct Hw as [(a & b & ? & ? & ->)|(a & ? & ->)]; [by apply pair_keys_insert|by apply pair_keys_insert_name].
  - by apply pair_keys_remove.
Qed.
End tables.
Arguments Write : clear implicits.
Arguments Insert {T}.
Arguments Remove {T}.

(** A list of writes is to other tables. *)
Ltac other_tables := repeat (apply Forall_cons; split; [congruence|]); apply Forall_nil_2.
