(* ===== verification/Short.v ===== *)
(** * Short ids

    Models [src/service/rooms/short/mod.rs], which gives events, state keys, state hashes
    and rooms a number each, and the counter the numbers come from,
    [src/service/globals/data.rs].  The tables are database maps; ids are written big endian
    and state keys as tuples ([DbSer]). *)

From S2P Require Import Prelude Bytes DbMap DbSer.

Local Open Scope Z_scope.

Inductive ShortError := RequestNotFound | BadValue (e : SerdeError) | DatabaseFailure.
#[export] Instance ShortError_eq_dec : EqDecision ShortError.
Proof. solve_decision. Defined.

Section short.
Context {DB : Type} `{Store DB}.

(** ** The counter *)

Definition COUNTER : bytes := bytes_of_string "c".

Record Globals := mkGlobals { global : DB; counter : Z }.

Definition stored_count (global : DB) : outcome unit Z :=
  match map_get global COUNTER with
  | None => Ok 0
  | Some b => ok_or tt (u64_from_bytes b)
  end.

(** [Data::new]. *)
Definition open_globals (global : DB) : Globals :=
  mkGlobals global match stored_count global with Ok n => n | _ => 0 end.

Definition next_count (g : Globals) : Z * Globals :=
  let counter := default (counter g) (u64_checked (counter g + 1)) in
  (counter, mkGlobals (map_insert (global g) COUNTER (u64_be counter)) counter).

Definition current_count (g : Globals) : Z := counter g.

(** ** The tables *)

Record Short := mkShort {
  eventid_shorteventid : DB;
  shorteventid_eventid : DB;
  statekey_shortstatekey : DB;
  shortstatekey_statekey : DB;
  roomid_shortroomid : DB;
  statehash_shortstatehash : DB;
  globals : Globals;
}.
Implicit Types (s : Short).

Definition with_count s (g : Globals) : Short :=
  mkShort (eventid_shorteventid s) (shorteventid_eventid s) (statekey_shortstatekey s)
    (shortstatekey_statekey s) (roomid_shortroomid s) (statehash_shortstatehash s) g.
Definition with_event s (fwd bwd : DB) : Short :=
  mkShort fwd bwd (statekey_shortstatekey s) (shortstatekey_statekey s)
    (roomid_shortroomid s) (statehash_shortstatehash s) (globals s).
Definition with_statekey s (fwd bwd : DB) : Short :=
  mkShort (eventid_shorteventid s) (shorteventid_eventid s) fwd bwd
    (roomid_shortroomid s) (statehash_shortstatehash s) (globals s).
Definition with_room s (fwd : DB) : Short :=
  mkShort (eventid_shorteventid s) (shorteventid_eventid s) (statekey_shortstatekey s)
    (shortstatekey_statekey s) fwd (statehash_shortstatehash s) (globals s).
Definition with_statehash s (fwd : DB) : Short :=
  mkShort (eventid_shorteventid s) (shorteventid_eventid s) (statekey_shortstatekey s)
    (shortstatekey_statekey s) (roomid_shortroomid s) fwd (globals s).

(** [.deserialized()] of a value of the database. *)
Definition deserialized (sh : Shape) (o : option bytes) : outcome ShortError Value :=
  match o with
  | None => Err RequestNotFound
  | Some b => match from_slice sh b with Ok v => Ok v | Err e => Err (BadValue e) | Panic => Panic end
  end.
Definition deserialized_u64 (o : option bytes) : outcome ShortError Z :=
  v ← deserialized SU64 o; match v with VU64 z => Ok z | _ => Panic end.
Definition deserialized_str (o : option bytes) : outcome ShortError bytes :=
  v ← deserialized SStr o; match v with VStr b => Ok b | _ => Panic end.

(** *** Events *)

Definition get_shorteventid s (event_id : string) : outcome ShortError Z :=
  deserialized_u64 (map_get (eventid_shorteventid s) (bytes_of_string event_id)).

Definition create_shorteventid s (event_id : string) : outcome ShortError (Z * Short) :=
  let '(short, g) := next_count (globals s) in
  fwd ← raw_aput 8 (eventid_shorteventid s) (bytes_of_string event_id) (VU64 short);
  bwd ← aput_raw 8 (shorteventid_eventid s) (VU64 short) (bytes_of_string event_id);
  Ok (short, with_event (with_count s g) fwd bwd).

Definition get_or_create_shorteventid s (event_id : string) : outcome ShortError (Z * Short) :=
  match get_shorteventid s event_id with
  | Ok short => Ok (short, s)
  | Err _ => create_shorteventid s event_id
  | Panic => Panic
  end.

(** The lookups of a batch are made before the ids it misses are created; the stream of
    ids is cut into batches by the database layer. *)
Fixpoint create_missing s (results : list (option bytes * string)) : outcome ShortError (list Z * Short) :=
  match results with
  | [] => Ok ([], s)
  | (Some short, _) :: results =>
      z ← must (u64_from_u8 short);
      '(zs, s) ← create_missing s results; Ok (z :: zs, s)
  | (None, event_id) :: results =>
      '(z, s) ← create_shorteventid s event_id;
      '(zs, s) ← create_missing s results; Ok (z :: zs, s)
  end.
Fixpoint multi_get_or_create_shorteventid s (batches : list (list string))
    : outcome ShortError (list Z * Short) :=
  match batches with
  | [] => Ok ([], s)
  | batch :: batches =>
      '(zs, s) ← create_missing s
        ((λ e, (map_get (eventid_shorteventid s) (bytes_of_string e), e)) <$> batch);
      '(zss, s) ← multi_get_or_create_shorteventid s batches;
      Ok (zs ++ zss, s)
  end.

(** A read error of this table is reported as a database error. *)
Definition database_error {A} (o : outcome ShortError A) : outcome ShortError A :=
  match o with Err _ => Err DatabaseFailure | _ => o end.

Definition get_eventid_from_short s (short : Z) : outcome ShortError bytes :=
  b ← aqry 8 (shorteventid_eventid s) (VU64 short); database_error (deserialized_str b).
Definition multi_get_eventid_from_short s (shorts : list Z) : list (outcome ShortError bytes) :=
  (λ short, b ← qry (shorteventid_eventid s) (VU64 short); deserialized_str b) <$> shorts.

(** *** State keys *)

Definition statekey_value (event_type state_key : string) : Value :=
  VTuple [VStr (bytes_of_string event_type); VStr (bytes_of_string state_key)].

Definition get_shortstatekey s (event_type state_key : string) : outcome ShortError Z :=
  b ← qry (statekey_shortstatekey s) (statekey_value event_type state_key); deserialized_u64 b.

Definition get_or_create_shortstatekey s (event_type state_key : string)
    : outcome ShortError (Z * Short) :=
  match get_shortstatekey s event_type state_key with
  | Ok short => Ok (short, s)
  | Err _ =>
      let key := statekey_value event_type state_key in
      let '(short, g) := next_count (globals s) in
      fwd ← put_aput 8 (statekey_shortstatekey s) key (VU64 short);
      bwd ← aput_put 8 (shortstatekey_statekey s) (VU64 short) key;
      Ok (short, with_statekey (with_count s g) fwd bwd)
  | Panic => Panic
  end.

Definition deserialized_statekey (o : option bytes) : outcome ShortError (bytes * bytes) :=
  v ← deserialized (STuple [SStr; SStr]) o;
  match v with VTuple [VStr ty; VStr key] => Ok (ty, key) | _ => Panic end.
Definition get_statekey_from_short s (short : Z) : outcome ShortError (bytes * bytes) :=
  b ← aqry 8 (shortstatekey_statekey s) (VU64 short); database_error (deserialized_statekey b).
Definition multi_get_statekey_from_short s (shorts : list Z)
    : list (outcome ShortError (bytes * bytes)) :=
  (λ short, b ← qry (shortstatekey_statekey s) (VU64 short); deserialized_statekey b) <$> shorts.

(** *** State hashes and rooms *)

(** The id, and whether it existed before. *)
Definition get_or_create_shortstatehash s (state_hash : bytes) : outcome ShortError (Z * bool * Short) :=
  match deserialized_u64 (map_get (statehash_shortstatehash s) state_hash) with
  | Ok short => Ok (short, true, s)
  | Err _ =>
      let '(short, g) := next_count (globals s) in
      fwd ← raw_aput 8 (statehash_shortstatehash s) state_hash (VU64 short);
      Ok (short, false, with_statehash (with_count s g) fwd)
  | Panic => Panic
  end.

Definition get_shortroomid s (room_id : string) : outcome ShortError Z :=
  deserialized_u64 (map_get (roomid_shortroomid s) (bytes_of_string room_id)).

Definition get_or_create_shortroomid s (room_id : string) : outcome ShortError (Z * Short) :=
  match get_shortroomid s room_id with
  | Ok short => Ok (short, s)
  | Err _ =>
      let '(short, g) := next_count (globals s) in
      fwd ← raw_aput 8 (roomid_shortroomid s) (bytes_of_string room_id) (VU64 short);
      Ok (short, with_room (with_count s g) fwd)
  | Panic => Panic
  end.

(** *** Entries of a state *)

Definition pair_result (x : outcome ShortError (bytes * bytes)) (y : outcome ShortError bytes)
    : outcome ShortError ((bytes * bytes) * bytes) :=
  match x, y with
  | Ok state_key, Ok event_id => Ok (state_key, event_id)
  | Panic, _ | _, Panic => Panic
  | Err e, _ | _, Err e => Err e
  end.
Definition multi_get_state_from_short s (short_state : list (Z * Z))
    : list (outcome ShortError ((bytes * bytes) * bytes)) :=
  zip_with pair_result (multi_get_statekey_from_short s short_state.*1)
    (multi_get_eventid_from_short s short_state.*2).
End short.
Arguments Globals DB : clear implicits.
Arguments Short DB : clear implicits.
