(* ===== verification/ShortProps.v ===== *)
(** * Short ids name one thing each

    The invariant of the tables of [Short]: numbers come from the counter, no two names of a
    kind share one, and the reverse tables are the inverses of the forward ones.  Assigning a
    number keeps it and leaves every number given before as it was. *)

From S2P Require Import Prelude Bytes DbMap DbSer Short.

Local Open Scope Z_scope.

Section tables.
Context {DB : Type} `{Store DB}.
Implicit Types (fwd bwd m : DB) (k v : bytes).

(** Numbers of a table are between 1 and the counter. *)
Definition table_wf (c : Z) fwd : Prop :=
  ∀ k v, map_get fwd k = Some v → ∃ z, v = u64_be z ∧ 1 ≤ z ≤ c.
Definition injective fwd : Prop :=
  ∀ k k' v, map_get fwd k = Some v → map_get fwd k' = Some v → k = k'.
Definition inverse fwd bwd : Prop := ∀ k v, map_get fwd k = Some v ↔ map_get bwd v = Some k.
Definition grows m m' : Prop := ∀ k v, map_get m k = Some v → map_get m' k = Some v.

Lemma table_wf_mono c c' fwd : c ≤ c' → table_wf c fwd → table_wf c' fwd.
Proof. intros ? Hw k v (z & -> & ?)%Hw. exists z. split; [done|lia]. Qed.

Lemma map_get_insert m k v k' :
  map_get (map_insert m k v) k' = if decide (k = k') then Some v else map_get m k'.
Proof. case_decide as E; [subst; apply map_get_insert_eq|by apply map_get_insert_ne]. Qed.

Lemma grows_insert m k v : map_get m k = None → grows m (map_insert m k v).
Proof. intros Hn k' v' Hk. rewrite map_get_insert. case_decide; [congruence|done]. Qed.

Lemma table_wf_insert c fwd k :
  0 ≤ c → table_wf c fwd → table_wf (c + 1) (map_insert fwd k (u64_be (c + 1))).
Proof.
  intros Hc Hw k' v. rewrite map_get_insert. case_decide; [|intros ?; eapply table_wf_mono; [|done..]; lia].
  intros [= <-]. exists (c + 1). split; [done|lia].
Qed.

(** The next number is in no table. *)
Lemma table_wf_fresh c fwd k :
  0 ≤ c → is_u64 (c + 1) → table_wf c fwd → map_get fwd k ≠ Some (u64_be (c + 1)).
Proof.
  intros H0 Hc Hw (z & Hz & ?)%Hw. apply u64_be_inj in Hz; [lia|done|]. unfold is_u64 in *. lia.
Qed.

Lemma injective_insert c fwd k :
  0 ≤ c → is_u64 (c + 1) → table_wf c fwd → injective fwd → injective (map_insert fwd k (u64_be (c + 1))).
Proof.
  intros H0 Hc Hw Hi k1 k2 v. rewrite !map_get_insert.
  assert (∀ k, map_get fwd k ≠ Some (u64_be (c + 1))) by (intros; by apply table_wf_fresh).
  repeat case_decide; naive_solver.
Qed.

Lemma inverse_insert c fwd bwd k :
  0 ≤ c → is_u64 (c + 1) → table_wf c fwd → inverse fwd bwd → map_get fwd k = None →
  inverse (map_insert fwd k (u64_be (c + 1))) (map_insert bwd (u64_be (c + 1)) k).
Proof.
  intros H0 Hc Hw Hi Hk k' v. rewrite !map_get_insert. specialize (Hi k' v) as Hkv.
  assert (map_get fwd k' ≠ Some (u64_be (c + 1))) by by apply table_wf_fresh.
  repeat case_decide; naive_solver.
Qed.

Lemma inverse_injective fwd bwd : inverse fwd bwd → injective fwd.
Proof. intros Hi k k' v Hk%Hi Hk'%Hi. congruence. Qed.

(** ** Reading numbers *)

Lemma deserialized_u64_be z : is_u64 z → deserialized_u64 (Some (u64_be z)) = Ok z.
Proof. intros Hz. unfold deserialized_u64, deserialized. by rewrite from_slice_u64. Qed.

Lemma deserialized_table c fwd k z :
  is_u64 c → table_wf c fwd →
  deserialized_u64 (map_get fwd k) = Ok z ↔ map_get fwd k = Some (u64_be z) ∧ is_u64 z.
Proof.
  intros Hc Hw. destruct (map_get fwd k) as [v|] eqn:Hk; [|by cbn; naive_solver].
  apply Hw in Hk as (y & -> & ?). assert (is_u64 y) by (unfold is_u64 in *; lia).
  rewrite deserialized_u64_be by done. split; [intros [= ->]; done|]. intros [E%(inj Some) ?].
  f_equal. by apply u64_be_inj.
Qed.

Lemma deserialized_not_found c fwd k :
  is_u64 c → table_wf c fwd →
  match deserialized_u64 (map_get fwd k) with
  | Ok z => map_get fwd k = Some (u64_be z) ∧ is_u64 z
  | Err _ => map_get fwd k = None
  | Panic => False
  end.
Proof.
  intros Hc Hw. destruct (map_get fwd k) as [v|] eqn:Hk; [|done].
  apply Hw in Hk as (y & -> & ?). assert (is_u64 y) by (unfold is_u64 in *; lia).
  by rewrite deserialized_u64_be.
Qed.
End tables.

(** ** Names *)

(** What has a short id, by kind. *)
Inductive Name :=
  | NEvent (event_id : string)
  | NStateKey (event_type state_key : string)
  | NStateHash (hash : bytes)
  | NRoom (room_id : string).

Definition same_kind (n n' : Name) : Prop :=
  match n, n' with
  | NEvent _, NEvent _ | NStateKey _ _, NStateKey _ _ | NStateHash _, NStateHash _
  | NRoom _, NRoom _ => True
  | _, _ => False
  end.

Definition valid_name (n : Name) : Prop :=
  match n with
  | NEvent e => utf8 e
  | NStateKey ty key => utf8 ty ∧ utf8 key
  | NStateHash _ => True
  | NRoom r => utf8 r
  end.

Definition kind_code (n : Name) : nat :=
  match n with NEvent _ => 0 | NStateKey _ _ => 1 | NStateHash _ => 2 | NRoom _ => 3 end.

Section names.
Context {DB : Type} `{Store DB}.
Implicit Types (s : Short DB) (n : Name).

(** The number a name has, and giving it one. *)
Definition number s n : outcome ShortError Z :=
  match n with
  | NEvent e => get_shorteventid s e
  | NStateKey ty key => get_shortstatekey s ty key
  | NStateHash h => deserialized_u64 (map_get (statehash_shortstatehash s) h)
  | NRoom r => get_shortroomid s r
  end.
Definition assign s n : outcome ShortError (Z * Short DB) :=
  match n with
  | NEvent e => get_or_create_shorteventid s e
  | NStateKey ty key => get_or_create_shortstatekey s ty key
  | NStateHash h => '(z, _, s) ← get_or_create_shortstatehash s h; Ok (z, s)
  | NRoom r => get_or_create_shortroomid s r
  end.

(** What the reverse tables have for a number of the kind of [n]. *)
Definition named s (z : Z) n : Prop :=
  match n with
  | NEvent e => get_eventid_from_short s z = Ok (bytes_of_string e)
  | NStateKey ty key => get_statekey_from_short s z = Ok (bytes_of_string ty, bytes_of_string key)
  | _ => True
  end.

Record short_wf s : Prop := {
  wf_counter : is_u64 (counter (globals s));
  wf_stored : stored_count (global (globals s)) = Ok (counter (globals s));
  wf_events : table_wf (counter (globals s)) (eventid_shorteventid s);
  wf_statekeys : table_wf (counter (globals s)) (statekey_shortstatekey s);
  wf_statehashes : table_wf (counter (globals s)) (statehash_shortstatehash s);
  wf_rooms : table_wf (counter (globals s)) (roomid_shortroomid s);
  wf_event_inverse : inverse (eventid_shorteventid s) (shorteventid_eventid s);
  wf_statekey_inverse : inverse (statekey_shortstatekey s) (shortstatekey_statekey s);
  wf_statehash_inj : injective (statehash_shortstatehash s);
  wf_room_inj : injective (roomid_shortroomid s);
}.

(** The key of a name and the table it is in. *)
Definition statekey_bytes (ty key : string) : bytes := bytes_of_string ty ++ SEP :: bytes_of_string key.
Definition key_of n : bytes :=
  match n with
  | NEvent e => bytes_of_string e
  | NStateKey ty key => statekey_bytes ty key
  | NStateHash h => h
  | NRoom r => bytes_of_string r
  end.
Definition table_of s n : DB :=
  match n with
  | NEvent _ => eventid_shorteventid s
  | NStateKey _ _ => statekey_shortstatekey s
  | NStateHash _ => statehash_shortstatehash s
  | NRoom _ => roomid_shortroomid s
  end.

Lemma serialize_statekey ty key :
  serialize None (statekey_value ty key) = Ok (statekey_bytes ty key).
Proof. unfold serialize, statekey_bytes. cbn. by rewrite <- (assoc_L (++)). Qed.

Lemma number_lookup s n : number s n = deserialized_u64 (map_get (table_of s n) (key_of n)).
Proof.
  destruct n; [done| |done|done]. unfold number, get_shortstatekey, qry, bqry. by rewrite serialize_statekey.
Qed.

Lemma table_of_wf s n : short_wf s → table_wf (counter (globals s)) (table_of s n).
Proof. intros []. by destruct n. Qed.

Lemma table_of_injective s n : short_wf s → injective (table_of s n).
Proof. intros []. destruct n; cbn; eauto using inverse_injective. Qed.

Lemma statekey_fields ty key :
  utf8 ty → utf8 key →
  Forall2 fits [SStr; SStr] [VStr (bytes_of_string ty); VStr (bytes_of_string key)].
Proof. intros. repeat constructor; done. Qed.

Lemma read_statekey ty key :
  utf8 ty → utf8 key →
  deserialized_statekey (Some (statekey_bytes ty key)) = Ok (bytes_of_string ty, bytes_of_string key).
Proof.
  intros Ht Hk. unfold deserialized_statekey, deserialized.
  rewrite (tuple_written_read [SStr; SStr] _ _ (statekey_fields ty key Ht Hk) (serialize_statekey ty key)); [done|].
  unfold statekey_bytes. by destruct (bytes_of_string ty).
Qed.

Lemma key_of_inj n n' : same_kind n n' → valid_name n → valid_name n' → key_of n = key_of n' → n = n'.
Proof.
  destruct n, n'; try done; cbn; intros _ Hn Hn' E; try (f_equal; by apply bytes_of_string_inj); [|by subst].
  destruct Hn as [Ht Hk], Hn' as [Ht' Hk']. pose proof (read_statekey _ _ Ht Hk) as Hr.
  rewrite E, read_statekey in Hr by done. injection Hr as ??. f_equal; by apply bytes_of_string_inj.
Qed.

(** ** Assigning *)

Lemma next_count_spec (g : Globals DB) :
  is_u64 (counter g) → counter g < u64_max →
  next_count g = (counter g + 1,
    mkGlobals (map_insert (global g) COUNTER (u64_be (counter g + 1))) (counter g + 1)).
Proof.
  intros Hu Hc. unfold next_count, u64_checked, checked, in_range, u64_max in *.
  rewrite bool_decide_eq_true_2; [done|]. unfold is_u64 in Hu. lia.
Qed.

Lemma stored_count_insert (m : DB) z : is_u64 z → stored_count (map_insert m COUNTER (u64_be z)) = Ok z.
Proof. intros Hz. unfold stored_count. by rewrite map_get_insert_eq, u64_from_be. Qed.

Lemma raw_aput_u64 {E} (m : DB) k z : raw_aput (E := E) 8 m k (VU64 z) = Ok (map_insert m k (u64_be z)).
Proof. unfold raw_aput, raw_bput. by rewrite serialize_u64. Qed.
Lemma aput_raw_u64 {E} (m : DB) z v : aput_raw (E := E) 8 m (VU64 z) v = Ok (map_insert m (u64_be z) v).
Proof. unfold aput_raw, bput_raw. by rewrite serialize_u64. Qed.

Lemma assign_new s n :
  short_wf s → counter (globals s) < u64_max → map_get (table_of s n) (key_of n) = None →
  ∃ s', assign s n = Ok (counter (globals s) + 1, s') ∧ short_wf s'
    ∧ counter (globals s') = counter (globals s) + 1
    ∧ (∀ n', same_kind n n' →
         table_of s' n' = map_insert (table_of s n') (key_of n) (u64_be (counter (globals s) + 1)))
    ∧ (∀ n', ¬ same_kind n n' → table_of s' n' = table_of s n').
Proof.
  intros Hw Hc Hn. pose proof (wf_counter s Hw) as Hu.
  assert (is_u64 (counter (globals s) + 1)) as Hu' by (unfold is_u64, u64_max in *; lia).
  assert (0 ≤ counter (globals s)) as H0 by (unfold is_u64 in *; lia).
  pose proof (deserialized_not_found _ _ (key_of n) Hu (table_of_wf s n Hw)) as Hd. rewrite Hn in Hd.
  assert (number s n = Err RequestNotFound) as Hnum by (by rewrite number_lookup, Hn).
  destruct Hw as [? Hst He Hk Hh Hr Hei Hki Hhi Hri].
  destruct n as [e|ty key|h|r]; unfold assign, get_or_create_shorteventid, get_or_create_shortstatekey,
    get_or_create_shortstatehash, get_or_create_shortroomid, create_shorteventid; unfold number in Hnum;
    rewrite Hnum, next_count_spec by done; cbn [table_of key_of] in Hn.
  - rewrite raw_aput_u64, aput_raw_u64. cbn [mbind outcome_bind]. eexists. split; [done|].
    split; [|split; [done|split; by intros []]].
    split; cbn; eauto using stored_count_insert, table_wf_insert, inverse_insert; eapply table_wf_mono; eauto; lia.
  - unfold put_aput, aput_put, bput, bput_raw. cbn [fst snd].
    rewrite serialize_statekey, serialize_u64 by done. cbn [mbind outcome_bind must]. eexists. split; [done|].
    split; [|split; [done|split; by intros []]].
    split; cbn; eauto using stored_count_insert, table_wf_insert, inverse_insert; eapply table_wf_mono; eauto; lia.
  - rewrite raw_aput_u64. cbn [mbind outcome_bind]. eexists. split; [done|].
    split; [|split; [done|split; by intros []]].
    split; cbn; eauto using stored_count_insert, table_wf_insert, injective_insert; eapply table_wf_mono; eauto; lia.
  - rewrite raw_aput_u64. cbn [mbind outcome_bind]. eexists. split; [done|].
    split; [|split; [done|split; by intros []]].
    split; cbn; eauto using stored_count_insert, table_wf_insert, injective_insert; eapply table_wf_mono; eauto; lia.
Qed.

Lemma assign_old s n z : number s n = Ok z → assign s n = Ok (z, s).
Proof.
  destruct n; unfold number, assign, get_or_create_shorteventid, get_or_create_shortstatekey,
    get_or_create_shortstatehash, get_or_create_shortroomid; by intros ->.
Qed.

(** The reverse tables name what has the number, one by one or in a batch. *)
Definition named_row s (z : Z) n : Prop :=
  match n with
  | NEvent e => map_get (shorteventid_eventid s) (u64_be z) = Some (bytes_of_string e)
  | NStateKey ty key => map_get (shortstatekey_statekey s) (u64_be z) = Some (statekey_bytes ty key)
  | _ => True
  end.

Lemma number_row s n z : short_wf s → number s n = Ok z → named_row s z n.
Proof.
  intros Hw Hn. rewrite number_lookup in Hn.
  apply (deserialized_table (counter (globals s))) in Hn as [Hn Hz]; [|apply Hw|by apply table_of_wf].
  destruct n as [e|ty key|h|r]; cbn [named_row table_of key_of] in *; [| |done..].
  - by apply (wf_event_inverse s Hw) in Hn.
  - by apply (wf_statekey_inverse s Hw) in Hn.
Qed.

Lemma read_str e : utf8 e → deserialized_str (Some (bytes_of_string e)) = Ok (bytes_of_string e).
Proof. intros He. unfold deserialized_str, deserialized. by rewrite from_slice_str. Qed.

Lemma named_number s n z : short_wf s → valid_name n → number s n = Ok z → named s z n.
Proof.
  intros Hw Hv Hn%number_row; [|done]. destruct n as [e|ty key|h|r]; cbn [named named_row] in *; [| |done..].
  - unfold get_eventid_from_short, aqry, bqry.
    rewrite serialize_u64 by done. cbn [must mbind outcome_bind]. by rewrite Hn, read_str.
  - unfold get_statekey_from_short, aqry, bqry.
    rewrite serialize_u64 by done. cbn [must mbind outcome_bind]. destruct Hv. by rewrite Hn, read_statekey.
Qed.

Lemma multi_get_event s e z l :
  short_wf s → utf8 e → number s (NEvent e) = Ok z →
  multi_get_eventid_from_short s (z :: l) = Ok (bytes_of_string e) :: multi_get_eventid_from_short s l.
Proof.
  intros Hw Hv Hn%number_row; [|done]. cbn [named_row] in Hn. unfold multi_get_eventid_from_short, qry, bqry.
  rewrite fmap_cons. rewrite serialize_u64_vec. cbn [must mbind outcome_bind]. by rewrite Hn, read_str.
Qed.
Lemma multi_get_statekey s ty key z l :
  short_wf s → utf8 ty → utf8 key → number s (NStateKey ty key) = Ok z →
  multi_get_statekey_from_short s (z :: l)
  = Ok (bytes_of_string ty, bytes_of_string key) :: multi_get_statekey_from_short s l.
Proof.
  intros Hw Ht Hk Hn%number_row; [|done]. cbn [named_row] in Hn. unfold multi_get_statekey_from_short, qry, bqry.
  rewrite fmap_cons. rewrite serialize_u64_vec. cbn [must mbind outcome_bind]. by rewrite Hn, read_statekey.
Qed.

Lemma short_id_assigned_aux s n :
  short_wf s → counter (globals s) < u64_max →
  ∃ z s', assign s n = Ok (z, s') ∧ short_wf s' ∧ number s' n = Ok z
    ∧ counter (globals s) ≤ counter (globals s') ≤ counter (globals s) + 1
    ∧ (∀ n', grows (table_of s n') (table_of s' n'))
    ∧ (∀ n', ¬ same_kind n n' → table_of s' n' = table_of s n').
Proof.
  intros Hw Hc.
  pose proof (deserialized_not_found _ _ (key_of n) (wf_counter s Hw) (table_of_wf s n Hw)) as Hd.
  rewrite <- number_lookup in Hd. destruct (number s n) as [z|e|] eqn:Hn; [|clear Hn|done].
  - exists z, s. split_and!; [by apply assign_old|done|done|lia|lia| |done]. by intros ???.
  - destruct (assign_new s n Hw Hc Hd) as (s' & Ha & Hw' & Hcnt & Hk & Ho).
    exists (counter (globals s) + 1), s'. split_and!; [done..| |lia|lia| |done].
    + assert (same_kind n n) as Hn' by by destruct n.
      rewrite number_lookup, (Hk n Hn'), map_get_insert_eq. apply deserialized_u64_be.
      pose proof (wf_counter s Hw). unfold is_u64, u64_max in *. lia.
    + intros n'. destruct (decide (kind_code n = kind_code n')) as [Hs|Hs].
      * assert (same_kind n n') as Hsame by by destruct n, n'.
        rewrite Hk by done. apply grows_insert. by destruct n, n'.
      * rewrite Ho; [by intros ???|]. intros Hsame. apply Hs. by destruct n, n'.
Qed.

Lemma number_grows s s' n z :
  short_wf s → grows (table_of s n) (table_of s' n) → number s n = Ok z → number s' n = Ok z.
Proof.
  intros Hw Hg. rewrite !number_lookup.
  intros [Hk ?]%(deserialized_table (counter (globals s))); [|apply Hw|by apply table_of_wf].
  apply Hg in Hk. rewrite Hk. by apply deserialized_u64_be.
Qed.

Lemma number_inj s n n' z :
  short_wf s → same_kind n n' → valid_name n → valid_name n' →
  number s n = Ok z → number s n' = Ok z → n = n'.
Proof.
  intros Hw Hsame Hv Hv'. rewrite !number_lookup.
  intros [Hk ?]%(deserialized_table (counter (globals s))); [|apply Hw|by apply table_of_wf].
  intros [Hk' ?]%(deserialized_table (counter (globals s))); [|apply Hw|by apply table_of_wf].
  apply key_of_inj; [done..|]. eapply (table_of_injective s n); [done|done|]. by destruct n, n'.
Qed.

Lemma number_bounds s n z : short_wf s → number s n = Ok z → is_u64 z ∧ z ≠ 0.
Proof.
  intros Hw. rewrite number_lookup.
  intros [Hk Hz]%(deserialized_table (counter (globals s))); [|apply Hw|by apply table_of_wf].
  split; [done|]. apply (table_of_wf s n Hw) in Hk as (y & Hy & ?).
  apply u64_be_inj in Hy; [lia|done|]. pose proof (wf_counter s Hw). unfold is_u64 in *. lia.
Qed.

(** C14: short ids name one thing each.  Asking for the id of a name succeeds and keeps the
    tables well formed; the id is found again, the reverse table gives the name back, the
    ids given before stay as they were, and no other name of the kind has this one. *)
Theorem short_id_assigned s n :
  short_wf s → valid_name n → counter (globals s) < u64_max →
  ∃ z s', assign s n = Ok (z, s') ∧ short_wf s' ∧ number s' n = Ok z ∧ named s' z n
    ∧ (∀ n' z', number s n' = Ok z' → number s' n' = Ok z')
    ∧ (∀ n', same_kind n n' → valid_name n' → number s' n' = Ok z → n' = n).
Proof.
  intros Hw Hv Hc. destruct (short_id_assigned_aux s n Hw Hc) as (z & s' & Ha & Hw' & Hz & _ & Hg & _).
  exists z, s'. split_and!; [done..|by apply named_number| |].
  - intros n' z'. by apply number_grows.
  - intros n' Hsame Hv' Hz'. symmetry. by eapply (number_inj s').
Qed.
End names.

(** ** From an empty database *)

Section runs.
Context {DB : Type} `{Store DB}.

Definition fresh_short : Short DB :=
  mkShort store_empty store_empty store_empty store_empty store_empty store_empty (open_globals store_empty).

Lemma fresh_short_wf : short_wf fresh_short.
Proof.
  assert (∀ k, map_get (store_empty : DB) k = None) as He by apply map_get_empty.
  assert (stored_count (store_empty : DB) = Ok 0) as H0 by (unfold stored_count; by rewrite He).
  split; unfold fresh_short, open_globals; cbn; rewrite ?H0; cbn;
    [by split|done|intros k v Hk; by rewrite He in Hk..
    |intros k v; by rewrite !He|intros k v; by rewrite !He
    |intros k k' v Hk; by rewrite He in Hk|intros k k' v Hk; by rewrite He in Hk].
Qed.

Fixpoint assign_all (s : Short DB) (ns : list Name) : outcome ShortError (Short DB) :=
  match ns with
  | [] => Ok s
  | n :: ns => '(_, s) ← assign s n; assign_all s ns
  end.

(** Every run on a new database that hands out fewer ids than a [u64] has values. *)
Lemma assign_all_wf s ns :
  short_wf s → Forall valid_name ns → counter (globals s) + Z.of_nat (length ns) ≤ u64_max →
  ∃ s', assign_all s ns = Ok s' ∧ short_wf s'.
Proof.
  intros Hw Hv. revert s Hw. induction Hv as [|n ns Hn _ IH]; intros s Hw Hc; cbn; [by exists s|].
  cbn in Hc. destruct (short_id_assigned_aux s n Hw) as (z & s' & Ha & Hw' & _ & ? & _); [lia|].
  rewrite Ha. cbn. apply IH; [done|]. lia.
Qed.
End runs.

Module ShortDemo.
Definition s0 : Short (gmap bytes bytes) := fresh_short.

Lemma short_id_assigned_witness :
  ∃ z s', assign s0 (NStateKey "m.room.topic" EmptyString) = Ok (z, s')
    ∧ named s' z (NStateKey "m.room.topic" EmptyString).
Proof.
  destruct (short_id_assigned s0 (NStateKey "m.room.topic" EmptyString)) as (z & s' & ? & _ & _ & ? & _).
  - apply fresh_short_wf.
  - by split.
  - by vm_compute.
  - by exists z, s'.
Defined.

(** A batch of lookups does not see the ids created for it: an event that is in it twice
    gets two numbers, and the first one keeps naming it in the reverse table only. *)
Example duplicate_in_batch :
  match multi_get_or_create_shorteventid s0 [["$a"; "$a"]] with
  | Ok (ids, s) => ids = [1; 2] ∧ get_shorteventid s "$a" = Ok 2
                   ∧ get_eventid_from_short s 1 = Ok (bytes_of_string "$a")
  | _ => False
  end.
Proof. by vm_compute. Qed.
End ShortDemo.
