(* ===== verification/AccountData.v ===== *)
(** * Account data of users

    Models [src/service/account_data/mod.rs]: the data a user keeps per room, or globally,
    under a type.  One table has the data under (room, user, count, type), another the
    current row of every (room, user, type).  The abstract state is the map from (room,
    user, type) to the latest count and data; the theorems say that [update] inserts into
    it, that [get_raw] looks it up, and that [changes_since] lists its changes in order. *)

From S2P Require Import Prelude Bytes DbMap DbSer DbScan Tables Short ShortProps.

Local Open Scope Z_scope.

Inductive AccountError := InvalidParam | AccountNotFound.

Inductive AccountTable := RoomuserdataidAccountdata | RoomusertypeRoomuserdataid.
#[export] Instance AccountTable_eq_dec : EqDecision AccountTable.
Proof. solve_decision. Defined.

(** [Option<&RoomId>]; [None] is the global account data. *)
Definition opt_room (room_id : option string) : Value :=
  match room_id with Some r => VSome (VStr (bytes_of_string r)) | None => VNone end.

Section account_data.
Context {DB : Type} `{Store DB}.
(** [serde_json]: the values, their members and texts, and the texts it accepts. *)
Context {Json : Type} (json_get : Json → string → bool) (json_text : Json → bytes) (is_json : bytes → bool).

Record AccountData := mkAccountData { account_globals : Globals DB; account_db : AccountTable → DB }.
Implicit Types (c : AccountData).

Definition roomuserdataid (room_id : option string) (user_id : string) (count : Z) (event_type : string) : Value :=
  VTuple [opt_room room_id; VStr (bytes_of_string user_id); VU64 count; VStr (bytes_of_string event_type)].
Definition roomusertype (room_id : option string) (user_id event_type : string) : Value :=
  VTuple [opt_room room_id; VStr (bytes_of_string user_id); VStr (bytes_of_string event_type)].

Definition update c (room_id : option string) (user_id event_type : string) (data : Json)
    : outcome AccountError AccountData :=
  if negb (json_get data "type") || negb (json_get data "content") then Err InvalidParam
  else
    let '(count, g) := next_count (account_globals c) in
    let id := roomuserdataid room_id user_id count event_type in
    let db := account_db c in
    m ← bput (db RoomuserdataidAccountdata) id (VText (json_text data)) (None, None);
    let db := set_table db RoomuserdataidAccountdata m in
    let key := roomusertype room_id user_id event_type in
    prev ← qry (db RoomusertypeRoomuserdataid) key;
    m ← bput (db RoomusertypeRoomuserdataid) key id (None, None);
    let db := set_table db RoomusertypeRoomuserdataid m in
    let db := match prev with
              | Some prev => set_table db RoomuserdataidAccountdata (map_remove (db RoomuserdataidAccountdata) prev)
              | None => db
              end in
    Ok (mkAccountData g db).

Definition get_raw c (room_id : option string) (user_id kind : string) : outcome AccountError bytes :=
  roomuserdataid ← qry (account_db c RoomusertypeRoomuserdataid) (roomusertype room_id user_id kind);
  match roomuserdataid with
  | Some id => ok_or AccountNotFound (map_get (account_db c RoomuserdataidAccountdata) id)
  | None => Err AccountNotFound
  end.

(** [get_global] and [get_room] with the decoder of the kind. *)
Definition get_global {A} (decode : bytes → option A) c (user_id kind : string) : outcome AccountError A :=
  b ← get_raw c None user_id kind; ok_or AccountNotFound (decode b).
Definition get_room {A} (decode : bytes → option A) c (room_id user_id kind : string) : outcome AccountError A :=
  b ← get_raw c (Some room_id) user_id kind; ok_or AccountNotFound (decode b).

(** The row of a key of the stream: room, user and count. *)
Definition read_row (kv : KeyVal) : option ((option string * string * Z) * bytes) :=
  match from_slice (STuple [SOption SStr; SStr; SU64; SIgnore]) kv.1 with
  | Ok (VTuple [VNone; VStr u; VU64 n; _]) => Some ((None, string_of_bytes u, n), kv.2)
  | Ok (VTuple [VSome (VStr r); VStr u; VU64 n; _]) => Some ((Some (string_of_bytes r), string_of_bytes u, n), kv.2)
  | _ => None
  end.

Definition in_window (room_id : option string) (user_id : string) (to : option Z) (row : option string * string * Z) : bool :=
  let '(room, user, count) := row in
  bool_decide (room_id = room) && bool_decide (user_id = user)
  && match to with Some to => bool_decide (count ≤ to) | None => true end.

Definition changes_since c (room_id : option string) (user_id : string) (since to : option Z)
    : outcome AccountError (list bytes) :=
  let first := match since with Some since => if bool_decide (since = u64_max) then since else since + 1 | None => 0 end in
  first_possible ← must (serialize None (VTuple [opt_room room_id; VStr (bytes_of_string user_id); VU64 first]));
  let rows := omap read_row (raw_stream_from (account_db c RoomuserdataidAccountdata) first_possible) in
  let rows := take_while (λ row, in_window room_id user_id to row.1 = true) rows in
  Ok (omap (λ row : (option string * string * Z) * bytes, if is_json row.2 then Some row.2 else None) rows).
End account_data.

(** ** Keys *)

Definition room_bytes (room : option string) : bytes := from_option bytes_of_string [] room.
Definition valid_room (room : option string) : Prop :=
  match room with Some r => utf8 r ∧ r ≠ "" | None => True end.
Definition window (room : option string) (u : string) : bytes :=
  room_bytes room ++ SEP :: bytes_of_string u ++ [SEP].
Definition id_key (room : option string) (u : string) (n : Z) (ty : string) : bytes :=
  window room u ++ u64_be n ++ SEP :: bytes_of_string ty.
Definition type_key (room : option string) (u ty : string) : bytes := window room u ++ bytes_of_string ty.

Lemma valid_room_no_sep room : valid_room room → SEP ∉ room_bytes room.
Proof. destruct room as [r|]; cbn; [intros [? _]; by apply utf8_no_sep|by intros _ ?%not_elem_of_nil]. Qed.
Lemma room_bytes_nil r : valid_room r → room_bytes r = [] → r = None.
Proof.
  destruct r as [r|]; [|done]. intros [_ Hr] E. exfalso. apply Hr. by apply bytes_of_string_inj.
Qed.
Lemma room_bytes_inj r r' : valid_room r → valid_room r' → room_bytes r = room_bytes r' → r = r'.
Proof.
  intros Hr Hr' E. destruct r as [r|].
  - destruct r' as [r'|]; [by apply bytes_of_string_inj in E as ->|by apply room_bytes_nil in E].
  - symmetry. by apply room_bytes_nil.
Qed.
Lemma window_app room u k : window room u ++ k = room_bytes room ++ SEP :: bytes_of_string u ++ SEP :: k.
Proof. unfold window. rewrite <- (assoc_L (++)). cbn. by rewrite <- (assoc_L (++)). Qed.
Lemma window_inj r u r' u' k k' :
  valid_room r → valid_room r' → utf8 u → utf8 u' → window r u ++ k = window r' u' ++ k' → r = r' ∧ u = u' ∧ k = k'.
Proof.
  intros Hr Hr' Hu Hu'. rewrite !window_app. intros E.
  apply split_at_sep in E as [?%room_bytes_inj E]; [|try (by apply valid_room_no_sep); done..].
  apply split_at_sep in E as [?%bytes_of_string_inj E]; [done|by apply utf8_no_sep..].
Qed.
Lemma id_key_inj r u n ty r' u' n' ty' :
  valid_room r → valid_room r' → utf8 u → utf8 u' → is_u64 n → is_u64 n' →
  id_key r u n ty = id_key r' u' n' ty' → r = r' ∧ u = u' ∧ n = n' ∧ ty = ty'.
Proof.
  intros ?????? E. apply window_inj in E as (-> & -> & E); [|done..].
  apply app_inj_1 in E as [?%u64_be_inj E]; [|done..|by rewrite !length_u64_be].
  injection E as ?%bytes_of_string_inj. done.
Qed.
Lemma type_key_inj r u ty r' u' ty' :
  valid_room r → valid_room r' → utf8 u → utf8 u' → type_key r u ty = type_key r' u' ty' →
  r = r' ∧ u = u' ∧ ty = ty'.
Proof. intros ???? E. apply window_inj in E as (-> & -> & ?%bytes_of_string_inj); done. Qed.

Lemma fits_room room : valid_room room → fits (SOption SStr) (opt_room room) ∧ field_bytes (opt_room room) = room_bytes room.
Proof.
  destruct room as [r|]; cbn; [|by split; [constructor|]]. intros [Hu Hn]. split; [|done].
  destruct (bytes_of_string r) as [|b l] eqn:Hr; [by destruct Hn; apply bytes_of_string_inj|].
  eapply fits_some; [by constructor; unfold utf8 in Hu; rewrite Hr in *|cbn; done|].
  intros ->. apply utf8_no_sep in Hu. rewrite Hr in Hu. set_solver.
Qed.

Lemma serialize_id r u n ty :
  valid_room r → utf8 u → is_u64 n → utf8 ty → serialize None (roomuserdataid r u n ty) = Ok (id_key r u n ty).
Proof.
  intros Hr Hu Hn Ht. destruct (fits_room r Hr) as [Hf Hb]. unfold roomuserdataid.
  rewrite (serialize_tuple' [SOption SStr; SStr; SU64; SStr]) by fits_solve.
  unfold id_key. rewrite window_app, Hb. unfold tail_bytes. cbn [fmap list_fmap concat field_bytes].
  rewrite app_nil_r. done.
Qed.
Lemma serialize_type r u ty :
  valid_room r → utf8 u → utf8 ty → serialize None (roomusertype r u ty) = Ok (type_key r u ty).
Proof.
  intros Hr Hu Ht. destruct (fits_room r Hr) as [Hf Hb]. unfold roomusertype.
  rewrite (serialize_tuple' [SOption SStr; SStr; SStr]) by fits_solve.
  unfold type_key. rewrite window_app, Hb. unfold tail_bytes. cbn [fmap list_fmap concat field_bytes].
  rewrite app_nil_r. done.
Qed.
Lemma serialize_first r u n :
  valid_room r → utf8 u → is_u64 n →
  serialize None (VTuple [opt_room r; VStr (bytes_of_string u); VU64 n]) = Ok (window r u ++ u64_be n).
Proof.
  intros Hr Hu Hn. destruct (fits_room r Hr) as [Hf Hb].
  rewrite (serialize_tuple' [SOption SStr; SStr; SU64]) by fits_solve.
  rewrite window_app, Hb. unfold tail_bytes. cbn [fmap list_fmap concat field_bytes].
  rewrite app_nil_r. done.
Qed.
Lemma read_id r u n ty d :
  valid_room r → utf8 u → is_u64 n → utf8 ty → read_row (id_key r u n ty, d) = Some ((r, u, n), d).
Proof.
  intros Hr Hu Hn Ht. destruct (fits_room r Hr) as [Hf Hb]. unfold read_row. cbn [fst snd].
  pose proof (tuple_read [SOption SStr; SStr; SU64; SIgnore] (opt_room r)
    [VStr (bytes_of_string u); VU64 n; VStr (bytes_of_string ty)]
    [opt_room r; VStr (bytes_of_string u); VU64 n; VUnit]) as Hrd.
  unfold tail_bytes in Hrd. cbn [fmap list_fmap concat field_bytes] in Hrd. rewrite Hb, app_nil_r in Hrd.
  unfold id_key. rewrite window_app. change (u64_be n) with (be_bytes 8 n).
  cbn [app] in Hrd. rewrite Hrd.
  - destruct r; cbn; by rewrite ?string_of_bytes_of_string.
  - reads_solve.
  - by destruct (room_bytes r).
Qed.

(** ** The map behind the tables *)

Section refine.
Context {DB : Type} `{Store DB}.
Context {Json : Type} (json_get : Json → string → bool) (json_text : Json → bytes) (is_json : bytes → bool).
(** [serde_json] reads what it wrote. *)
Hypothesis json_text_ok : ∀ j, is_json (json_text j) = true.
Local Abbreviation Key := (option string * string * string)%type.
Local Abbreviation Contents := (gmap Key (Z * bytes)).
Implicit Types (c : AccountData (DB := DB)) (A : Contents).

Definition valid_key (k : Key) : Prop := valid_room k.1.1 ∧ utf8 k.1.2 ∧ utf8 k.2.
Definition key_bytes (k : Key) : bytes := type_key k.1.1 k.1.2 k.2.
Definition row_bytes (k : Key) (n : Z) : bytes := id_key k.1.1 k.1.2 n k.2.

Record account_wf c A : Prop := {
  aw_counter : is_u64 (counter (account_globals c));
  aw_stored : stored_count (global (account_globals c)) = Ok (counter (account_globals c));
  aw_entries : ∀ k n d, A !! k = Some (n, d) →
    valid_key k ∧ 1 ≤ n ≤ counter (account_globals c) ∧ is_json d = true;
  aw_counts : ∀ k k' n d d', A !! k = Some (n, d) → A !! k' = Some (n, d') → k = k';
  aw_types : ∀ b v, map_get (account_db c RoomusertypeRoomuserdataid) b = Some v ↔
    ∃ k n d, A !! k = Some (n, d) ∧ b = key_bytes k ∧ v = row_bytes k n;
  aw_rows : ∀ b v, map_get (account_db c RoomuserdataidAccountdata) b = Some v ↔
    ∃ k n, A !! k = Some (n, v) ∧ b = row_bytes k n;
}.

Lemma aw_u64 c A k n d : account_wf c A → A !! k = Some (n, d) → is_u64 n.
Proof.
  intros Hc Hk. apply (aw_entries c A Hc) in Hk as (_ & ? & _). pose proof (aw_counter c A Hc).
  unfold is_u64 in *. lia.
Qed.
Lemma key_bytes_inj k k' : valid_key k → valid_key k' → key_bytes k = key_bytes k' → k = k'.
Proof.
  destruct k as [[r u] ty], k' as [[r' u'] ty']. intros (? & ? & ?) (? & ? & ?) E. cbn in *.
  by apply type_key_inj in E as (-> & -> & ->).
Qed.
Lemma row_bytes_inj k n k' n' :
  valid_key k → valid_key k' → is_u64 n → is_u64 n' → row_bytes k n = row_bytes k' n' → k = k' ∧ n = n'.
Proof.
  destruct k as [[r u] ty], k' as [[r' u'] ty']. intros (? & ? & ?) (? & ? & ?) ?? E. cbn in *.
  by apply id_key_inj in E as (-> & -> & -> & ->).
Qed.

(** The current row of a key. *)
Lemma aw_type_row c A k :
  account_wf c A → valid_key k →
  map_get (account_db c RoomusertypeRoomuserdataid) (key_bytes k) = (λ nd, row_bytes k nd.1) <$> A !! k.
Proof.
  intros Hc Hk. destruct (A !! k) as [[n d]|] eqn:Ha; cbn.
  - apply (aw_types c A Hc). by exists k, n, d.
  - destruct (map_get _ _) as [v|] eqn:Hv; [|done]. exfalso.
    apply (aw_types c A Hc) in Hv as (k' & n & d & Ha' & E & _).
    destruct (aw_entries c A Hc _ _ _ Ha') as (Hk' & _). apply key_bytes_inj in E as ->; congruence.
Qed.

(** The tables after an update. *)
Lemma account_rows c A k n d b v :
  account_wf c A → valid_key k → is_u64 n → counter (account_globals c) < n →
  (∃ k' n', <[k := (n, d)]> A !! k' = Some (n', v) ∧ b = row_bytes k' n') ↔
  (if decide (b = row_bytes k n) then v = d
   else (∀ n' d', A !! k = Some (n', d') → b ≠ row_bytes k n')
        ∧ map_get (account_db c RoomuserdataidAccountdata) b = Some v).
Proof.
  intros Hc Hk Hn Hlt. case_decide as E.
  - subst b. split; [|intros ->; exists k, n; by rewrite lookup_insert_eq].
    intros (k' & n' & [[<- [= <- <-]]|[Hne Hk']]%lookup_insert_Some & E); [done|].
    destruct (aw_entries c A Hc _ _ _ Hk') as (? & ? & _). pose proof (aw_u64 c A _ _ _ Hc Hk').
    apply row_bytes_inj in E as [-> _]; done.
  - rewrite (aw_rows c A Hc). split.
    + intros (k' & n' & [[<- [= <- <-]]|[Hne Hk']]%lookup_insert_Some & ->); [done|].
      destruct (aw_entries c A Hc _ _ _ Hk') as (? & ? & _). pose proof (aw_u64 c A _ _ _ Hc Hk').
      split; [|by exists k', n']. intros n2 d2 Hk2 Eb. pose proof (aw_u64 c A _ _ _ Hc Hk2).
      apply row_bytes_inj in Eb as [-> _]; done.
    + intros [Hold (k' & n' & Hk' & ->)]. exists k', n'. rewrite lookup_insert_ne; [done|].
      intros <-. by apply (Hold n' v).
Qed.

(** The tables an update writes, the row of the key before it being [old]. *)
Definition updated_db c (k : Key) (n : Z) (d : bytes) (old : option bytes) : AccountTable → DB :=
  let db := set_table (account_db c) RoomuserdataidAccountdata
              (map_insert (account_db c RoomuserdataidAccountdata) (row_bytes k n) d) in
  let db := set_table db RoomusertypeRoomuserdataid
              (map_insert (account_db c RoomusertypeRoomuserdataid) (key_bytes k) (row_bytes k n)) in
  match old with
  | Some old => set_table db RoomuserdataidAccountdata (map_remove (db RoomuserdataidAccountdata) old)
  | None => db
  end.

Lemma update_runs c A r u ty j :
  account_wf c A → valid_key (r, u, ty) → counter (account_globals c) < u64_max →
  json_get j "type" = true → json_get j "content" = true →
  let n := counter (account_globals c) + 1 in
  update json_get json_text c r u ty j
  = Ok (mkAccountData (mkGlobals (map_insert (global (account_globals c)) COUNTER (u64_be n)) n)
      (updated_db c (r, u, ty) n (json_text j) ((λ nd, row_bytes (r, u, ty) nd.1) <$> A !! (r, u, ty)))).
Proof.
  intros Hc Hk Hlt Ht Hcn n. pose proof Hk as (Hr & Hu & Hty). pose proof (aw_counter c A Hc) as Hcu. cbn [fst snd] in *.
  unfold update. rewrite Ht, Hcn. cbn [negb orb]. rewrite next_count_spec by done. fold n.
  assert (is_u64 n) as Hn by (unfold n, is_u64, u64_max in *; lia).
  unfold qry, bqry, bput, bput_raw. cbn [fst snd]. rewrite serialize_id, serialize_type by done.
  cbn [must mbind outcome_bind]. change (serialize None (VText (json_text j))) with (Ok (E := SerdeError) (json_text j)).
  cbn [must mbind outcome_bind].
  pose proof (aw_type_row c A (r, u, ty) Hc Hk) as Hrow. unfold key_bytes in Hrow. cbn [fst snd] in Hrow.
  rewrite !(set_table_ne _ RoomuserdataidAccountdata RoomusertypeRoomuserdataid) by done. rewrite Hrow. unfold updated_db.
  by destruct (A !! (r, u, ty)) as [[n' d']|].
Qed.

Lemma updated_rows c A k n d b v :
  account_wf c A → valid_key k → is_u64 n → counter (account_globals c) < n →
  map_get (updated_db c k n d ((λ nd, row_bytes k nd.1) <$> A !! k) RoomuserdataidAccountdata) b = Some v ↔
  (if decide (b = row_bytes k n) then v = d
   else (∀ n' d', A !! k = Some (n', d') → b ≠ row_bytes k n')
        ∧ map_get (account_db c RoomuserdataidAccountdata) b = Some v).
Proof.
  intros Hc Hk Hn Hlt. unfold updated_db. destruct (A !! k) as [[n' d']|] eqn:Ha; cbn [fmap option_fmap option_map fst].
  - assert (row_bytes k n' ≠ row_bytes k n) as Hne.
    { destruct (aw_entries c A Hc _ _ _ Ha) as (_ & ? & _). pose proof (aw_u64 c A _ _ _ Hc Ha).
      intros [_ ?]%row_bytes_inj; [lia|done..]. }
    rewrite set_table_eq, (set_table_ne _ RoomusertypeRoomuserdataid), set_table_eq by done.
    unfold map_get, map_insert, map_remove. rewrite store_get_delete, store_get_put.
    case_decide as E; [subst b; rewrite bool_decide_eq_false_2, bool_decide_eq_true_2 by done; naive_solver|].
    rewrite (bool_decide_eq_false_2 (row_bytes k n = b)) by done. case_bool_decide as E'.
    + split; [done|]. intros [Hf _]. by destruct (Hf n' d').
    + split; [|by intros [_ ?]]. intros ?. split; [|done]. intros ?? [= <- <-]. done.
  - rewrite (set_table_ne _ RoomusertypeRoomuserdataid), set_table_eq by done.
    unfold map_get, map_insert. rewrite store_get_put.
    case_decide as E; [subst b; rewrite bool_decide_eq_true_2 by done; naive_solver|].
    rewrite bool_decide_eq_false_2 by done. naive_solver.
Qed.

Lemma updated_types c A k n d b v old :
  account_wf c A → valid_key k →
  map_get (updated_db c k n d old RoomusertypeRoomuserdataid) b = Some v ↔
  ∃ k' n' d', <[k := (n, d)]> A !! k' = Some (n', d') ∧ b = key_bytes k' ∧ v = row_bytes k' n'.
Proof.
  intros Hc Hk.
  assert (map_get (updated_db c k n d old RoomusertypeRoomuserdataid) b
    = if bool_decide (key_bytes k = b) then Some (row_bytes k n)
      else map_get (account_db c RoomusertypeRoomuserdataid) b) as ->.
  { unfold updated_db. destruct old; rewrite ?(set_table_ne _ RoomuserdataidAccountdata RoomusertypeRoomuserdataid) by done;
      rewrite set_table_eq; unfold map_get, map_insert;
      by rewrite store_get_put. }
  case_bool_decide as E.
  - subst b. split; [intros [= <-]; exists k, n, d; by rewrite lookup_insert_eq|].
    intros (k' & n' & d' & [[<- [= <- <-]]|[Hne Hk']]%lookup_insert_Some & E & ->); [done|].
    destruct (aw_entries c A Hc _ _ _ Hk') as (? & _ & _). by apply key_bytes_inj in E.
  - rewrite (aw_types c A Hc). split; intros (k' & n' & d' & Hk' & -> & ->); exists k', n', d'.
    + rewrite lookup_insert_ne; [done|]. by intros <-.
    + apply lookup_insert_Some in Hk' as [[<- _]|[_ ?]]; done.
Qed.

Lemma updated_wf c A k j (g : Globals DB) :
  account_wf c A → valid_key k → counter (account_globals c) < u64_max →
  let n := counter (account_globals c) + 1 in
  counter g = n → stored_count (global g) = Ok n →
  account_wf (mkAccountData g (updated_db c k n (json_text j) ((λ nd, row_bytes k nd.1) <$> A !! k)))
    (<[k := (n, json_text j)]> A).
Proof.
  intros Hc Hk Hlt n Hg Hs. pose proof (aw_counter c A Hc) as Hcu.
  assert (is_u64 n) as Hn by (unfold n, is_u64, u64_max in *; lia).
  assert (∀ k' n' d', A !! k' = Some (n', d') → n' < n) as Hold.
  { intros k' n' d' Hk'. destruct (aw_entries c A Hc _ _ _ Hk') as (_ & ? & _). lia. }
  split; cbn [account_globals account_db].
  - by rewrite Hg.
  - by rewrite Hg.
  - intros k' n' d' [[<- [= <- <-]]|[_ Hk']]%lookup_insert_Some; rewrite Hg.
    + split; [done|]. split; [unfold n, is_u64 in *; lia|done].
    + destruct (aw_entries c A Hc _ _ _ Hk') as (? & ? & ?). split; [done|]. split; [lia|done].
  - intros k1 k2 n' d1 d2 Hk1%lookup_insert_Some Hk2%lookup_insert_Some.
    destruct Hk1 as [[<- E1]|[_ Hk1]], Hk2 as [[<- E2]|[_ Hk2]]; simplify_eq; [done|..].
    + apply Hold in Hk2. lia.
    + apply Hold in Hk1. lia.
    + by eapply (aw_counts c A Hc).
  - intros b v. by apply updated_types.
  - intros b v. rewrite (updated_rows c A) by (done || lia). symmetry. by apply account_rows; try lia.
Qed.

(** [update] of account data is insertion into the map from (room, user, type) to the
    latest count and data.  Data without a type or without a content is refused and nothing
    is written. *)
Theorem account_update_inserts c A r u ty j :
  account_wf c A → valid_key (r, u, ty) → counter (account_globals c) < u64_max →
  if json_get j "type" && json_get j "content" then
    ∃ c', update json_get json_text c r u ty j = Ok c'
      ∧ account_wf c' (<[(r, u, ty) := (counter (account_globals c) + 1, json_text j)]> A)
  else update json_get json_text c r u ty j = Err InvalidParam.
Proof.
  intros Hc Hk Hlt. destruct (json_get j "type" && json_get j "content") eqn:Hj.
  - apply andb_true_iff in Hj as [Ht Hcn]. pose proof (update_runs c A r u ty j Hc Hk Hlt Ht Hcn) as Hrun.
    cbn in Hrun. eexists. split; [exact Hrun|]. apply updated_wf; [done..|]. apply stored_count_insert.
    pose proof (aw_counter c A Hc). unfold is_u64, u64_max in *. lia.
  - unfold update. by destruct (json_get j "type"), (json_get j "content").
Qed.

(** [get_raw] looks the map up. *)
Theorem account_get_raw c A r u ty :
  account_wf c A → valid_key (r, u, ty) →
  get_raw c r u ty = match A !! (r, u, ty) with Some (_, d) => Ok d | None => Err AccountNotFound end.
Proof.
  intros Hc Hk. pose proof Hk as (Hr & Hu & Hty). pose proof (aw_type_row c A (r, u, ty) Hc Hk) as Hrow.
  unfold key_bytes in Hrow. cbn [fst snd] in *. unfold get_raw, qry, bqry. rewrite serialize_type by done.
  cbn [must mbind outcome_bind]. rewrite Hrow. destruct (A !! (r, u, ty)) as [[n d]|] eqn:Ha; [|done].
  cbn [fmap option_fmap option_map fst].
  assert (map_get (account_db c RoomuserdataidAccountdata) (row_bytes (r, u, ty) n) = Some d) as ->; [|done].
  apply (aw_rows c A Hc). by exists (r, u, ty), n.
Qed.

(** ** Changes *)

(** A row of the table: key, count and data. *)
Local Abbreviation Row := (Key * Z * bytes)%type.
Definition row_kv (x : Row) : KeyVal := (row_bytes x.1.1 x.1.2, x.2).
Definition row_read (x : Row) : (option string * string * Z) * bytes := ((x.1.1.1, x.1.2), x.2).
Definition in_A A (x : Row) : Prop := A !! x.1.1 = Some (x.1.2, x.2).

(** The stream of rows from some key on. *)
Lemma rows_from c A first :
  account_wf c A →
  ∃ L : list Row, raw_stream_from (account_db c RoomuserdataidAccountdata) first = row_kv <$> L
    ∧ omap read_row (row_kv <$> L) = row_read <$> L
    ∧ StronglySorted (λ x y, key_lt (row_kv x) (row_kv y)) L
    ∧ ∀ x, x ∈ L ↔ in_A A x ∧ bytes_le first (row_bytes x.1.1 x.1.2).
Proof.
  intros Hc. set (l := raw_stream_from _ _).
  assert (∀ b v, (b, v) ∈ l ↔ bytes_le first b ∧ ∃ k n, A !! k = Some (n, v) ∧ b = row_bytes k n) as Hl.
  { intros b v. unfold l, raw_stream_from. rewrite store_seek_spec, list_elem_of_filter, store_scan_spec.
    by rewrite <- (aw_rows c A Hc). }
  assert (∀ l', (∀ kv, kv ∈ l' → kv ∈ l) → ∃ L, l' = row_kv <$> L ∧ omap read_row (row_kv <$> L) = row_read <$> L
    ∧ Forall (in_A A) L) as Hex.
  { induction l' as [|[b v] l' IH]; intros Hin; [by exists []|].
    destruct IH as (L & -> & Hr & HL); [intros ??; apply Hin; by right|].
    destruct (proj1 (Hl b v)) as (_ & k & n & Hk & ->); [apply Hin; by left|].
    exists ((k, n, v) :: L). split; [done|]. split; [|by constructor].
    destruct (aw_entries c A Hc _ _ _ Hk) as ((? & ? & ?) & _). pose proof (aw_u64 c A _ _ _ Hc Hk).
    rewrite !fmap_cons. cbn [omap list_omap]. unfold row_kv at 1, row_bytes. cbn [fst snd].
    rewrite read_id by done. rewrite Hr. by destruct k as [[??]?]. }
  destruct (Hex l) as (L & E & Hr & HL); [done|]. exists L. split; [done|]. split; [done|]. split.
  - apply (sorted_of_fmap row_kv _ key_lt); [done|]. rewrite <- E. unfold l, raw_stream_from.
    rewrite store_seek_spec. apply StronglySorted_filter, store_scan_sorted.
  - intros [[k n] d]. rewrite Forall_forall in HL. split.
    + intros Hx. split; [by apply HL|]. apply (list_elem_of_fmap_2 row_kv) in Hx. rewrite <- E in Hx. unfold row_kv in Hx. apply Hl in Hx as [? _]. done.
    + intros [Hx Hf]. assert (row_kv (k, n, d) ∈ l) as Hin by (apply Hl; split; [done|by exists k, n]).
      rewrite E in Hin. apply list_elem_of_fmap in Hin as ([[k' n'] d'] & Ekv & Hx').
      injection Ekv as Eb <-. pose proof (HL _ Hx') as Ha'. unfold in_A in Hx, Ha'. cbn in Hx, Ha'.
      destruct (aw_entries c A Hc _ _ _ Hx) as (? & _), (aw_entries c A Hc _ _ _ Ha') as (? & _).
      apply row_bytes_inj in Eb as [<- <-]; eauto using aw_u64.
Qed.

(** Within the window of a room and a user the keys are in the order of the counts. *)
Definition in_win (r : option string) (u : string) (x : Row) : Prop := x.1.1.1 = (r, u).
Lemma row_bytes_win r u x : in_win r u x → row_bytes x.1.1 x.1.2 = window r u ++ (u64_be x.1.2 ++ SEP :: bytes_of_string x.1.1.2).
Proof. destruct x as [[[[r' u'] ty] n] d]. by intros [= -> ->]. Qed.
Lemma win_le_first r u x n : in_win r u x → is_u64 n → is_u64 x.1.2 →
  bytes_le (window r u ++ u64_be n) (row_bytes x.1.1 x.1.2) ↔ n ≤ x.1.2.
Proof.
  intros Hx Hn Hu. rewrite (row_bytes_win r u) by done. unfold bytes_le. rewrite bytes_cmp_app_same.
  destruct (decide (n = x.1.2)) as [->|Hne].
  - rewrite <- (app_nil_r (u64_be _)) at 1. rewrite bytes_cmp_app_same. cbn. split; [lia|done].
  - rewrite <- (app_nil_r (u64_be n)), cmp_counts by done. rewrite Z.compare_ngt_iff. lia.
Qed.
Lemma win_lt r u x y : in_win r u x → in_win r u y → is_u64 x.1.2 → is_u64 y.1.2 →
  key_lt (row_kv x) (row_kv y) → x.1.2 ≤ y.1.2.
Proof.
  intros Hx Hy Hux Huy. unfold key_lt, bytes_lt, row_kv. cbn [fst snd]. rewrite !(row_bytes_win r u) by done.
  rewrite bytes_cmp_app_same. destruct (decide (x.1.2 = y.1.2)) as [->|Hne]; [done|].
  rewrite cmp_counts by done. rewrite Z.compare_lt_iff. lia.
Qed.

(** Between the first key and a key of the window there is only the window. *)
Lemma between_win r u x y n :
  valid_room r → utf8 u → valid_key x.1.1 → in_win r u y →
  bytes_le (window r u ++ u64_be n) (row_bytes x.1.1 x.1.2) → key_lt (row_kv x) (row_kv y) → in_win r u x.
Proof.
  intros Hr Hu Hx Hy Hle Hlt. unfold key_lt, row_kv in Hlt. cbn [fst snd] in Hlt.
  rewrite (row_bytes_win r u y) in Hlt by done.
  assert (starts_with (row_bytes x.1.1 x.1.2) (window r u)) as Hs.
  { eapply between_prefix; [|exact Hlt]. apply bytes_le_lteq in Hle as [Hle|<-].
    - apply bytes_le_lteq. destruct (u64_be n) as [|b k] eqn:E; [rewrite app_nil_r in Hle; by left|].
      left. trans (window r u ++ b :: k); [|done]. unfold bytes_lt.
      rewrite <- (app_nil_r (window r u)) at 1. by rewrite bytes_cmp_app_same.
    - apply starts_with_above. unfold starts_with. apply take_app_length. }
  apply starts_with_split in Hs. destruct x as [[[[r' u'] ty] n'] d]. unfold row_bytes, id_key in Hs. cbn [fst snd] in *.
  destruct Hx as (? & ? & ?). apply window_inj in Hs as (-> & -> & _); done.
Qed.

Definition in_bounds (first : Z) (to : option Z) (n : Z) : Prop :=
  first ≤ n ∧ match to with Some to => n ≤ to | None => True end.
Definition after (since : option Z) : Z :=
  match since with Some since => if bool_decide (since = u64_max) then since else since + 1 | None => 0 end.

Lemma in_window_row r u to x :
  in_window r u to (row_read x).1 = true ↔ in_win r u x ∧ match to with Some to => x.1.2 ≤ to | None => True end.
Proof.
  destruct x as [[[[r' u'] ty] n] d]. unfold in_window, row_read, in_win. cbn [fst snd].
  rewrite !andb_true_iff, !bool_decide_eq_true. destruct to; rewrite ?bool_decide_eq_true; naive_solver.
Qed.

Lemma take_while_fmap {X Y} (f : X → Y) (P : Y → Prop) `{∀ y, Decision (P y)} l :
  take_while P (f <$> l) = f <$> take_while (λ x, P (f x)) l.
Proof. induction l as [|x l IH]; [done|]. rewrite fmap_cons. cbn. case_decide; [by rewrite fmap_cons, IH|done]. Qed.

(** [changes_since] lists the changes of the window in their order: the current data of
    each type that the user has in the room (or globally) with a count after [since] and
    not above [to], by ascending count, each once and nothing else. *)
Theorem account_changes_since c A r u since to :
  account_wf c A → valid_room r → utf8 u → from_option is_u64 True since →
  ∃ L : list (string * Z * bytes),
    changes_since is_json c r u since to = Ok (snd <$> L)
    ∧ StronglySorted (λ x y, x.1.2 < y.1.2) L
    ∧ ∀ ty n d, (ty, n, d) ∈ L ↔ A !! (r, u, ty) = Some (n, d) ∧ in_bounds (after since) to n.
Proof.
  intros Hc Hr Hu Hsince. set (first := after since).
  assert (is_u64 first) as Hf.
  { unfold first, after. destruct since as [z|]; [case_bool_decide; [done|]|]; unfold is_u64, u64_max in *; cbn in *; lia. }
  destruct (rows_from c A (window r u ++ u64_be first) Hc) as (L & HL & Hread & Hs & Hin).
  assert (∀ x, x ∈ L → valid_key x.1.1 ∧ is_u64 x.1.2 ∧ is_json x.2 = true) as Hv.
  { intros x [Hx _]%Hin. destruct (aw_entries c A Hc _ _ _ Hx) as (? & _ & ?). eauto using aw_u64. }
  set (W := filter (λ x, in_window r u to (row_read x).1 = true) L).
  assert (changes_since is_json c r u since to = Ok (snd <$> W)) as Hrun.
  { unfold changes_since. rewrite serialize_first by done. fold (after since). fold first.
    cbn [must mbind outcome_bind]. rewrite HL, Hread, take_while_fmap. f_equal.
    rewrite (take_while_filter (λ x y, key_lt (row_kv x) (row_kv y))); [|done|].
    - fold W. assert (∀ l : list Row, (∀ x, x ∈ l → x ∈ L) → omap (λ row : (option string * string * Z) * bytes,
        if is_json row.2 then Some row.2 else None) (row_read <$> l) = snd <$> l) as Ho.
      { induction l as [|x l IH]; intros Hl; [done|]. rewrite !fmap_cons. cbn [omap list_omap]. cbn [row_read snd].
        destruct (Hv x) as (_ & _ & Hj); [apply Hl; by left|]. rewrite Hj. f_equal. apply IH.
        intros ??. apply Hl. by right. }
      apply Ho. intros x [_ ?]%list_elem_of_filter. done.
    - intros x y [Hax Hle]%Hin [Hay _]%Hin Hlt. rewrite !in_window_row. intros [Hwy Hto].
      destruct (aw_entries c A Hc _ _ _ Hax) as (Hkx & _).
      assert (in_win r u x) as Hwx by by eapply between_win. split; [done|].
      pose proof (win_lt r u x y Hwx Hwy (aw_u64 c A _ _ _ Hc Hax) (aw_u64 c A _ _ _ Hc Hay) Hlt).
      destruct to; [lia|done]. }
  assert (∀ x, x ∈ W ↔ in_A A x ∧ in_win r u x ∧ in_bounds first to x.1.2) as HW.
  { intros x. unfold W, in_bounds. rewrite list_elem_of_filter, Hin, in_window_row. split.
    - intros ([Hw ?] & Hx & Hle). apply (win_le_first r u) in Hle; eauto using aw_u64.
    - intros (Hx & Hw & Hle & ?). split; [done|]. split; [done|]. apply (win_le_first r u); eauto using aw_u64. }
  exists ((λ x : Row, (x.1.1.2, x.1.2, x.2)) <$> W). split; [|split].
  - rewrite Hrun, <- list_fmap_compose. done.
  - apply (sorted_fmap _ (λ x y, key_lt (row_kv x) (row_kv y))); [|by apply StronglySorted_filter].
    intros x y (Hx & Hwx & _)%HW (Hy & Hwy & _)%HW Hlt. cbn.
    pose proof (win_lt r u x y Hwx Hwy (aw_u64 c A _ _ _ Hc Hx) (aw_u64 c A _ _ _ Hc Hy) Hlt).
    assert (x.1.2 ≠ y.1.2); [|lia]. intros E. unfold in_A in Hx, Hy. rewrite E in Hx.
    pose proof (aw_counts c A Hc _ _ _ _ _ Hx Hy) as Ek. unfold key_lt, bytes_lt, row_kv in Hlt. cbn [fst snd] in Hlt.
    rewrite Ek, E, bytes_cmp_refl in Hlt. done.
  - intros ty n d. rewrite list_elem_of_fmap. split.
    + intros ([[[[r' u'] ty'] n'] d'] & [= -> -> ->] & (Hx & [= -> ->] & Hb)%HW). done.
    + intros [Ha Hb]. exists ((r, u, ty), n, d). split; [done|]. by apply HW.
Qed.
End refine.

(** ** A user with two tags *)

Module AccountDemo.
Definition any_get (j k : string) : bool := negb (bool_decide (j = "")).
Definition any_json (b : bytes) : bool := true.
Lemma any_json_ok j : any_json (bytes_of_string j) = true.
Proof. done. Qed.

Definition data0 : AccountData (DB := gmap bytes bytes) := mkAccountData (globals fresh_short) (λ _, ∅).
Lemma data0_wf : account_wf any_json data0 ∅.
Proof.
  split.
  - by vm_compute.
  - by vm_compute.
  - intros k n d Hk. by rewrite lookup_empty in Hk.
  - intros k k' n d d' Hk. by rewrite lookup_empty in Hk.
  - intros b v. split; [intros Hb; cbn in Hb; by apply lookup_empty_Some in Hb|].
    intros (k & n & d & Hk & _). by rewrite lookup_empty in Hk.
  - intros b v. split; [intros Hb; cbn in Hb; by apply lookup_empty_Some in Hb|].
    intros (k & n & Hk & _). by rewrite lookup_empty in Hk.
Qed.

Definition tag_key : option string * string * string := (Some "!r:a", "@u:a", "m.tag").
Lemma account_update_inserts_witness :
  ∃ c, update any_get bytes_of_string data0 (Some "!r:a") "@u:a" "m.tag" "{}" = Ok c
    ∧ account_wf any_json c {[tag_key := (1, bytes_of_string "{}")]}.
Proof.
  apply (account_update_inserts any_get bytes_of_string any_json any_json_ok data0 ∅ (Some "!r:a") "@u:a" "m.tag" "{}").
  - apply data0_wf.
  - by vm_compute.
  - by vm_compute.
Defined.

Definition data1 : AccountData :=
  let n := counter (account_globals data0) + 1 in
  mkAccountData (mkGlobals (map_insert (global (account_globals data0)) COUNTER (u64_be n)) n)
    (updated_db data0 tag_key n (bytes_of_string "{}") None).
Lemma data1_wf : account_wf any_json data1 {[tag_key := (1, bytes_of_string "{}")]}.
Proof.
  pose proof (updated_wf bytes_of_string any_json any_json_ok data0 ∅ tag_key "{}" (account_globals data1) data0_wf) as Hw.
  rewrite lookup_empty in Hw. apply Hw; by vm_compute.
Qed.

Lemma account_get_raw_witness : get_raw data1 (Some "!r:a") "@u:a" "m.tag" = Ok (bytes_of_string "{}").
Proof.
  rewrite (account_get_raw any_json data1 {[tag_key := (1, bytes_of_string "{}")]} (Some "!r:a") "@u:a" "m.tag").
  - fold tag_key. by rewrite lookup_singleton_eq.
  - apply data1_wf.
  - by vm_compute.
Defined.

Lemma account_changes_since_witness :
  ∃ L, changes_since any_json data1 (Some "!r:a") "@u:a" (Some 0) None = Ok (snd <$> L)
    ∧ ("m.tag", 1, bytes_of_string "{}") ∈ L.
Proof.
  destruct (account_changes_since any_json data1 {[tag_key := (1, bytes_of_string "{}")]}
    (Some "!r:a") "@u:a" (Some 0) None) as (L & E & _ & HL).
  - apply data1_wf.
  - by vm_compute.
  - by vm_compute.
  - by vm_compute.
  - exists L. split; [exact E|]. apply (proj2 (HL "m.tag" 1 (bytes_of_string "{}"))).
    fold tag_key. rewrite lookup_singleton_eq. split; [done|]. split; [|done]. unfold after. case_bool_decide; [done|lia].
Defined.
End AccountDemo.
