(* ===== verification/Users.v ===== *)
(** * Accounts

    Models the account part of [src/service/users/mod.rs]: creation, passwords, suspension,
    locks and the texts of a profile.  The tables are those of its [struct Data]; devices,
    tokens and keys are in UserDevices. *)

From S2P Require Import Prelude Bytes DbMap DbSer DbScan Tables Short ShortProps AccountData.

Local Open Scope Z_scope.

Inductive UserTable :=
  | KeychangeidUserid | KeyidKey | OnetimekeyidOnetimekeys | OpenidtokenExpiresatuserid
  | LogintokenExpiresatuserid | TodeviceidEvents | TokenUserdeviceid | UserdeviceidMetadata
  | UserdeviceidToken | UserfilteridFilter | UseridAvatarurl | UseridBlurhash
  | UseridDehydrateddevice | UseridDevicelistversion | UseridDisplayname
  | UseridLastonetimekeyupdate | UseridMasterkeyid | UseridOrigin | UseridPassword
  | UseridSuspension | UseridLock | UseridLogindisabled | UseridSelfsigningkeyid
  | UseridUsersigningkeyid | UseridprofilekeyValue.
#[export] Instance UserTable_eq_dec : EqDecision UserTable.
Proof. solve_decision. Defined.

Record UserSuspension := mkUserSuspension {
  suspended : bool;
  suspended_at : Z;
  suspended_by : string;
}.

(** What a request is answered with; [UserDb] is an error of a read. *)
Inductive UserError :=
  | NonlocalPassword
  | LdapPassword
  | BadPassword
  | UserNotFound
  | NoDevice
  | NoSuchUser
  | AppserviceToken
  | NoOneTimeKey
  | HydratedDevice
  | NotDehydrated
  | Unauthorized
  | TokenForbidden
  | InvalidKey
  | BadUserId
  | UserDb (e : ShortError).

Definition user_db {A} (o : outcome ShortError A) : outcome UserError A :=
  match o with Ok a => Ok a | Err e => Err (UserDb e) | Panic => Panic end.

Section accounts.
Context {DB : Type} `{Store DB}.
Implicit Types (db : UserTable → DB) (user_id : string).

(** The configuration, the hash of passwords, and [serde_json] for suspensions. *)
Context (user_is_local : string → bool) (ldap : bool) (hash_password : string → option string).
Context (suspension_text : UserSuspension → bytes) (read_suspension : bytes → option UserSuspension).

Definition user_row db (t : UserTable) user_id : option bytes := map_get (db t) (bytes_of_string user_id).
Definition put_row db (t : UserTable) user_id (v : bytes) : UserTable → DB :=
  set_table db t (map_insert (db t) (bytes_of_string user_id) v).
Definition remove_row db (t : UserTable) user_id : UserTable → DB :=
  set_table db t (map_remove (db t) (bytes_of_string user_id)).
Definition get_text db (t : UserTable) user_id : outcome UserError bytes :=
  user_db (deserialized_str (user_row db t user_id)).

(** An account without a password is deactivated; its password is the empty text. *)
Definition set_password db user_id (password : option string) : outcome UserError (UserTable → DB) :=
  let ldap_user :=
    match get_text db UseridOrigin user_id with
    | Ok origin => bool_decide (origin = bytes_of_string "ldap")
    | _ => false
    end in
  if ldap && match password with Some pwd => bool_decide (pwd ≠ "*") | None => false end && ldap_user
  then Err LdapPassword
  else match password with
       | Some pwd =>
           match hash_password pwd with
           | Some hash => Ok (put_row db UseridPassword user_id (bytes_of_string hash))
           | None => Err BadPassword
           end
       | None => Ok (put_row db UseridPassword user_id [])
       end.

Definition create db user_id (password origin : option string) : outcome UserError (UserTable → DB) :=
  if negb (user_is_local user_id) && (bool_decide (is_Some password) || bool_decide (is_Some origin))
  then Err NonlocalPassword
  else
    let db := put_row db UseridOrigin user_id (bytes_of_string (default "password" origin)) in
    set_password db user_id password.

Definition exists_user db user_id : bool := bool_decide (is_Some (user_row db UseridPassword user_id)).
Definition is_deactivated db user_id : outcome UserError bool :=
  match user_row db UseridPassword user_id with
  | Some val => Ok (bool_decide (val = []))
  | None => Err UserNotFound
  end.
Definition is_active db user_id : bool :=
  match is_deactivated db user_id with Ok b => negb b | _ => false end.
Definition is_active_local db user_id : bool := user_is_local user_id && is_active db user_id.

Definition suspend_account db user_id (suspending_user : string) (now : Z) : UserTable → DB :=
  put_row db UseridSuspension user_id (suspension_text (mkUserSuspension true now suspending_user)).
Definition unsuspend_account db user_id : UserTable → DB := remove_row db UseridSuspension user_id.
Definition lock_account db user_id (locking_user : string) (now : Z) : UserTable → DB :=
  let suspension :=
    default (mkUserSuspension true now locking_user) (user_row db UseridLock user_id ≫= read_suspension) in
  put_row db UseridLock user_id (suspension_text suspension).
Definition unlock_account db user_id : UserTable → DB := remove_row db UseridLock user_id.

(** A missing row is no suspension, one that cannot be read is an error. *)
Definition read_suspended db (t : UserTable) user_id : outcome UserError bool :=
  match user_row db t user_id with
  | None => Ok false
  | Some v => match read_suspension v with
              | Some s => Ok (suspended s)
              | None => Err (UserDb (BadValue SerdeDe))
              end
  end.
Definition is_suspended db user_id : outcome UserError bool := read_suspended db UseridSuspension user_id.
Definition is_locked db user_id : outcome UserError bool := read_suspended db UseridLock user_id.

Definition disable_login db user_id : UserTable → DB := put_row db UseridLogindisabled user_id [].
Definition enable_login db user_id : UserTable → DB := remove_row db UseridLogindisabled user_id.
Definition is_login_disabled db user_id : bool := bool_decide (is_Some (user_row db UseridLogindisabled user_id)).

(** [count] and the streams over all users: keys that are texts. *)
Definition count_users db : nat := length (raw_stream_from (db UseridPassword) []).
Definition read_name (k : bytes) : option string :=
  match from_slice SStr k with Ok (VStr s) => Some (string_of_bytes s) | _ => None end.
Definition stream_users db : list string := omap (λ kv : KeyVal, read_name kv.1) (raw_stream_from (db UseridPassword) []).
Definition list_local_users db : list string :=
  omap (λ kv : KeyVal, if bool_decide (kv.2 = []) then None else read_name kv.1) (raw_stream_from (db UseridPassword) []).

Definition origin db user_id : outcome UserError bytes := get_text db UseridOrigin user_id.
Definition password_hash db user_id : outcome UserError bytes := get_text db UseridPassword user_id.

(** *** Profiles *)

Definition set_text db (t : UserTable) user_id (text : option string) : UserTable → DB :=
  match text with
  | Some text => put_row db t user_id (bytes_of_string text)
  | None => remove_row db t user_id
  end.
Definition displayname db user_id := get_text db UseridDisplayname user_id.
Definition set_displayname db user_id (displayname : option string) := set_text db UseridDisplayname user_id displayname.
Definition avatar_url db user_id := get_text db UseridAvatarurl user_id.
Definition set_avatar_url db user_id (avatar_url : option string) := set_text db UseridAvatarurl user_id avatar_url.
Definition blurhash db user_id := get_text db UseridBlurhash user_id.
Definition set_blurhash db user_id (blurhash : option string) := set_text db UseridBlurhash user_id blurhash.

(** *** Invitations *)

Inductive FilterLevel := Allow | Ignore | Block.

(** The account data types and their decoders are ruma's. *)
Context (ignored_user_list invite_permission_config : string).
Context (ignored_users : bytes → option (list string)).
Context (user_filter_level : bytes → string → option FilterLevel).

Definition user_is_ignored (c : AccountData (DB := DB)) (sender_user recipient_user : string) : bool :=
  match get_global ignored_users c recipient_user ignored_user_list with
  | Ok ignored => bool_decide (sender_user ∈ ignored)
  | _ => false
  end.
Definition invite_filter_level (c : AccountData (DB := DB)) (sender_user recipient_user : string) : FilterLevel :=
  if user_is_ignored c sender_user recipient_user then Ignore
  else match get_global (λ b, user_filter_level b sender_user) c recipient_user
               invite_permission_config with
       | Ok level => level
       | _ => Allow
       end.
End accounts.
