(* ===== verification/Timeline.v ===== *)
(** * The timeline store: [src/service/rooms/timeline/data.rs]

    Events are stored under the [RawId] of their position ([pduid_pdu]), indexed by
    event id ([eventid_pduid]), with the events that are known but not part of the
    timeline in [eventid_outlierpdu].  The theorems show that the two pagination
    scans return exactly the events of the room after (before) the given position,
    in timeline order, and that the stores stay well formed. *)

From S2P Require Import Prelude Bytes PduId DbMap.
Import Count.

Local Open Scope Z_scope.

(** The errors the operations return. *)
Inductive TimelineError :=
  | PduNotFound
  | RoomNotFound
  | InvalidJson
  | PduDoesNotExist
  | NoPdusInRoom.


Section timeline.
Context {DB : Type} `{Store DB}.
(** The stored form of events: the JSON text written for a canonical JSON object
    and the [PduEvent] that [serde_json] reads back from it. *)
Context {Json Pdu : Type} (json_to_vec : Json → bytes)
        (pdu_from_slice : bytes → option Pdu) (json_from_slice : bytes → option Json)
        (pdu_event_id : Pdu → string).
(** [services.short.get_shortroomid]. *)
Context (get_shortroomid : string → option Z).

Record Data := mkData {
  eventid_outlierpdu : DB;
  eventid_pduid : DB;
  pduid_pdu : DB;
  userroomid_highlightcount : DB;
  userroomid_notificationcount : DB;
}.

Implicit Types (d : Data) (event_id room_id : string) (c : Count).

(** ** Point reads *)

Definition get_pdu_id d event_id : outcome TimelineError RawId :=
  match map_get (eventid_pduid d) (bytes_of_string event_id) with
  | None => Err PduNotFound
  | Some handle =>
      match raw_of_slice handle with Ok r => Ok r | Err _ => Err PduNotFound | Panic => Panic end
  end.

Definition get_pdu_count d event_id : outcome TimelineError Count :=
  pdu_count <$> get_pdu_id d event_id.

Definition get_as {A} (decode : bytes → option A) (m : DB) (k : bytes) : outcome TimelineError A :=
  v ← ok_or PduNotFound (map_get m k); ok_or InvalidJson (decode v).

Definition get_pdu_from_id d (pdu_id : RawId) : outcome TimelineError Pdu :=
  get_as pdu_from_slice (pduid_pdu d) (as_bytes pdu_id).
Definition get_pdu_json_from_id d (pdu_id : RawId) : outcome TimelineError Json :=
  get_as json_from_slice (pduid_pdu d) (as_bytes pdu_id).

Definition get_non_outlier_pdu d event_id : outcome TimelineError Pdu :=
  pduid ← get_pdu_id d event_id; get_pdu_from_id d pduid.
Definition get_non_outlier_pdu_json d event_id : outcome TimelineError Json :=
  pduid ← get_pdu_id d event_id; get_pdu_json_from_id d pduid.

(** [futures::future::select_ok] on two futures: the first success in order of
    completion ([accepted_first]), else the error of the one that failed last. *)
Definition select_ok {A} (accepted_first : bool) (a b : outcome TimelineError A)
    : outcome TimelineError A :=
  let '(x, y) := if accepted_first then (a, b) else (b, a) in
  match x with Err _ => y | _ => x end.

Definition get_outlier_pdu d event_id : outcome TimelineError Pdu :=
  get_as pdu_from_slice (eventid_outlierpdu d) (bytes_of_string event_id).
Definition get_pdu (accepted_first : bool) d event_id : outcome TimelineError Pdu :=
  select_ok accepted_first (get_non_outlier_pdu d event_id) (get_outlier_pdu d event_id).
Definition get_pdu_json (accepted_first : bool) d event_id : outcome TimelineError Json :=
  select_ok accepted_first (get_non_outlier_pdu_json d event_id)
    (get_as json_from_slice (eventid_outlierpdu d) (bytes_of_string event_id)).

Definition exists_key (m : DB) (k : bytes) : outcome TimelineError unit :=
  if map_contains m k then Ok tt else Err PduNotFound.
Definition non_outlier_pdu_exists d event_id : outcome TimelineError unit :=
  pduid ← get_pdu_id d event_id; exists_key (pduid_pdu d) (as_bytes pduid).
Definition outlier_pdu_exists d event_id : outcome TimelineError unit :=
  exists_key (eventid_outlierpdu d) (bytes_of_string event_id).
Definition pdu_exists (accepted_first : bool) d event_id : outcome TimelineError unit :=
  select_ok accepted_first (non_outlier_pdu_exists d event_id) (outlier_pdu_exists d event_id).

(** ** Writes *)

Definition append_pdu d (pdu_id : RawId) (pdu : Pdu) (json : Json) : Data :=
  let eid := bytes_of_string (pdu_event_id pdu) in
  {| pduid_pdu := map_insert (pduid_pdu d) (as_bytes pdu_id) (json_to_vec json);
     eventid_pduid := map_insert (eventid_pduid d) eid (as_bytes pdu_id);
     eventid_outlierpdu := map_remove (eventid_outlierpdu d) eid;
     userroomid_highlightcount := userroomid_highlightcount d;
     userroomid_notificationcount := userroomid_notificationcount d |}.

Definition prepend_backfill_pdu d (pdu_id : RawId) event_id (json : Json) : Data :=
  let eid := bytes_of_string event_id in
  {| pduid_pdu := map_insert (pduid_pdu d) (as_bytes pdu_id) (json_to_vec json);
     eventid_pduid := map_insert (eventid_pduid d) eid (as_bytes pdu_id);
     eventid_outlierpdu := map_remove (eventid_outlierpdu d) eid;
     userroomid_highlightcount := userroomid_highlightcount d;
     userroomid_notificationcount := userroomid_notificationcount d |}.

Definition replace_pdu d (pdu_id : RawId) (pdu_json : Json) : outcome TimelineError Data :=
  if map_contains (pduid_pdu d) (as_bytes pdu_id) then
    Ok {| pduid_pdu := map_insert (pduid_pdu d) (as_bytes pdu_id) (json_to_vec pdu_json);
          eventid_pduid := eventid_pduid d;
          eventid_outlierpdu := eventid_outlierpdu d;
          userroomid_highlightcount := userroomid_highlightcount d;
          userroomid_notificationcount := userroomid_notificationcount d |}
  else Err PduDoesNotExist.

(** [fn increment(db, key)]: read, add one, write back. *)
Definition increment_key (m : DB) (key : bytes) : DB :=
  map_insert m key (increment (map_get m key)).

Definition userroom_key (user room_id : string) : bytes :=
  bytes_of_string user ++ [xff] ++ bytes_of_string room_id.

Definition increment_notification_counts d room_id (notifies highlights : list string) : Data :=
  {| pduid_pdu := pduid_pdu d;
     eventid_pduid := eventid_pduid d;
     eventid_outlierpdu := eventid_outlierpdu d;
     userroomid_notificationcount :=
       foldl (λ m user, increment_key m (userroom_key user room_id))
         (userroomid_notificationcount d) notifies;
     userroomid_highlightcount :=
       foldl (λ m user, increment_key m (userroom_key user room_id))
         (userroomid_highlightcount d) highlights |}.

(** ** Scans *)

(** One position past the base event, so that it is not sent again. *)
Definition count_to_id room_id (count : Count) (dir : Direction) : outcome TimelineError RawId :=
  short ← ok_or RoomNotFound (get_shortroomid room_id);
  Ok (raw_of_id {| shortroomid := short; shorteventid := saturating_inc count dir |}).

Definition from_json_slice (kv : KeyVal) : outcome TimelineError (Count * Pdu) :=
  match raw_of_slice kv.1 with
  | Ok pdu_id => pdu ← ok_or InvalidJson (pdu_from_slice kv.2); Ok (pdu_count pdu_id, pdu)
  | _ => Panic
  end.

Definition scan_room (cursor : bytes → list KeyVal) room_id (count : Count) (dir : Direction)
    : list (outcome TimelineError (Count * Pdu)) :=
  match count_to_id room_id count dir with
  | Ok current =>
      from_json_slice <$>
        take_while (λ kv : KeyVal, starts_with kv.1 (raw_shortroomid current))
          (cursor (as_bytes current))
  | Err e => [Err e]
  | Panic => [Panic]
  end.

Definition pdus d room_id (from : Count) : list (outcome TimelineError (Count * Pdu)) :=
  scan_room (raw_stream_from (pduid_pdu d)) room_id from Forward.
Definition pdus_rev d room_id (until : Count) : list (outcome TimelineError (Count * Pdu)) :=
  scan_room (rev_raw_stream_from (pduid_pdu d)) room_id until Backward.

(** [try_next]. *)
Definition try_next {A} (l : list (outcome TimelineError A)) : outcome TimelineError (option A) :=
  match l with [] => Ok None | x :: _ => Some <$> x end.

Definition last_timeline_count d room_id : outcome TimelineError Count :=
  next ← try_next (pdus_rev d room_id max);
  Ok (match next with Some (Normal n, _) => Normal n | _ => max end).

Definition latest_pdu_in_room d room_id : outcome TimelineError Pdu :=
  next ← try_next (pdus_rev d room_id max);
  ok_or NoPdusInRoom (snd <$> next).
End timeline.
Arguments Data : clear implicits.

(** ** The store invariant and what the scans return *)

Section timeline_props.
Context {DB : Type} `{Store DB}.
Context {Pdu : Type} (pdu_from_slice : bytes → option Pdu).
Context (get_shortroomid : string → option Z).

Implicit Types (d : Data DB) (m : DB) (room_id : string) (c : Count) (sid : Z).

(** Every key of [pduid_pdu] is the key of a position and every value is an
    event. *)
Definition entry_wf (kv : KeyVal) : Prop :=
  ∃ r c p, is_u64 r ∧ keyable c ∧ kv.1 = raw_key r c ∧ pdu_from_slice kv.2 = Some p.
Definition pdus_wf m : Prop := ∀ k v, map_get m k = Some v → entry_wf (k, v).

(** The abstract timeline of a room: the stored positions with their events. *)
Definition room_entry sid (kv : KeyVal) : option (Count * Pdu) :=
  match raw_of_slice kv.1, pdu_from_slice kv.2 with
  | Ok r, Some p =>
      if bool_decide (shortroomid (id_of_raw r) = sid) then Some (pdu_count r, p) else None
  | _, _ => None
  end.
Definition room_timeline m sid : list (Count * Pdu) := omap (room_entry sid) (store_scan m).

Definition count_lt (x y : Count * Pdu) : Prop := cmp x.1 y.1 = Lt.

(** *** Decoding one entry *)

Lemma room_entry_key sid r c v p :
  is_u64 r → keyable c → pdu_from_slice v = Some p →
  room_entry sid (raw_key r c, v) = if bool_decide (r = sid) then Some (c, p) else None.
Proof.
  intros Hr [Hc _] Hp. unfold room_entry; cbn [fst snd].
  rewrite raw_of_slice_key, Hp. cbv beta iota.
  rewrite id_of_raw_of_id, pdu_count_key by done. done.
Qed.

Lemma from_json_slice_key r c v p :
  is_u64 r → keyable c → pdu_from_slice v = Some p →
  from_json_slice pdu_from_slice (raw_key r c, v) = Ok (c, p).
Proof.
  intros Hr [Hc _] Hp. unfold from_json_slice; cbn [fst snd].
  rewrite raw_of_slice_key, Hp. cbn [ok_or]. cbv beta iota delta [mbind outcome_bind].
  by rewrite pdu_count_key.
Qed.

Lemma starts_with_key r c sid :
  is_u64 r → is_u64 sid → starts_with (raw_key r c) (u64_be sid) ↔ r = sid.
Proof.
  intros Hr Hs. unfold starts_with. rewrite length_u64_be, raw_key_cons.
  change 8%nat with INT_LEN. rewrite take_u64_be. split; [|congruence].
  by apply u64_be_inj.
Qed.

(** *** The scanned range is the room's part of the timeline *)

Lemma room_of_between sid c r1 c1 r2 c2 :
  is_u64 sid → is_u64 r1 → is_u64 r2 →
  bytes_le (raw_key sid c) (raw_key r1 c1) ∧ bytes_lt (raw_key r1 c1) (raw_key r2 c2) ∨
  bytes_le (raw_key r1 c1) (raw_key sid c) ∧ bytes_lt (raw_key r2 c2) (raw_key r1 c1) →
  r2 = sid → r1 = sid.
Proof.
  intros Hs Hr1 Hr2 Hor ->. destruct (decide (r1 = sid)) as [|Hne]; [done|].
  unfold bytes_le, bytes_lt in *. rewrite !raw_key_cmp_rooms in Hor by done.
  rewrite !Z.compare_gt_iff, !Z.compare_lt_iff in Hor. lia.
Qed.

(** [l] is a cursor over well-formed entries, ascending from or descending from
    the key of a position of room [sid]. *)
Lemma take_while_room (R : relation KeyVal) sid c l :
  is_u64 sid → StronglySorted R l → Forall entry_wf l →
  (∀ x y, x ∈ l → R x y →
     bytes_le (raw_key sid c) x.1 ∧ bytes_lt x.1 y.1 ∨
     bytes_le x.1 (raw_key sid c) ∧ bytes_lt y.1 x.1) →
  take_while (λ kv : KeyVal, starts_with kv.1 (u64_be sid)) l =
  filter (λ kv : KeyVal, starts_with kv.1 (u64_be sid)) l.
Proof.
  intros Hsid Hs Hwf Hord. apply (take_while_filter R); [done|].
  intros x y Hx Hy Hxy Hst. specialize (Hord x y Hx Hxy).
  rewrite Forall_forall in Hwf.
  destruct (Hwf x Hx) as (r1 & c1 & p1 & ? & ? & E1 & ?).
  destruct (Hwf y Hy) as (r2 & c2 & p2 & ? & ? & E2 & ?).
  rewrite E1, ?E2 in *.
  apply starts_with_key in Hst; [|done..]. apply starts_with_key; [done..|].
  eauto using room_of_between.
Qed.

(** Decoding the room's entries of a well-formed range that satisfies [P] on the
    keys is restricting the room's timeline to [Q] on the counts. *)
Lemma decode_room (P : bytes → Prop) (Q : Count → Prop)
    `{∀ k, Decision (P k)} `{∀ c, Decision (Q c)} sid l :
  is_u64 sid → Forall entry_wf l →
  (∀ c, keyable c → P (raw_key sid c) ↔ Q c) →
  from_json_slice pdu_from_slice <$>
    filter (λ kv : KeyVal, starts_with kv.1 (u64_be sid)) (filter (λ kv : KeyVal, P kv.1) l) =
  Ok <$> filter (λ e : Count * Pdu, Q e.1) (omap (room_entry sid) l).
Proof.
  intros Hsid Hwf HPQ. induction Hwf as [|[k v] l (r & c & p & Hr & Hc & E & Hp) _ IH]; [done|].
  simpl in E, Hp; subst k.
  rewrite (omap_cons (room_entry sid)), (room_entry_key sid r c v p) by done.
  pose proof (starts_with_key r c sid Hr Hsid) as Hst.
  rewrite (filter_cons (λ kv : KeyVal, P kv.1)). simpl.
  case_bool_decide as Hrs; subst.
  - rewrite (filter_cons (λ e : Count * Pdu, Q e.1)); simpl.
    specialize (HPQ c Hc). destruct (decide (P (raw_key sid c))), (decide (Q c)); try tauto.
    rewrite filter_cons_True by (simpl; tauto). rewrite !fmap_cons, IH.
    by rewrite (from_json_slice_key sid c v p).
  - case_decide; [|done]. rewrite filter_cons_False by (simpl; tauto). done.
Qed.

(** *** The bounds of the two scans *)

(** Every position a scan forwards can start from, [PduCount::min] and the default
    [Normal 0] included, but the last of the backfilled ones, [Backfilled (-1)] and
    [Backfilled 0], and positions that have no successor of 63 bits. *)
Definition after_ok c : Prop :=
  match c with Normal n => 0 ≤ n < i64_max | Backfilled n => i64_min ≤ n < -1 end.
Definition before_ok c : Prop :=
  match c with Normal n => 1 < n < 2 ^ 63 | Backfilled n => i64_min < n ≤ 0 end.

Lemma saturating_inc_after c :
  after_ok c → keyable (saturating_inc c Forward) ∧
    into_signed (saturating_inc c Forward) = into_signed c + 1.
Proof.
  intros Hc. split; [destruct c as [n|n]; cbn in *; (split; [cbn; int_solve|intros [=]; int_solve])|].
  destruct c as [n|n]; cbn in *; int_solve.
Qed.

Lemma saturating_inc_before c :
  before_ok c → keyable (saturating_inc c Backward) ∧
    into_signed (saturating_inc c Backward) = into_signed c - 1.
Proof.
  intros Hc. split; [|apply saturating_inc_backward].
  - destruct c as [n|n]; cbn in *; (split; [cbn; int_solve|intros [=]; int_solve]).
  - destruct c; cbn in *; int_solve.
  - intros ->. cbn in Hc. int_solve.
Qed.

Lemma key_after sid from c :
  is_u64 sid → after_ok from → keyable c →
  bytes_le (raw_key sid (saturating_inc from Forward)) (raw_key sid c) ↔ cmp from c = Lt.
Proof.
  intros Hs [Hk Hi]%saturating_inc_after Hc. unfold bytes_le.
  rewrite raw_key_cmp by done. unfold cmp. rewrite Hi, Z.compare_gt_iff, Z.compare_lt_iff. lia.
Qed.

Lemma key_before sid until c :
  is_u64 sid → before_ok until → keyable c →
  bytes_le (raw_key sid c) (raw_key sid (saturating_inc until Backward)) ↔ cmp c until = Lt.
Proof.
  intros Hs [Hk Hi]%saturating_inc_before Hc. unfold bytes_le.
  rewrite raw_key_cmp by done. unfold cmp. rewrite Hi, Z.compare_gt_iff, Z.compare_lt_iff. lia.
Qed.

Lemma scan_wf m : pdus_wf m → Forall entry_wf (store_scan m).
Proof.
  intros Hwf. apply Forall_forall. intros [k v] Hin. apply Hwf. by apply store_scan_spec.
Qed.

Lemma room_timeline_sorted m sid :
  is_u64 sid → pdus_wf m → StronglySorted count_lt (room_timeline m sid).
Proof.
  intros Hsid Hwf. apply scan_wf in Hwf. unfold room_timeline.
  pose proof (store_scan_sorted m) as Hs.
  induction Hs as [|[k v] l Hs IH Hlt]; [constructor|].
  apply Forall_cons in Hwf as [(r & c & p & Hr & Hc & E & Hp) Hwf]; simpl in E, Hp; subst k.
  rewrite omap_cons, (room_entry_key sid r c v p) by done.
  case_bool_decide; subst; [|by apply IH]. constructor; [by apply IH|].
  apply Forall_forall. intros [c' p'] Hin%list_elem_of_omap.
  destruct Hin as ([k' v'] & Hin & E).
  rewrite Forall_forall in Hwf, Hlt.
  destruct (Hwf _ Hin) as (r' & c'' & p'' & Hr' & Hc' & Ek & Hp'); simpl in Ek, Hp'; subst k'.
  rewrite (room_entry_key sid r' c'' v' p'') in E by done. case_bool_decide; simplify_eq.
  specialize (Hlt _ Hin). unfold key_lt, bytes_lt in Hlt; cbn [fst] in Hlt.
  by rewrite raw_key_cmp in Hlt.
Qed.

Lemma elem_of_room_timeline m sid c p :
  is_u64 sid → pdus_wf m →
  (c, p) ∈ room_timeline m sid ↔
    keyable c ∧ ∃ v, map_get m (raw_key sid c) = Some v ∧ pdu_from_slice v = Some p.
Proof.
  intros Hsid Hwf. unfold room_timeline. rewrite list_elem_of_omap. split.
  - intros ([k v] & Hin & E). apply store_scan_spec in Hin as Hget.
    destruct (Hwf _ _ Hget) as (r & c' & p' & Hr & Hc & Ek & Hp); simpl in Ek, Hp; subst k.
    rewrite (room_entry_key sid r c' v p') in E by done. case_bool_decide; simplify_eq. eauto.
  - intros (Hc & v & Hget & Hp). exists (raw_key sid c, v). split; [by apply store_scan_spec|].
    rewrite (room_entry_key sid sid c v p) by done. by rewrite bool_decide_eq_true_2.
Qed.

(** ** Claims *)

Lemma scan_current room_id sid c dir :
  get_shortroomid room_id = Some sid →
  count_to_id get_shortroomid room_id c dir = Ok (raw_of_id (mkId sid (saturating_inc c dir))).
Proof. unfold count_to_id. by intros ->. Qed.

(** C38: paginating forwards from a position returns every stored event of the
    room after it and nothing else, in ascending timeline order.  The position is
    a normal one below [i64::MAX] or a backfilled one below [-1], the beginning
    [PduCount::min] included ([after_ok]): from the last backfilled position the
    scan starts over ([pdus_after_minus_one_rescans] below). *)
Theorem pdus_forward d room_id sid from :
  pdus_wf (pduid_pdu d) → get_shortroomid room_id = Some sid → is_u64 sid → after_ok from →
  pdus pdu_from_slice get_shortroomid d room_id from =
    Ok <$> filter (λ e : Count * Pdu, cmp from e.1 = Lt) (room_timeline (pduid_pdu d) sid) ∧
  StronglySorted count_lt (room_timeline (pduid_pdu d) sid) ∧
  (∀ c p, (c, p) ∈ room_timeline (pduid_pdu d) sid ↔
     keyable c ∧ ∃ v, map_get (pduid_pdu d) (raw_key sid c) = Some v ∧
                      pdu_from_slice v = Some p).
Proof.
  intros Hwf Hroom Hsid Hfrom. split_and!;
    [|by apply room_timeline_sorted|intros; by apply elem_of_room_timeline].
  unfold pdus, scan_room. rewrite (scan_current _ sid) by done.
  rewrite raw_shortroomid_of_id, as_bytes_of_id; cbn [shortroomid shorteventid].
  unfold raw_stream_from, room_timeline. rewrite store_seek_spec.
  rewrite (take_while_room key_lt sid (saturating_inc from Forward)); [|done|..].
  - pose proof (decode_room (bytes_le (raw_key sid (saturating_inc from Forward)))
      (λ c, cmp from c = Lt) sid (store_scan (pduid_pdu d)) Hsid (scan_wf _ Hwf)) as Hdec.
    apply Hdec. intros. by apply key_after.
  - apply StronglySorted_filter, store_scan_sorted.
  - by apply Forall_filter, scan_wf.
  - intros x y [Hx _]%list_elem_of_filter Hxy. by left.
Qed.

(** Paginating backwards from a position returns every stored event of the
    room before it and nothing else, in descending timeline order. *)
Theorem pdus_backward d room_id sid until :
  pdus_wf (pduid_pdu d) → get_shortroomid room_id = Some sid → is_u64 sid → before_ok until →
  pdus_rev pdu_from_slice get_shortroomid d room_id until =
    Ok <$> reverse (filter (λ e : Count * Pdu, cmp e.1 until = Lt)
                      (room_timeline (pduid_pdu d) sid)).
Proof.
  intros Hwf Hroom Hsid Huntil.
  unfold pdus_rev, scan_room. rewrite (scan_current _ sid) by done.
  rewrite raw_shortroomid_of_id, as_bytes_of_id; cbn [shortroomid shorteventid].
  unfold rev_raw_stream_from, room_timeline. rewrite store_seek_for_prev_spec.
  rewrite (take_while_room (flip key_lt) sid (saturating_inc until Backward)); [|done|..].
  - rewrite filter_reverse, !fmap_reverse. f_equal.
    pose proof (decode_room (λ k, bytes_le k (raw_key sid (saturating_inc until Backward)))
      (λ c, cmp c until = Lt) sid (store_scan (pduid_pdu d)) Hsid (scan_wf _ Hwf)) as Hdec.
    apply Hdec. intros. by apply key_before.
  - apply StronglySorted_reverse, StronglySorted_filter, store_scan_sorted.
  - by apply Forall_reverse, Forall_filter, scan_wf.
  - intros x y Hx Hxy. right. rewrite elem_of_reverse, list_elem_of_filter in Hx. by destruct Hx.
Qed.

Lemma key_zero_below sid c :
  keyable c → bytes_le (raw_key sid (Backfilled 0)) (raw_key sid c) ↔ True.
Proof.
  intros [Hc H0]. split; [done|intros _]. apply bytes_le_lteq; left.
  destruct c as [n|n]; [|apply raw_key_zero_least; cbn in Hc; split; [lia|];
    apply Z.le_neq; (split; [lia|congruence])].
  unfold bytes_lt. rewrite !raw_key_cons, bytes_cmp_app_same, bytes_cmp_antisym.
  by rewrite bytes_cmp_live_backfilled.
Qed.

(** The boundary of the backfilled range: asked for the events after
    [Backfilled (-1)], the forward scan seeks to the key of [Backfilled 0], which is
    the least key of the room, and returns the whole timeline again, the events
    before the position included. *)
Theorem pdus_after_minus_one_rescans d room_id sid :
  pdus_wf (pduid_pdu d) → get_shortroomid room_id = Some sid → is_u64 sid →
  pdus pdu_from_slice get_shortroomid d room_id (Backfilled (-1)) =
    Ok <$> room_timeline (pduid_pdu d) sid.
Proof.
  intros Hwf Hroom Hsid. unfold pdus, scan_room. rewrite (scan_current _ sid) by done.
  rewrite raw_shortroomid_of_id, as_bytes_of_id; cbn [shortroomid shorteventid].
  change (saturating_inc (Backfilled (-1)) Forward) with (Backfilled 0).
  unfold raw_stream_from, room_timeline. rewrite store_seek_spec.
  rewrite (take_while_room key_lt sid (Backfilled 0)); [|done|..].
  - pose proof (decode_room (bytes_le (raw_key sid (Backfilled 0)))
      (λ c, True) sid (store_scan (pduid_pdu d)) Hsid (scan_wf _ Hwf)) as Hdec.
    rewrite Hdec by (intros; by apply key_zero_below). f_equal. clear Hdec.
    induction (omap _ _) as [|e l IH]; [done|]. rewrite filter_cons_True by done. by rewrite IH.
  - apply StronglySorted_filter, store_scan_sorted.
  - by apply Forall_filter, scan_wf.
  - intros x y [Hx _]%list_elem_of_filter Hxy. by left.
Qed.

End timeline_props.

(** ** Writes *)

Section timeline_writes.
Context {DB : Type} `{Store DB}.
Context {Json Pdu : Type} (json_to_vec : Json → bytes)
        (pdu_from_slice : bytes → option Pdu) (pdu_event_id : Pdu → string).
Implicit Types (d : Data DB) (m : DB).

Lemma pdus_wf_empty : pdus_wf pdu_from_slice store_empty.
Proof. intros k v. unfold map_get. by rewrite store_get_empty. Qed.

Lemma pdus_wf_insert m id v p :
  pdus_wf pdu_from_slice m → is_u64 (shortroomid id) → keyable (shorteventid id) →
  pdu_from_slice v = Some p → pdus_wf pdu_from_slice (map_insert m (as_bytes (raw_of_id id)) v).
Proof.
  intros Hwf Hr Hc Hp k w. unfold map_get, map_insert. rewrite store_get_put.
  case_bool_decide; subst; [|apply Hwf]. intros [= <-].
  exists (shortroomid id), (shorteventid id), p. by rewrite <-as_bytes_of_id.
Qed.

(** Storing an event of the timeline keeps the store well formed; the event
    is then found by its id, at its position, whichever of the two lookups of
    [get_pdu] completes first, and it is no longer an outlier. *)
Theorem append_pdu_found d id pdu json :
  pdus_wf pdu_from_slice (pduid_pdu d) → is_u64 (shortroomid id) → keyable (shorteventid id) →
  pdu_from_slice (json_to_vec json) = Some pdu →
  let d' := append_pdu json_to_vec pdu_event_id d (raw_of_id id) pdu json in
  pdus_wf pdu_from_slice (pduid_pdu d') ∧
  (∀ accepted_first, get_pdu pdu_from_slice accepted_first d' (pdu_event_id pdu) = Ok pdu) ∧
  get_pdu_count d' (pdu_event_id pdu) = Ok (shorteventid id) ∧
  outlier_pdu_exists d' (pdu_event_id pdu) = Err PduNotFound.
Proof.
  intros Hwf Hr Hc Hp d'. split_and!.
  - by eapply pdus_wf_insert.
  - intros first. unfold get_pdu, get_non_outlier_pdu, get_pdu_id, get_outlier_pdu,
      get_pdu_from_id, get_as, d', append_pdu; cbn [eventid_pduid pduid_pdu eventid_outlierpdu].
    autorewrite with srv_map. rewrite raw_of_slice_id.
    cbv beta iota delta [mbind outcome_bind ok_or]. autorewrite with srv_map.
    rewrite Hp. by destruct first.
  - unfold get_pdu_count, get_pdu_id, d', append_pdu; cbn [eventid_pduid].
    autorewrite with srv_map. rewrite raw_of_slice_id.
    cbv beta iota delta [fmap outcome_fmap]. destruct id, Hc. by rewrite pdu_count_key.
  - unfold outlier_pdu_exists, exists_key, d', append_pdu; cbn [eventid_outlierpdu].
    by autorewrite with srv_map.
Qed.
End timeline_writes.


(** ** A concrete store

    Events are their own JSON text; room [!r] has short id 7. *)
Module TimelineDemo.
Definition decode (b : bytes) : option string := Some (String.string_of_list_byte b).
Definition short (room : string) : option Z :=
  if bool_decide (room = "!r") then Some 7 else None.
Definition empty : Data (gmap bytes bytes) := mkData ∅ ∅ ∅ ∅ ∅.
Definition add (d : Data (gmap bytes bytes)) (c : Count) (e : string) :=
  append_pdu bytes_of_string id d (raw_of_id (mkId 7 c)) e e.
Definition db : Data (gmap bytes bytes) :=
  add (add (add (add empty (Normal 12) "$live") (Backfilled (-3)) "$old") (Normal 9) "$first")
    (Backfilled (-1)) "$oldish".

Lemma db_wf : pdus_wf decode (pduid_pdu db).
Proof.
  unfold db, add, append_pdu; cbn [pduid_pdu].
  repeat (eapply pdus_wf_insert; [|vm_compute; done|vm_compute; done|done]).
  exact (pdus_wf_empty (DB := gmap bytes bytes) decode).
Qed.
End TimelineDemo.

Lemma pdus_forward_witness :
  pdus TimelineDemo.decode TimelineDemo.short TimelineDemo.db "!r" (Normal 9) =
    [Ok (Normal 12, "$live")].
Proof.
  destruct (pdus_forward TimelineDemo.decode TimelineDemo.short TimelineDemo.db "!r" 7 (Normal 9)
    TimelineDemo.db_wf eq_refl ltac:(int_solve) ltac:(vm_compute; done)) as [-> _].
  vm_compute. reflexivity.
Defined.

Lemma pdus_backward_witness :
  pdus_rev TimelineDemo.decode TimelineDemo.short TimelineDemo.db "!r" (Normal 9) =
    [Ok (Backfilled (-1), "$oldish"); Ok (Backfilled (-3), "$old")].
Proof.
  rewrite (pdus_backward TimelineDemo.decode TimelineDemo.short TimelineDemo.db "!r" 7 (Normal 9)
    TimelineDemo.db_wf eq_refl ltac:(int_solve) ltac:(vm_compute; done)).
  vm_compute. reflexivity.
Defined.

Lemma pdus_after_minus_one_rescans_witness :
  pdus TimelineDemo.decode TimelineDemo.short TimelineDemo.db "!r" (Backfilled (-1)) =
    [Ok (Backfilled (-3), "$old"); Ok (Backfilled (-1), "$oldish");
     Ok (Normal 9, "$first"); Ok (Normal 12, "$live")].
Proof.
  rewrite (pdus_after_minus_one_rescans TimelineDemo.decode TimelineDemo.short TimelineDemo.db
    "!r" 7 TimelineDemo.db_wf eq_refl ltac:(int_solve)).
  vm_compute. reflexivity.
Defined.

Lemma append_pdu_found_witness :
  get_pdu TimelineDemo.decode false
    (append_pdu bytes_of_string id TimelineDemo.db (raw_of_id (mkId 7 (Normal 20))) "$new" "$new")
    "$new" = Ok "$new".
Proof.
  destruct (append_pdu_found bytes_of_string TimelineDemo.decode id TimelineDemo.db
    (mkId 7 (Normal 20)) "$new" "$new" TimelineDemo.db_wf) as (_ & Hget & _);
    [vm_compute; done|vm_compute; done|reflexivity|]. apply (Hget false).
Defined.
