(* ===== verification/RoomVersion.v ===== *)
(** * Room versions: [src/core/matrix/state_res/room_version.rs]

    The switches by which the authorization rules and state resolution differ
    between room versions, the constants of the twelve supported versions and the
    errors of state resolution ([src/core/matrix/state_res/error.rs]). *)

From S2P Require Import Prelude.

(** [state_res::Error]; the payload of a JSON error is not inspected. *)
Inductive Error :=
  | SerdeJson
  | Unsupported (version : string)
  | NotFound (what : string)
  | InvalidPdu (why : string).

#[export] Instance Error_eq_dec : EqDecision Error.
Proof. solve_decision. Defined.

Inductive RoomDisposition := Stable | Unstable.

Inductive EventFormatVersion := FormatV1 | FormatV2 | FormatV3.

Inductive StateResolutionVersion := StateResV1 | StateResV2 | StateResV2_1.

#[export] Instance StateResolutionVersion_eq_dec : EqDecision StateResolutionVersion.
Proof. solve_decision. Defined.

(** [ruma::RoomVersionId]: the versions the code names, and any other. *)
Inductive RoomVersionId :=
  | V1 | V2 | V3 | V4 | V5 | V6 | V7 | V8 | V9 | V10 | V11 | V12
  | OtherVersion (name : string).

#[export] Instance RoomVersionId_eq_dec : EqDecision RoomVersionId.
Proof. solve_decision. Defined.

Record RoomVersion := mkRoomVersion {
  disposition : RoomDisposition;
  event_format : EventFormatVersion;
  state_res : StateResolutionVersion;
  enforce_key_validity : bool;
  special_case_aliases_auth : bool;
  strict_canonicaljson : bool;
  limit_notifications_power_levels : bool;
  extra_redaction_checks : bool;
  allow_knocking : bool;
  restricted_join_rules : bool;
  knock_restricted_join_rule : bool;
  integer_power_levels : bool;
  use_room_create_sender : bool;
  explicitly_privilege_room_creators : bool;
  room_ids_as_hashes : bool;
}.

Definition RV1 : RoomVersion := {|
  disposition := Stable;
  event_format := FormatV1;
  state_res := StateResV1;
  enforce_key_validity := false;
  special_case_aliases_auth := true;
  strict_canonicaljson := false;
  limit_notifications_power_levels := false;
  extra_redaction_checks := true;
  allow_knocking := false;
  restricted_join_rules := false;
  knock_restricted_join_rule := false;
  integer_power_levels := false;
  use_room_create_sender := false;
  explicitly_privilege_room_creators := false;
  room_ids_as_hashes := false;
|}.

(** Struct update syntax, [Self { field: value, ..base }], one field at a time. *)
Definition set_event_format v r := match r with
  mkRoomVersion a _ c d e f g h i j k l m n o => mkRoomVersion a v c d e f g h i j k l m n o end.
Definition set_state_res v r := match r with
  mkRoomVersion a b _ d e f g h i j k l m n o => mkRoomVersion a b v d e f g h i j k l m n o end.
Definition set_enforce_key_validity v r := match r with
  mkRoomVersion a b c _ e f g h i j k l m n o => mkRoomVersion a b c v e f g h i j k l m n o end.
Definition set_special_case_aliases_auth v r := match r with
  mkRoomVersion a b c d _ f g h i j k l m n o => mkRoomVersion a b c d v f g h i j k l m n o end.
Definition set_strict_canonicaljson v r := match r with
  mkRoomVersion a b c d e _ g h i j k l m n o => mkRoomVersion a b c d e v g h i j k l m n o end.
Definition set_limit_notifications v r := match r with
  mkRoomVersion a b c d e f _ h i j k l m n o => mkRoomVersion a b c d e f v h i j k l m n o end.
Definition set_extra_redaction_checks v r := match r with
  mkRoomVersion a b c d e f g _ i j k l m n o => mkRoomVersion a b c d e f g v i j k l m n o end.
Definition set_allow_knocking v r := match r with
  mkRoomVersion a b c d e f g h _ j k l m n o => mkRoomVersion a b c d e f g h v j k l m n o end.
Definition set_restricted_join_rules v r := match r with
  mkRoomVersion a b c d e f g h i _ k l m n o => mkRoomVersion a b c d e f g h i v k l m n o end.
Definition set_knock_restricted v r := match r with
  mkRoomVersion a b c d e f g h i j _ l m n o => mkRoomVersion a b c d e f g h i j v l m n o end.
Definition set_integer_power_levels v r := match r with
  mkRoomVersion a b c d e f g h i j k _ m n o => mkRoomVersion a b c d e f g h i j k v m n o end.
Definition set_use_room_create_sender v r := match r with
  mkRoomVersion a b c d e f g h i j k l _ n o => mkRoomVersion a b c d e f g h i j k l v n o end.
Definition set_privilege_creators v r := match r with
  mkRoomVersion a b c d e f g h i j k l m _ o => mkRoomVersion a b c d e f g h i j k l m v o end.
Definition set_room_ids_as_hashes v r := match r with
  mkRoomVersion a b c d e f g h i j k l m n _ => mkRoomVersion a b c d e f g h i j k l m n v end.

Definition RV2 := set_state_res StateResV2 RV1.
Definition RV3 := set_event_format FormatV2 (set_extra_redaction_checks false RV2).
Definition RV4 := set_event_format FormatV3 RV3.
Definition RV5 := set_enforce_key_validity true RV4.
Definition RV6 :=
  set_special_case_aliases_auth false
    (set_strict_canonicaljson true (set_limit_notifications true RV5)).
Definition RV7 := set_allow_knocking true RV6.
Definition RV8 := set_restricted_join_rules true RV7.
Definition RV9 := RV8.
Definition RV10 := set_knock_restricted true (set_integer_power_levels true RV9).
Definition RV11 := set_use_room_create_sender true RV10.
Definition RV12 := set_privilege_creators true (set_room_ids_as_hashes true RV11).

(** [RoomVersion::new]. *)
Definition RoomVersion_new (version : RoomVersionId) : outcome Error RoomVersion :=
  match version with
  | V1 => Ok RV1 | V2 => Ok RV2 | V3 => Ok RV3 | V4 => Ok RV4 | V5 => Ok RV5
  | V6 => Ok RV6 | V7 => Ok RV7 | V8 => Ok RV8 | V9 => Ok RV9 | V10 => Ok RV10
  | V11 => Ok RV11 | V12 => Ok RV12
  | OtherVersion name => Err (Unsupported ("found version `" +:+ name +:+ "`"))
  end.
