(* ===== verification/Event.v ===== *)
(** * Events and what the server takes from ruma and serde

    Models [src/core/matrix/event.rs] (the accessors of the [Event] trait) and
    [src/core/matrix/pdu.rs] ([Pdu], [room_id_or_hash]).  Identifiers are ruma's
    validated strings.  The content of an event stays an abstract JSON text: class
    [Ruma] has one decoder for each type the source parses a content into, with
    [None] for a [serde_json] error, and the identifier functions of ruma. *)

From S2P Require Import Prelude RoomVersion.

Abbreviation EventId := string (only parsing).
Abbreviation RoomId := string (only parsing).
Abbreviation UserId := string (only parsing).
Abbreviation ServerName := string (only parsing).
Abbreviation StateKey := string (only parsing).

(** [TimelineEventType] and [StateEventType]: the types the source names and every
    other one by its string.  The conversion between the two ruma types keeps the
    name, so one type serves for both. *)
Inductive EventType :=
  | RoomCreate | RoomMember | RoomPowerLevels | RoomJoinRules | RoomAliases
  | RoomRedaction | RoomThirdPartyInvite
  | OtherType (name : string).

#[export] Instance EventType_eq_dec : EqDecision EventType.
Proof. solve_decision. Defined.

Definition event_type_code (t : EventType) : nat * string :=
  match t with
  | RoomCreate => (0, EmptyString) | RoomMember => (1, EmptyString)
  | RoomPowerLevels => (2, EmptyString) | RoomJoinRules => (3, EmptyString)
  | RoomAliases => (4, EmptyString) | RoomRedaction => (5, EmptyString)
  | RoomThirdPartyInvite => (6, EmptyString) | OtherType s => (7, s)
  end.
Definition event_type_decode (c : nat * string) : option EventType :=
  match c.1 with
  | 0 => Some RoomCreate | 1 => Some RoomMember | 2 => Some RoomPowerLevels
  | 3 => Some RoomJoinRules | 4 => Some RoomAliases | 5 => Some RoomRedaction
  | 6 => Some RoomThirdPartyInvite | _ => Some (OtherType c.2)
  end.
#[export] Instance EventType_countable : Countable EventType.
Proof. apply (inj_countable event_type_code event_type_decode). by intros []. Defined.

(** The name of a type as the Matrix specification has it ([Display]). *)
Definition type_name (t : EventType) : string :=
  match t with
  | RoomCreate => "m.room.create" | RoomMember => "m.room.member"
  | RoomPowerLevels => "m.room.power_levels" | RoomJoinRules => "m.room.join_rules"
  | RoomAliases => "m.room.aliases" | RoomRedaction => "m.room.redaction"
  | RoomThirdPartyInvite => "m.room.third_party_invite" | OtherType s => s
  end.

(** [(StateEventType, StateKey)]. *)
Abbreviation TypeStateKey := (EventType * string)%type.

Inductive MembershipState :=
  | Ban | Invite | Join | Knock | Leave
  | CustomMembership (name : string).

#[export] Instance MembershipState_eq_dec : EqDecision MembershipState.
Proof. solve_decision. Defined.

(** The allow rules of a restricted room are not read by the code modelled here. *)
Inductive JoinRule :=
  | InviteRule | KnockRule | PrivateRule | RestrictedRule | KnockRestrictedRule | PublicRule
  | CustomRule (name : string).

#[export] Instance JoinRule_eq_dec : EqDecision JoinRule.
Proof. solve_decision. Defined.

(** [Raw<T>] is only ever deserialized: it is the result of doing so. *)
Abbreviation Raw A := (option A) (only parsing).

(** The parts of [ThirdPartyInvite] the code reads ([signed.mxid], [signed.token]). *)
Record ThirdPartyInvite := mkThirdPartyInvite { signed_mxid : UserId; signed_token : string }.

(** [RoomMemberContentFields], [RoomCreateContentFields] of [event_auth.rs] and the
    local struct of [auth_types_for_event]. *)
Record RoomMemberContentFields := mkMemberFields {
  membership : option (Raw MembershipState);
  join_authorised_via_users_server : option (Raw UserId);
}.
Record RoomCreateContentFields := mkCreateFields {
  room_version : option (Raw RoomVersionId);
  creator : option unit;
  additional_creators : option (list (Raw UserId));
  federate : bool;
}.
Record AuthTypesMemberFields := mkAuthTypesFields {
  at_membership : option (Raw MembershipState);
  at_third_party_invite : option (Raw ThirdPartyInvite);
  at_join_authorised_via_users_server : option (Raw UserId);
}.

(** [ruma::Int], a JavaScript-safe integer. *)
Definition Int_MAX : Z := (2 ^ 53 - 1)%Z.

(** [RoomPowerLevelsEventContent]. *)
Record RoomPowerLevelsEventContent := mkPowerLevels {
  ban : Z;
  events : gmap EventType Z;
  events_default : Z;
  invite : Z;
  kick : Z;
  redact : Z;
  state_default : Z;
  users : gmap UserId Z;
  users_default : Z;
  notifications_room : Z;
}.

(** [RoomThirdPartyInviteEventContent], keys as decoded base64. *)
Record ThirdPartyInviteContent := mkThirdPartyContent {
  public_key : string;
  public_keys : option (list string);
}.

(** A vector of user levels with the default, as [power_levels.rs] decodes it. *)
Record PowerLevelsContentFields := mkPowerLevelsFields {
  plf_users : list (UserId * Z);
  plf_users_default : Z;
}.

(** ** The external interface *)

Class Ruma (Content : Type) := {
  from_GetMembership : Content → option MembershipState;
  from_RoomMemberContentFields : Content → option RoomMemberContentFields;
  from_AuthTypesMemberFields : Content → option AuthTypesMemberFields;
  from_GetThirdPartyInvite : Content → option (option (Raw ThirdPartyInvite));
  from_RoomCreateContentFields : Content → option RoomCreateContentFields;
  (** the [creator] of ruma's [RoomCreateEventContent] *)
  from_RoomCreateEventContent : Content → option (option UserId);
  from_RoomMemberEventContent : Content → option MembershipState;
  from_RoomJoinRulesEventContent : Content → option JoinRule;
  from_RoomThirdPartyInviteEventContent : Content → option ThirdPartyInviteContent;
  (** ruma's lenient power levels, then the structs of [power_levels.rs] *)
  from_RoomPowerLevelsEventContent : Content → option RoomPowerLevelsEventContent;
  from_IntRoomPowerLevelsEventContent : Content → option RoomPowerLevelsEventContent;
  from_PowerLevelsContentFields : Content → option PowerLevelsContentFields;
  from_IntPowerLevelsContentFields : Content → option PowerLevelsContentFields;
  from_PowerLevelsContentInvite : Content → option Z;
  from_IntPowerLevelsContentInvite : Content → option Z;
  from_PowerLevelsContentRedact : Content → option Z;
  from_IntPowerLevelsContentRedact : Content → option Z;
  (** [serde_json::to_value(content)], the member [name] of it, read as an integer *)
  to_value_level : RoomPowerLevelsEventContent → string → option Z;
  (** [RoomPowerLevelsEventContent::default()] *)
  default_power_levels : RoomPowerLevelsEventContent;
  base64_parse : string → option string;
  (** [<&UserId>::try_from], with the text of the error *)
  user_id_try_from : string → UserId + string;
  event_id_parse : string → EventId + string;
  room_id_parse : string → option RoomId;
  user_server_name : UserId → ServerName;
  room_server_name : RoomId → option ServerName;
  event_server_name : EventId → option ServerName;
}.

(** ** Events *)

(** A stored event.  [unsigned] and [signatures] are raw JSON texts, kept as they are. *)
Record EventHash := mkEventHash { sha256 : string }.
Record Pdu {Content : Type} := mkPdu {
  event_id : EventId;
  room_id : option RoomId;
  sender : UserId;
  origin : option ServerName;
  origin_server_ts : Z;
  kind : EventType;
  content : Content;
  state_key : option StateKey;
  prev_events : list EventId;
  depth : Z;
  auth_events : list EventId;
  redacts : option EventId;
  unsigned : option string;
  hashes : EventHash;
  signatures : option string;
}.
Arguments Pdu : clear implicits.
Arguments mkPdu {Content}.

(** [str::replace] of one character by another. *)
Fixpoint replace_char (a b : ascii) (s : string) : string :=
  match s with
  | EmptyString => EmptyString
  | String c s => String (if bool_decide (c = a) then b else c) (replace_char a b s)
  end.

Section event.
Context {Content : Type} `{Ruma Content}.

Definition room_id_or_hash {E} (ev : Pdu Content) : outcome E RoomId :=
  if bool_decide (kind ev ≠ RoomCreate) then expect (room_id ev)
  else match room_id ev with
       | Some room => Ok room
       | None => expect (room_id_parse (replace_char "$"%char "!"%char (event_id ev)))
       end.

(** [impl PartialEq for Pdu]: equality is that of the ids. *)
Definition pdu_eqb (x y : Pdu Content) : bool := bool_decide (event_id x = event_id y).

Definition is_type_and_key (ev : Pdu Content) (ev_type : EventType) (key : string) : bool :=
  bool_decide (kind ev = ev_type) && bool_decide (state_key ev = Some key).

(** [EventTypeExt::with_state_key]. *)
Definition with_state_key (ty : EventType) (key : string) : TypeStateKey := (ty, key).
End event.
