(* ===== verification/PowerLevels.v ===== *)
(** * Power levels: [src/core/matrix/state_res/power_levels.rs]

    The choice of decoder by room version (integers only from version 10 on) and
    the lookup of a user's level by binary search in the decoded vector.  The
    theorem shows that on the sorted vector the search is a map lookup. *)

From S2P Require Import Prelude RoomVersion Event.

(** ** The order of identifiers ([str]'s, byte by byte) *)

Definition str_lt (a b : string) : Prop := String.compare a b = Lt.

Lemma str_compare_eq a b : String.compare a b = Eq ↔ a = b.
Proof.
  split; [apply String.compare_eq_iff|intros ->].
  pose proof (String.compare_antisym b b) as E. by destruct (String.compare b b).
Qed.

Lemma str_lt_le a b : str_lt a b ↔ String.le a b ∧ a ≠ b.
Proof.
  unfold str_lt, String.le, String.leb.
  destruct (String.compare a b) eqn:E; simpl.
  - apply str_compare_eq in E. naive_solver.
  - split; [|done]. intros _. split; [done|]. intros ->.
    pose proof (proj2 (str_compare_eq b b) eq_refl). congruence.
  - naive_solver.
Qed.

#[export] Instance str_lt_trans : Transitive str_lt.
Proof.
  intros a b c. rewrite !str_lt_le. intros [H1 Hne] [H2 ?]. split; [by trans b|].
  intros ->. apply Hne. by apply (anti_symm String.le).
Qed.
#[export] Instance str_lt_irrefl : Irreflexive str_lt.
Proof. intros a Ha. apply str_lt_le in Ha. naive_solver. Qed.


Lemma str_compare_gt a b : String.compare a b = Gt ↔ str_lt b a.
Proof.
  unfold str_lt. rewrite String.compare_antisym. destruct (String.compare b a); naive_solver.
Qed.

(** ** [slice::binary_search_by] of the standard library *)

Section binary_search.
Context {A : Type} (f : A → comparison).
Implicit Types (l : list A).

(** The loop halves [size]; [fuel] bounds its iterations by the initial size. *)
Fixpoint bsearch_loop (fuel : nat) l (base size : nat) : nat :=
  match fuel with
  | O => base
  | S fuel =>
      if bool_decide (size ≤ 1) then base
      else
        let half := size `div` 2 in
        let mid := base + half in
        let base' := match f <$> l !! mid with Some Gt | None => base | _ => mid end in
        bsearch_loop fuel l base' (size - half)
  end.

Definition binary_search_by l : option nat :=
  match l with
  | [] => None
  | _ =>
      let base := bsearch_loop (length l) l 0 (length l) in
      match f <$> l !! base with Some Eq => Some base | _ => None end
  end.

(** The comparator is monotone along the list: below, then at most one equal,
    then above. *)
Definition monotone l : Prop :=
  ∀ i j x y, i < j → l !! i = Some x → l !! j = Some y →
    (f y ≠ Gt → f x = Lt) ∧ (f x ≠ Lt → f y = Gt).

Lemma bsearch_loop_bounds fuel l base size i x :
  monotone l → base + size ≤ length l → size ≤ fuel →
  l !! i = Some x → f x = Eq → base ≤ i < base + size →
  bsearch_loop fuel l base size = i.
Proof.
  intros Hm. revert base size. induction fuel as [|fuel IH]; intros base size Hlen Hfuel Hi Hx Hb;
    cbn [bsearch_loop]; [lia|].
  case_bool_decide as Hsz; [lia|].
  pose proof (Nat.div_mod_eq size 2) as Hdm. pose proof (Nat.mod_upper_bound size 2).
  destruct (lookup_lt_is_Some_2 l (base + size `div` 2)) as [y Hy]; [lia|].
  rewrite Hy. cbn [fmap option_fmap option_map].
  destruct (f y) eqn:Ey; (apply IH; [try lia..|done|done|]).
  - destruct (decide (i < base + size `div` 2)) as [Hlt|]; [|lia].
    destruct (Hm _ _ _ _ Hlt Hi Hy) as [Hfx _]. rewrite Ey in Hfx. rewrite Hfx in Hx; done.
  - destruct (decide (i < base + size `div` 2)) as [Hlt|]; [|lia].
    destruct (Hm _ _ _ _ Hlt Hi Hy) as [Hfx _]. rewrite Ey in Hfx. rewrite Hfx in Hx; done.
  - destruct (decide (i < base + size `div` 2)) as [Hlt|Hge]; [lia|].
    destruct (decide (i = base + size `div` 2)) as [->|Hne]; [congruence|].
    destruct (Hm (base + size `div` 2) i y x) as [_ Hfx]; [lia|done..|].
    rewrite Hfx in Hx; [done|by rewrite Ey].
Qed.

Lemma binary_search_by_complete l i x :
  monotone l → l !! i = Some x → f x = Eq → binary_search_by l = Some i.
Proof.
  intros Hm Hi Hx. pose proof (lookup_lt_Some _ _ _ Hi).
  unfold binary_search_by. rewrite (bsearch_loop_bounds _ l 0 (length l) i x) by (done || lia).
  rewrite Hi; simpl. rewrite Hx. by destruct l.
Qed.

Lemma binary_search_by_sound l i :
  binary_search_by l = Some i → ∃ x, l !! i = Some x ∧ f x = Eq.
Proof.
  unfold binary_search_by. destruct l as [|y l]; [done|].
  set (base := bsearch_loop _ _ _ _). destruct ((y :: l) !! base) as [x|] eqn:E; simpl; [|done].
  destruct (f x) eqn:Ex; try done. intros [= <-]. eauto.
Qed.
End binary_search.

(** ** The decoders *)

Section power_levels.
Context {Content : Type} `{Ruma Content}.
Implicit Types (c : Content) (rv : RoomVersion).

(** [IntRoomPowerLevelsEventContent] converts field by field into ruma's content. *)
Definition deserialize_integer_power_levels c : option RoomPowerLevelsEventContent :=
  from_IntRoomPowerLevelsEventContent c.
Definition deserialize_legacy_power_levels c : option RoomPowerLevelsEventContent :=
  from_RoomPowerLevelsEventContent c.
Definition deserialize_power_levels c rv : option RoomPowerLevelsEventContent :=
  if integer_power_levels rv then deserialize_integer_power_levels c
  else deserialize_legacy_power_levels c.

Definition deserialize_integer_power_levels_content_fields c
    : outcome Error PowerLevelsContentFields :=
  ok_or SerdeJson (from_IntPowerLevelsContentFields c).
Definition deserialize_legacy_power_levels_content_fields c
    : outcome Error PowerLevelsContentFields :=
  ok_or SerdeJson (from_PowerLevelsContentFields c).
Definition deserialize_power_levels_content_fields c rv
    : outcome Error PowerLevelsContentFields :=
  if integer_power_levels rv then deserialize_integer_power_levels_content_fields c
  else deserialize_legacy_power_levels_content_fields c.

Definition deserialize_power_levels_content_invite c rv : outcome Error Z :=
  ok_or SerdeJson
    (if integer_power_levels rv then from_IntPowerLevelsContentInvite c
     else from_PowerLevelsContentInvite c).
Definition deserialize_power_levels_content_redact c rv : outcome Error Z :=
  ok_or SerdeJson
    (if integer_power_levels rv then from_IntPowerLevelsContentRedact c
     else from_PowerLevelsContentRedact c).
End power_levels.

(** [PowerLevelsContentFields::get_user_power]. *)
Definition get_user_power (fields : PowerLevelsContentFields) (user_id : UserId) : option Z :=
  let comparator (item : UserId * Z) := String.compare item.1 user_id in
  idx ← binary_search_by comparator (plf_users fields);
  snd <$> plf_users fields !! idx.

(** ** The lookup is a map lookup *)

(** What the decoders of ruma establish: users in strictly ascending order. *)
Definition users_sorted (l : list (UserId * Z)) : Prop :=
  StronglySorted (λ x y, str_lt x.1 y.1) l.

Lemma users_sorted_lookup l i j x y :
  users_sorted l → i < j → l !! i = Some x → l !! j = Some y → str_lt x.1 y.1.
Proof.
  intros Hs. revert i j. induction Hs as [|z l Hs IH Hz]; intros i j Hij Hi Hj; [done|].
  destruct j as [|j]; [lia|]. destruct i as [|i]; simpl in *.
  - simplify_eq. rewrite Forall_forall in Hz. apply Hz. apply list_elem_of_lookup. eauto.
  - apply (IH i j); [lia|done..].
Qed.

Lemma users_sorted_monotone l u :
  users_sorted l → monotone (λ item : UserId * Z, String.compare item.1 u) l.
Proof.
  intros Hs i j x y Hij Hi Hj. pose proof (users_sorted_lookup l i j x y Hs Hij Hi Hj) as Hlt.
  split; intros Hne.
  - destruct (String.compare y.1 u) eqn:E; [|change (str_lt x.1 u); by trans y.1|done].
    apply str_compare_eq in E as <-. done.
  - destruct (String.compare x.1 u) eqn:E; [|done|]; rewrite str_compare_gt.
    + by apply str_compare_eq in E as <-.
    + apply str_compare_gt in E. by trans x.1.
Qed.

Lemma users_sorted_nodup l : users_sorted l → NoDup l.*1.
Proof.
  induction 1 as [|x l Hs IH Hx]; simpl; [constructor|]. constructor; [|done].
  intros (y & E & Hy)%list_elem_of_fmap. rewrite Forall_forall in Hx.
  specialize (Hx y Hy). rewrite E in Hx. by apply (irreflexivity str_lt y.1).
Qed.

(** On the sorted vector the decoders produce, the binary search of
    [get_user_power] finds the level of a user exactly when the vector, read as a map,
    has one. *)
Theorem get_user_power_map fields u :
  users_sorted (plf_users fields) →
  get_user_power fields u = list_to_map (M := gmap string Z) (plf_users fields) !! u.
Proof.
  intros Hs. pose proof (users_sorted_nodup _ Hs) as Hnd. unfold get_user_power.
  destruct (list_to_map (M := gmap string Z) (plf_users fields) !! u) as [p|] eqn:E.
  - apply elem_of_list_to_map in E; [|done].
    apply list_elem_of_lookup in E as [i Hi].
    rewrite (binary_search_by_complete _ _ i (u, p)); [|by apply users_sorted_monotone|done|].
    + simpl. by rewrite Hi.
    + simpl. by apply str_compare_eq.
  - destruct (binary_search_by _ _) as [i|] eqn:Eb; [|done]. simpl.
    apply binary_search_by_sound in Eb as ([u' p] & Hi & Hc%str_compare_eq).
    simpl in Hc; subst u'. apply not_elem_of_list_to_map_2 in E. destruct E.
    apply list_elem_of_fmap. exists (u, p). split; [done|]. apply list_elem_of_lookup. eauto.
Qed.

Lemma get_user_power_map_witness :
  get_user_power (mkPowerLevelsFields [("@a:x", 1%Z); ("@b:x", 50%Z); ("@c:x", 7%Z)] 0) "@b:x"
  = Some 50%Z.
Proof.
  rewrite get_user_power_map; [done|]. repeat constructor.
Defined.
