(* ===== verification/EventAuth.v ===== *)
(** * Event authorization: [src/core/matrix/state_res/event_auth.rs]

    The rules by which a server accepts an event against a state snapshot:
    [auth_types_for_event], [auth_check] and its parts ([valid_membership_change],
    [check_power_levels], [can_send_event], [check_redaction],
    [verify_third_party_invite]).  The asynchronous [fetch_state] closure is a
    function of the snapshot.  Long functions are cut at the comments of the
    source; each piece is called where the source continues. *)

From S2P Require Import Prelude RoomVersion Event PowerLevels.

Local Open Scope Z_scope.
Local Open Scope srv_scope.

(** ** Small helpers of the language *)

(** [if !vec.contains(&key) { vec.push(key) }]. *)
Definition push_unique {A} `{EqDecision A} (x : A) (l : list A) : list A :=
  if bool_decide (x ∈ l) then l else l ++ [x].

(** [Ord] for [Option]: [None] is below every [Some]. *)
Definition opt_lt (a b : option Z) : bool :=
  match a, b with
  | None, Some _ => true
  | Some x, Some y => bool_decide (x < y)
  | _, None => false
  end.
Definition opt_gt (a b : option Z) : bool := opt_lt b a.
(** [power.filter(|p| p >= level).is_some()]. *)
Definition has_level (power : option Z) (level : Z) : bool :=
  match power with Some p => bool_decide (level ≤ p) | None => false end.

(** [str::starts_with('@')]. *)
Definition starts_with_at (s : string) : bool :=
  match s with String c _ => bool_decide (c = "@"%char) | EmptyString => false end.

Section event_auth.
Context {Content : Type} `{Ruma Content}.
Implicit Types (rv : RoomVersion) (ev : Pdu Content) (u : UserId).

(** ** Which state events an event is authorized against *)

Definition member_auth_types (fields : AuthTypesMemberFields) (key : string)
    (auth_types : list TypeStateKey) : list TypeStateKey :=
  match at_membership fields with
  | Some (Some m) =>
      let auth_types :=
        if bool_decide (m ∈ [Join; Invite; Knock]) then
          let auth_types := push_unique (RoomJoinRules, EmptyString) auth_types in
          match at_join_authorised_via_users_server fields with
          | Some (Some u) => push_unique (RoomMember, u) auth_types
          | _ => auth_types
          end
        else auth_types in
      let auth_types := push_unique (RoomMember, key) auth_types in
      if bool_decide (m = Invite) then
        match at_third_party_invite fields with
        | Some (Some t_id) => push_unique (RoomThirdPartyInvite, signed_token t_id) auth_types
        | _ => auth_types
        end
      else auth_types
  | _ => auth_types
  end.

Definition auth_types_for_event (ty : EventType) (snd_id : UserId) (key : option string)
    (c : Content) rv : outcome Error (list TypeStateKey) :=
  if bool_decide (ty = RoomCreate) then Ok []
  else
    let auth_types :=
      if room_ids_as_hashes rv then
        [(RoomPowerLevels, EmptyString); (RoomMember, snd_id)]
      else
        [(RoomPowerLevels, EmptyString); (RoomMember, snd_id); (RoomCreate, EmptyString)] in
    if bool_decide (ty = RoomMember) then
      match key with
      | Some key =>
          fields ← ok_or SerdeJson (from_AuthTypesMemberFields c);
          Ok (member_auth_types fields key auth_types)
      | None => Ok auth_types
      end
    else Ok auth_types.

(** ** Power level checks *)

Definition get_send_level (e_type : EventType) (key : option string)
    (power_lvl : option (Pdu Content)) : Z :=
  let fallback := match key with Some _ => 50 | None => 0 end in
  match power_lvl with
  | Some ple =>
      match from_RoomPowerLevelsEventContent (content ple) with
      | Some pl =>
          match events pl !! e_type with
          | Some level => level
          | None => match key with Some _ => state_default pl | None => events_default pl end
          end
      | None => fallback
      end
  | None => fallback
  end.

Definition can_send_event ev (ple : option (Pdu Content)) (user_level : Z) : bool :=
  let event_type_power_level := get_send_level (kind ev) (state_key ev) ple in
  if bool_decide (user_level < event_type_power_level) then false
  else if match state_key ev with Some k => starts_with_at k | None => false end
          && bool_decide (state_key ev ≠ Some (sender ev)) then false
  else true.

Definition get_deserialize_levels (old new : RoomPowerLevelsEventContent) (name : string)
    : option (Z * Z) :=
  o ← to_value_level old name; n ← to_value_level new name; Some (o, n).

Definition action_levels : list string :=
  ["users_default"; "events_default"; "state_default"; "ban"; "redact"; "kick"; "invite"].

(** One round of the loop over users: [true] to go on, [false] to reject. *)
Definition user_level_ok ev (old_state new_state : RoomPowerLevelsEventContent)
    (user_level : Z) (creators : gset UserId) (user : UserId) : bool :=
  let old_level := users old_state !! user in
  let new_level := users new_state !! user in
  if bool_decide (is_Some new_level) && bool_decide (user ∈ creators) then false
  else if bool_decide (is_Some old_level) && bool_decide (is_Some new_level)
          && bool_decide (old_level = new_level) then true
  else if bool_decide (user ≠ sender ev) && bool_decide (old_level = Some user_level) then false
  else if opt_gt old_level (Some user_level) then false
  else if opt_gt new_level (Some user_level) then false
  else true.

(** One round of the loop over event types. *)
Definition event_level_ok (old_state new_state : RoomPowerLevelsEventContent)
    (user_level : Z) (ev_type : EventType) : bool :=
  let old_level := events old_state !! ev_type in
  let new_level := events new_state !! ev_type in
  if bool_decide (is_Some old_level) && bool_decide (is_Some new_level)
     && bool_decide (old_level = new_level) then true
  else if opt_gt old_level (Some user_level) then false
  else if opt_gt new_level (Some user_level) then false
  else true.

Definition notifications_ok rv (old_state new_state : RoomPowerLevelsEventContent)
    (user_level : Z) : bool :=
  if limit_notifications_power_levels rv then
    let old_level := notifications_room old_state in
    let new_level := notifications_room new_state in
    if bool_decide (old_level ≠ new_level) then
      negb (bool_decide (user_level < old_level) || bool_decide (user_level < new_level))
    else true
  else true.

(** One round of the loop over the named levels. *)
Definition action_level_ok (old_state new_state : RoomPowerLevelsEventContent)
    (user_level : Z) (lvl_name : string) : bool :=
  match get_deserialize_levels old_state new_state lvl_name with
  | Some (old_lvl, new_lvl) =>
      negb (bool_decide (user_level < old_lvl) || bool_decide (user_level < new_lvl))
  | None => true
  end.

Definition check_power_levels rv (power_event : Pdu Content)
    (previous_power_event : option (Pdu Content)) (user_level : Z) (creators : gset UserId)
    : option bool :=
  match state_key power_event with
  | Some EmptyString =>
      user_content ← deserialize_power_levels (content power_event) rv;
      match previous_power_event with
      | None => Some true
      | Some current_state =>
          current_content ← deserialize_power_levels (content current_state) rv;
          let user_levels_to_check := dom (users current_content) ∪ dom (users user_content) in
          let event_levels_to_check :=
            dom (events current_content) ∪ dom (events user_content) in
          if negb (forallb (user_level_ok power_event current_content user_content user_level
                             creators) (elements user_levels_to_check)) then Some false
          else if negb (forallb (event_level_ok current_content user_content user_level)
                          (elements event_levels_to_check)) then Some false
          else if negb (notifications_ok rv current_content user_content user_level)
               then Some false
          else if negb (forallb (action_level_ok current_content user_content user_level)
                          action_levels) then Some false
          else Some true
      end
  | _ => None
  end.

Definition check_redaction ev (user_level redact_level : Z) : outcome Error bool :=
  if bool_decide (redact_level ≤ user_level) then Ok true
  else if bool_decide (event_server_name (event_id ev) = redacts ev ≫= event_server_name)
       then Ok true
  else Ok false.

(** ** Third-party invites *)

Definition verify_third_party_invite (target_user : option UserId) (snd_id : UserId)
    (tp_id : ThirdPartyInvite) (current_third_party_invite : option (Pdu Content)) : bool :=
  if bool_decide (target_user ≠ Some (signed_mxid tp_id)) then false
  else let? current_tpid := current_third_party_invite else false in
  if bool_decide (state_key current_tpid ≠ Some (signed_token tp_id)) then false
  else if bool_decide (snd_id ≠ sender current_tpid) then false
  else let? tpid_ev := from_RoomThirdPartyInviteEventContent (content current_tpid) else false in
  let? decoded_invite_token := base64_parse (signed_token tp_id) else false in
  if bool_decide (decoded_invite_token ∈ default [] (public_keys tpid_ev)) then true
  else bool_decide (public_key tpid_ev = decoded_invite_token).

(** ** Membership changes *)

Definition is_creator rv (c : gset UserId) (ce : Pdu Content) u (have_pls : bool)
    : outcome Error bool :=
  if explicitly_privilege_room_creators rv then Ok (bool_decide (u ∈ c))
  else if use_room_create_sender rv && negb have_pls then Ok (bool_decide (sender ce = u))
  else if negb have_pls then
    create ← expect (from_RoomCreateEventContent (content ce));
    creator ← expect create;
    Ok (bool_decide (creator = u))
  else Ok false.

(** The local variables of [valid_membership_change] its checks read. *)
Record ChangeCtx := mkChangeCtx {
  target_membership : MembershipState;
  third_party_invite : option (Raw ThirdPartyInvite);
  sender_membership : MembershipState;
  target_user_current_membership : MembershipState;
  power_levels : RoomPowerLevelsEventContent;
  sender_power : option Z;
  target_power : option Z;
  room_creators : gset UserId;
  join_rules : JoinRule;
}.
Definition sender_is_joined (x : ChangeCtx) : bool := bool_decide (sender_membership x = Join).

(** The membership a member event of the snapshot grants; no event means [Leave]. *)
Definition membership_of (ev : option (Pdu Content)) : outcome Error MembershipState :=
  match ev with
  | Some pdu => ok_or SerdeJson (from_GetMembership (content pdu))
  | None => Ok Leave
  end.

Definition change_ctx rv (target_user : UserId) (target_user_membership_event : option (Pdu Content))
    (snd_id : UserId) (sender_membership_event : option (Pdu Content)) (current_event : Pdu Content)
    (power_levels_event join_rules_event : option (Pdu Content)) (create_room : Pdu Content)
    : outcome Error ChangeCtx :=
  create_content ← ok_or SerdeJson (from_RoomCreateContentFields (content create_room));
  target_membership ← ok_or SerdeJson (from_GetMembership (content current_event));
  third_party_invite ← ok_or SerdeJson (from_GetThirdPartyInvite (content current_event));
  sender_membership ← membership_of sender_membership_event;
  target_current ← membership_of target_user_membership_event;
  power_levels ← match power_levels_event with
                 | Some ev => ok_or SerdeJson (from_RoomPowerLevelsEventContent (content ev))
                 | None => Ok default_power_levels
                 end;
  let default_if (b : bool) := if b then Some (users_default power_levels) else None in
  let or_else (o d : option Z) := match o with Some _ => o | None => d end in
  let sender_power :=
    or_else (users power_levels !! snd_id)
      (default_if (bool_decide (sender_membership = Join))) in
  let target_power :=
    or_else (users power_levels !! target_user)
      (default_if (bool_decide (target_membership = Join))) in
  let creators : gset UserId :=
    if explicitly_privilege_room_creators rv then
      {[sender create_room]} ∪
        list_to_set (omap id (default [] (additional_creators create_content)))
    else {[sender create_room]} in
  let privileged u (p : option Z) :=
    if explicitly_privilege_room_creators rv && bool_decide (u ∈ creators)
    then Some Int_MAX else p in
  join_rules ← match join_rules_event with
               | Some jr => ok_or SerdeJson (from_RoomJoinRulesEventContent (content jr))
               | None => Ok InviteRule
               end;
  Ok {| target_membership := target_membership;
        third_party_invite := third_party_invite;
        sender_membership := sender_membership;
        target_user_current_membership := target_current;
        power_levels := power_levels;
        sender_power := privileged snd_id sender_power;
        target_power := privileged target_user target_power;
        room_creators := creators;
        join_rules := join_rules |}.

(** Is the user named by [join_authorised_via_users_server] in the room and
    allowed to invite? *)
Definition user_for_join_auth_is_valid rv (x : ChangeCtx) (create_room : Pdu Content)
    (power_levels_event : option (Pdu Content)) (user_for_join_auth : option UserId)
    (user_for_join_auth_membership : MembershipState) : outcome Error bool :=
  match user_for_join_auth with
  | Some auth_user =>
      levels ← match power_levels_event with
               | Some pl =>
                   invite ← deserialize_power_levels_content_invite (content pl) rv;
                   fields ← deserialize_power_levels_content_fields (content pl) rv;
                   Ok (default (plf_users_default fields) (get_user_power fields auth_user),
                       invite)
               | None => Ok (0, 0)
               end;
      let '(auth_user_pl, invite_level) := levels in
      let user_joined := bool_decide (user_for_join_auth_membership = Join) in
      creator ← is_creator rv (room_creators x) create_room auth_user
                  (bool_decide (is_Some power_levels_event));
      let okay_power := creator || bool_decide (invite_level ≤ auth_user_pl) in
      Ok (user_joined && okay_power)
  | None => Ok false
  end.

(** [MembershipState::Join]. *)
Definition join_allowed rv (x : ChangeCtx) (target_user snd_id : UserId)
    (current_event create_room : Pdu Content) (join_auth_valid : bool)
    (sender_creator target_creator : bool) : bool :=
  let prev_event_is_create_event :=
    match prev_events current_event with
    | first :: _ => bool_decide (first = event_id create_room)
    | [] => false
    end in
  let no_more_prev_events := match prev_events current_event with _ :: _ :: _ => false | _ => true end in
  if prev_event_is_create_event && no_more_prev_events && (sender_creator && target_creator)
  then true
  else
    let membership_allows_join :=
      bool_decide (target_user_current_membership x ∈ [Join; Invite]) in
    if bool_decide (snd_id ≠ target_user) then false
    else if bool_decide (target_user_current_membership x = Ban) then false
    else match join_rules x with
         | InviteRule => membership_allows_join
         | KnockRule => if negb (allow_knocking rv) then false else membership_allows_join
         | KnockRestrictedRule =>
             if negb (knock_restricted_join_rule rv) then false
             else membership_allows_join || join_auth_valid
         | RestrictedRule => membership_allows_join || join_auth_valid
         | PublicRule => true
         | _ => false
         end.

(** [MembershipState::Invite]. *)
Definition invite_allowed (x : ChangeCtx) (target_user snd_id : UserId)
    (current_third_party_invite : option (Pdu Content)) (sender_creator : bool) : bool :=
  match third_party_invite x ≫= id with
  | Some tp_id =>
      if bool_decide (target_user_current_membership x = Ban) then false
      else verify_third_party_invite (Some target_user) snd_id tp_id current_third_party_invite
  | None =>
      if negb (sender_is_joined x) then false
      else if bool_decide (target_user_current_membership x ∈ [Join; Ban]) then false
      else sender_creator || has_level (sender_power x) (invite (power_levels x))
  end.

(** [MembershipState::Leave]: leaving, kicking and unbanning. *)
Definition leave_allowed (x : ChangeCtx) (target_user snd_id : UserId)
    (sender_creator : bool) : bool :=
  let can_unban :=
    if bool_decide (target_user_current_membership x = Ban)
    then sender_creator || has_level (sender_power x) (ban (power_levels x)) else true in
  let can_kick :=
    if bool_decide (target_user_current_membership x ∉ [Ban; Leave]) then
      if sender_creator then true
      else if negb (has_level (sender_power x) (kick (power_levels x))) then false
      else match sender_power x with
           | Some sp => match target_power x with Some tp => bool_decide (tp < sp) | None => true end
           | None => false
           end
    else true in
  if bool_decide (snd_id = target_user)
  then bool_decide (target_user_current_membership x ∈ [Join; Invite; Knock])
  else if negb (sender_is_joined x) then false
  else if negb (can_unban && can_kick) then false
  else if negb can_kick then false
  else true.

(** [MembershipState::Ban]. *)
Definition ban_allowed (x : ChangeCtx) (sender_creator : bool) : bool :=
  if negb (sender_is_joined x) then false
  else sender_creator ||
       (has_level (sender_power x) (ban (power_levels x))
        && opt_lt (target_power x) (sender_power x)).

(** [MembershipState::Knock], in room versions with knocking. *)
Definition knock_allowed rv (x : ChangeCtx) (target_user snd_id : UserId) : bool :=
  if bool_decide (join_rules x ∉ [KnockRestrictedRule; KnockRule]) then false
  else if bool_decide (join_rules x = KnockRestrictedRule) && negb (knock_restricted_join_rule rv)
       then false
  else if bool_decide (snd_id ≠ target_user) then false
  else if bool_decide (sender_membership x ∈ [Ban; Invite; Join]) then false
  else true.

Definition valid_membership_change rv (target_user : UserId)
    (target_user_membership_event : option (Pdu Content)) (snd_id : UserId)
    (sender_membership_event : option (Pdu Content)) (current_event : Pdu Content)
    (current_third_party_invite power_levels_event join_rules_event : option (Pdu Content))
    (user_for_join_auth : option UserId) (user_for_join_auth_membership : MembershipState)
    (create_room : Pdu Content) : outcome Error bool :=
  x ← change_ctx rv target_user target_user_membership_event snd_id sender_membership_event
        current_event power_levels_event join_rules_event create_room;
  join_auth_valid ← user_for_join_auth_is_valid rv x create_room power_levels_event
        user_for_join_auth user_for_join_auth_membership;
  let have_pls := bool_decide (is_Some power_levels_event) in
  sender_creator ← is_creator rv (room_creators x) create_room snd_id have_pls;
  target_creator ← is_creator rv (room_creators x) create_room target_user have_pls;
  Ok match target_membership x with
     | Join => join_allowed rv x target_user snd_id current_event create_room join_auth_valid
                 sender_creator target_creator
     | Invite => invite_allowed x target_user snd_id current_third_party_invite sender_creator
     | Leave => leave_allowed x target_user snd_id sender_creator
     | Ban => ban_allowed x sender_creator
     | Knock => if allow_knocking rv then knock_allowed rv x target_user snd_id else false
     | CustomMembership _ => false
     end.

(** ** [auth_check] *)

(** [content.room_version.is_some_and(|v| v.deserialize().is_err())]. *)
Definition bad_room_version (c : RoomCreateContentFields) : bool :=
  match room_version c with Some None => true | _ => false end.

(** Rule 1: [m.room.create]. *)
Definition auth_check_create rv ev : outcome Error bool :=
  reject_if bool_decide (prev_events ev ≠ []) ;
  reject_if match room_id ev with
            | Some room =>
                bool_decide (room_server_name room ≠ Some (user_server_name (sender ev)))
            | None => false
            end ;
  content ← ok_or SerdeJson (from_RoomCreateContentFields (content ev));
  reject_if bad_room_version content ;
  reject_if room_ids_as_hashes rv && bool_decide (is_Some (room_id ev)) ;
  reject_if negb (use_room_create_sender rv) && negb (explicitly_privilege_room_creators rv)
            && bool_decide (creator content = None) ;
  Ok true.

(** [m.room.member]. *)
Definition auth_check_member rv ev (current_third_party_invite : option (Pdu Content))
    (fetch_state : EventType → string → option (Pdu Content)) (create_event : Pdu Content)
    (power_levels_event sender_member_event : option (Pdu Content)) : outcome Error bool :=
  let? key := state_key ev else Ok false in
  content ← ok_or SerdeJson (from_RoomMemberContentFields (content ev));
  reject_if bool_decide (membership content ≫= id = None) ;
  target_user ← match user_id_try_from key with
                | inl u => Ok u
                | inr e => Err (InvalidPdu e)
                end;
  let user_for_join_auth := join_authorised_via_users_server content ≫= id in
  let user_for_join_auth_event := user_for_join_auth ≫= fetch_state RoomMember in
  let target_user_member_event := fetch_state RoomMember target_user in
  let join_rules_event := fetch_state RoomJoinRules EmptyString in
  let user_for_join_auth_membership :=
    default Leave (user_for_join_auth_event ≫= λ mem, from_GetMembership (Event.content mem)) in
  valid ← valid_membership_change rv target_user target_user_member_event (sender ev)
            sender_member_event ev current_third_party_invite power_levels_event
            join_rules_event user_for_join_auth user_for_join_auth_membership create_event;
  reject_if negb valid ;
  Ok true.

(** Is the sender joined, by the member event of the snapshot? *)
Definition sender_joined (expected_room_id : RoomId) (sender_member_event : option (Pdu Content))
    : outcome Error bool :=
  let? mem := sender_member_event else Ok false in
  room ← expect (room_id mem);
  reject_if bool_decide (room ≠ expected_room_id) ;
  fields ← ok_or SerdeJson (from_RoomMemberContentFields (content mem));
  membership_state ← ok_or (InvalidPdu "Missing membership field") (membership fields);
  membership_state ← ok_or SerdeJson membership_state;
  Ok (bool_decide (membership_state = Join)).

(** [m.room.create] privileges in the absence of power levels, then those of
    explicitly privileged creators. *)
Definition sender_power_level rv ev (create_event : Pdu Content)
    (create_content : RoomCreateContentFields) (power_levels_event : option (Pdu Content))
    : outcome Error Z :=
  level ← match power_levels_event with
          | Some pl =>
              fields ← deserialize_power_levels_content_fields (content pl) rv;
              Ok (default (plf_users_default fields) (get_user_power fields (sender ev)))
          | None =>
              is_creator ←
                (if use_room_create_sender rv
                 then Ok (bool_decide (sender create_event = sender ev))
                 else match from_RoomCreateEventContent (content create_event) with
                      | Some create => c ← expect create; Ok (bool_decide (c = sender ev))
                      | None => Ok false
                      end);
              Ok (if (is_creator : bool) then 100 else 0)
          end;
  Ok (if explicitly_privilege_room_creators rv
         && (bool_decide (sender ev = sender create_event)
             || bool_decide (Some (sender ev) ∈ default [] (additional_creators create_content)))
      then Int_MAX else level).

(** [m.room.third_party_invite]. *)
Definition auth_check_third_party_invite rv (power_levels_event : option (Pdu Content))
    (sender_power_level : Z) : outcome Error bool :=
  invite_level ← match power_levels_event with
                 | Some pl => deserialize_power_levels_content_invite (content pl) rv
                 | None => Ok 0
                 end;
  reject_if bool_decide (sender_power_level < invite_level) ;
  Ok true.

(** [m.room.power_levels]: [true] when the source goes on. *)
Definition auth_check_power_levels rv ev (create_event : Pdu Content)
    (create_content : RoomCreateContentFields) (power_levels_event : option (Pdu Content))
    (sender_power_level : Z) : outcome Error bool :=
  creators ← (if explicitly_privilege_room_creators rv then
                more ← try_map (ok_or SerdeJson) (default [] (additional_creators create_content));
                Ok (list_to_set (sender create_event :: more))
              else Ok (∅ : gset UserId));
  Ok (default false (check_power_levels rv ev power_levels_event sender_power_level creators)).

(** [m.room.redaction] in the room versions with extra checks. *)
Definition auth_check_redaction rv ev (power_levels_event : option (Pdu Content))
    (sender_power_level : Z) : outcome Error bool :=
  redact_level ← match power_levels_event with
                 | Some pl => deserialize_power_levels_content_redact (content pl) rv
                 | None => Ok 50
                 end;
  check_redaction ev sender_power_level redact_level.

(** Everything below the membership rules: the sender has to be joined and to have
    the power the event needs. *)
Definition auth_check_sent rv ev (create_event : Pdu Content)
    (create_content : RoomCreateContentFields) (expected_room_id : RoomId)
    (power_levels_event sender_member_event : option (Pdu Content)) : outcome Error bool :=
  joined ← sender_joined expected_room_id sender_member_event;
  reject_if negb joined ;
  level ← sender_power_level rv ev create_event create_content power_levels_event;
  if bool_decide (kind ev = RoomThirdPartyInvite)
  then auth_check_third_party_invite rv power_levels_event level
  else
  reject_if negb (can_send_event ev power_levels_event level) ;
  levels_ok ← (if bool_decide (kind ev = RoomPowerLevels)
               then auth_check_power_levels rv ev create_event create_content
                      power_levels_event level
               else Ok true);
  reject_if negb levels_ok ;
  redaction_ok ← (if extra_redaction_checks rv && bool_decide (kind ev = RoomRedaction)
                  then auth_check_redaction rv ev power_levels_event level
                  else Ok true);
  reject_if negb redaction_ok ;
  Ok true.

(** The checks that tie an event to the room of the create event. *)
Definition same_room rv ev (create_event : Pdu Content) (create_content : RoomCreateContentFields)
    (expected_room_id : RoomId) (power_levels_event : option (Pdu Content))
    : outcome Error bool :=
  room ← expect (room_id ev);
  reject_if bool_decide (room ≠ expected_room_id) ;
  let claims_create_event := bool_decide (event_id create_event ∈ auth_events ev) in
  reject_if room_ids_as_hashes rv && claims_create_event ;
  reject_if negb (room_ids_as_hashes rv) && negb claims_create_event ;
  pl_here ← match power_levels_event with
            | Some pe => r ← expect (room_id pe); Ok (bool_decide (r = expected_room_id))
            | None => Ok true
            end;
  reject_if negb pl_here ;
  reject_if negb (room_ids_as_hashes rv) && negb (federate create_content)
            && bool_decide (user_server_name (sender create_event)
                            ≠ user_server_name (sender ev)) ;
  Ok true.

Definition auth_check rv ev (current_third_party_invite : option (Pdu Content))
    (fetch_state : EventType → string → option (Pdu Content)) (create_event : Pdu Content)
    : outcome Error bool :=
  if bool_decide (kind ev = RoomCreate) then auth_check_create rv ev
  else
  let power_levels_event := fetch_state RoomPowerLevels EmptyString in
  let sender_member_event := fetch_state RoomMember (sender ev) in
  create_content ← ok_or SerdeJson (from_RoomCreateContentFields (content create_event));
  reject_if bad_room_version create_content ;
  expected_room_id ← room_id_or_hash create_event;
  here ← same_room rv ev create_event create_content expected_room_id power_levels_event;
  reject_if negb here ;
  if special_case_aliases_auth rv && bool_decide (kind ev = RoomAliases)
  then Ok (bool_decide (state_key ev = Some (user_server_name (sender ev))))
  else if bool_decide (kind ev = RoomMember)
  then auth_check_member rv ev current_third_party_invite fetch_state create_event
         power_levels_event sender_member_event
  else auth_check_sent rv ev create_event create_content expected_room_id power_levels_event
         sender_member_event.
End event_auth.
