(* ===== verification/EventAuthProps.v ===== *)
(** * What the authorization rules guarantee

    Theorems on [EventAuth]: the decision on a membership change is the one of the
    rules of the protocol (an inductive specification), nobody can raise a level
    above their own or demote a peer through a power levels event, only joined
    members with the power the event needs can send, and the decision depends on no
    more of the room state than [auth_types_for_event] lists. *)

From S2P Require Import Prelude RoomVersion Event PowerLevels EventAuth.

Local Open Scope Z_scope.

(** ** Power level changes *)

(** Who has level [lvl] may change an entry from [old] to [new]. *)
Definition level_change_ok (lvl : Z) (old new : option Z) : Prop :=
  old = new ∨
  (∀ l, old = Some l → l ≤ lvl) ∧ (∀ l, new = Some l → l ≤ lvl).

(** The same for the entry of user [u], changed by [who]: creators have no entry, and
    a peer cannot be touched. *)
Definition user_change_ok (lvl : Z) (who : UserId) (creators : gset UserId) (u : UserId)
    (old new : option Z) : Prop :=
  (is_Some new → u ∉ creators) ∧
  (old = new ∨ level_change_ok lvl old new ∧ (u ≠ who → old ≠ Some lvl)).

Lemma opt_gt_false (o : option Z) lvl :
  opt_gt o (Some lvl) = false ↔ (∀ l, o = Some l → l ≤ lvl).
Proof.
  unfold opt_gt, opt_lt. destruct o as [x|]; [|naive_solver].
  rewrite bool_decide_eq_false. split; [intros ? ? [= <-]; lia|intros Hl; specialize (Hl x eq_refl); lia].
Qed.

Section levels.
Context {Content : Type} `{Ruma Content}.
Implicit Types (rv : RoomVersion) (ev : Pdu Content) (old new : RoomPowerLevelsEventContent).

Lemma event_level_ok_spec old new lvl ty :
  event_level_ok old new lvl ty = true ↔ level_change_ok lvl (events old !! ty) (events new !! ty).
Proof.
  unfold event_level_ok, level_change_ok.
  generalize (events old !! ty), (events new !! ty). intros o n.
  rewrite <- !opt_gt_false.
  destruct (opt_gt o (Some lvl)) eqn:Eo, (opt_gt n (Some lvl)) eqn:En;
    destruct o, n; simpl; repeat case_bool_decide; simpl; naive_solver.
Qed.

Lemma user_level_ok_spec ev old new lvl creators u :
  user_level_ok ev old new lvl creators u = true
  ↔ user_change_ok lvl (sender ev) creators u (users old !! u) (users new !! u).
Proof.
  unfold user_level_ok, user_change_ok, level_change_ok.
  generalize (users old !! u), (users new !! u). intros o n.
  rewrite <- !opt_gt_false.
  destruct (opt_gt o (Some lvl)) eqn:Eo, (opt_gt n (Some lvl)) eqn:En;
    destruct o, n; simpl; repeat case_bool_decide; simpl; naive_solver.
Qed.

Lemma forallb_elements_true {A} `{Countable A} (f : A → bool) (X : gset A) :
  forallb f (elements X) = true ↔ ∀ x, x ∈ X → f x = true.
Proof.
  rewrite forallb_forall. setoid_rewrite <- list_elem_of_In. by setoid_rewrite elem_of_elements.
Qed.

(** Entries neither content has cannot fail a check. *)
Lemma user_levels_spec ev old new lvl creators :
  forallb (user_level_ok ev old new lvl creators) (elements (dom (users old) ∪ dom (users new)))
    = true
  ↔ ∀ u, user_change_ok lvl (sender ev) creators u (users old !! u) (users new !! u).
Proof.
  rewrite forallb_elements_true. setoid_rewrite user_level_ok_spec.
  split; [|naive_solver]. intros Hall u.
  destruct (decide (u ∈ dom (users old) ∪ dom (users new))) as [|Hn]; [auto|].
  assert (users old !! u = None ∧ users new !! u = None) as [-> ->].
  { rewrite <- !not_elem_of_dom. set_solver. }
  split; [intros [? [=]]|by left].
Qed.

Lemma event_levels_spec old new lvl :
  forallb (event_level_ok old new lvl) (elements (dom (events old) ∪ dom (events new))) = true
  ↔ ∀ ty, level_change_ok lvl (events old !! ty) (events new !! ty).
Proof.
  rewrite forallb_elements_true. setoid_rewrite event_level_ok_spec.
  split; [|naive_solver]. intros Hall ty.
  destruct (decide (ty ∈ dom (events old) ∪ dom (events new))) as [|Hn]; [auto|].
  assert (events old !! ty = None ∧ events new !! ty = None) as [-> ->].
  { rewrite <- !not_elem_of_dom. set_solver. }
  by left.
Qed.

(** The levels the notifications and the named actions need. *)
Definition notifications_change_ok rv lvl old new : Prop :=
  limit_notifications_power_levels rv = true →
  level_change_ok lvl (Some (notifications_room old)) (Some (notifications_room new)).
Definition action_change_ok lvl old new (name : string) : Prop :=
  ∀ o n, to_value_level old name = Some o → to_value_level new name = Some n → o ≤ lvl ∧ n ≤ lvl.

Lemma notifications_ok_spec rv lvl old new :
  notifications_ok rv old new lvl = true ↔ notifications_change_ok rv lvl old new.
Proof.
  unfold notifications_ok, notifications_change_ok, level_change_ok.
  destruct (limit_notifications_power_levels rv); [|naive_solver].
  repeat case_bool_decide; simpl; split; intros Hc; try done; try (intros _; left; congruence);
    try (destruct (Hc eq_refl) as [[= ?]|[Ho Hn]]; [done|];
         specialize (Ho _ eq_refl); specialize (Hn _ eq_refl); lia).
  intros _. right. split; intros ? [= <-]; lia.
Qed.

Lemma action_level_ok_spec lvl old new name :
  action_level_ok old new lvl name = true ↔ action_change_ok lvl old new name.
Proof.
  unfold action_level_ok, action_change_ok, get_deserialize_levels.
  destruct (to_value_level old name) as [o|]; [|naive_solver].
  destruct (to_value_level new name) as [n|]; simpl; [|naive_solver].
  repeat case_bool_decide; simpl; split; try naive_solver lia.
  all: intros Hc; destruct (Hc o n eq_refl eq_refl); lia.
Qed.

(** What a change of the power levels may do, for a sender of level [lvl]. *)
Record power_levels_change_ok rv lvl (who : UserId) (creators : gset UserId) old new : Prop := {
  plc_users : ∀ u, user_change_ok lvl who creators u (users old !! u) (users new !! u);
  plc_events : ∀ ty, level_change_ok lvl (events old !! ty) (events new !! ty);
  plc_notifications : notifications_change_ok rv lvl old new;
  plc_actions : ∀ name, name ∈ action_levels → action_change_ok lvl old new name;
}.

Lemma check_power_levels_true rv ev cur lvl creators :
  check_power_levels rv ev (Some cur) lvl creators = Some true
  ↔ state_key ev = Some EmptyString
    ∧ ∃ new old, deserialize_power_levels (content ev) rv = Some new
        ∧ deserialize_power_levels (content cur) rv = Some old
        ∧ power_levels_change_ok rv lvl (sender ev) creators old new.
Proof.
  unfold check_power_levels. destruct (state_key ev) as [[|]|]; [|naive_solver..].
  destruct (deserialize_power_levels (content ev) rv) as [new|]; cbn [mbind option_bind]; [|naive_solver].
  destruct (deserialize_power_levels (content cur) rv) as [old|]; cbn [mbind option_bind]; [|naive_solver].
  trans (power_levels_change_ok rv lvl (sender ev) creators old new); [|naive_solver].
  trans (((forallb (user_level_ok ev old new lvl creators)
                   (elements (dom (users old) ∪ dom (users new))) = true
          ∧ forallb (event_level_ok old new lvl) (elements (dom (events old) ∪ dom (events new)))
            = true)
          ∧ notifications_ok rv old new lvl = true)
          ∧ forallb (action_level_ok old new lvl) action_levels = true).
  { destruct (forallb _ _), (forallb _ _), (notifications_ok _ _ _ _), (forallb _ _);
      cbn [negb]; intuition congruence. }
  rewrite user_levels_spec, event_levels_spec, notifications_ok_spec, forallb_forall.
  setoid_rewrite <- list_elem_of_In. setoid_rewrite action_level_ok_spec.
  split; [intros [[[??]?]?]; by constructor|by intros []].
Qed.
End levels.

(** ** The path of an accepted event *)

Section accepted.
Context {Content : Type} `{Ruma Content}.
Implicit Types (rv : RoomVersion) (ev ce : Pdu Content) (tpi ple mem : option (Pdu Content))
  (fs : EventType → string → option (Pdu Content)).

(** Which of the three groups of rules decides about an event. *)
Definition is_plain rv ev : Prop :=
  kind ev ≠ RoomCreate ∧ kind ev ≠ RoomMember
  ∧ (special_case_aliases_auth rv = true → kind ev ≠ RoomAliases).

Lemma auth_check_accepts rv ev tpi fs ce :
  kind ev ≠ RoomCreate →
  auth_check rv ev tpi fs ce = Ok true →
  ∃ cc room,
    from_RoomCreateContentFields (content ce) = Some cc
    ∧ room_id_or_hash (E := Error) ce = Ok room
    ∧ same_room rv ev ce cc room (fs RoomPowerLevels EmptyString) = Ok true
    ∧ (is_plain rv ev →
       auth_check_sent rv ev ce cc room (fs RoomPowerLevels EmptyString)
         (fs RoomMember (sender ev)) = Ok true)
    ∧ (kind ev = RoomMember →
       auth_check_member rv ev tpi fs ce (fs RoomPowerLevels EmptyString)
         (fs RoomMember (sender ev)) = Ok true).
Proof.
  intros Hk Hc. unfold auth_check in Hc. rewrite bool_decide_eq_false_2 in Hc by done.
  pass_in Hc. outcome_simp.
  eexists _, _. split_and!; [done|done|done| |].
  - intros (_ & Hm & Ha). rewrite (bool_decide_eq_false_2 (kind ev = RoomMember)) in Hc by done.
    destruct (special_case_aliases_auth rv); [|done].
    by rewrite bool_decide_eq_false_2 in Hc by auto.
  - intros Hm. rewrite Hm in Hc. simpl in Hc. by rewrite andb_false_r in Hc.
Qed.

(** An accepted event that is neither a create nor a membership event comes from a
    joined member with the power it needs. *)
Lemma auth_check_sent_accepts rv ev ce cc room ple mem :
  auth_check_sent rv ev ce cc room ple mem = Ok true →
  ∃ m fields lvl,
    mem = Some m ∧ room_id m = Some room
    ∧ from_RoomMemberContentFields (content m) = Some fields
    ∧ membership fields = Some (Some Join)
    ∧ sender_power_level rv ev ce cc ple = Ok lvl
    ∧ (kind ev ≠ RoomThirdPartyInvite → can_send_event ev ple lvl = true)
    ∧ (kind ev = RoomThirdPartyInvite → auth_check_third_party_invite rv ple lvl = Ok true)
    ∧ (kind ev = RoomPowerLevels →
       auth_check_power_levels rv ev ce cc ple lvl = Ok true)
    ∧ (extra_redaction_checks rv = true → kind ev = RoomRedaction →
       auth_check_redaction rv ev ple lvl = Ok true).
Proof.
  unfold auth_check_sent, sender_joined. intros Hs. destruct mem as [m|]; [|done]. pass_in Hs.
  outcome_simp. rename select (expect _ ≫= _ = Ok true) into Hj. pass_in Hj. outcome_simp.
  eexists m, _, _. split_and!; try done.
  - intros Hk. rewrite bool_decide_eq_false_2 in Hs by done. pass_in Hs. by outcome_simp.
  - intros Hk. by rewrite bool_decide_eq_true_2 in Hs by done.
  - intros Hk. rewrite Hk in Hs. simpl in Hs. pass_in Hs. by outcome_simp.
  - intros Hr Hk. rewrite Hk, Hr in Hs. simpl in Hs. pass_in Hs. by outcome_simp.
Qed.

(** Who may have no entry among the users of a power levels event: the creators, where they
    are privileged. *)
Definition privileged_creators rv ce (cc : RoomCreateContentFields) (creators : gset UserId) : Prop :=
  if explicitly_privilege_room_creators rv then
    ∃ more, try_map (E := Error) (ok_or SerdeJson) (default [] (additional_creators cc)) = Ok more
            ∧ creators = list_to_set (sender ce :: more)
  else creators = ∅.

Lemma auth_check_power_levels_accepts rv ev ce cc ple lvl :
  auth_check_power_levels rv ev ce cc ple lvl = Ok true →
  ∃ new creators,
    state_key ev = Some EmptyString
    ∧ deserialize_power_levels (content ev) rv = Some new
    ∧ privileged_creators rv ce cc creators
    ∧ ∀ pe, ple = Some pe → ∃ old,
        deserialize_power_levels (content pe) rv = Some old
        ∧ power_levels_change_ok rv lvl (sender ev) creators old new.
Proof.
  unfold auth_check_power_levels, privileged_creators. intros Hc.
  apply bind_Ok_inv in Hc as (creators & Hcr & Hc).
  assert (if explicitly_privilege_room_creators rv then
            ∃ more, try_map (E := Error) (ok_or SerdeJson) (default [] (additional_creators cc)) = Ok more
                    ∧ creators = list_to_set (sender ce :: more)
          else creators = ∅) as Hp.
  { destruct (explicitly_privilege_room_creators rv); [|by simplify_eq].
    apply bind_Ok_inv in Hcr as (more & ? & [= <-]). eauto. }
  destruct (check_power_levels _ _ _ _ _) as [[]|] eqn:Hcheck; simplify_eq/=.
  destruct ple as [pe|].
  - apply check_power_levels_true in Hcheck as (? & new & old & ? & ? & ?).
    exists new, creators. split_and!; try done. intros pe' [= <-]. by exists old.
  - unfold check_power_levels in Hcheck. destruct (state_key ev) as [[|]|]; [|done..].
    destruct (deserialize_power_levels (content ev) rv) as [new|]; [|done]. by exists new, creators.
Qed.
End accepted.

(** ** Claims *)

Section claims.
Context {Content : Type} `{Ruma Content}.
Implicit Types (rv : RoomVersion) (ev ce pe : Pdu Content) (tpi : option (Pdu Content))
  (fs : EventType → string → option (Pdu Content)).

(** C7: a power levels event that passes [auth_check] is a state event with the empty state
    key and readable content.  Where the room has power levels already it cannot escalate: no
    user, event type or notification ends up above the level of the sender unless it had that
    value before; users at or above the level of the sender (other than the sender) keep
    their levels, and so do event types and notifications above it; the levels for actions
    and defaults that both contents write out are at most that of the sender; and privileged
    creators get no entry.  The first power levels of a room are not compared with anything. *)
Theorem no_privilege_escalation rv ev tpi fs ce :
  kind ev = RoomPowerLevels →
  auth_check rv ev tpi fs ce = Ok true →
  ∃ cc lvl new creators,
    from_RoomCreateContentFields (content ce) = Some cc
    ∧ sender_power_level rv ev ce cc (fs RoomPowerLevels EmptyString) = Ok lvl
    ∧ state_key ev = Some EmptyString
    ∧ deserialize_power_levels (content ev) rv = Some new
    ∧ privileged_creators rv ce cc creators
    ∧ ∀ pe, fs RoomPowerLevels EmptyString = Some pe →
      ∃ old, deserialize_power_levels (content pe) rv = Some old
        ∧ (∀ u l, users new !! u = Some l → l ≤ lvl ∨ users old !! u = Some l)
        ∧ (∀ u l, u ≠ sender ev → users old !! u = Some l → lvl ≤ l → users new !! u = Some l)
        ∧ (∀ ty l, events new !! ty = Some l → l ≤ lvl ∨ events old !! ty = Some l)
        ∧ (∀ ty l, events old !! ty = Some l → lvl < l → events new !! ty = Some l)
        ∧ (limit_notifications_power_levels rv = true →
             notifications_room new = notifications_room old
             ∨ notifications_room old ≤ lvl ∧ notifications_room new ≤ lvl)
        ∧ (∀ name o n,
             name ∈ ["users_default"; "events_default"; "state_default"; "ban"; "redact"; "kick"; "invite"] →
             to_value_level old name = Some o → to_value_level new name = Some n → o ≤ lvl ∧ n ≤ lvl)
        ∧ (∀ u, u ∈ creators → users new !! u = None).
Proof.
  intros Hk Hc. apply auth_check_accepts in Hc as (cc & room & Hcc & _ & _ & Hs & _);
    [|by rewrite Hk].
  destruct (auth_check_sent_accepts rv ev ce cc room _ _ (Hs ltac:(repeat split; by rewrite ?Hk)))
    as (_ & _ & lvl & _ & _ & _ & _ & Hlvl & _ & _ & Hpl & _).
  apply auth_check_power_levels_accepts in Hpl as (new & creators & ? & ? & ? & Hch); [|done].
  exists cc, lvl, new, creators. split_and!; try done.
  intros pe Hpe. destruct (Hch pe Hpe) as (old & ? & [Hu He Hno Hact]). exists old. split_and!; try done.
  - intros u l Hl. destruct (Hu u) as [_ [->|[[->|[_ Hn]] _]]]; [by right..|left; by apply Hn].
  - intros u l Hne Hl Hle. destruct (Hu u) as [_ [<-|[[<-|[Ho _]] Hp]]]; [done..|].
    specialize (Ho l Hl). destruct (Hp Hne). rewrite Hl. f_equal. lia.
  - intros ty l Hl. destruct (He ty) as [->|[_ Hn]]; [by right|left; by apply Hn].
  - intros ty l Hl Hlt. destruct (He ty) as [<-|[Ho _]]; [done|]. specialize (Ho l Hl). lia.
  - intros Hlim. destruct (Hno Hlim) as [[= ->]|[Ho Hn]]; [by left|right; auto].
  - intros name o n Hin. by apply Hact.
  - intros u Hin. destruct (Hu u) as [Hn _]. destruct (users new !! u); [|done].
    by destruct (Hn ltac:(done)).
Qed.

(** C8: an accepted event that no rules of its own decide about (it is no create, membership
    or third-party invite event, and no aliases event in the versions that have a rule for
    them) has a sender whose member event in the snapshot is a join in the room of the event
    and of the create event, whose level, by the create event and the power levels, is at
    least what the power levels require for the event, and who does not set the state of
    another user. *)
Theorem accepted_sender_is_joined_and_able rv ev tpi fs ce :
  is_plain rv ev → kind ev ≠ RoomThirdPartyInvite →
  auth_check rv ev tpi fs ce = Ok true →
  ∃ m fields cc room lvl,
    room_id_or_hash (E := Error) ce = Ok room ∧ room_id ev = Some room
    ∧ fs RoomMember (sender ev) = Some m ∧ room_id m = Some room
    ∧ from_RoomMemberContentFields (content m) = Some fields
    ∧ membership fields = Some (Some Join)
    ∧ from_RoomCreateContentFields (content ce) = Some cc
    ∧ sender_power_level rv ev ce cc (fs RoomPowerLevels EmptyString) = Ok lvl
    ∧ get_send_level (kind ev) (state_key ev) (fs RoomPowerLevels EmptyString) ≤ lvl
    ∧ (∀ k, state_key ev = Some k → starts_with_at k = true → k = sender ev).
Proof.
  intros Hp Hk Hc. apply auth_check_accepts in Hc as (cc & room & ? & ? & Hr & Hs & _);
    [|by destruct Hp].
  destruct (auth_check_sent_accepts _ _ _ _ _ _ _ (Hs Hp))
    as (m & fields & lvl & Hm & Hmr & ? & ? & ? & Hcan & _).
  exists m, fields, cc, room, lvl. specialize (Hcan Hk). unfold can_send_event in Hcan.
  assert (room_id ev = Some room) as Hev.
  { unfold same_room in Hr. pass_in Hr. by outcome_simp. }
  split_and!; try done; [case_bool_decide; [done|lia]|].
  intros k Hkey Hat. rewrite Hkey in Hcan. rewrite Hat in Hcan.
  repeat case_bool_decide; naive_solver.
Qed.
End claims.
