(* ===== verification/Membership.v ===== *)
(** * The membership rules as a specification

    [membership_rule] states, one constructor per rule, when a membership event may
    change the membership of its target; the decision of [valid_membership_change] is
    proved to be exactly this relation, and consequences for [auth_check] follow. *)

From S2P Require Import Prelude RoomVersion Event PowerLevels EventAuth EventAuthProps.

Local Open Scope Z_scope.

(** ** The specification *)

Section rules.
Context {Content : Type} `{Ruma Content}.
Context (rv : RoomVersion) (x : ChangeCtx) (target who : UserId)
  (ev create : Pdu Content) (invite_event : option (Pdu Content))
  (authorised sender_creator target_creator : bool).

(** A level suffices for an action: the creator's, or one that reaches [needed]. *)
Definition may (needed : Z) : Prop :=
  sender_creator = true ∨ ∃ p, sender_power x = Some p ∧ needed ≤ p.

(** Room versions have to support a knock rule for it to admit anybody. *)
Definition admits_members : Prop :=
  join_rules x = InviteRule ∨ join_rules x = RestrictedRule
  ∨ (join_rules x = KnockRule ∧ allow_knocking rv = true)
  ∨ (join_rules x = KnockRestrictedRule ∧ knock_restricted_join_rule rv = true).
Definition admits_authorised : Prop :=
  join_rules x = RestrictedRule
  ∨ (join_rules x = KnockRestrictedRule ∧ knock_restricted_join_rule rv = true).

Abbreviation current := (target_user_current_membership x).

Inductive membership_rule : MembershipState → Prop :=
  (** the creator joins right after the create event *)
  | creator_joins :
      prev_events ev = [event_id create] → sender_creator = true → target_creator = true →
      membership_rule Join
  | joins_public :
      who = target → current ≠ Ban → join_rules x = PublicRule → membership_rule Join
  | joins_invited :
      who = target → current = Join ∨ current = Invite → admits_members → membership_rule Join
  | joins_authorised :
      who = target → current ≠ Ban → authorised = true → admits_authorised →
      membership_rule Join
  | invites :
      third_party_invite x ≫= id = None → sender_membership x = Join →
      current ≠ Join → current ≠ Ban → may (invite (power_levels x)) → membership_rule Invite
  | invites_third_party tp :
      third_party_invite x ≫= id = Some tp → current ≠ Ban →
      verify_third_party_invite (Some target) who tp invite_event = true →
      membership_rule Invite
  | leaves :
      who = target → current = Join ∨ current = Invite ∨ current = Knock → membership_rule Leave
  | kicks :
      who ≠ target → sender_membership x = Join → current ≠ Ban → current ≠ Leave →
      may (kick (power_levels x)) →
      (sender_creator = true ∨ ∀ t, target_power x = Some t → opt_lt (Some t) (sender_power x)) →
      membership_rule Leave
  | unbans :
      who ≠ target → sender_membership x = Join → current = Ban → may (ban (power_levels x)) →
      membership_rule Leave
  (** the code asks for no power when the target is not in the room *)
  | kicks_absent :
      who ≠ target → sender_membership x = Join → current = Leave → membership_rule Leave
  | bans :
      sender_membership x = Join → may (ban (power_levels x)) →
      (sender_creator = true ∨ opt_lt (target_power x) (sender_power x)) →
      membership_rule Ban
  | knocks :
      allow_knocking rv = true → who = target →
      (join_rules x = KnockRule
       ∨ join_rules x = KnockRestrictedRule ∧ knock_restricted_join_rule rv = true) →
      sender_membership x ≠ Ban → sender_membership x ≠ Invite → sender_membership x ≠ Join →
      membership_rule Knock.

Lemma has_level_may needed :
  sender_creator || has_level (sender_power x) needed = true ↔ may needed.
Proof.
  unfold has_level, may. destruct (sender_power x) as [p|], sender_creator; simpl;
    try case_bool_decide; naive_solver.
Qed.

(** The rules for joining, as one condition. *)
Lemma membership_rule_join :
  membership_rule Join
  ↔ (prev_events ev = [event_id create] ∧ sender_creator = true ∧ target_creator = true)
    ∨ (who = target ∧ current ≠ Ban
       ∧ (join_rules x = PublicRule
          ∨ (admits_members ∧ (current = Join ∨ current = Invite))
          ∨ (admits_authorised ∧ authorised = true))).
Proof.
  split.
  - inversion 1; [by left|right..]; intuition congruence.
  - intros [(? & ? & ?)|(? & ? & [?|[[? ?]|[? ?]]])];
      [by apply creator_joins|by apply joins_public|by apply joins_invited|by apply joins_authorised].
Qed.

Lemma first_join_spec :
  match prev_events ev with
  | first :: _ => bool_decide (first = event_id create)
  | [] => false
  end && match prev_events ev with _ :: _ :: _ => false | _ => true end
  && (sender_creator && target_creator) = true
  ↔ prev_events ev = [event_id create] ∧ sender_creator = true ∧ target_creator = true.
Proof.
  rewrite !andb_true_iff. destruct (prev_events ev) as [|p [|]]; simpl; [naive_solver| |naive_solver].
  rewrite bool_decide_eq_true. naive_solver.
Qed.

(** Each branch of the code decides the rules of its membership. *)
Lemma join_allowed_spec :
  join_allowed rv x target who ev create authorised sender_creator target_creator = true
  ↔ membership_rule Join.
Proof.
  rewrite membership_rule_join, <- first_join_spec. unfold join_allowed.
  destruct (_ && _ && (_ && _)); [naive_solver|].
  assert (bool_decide (current ∈ [Join; Invite]) = true ↔ current = Join ∨ current = Invite) as Hm
    by (rewrite bool_decide_eq_true; set_solver).
  destruct (decide (who = target)) as [Hw|Hw];
    [rewrite (bool_decide_eq_false_2 (who ≠ target)) by congruence
    |rewrite (bool_decide_eq_true_2 (who ≠ target)) by done; intuition congruence].
  destruct (decide (current = Ban)) as [Hb|Hb];
    [rewrite (bool_decide_eq_true_2 (current = Ban)) by done; intuition congruence
    |rewrite (bool_decide_eq_false_2 (current = Ban)) by done].
  unfold admits_members, admits_authorised.
  destruct (bool_decide (current ∈ [Join; Invite])), (join_rules x), (allow_knocking rv),
    (knock_restricted_join_rule rv), authorised; simpl; intuition congruence.
Qed.

Lemma invite_allowed_spec :
  invite_allowed x target who invite_event sender_creator = true ↔ membership_rule Invite.
Proof.
  unfold invite_allowed, sender_is_joined. split.
  - destruct (third_party_invite x ≫= id) as [tp|] eqn:Htp; repeat case_bool_decide; try done.
    + intros. by eapply invites_third_party.
    + simpl. rewrite has_level_may. apply invites; set_solver.
  - inversion 1 as [| | | |Htp Hj Hnj Hnb Hm|tp Htp Hnb Hv| | | | | |]; rewrite Htp.
    + rewrite (bool_decide_eq_true_2 (sender_membership x = Join)) by done.
      rewrite bool_decide_eq_false_2 by set_solver. by apply has_level_may.
    + by rewrite bool_decide_eq_false_2.
Qed.

(** Outranking the target, when the target has a level of its own. *)
Definition outranks : Prop :=
  sender_creator = true ∨ ∀ t, target_power x = Some t → opt_lt (Some t) (sender_power x).

Lemma membership_rule_leave :
  membership_rule Leave
  ↔ (who = target ∧ (current = Join ∨ current = Invite ∨ current = Knock))
    ∨ (who ≠ target ∧ sender_membership x = Join
       ∧ (current = Leave ∨ (current = Ban ∧ may (ban (power_levels x)))
          ∨ (current ≠ Ban ∧ current ≠ Leave ∧ may (kick (power_levels x)) ∧ outranks))).
Proof.
  unfold outranks. split.
  - inversion 1; [by left|right..]; tauto.
  - intros [[? ?]|(? & ? & [?|[[? ?]|(? & ? & ? & ?)]])];
      [by apply leaves|by apply kicks_absent|by apply unbans|by apply kicks].
Qed.

Lemma can_kick_spec :
  (if sender_creator then true
   else if negb (has_level (sender_power x) (kick (power_levels x))) then false
   else match sender_power x with
        | Some sp => match target_power x with Some tp => bool_decide (tp < sp) | None => true end
        | None => false
        end) = true
  ↔ may (kick (power_levels x)) ∧ outranks.
Proof.
  rewrite <- has_level_may. unfold outranks, has_level, opt_lt.
  destruct sender_creator; [naive_solver|].
  destruct (sender_power x) as [sp|], (target_power x) as [tp|]; simpl;
    repeat case_bool_decide; simpl; naive_solver.
Qed.

Lemma leave_allowed_spec : leave_allowed x target who sender_creator = true ↔ membership_rule Leave.
Proof.
  rewrite membership_rule_leave, <- can_kick_spec, <- has_level_may.
  unfold leave_allowed, sender_is_joined.
  set (ck := if sender_creator then true else _). set (cu := sender_creator || _).
  clearbody ck cu. by_test (who = target); [|by_test (sender_membership x = Join)];
    destruct current, ck, cu; vm_compute; intuition congruence.
Qed.

Lemma ban_allowed_spec : ban_allowed x sender_creator = true ↔ membership_rule Ban.
Proof.
  unfold ban_allowed, sender_is_joined. split.
  - case_bool_decide; [simpl|done]. intros Hb. apply bans; [done|apply has_level_may|];
      destruct sender_creator, (has_level _ _), (opt_lt _ _); naive_solver.
  - inversion 1 as [| | | | | | | | | |Hj Hm Hp|]. rewrite bool_decide_eq_true_2 by done. simpl.
    rewrite <- has_level_may in Hm.
    destruct sender_creator, (has_level _ _), (opt_lt _ _); naive_solver.
Qed.

Lemma knock_allowed_spec :
  (if allow_knocking rv then knock_allowed rv x target who else false) = true
  ↔ membership_rule Knock.
Proof.
  trans (allow_knocking rv = true ∧ who = target
         ∧ (join_rules x = KnockRule
            ∨ join_rules x = KnockRestrictedRule ∧ knock_restricted_join_rule rv = true)
         ∧ bool_decide (sender_membership x ∈ [Ban; Invite; Join]) = false).
  - unfold knock_allowed. destruct (allow_knocking rv); [|intuition congruence].
    generalize (bool_decide (sender_membership x ∈ [Ban; Invite; Join])).
    destruct (decide (who = target)) as [Hw|Hw];
      [rewrite (bool_decide_eq_false_2 (who ≠ target)) by congruence
      |rewrite (bool_decide_eq_true_2 (who ≠ target)) by done];
      destruct (join_rules x), (knock_restricted_join_rule rv); intros [];
      vm_compute; intuition congruence.
  - rewrite bool_decide_eq_false. split; [intros (? & ? & ? & ?); apply knocks; set_solver|].
    inversion 1; split_and!; set_solver.
Qed.
End rules.

(** ** The decision of the code *)

Section decision.
Context {Content : Type} `{Ruma Content}.
Implicit Types (rv : RoomVersion) (ev ce : Pdu Content) (tpi ple jre tme sme : option (Pdu Content))
  (fs : EventType → string → option (Pdu Content)).

Lemma valid_membership_change_rules rv target tme who sme ev tpi ple jre uja ujam ce b :
  valid_membership_change rv target tme who sme ev tpi ple jre uja ujam ce = Ok b →
  ∃ x authorised sc tc,
    change_ctx rv target tme who sme ev ple jre ce = Ok x
    ∧ user_for_join_auth_is_valid rv x ce ple uja ujam = Ok authorised
    ∧ is_creator rv (room_creators x) ce who (bool_decide (is_Some ple)) = Ok sc
    ∧ is_creator rv (room_creators x) ce target (bool_decide (is_Some ple)) = Ok tc
    ∧ (b = true ↔ membership_rule rv x target who ev ce tpi authorised sc tc (target_membership x)).
Proof.
  unfold valid_membership_change. intros Hv. pass_in Hv. simplify_eq Hv. intros <-.
  eexists _, _, _, _. split_and!; [done..|].
  match goal with |- context [target_membership ?y] => destruct (target_membership y) end.
  - apply ban_allowed_spec.
  - apply invite_allowed_spec.
  - apply join_allowed_spec.
  - apply knock_allowed_spec.
  - apply leave_allowed_spec.
  - split; [done|by inversion 1].
Qed.

(** C10: the decision of [valid_membership_change], when it reaches one, is the one of
    the membership rules: joining, inviting, leaving, kicking, banning, unbanning and
    knocking are allowed exactly in the cases [membership_rule] lists. *)
Theorem valid_membership_change_spec rv target tme who sme ev tpi ple jre uja ujam ce b :
  valid_membership_change rv target tme who sme ev tpi ple jre uja ujam ce = Ok b →
  ∃ x authorised sc tc,
    change_ctx rv target tme who sme ev ple jre ce = Ok x
    ∧ user_for_join_auth_is_valid rv x ce ple uja ujam = Ok authorised
    ∧ is_creator rv (room_creators x) ce who (bool_decide (is_Some ple)) = Ok sc
    ∧ is_creator rv (room_creators x) ce target (bool_decide (is_Some ple)) = Ok tc
    ∧ (b = true ↔ membership_rule rv x target who ev ce tpi authorised sc tc (target_membership x)).
Proof. apply valid_membership_change_rules. Qed.

(** What the context of a change says about the snapshot. *)
Lemma change_ctx_Ok rv target tme who sme ev ple jre ce x :
  change_ctx rv target tme who sme ev ple jre ce = Ok x →
  from_GetMembership (content ev) = Some (target_membership x)
  ∧ membership_of sme = Ok (sender_membership x)
  ∧ membership_of tme = Ok (target_user_current_membership x).
Proof. unfold change_ctx. intros Hx. pass_in Hx. outcome_simp. done. Qed.

Lemma auth_check_member_accepts rv ev tpi fs ce :
  kind ev = RoomMember →
  auth_check rv ev tpi fs ce = Ok true →
  ∃ key target x authorised sc tc,
    state_key ev = Some key ∧ user_id_try_from key = inl target
    ∧ change_ctx rv target (fs RoomMember target) (sender ev) (fs RoomMember (sender ev)) ev
        (fs RoomPowerLevels EmptyString) (fs RoomJoinRules EmptyString) ce = Ok x
    ∧ membership_rule rv x target (sender ev) ev ce tpi authorised sc tc (target_membership x).
Proof.
  intros Hk Hc. apply auth_check_accepts in Hc as (cc & room & _ & _ & _ & _ & Hm); [|by rewrite Hk].
  specialize (Hm Hk). unfold auth_check_member in Hm. destruct (state_key ev) as [key|]; [|done].
  pass_in Hm. destruct (user_id_try_from key) as [target|] eqn:Ht; outcome_simp.
  rename select (valid_membership_change _ _ _ _ _ _ _ _ _ _ _ _ = _) into Hv.
  apply valid_membership_change_rules in Hv as (y & a & sc & tc & Hx & _ & _ & _ & Hr).
  eexists key, _, y, a, sc, tc. split_and!; try done. by apply Hr.
Qed.

(** A user whose member event in the snapshot is a ban cannot join or be invited,
    whatever the join rules: [auth_check] accepts no such event, except the join of the
    creator directly after the create event. *)
Theorem banned_user_stays_out rv ev tpi fs ce key u m :
  kind ev = RoomMember →
  state_key ev = Some key → user_id_try_from key = inl u →
  fs RoomMember u = Some m → from_GetMembership (content m) = Some Ban →
  from_GetMembership (content ev) = Some Join ∨ from_GetMembership (content ev) = Some Invite →
  prev_events ev ≠ [event_id ce] →
  auth_check rv ev tpi fs ce ≠ Ok true.
Proof.
  intros Hk Hkey Hu Hm Hb Hmem Hprev Hc.
  apply auth_check_member_accepts in Hc as (key' & u' & x & a & sc & tc & ? & ? & Hx & Hr); [|done].
  simplify_eq. assert (u' = u) as -> by congruence. apply change_ctx_Ok in Hx as (Hnew & _ & Hcur).
  rewrite Hm in Hcur. simpl in Hcur. rewrite Hb in Hcur. injection Hcur as Hcur.
  destruct Hmem as [He|He]; rewrite He in Hnew; injection Hnew as Hnew; rewrite <- Hnew in Hr;
    inversion Hr; try congruence. naive_solver congruence.
Qed.

(** Only a joined member bans or kicks: a ban, or a leave set for somebody else,
    that [auth_check] accepts has a sender whose member event in the snapshot is a join. *)
Theorem ban_and_kick_need_membership rv ev tpi fs ce key u :
  kind ev = RoomMember →
  state_key ev = Some key → user_id_try_from key = inl u →
  from_GetMembership (content ev) = Some Ban
  ∨ (from_GetMembership (content ev) = Some Leave ∧ sender ev ≠ u) →
  auth_check rv ev tpi fs ce = Ok true →
  ∃ m, fs RoomMember (sender ev) = Some m ∧ from_GetMembership (content m) = Some Join.
Proof.
  intros Hk Hkey Hu Hmem Hc.
  apply auth_check_member_accepts in Hc as (key' & u' & x & a & sc & tc & ? & ? & Hx & Hr); [|done].
  simplify_eq. assert (u' = u) as -> by congruence. apply change_ctx_Ok in Hx as (Hnew & Hs & _).
  assert (sender_membership x = Join) as Hj.
  { destruct Hmem as [He|[He ?]]; rewrite He in Hnew; injection Hnew as Hnew; rewrite <- Hnew in Hr;
      by inversion Hr. }
  rewrite Hj in Hs. destruct (fs RoomMember (sender ev)) as [m|]; [|done]. simpl in Hs.
  exists m. by outcome_simp.
Qed.
End decision.
