(* ===== verification/AuthContext.v ===== *)
(** * What an authorization decision depends on

    [auth_check] is run on a state snapshot.  Its result depends on no more of the
    snapshot than the keys [auth_types_for_event] lists, so selecting these keys
    before the call is enough; and it does not panic on events of the shape the
    server stores. *)

From S2P Require Import Prelude RoomVersion Event PowerLevels EventAuth EventAuthProps.

Local Open Scope Z_scope.

(** The decoders read the same JSON: fields of the same name agree, and a valid user
    id is its own text. *)
Class RumaLaws (Content : Type) `{Ruma Content} := {
  user_id_text k u : user_id_try_from k = inl u → u = k;
  member_fields_agree c f g :
    from_RoomMemberContentFields c = Some f → from_AuthTypesMemberFields c = Some g →
    at_membership g = membership f
    ∧ at_join_authorised_via_users_server g = join_authorised_via_users_server f;
}.

(** ** The listed keys *)

Lemma elem_of_push_unique {A} `{EqDecision A} (x y : A) l :
  x ∈ push_unique y l ↔ x = y ∨ x ∈ l.
Proof. unfold push_unique. case_bool_decide; set_solver. Qed.

Lemma NoDup_push_unique {A} `{EqDecision A} (x : A) l : NoDup l → NoDup (push_unique x l).
Proof.
  unfold push_unique. intros. case_bool_decide; [done|]. rewrite NoDup_app.
  split_and!; [done|set_solver|apply NoDup_singleton].
Qed.
#[export] Hint Resolve NoDup_push_unique : srv.

Section reads.
Context {Content : Type} `{RumaLaws Content}.
Implicit Types (rv : RoomVersion) (ev ce : Pdu Content) (tpi : option (Pdu Content))
  (fs : EventType → string → option (Pdu Content)).

Lemma member_auth_types_base fields key types tk :
  tk ∈ types → tk ∈ member_auth_types fields key types.
Proof.
  intros Hin. unfold member_auth_types.
  repeat case_match; rewrite ?elem_of_push_unique; auto.
Qed.

Lemma member_auth_types_NoDup fields key types :
  NoDup types → NoDup (member_auth_types fields key types).
Proof. intros Hnd. unfold member_auth_types. repeat case_match; auto with srv. Qed.

(** What the list has for a join, an invite or a knock. *)
Lemma member_auth_types_entering fields key types m :
  at_membership fields = Some (Some m) → m ∈ [Join; Invite; Knock] →
  (RoomJoinRules, EmptyString) ∈ member_auth_types fields key types
  ∧ (RoomMember, key) ∈ member_auth_types fields key types
  ∧ ∀ u, at_join_authorised_via_users_server fields = Some (Some u) →
      (RoomMember, u) ∈ member_auth_types fields key types.
Proof.
  intros Hm Hin. unfold member_auth_types. rewrite Hm.
  rewrite (bool_decide_eq_true_2 (m ∈ _)) by done.
  split_and!; [..|intros u ->]; repeat case_match; rewrite ?elem_of_push_unique; auto.
Qed.

Lemma auth_types_base rv ev types :
  kind ev ≠ RoomCreate →
  auth_types_for_event (kind ev) (sender ev) (state_key ev) (content ev) rv = Ok types →
  (RoomPowerLevels, EmptyString) ∈ types ∧ (RoomMember, sender ev) ∈ types.
Proof.
  unfold auth_types_for_event. intros Hk. rewrite bool_decide_eq_false_2 by done.
  set (base := if room_ids_as_hashes rv then _ else _).
  assert ((RoomPowerLevels, EmptyString) ∈ base ∧ (RoomMember, sender ev) ∈ base) as [? ?]
    by (unfold base; case_match; set_solver).
  clearbody base. case_bool_decide; [|naive_solver]. destruct (state_key ev); [|naive_solver].
  intros (fields & _ & [= <-])%bind_Ok_inv. auto using member_auth_types_base.
Qed.

Lemma auth_types_entering rv ev types f m key :
  kind ev = RoomMember → state_key ev = Some key →
  auth_types_for_event (kind ev) (sender ev) (state_key ev) (content ev) rv = Ok types →
  from_RoomMemberContentFields (content ev) = Some f →
  membership f = Some (Some m) → m ∈ [Join; Invite; Knock] →
  (RoomJoinRules, EmptyString) ∈ types ∧ (RoomMember, key) ∈ types
  ∧ ∀ u, join_authorised_via_users_server f = Some (Some u) → (RoomMember, u) ∈ types.
Proof.
  unfold auth_types_for_event. intros -> -> Ht Hf Hm Hin. simpl in Ht.
  apply bind_Ok_inv in Ht as (g & Hg & [= <-]). apply ok_or_Ok in Hg.
  destruct (member_fields_agree _ _ _ Hf Hg) as [Hag Haj]. rewrite <- Hag in Hm.
  rewrite <- Haj. by eapply member_auth_types_entering.
Qed.

(** [auth_check] reads the snapshot only at the keys of [auth_types_for_event]: two
    snapshots that agree on these keys give the same decision, error or panic.  For a
    membership event this is a join, an invite or a knock. *)
Theorem auth_check_reads_auth_types rv ev tpi fs1 fs2 ce types :
  auth_types_for_event (kind ev) (sender ev) (state_key ev) (content ev) rv = Ok types →
  (∀ ty k, (ty, k) ∈ types → fs1 ty k = fs2 ty k) →
  (∀ f m, kind ev = RoomMember → from_RoomMemberContentFields (content ev) = Some f →
          membership f = Some (Some m) → m ∈ [Join; Invite; Knock]) →
  auth_check rv ev tpi fs1 ce = auth_check rv ev tpi fs2 ce.
Proof.
  intros Ht Hag Hent. unfold auth_check. case_bool_decide as Hk; [done|].
  destruct (auth_types_base rv ev types Hk Ht) as [Hpl Hsm].
  rewrite (Hag _ _ Hpl), (Hag _ _ Hsm).
  destruct (ok_or _ _); simpl; [|done..]. case_match; [done|].
  destruct (room_id_or_hash _); simpl; [|done..].
  destruct (same_room _ _ _ _ _ _); simpl; [|done..]. case_match; [done|].
  destruct (special_case_aliases_auth rv && _); [done|].
  case_bool_decide as Hm; [|done].
  unfold auth_check_member. destruct (state_key ev) as [key|] eqn:Hkey; [|done].
  destruct (from_RoomMemberContentFields (content ev)) as [f|] eqn:Hf; simpl; [|done].
  destruct (membership f) as [[m|]|] eqn:Hmf; [|done..]. simpl.
  destruct (user_id_try_from key) as [u|e] eqn:Hu; simpl; [|done].
  apply user_id_text in Hu as ->. rewrite <- Hkey in Ht.
  destruct (auth_types_entering rv ev types f m key Hm Hkey Ht Hf Hmf (Hent f m Hm eq_refl Hmf))
    as (Hjr & Hkm & Hja).
  rewrite (Hag _ _ Hjr), (Hag _ _ Hkm).
  destruct (join_authorised_via_users_server f) as [[u|]|]; simpl; [|done..].
  by rewrite (Hag _ _ (Hja u eq_refl)).
Qed.

(** The list has no duplicates; it has the create event exactly in the room versions
    whose room ids are not hashes. *)
Theorem auth_types_listed_once rv ev types :
  auth_types_for_event (kind ev) (sender ev) (state_key ev) (content ev) rv = Ok types →
  NoDup types ∧ (kind ev ≠ RoomCreate →
                 ((RoomCreate, EmptyString) ∈ types ↔ room_ids_as_hashes rv = false)).
Proof.
  unfold auth_types_for_event. case_bool_decide as Hk; [by intros [= <-]; split; [constructor|]|].
  set (base := if room_ids_as_hashes rv then _ else _).
  assert (NoDup base ∧ ((RoomCreate, EmptyString) ∈ base ↔ room_ids_as_hashes rv = false)) as [Hnd Hcr].
  { unfold base. case_match; split; try set_solver; repeat constructor; set_solver. }
  clearbody base. case_bool_decide; [|naive_solver]. destruct (state_key ev) as [key|]; [|naive_solver].
  intros (fields & _ & [= <-])%bind_Ok_inv. split; [by apply member_auth_types_NoDup|].
  intros _. rewrite <- Hcr. split; [|by apply member_auth_types_base].
  unfold member_auth_types. repeat case_match; rewrite ?elem_of_push_unique; naive_solver.
Qed.
End reads.

(** ** Absence of panics *)

Section no_panic.
Context {Content : Type} `{Ruma Content}.
Implicit Types (rv : RoomVersion) (ev ce : Pdu Content) (tpi ple : option (Pdu Content))
  (fs : EventType → string → option (Pdu Content)).

(** The create event names its creator where the room version needs it. *)
Definition creator_known rv ce : Prop :=
  use_room_create_sender rv = false →
  ∃ u, from_RoomCreateEventContent (content ce) = Some (Some u).

Lemma is_creator_no_panic rv cs ce u b : creator_known rv ce → is_creator rv cs ce u b ≠ Panic.
Proof.
  unfold is_creator. intros Hc. destruct (use_room_create_sender rv) eqn:Hu; simpl.
  - destruct b; simpl; repeat case_match; discriminate.
  - destruct (Hc ltac:(done)) as [c Hcc]. rewrite Hcc. simpl. repeat case_match; discriminate.
Qed.

Lemma sender_power_level_no_panic rv ev ce cc ple :
  creator_known rv ce → sender_power_level rv ev ce cc ple ≠ Panic.
Proof.
  unfold sender_power_level, creator_known, deserialize_power_levels_content_fields. intros Hc.
  destruct ple as [pl|].
  - no_panic.
  - destruct (use_room_create_sender rv) eqn:Hu; [no_panic|].
    destruct (Hc ltac:(done)) as [c Hcc]. rewrite Hcc. no_panic.
Qed.

Lemma membership_of_no_panic (e : option (Pdu Content)) : membership_of e ≠ Panic.
Proof. unfold membership_of. no_panic. Qed.
Hint Resolve is_creator_no_panic sender_power_level_no_panic membership_of_no_panic : srv.

Lemma change_ctx_no_panic rv target tme who sme ev ple jre ce :
  change_ctx rv target tme who sme ev ple jre ce ≠ Panic.
Proof. unfold change_ctx. no_panic. Qed.

Lemma user_for_join_auth_no_panic rv x ce ple u m :
  creator_known rv ce → user_for_join_auth_is_valid rv x ce ple u m ≠ Panic.
Proof.
  intros Hc. unfold user_for_join_auth_is_valid, deserialize_power_levels_content_invite,
    deserialize_power_levels_content_fields. no_panic.
Qed.
Hint Resolve change_ctx_no_panic user_for_join_auth_no_panic : srv.

Lemma auth_check_member_no_panic rv ev tpi fs ce ple sme :
  creator_known rv ce → auth_check_member rv ev tpi fs ce ple sme ≠ Panic.
Proof. intros Hc. unfold auth_check_member, valid_membership_change. no_panic. Qed.

Lemma try_map_no_panic {E A B} (f : A → outcome E B) l :
  (∀ a, f a ≠ Panic) → try_map f l ≠ Panic.
Proof. intros Hf. induction l; simpl; no_panic. Qed.

Lemma auth_check_sent_no_panic rv ev ce cc room ple sme :
  creator_known rv ce →
  (∀ m, sme = Some m → is_Some (room_id m)) →
  auth_check_sent rv ev ce cc room ple sme ≠ Panic.
Proof.
  intros Hc Hm. unfold auth_check_sent, sender_joined, auth_check_third_party_invite,
    auth_check_power_levels, auth_check_redaction, check_redaction,
    deserialize_power_levels_content_invite, deserialize_power_levels_content_redact.
  pose proof (sender_power_level_no_panic rv ev ce cc ple Hc).
  no_panic; apply try_map_no_panic; auto with srv.
Qed.

(** [auth_check] does not panic when the event and the events it is checked against
    have a room id and the create event names its creator in the room versions that
    take the creator from its content. *)
Theorem auth_check_no_panic rv ev tpi fs ce :
  is_Some (room_id ev) →
  (∀ ty k e, fs ty k = Some e → is_Some (room_id e)) →
  room_id_or_hash (E := Error) ce ≠ Panic →
  creator_known rv ce →
  auth_check rv ev tpi fs ce ≠ Panic.
Proof.
  intros Hr Hfs Hce Hc. unfold auth_check, auth_check_create, same_room.
  pose proof (auth_check_member_no_panic rv ev tpi fs ce) as Hmem.
  pose proof (λ cc room ple, auth_check_sent_no_panic rv ev ce cc room ple
                (fs RoomMember (sender ev)) Hc (Hfs _ _)) as Hsent.
  no_panic.
Qed.
End no_panic.
