(* ===== verification/AuthDemo.v ===== *)
(** * A concrete room

    An instance of [Ruma] whose contents are records of the decoded fields, a small
    room built with it, and the theorems on authorization applied to that room. *)

From S2P Require Import Prelude RoomVersion Event PowerLevels EventAuth.
From S2P Require Import EventAuthProps Membership AuthContext.

Local Open Scope Z_scope.

(** ** Contents as records of their fields *)

Record DemoContent := mkDemo {
  d_membership : option MembershipState;
  d_join_auth : option UserId;
  d_create : option RoomCreateContentFields;
  d_creator : option (option UserId);
  d_join_rule : option JoinRule;
  d_levels : option RoomPowerLevelsEventContent;
}.

Definition demo_level (pl : RoomPowerLevelsEventContent) (name : string) : option Z :=
  if bool_decide (name = "users_default") then Some (users_default pl)
  else if bool_decide (name = "events_default") then Some (events_default pl)
  else if bool_decide (name = "state_default") then Some (state_default pl)
  else if bool_decide (name = "ban") then Some (ban pl)
  else if bool_decide (name = "redact") then Some (redact pl)
  else if bool_decide (name = "kick") then Some (kick pl)
  else if bool_decide (name = "invite") then Some (invite pl)
  else None.

Definition user_le (x y : UserId * Z) : Prop := String.leb x.1 y.1 = true.
#[export] Instance user_le_dec x y : Decision (user_le x y).
Proof. unfold user_le. apply _. Defined.

(** Users of the room levels as the sorted vector [power_levels.rs] decodes. *)
Definition demo_fields (pl : RoomPowerLevelsEventContent) : PowerLevelsContentFields :=
  {| plf_users := merge_sort user_le (map_to_list (users pl));
     plf_users_default := users_default pl |}.

Definition demo_default : RoomPowerLevelsEventContent :=
  {| ban := 50; events := ∅; events_default := 0; invite := 0; kick := 50; redact := 50;
     state_default := 50; users := ∅; users_default := 0; notifications_room := 50 |}.

Definition demo_server (s : string) : string :=
  match String.index 0 ":" s with
  | Some n => String.substring (S n) (String.length s) s
  | None => EmptyString
  end.

#[export] Instance demo_ruma : Ruma DemoContent := {
  from_GetMembership c := d_membership c;
  from_RoomMemberContentFields c :=
    Some (mkMemberFields (Some <$> d_membership c) (Some <$> d_join_auth c));
  from_AuthTypesMemberFields c :=
    Some (mkAuthTypesFields (Some <$> d_membership c) None (Some <$> d_join_auth c));
  from_GetThirdPartyInvite c := Some None;
  from_RoomCreateContentFields c := d_create c;
  from_RoomCreateEventContent c := d_creator c;
  from_RoomMemberEventContent c := d_membership c;
  from_RoomJoinRulesEventContent c := d_join_rule c;
  from_RoomThirdPartyInviteEventContent c := None;
  from_RoomPowerLevelsEventContent c := d_levels c;
  from_IntRoomPowerLevelsEventContent c := d_levels c;
  from_PowerLevelsContentFields c := demo_fields <$> d_levels c;
  from_IntPowerLevelsContentFields c := demo_fields <$> d_levels c;
  from_PowerLevelsContentInvite c := invite <$> d_levels c;
  from_IntPowerLevelsContentInvite c := invite <$> d_levels c;
  from_PowerLevelsContentRedact c := redact <$> d_levels c;
  from_IntPowerLevelsContentRedact c := redact <$> d_levels c;
  to_value_level := demo_level;
  default_power_levels := demo_default;
  base64_parse s := Some s;
  user_id_try_from s := if starts_with_at s then inl s else inr "invalid user id";
  event_id_parse s := inl s;
  room_id_parse s := Some s;
  user_server_name := demo_server;
  room_server_name r := Some (demo_server r);
  event_server_name e := Some (demo_server e);
}.

#[export] Instance demo_laws : RumaLaws DemoContent.
Proof.
  split.
  - intros k u. cbn. case_match; naive_solver.
  - intros c f g [= <-] [= <-]. done.
Qed.

(** ** The room *)

Definition no_content : DemoContent := mkDemo None None None None None None.
Definition member_content (m : MembershipState) : DemoContent :=
  mkDemo (Some m) None None None None None.
Definition levels_content (pl : RoomPowerLevelsEventContent) : DemoContent :=
  mkDemo None None None None None (Some pl).

Definition demo_pdu (id who : string) (ty : EventType) (key : option string) (c : DemoContent)
    (prev auth : list string) : Pdu DemoContent :=
  {| event_id := id; room_id := Some "!r:a"; sender := who; origin := None; origin_server_ts := 0; kind := ty;
     content := c; state_key := key; prev_events := prev; depth := 1;
     auth_events := auth; redacts := None; unsigned := None; hashes := mkEventHash EmptyString;
     signatures := None |}.

Definition create : Pdu DemoContent :=
  demo_pdu "$create" "@alice:a" RoomCreate (Some EmptyString)
    (mkDemo None None (Some (mkCreateFields None (Some tt) None true)) (Some (Some "@alice:a")) None None)
    [] [].

Definition levels : RoomPowerLevelsEventContent :=
  {| ban := 50; events := ∅; events_default := 0; invite := 0; kick := 50; redact := 50;
     state_default := 50; users := {["@alice:a" := 100; "@bob:a" := 50]}; users_default := 0;
     notifications_room := 50 |}.
Definition levels_event : Pdu DemoContent :=
  demo_pdu "$levels" "@alice:a" RoomPowerLevels (Some EmptyString) (levels_content levels)
    ["$create"] ["$create"].
Definition member_event (u : string) (m : MembershipState) : Pdu DemoContent :=
  demo_pdu ("$member" +:+ u) u RoomMember (Some u) (member_content m) ["$levels"] ["$create"].

Definition snapshot (ty : EventType) (key : string) : option (Pdu DemoContent) :=
  match ty with
  | RoomPowerLevels => Some levels_event
  | RoomMember =>
      if bool_decide (key = "@mallory:a") then Some (member_event key Ban)
      else if bool_decide (key ∈ ["@alice:a"; "@bob:a"; "@carol:a"])
           then Some (member_event key Join) else None
  | _ => None
  end.

(** Bob, at level 50, gives Carol level 50. *)
Definition promote_carol : Pdu DemoContent :=
  demo_pdu "$promote" "@bob:a" RoomPowerLevels (Some EmptyString)
    (levels_content {| ban := 50; events := ∅; events_default := 0; invite := 0; kick := 50;
       redact := 50; state_default := 50;
       users := {["@alice:a" := 100; "@bob:a" := 50; "@carol:a" := 50]}; users_default := 0;
       notifications_room := 50 |})
    ["$levels"] ["$create"].

(** ** The theorems at this room *)

Lemma no_privilege_escalation_witness :
  auth_check RV10 promote_carol None snapshot create = Ok true
  ∧ ∃ lvl old new,
      deserialize_power_levels (content levels_event) RV10 = Some old
      ∧ deserialize_power_levels (content promote_carol) RV10 = Some new
      ∧ (∀ u l, users new !! u = Some l → l ≤ lvl ∨ users old !! u = Some l).
Proof.
  split; [by vm_compute|].
  destruct (no_privilege_escalation RV10 promote_carol None snapshot create)
    as (cc & lvl & new & creators & _ & _ & _ & Hn & _ & Hpe); [by vm_compute..|].
  destruct (Hpe levels_event) as (old & Ho & Hu & _); [done|].
  exists lvl, old, new. by split_and!.
Defined.

Definition message (who : string) : Pdu DemoContent :=
  demo_pdu "$message" who (OtherType "m.room.message") None no_content ["$levels"] ["$create"].

Lemma accepted_sender_is_joined_and_able_witness :
  auth_check RV10 (message "@carol:a") None snapshot create = Ok true
  ∧ ∃ m room, snapshot RoomMember "@carol:a" = Some m ∧ room_id m = Some room
              ∧ room_id (message "@carol:a") = Some room.
Proof.
  split; [by vm_compute|].
  destruct (accepted_sender_is_joined_and_able RV10 (message "@carol:a") None snapshot create)
    as (m & _ & _ & room & _ & _ & He & Hm & Hr & _).
  - by vm_compute.
  - by vm_compute.
  - by vm_compute.
  - exists m, room. by rewrite <- Hm.
Defined.

(** Membership events of the room. *)
Definition change (who target : string) (m : MembershipState) : Pdu DemoContent :=
  demo_pdu "$change" who RoomMember (Some target) (member_content m) ["$levels"] ["$create"].

Lemma valid_membership_change_spec_witness :
  ∃ x authorised sc tc,
    membership_rule RV10 x "@carol:a" "@alice:a" (change "@alice:a" "@carol:a" Ban) create None
      authorised sc tc (target_membership x).
Proof.
  destruct (valid_membership_change_spec RV10 "@carol:a" (snapshot RoomMember "@carol:a") "@alice:a"
    (snapshot RoomMember "@alice:a") (change "@alice:a" "@carol:a" Ban) None
    (snapshot RoomPowerLevels EmptyString) None None Leave create true)
    as (x & a & sc & tc & _ & _ & _ & _ & Hr); [by vm_compute|].
  exists x, a, sc, tc. by apply Hr.
Defined.

Lemma banned_user_stays_out_witness :
  auth_check RV10 (change "@mallory:a" "@mallory:a" Join) None snapshot create ≠ Ok true.
Proof.
  apply (banned_user_stays_out RV10 (change "@mallory:a" "@mallory:a" Join) None snapshot create
    "@mallory:a" "@mallory:a" (member_event "@mallory:a" Ban)); try by vm_compute.
  by left.
Defined.

Lemma ban_and_kick_need_membership_witness :
  auth_check RV10 (change "@alice:a" "@carol:a" Ban) None snapshot create = Ok true
  ∧ ∃ m, snapshot RoomMember "@alice:a" = Some m.
Proof.
  split; [by vm_compute|].
  destruct (ban_and_kick_need_membership RV10 (change "@alice:a" "@carol:a" Ban) None snapshot create
    "@carol:a" "@carol:a") as (m & Hm & _); [done|done|done|by left|by vm_compute|].
  by exists m.
Defined.

(** The snapshot restricted to the keys listed for a message of Carol. *)
Definition snapshot_carol (ty : EventType) (key : string) : option (Pdu DemoContent) :=
  match ty with
  | RoomPowerLevels => Some levels_event
  | RoomMember => if bool_decide (key = "@carol:a") then Some (member_event key Join) else None
  | _ => None
  end.

Lemma auth_check_reads_auth_types_witness :
  auth_check RV10 (message "@carol:a") None snapshot create
  = auth_check RV10 (message "@carol:a") None snapshot_carol create.
Proof.
  apply (auth_check_reads_auth_types RV10 (message "@carol:a") None snapshot snapshot_carol create
    [(RoomPowerLevels, EmptyString); (RoomMember, "@carol:a"); (RoomCreate, EmptyString)]).
  - by vm_compute.
  - intros ty k Hin. repeat (apply elem_of_cons in Hin as [[= -> ->]|Hin]; [by vm_compute|]).
    by apply not_elem_of_nil in Hin.
  - done.
Defined.

Lemma auth_types_listed_once_witness :
  NoDup [(RoomPowerLevels, EmptyString); (RoomMember, "@carol:a"); (RoomCreate, EmptyString)].
Proof.
  apply (auth_types_listed_once RV10 (message "@carol:a")). by vm_compute.
Defined.

Lemma auth_check_no_panic_witness :
  auth_check RV10 (message "@carol:a") None snapshot create ≠ Panic.
Proof.
  apply auth_check_no_panic.
  - by exists "!r:a".
  - intros ty k e. unfold snapshot. repeat case_match; intros [= <-]; by eexists.
  - by vm_compute.
  - intros _. by exists "@alice:a".
Defined.

(** ** Behaviour the rules of the protocol do not ask for *)

(** A create event with a creator that is present and is no user id. *)
Definition create_bad : Pdu DemoContent :=
  demo_pdu "$create" "@alice:a" RoomCreate (Some EmptyString)
    (mkDemo None None (Some (mkCreateFields None (Some tt) None true)) None None None) [] [].

(** A create event whose [creator] is not a user id passes [auth_check], and the
    check of the next membership event of that room panics on it (room version 1). *)
Theorem bad_creator_panics :
  auth_check RV1 create_bad None (λ _ _, None) create_bad = Ok true
  ∧ auth_check RV1 (change "@alice:a" "@alice:a" Join) None (λ _ _, None) create_bad = Panic.
Proof. by vm_compute. Qed.

(** Carol, at level 0 in a room where kicking needs 50, may set the membership of a
    user who is not in the room to [leave]: no power is asked for. *)
Theorem kick_of_absent_user_needs_no_power :
  snapshot RoomMember "@dave:a" = None
  ∧ get_user_power (demo_fields levels) "@carol:a" = None
  ∧ users_default levels < kick levels
  ∧ auth_check RV10 (change "@carol:a" "@dave:a" Leave) None snapshot create = Ok true.
Proof. by vm_compute. Qed.

(** The levels of the room with a default above Bob's own level. *)
Definition levels_high_default : RoomPowerLevelsEventContent :=
  {| ban := 50; events := ∅; events_default := 0; invite := 0; kick := 50; redact := 50;
     state_default := 50; users := {["@bob:a" := 50]}; users_default := 60;
     notifications_room := 50 |}.
Definition snapshot_high (ty : EventType) (key : string) : option (Pdu DemoContent) :=
  match ty with
  | RoomPowerLevels =>
      Some (demo_pdu "$levels" "@alice:a" RoomPowerLevels (Some EmptyString)
              (levels_content levels_high_default) ["$create"] ["$create"])
  | _ => snapshot ty key
  end.

(** The level of a target without an entry of its own is taken as below every level,
    not as [users_default]: Bob, at 50, bans Carol, who has the default level 60. *)
Theorem ban_ignores_users_default :
  users levels_high_default !! "@carol:a" = None
  ∧ users levels_high_default !! "@bob:a" = Some 50
  ∧ 50 < users_default levels_high_default
  ∧ auth_check RV10 (change "@bob:a" "@carol:a" Ban) None snapshot_high create = Ok true.
Proof. by vm_compute. Qed.
