(* ===== verification/TopoSort.v ===== *)
(** * Lexicographical topological sort

    Models [lexicographical_topological_sort] of [src/core/matrix/state_res/mod.rs]:
    Kahn's algorithm from the nodes without outgoing edges, with a heap ordered by
    [TieBreaker].  The order in which the standard library iterates over a [HashMap]
    or a [HashSet] is a parameter.  The result is proved to be the one list an order-free
    specification admits, so it does not depend on that order. *)

From S2P Require Import Prelude RoomVersion Event PowerLevels.

(** ** The source's definitions *)

Record TieBreaker := mkTie {
  power_level : Z;
  tie_ts : Z;
  tie_id : EventId;
}.

(** [Ordering::then]. *)
Definition then_cmp (a b : comparison) : comparison := match a with Eq => b | _ => a end.

(** [impl Ord for TieBreaker]: the power level comparison is backwards. *)
Definition tie_cmp (self other : TieBreaker) : comparison :=
  then_cmp (Z.compare (power_level other) (power_level self))
    (then_cmp (Z.compare (tie_ts self) (tie_ts other))
       (String.compare (tie_id self) (tie_id other))).

(** [BinaryHeap<Reverse<TieBreaker>>] as the bag of its items; [pop] takes a least one. *)
Fixpoint extract_min (x : TieBreaker) (l : list TieBreaker) : TieBreaker * list TieBreaker :=
  match l with
  | [] => (x, [])
  | y :: l =>
      match tie_cmp y x with
      | Lt => let '(m, r) := extract_min y l in (m, x :: r)
      | _ => let '(m, r) := extract_min x l in (m, y :: r)
      end
  end.
Definition heap_pop (heap : list TieBreaker) : option (TieBreaker * list TieBreaker) :=
  match heap with [] => None | x :: l => Some (extract_min x l) end.

Abbreviation Graph := (gmap string (gset string)).

Section sort.
(** [key_fn], and the iteration order of hash sets. *)
Context (key_fn : EventId → outcome Error (Z * Z)).
Context (iter : gset string → list string).

Definition tie_of (node : EventId) : outcome Error TieBreaker :=
  '(level, ts) ← key_fn node; Ok (mkTie level ts node).

(** [reverse_graph.entry(k).or_default()] and [….insert(node)]. *)
Definition entry_insert (k : string) (new : gset string) (g : Graph) : Graph :=
  <[k := default ∅ (g !! k) ∪ new]> g.

(** The first loop: the heap's first items and the reversed graph. *)
Fixpoint scan (nodes : list (string * gset string)) (zero_outdegree : list TieBreaker)
    (reverse_graph : Graph) : outcome Error (list TieBreaker * Graph) :=
  match nodes with
  | [] => Ok (zero_outdegree, reverse_graph)
  | (node, edges) :: nodes =>
      zero_outdegree ← (if bool_decide (edges = ∅) then
                          item ← tie_of node; Ok (zero_outdegree ++ [item])
                        else Ok zero_outdegree);
      let reverse_graph := entry_insert node ∅ reverse_graph in
      let reverse_graph :=
        foldl (λ g edge, entry_insert edge {[node]} g) reverse_graph (iter edges) in
      scan nodes zero_outdegree reverse_graph
  end.

(** The inner loop over the parents of a popped node. *)
Fixpoint release (node : string) (parents : list string) (outdegree_map : Graph)
    (heap : list TieBreaker) : outcome Error (Graph * list TieBreaker) :=
  match parents with
  | [] => Ok (outdegree_map, heap)
  | parent :: parents =>
      out ← expect (outdegree_map !! parent);
      let out := out ∖ {[node]} in
      heap ← (if bool_decide (out = ∅) then item ← tie_of parent; Ok (item :: heap)
              else Ok heap);
      release node parents (<[parent := out]> outdegree_map) heap
  end.

(** The loop [while let Some(Reverse(item)) = heap.pop()], with fuel for its rounds. *)
Fixpoint drain (fuel : nat) (reverse_graph outdegree_map : Graph) (heap : list TieBreaker)
    (sorted : list string) : outcome Error (list string) :=
  match heap_pop heap with
  | None => Ok sorted
  | Some (item, heap) =>
      match fuel with
      | O => Panic
      | S fuel =>
          let node := tie_id item in
          parents ← expect (reverse_graph !! node);
          '(outdegree_map, heap) ← release node (iter parents) outdegree_map heap;
          drain fuel reverse_graph outdegree_map heap (sorted ++ [node])
      end
  end.

(** [graph] is iterated in the order [nodes]; a node is popped at most once, so the
    number of nodes is enough fuel. *)
Definition lexicographical_topological_sort (graph : Graph) (nodes : list (string * gset string))
    : outcome Error (list string) :=
  '(zero_outdegree, reverse_graph) ← scan nodes [] ∅;
  drain (size graph) reverse_graph graph zero_outdegree [].
End sort.

(** ** The order of [TieBreaker] *)

Definition tie_lt (a b : TieBreaker) : Prop := tie_cmp a b = Lt.

Lemma then_cmp_Lt a b : then_cmp a b = Lt ↔ a = Lt ∨ a = Eq ∧ b = Lt.
Proof. destruct a; naive_solver. Qed.
Lemma then_cmp_Eq a b : then_cmp a b = Eq ↔ a = Eq ∧ b = Eq.
Proof. destruct a; naive_solver. Qed.

Lemma tie_lt_iff a b :
  tie_lt a b ↔ (power_level b < power_level a)%Z
               ∨ power_level a = power_level b
                 ∧ ((tie_ts a < tie_ts b)%Z
                    ∨ tie_ts a = tie_ts b ∧ str_lt (tie_id a) (tie_id b)).
Proof.
  unfold tie_lt, tie_cmp. rewrite !then_cmp_Lt, !Z.compare_lt_iff, !Z.compare_eq_iff.
  unfold str_lt. naive_solver.
Qed.

Lemma tie_cmp_Eq a b : tie_cmp a b = Eq → a = b.
Proof.
  unfold tie_cmp. rewrite !then_cmp_Eq, !Z.compare_eq_iff, str_compare_eq.
  destruct a, b; simpl; naive_solver.
Qed.

Lemma tie_cmp_refl a : tie_cmp a a = Eq.
Proof. unfold tie_cmp. rewrite !Z.compare_refl. by apply str_compare_eq. Qed.

#[export] Instance tie_lt_trans : Transitive tie_lt.
Proof.
  intros a b c. rewrite !tie_lt_iff. intros Hab Hbc.
  destruct Hab as [?|[? [?|[? Hab]]]], Hbc as [?|[? [?|[? Hbc]]]]; try (left; lia);
    right; (split; [congruence || lia|]); try (left; lia).
  right. split; [lia|]. by trans (tie_id b).
Qed.

Lemma tie_lt_irrefl a : ¬ tie_lt a a.
Proof. rewrite tie_lt_iff. intros [?|[_ [?|[_ Hs]]]]; [lia..|by apply (irreflexivity str_lt) in Hs]. Qed.

Lemma tie_total a b : a = b ∨ tie_lt a b ∨ tie_lt b a.
Proof.
  destruct (tie_cmp a b) eqn:E; [left; by apply tie_cmp_Eq|right; by left|right; right].
  rewrite tie_lt_iff. unfold tie_cmp in E.
  destruct (Z.compare_spec (power_level b) (power_level a)); simplify_eq/=; [|left; lia].
  right. split; [done|].
  destruct (Z.compare_spec (tie_ts a) (tie_ts b)); simplify_eq/=; [|left; lia].
  right. split; [done|]. by apply str_compare_gt.
Qed.

(** ** The heap *)

Lemma extract_swap {A} (x y m : A) l r : x :: l ≡ₚ m :: r → x :: y :: l ≡ₚ m :: y :: r.
Proof. intros Hp. rewrite (perm_swap y x), Hp. apply perm_swap. Qed.

Lemma extract_min_spec x l m r :
  extract_min x l = (m, r) →
  x :: l ≡ₚ m :: r ∧ ∀ y, y ∈ r → m = y ∨ tie_lt m y.
Proof.
  revert x m r. induction l as [|y l IH]; intros x m r; simpl.
  { intros [= <- <-]. split; [done|set_solver]. }
  destruct (tie_cmp y x) eqn:E.
  - apply tie_cmp_Eq in E as ->. destruct (extract_min x l) as [m' r'] eqn:Em. intros [= <- <-].
    destruct (IH _ _ _ Em) as [Hp Hm]. split; [apply extract_swap, Hp|].
    intros y [->|?]%elem_of_cons; [|auto].
    assert (x ∈ m' :: r') as [->|?]%elem_of_cons by (rewrite <- Hp; set_solver); auto.
  - destruct (extract_min y l) as [m' r'] eqn:Em. intros [= <- <-].
    destruct (IH _ _ _ Em) as [Hp Hm]. split; [rewrite Hp; apply perm_swap|].
    intros z [->|?]%elem_of_cons; [|auto]. right.
    assert (y ∈ m' :: r') as [->|Hy]%elem_of_cons by (rewrite <- Hp; set_solver); [done|].
    destruct (Hm _ Hy) as [->|?]; [done|]. by trans y.
  - destruct (extract_min x l) as [m' r'] eqn:Em. intros [= <- <-].
    destruct (IH _ _ _ Em) as [Hp Hm]. split; [apply extract_swap, Hp|].
    intros z [->|?]%elem_of_cons; [|auto]. right.
    assert (tie_lt x y) as Hxz.
    { destruct (tie_total x y) as [->|[?|Hzx]]; [|done|].
      - by rewrite tie_cmp_refl in E.
      - unfold tie_lt in Hzx. by rewrite Hzx in E. }
    assert (x ∈ m' :: r') as [->|Hx]%elem_of_cons by (rewrite <- Hp; set_solver); [done|].
    destruct (Hm _ Hx) as [->|?]; [done|]. by trans x.
Qed.

Lemma heap_pop_spec heap m r :
  heap_pop heap = Some (m, r) →
  heap ≡ₚ m :: r ∧ ∀ y, y ∈ r → m = y ∨ tie_lt m y.
Proof. destruct heap as [|x l]; [done|]. intros [= E]. by apply extract_min_spec. Qed.

(** ** The specification *)

Section spec.
Context (graph : Graph) (key : EventId → Z * Z).

Definition edges (n : string) : gset string := default ∅ (graph !! n).
Definition tie (n : string) : TieBreaker := mkTie (key n).1 (key n).2 n.

(** A node can come next when all it refers to has come. *)
Definition available (done : list string) (n : string) : Prop :=
  n ∈ dom graph ∧ n ∉ done ∧ ∀ e, e ∈ edges n → e ∈ done.

(** [lex_topo done rest]: after [done] the nodes of [rest] follow, each one the least
    of those that can come next, until none can. *)
Inductive lex_topo : list string → list string → Prop :=
  | lex_done seen : (∀ n, ¬ available seen n) → lex_topo seen []
  | lex_next seen n rest :
      available seen n →
      (∀ m, available seen m → m = n ∨ tie_lt (tie n) (tie m)) →
      lex_topo (seen ++ [n]) rest → lex_topo seen (n :: rest).

(** The specification admits one list. *)
Lemma lex_topo_unique seen l1 l2 : lex_topo seen l1 → lex_topo seen l2 → l1 = l2.
Proof.
  intros H1. revert l2. induction H1 as [seen Hn|seen n rest Ha Hmin H1 IH]; intros l2 H2.
  - inversion H2; [done|]. naive_solver.
  - inversion H2 as [? Hno|? m rest2 Ha2 Hmin2 H2']; simplify_eq; [naive_solver|].
    assert (n = m) as ->.
    { destruct (Hmin m Ha2) as [->|Hlt]; [done|]. destruct (Hmin2 n Ha) as [->|Hlt2]; [done|].
      exfalso. apply (tie_lt_irrefl (tie n)). by trans (tie m). }
    f_equal. by apply IH.
Qed.

(** Everything a node refers to comes before it, nothing comes twice. *)
Lemma lex_topo_topological seen l :
  lex_topo seen l →
  NoDup l ∧ (∀ n, n ∈ l → n ∈ dom graph ∧ n ∉ seen)
  ∧ ∀ l1 n l2, l = l1 ++ n :: l2 → ∀ e, e ∈ edges n → e ∈ seen ++ l1.
Proof.
  induction 1 as [seen Hn|seen n rest Ha Hmin Hl IH].
  - split_and!; [constructor|set_solver|]. intros [|??] ? ? [=].
  - destruct IH as (Hnd & Hin & Htopo). split_and!.
    + constructor; [|done]. intros ?%Hin. set_solver.
    + intros m [->|Hm]%elem_of_cons; [by destruct Ha as (? & ? & ?)|].
      apply Hin in Hm. set_solver.
    + intros [|x l1] m l2 [= -> Heq] e He.
      * apply elem_of_app. left. destruct Ha as (_ & _ & Ha). auto.
      * specialize (Htopo _ _ _ Heq e He). set_solver.
Qed.

(** In an acyclic graph every node comes. *)
Lemma lex_topo_complete (rank : string → nat) seen l :
  (∀ n e, e ∈ edges n → e ∈ dom graph ∧ rank e < rank n) →
  lex_topo seen l → ∀ n, n ∈ dom graph → n ∈ seen ++ l.
Proof.
  intros Hr. induction 1 as [seen Hn|seen n rest Ha Hmin Hl IH].
  - intros n. rewrite app_nil_r. remember (rank n) as k eqn:Hk. revert n Hk.
    induction (lt_wf k) as [k _ IHk]. intros n -> Hin.
    destruct (decide (n ∈ seen)) as [|Hns]; [done|]. destruct (Hn n). split_and!; [done..|].
    intros e He. destruct (Hr n e He) as [? Hlt]. by apply (IHk (rank e) Hlt).
  - intros m Hm. specialize (IH m Hm). set_solver.
Qed.
End spec.

(** ** The algorithm implements the specification *)

Lemma diff_snoc (E : gset string) seen node :
  E ∖ list_to_set seen ∖ {[node]} = E ∖ list_to_set (seen ++ [node]).
Proof. set_solver. Qed.
Lemma diff_snoc_notin (E : gset string) seen node :
  node ∉ E → E ∖ list_to_set seen = E ∖ list_to_set (seen ++ [node]).
Proof. set_solver. Qed.
Lemma diff_empty (E : gset string) (seen : list string) :
  E ∖ list_to_set seen = ∅ ↔ ∀ e, e ∈ E → e ∈ seen.
Proof.
  split; [|set_solver]. intros HE e He. destruct (decide (e ∈ seen)); [done|].
  assert (e ∈ E ∖ list_to_set seen) by set_solver. set_solver.
Qed.

Section correct.
Context (key_fn : EventId → outcome Error (Z * Z)) (iter : gset string → list string).
Context (graph : Graph) (key : EventId → Z * Z).
(** A hash set is iterated in some order of its elements. *)
Hypothesis iter_perm : ∀ X, iter X ≡ₚ elements X.
(** The keys of the nodes are known, and the graph has the nodes its edges name. *)
Hypothesis key_known : ∀ n, n ∈ dom graph → key_fn n = Ok (key n).
Hypothesis closed : ∀ n e, e ∈ edges graph n → e ∈ dom graph.

Local Abbreviation tie := (tie key).

Lemma tie_of_node n : n ∈ dom graph → tie_of key_fn n = Ok (tie n).
Proof. intros Hn. unfold tie_of. rewrite key_known by done. by destruct (key n) eqn:E; unfold tie; simpl; rewrite E. Qed.

Lemma elem_of_iter x X : x ∈ iter X ↔ x ∈ X.
Proof. by rewrite iter_perm, elem_of_elements. Qed.
Lemma NoDup_iter X : NoDup (iter X).
Proof. rewrite iter_perm. apply NoDup_elements. Qed.

Definition get (g : Graph) (k : string) : gset string := default ∅ (g !! k).

Lemma entry_insert_get k new g j :
  get (entry_insert k new g) j = if decide (j = k) then get g k ∪ new else get g j.
Proof.
  unfold get, entry_insert. case_decide as Hj; [subst j; by rewrite lookup_insert_eq|].
  by rewrite lookup_insert_ne.
Qed.
Lemma entry_insert_dom k new g : dom (entry_insert k new g) = {[k]} ∪ dom g.
Proof. apply dom_insert_L. Qed.

(** Adding a node to the sets of its edges. *)
Lemma fold_entry_insert node l g :
  (∀ j x, x ∈ get (foldl (λ g edge, entry_insert edge {[node]} g) g l) j
          ↔ x ∈ get g j ∨ (x = node ∧ j ∈ l))
  ∧ dom (foldl (λ g edge, entry_insert edge {[node]} g) g l) = list_to_set l ∪ dom g.
Proof.
  revert g. induction l as [|e l IH]; intros g; simpl; [set_solver|].
  destruct (IH (entry_insert e {[node]} g)) as [IHg IHd]. split.
  - intros j x. rewrite IHg, entry_insert_get. case_decide; set_solver.
  - rewrite IHd, entry_insert_dom. set_solver.
Qed.

Lemma scan_spec nodes z rg :
  (∀ n E, (n, E) ∈ nodes → graph !! n = Some E) →
  ∃ rg',
    scan key_fn iter nodes z rg
      = Ok (z ++ (tie <$> (filter (λ p, p.2 = ∅) nodes).*1), rg')
    ∧ (∀ j x, x ∈ get rg' j ↔ x ∈ get rg j ∨ ∃ E, (x, E) ∈ nodes ∧ j ∈ E)
    ∧ (∀ j, j ∈ dom rg ∨ j ∈ nodes.*1 → j ∈ dom rg').
Proof.
  revert z rg. induction nodes as [|[n E] nodes IH]; intros z rg Hin; simpl.
  { exists rg. rewrite app_nil_r. set_solver. }
  set (rg1 := foldl _ _ _).
  assert (n ∈ dom graph) as Hn by (apply elem_of_dom; exists E; apply Hin; by left).
  destruct (IH (if bool_decide (E = ∅) then z ++ [tie n] else z) rg1) as (rg' & Hs & Hg & Hd).
  { intros m F ?. apply Hin. by right. }
  destruct (fold_entry_insert n (iter E) (entry_insert n ∅ rg)) as [Hf Hfd].
  exists rg'. split_and!.
  - rewrite tie_of_node by done. rewrite filter_cons. simpl.
    case_bool_decide; simpl; rewrite Hs; [rewrite decide_True|rewrite decide_False]; try done.
    by rewrite <- app_assoc.
  - intros j x. rewrite Hg. unfold rg1. rewrite Hf, elem_of_iter. setoid_rewrite elem_of_cons.
    assert (x ∈ get (entry_insert n ∅ rg) j ↔ x ∈ get rg j) as ->.
    { rewrite entry_insert_get. clear. destruct (decide (j = n)) as [->|]; set_solver. }
    clear -x. naive_solver.
  - intros j Hj. apply Hd. unfold rg1. rewrite Hfd, entry_insert_dom. set_solver.
Qed.

Lemma release_spec node ps O h :
  NoDup ps → (∀ p, p ∈ ps → p ∈ dom graph ∧ is_Some (O !! p)) →
  ∃ O' h',
    release key_fn node ps O h = Ok (O', h')
    ∧ (∀ p, O' !! p = if decide (p ∈ ps) then Some (get O p ∖ {[node]}) else O !! p)
    ∧ h' ≡ₚ (tie <$> filter (λ p, get O p ∖ {[node]} = ∅) ps) ++ h.
Proof.
  revert O h. induction ps as [|p ps IH]; intros O h Hnd Hps; simpl.
  { exists O, h. split_and!; done. }
  apply NoDup_cons in Hnd as [Hp Hnd].
  destruct (Hps p ltac:(by left)) as [Hpg [out Hout]]. rewrite Hout. cbn [mbind outcome_bind expect].
  assert (get O p = out) as Hget by (unfold get; by rewrite Hout).
  set (O1 := <[p := out ∖ {[node]}]> O).
  destruct (IH O1 (if bool_decide (out ∖ {[node]} = ∅) then tie p :: h else h) Hnd)
    as (O' & h' & Hr & HO & Hh).
  { intros q Hq. destruct (Hps q ltac:(by right)) as [? ?]. split; [done|].
    unfold O1. rewrite lookup_insert_ne by (by intros <-). done. }
  assert (∀ q, q ≠ p → O1 !! q = O !! q) as Hne by (intros; by apply lookup_insert_ne).
  exists O', h'. split_and!.
  - rewrite tie_of_node by done. case_bool_decide; cbn; by rewrite Hr.
  - intros q. rewrite HO. destruct (decide (q = p)) as [->|Hq].
    + rewrite decide_False, decide_True by set_solver. unfold O1. by rewrite lookup_insert_eq, Hget.
    + unfold get. rewrite Hne by done. by destruct (decide (q ∈ ps)), (decide (q ∈ p :: ps)); set_solver.
  - rewrite Hh. rewrite filter_cons, Hget.
    assert (filter (λ q, get O1 q ∖ {[node]} = ∅) ps = filter (λ q, get O q ∖ {[node]} = ∅) ps) as ->.
    { apply filter_ext_in. intros q Hq. unfold get. by rewrite Hne by (by intros ->). }
    destruct (decide (out ∖ {[node]} = ∅)) as [He|He].
    + rewrite bool_decide_eq_true_2 by done. symmetry. apply Permutation_middle.
    + by rewrite bool_decide_eq_false_2.
Qed.

(** What the loop keeps: the output so far is closed and without repetition, the
    outdegree map is the graph less the output, the heap is the bag of the nodes
    that can come next. *)
Record kahn_inv (seen : list string) (O : Graph) (heap : list TieBreaker) (ids : list string)
    : Prop := {
  inv_nodup : NoDup seen;
  inv_seen : ∀ n, n ∈ seen → n ∈ dom graph ∧ ∀ e, e ∈ edges graph n → e ∈ seen;
  inv_out : ∀ n, O !! n = (λ E, E ∖ list_to_set seen) <$> graph !! n;
  inv_heap : heap ≡ₚ tie <$> ids;
  inv_ids : NoDup ids;
  inv_avail : ∀ n, n ∈ ids ↔ available graph seen n;
}.

Lemma kahn_inv_bound seen O heap ids : kahn_inv seen O heap ids → length seen ≤ size graph.
Proof.
  intros [Hnd Hs _ _ _ _]. rewrite <- (size_dom (D := gset string)), <- (size_list_to_set (C := gset string) seen) by done.
  apply subseteq_size. intros n. rewrite elem_of_list_to_set. apply Hs.
Qed.

(** A popped item is the tie of a least available node. *)
Lemma kahn_inv_pop seen O heap ids item rest :
  kahn_inv seen O heap ids → heap_pop heap = Some (item, rest) →
  ∃ node ids', item = tie node ∧ ids ≡ₚ node :: ids' ∧ rest ≡ₚ tie <$> ids'
    ∧ available graph seen node
    ∧ ∀ m, available graph seen m → m = node ∨ tie_lt (tie node) (tie m).
Proof.
  intros [_ _ _ Hh Hnd Ha] [Hp Hmin]%heap_pop_spec. rewrite Hh in Hp. symmetry in Hp.
  apply Permutation_map_inv in Hp as ([|node ids'] & Hl & Hp); [done|].
  injection Hl as -> ->. exists node, ids'. split_and!; [done..|apply Ha; rewrite Hp; by left|].
  intros m Hm%Ha. rewrite Hp in Hm. apply elem_of_cons in Hm as [->|Hm]; [by left|].
  destruct (Hmin (tie m)) as [Heq|?]; [apply list_elem_of_fmap; eauto| |by right].
  left. by injection Heq.
Qed.

(** The round of the loop for that node. *)
Lemma kahn_inv_step seen O heap ids node ids' rg rest :
  (∀ j x, x ∈ get rg j ↔ j ∈ edges graph x) →
  kahn_inv seen O heap ids → ids ≡ₚ node :: ids' → rest ≡ₚ tie <$> ids' →
  available graph seen node →
  ∃ O' heap' new,
    release key_fn node (iter (get rg node)) O rest = Ok (O', heap')
    ∧ kahn_inv (seen ++ [node]) O' heap' (new ++ ids').
Proof.
  intros Hrg Hinv Hids Hrest (Hng & Hns & Hne).
  destruct Hinv as [Hnd Hs Ho Hh Hndi Ha]. rewrite Hids in Hndi. apply NoDup_cons in Hndi as [Hnn Hndi].
  assert (∀ p, p ∈ iter (get rg node) ↔ node ∈ edges graph p) as Hps
    by (intros p; by rewrite elem_of_iter).
  assert (∀ p, get O p = edges graph p ∖ list_to_set seen) as Hget.
  { intros p. unfold get, edges. rewrite Ho. destruct (graph !! p); set_solver. }
  assert (∀ p, node ∈ edges graph p → p ∈ dom graph) as Hdom.
  { intros p. unfold edges. rewrite elem_of_dom. destruct (graph !! p); set_solver. }
  destruct (release_spec node (iter (get rg node)) O rest) as (O' & h' & Hr & HO & Hheap).
  { apply NoDup_iter. }
  { intros p Hp%Hps%Hdom. split; [done|]. rewrite Ho. apply elem_of_dom in Hp as [E ->]. by eexists. }
  set (new := filter (λ p, get O p ∖ {[node]} = ∅) (iter (get rg node))).
  assert (∀ p, p ∈ new ↔ node ∈ edges graph p ∧ ∀ e, e ∈ edges graph p → e ∈ seen ++ [node]) as Hnew.
  { intros p. unfold new. rewrite list_elem_of_filter, Hps, Hget, diff_snoc, diff_empty. tauto. }
  exists O', h', new. split; [done|]. constructor.
  - apply NoDup_app. split_and!; [done| |apply NoDup_singleton].
    by intros n Hn ->%list_elem_of_singleton.
  - intros n [Hn| ->%list_elem_of_singleton]%elem_of_app.
    + destruct (Hs n Hn) as [? He]. split; [done|]. intros e ?%He. apply elem_of_app. by left.
    + split; [done|]. intros e ?%Hne. apply elem_of_app. by left.
  - intros n. rewrite HO. case_decide as Hn.
    + apply Hps in Hn. pose proof (Hdom n Hn) as [E HE]%elem_of_dom. rewrite Hget.
      unfold edges. rewrite HE. simpl. f_equal. apply diff_snoc.
    + rewrite Ho. unfold edges in Hps. rewrite Hps in Hn.
      destruct (graph !! n) as [E|] eqn:HE; simpl in *; [|done]. f_equal.
      by apply diff_snoc_notin.
  - by rewrite Hheap, Hrest, fmap_app.
  - apply NoDup_app. split_and!; [apply NoDup_filter, NoDup_iter| |done].
    intros n [Hn _]%Hnew Hn'.
    assert (available graph seen n) as (_ & _ & He) by (apply Ha; rewrite Hids; by right).
    by apply Hns, He.
  - intros n. rewrite elem_of_app, Hnew. unfold available. split.
    + intros [[Hn He]|Hn].
      * split_and!; [auto| |done]. rewrite elem_of_app, list_elem_of_singleton.
        intros [Hn'| ->]; [destruct (Hs n Hn') as [_ He']; by apply Hns, He'|by apply Hns, Hne].
      * assert (available graph seen n) as (? & ? & He) by (apply Ha; rewrite Hids; by right).
        split_and!; [done| |intros e ?%He; apply elem_of_app; by left].
        rewrite elem_of_app, list_elem_of_singleton. intros [?| ->]; done.
    + intros (Hn & Hn' & He). destruct (decide (node ∈ edges graph n)) as [|Hno]; [by left|right].
      assert (n ∈ ids) as Hin.
      { apply Ha. split_and!; [done| |].
        { intros ?. apply Hn', elem_of_app. by left. }
        intros e Hee. specialize (He e Hee).
        apply elem_of_app in He as [|Hx%list_elem_of_singleton]; [done|congruence]. }
      rewrite Hids in Hin. apply elem_of_cons in Hin as [->|]; [|done].
      destruct Hn'. apply elem_of_app. right. by left.
Qed.

Lemma kahn_inv_empty seen O heap ids :
  kahn_inv seen O heap ids → heap_pop heap = None → lex_topo graph key seen [].
Proof.
  intros [_ _ _ Hh _ Ha] Hp. destruct heap; [|done].
  apply Permutation_nil_l, symmetry, fmap_nil_inv in Hh as ->. constructor.
  intros n Hn%Ha. by apply not_elem_of_nil in Hn.
Qed.

Lemma drain_spec fuel rg seen O heap ids :
  (∀ j x, x ∈ get rg j ↔ j ∈ edges graph x) →
  (∀ n, n ∈ dom graph → n ∈ dom rg) →
  kahn_inv seen O heap ids → size graph ≤ fuel + length seen →
  ∃ rest, drain key_fn iter fuel rg O heap seen = Ok (seen ++ rest)
          ∧ lex_topo graph key seen rest.
Proof.
  intros Hrg Hdom. revert seen O heap ids.
  induction fuel as [|fuel IH]; intros seen O heap ids Hinv Hf; cbn [drain];
    destruct (heap_pop heap) as [[item rest]|] eqn:Hpop.
  2,4: exists []; rewrite app_nil_r; eauto using kahn_inv_empty.
  all: destruct (kahn_inv_pop _ _ _ _ _ _ Hinv Hpop)
    as (node & ids' & -> & Hids & Hrest & Hav & Hmin);
    destruct (kahn_inv_step _ _ _ _ _ _ rg rest Hrg Hinv Hids Hrest Hav)
    as (O' & heap' & new & Hrel & Hinv').
  - pose proof (kahn_inv_bound _ _ _ _ Hinv') as Hb. rewrite length_app in Hb. simpl in *. lia.
  - assert (rg !! node = Some (get rg node)) as Hg.
    { destruct Hav as (Hn & _). apply Hdom, elem_of_dom in Hn as [X HX]. unfold get. by rewrite HX. }
    cbn [tie_id TopoSort.tie]. rewrite Hg. cbn [expect mbind outcome_bind]. rewrite Hrel.
    cbn [mbind outcome_bind].
    destruct (IH _ _ _ _ Hinv') as (l & Hd & Hl); [rewrite length_app; simpl; lia|].
    exists (node :: l). rewrite Hd, <- app_assoc. split; [done|]. by constructor.
Qed.

(** The order [nodes] in which the map is iterated has its entries, each once. *)
Lemma sort_spec nodes :
  nodes ≡ₚ map_to_list graph →
  ∃ l, lexicographical_topological_sort key_fn iter graph nodes = Ok l ∧ lex_topo graph key [] l.
Proof.
  intros Hn. unfold lexicographical_topological_sort.
  assert (∀ n E, (n, E) ∈ nodes ↔ graph !! n = Some E) as Hin
    by (intros n E; by rewrite Hn, elem_of_map_to_list).
  destruct (scan_spec nodes [] ∅) as (rg & -> & Hrg & Hdom); [by intros n E ?%Hin|].
  cbn [mbind outcome_bind app]. set (ids := (filter _ nodes).*1).
  apply (drain_spec (size graph) rg [] graph (tie <$> ids) ids).
  - intros j x. rewrite Hrg. unfold get, edges. rewrite lookup_empty. setoid_rewrite Hin.
    destruct (graph !! x); simpl; set_solver.
  - intros n [E HE]%elem_of_dom. apply Hdom. right. apply list_elem_of_fmap.
    exists (n, E). split; [done|]. by apply Hin.
  - constructor; [constructor|set_solver| |done| |].
    + intros n. destruct (graph !! n); simpl; [|done]. f_equal. set_solver.
    + unfold ids. apply (sublist_NoDup _ (nodes.*1)); [|apply fmap_sublist, sublist_filter].
      rewrite Hn. apply NoDup_fst_map_to_list.
    + intros n. unfold ids, available, edges. rewrite list_elem_of_fmap, elem_of_dom. split.
      * intros ([n' E] & -> & [HE Hin']%list_elem_of_filter). simpl in *. subst E.
        apply Hin in Hin'. rewrite Hin'. simpl. split_and!; [by eexists|set_solver..].
      * intros ([E HE] & _ & He). rewrite HE in He. exists (n, E). split; [done|].
        apply list_elem_of_filter. split; [|by apply Hin]. simpl in *. set_solver.
  - simpl. lia.
Qed.
End correct.

(** ** Claims *)

Section claims.
Context (key_fn : EventId → outcome Error (Z * Z)) (graph : Graph).
Implicit Types (iter : gset string → list string) (nodes : list (string * gset string)).

(** The parts of the graph and of the keys the sort relies on. *)
Definition sortable : Prop :=
  (∀ n e, e ∈ edges graph n → e ∈ dom graph) ∧ ∀ n, n ∈ dom graph → ∃ k, key_fn n = Ok k.

Definition key_of (n : EventId) : Z * Z :=
  match key_fn n with Ok k => k | _ => (0, 0)%Z end.

Lemma sort_lex_topo iter nodes :
  sortable → (∀ X, iter X ≡ₚ elements X) → nodes ≡ₚ map_to_list graph →
  ∃ l, lexicographical_topological_sort key_fn iter graph nodes = Ok l
       ∧ lex_topo graph key_of [] l.
Proof.
  intros [Hc Hk] Hi Hn. apply sort_spec; try done.
  intros n Hin. destruct (Hk n Hin) as [k E]. unfold key_of. by rewrite E.
Qed.

(** C11: on a graph that has every node its edges name, with the key of every node
    available, [lexicographical_topological_sort] neither fails nor panics, and at each
    position of its result stands the least node, by power level (higher first),
    timestamp and id, of those whose edges have all come before. *)
Theorem topological_sort_spec iter nodes :
  sortable → (∀ X, iter X ≡ₚ elements X) → nodes ≡ₚ map_to_list graph →
  ∃ l, lexicographical_topological_sort key_fn iter graph nodes = Ok l
       ∧ lex_topo graph key_of [] l.
Proof. apply sort_lex_topo. Qed.

(** The result does not depend on the order in which the hash map of the graph and
    the hash sets of its edges are iterated. *)
Theorem topological_sort_deterministic iter1 iter2 nodes1 nodes2 :
  sortable → (∀ X, iter1 X ≡ₚ elements X) → (∀ X, iter2 X ≡ₚ elements X) →
  nodes1 ≡ₚ map_to_list graph → nodes2 ≡ₚ map_to_list graph →
  lexicographical_topological_sort key_fn iter1 graph nodes1
  = lexicographical_topological_sort key_fn iter2 graph nodes2.
Proof.
  intros Hs H1 H2 Hn1 Hn2. destruct (sort_lex_topo iter1 nodes1) as (l1 & -> & Hl1); try done.
  destruct (sort_lex_topo iter2 nodes2) as (l2 & -> & Hl2); try done.
  f_equal. by eapply lex_topo_unique.
Qed.

(** When moreover the graph is acyclic, the result is a permutation of its nodes in
    which every node comes after all the nodes it refers to. *)
Theorem topological_sort_complete iter nodes (rank : string → nat) :
  sortable → (∀ X, iter X ≡ₚ elements X) → nodes ≡ₚ map_to_list graph →
  (∀ n e, e ∈ edges graph n → rank e < rank n) →
  ∃ l, lexicographical_topological_sort key_fn iter graph nodes = Ok l
       ∧ l ≡ₚ elements (dom graph)
       ∧ ∀ l1 n l2, l = l1 ++ n :: l2 → ∀ e, e ∈ edges graph n → e ∈ l1.
Proof.
  intros Hs Hi Hn Hr. destruct (sort_lex_topo iter nodes) as (l & Hl & Hlex); try done.
  destruct (lex_topo_topological _ _ _ _ Hlex) as (Hnd & Hin & Htopo).
  exists l. split_and!; [done| |done]. apply NoDup_Permutation; [done|apply NoDup_elements|].
  intros n. rewrite elem_of_elements. split; [apply Hin|].
  apply (lex_topo_complete graph key_of rank [] l); [|done].
  intros m e He. split; [by apply (proj1 Hs m)|by apply Hr].
Qed.
End claims.

(** ** The graph of the source's own test, [test_sort] *)

Module SortDemo.
Definition graph : Graph :=
  {["l" := {["o"]}; "m" := {["n"; "o"]}; "n" := {["o"]}; "o" := ∅; "p" := {["o"]}]}.
Definition key_fn (_ : EventId) : outcome Error (Z * Z) := Ok (0, 0)%Z.
Definition rank (n : string) : nat :=
  if bool_decide (n = "o") then 0 else if bool_decide (n = "m") then 2 else 1.

Example sorted :
  lexicographical_topological_sort key_fn elements graph (map_to_list graph)
  = Ok ["o"; "l"; "n"; "m"; "p"].
Proof. by vm_compute. Qed.

Lemma edges_demo n e :
  e ∈ edges graph n →
  (n, e) ∈ [("l", "o"); ("m", "n"); ("m", "o"); ("n", "o"); ("p", "o")].
Proof.
  unfold edges. destruct (graph !! n) as [E|] eqn:HE; simpl; [|set_solver].
  assert (map_Forall (λ n E, set_Forall (λ e,
    (n, e) ∈ [("l", "o"); ("m", "n"); ("m", "o"); ("n", "o"); ("p", "o")]) E) graph) as Hall
    by (apply (bool_decide_unpack _); by vm_compute).
  by apply (Hall n E HE).
Qed.

Lemma sortable_demo : sortable key_fn graph.
Proof.
  split; [|by eexists]. intros n e He%edges_demo.
  assert (e = "o" ∨ e = "n") as [-> | ->] by set_solver; apply (bool_decide_unpack _); by vm_compute.
Qed.

(** Sets iterated from the largest element down. *)
Definition iter_rev (X : gset string) : list string := reverse (elements X).
Lemma iter_rev_perm X : iter_rev X ≡ₚ elements X.
Proof. apply reverse_Permutation. Qed.

Lemma topological_sort_spec_witness :
  ∃ l, lexicographical_topological_sort key_fn iter_rev graph (reverse (map_to_list graph)) = Ok l
       ∧ lex_topo graph (key_of key_fn) [] l.
Proof.
  apply (topological_sort_spec key_fn graph iter_rev (reverse (map_to_list graph)));
    [apply sortable_demo|apply iter_rev_perm|apply reverse_Permutation].
Defined.

Lemma topological_sort_deterministic_witness :
  lexicographical_topological_sort key_fn elements graph (map_to_list graph)
  = lexicographical_topological_sort key_fn iter_rev graph (reverse (map_to_list graph)).
Proof.
  apply (topological_sort_deterministic key_fn graph elements iter_rev);
    [apply sortable_demo|done|apply iter_rev_perm|done|apply reverse_Permutation].
Defined.

Lemma topological_sort_complete_witness :
  ∃ l, lexicographical_topological_sort key_fn elements graph (map_to_list graph) = Ok l
       ∧ l ≡ₚ elements (dom graph).
Proof.
  destruct (topological_sort_complete key_fn graph elements (map_to_list graph) rank)
    as (l & Hl & Hp & _); [apply sortable_demo|done|done| |by exists l].
  intros n e He%edges_demo.
  repeat (apply elem_of_cons in He as [[= -> ->]|He]; [vm_compute; lia|]).
  by apply not_elem_of_nil in He.
Defined.
End SortDemo.
