(* ===== verification/StateRes.v ===== *)
(** * State resolution: [src/core/matrix/state_res/mod.rs]

    [resolve] and the functions it composes.  The event store is the pure function
    [fetch_event].  Two things the source leaves to the runtime are made explicit by the
    class [Schedule]: the order in which a hash map or set is iterated, and the order in
    which concurrently running fetches complete ([broad_filter_map], [broad_and_then],
    which do not keep the order of their input); every place has a number of its own.
    Loops that follow references between events take fuel. *)

From S2P Require Import Prelude RoomVersion Event PowerLevels EventAuth TopoSort.

Local Open Scope srv_scope.

Abbreviation StateMap := (gmap TypeStateKey EventId).

(** [collect] into a hash map: a later entry replaces an earlier one. *)
Definition collect_map {K A} `{Countable K} (l : list (K * A)) : gmap K A :=
  foldl (λ m kv, <[kv.1 := kv.2]> m) ∅ l.

(** ** Conflicts *)

Section conflicts.
Context `{Schedule}.

(** [occurrences.entry(k).or_default().entry(v).and_modify(+1).or_insert(1)]; a count
    never exceeds the number of state sets. *)
Definition occurrence (occ : gmap TypeStateKey (gmap EventId nat)) (kv : TypeStateKey * EventId)
    : gmap TypeStateKey (gmap EventId nat) :=
  let m := default ∅ (occ !! kv.1) in
  <[kv.1 := <[kv.2 := S (default 0 (m !! kv.2))]> m]> occ.

Definition occurrences (state_sets : list StateMap) : gmap TypeStateKey (gmap EventId nat) :=
  foldl (λ occ set, foldl occurrence occ (order 0 (map_to_list set))) ∅ state_sets.

(** The round of the second loop for one key and one id. *)
Definition sort_out (state_set_count : nat) (k : TypeStateKey)
    (acc : StateMap * gmap TypeStateKey (list EventId)) (idc : EventId * nat)
    : StateMap * gmap TypeStateKey (list EventId) :=
  let '(unconflicted, conflicted) := acc in
  if bool_decide (idc.2 = state_set_count) then (<[k := idc.1]> unconflicted, conflicted)
  else (unconflicted,
        <[k := match conflicted !! k with Some x => x ++ [idc.1] | None => [idc.1] end]> conflicted).

Definition separate (state_sets : list StateMap) : StateMap * gmap TypeStateKey (list EventId) :=
  foldl (λ acc kv, foldl (sort_out (length state_sets) kv.1) acc (order 2 (map_to_list kv.2)))
    (∅, ∅) (order 1 (map_to_list (occurrences state_sets))).

(** [*id_counts.entry(id).or_default() += 1]. *)
Definition count_id (counts : gmap EventId nat) (id : EventId) : gmap EventId nat :=
  <[id := S (default 0 (counts !! id))]> counts.

Definition get_auth_chain_diff (auth_chain_sets : list (gset EventId)) : list EventId :=
  let num_sets := length auth_chain_sets in
  let id_counts :=
    foldl (λ c set, foldl count_id c (order 3 (elements set))) ∅ auth_chain_sets in
  (filter (λ ic : EventId * nat, ic.2 < num_sets) (order 4 (map_to_list id_counts))).*1.
End conflicts.

Section state_res.
Context {Content : Type} `{Ruma Content} `{Schedule}.
Context (fetch_event : EventId → option (Pdu Content)).

Definition auth_ids (id : EventId) : list EventId :=
  match fetch_event id with Some ev => auth_events ev | None => [] end.

(** ** The conflicted subgraph *)

(** The vectors [stack], its frames and [path] are kept with their last element first. *)
Record Walk := mkWalk {
  subgraph : gset EventId;
  stack : list (list EventId);
  path : list EventId;
  seen : gset EventId;
}.

(** The closure [next_event]: frames that are used up are dropped. *)
Fixpoint next_event (stack : list (list EventId)) (path : list EventId)
    : option (EventId * list (list EventId) * list EventId) :=
  match stack with
  | [] => None
  | [] :: stack => next_event stack (tail path)
  | (id :: frame) :: stack => Some (id, frame :: stack, path)
  end.

(** One round of the loop, after [next_event] returned [event_id]; the three vectors
    hold what it left. *)
Definition visit (conflicted_events : gset EventId) (w : Walk) (event_id : EventId) : Walk :=
  let path' := event_id :: path w in
  let long := bool_decide (1 < length path') in
  if bool_decide (event_id ∈ subgraph w) then
    mkWalk (if long then subgraph w ∪ list_to_set path' else subgraph w)
      (stack w) (path w) (seen w)
  else
    let subgraph' :=
      if bool_decide (event_id ∈ conflicted_events) && long
      then subgraph w ∪ list_to_set path' else subgraph w in
    if bool_decide (event_id ∈ seen w) then mkWalk subgraph' (stack w) (path w) (seen w)
    else match fetch_event event_id with
         | None => mkWalk subgraph' (stack w) (path w) (seen w)
         | Some evt =>
             mkWalk subgraph' (reverse (auth_events evt) :: stack w) path'
               ({[event_id]} ∪ seen w)
         end.

Fixpoint walk (fuel : nat) (conflicted_events : gset EventId) (w : Walk)
    : outcome Error (gset EventId) :=
  match next_event (stack w) (path w) with
  | None => Ok (subgraph w)
  | Some (event_id, stack', path') =>
      match fuel with
      | O => Panic
      | S fuel =>
          walk fuel conflicted_events
            (visit conflicted_events (mkWalk (subgraph w) stack' path' (seen w)) event_id)
      end
  end.

Definition calculate_conflicted_subgraph (fuel : nat)
    (conflicted : gmap TypeStateKey (list EventId)) : outcome Error (gset EventId) :=
  let conflicted_events : gset EventId := list_to_set (concat (map_to_list conflicted).*2) in
  walk fuel conflicted_events
    (mkWalk ∅ [reverse (order 5 (elements conflicted_events))] [] ∅).

(** ** Sorting the control events *)

Definition get_power_level_for_sender (id : EventId) : outcome Error Z :=
  let event := fetch_event id in
  let pl := find (λ aev, is_type_and_key aev RoomPowerLevels EmptyString)
              (order 6 (omap fetch_event (auth_ids id))) in
  match pl with
  | None => Ok 0%Z
  | Some ev =>
      fields ← ok_or SerdeJson (from_PowerLevelsContentFields (content ev));
      match event ≫= λ ev, get_user_power fields (sender ev) with
      | Some user_level => Ok user_level
      | None => Ok (plf_users_default fields)
      end
  end.

(** The round for one popped id: its entry, and what is pushed on the work list. *)
Definition add_event (auth_diff : gset EventId) (graph : Graph) (eid : EventId)
    : Graph * list EventId :=
  let graph := entry_insert eid ∅ graph in
  foldl (λ gs aid,
           let '(graph, pushed) := gs in
           if bool_decide (aid ∈ auth_diff) then
             (entry_insert eid {[aid]} graph,
              if bool_decide (aid ∈ dom graph) then pushed else aid :: pushed)
           else (graph, pushed)) (graph, []) (auth_ids eid).

(** The work list is kept with its last element first. *)
Fixpoint add_event_and_auth_chain_to_graph (fuel : nat) (auth_diff : gset EventId)
    (graph : Graph) (state : list EventId) : outcome Error Graph :=
  match state with
  | [] => Ok graph
  | eid :: state =>
      match fuel with
      | O => Panic
      | S fuel =>
          let '(graph, pushed) := add_event auth_diff graph eid in
          add_event_and_auth_chain_to_graph fuel auth_diff graph (pushed ++ state)
      end
  end.

Fixpoint build_graph (fuel : nat) (auth_diff : gset EventId) (graph : Graph)
    (events_to_sort : list EventId) : outcome Error Graph :=
  match events_to_sort with
  | [] => Ok graph
  | event_id :: events_to_sort =>
      graph ← add_event_and_auth_chain_to_graph fuel auth_diff graph [event_id];
      build_graph fuel auth_diff graph events_to_sort
  end.

(** [event_to_pl] and the closure [fetcher]. *)
Definition event_levels (graph : Graph) : gmap EventId Z :=
  collect_map (omap (λ id, match get_power_level_for_sender id with
                           | Ok pl => Some (id, pl)
                           | _ => None
                           end) (order 7 (elements (dom graph)))).
Definition fetcher (event_to_pl : gmap EventId Z) (id : EventId) : outcome Error (Z * Z) :=
  pl ← ok_or (NotFound EmptyString) (event_to_pl !! id);
  ev ← ok_or (NotFound EmptyString) (fetch_event id);
  Ok (pl, origin_server_ts ev).

Definition reverse_topological_power_sort (fuel : nat) (events_to_sort : list EventId)
    (auth_diff : gset EventId) : outcome Error (list EventId) :=
  graph ← build_graph fuel auth_diff ∅ events_to_sort;
  let event_to_pl := event_levels graph in
  lexicographical_topological_sort (fetcher event_to_pl) (λ X, order 8 (elements X)) graph
    (order 9 (map_to_list graph)).

(** ** The iterative auth checks *)

Definition no_state_key : Error := InvalidPdu "State event had no state key".

(** The create event of a room whose id is the hash of it. *)
Definition hashed_create (rv : RoomVersion) (event : Pdu Content)
    : outcome Error (gmap TypeStateKey (Pdu Content)) :=
  if room_ids_as_hashes rv then
    room ← room_id_or_hash event;
    match event_id_parse (replace_char "!"%char "$"%char room) with
    | inr e =>
        Err (InvalidPdu ("Failed to parse create event ID from room ID/hash: " +:+ e))
    | inl create_event_id =>
        create_event ← ok_or (NotFound "Failed to find create event")
                         (fetch_event create_event_id);
        Ok {[with_state_key (kind create_event) EmptyString := create_event]}
    end
  else Ok ∅.

(** The auth events the event itself names. *)
Fixpoint add_auth_events (auth_events : gmap EventId (Pdu Content)) (ids : list EventId)
    (auth_state : gmap TypeStateKey (Pdu Content))
    : outcome Error (gmap TypeStateKey (Pdu Content)) :=
  match ids with
  | [] => Ok auth_state
  | aid :: ids =>
      match auth_events !! aid with
      | Some ev =>
          key ← ok_or no_state_key (state_key ev);
          add_auth_events auth_events ids (<[with_state_key (kind ev) key := ev]> auth_state)
      | None => add_auth_events auth_events ids auth_state
      end
  end.

(** The entries of the state resolved so far replace them. *)
Definition add_resolved (auth_events : gmap EventId (Pdu Content)) (resolved_state : StateMap)
    (auth_state : gmap TypeStateKey (Pdu Content)) (key : TypeStateKey)
    : gmap TypeStateKey (Pdu Content) :=
  match resolved_state !! key with
  | Some ev_id =>
      match auth_events !! ev_id with
      | Some event => <[key := event]> auth_state
      | None => match fetch_event ev_id with
                | Some event => <[key := event]> auth_state
                | None => auth_state
                end
      end
  | None => auth_state
  end.

Definition auth_state_for (rv : RoomVersion) (auth_events : gmap EventId (Pdu Content))
    (resolved_state : StateMap) (event : Pdu Content) (key : StateKey)
    : outcome Error (gmap TypeStateKey (Pdu Content)) :=
  auth_types ← auth_types_for_event (kind event) (sender event) (Some key) (content event) rv;
  auth_state ← hashed_create rv event;
  auth_state ← add_auth_events auth_events (Event.auth_events event) auth_state;
  Ok (foldl (add_resolved auth_events resolved_state) auth_state auth_types).

(** One round of the loop over the events. *)
Definition check_event (rv : RoomVersion) (auth_events : gmap EventId (Pdu Content))
    (resolved_state : StateMap) (event : Pdu Content) : outcome Error StateMap :=
  key ← ok_or no_state_key (state_key event);
  auth_state ← auth_state_for rv auth_events resolved_state event key;
  let current_third_party :=
    find (λ pdu, bool_decide (kind pdu = RoomThirdPartyInvite))
      (order 10 (map_to_list auth_state)).*2 in
  let fetch_state ty k := auth_state !! with_state_key ty k in
  create_event ← expect (fetch_state RoomCreate EmptyString);
  passed ← auth_check rv event current_third_party fetch_state create_event;
  Ok (if (passed : bool) then <[with_state_key (kind event) key := event_id event]> resolved_state
      else resolved_state).

Fixpoint check_events (rv : RoomVersion) (auth_events : gmap EventId (Pdu Content))
    (events : list (Pdu Content)) (resolved_state : StateMap) : outcome Error StateMap :=
  match events with
  | [] => Ok resolved_state
  | event :: events =>
      resolved_state ← check_event rv auth_events resolved_state event;
      check_events rv auth_events events resolved_state
  end.

Definition not_found (id : EventId) : Error := NotFound ("Failed to find " +:+ id).

Definition iterative_auth_check (rv : RoomVersion) (events_to_check : list EventId)
    (unconflicted_state : StateMap) : outcome Error StateMap :=
  events ← try_map (λ id, ok_or (not_found id) (fetch_event id)) (order 11 events_to_check);
  if bool_decide (length events = 0) then Ok unconflicted_state
  else
    let auth_event_ids : gset EventId := list_to_set (concat (Event.auth_events <$> events)) in
    let auth_events :=
      collect_map ((λ ev, (event_id ev, ev)) <$> omap fetch_event (order 12 (elements auth_event_ids))) in
    check_events rv auth_events events unconflicted_state.

(** ** The mainline *)

(** The first power levels event among the auth events of an event. *)
Fixpoint power_parent (ids : list EventId) : outcome Error (option (EventId * Pdu Content)) :=
  match ids with
  | [] => Ok None
  | aid :: ids =>
      ev ← ok_or (not_found aid) (fetch_event aid);
      if is_type_and_key ev RoomPowerLevels EmptyString then Ok (Some (aid, ev))
      else power_parent ids
  end.

(** The loop that collects the mainline; [pl] is the variable of the source. *)
Fixpoint mainline_from (fuel : nat) (pl : option EventId) : outcome Error (list EventId) :=
  match pl with
  | None => Ok []
  | Some p =>
      match fuel with
      | O => Panic
      | S fuel =>
          event ← ok_or (not_found p) (fetch_event p);
          parent ← power_parent (Event.auth_events event);
          mainline ← mainline_from fuel (fst <$> parent);
          Ok (p :: mainline)
      end
  end.

Definition mainline_map (mainline : list EventId) : gmap EventId nat :=
  collect_map (imap (λ idx eid, (eid, idx)) (reverse mainline)).

Fixpoint get_mainline_depth (fuel : nat) (event : option (Pdu Content))
    (mainline_map : gmap EventId nat) : outcome Error nat :=
  match event with
  | None => Ok 0
  | Some sort_ev =>
      match mainline_map !! event_id sort_ev with
      | Some depth => Ok depth
      | None =>
          match fuel with
          | O => Panic
          | S fuel =>
              parent ← power_parent (Event.auth_events sort_ev);
              get_mainline_depth fuel (snd <$> parent) mainline_map
          end
      end
  end.

(** [order_map]: events that are missing, or whose depth is an error, are left out. *)
Definition order_entry (fuel : nat) (mm : gmap EventId nat) (id : EventId)
    : option (EventId * (nat * Z * EventId)) :=
  event ← fetch_event id;
  match get_mainline_depth fuel (Some event) mm with
  | Ok depth => Some (id, (depth, origin_server_ts event, id))
  | _ => None
  end.

(** [Ord] of the tuples. *)
Definition entry_cmp (a b : nat * Z * EventId) : comparison :=
  then_cmp (Nat.compare a.1.1 b.1.1)
    (then_cmp (Z.compare a.1.2 b.1.2) (String.compare a.2 b.2)).
Definition entry_le (a b : EventId * (nat * Z * EventId)) : Prop := entry_cmp a.2 b.2 ≠ Gt.
#[global] Instance entry_le_dec a b : Decision (entry_le a b).
Proof. unfold entry_le. apply _. Defined.

Definition mainline_sort (fuel : nat) (to_sort : list EventId)
    (resolved_power_level : option EventId) : outcome Error (list EventId) :=
  if bool_decide (length to_sort = 0) then Ok []
  else
    mainline ← mainline_from fuel resolved_power_level;
    let mm := mainline_map mainline in
    let order_map := collect_map (order 13 (omap (order_entry fuel mm) to_sort)) in
    Ok (merge_sort entry_le (order 14 (map_to_list order_map))).*1.

(** ** Power events *)

Definition is_power_event (event : Pdu Content) : bool :=
  match kind event with
  | RoomPowerLevels | RoomJoinRules | RoomCreate => bool_decide (state_key event = Some EmptyString)
  | RoomMember =>
      match from_RoomMemberEventContent (content event) with
      | Some m =>
          if bool_decide (m ∈ [Leave; Ban]) then bool_decide (Some (sender event) ≠ state_key event)
          else false
      | None => false
      end
  | _ => false
  end.
Definition is_power_event_id (id : EventId) : bool :=
  match fetch_event id with Some state => is_power_event state | None => false end.

(** ** Resolution *)

Definition stateres_version (v : RoomVersionId) : StateResolutionVersion :=
  match v with
  | V2 | V3 | V4 | V5 | V6 | V7 | V8 | V9 | V10 | V11 => StateResV2
  | _ => StateResV2_1
  end.

Context (event_exists : EventId → bool).

(** [all_conflicted]. *)
Definition full_conflicted_set (auth_chain_sets : list (gset EventId))
    (conflicting : gmap TypeStateKey (list EventId)) (csg : gset EventId) : gset EventId :=
  list_to_set (filter (λ id, event_exists id = true)
                 (get_auth_chain_diff auth_chain_sets ++ concat (map_to_list conflicting).*2))
  ∪ csg.

(** [resolve] from the point where the conflicted set is known. *)
Definition resolve_conflicts (fuel : nat) (room_version : RoomVersionId)
    (unconflicted initial_state : StateMap) (all_conflicted : gset EventId)
    : outcome Error StateMap :=
  let control_events :=
    order 15 (filter (λ id, is_power_event_id id = true) (elements all_conflicted)) in
  sorted_control_levels ← reverse_topological_power_sort fuel control_events all_conflicted;
  rv ← RoomVersion_new room_version;
  resolved_control ← iterative_auth_check rv sorted_control_levels initial_state;
  let events_to_resolve :=
    filter (λ id, id ∉ sorted_control_levels) (order 16 (elements all_conflicted)) in
  let power_event := resolved_control !! with_state_key RoomPowerLevels EmptyString in
  sorted_left_events ← mainline_sort fuel events_to_resolve power_event;
  resolved_state ← iterative_auth_check rv sorted_left_events resolved_control;
  Ok (unconflicted ∪ resolved_state).

Definition resolve (fuel : nat) (room_version : RoomVersionId) (state_sets : list StateMap)
    (auth_chain_sets : list (gset EventId)) : outcome Error StateMap :=
  let '(unconflicted, conflicting) := separate state_sets in
  if bool_decide (conflicting = ∅) then Ok unconflicted
  else
    '(csg, initial_state) ←
      (if bool_decide (stateres_version room_version = StateResV2_1) then
         csg ← calculate_conflicted_subgraph fuel conflicting; Ok (csg, ∅)
       else Ok (∅, unconflicted));
    resolve_conflicts fuel room_version unconflicted initial_state
      (full_conflicted_set auth_chain_sets conflicting csg).
End state_res.
