(* ===== verification/StateResProps.v ===== *)
(** * What state resolution guarantees

    The conflicted and the unconflicted state ([separate], [get_auth_chain_diff]), the
    graphs the sorts run on, the order of the mainline, and [resolve] as a whole. *)

From S2P Require Import Prelude RoomVersion Event PowerLevels EventAuth TopoSort StateRes.

Lemma not_all_elem {A} (P : A → Prop) `{∀ x, Decision (P x)} (l : list A) :
  ¬ (∀ x, x ∈ l → P x) ↔ ∃ x, x ∈ l ∧ ¬ P x.
Proof.
  split; [|naive_solver]. intros Hn. rewrite <- Forall_forall in Hn.
  apply not_Forall_Exists in Hn; [|done]. apply Exists_exists in Hn as (x & ? & ?). eauto.
Qed.

(** ** Separation *)

Section separation.
Context `{Schedule}.
Implicit Types (k : TypeStateKey) (v : EventId) (sets : list StateMap).

Definition lookup2 (occ : gmap TypeStateKey (gmap EventId nat)) k v : option nat :=
  default ∅ (occ !! k) !! v.

Lemma occurrence_count l k v :
  lookup2 (foldl occurrence ∅ l) k v
  = if bool_decide ((k, v) ∈ l) then Some (multiplicity (k, v) l) else None.
Proof.
  induction l as [|[k' v'] l IH] using rev_ind; [done|].
  rewrite foldl_snoc, multiplicity_app, multiplicity_singleton.
  set (occ := foldl occurrence ∅ l) in *.
  destruct (decide ((k', v') = (k, v))) as [[= -> ->]|Hne].
  - rewrite (bool_decide_eq_true_2 ((k, v) = _)), (bool_decide_eq_true_2 (_ ∈ _)) by set_solver.
    unfold lookup2, occurrence in *. rewrite lookup_insert_eq. simpl. rewrite lookup_insert_eq, IH.
    f_equal. case_bool_decide as Hin; simpl; [lia|]. apply multiplicity_elem_of in Hin. lia.
  - rewrite (bool_decide_eq_false_2 ((k', v') = _)), Nat.add_0_r by done.
    rewrite (bool_decide_ext ((k, v) ∈ l ++ _) ((k, v) ∈ l)) by set_solver. rewrite <- IH.
    unfold lookup2, occurrence. simpl. destruct (decide (k' = k)) as [->|Hk].
    + rewrite lookup_insert_eq. simpl. by rewrite lookup_insert_ne by congruence.
    + by rewrite lookup_insert_ne.
Qed.

(** How many state sets have the entry. *)
Definition holders sets k v : nat := length (filter (λ s : StateMap, s !! k = Some v) sets).

Lemma holders_multiplicity sets k v :
  multiplicity (k, v) (concat ((λ s : StateMap, order 0 (map_to_list s)) <$> sets)) = holders sets k v.
Proof.
  unfold holders. induction sets as [|s sets IH]; [done|].
  rewrite fmap_cons. cbn [concat]. rewrite multiplicity_app, IH, order_perm, multiplicity_NoDup by apply NoDup_map_to_list.
  rewrite filter_cons. case_bool_decide as Hin; rewrite elem_of_map_to_list in Hin;
    [by rewrite decide_True|by rewrite decide_False].
Qed.

Lemma occurrences_lookup sets k v :
  lookup2 (occurrences sets) k v
  = if bool_decide (holders sets k v = 0) then None else Some (holders sets k v).
Proof.
  unfold occurrences.
  rewrite (foldl_concat occurrence (λ s : StateMap, order 0 (map_to_list s))).
  rewrite occurrence_count, holders_multiplicity.
  pose proof (multiplicity_elem_of (k, v)
    (concat ((λ s : StateMap, order 0 (map_to_list s)) <$> sets))) as Hm.
  rewrite holders_multiplicity in Hm. repeat case_bool_decide; naive_solver.
Qed.

(** The two nested loops of [separate] as one over the entries with their counts. *)
Definition counted (occ : gmap TypeStateKey (gmap EventId nat)) : list (TypeStateKey * (EventId * nat)) :=
  concat ((λ kv : TypeStateKey * gmap EventId nat, pair kv.1 <$> order 2 (map_to_list kv.2))
    <$> order 1 (map_to_list occ)).

Lemma separate_counted sets :
  separate sets = foldl (λ acc t, sort_out (length sets) t.1 acc t.2) (∅, ∅) (counted (occurrences sets)).
Proof.
  unfold separate, counted. rewrite <- foldl_concat. apply foldl_ext. intros acc kv _.
  by rewrite foldl_fmap.
Qed.

Lemma elem_of_counted occ k v c : (k, (v, c)) ∈ counted occ ↔ lookup2 occ k v = Some c.
Proof.
  unfold counted, lookup2. rewrite elem_of_concat_fmap. split.
  - intros ([k' m] & Hk & Hv). rewrite order_perm, elem_of_map_to_list in Hk.
    apply list_elem_of_fmap in Hv as ([v' c'] & [= <- <- <-] & Hv).
    rewrite order_perm, elem_of_map_to_list in Hv. simpl in Hv. by rewrite Hk.
  - intros Hl. destruct (occ !! k) as [m|] eqn:Hk; [|done]. simpl in Hl.
    exists (k, m). rewrite order_perm, elem_of_map_to_list. split; [done|].
    apply list_elem_of_fmap. exists (v, c). by rewrite order_perm, elem_of_map_to_list.
Qed.

(** What the loop collects, from any start. *)
Lemma sort_out_conflicted n l U C k v :
  let C' := (foldl (λ acc t, sort_out n t.1 acc t.2) (U, C) l).2 in
  (v ∈ default [] (C' !! k)) ↔ v ∈ default [] (C !! k) ∨ ∃ c, (k, (v, c)) ∈ l ∧ c ≠ n.
Proof.
  revert U C. induction l as [|[k' [v' c']] l IH]; intros U C; cbn [foldl]; [set_solver|].
  unfold sort_out at 2. cbn [fst snd]. case_bool_decide as Hc; cbv zeta in IH |- *; rewrite IH.
  - setoid_rewrite elem_of_cons. naive_solver.
  - destruct (decide (k' = k)) as [->|Hk].
    + rewrite lookup_insert_eq. destruct (C !! k); simpl; set_solver.
    + rewrite lookup_insert_ne by done. setoid_rewrite elem_of_cons. naive_solver.
Qed.


Lemma sort_out_nonempty n l U C :
  map_Forall (λ _ ids, ids ≠ []) C →
  map_Forall (λ _ ids, ids ≠ []) (foldl (λ acc t, sort_out n t.1 acc t.2) (U, C) l).2.
Proof.
  revert U C. induction l as [|[k' [v' c']] l IH]; intros U C HC; cbn [foldl]; [done|].
  unfold sort_out at 2. cbn [fst snd]. case_bool_decide; [by apply IH|].
  apply IH, map_Forall_insert_2; [|done]. by destruct (C !! k') as [[]|].
Qed.

Lemma sort_out_unconflicted n l U C k :
  let U' := (foldl (λ acc t, sort_out n t.1 acc t.2) (U, C) l).1 in
  (∀ v, U' !! k = Some v → U !! k = Some v ∨ (k, (v, n)) ∈ l)
  ∧ (is_Some (U !! k) ∨ (∃ v, (k, (v, n)) ∈ l) → is_Some (U' !! k)).
Proof.
  revert U C. induction l as [|[k' [v' c']] l IH]; intros U C; cbn [foldl].
  { split; [auto|]. intros [?|[? ?%not_elem_of_nil]]; done. }
  unfold sort_out at 2 4. cbn [fst snd]. cbv zeta in IH |- *.
  case_bool_decide as Hc; [subst c'|].
  - destruct (IH (<[k' := v']> U) C) as [IH1 IH2]. split.
    + intros v [Hv|Hv]%IH1; [|right; by right].
      apply lookup_insert_Some in Hv as [[-> ->]|[_ Hv]]; [right; by left|by left].
    + intros Hk. apply IH2. rewrite lookup_insert_is_Some.
      destruct Hk as [?|[v [[= -> ->]|?]%elem_of_cons]]; [|by left; left|by right; exists v].
      destruct (decide (k' = k)); [by left; left|left; by right].
  - destruct (IH U (<[k' := match C !! k' with Some x => x ++ [v'] | None => [v'] end]> C))
      as [IH1 IH2]. split.
    + intros v [Hv|Hv]%IH1; [by left|right; by right].
    + intros [?|[v [[= -> -> ->]|?]%elem_of_cons]]; apply IH2; [by left|done|right; by exists v].
Qed.

Lemma holders_all sets k v : holders sets k v = length sets ↔ ∀ s, s ∈ sets → s !! k = Some v.
Proof.
  unfold holders. rewrite <- Forall_forall. induction sets as [|s sets IH]; [by split|].
  rewrite filter_cons, Forall_cons. case_decide as Hs; simpl.
  - rewrite <- IH. naive_solver lia.
  - split; [|naive_solver]. pose proof (sublist_length _ _ (sublist_filter (λ s : StateMap, s !! k = Some v) sets)). lia.
Qed.

Lemma holders_none sets k v : holders sets k v = 0 ↔ ∀ s, s ∈ sets → s !! k ≠ Some v.
Proof.
  unfold holders. rewrite length_zero_iff_nil. split; [|by apply filter_none].
  intros Hf s Hs Hk. assert (s ∈ filter (λ s : StateMap, s !! k = Some v) sets) as Hin
    by (by apply list_elem_of_filter). rewrite Hf in Hin. by apply not_elem_of_nil in Hin.
Qed.

Lemma elem_of_counted_occurrences sets k v c :
  (k, (v, c)) ∈ counted (occurrences sets) ↔ c = holders sets k v ∧ c ≠ 0.
Proof. rewrite elem_of_counted, occurrences_lookup. case_bool_decide; naive_solver. Qed.

Lemma separate_unconflicted sets k v :
  (separate sets).1 !! k = Some v ↔ sets ≠ [] ∧ ∀ s, s ∈ sets → s !! k = Some v.
Proof.
  rewrite separate_counted.
  destruct (sort_out_unconflicted (length sets) (counted (occurrences sets)) ∅ ∅ k) as [Hu Hd].
  assert (∀ v, (k, (v, length sets)) ∈ counted (occurrences sets)
               ↔ sets ≠ [] ∧ ∀ s, s ∈ sets → s !! k = Some v) as Hc.
  { intros w. rewrite elem_of_counted_occurrences, <- holders_all.
    destruct sets; simpl; naive_solver. }
  split.
  - intros [?|Hv]%Hu; [done|]. by apply Hc.
  - intros Hv. destruct (Hd ltac:(right; exists v; by apply Hc)) as [v' Hv'].
    rewrite Hv'. f_equal. destruct (Hu v' Hv') as [?|[_ Ha]%Hc]; [done|].
    destruct Hv as [Hne Hv]. destruct sets as [|s sets]; [done|].
    specialize (Ha s ltac:(by left)). specialize (Hv s ltac:(by left)). congruence.
Qed.

Lemma separate_conflicted sets k v :
  v ∈ default [] ((separate sets).2 !! k)
  ↔ (∃ s, s ∈ sets ∧ s !! k = Some v) ∧ (∃ s, s ∈ sets ∧ s !! k ≠ Some v).
Proof.
  rewrite separate_counted, sort_out_conflicted. setoid_rewrite elem_of_counted_occurrences.
  trans (holders sets k v ≠ 0 ∧ holders sets k v ≠ length sets).
  { split; [|naive_solver]. intros [?%not_elem_of_nil|]; naive_solver. }
  rewrite holders_none, holders_all.
  rewrite !not_all_elem by apply _.
  assert ((∃ s : StateMap, s ∈ sets ∧ ¬ s !! k ≠ Some v) ↔ ∃ s : StateMap, s ∈ sets ∧ s !! k = Some v)
    as ->.
  { split; intros (s & ? & Hs); exists s; (split; [done|]); [by apply dec_stable in Hs|auto]. }
  done.
Qed.

Lemma separate_conflicted_nonempty sets k ids : (separate sets).2 !! k = Some ids → ids ≠ [].
Proof. rewrite separate_counted. intros Hk. eapply sort_out_nonempty; [apply map_Forall_empty|done]. Qed.

(** [separate] returns as unconflicted exactly the entries all state sets agree on,
    and as conflicted exactly the ids some set has for a key and some set has not;
    an entry of the conflicted map is never empty. *)
Theorem separate_spec sets U C :
  separate sets = (U, C) →
  (∀ k v, U !! k = Some v ↔ sets ≠ [] ∧ ∀ s, s ∈ sets → s !! k = Some v)
  ∧ (∀ k v, v ∈ default [] (C !! k)
            ↔ (∃ s, s ∈ sets ∧ s !! k = Some v) ∧ (∃ s, s ∈ sets ∧ s !! k ≠ Some v))
  ∧ ∀ k ids, C !! k = Some ids → ids ≠ [].
Proof.
  intros E. pose proof (separate_unconflicted sets) as Hu. pose proof (separate_conflicted sets) as Hc.
  pose proof (separate_conflicted_nonempty sets) as Hn. rewrite E in *. auto.
Qed.

(** ** The difference of the auth chains *)

Lemma count_id_multiplicity l id :
  foldl count_id ∅ l !! id = if bool_decide (id ∈ l) then Some (multiplicity id l) else None.
Proof.
  induction l as [|x l IH] using rev_ind; [done|].
  rewrite foldl_snoc, multiplicity_app, multiplicity_singleton. unfold count_id at 1.
  destruct (decide (x = id)) as [->|Hne].
  - rewrite lookup_insert_eq, IH, (bool_decide_eq_true_2 (id = id)), (bool_decide_eq_true_2 (id ∈ l ++ _))
      by set_solver.
    f_equal. case_bool_decide as Hin; simpl; [lia|]. apply multiplicity_elem_of in Hin. lia.
  - rewrite lookup_insert_ne, IH, (bool_decide_eq_false_2 (x = id)), Nat.add_0_r by done.
    by rewrite (bool_decide_ext (id ∈ l ++ [x]) (id ∈ l)) by set_solver.
Qed.

Definition chains_with (chains : list (gset EventId)) (id : EventId) : nat :=
  length (filter (λ c : gset EventId, id ∈ c) chains).

Lemma chains_multiplicity chains id :
  multiplicity id (concat ((λ c : gset EventId, order 3 (elements c)) <$> chains)) = chains_with chains id.
Proof.
  unfold chains_with. induction chains as [|c chains IH]; [done|].
  rewrite fmap_cons. cbn [concat].
  rewrite multiplicity_app, IH, order_perm, multiplicity_NoDup by apply NoDup_elements.
  rewrite filter_cons. case_bool_decide as Hin; rewrite elem_of_elements in Hin;
    [by rewrite decide_True|by rewrite decide_False].
Qed.

Lemma chains_with_all chains id : chains_with chains id < length chains ↔ ∃ c, c ∈ chains ∧ id ∉ c.
Proof.
  unfold chains_with. rewrite <- not_all_elem by apply _. rewrite <- Forall_forall.
  induction chains as [|c chains IH]; simpl; [split; [lia|naive_solver]|].
  rewrite filter_cons, Forall_cons. case_decide; simpl.
  - rewrite <- Nat.succ_lt_mono, IH. naive_solver.
  - pose proof (sublist_length _ _ (sublist_filter (λ c : gset EventId, id ∈ c) chains)).
    split; [naive_solver|lia].
Qed.

Lemma auth_chain_diff_elem chains id :
  id ∈ get_auth_chain_diff chains
  ↔ (∃ c, c ∈ chains ∧ id ∈ c) ∧ (∃ c, c ∈ chains ∧ id ∉ c).
Proof.
  unfold get_auth_chain_diff.
  rewrite (foldl_concat count_id (λ c : gset EventId, order 3 (elements c))).
  rewrite <- chains_with_all. rewrite list_elem_of_fmap.
  setoid_rewrite list_elem_of_filter. setoid_rewrite order_perm. split.
  - intros ([id' n] & -> & Hn & Hin). rewrite elem_of_map_to_list, count_id_multiplicity in Hin.
    simpl in *. case_bool_decide as He; [|done]. rewrite chains_multiplicity in Hin.
    injection Hin as <-. split; [|done]. apply elem_of_concat_fmap in He as (c & ? & He).
    rewrite order_perm, elem_of_elements in He. eauto.
  - intros [(c & Hc & Hid) Hlt]. exists (id, chains_with chains id). split_and!; [done..|].
    rewrite elem_of_map_to_list, count_id_multiplicity, chains_multiplicity.
    rewrite bool_decide_eq_true_2; [done|]. apply elem_of_concat_fmap. exists c.
    by rewrite order_perm, elem_of_elements.
Qed.

(** [get_auth_chain_diff] lists exactly the ids that are in some auth chain but not
    in all of them. *)
Theorem get_auth_chain_diff_spec chains id :
  id ∈ get_auth_chain_diff chains
  ↔ (∃ c, c ∈ chains ∧ id ∈ c) ∧ (∃ c, c ∈ chains ∧ id ∉ c).
Proof. apply auth_chain_diff_elem. Qed.
End separation.
