(* ===== verification/AuthGraph.v ===== *)
(** * The graphs state resolution walks

    The two traversals of the auth events: the graph the control events are sorted in
    ([add_event_and_auth_chain_to_graph], [reverse_topological_power_sort]) and, in
    [ConflictGraph.v], the conflicted subgraph.  Both are proved to end within a number
    of rounds given by the events the store knows, and to compute a set defined by
    reachability. *)

From S2P Require Import Prelude RoomVersion Event PowerLevels EventAuth TopoSort StateRes.

(** ** A bound on the rounds *)

Section weight.
Context {Content : Type} (fetch_event : EventId → option (Pdu Content)).

(** The number of references in the events of a set. *)
Definition weight (X : gset EventId) : nat :=
  sum_list_with (λ id, length (auth_ids fetch_event id)) (elements X).

Lemma weight_insert id (X : gset EventId) :
  id ∉ X → weight ({[id]} ∪ X) = length (auth_ids fetch_event id) + weight X.
Proof. intros Hn. unfold weight. by rewrite elements_union_singleton. Qed.

Lemma weight_remove id (X : gset EventId) :
  id ∈ X → weight X = length (auth_ids fetch_event id) + weight (X ∖ {[id]}).
Proof. intros Hin. rewrite <- weight_insert by set_solver. f_equal. by apply union_difference_singleton_L. Qed.

(** The store: ids outside [known] are not found. *)
Definition store_within (known : gset EventId) : Prop :=
  ∀ id, is_Some (fetch_event id) → id ∈ known.

Lemma auth_ids_unknown known id :
  store_within known → id ∉ known → auth_ids fetch_event id = [].
Proof.
  intros Hk Hn. unfold auth_ids. destruct (fetch_event id) eqn:E; [|done].
  destruct Hn. apply Hk. by eexists.
Qed.

(** Visiting an id for the first time pays for its references. *)
Lemma weight_visit known seen id :
  store_within known → id ∉ seen →
  weight (known ∖ seen)
  = length (auth_ids fetch_event id) + weight (known ∖ ({[id]} ∪ seen)).
Proof.
  intros Hk Hn. destruct (decide (id ∈ known)) as [Hin|Hin].
  - rewrite (weight_remove id) by set_solver. do 2 f_equal. set_solver.
  - rewrite (auth_ids_unknown known id) by done. simpl. f_equal. set_solver.
Qed.

Lemma weight_mono (X Y : gset EventId) : X ⊆ Y → weight X ≤ weight Y.
Proof.
  intros HXY. replace Y with (X ∪ Y ∖ X) by (symmetry; by apply union_difference_L).
  unfold weight. rewrite elements_disj_union by set_solver. rewrite sum_list_with_app. lia.
Qed.
End weight.

(** ** The graph of the control events *)

Section graph.
Context {Content : Type} (fetch_event : EventId → option (Pdu Content)).
Context (auth_diff : gset EventId).

Definition children (id : EventId) : gset EventId :=
  list_to_set (filter (.∈ auth_diff) (auth_ids fetch_event id)).
Definition refers (a b : EventId) : Prop := b ∈ children a.

Lemma elem_of_children a b : b ∈ children a ↔ b ∈ auth_ids fetch_event a ∧ b ∈ auth_diff.
Proof. unfold children. rewrite elem_of_list_to_set, list_elem_of_filter. tauto. Qed.

Local Abbreviation add_round eid := (λ (gs : Graph * list EventId) (aid : EventId),
  let '(graph, pushed) := gs in
  if bool_decide (aid ∈ auth_diff) then
    (entry_insert eid {[aid]} graph, if bool_decide (aid ∈ dom graph) then pushed else aid :: pushed)
  else (graph, pushed)).

(** The inner loop, over any part of the auth events. *)
Lemma add_round_spec eid l g p g' p' :
  eid ∈ dom g → foldl (add_round eid) (g, p) l = (g', p') →
  dom g' = dom g
  ∧ (∀ j, get g' j = if decide (j = eid) then get g eid ∪ list_to_set (filter (.∈ auth_diff) l)
                     else get g j)
  ∧ (∀ x, x ∈ p' ↔ x ∈ p ∨ (x ∈ l ∧ x ∈ auth_diff ∧ x ∉ dom g))
  ∧ length p' ≤ length p + length l.
Proof.
  revert g p. induction l as [|a l IH]; intros g p He.
  { cbn. intros [= <- <-]. split_and!; [done| |set_solver|lia].
    intros j. destruct (decide (j = eid)) as [->|]; set_solver. }
  cbn [foldl]. rewrite filter_cons. case_bool_decide as Ha.
  - intros Hf. apply IH in Hf as (Hd & Hg & Hp & Hl); [|rewrite entry_insert_dom; set_solver].
    rewrite entry_insert_dom in Hd, Hp. replace ({[eid]} ∪ dom g) with (dom g) in Hd, Hp by set_solver.
    rewrite decide_True by done. split_and!.
    + done.
    + intros j. rewrite Hg, !entry_insert_get. destruct (decide (j = eid)) as [->|]; [|done].
      rewrite decide_True by done. cbn [list_to_set]. set_solver.
    + intros x. rewrite Hp. clear Hp Hg Hl. case_bool_decide; set_solver.
    + cbn [length]. case_bool_decide; cbn [length] in Hl; lia.
  - intros Hf. apply IH in Hf as (Hd & Hg & Hp & Hl); [|done]. rewrite decide_False by done.
    split_and!; [done|done| |cbn [length]; lia]. intros x. rewrite Hp. clear Hp Hg. set_solver.
Qed.

Lemma add_event_spec g eid g' pushed :
  add_event fetch_event auth_diff g eid = (g', pushed) →
  dom g' = {[eid]} ∪ dom g
  ∧ (∀ j, get g' j = if decide (j = eid) then get g eid ∪ children eid else get g j)
  ∧ (∀ x, x ∈ pushed ↔ x ∈ children eid ∧ x ≠ eid ∧ x ∉ dom g)
  ∧ length pushed ≤ length (auth_ids fetch_event eid).
Proof.
  unfold add_event. intros Ha. apply add_round_spec in Ha as (Hd & Hg & Hp & Hl);
    [|rewrite entry_insert_dom; set_solver].
  rewrite entry_insert_dom in *. split_and!; [done| | |done].
  - intros j. rewrite Hg, !entry_insert_get. destruct (decide (j = eid)) as [->|]; [|done].
    rewrite decide_True by done. unfold children. by rewrite union_empty_r_L.
  - intros x. rewrite Hp, elem_of_children. set_solver.
Qed.

(** [roots] and what they refer to, directly or not, within [auth_diff]. *)
Definition reached (roots : list EventId) (n : EventId) : Prop :=
  ∃ r, r ∈ roots ∧ rtc refers r n.

(** What the loop keeps.  The second clause is why an id that was pushed twice is
    cheap: when it comes up again, what it refers to has been visited. *)
Record graph_inv (roots : list EventId) (g : Graph) (st : list EventId) : Prop := {
  gi_entries : ∀ k, k ∈ dom g → get g k = children k;
  gi_lifo : ∀ pre k post, st = pre ++ k :: post → k ∈ dom g →
              ∀ c, c ∈ children k → c ∈ dom g ∨ c ∈ pre;
  gi_closed : ∀ k c, k ∈ dom g → c ∈ children k → c ∈ dom g ∨ c ∈ st;
  gi_reach : ∀ n, n ∈ dom g ∨ n ∈ st → reached roots n;
}.

Lemma graph_inv_round roots g k st g' pushed :
  graph_inv roots g (k :: st) → add_event fetch_event auth_diff g k = (g', pushed) →
  graph_inv roots g' (pushed ++ st).
Proof.
  intros [He Hl Hc Hr] (Hd & Hg & Hp & _)%add_event_spec.
  assert (∀ c, c ∈ children k → c ∈ dom g' ∨ c ∈ pushed) as Hk.
  { intros c Hck. destruct (decide (c ∈ dom g')) as [|Hn]; [by left|right]. apply Hp. set_solver. }
  assert (∀ n, n ∈ dom g' ∨ n ∈ pushed ++ st → reached roots n) as Hr'.
  { intros n [Hn|[Hn|Hn]%elem_of_app].
    - apply Hr. rewrite Hd in Hn. set_solver.
    - apply Hp in Hn as (Hn & _). destruct (Hr k ltac:(right; by left)) as (r & Hin & Hrt).
      exists r. split; [done|]. eapply rtc_r; [done|exact Hn].
    - apply Hr. right. by right. }
  constructor; [| | |done].
  - intros j Hj. rewrite Hg. destruct (decide (j = k)) as [->|Hne]; [|apply He; set_solver].
    destruct (decide (k ∈ dom g)) as [Hin|Hin]; [rewrite He by done; set_solver|].
    unfold get. rewrite (proj1 (not_elem_of_dom _ _) Hin). set_solver.
  - intros pre x post Heq Hx c Hcx.
    apply app_eq_inv in Heq as [(l & -> & Heq)|(l & -> & Heq)].
    + destruct l as [|y l]; simplify_eq/=.
      * rewrite app_nil_r in *. destruct (decide (x = k)) as [->|]; [by apply Hk|].
        destruct (Hl [k] x post eq_refl ltac:(set_solver) c Hcx) as [?|Hck]; [left; set_solver|].
        apply list_elem_of_singleton in Hck as ->. left. set_solver.
      * assert (y ∈ pre ++ y :: l) as Hy%Hp by set_solver. set_solver.
    + destruct (decide (x = k)) as [->|]; [destruct (Hk c Hcx); set_solver|].
      destruct (Hl (k :: l) x post ltac:(by rewrite Heq) ltac:(set_solver) c Hcx) as [?|Hck];
        [left; set_solver|].
      apply elem_of_cons in Hck as [->|?]; [left|right]; set_solver.
  - intros j c Hj Hcj. destruct (decide (j = k)) as [->|]; [destruct (Hk c Hcj); set_solver|].
    destruct (Hc j c ltac:(set_solver) Hcj) as [?|[->|?]%elem_of_cons]; set_solver.
Qed.

(** The rounds left are bounded by the work list and the references not yet followed. *)
Lemma graph_round_measure known roots g k st g' pushed :
  store_within fetch_event known →
  graph_inv roots g (k :: st) → add_event fetch_event auth_diff g k = (g', pushed) →
  length (pushed ++ st) + weight fetch_event (known ∖ dom g')
    < length (k :: st) + weight fetch_event (known ∖ dom g).
Proof.
  intros Hk [_ Hl _ _] (Hd & _ & Hp & Hlen)%add_event_spec. rewrite Hd, length_app. simpl.
  destruct (decide (k ∈ dom g)) as [Hin|Hin].
  - assert (pushed = []) as ->.
    { destruct pushed as [|x p]; [done|]. destruct (proj1 (Hp x) ltac:(by left)) as (Hx & _ & Hn).
      destruct (Hl [] k st eq_refl Hin x Hx) as [?|Hx']; [done|]. by apply not_elem_of_nil in Hx'. }
    replace ({[k]} ∪ dom g) with (dom g) by set_solver. simpl. lia.
  - rewrite (weight_visit _ known (dom g) k) by done. lia.
Qed.

Lemma add_chain_spec known fuel roots g st :
  store_within fetch_event known → graph_inv roots g st →
  length st + weight fetch_event (known ∖ dom g) ≤ fuel →
  ∃ g', add_event_and_auth_chain_to_graph fetch_event fuel auth_diff g st = Ok g'
    ∧ graph_inv roots g' [] ∧ dom g ⊆ dom g' ∧ ∀ n, n ∈ st → n ∈ dom g'.
Proof.
  intros Hk. revert g st. induction fuel as [|fuel IH]; intros g [|k st] Hinv Hf; cbn.
  1,3: exists g; split_and!; [done..|]; intros n ?%not_elem_of_nil; done.
  { simpl in Hf. lia. }
  destruct (add_event fetch_event auth_diff g k) as [g1 pushed] eqn:Ha.
  pose proof (graph_round_measure known _ _ _ _ _ _ Hk Hinv Ha).
  destruct (IH g1 (pushed ++ st)) as (g' & Hg' & Hinv' & Hd & Hst);
    [by eapply graph_inv_round|lia|].
  apply add_event_spec in Ha as (Hd1 & _). exists g'. split_and!; [done..|set_solver|].
  intros n [->|Hn]%elem_of_cons; [set_solver|]. apply Hst, elem_of_app. by right.
Qed.

Lemma graph_inv_roots roots roots' g :
  (∀ r, r ∈ roots → r ∈ roots') → graph_inv roots g [] → graph_inv roots' g [].
Proof.
  intros Hs [He Hl Hc Hr]. constructor; try done.
  intros n Hn. destruct (Hr n Hn) as (r & ? & ?). exists r. auto.
Qed.

(** A further root. *)
Lemma graph_inv_root roots g id :
  graph_inv roots g [] → id ∈ roots → graph_inv roots g [id].
Proof.
  intros [He Hl Hc Hr] Hid. constructor; [done| | |].
  - intros pre k post Heq Hk c Hck. destruct (Hc k c Hk Hck) as [?|?%not_elem_of_nil]; [by left|done].
  - intros k c Hk Hck. destruct (Hc k c Hk Hck) as [?|?%not_elem_of_nil]; [by left|done].
  - intros n [Hn| ->%list_elem_of_singleton]; [by apply Hr; left|].
    exists id. split; [done|constructor].
Qed.

Lemma build_graph_inv known fuel roots g ids :
  store_within fetch_event known → (∀ id, id ∈ ids → id ∈ roots) → graph_inv roots g [] →
  S (weight fetch_event known) ≤ fuel →
  ∃ g', build_graph fetch_event fuel auth_diff g ids = Ok g'
    ∧ graph_inv roots g' [] ∧ dom g ⊆ dom g' ∧ ∀ n, n ∈ ids → n ∈ dom g'.
Proof.
  intros Hk. revert g. induction ids as [|id ids IH]; intros g Hids Hinv Hf; cbn.
  { exists g. split_and!; [done..|]. intros n ?%not_elem_of_nil. done. }
  destruct (add_chain_spec known fuel roots g [id] Hk) as (g1 & Hg1 & Hinv1 & Hd1 & Hin1).
  { apply graph_inv_root; [done|]. apply Hids. by left. }
  { pose proof (weight_mono fetch_event (known ∖ dom g) known ltac:(set_solver)). simpl. lia. }
  rewrite Hg1. cbn. destruct (IH g1) as (g' & ? & ? & Hd & Hin); [|done..|].
  { intros x Hx. apply Hids. by right. }
  exists g'. split_and!; [done..|set_solver|].
  intros n [->|?]%elem_of_cons; [|auto]. apply Hd, Hin1. by left.
Qed.

(** The nodes are the ids reached from the control events, the edges of a node are its
    auth events within [auth_diff]. *)
Lemma build_graph_spec known fuel ids :
  store_within fetch_event known → S (weight fetch_event known) ≤ fuel →
  ∃ g, build_graph fetch_event fuel auth_diff ∅ ids = Ok g
    ∧ (∀ n, n ∈ dom g ↔ reached ids n) ∧ (∀ n, n ∈ dom g → edges g n = children n).
Proof.
  intros Hk Hf. destruct (build_graph_inv known fuel ids ∅ ids Hk) as (g & Hg & Hinv & _ & Hin); [done| |done|].
  { constructor; [set_solver..|]. intros n [?|?%not_elem_of_nil]; set_solver. }
  destruct Hinv as [He _ Hc Hr]. exists g. split_and!; [done| |exact He].
  intros n. split; [auto|]. intros (r & Hr1 & Hrt). apply Hin in Hr1. clear Hin.
  induction Hrt as [|x y z Hxy _ IH]; [done|]. apply IH.
  destruct (Hc x y Hr1 Hxy) as [?|?%not_elem_of_nil]; done.
Qed.
End graph.

(** ** Collecting into a map *)

Lemma collect_map_snoc {K A} `{Countable K} (l : list (K * A)) k a :
  collect_map (l ++ [(k, a)]) = <[k := a]> (collect_map l).
Proof. unfold collect_map. by rewrite foldl_snoc. Qed.

Lemma collect_map_elem {K A} `{Countable K} (l : list (K * A)) k a :
  collect_map l !! k = Some a → (k, a) ∈ l.
Proof.
  induction l as [|[k' a'] l IH] using rev_ind; [done|]. rewrite collect_map_snoc, elem_of_app.
  intros [[-> ->]|[_ Hl]]%lookup_insert_Some; [right; by left|left; auto].
Qed.

Lemma collect_map_dom {K A} `{Countable K} (l : list (K * A)) k a :
  (k, a) ∈ l → is_Some (collect_map l !! k).
Proof.
  induction l as [|[k' a'] l IH] using rev_ind; [by intros ?%not_elem_of_nil|].
  rewrite collect_map_snoc, elem_of_app, list_elem_of_singleton. intros [Hl|[= <- <-]].
  - apply lookup_insert_is_Some. destruct (decide (k' = k)); [by left|right]. auto.
  - rewrite lookup_insert_eq. by eexists.
Qed.

(** When a key has one value, the map is the list. *)
Lemma collect_map_functional {K A} `{Countable K} (l : list (K * A)) k a :
  (∀ a', (k, a') ∈ l → a' = a) → (k, a) ∈ l → collect_map l !! k = Some a.
Proof.
  intros Hf Hin. destruct (collect_map_dom l k a Hin) as [a' Ha']. rewrite Ha'. f_equal.
  apply Hf. by apply collect_map_elem.
Qed.

(** ** Sorting the control events *)

Section power_sort.
Context {Content : Type} `{Ruma Content} `{Schedule}.
Context (fetch_event : EventId → option (Pdu Content)) (auth_diff : gset EventId).

Lemma event_levels_lookup g id pl :
  event_levels fetch_event g !! id = Some pl
  ↔ id ∈ dom g ∧ get_power_level_for_sender fetch_event id = Ok pl.
Proof.
  unfold event_levels.
  assert (∀ i p, (i, p) ∈ omap (λ id, match get_power_level_for_sender fetch_event id with
            | Ok pl => Some (id, pl) | _ => None end) (order 7 (elements (dom g)))
          ↔ i ∈ dom g ∧ get_power_level_for_sender fetch_event i = Ok p) as Hl.
  { intros i p. rewrite list_elem_of_omap. setoid_rewrite order_perm.
    setoid_rewrite elem_of_elements. split.
    - intros (j & Hj & Hp). case_match; simplify_eq. done.
    - intros [Hi Hp]. exists i. split; [done|]. by rewrite Hp. }
  split.
  - intros Hc%collect_map_elem. by apply Hl.
  - intros Hc. apply collect_map_functional; [|by apply Hl].
    intros p [_ Hp]%Hl. destruct Hc. congruence.
Qed.

(** The events the sort meets are stored and their power levels can be read. *)
Definition levels_readable (ids : list EventId) : Prop :=
  ∀ n, reached fetch_event auth_diff ids n →
    is_Some (fetch_event n) ∧ ∃ pl, get_power_level_for_sender fetch_event n = Ok pl.

(** A graph with those nodes and edges can be sorted. *)
Lemma graph_sortable ids g :
  levels_readable ids →
  (∀ n, n ∈ dom g ↔ reached fetch_event auth_diff ids n) →
  (∀ n, n ∈ dom g → edges g n = children fetch_event auth_diff n) →
  sortable (fetcher fetch_event (event_levels fetch_event g)) g.
Proof.
  intros Hlv Hdom Hedges. split.
  - intros n e He. apply Hdom.
    assert (n ∈ dom g) as Hn.
    { unfold edges in He. rewrite elem_of_dom. destruct (g !! n); [done|set_solver]. }
    rewrite Hedges in He by done. apply Hdom in Hn as (r & ? & Hrt).
    exists r. split; [done|]. eapply rtc_r; [done|exact He].
  - intros n Hn. destruct (Hlv n (proj1 (Hdom n) Hn)) as [[ev Hev] [pl Hpl]].
    exists (pl, origin_server_ts ev). unfold fetcher.
    rewrite (proj2 (event_levels_lookup g n pl) (conj Hn Hpl)), Hev. done.
Qed.

(** C39: [reverse_topological_power_sort] returns, within the stated fuel, every control
    event and every event of the conflicted set it depends on through auth events, each
    once, and every event after the auth events it names in that set. *)
Theorem reverse_topological_power_sort_spec known fuel ids (rank : EventId → nat) :
  store_within fetch_event known → S (weight fetch_event known) ≤ fuel →
  levels_readable ids →
  (∀ a b, b ∈ auth_ids fetch_event a → rank b < rank a) →
  ∃ l, reverse_topological_power_sort fetch_event fuel ids auth_diff = Ok l
    ∧ NoDup l ∧ (∀ n, n ∈ l ↔ reached fetch_event auth_diff ids n)
    ∧ ∀ l1 n l2, l = l1 ++ n :: l2 →
        ∀ a, a ∈ auth_ids fetch_event n → a ∈ auth_diff → a ∈ l1.
Proof.
  intros Hk Hf Hlv Hrank. destruct (build_graph_spec fetch_event auth_diff known fuel ids Hk Hf)
    as (g & Hg & Hdom & Hedges).
  assert (∀ n e, e ∈ edges g n → n ∈ dom g ∧ e ∈ children fetch_event auth_diff n) as Hed.
  { intros n e He. assert (n ∈ dom g) as Hn.
    { unfold edges in He. rewrite elem_of_dom. destruct (g !! n); [done|set_solver]. }
    by rewrite <- (Hedges n Hn). }
  assert (sortable (fetcher fetch_event (event_levels fetch_event g)) g) as Hs
    by (by eapply graph_sortable).
  unfold reverse_topological_power_sort. rewrite Hg. cbn [mbind outcome_bind].
  destruct (sort_lex_topo _ g (λ X, order 8 (elements X)) (order 9 (map_to_list g)) Hs)
    as (l & Hl & Hlex); [intros; apply order_perm..|].
  exists l. destruct (lex_topo_topological _ _ _ _ Hlex) as (Hnd & Hin & Htopo).
  split_and!; [done|done| |].
  - intros n. rewrite <- Hdom. split; [apply Hin|].
    refine (lex_topo_complete g _ rank [] l _ Hlex n). intros m e He. split; [by apply (proj1 Hs m)|].
    apply Hed in He as [_ He]. apply elem_of_children in He as [He _]. auto.
  - intros l1 n l2 Heq a Ha Hd. apply (Htopo l1 n l2 Heq).
    rewrite Hedges by (apply Hin; rewrite Heq; set_solver). by apply elem_of_children.
Qed.
End power_sort.
