(* ===== verification/Mainline.v ===== *)
(** * The mainline order

    [mainline_sort] of [src/core/matrix/state_res/mod.rs]: the events left after the
    control events are ordered by the depth of their closest power levels event on the
    mainline, then by timestamp and id.  The loops end on acyclic auth events, the result
    is sorted and complete, and it does not depend on the schedule. *)

From S2P Require Import Prelude RoomVersion Event PowerLevels EventAuth TopoSort StateRes AuthGraph.

(** ** The order of the entries *)

(** The comparison is the one of [TieBreaker] with the depth negated. *)
Definition entry_tie (a : nat * Z * EventId) : TieBreaker := mkTie (- Z.of_nat a.1.1) a.1.2 a.2.

Lemma entry_cmp_tie a b : entry_cmp a b = tie_cmp (entry_tie a) (entry_tie b).
Proof.
  unfold entry_cmp, tie_cmp, entry_tie. simpl. f_equal.
  by rewrite <- Nat2Z.inj_compare, Z.compare_opp.
Qed.

Lemma entry_tie_inj a b : entry_tie a = entry_tie b → a = b.
Proof. destruct a as [[??]?], b as [[??]?]. unfold entry_tie. simpl. intros [= ? ? ?]. subst. do 2 f_equal. lia. Qed.

Lemma entry_le_iff a b : entry_le a b ↔ a.2 = b.2 ∨ tie_lt (entry_tie a.2) (entry_tie b.2).
Proof.
  unfold entry_le, tie_lt. rewrite entry_cmp_tie. split.
  - destruct (tie_cmp _ _) eqn:E; [left|by right|done]. by apply entry_tie_inj, tie_cmp_Eq.
  - intros [->| ->]; [by rewrite tie_cmp_refl|done].
Qed.

#[export] Instance entry_le_trans : Transitive entry_le.
Proof.
  intros a b c. rewrite !entry_le_iff. intros [->|Hab] [<-|Hbc]; [by left|by right..|].
  right. by trans (entry_tie b.2).
Qed.
#[export] Instance entry_le_total : Total entry_le.
Proof.
  intros a b. rewrite !entry_le_iff.
  destruct (tie_total (entry_tie a.2) (entry_tie b.2)) as [?%entry_tie_inj|[?|?]]; auto.
Qed.
Lemma entry_le_antisym a b : entry_le a b → entry_le b a → a.2 = b.2.
Proof.
  rewrite !entry_le_iff. intros [?|Hab] [?|Hba]; [done..|].
  destruct (tie_lt_irrefl (entry_tie a.2)). by trans (entry_tie b.2).
Qed.

(** ** The result of the sort *)

Section mainline.
Context {Content : Type} (fetch_event : EventId → option (Pdu Content)).
Implicit Types (to_sort : list EventId) (fuel : nat).

(** The map of the entries, whatever the order of completion. *)
Lemma order_map_lookup `{Schedule} fuel mm to_sort id e :
  collect_map (order 13 (omap (order_entry fetch_event fuel mm) to_sort)) !! id = Some e
  ↔ id ∈ to_sort ∧ order_entry fetch_event fuel mm id = Some (id, e).
Proof.
  assert (∀ i x, order_entry fetch_event fuel mm i = Some x → x.1 = i) as Hid.
  { intros i x. unfold order_entry. destruct (fetch_event i); simpl; [|done].
    case_match; [|done..]. by intros [= <-]. }
  assert (∀ i x, (i, x) ∈ order 13 (omap (order_entry fetch_event fuel mm) to_sort)
                 ↔ i ∈ to_sort ∧ order_entry fetch_event fuel mm i = Some (i, x)) as Hl.
  { intros i x. rewrite order_perm, list_elem_of_omap. split.
    - intros (j & Hj & Hx). pose proof (Hid j _ Hx) as Hij. simpl in Hij. by subst.
    - intros [Hi Hx]. by exists i. }
  split.
  - intros Hc%collect_map_elem. by apply Hl.
  - intros Hc. apply collect_map_functional; [|by apply Hl].
    intros x [_ Hx]%Hl. destruct Hc as [_ Hc]. congruence.
Qed.

(** The entries [mainline_sort] orders and the order it puts them in. *)
Lemma mainline_sort_entries `{Schedule} fuel to_sort pl l :
  mainline_sort fetch_event fuel to_sort pl = Ok l →
  to_sort = [] ∧ l = [] ∨
  ∃ mainline es,
    mainline_from fetch_event fuel pl = Ok mainline
    ∧ l = es.*1 ∧ NoDup l ∧ StronglySorted entry_le es
    ∧ (∀ id e, (id, e) ∈ es
               ↔ id ∈ to_sort ∧ order_entry fetch_event fuel (mainline_map mainline) id = Some (id, e)).
Proof.
  unfold mainline_sort. case_bool_decide as Hlen.
  { intros [= <-]. left. by apply nil_length_inv in Hlen. }
  intros (mainline & Hm & [= <-])%bind_Ok_inv. right. eexists mainline, _.
  split_and!; [done|done| | |].
  - rewrite merge_sort_Permutation, order_perm. apply NoDup_fst_map_to_list.
  - apply StronglySorted_merge_sort; apply _.
  - intros id e. rewrite merge_sort_Permutation, order_perm, elem_of_map_to_list.
    apply order_map_lookup.
Qed.

Lemma mainline_sort_deterministic_aux (S1 S2 : Schedule) fuel to_sort1 to_sort2 pl :
  to_sort1 ≡ₚ to_sort2 →
  @mainline_sort _ S1 fetch_event fuel to_sort1 pl = @mainline_sort _ S2 fetch_event fuel to_sort2 pl.
Proof.
  intros Hp. unfold mainline_sort. rewrite (Permutation_length Hp). case_bool_decide; [done|].
  destruct (mainline_from fetch_event fuel pl) as [mainline| |]; cbn [mbind outcome_bind]; [|done..].
  do 2 f_equal. set (m1 := collect_map _). set (m2 := collect_map _).
  assert (m1 = m2) as Hm.
  { apply map_eq. intros id. apply option_eq. intros e. unfold m1, m2.
    rewrite !order_map_lookup. by rewrite Hp. }
  apply Sorted_unique_strong with entry_le; [apply _| |apply Sorted_merge_sort, _..|].
  - intros [i1 e1] [i2 e2]. rewrite !merge_sort_Permutation, !order_perm, !elem_of_map_to_list, Hm.
    intros H1 H2 Hle1 Hle2. pose proof (entry_le_antisym _ _ Hle1 Hle2) as He. simpl in He. subst e2.
    apply order_map_lookup in H1 as [_ H1], H2 as [_ H2]. unfold order_entry in H1, H2.
    destruct (fetch_event i1), (fetch_event i2); simplify_eq/=.
    repeat case_match; simplify_eq. done.
  - by rewrite !merge_sort_Permutation, !order_perm, Hm.
Qed.

(** The order of [mainline_sort] does not depend on the schedule: neither the order in
    which the fetches complete nor the iteration order of the hash map shows, nor the
    order of the input. *)
Theorem mainline_sort_deterministic (S1 S2 : Schedule) fuel to_sort1 to_sort2 pl :
  to_sort1 ≡ₚ to_sort2 →
  @mainline_sort _ S1 fetch_event fuel to_sort1 pl = @mainline_sort _ S2 fetch_event fuel to_sort2 pl.
Proof. apply mainline_sort_deterministic_aux. Qed.

(** ** Termination *)

(** Auth events of stored events are stored, and references do not cycle. *)
Definition store_closed : Prop :=
  ∀ id a, a ∈ auth_ids fetch_event id → is_Some (fetch_event a).
Definition acyclic (rank : EventId → nat) : Prop :=
  ∀ id a, a ∈ auth_ids fetch_event id → rank a < rank id.

Lemma power_parent_found ids :
  (∀ a, a ∈ ids → is_Some (fetch_event a)) →
  ∃ r, power_parent fetch_event ids = Ok r
    ∧ ∀ a ev, r = Some (a, ev) → a ∈ ids ∧ fetch_event a = Some ev.
Proof.
  induction ids as [|a ids IH]; intros Hids; cbn; [by exists None|].
  destruct (Hids a ltac:(by left)) as [ev Hev]. rewrite Hev. cbn.
  destruct (is_type_and_key ev RoomPowerLevels EmptyString).
  - exists (Some (a, ev)). split; [done|]. intros ? ? [= <- <-]. split; [by left|done].
  - destruct IH as (r & Hr & Hin); [intros b Hb; apply Hids; by right|].
    exists r. split; [done|]. intros b ev' Hb. destruct (Hin b ev' Hb). split; [by right|done].
Qed.

Lemma parent_of_stored rank id ev :
  store_closed → acyclic rank → fetch_event id = Some ev →
  ∃ r, power_parent fetch_event (Event.auth_events ev) = Ok r
    ∧ ∀ a aev, r = Some (a, aev) → rank a < rank id ∧ fetch_event a = Some aev.
Proof.
  intros Hc Ha Hev. assert (auth_ids fetch_event id = Event.auth_events ev) as Hids
    by (unfold auth_ids; by rewrite Hev).
  destruct (power_parent_found (Event.auth_events ev)) as (r & Hr & Hin).
  { intros a Ha'. apply (Hc id). by rewrite Hids. }
  exists r. split; [done|]. intros a aev Hr'. destruct (Hin a aev Hr'). split; [|done].
  apply Ha. by rewrite Hids.
Qed.

Lemma mainline_from_total rank fuel p :
  store_closed → acyclic rank →
  (∀ id, p = Some id → rank id < fuel ∧ is_Some (fetch_event id)) →
  ∃ mainline, mainline_from fetch_event fuel p = Ok mainline.
Proof.
  intros Hc Ha. revert p. induction fuel as [|fuel IH]; intros [id|] Hp; cbn; [|by eexists| |by eexists].
  { destruct (Hp id eq_refl). lia. }
  destruct (Hp id eq_refl) as [Hr [ev Hev]]. rewrite Hev. cbn.
  destruct (parent_of_stored rank id ev Hc Ha Hev) as (r & -> & Hin). cbn.
  destruct (IH (fst <$> r)) as [mainline ->].
  { intros a Hfa. destruct r as [[a' aev]|]; simplify_eq/=.
    destruct (Hin a aev eq_refl) as [? Hf]. split; [lia|by eexists]. }
  cbn. by eexists.
Qed.

Lemma mainline_depth_total rank fuel mm id ev :
  store_closed → acyclic rank → fetch_event id = Some ev → rank id < fuel →
  ∃ d, get_mainline_depth fetch_event fuel (Some ev) mm = Ok d.
Proof.
  intros Hc Ha. revert id ev. induction fuel as [|fuel IH]; intros id ev Hev Hr; [lia|]. cbn.
  destruct (mm !! event_id ev); [by eexists|].
  destruct (parent_of_stored rank id ev Hc Ha Hev) as (r & -> & Hin). cbn.
  destruct r as [[a aev]|]; cbn; [|by destruct fuel; eexists].
  destruct (Hin a aev eq_refl). apply (IH a); [done|lia].
Qed.

(** C40: when auth events of stored events are stored and do not cycle, [mainline_sort]
    returns all stored events of its input, each once, in ascending order of mainline
    depth, then timestamp, then id. *)
Theorem mainline_sort_spec `{Schedule} rank fuel to_sort pl :
  store_closed → acyclic rank → (∀ id, rank id < fuel) →
  (∀ p, pl = Some p → is_Some (fetch_event p)) →
  ∃ es : list (EventId * (nat * Z * EventId)),
    mainline_sort fetch_event fuel to_sort pl = Ok es.*1
    ∧ NoDup es.*1 ∧ (∀ id, id ∈ es.*1 ↔ id ∈ to_sort ∧ is_Some (fetch_event id))
    ∧ StronglySorted entry_le es
    ∧ ∀ id d ts i, (id, (d, ts, i)) ∈ es →
        i = id ∧ ∃ ev mainline, fetch_event id = Some ev ∧ ts = origin_server_ts ev
          ∧ mainline_from fetch_event fuel pl = Ok mainline
          ∧ get_mainline_depth fetch_event fuel (Some ev) (mainline_map mainline) = Ok d.
Proof.
  intros Hc Ha Hf Hpl. destruct (mainline_from_total rank fuel pl Hc Ha) as [mainline Hm]; [by split; auto|].
  destruct (mainline_sort fetch_event fuel to_sort pl) as [l| |] eqn:Hs;
    [|by unfold mainline_sort in Hs; rewrite Hm in Hs; case_bool_decide..].
  apply mainline_sort_entries in Hs as [[-> ->]|(ml & es & Hml & -> & Hnd & Hsort & Hin)].
  { exists []. split_and!; [done|constructor|set_solver|constructor|].
    by intros ? ? ? ? ?%not_elem_of_nil. }
  simplify_eq. exists es. split_and!; try done.
  - intros id. rewrite list_elem_of_fmap. split.
    + intros ([id' e] & -> & [Hi Ho]%Hin). split; [done|]. unfold order_entry in Ho. simpl in *.
      by destruct (fetch_event id').
    + intros [Hi [ev Hev]]. destruct (mainline_depth_total rank fuel (mainline_map ml) id ev) as [d Hd]; try done.
      exists (id, (d, origin_server_ts ev, id)). split; [done|]. apply Hin. split; [done|].
      unfold order_entry. rewrite Hev. cbn [mbind option_bind]. by rewrite Hd.
  - intros id d ts i [_ Ho]%Hin. unfold order_entry in Ho.
    destruct (fetch_event id) as [ev|] eqn:Hev; simpl in Ho; [|done].
    case_match eqn:Hd; simplify_eq. split; [done|]. by exists ev, ml.
Qed.
End mainline.
