(* ===== verification/ConflictGraph.v ===== *)
(** * The conflicted subgraph

    [calculate_conflicted_subgraph] of [src/core/matrix/state_res/mod.rs] is a depth-first
    search that keeps the path to the event it looks at.  It is proved to end, and to
    return exactly the events that lie on a path of auth events from one conflicted event
    to another. *)

From S2P Require Import Prelude RoomVersion Event PowerLevels EventAuth TopoSort StateRes AuthGraph.

Section walk.
Context {Content : Type} (fetch_event : EventId → option (Pdu Content)).
Context (C : gset EventId).

Local Abbreviation auth_ids := (auth_ids fetch_event).

Definition edge (a b : EventId) : Prop := b ∈ auth_ids a.

(** On a path, with at least one step, between conflicted events. *)
Definition between (e : EventId) : Prop :=
  ∃ a c, a ∈ C ∧ c ∈ C ∧ rtc edge a e ∧ rtc edge e c ∧ tc edge a c.

Definition reaches (m : EventId) : Prop := ∃ c, c ∈ C ∧ rtc edge m c.

Lemma reaches_inv m : reaches m → m ∈ C ∨ ∃ m', m' ∈ auth_ids m ∧ reaches m'.
Proof.
  intros (c & Hc & Hr). inversion Hr as [|? m' ? He Hr']; subst; [by left|right].
  exists m'. split; [done|]. by exists c.
Qed.

(** ** The invariant *)

(** The path, last event first: each event is named by the one below it, the first one
    is conflicted. *)
Fixpoint chain (path : list EventId) : Prop :=
  match path with
  | [] => True
  | p :: ps => match ps with [] => p ∈ C | q :: _ => edge q p end ∧ chain ps
  end.

(** What holds of a reference [m] of the last event of [path] once it was looked at. *)
Definition settled (sub seen : gset EventId) (path : list EventId) (m : EventId) : Prop :=
  (m ∈ seen ∨ fetch_event m = None) ∧ (m ∈ C → m ∈ sub)
  ∧ (reaches m → ∀ x, x ∈ path → x ∈ sub).

(** An event that was left for good. *)
Definition finished (sub seen : gset EventId) (n : EventId) : Prop :=
  ∀ m, m ∈ auth_ids n → settled sub seen [n] m.

(** The frames: [next] is the event above, on which the search is busy. *)
Fixpoint frames_ok (sub seen : gset EventId) (stack : list (list EventId)) (path : list EventId)
    (next : option EventId) : Prop :=
  match stack, path with
  | [fr], [] =>
      (∀ r, r ∈ fr → r ∈ C)
      ∧ ∀ r, r ∈ C → r ∈ fr ∨ next = Some r ∨ r ∈ seen ∨ fetch_event r = None
  | fr :: st, p :: ps =>
      (∀ m, m ∈ fr → m ∈ auth_ids p)
      ∧ (∀ m, m ∈ auth_ids p → m ∈ fr ∨ next = Some m ∨ settled sub seen (p :: ps) m)
      ∧ p ∈ seen ∧ (p ∈ C → ps ≠ [] → ∀ x, x ∈ p :: ps → x ∈ sub)
      ∧ frames_ok sub seen st ps (Some p)
  | _, _ => False
  end.

Record walk_inv (sub seen : gset EventId) (stack : list (list EventId)) (path : list EventId)
    (next : option EventId) : Prop := {
  wi_frames : frames_ok sub seen stack path next;
  wi_chain : chain path;
  wi_finished : ∀ n, n ∈ seen → n ∉ path → finished sub seen n;
  wi_sub : ∀ n, n ∈ sub → n ∈ seen ∨ fetch_event n = None;
  wi_between : ∀ n, n ∈ sub → between n;
}.

Lemma settled_mono sub seen sub' seen' path m :
  sub ⊆ sub' → seen ⊆ seen' → settled sub seen path m → settled sub' seen' path m.
Proof. unfold settled. intros Hs Hn (? & ? & ?). split_and!; naive_solver. Qed.

Lemma frames_ok_mono sub seen sub' seen' stack path next :
  sub ⊆ sub' → seen ⊆ seen' →
  frames_ok sub seen stack path next → frames_ok sub' seen' stack path next.
Proof.
  intros Hs Hn. revert path next. induction stack as [|fr st IH]; intros [|p ps] next; cbn; [done..| |].
  - destruct st; [|done]. intros [? Hr]. split; [done|]. intros r Hrc.
    destruct (Hr r Hrc) as [?|[?|[?|?]]]; auto.
  - assert (frames_ok sub seen st ps (Some p) → frames_ok sub' seen' st ps (Some p)) by apply IH.
    intros Hf. destruct st; destruct Hf as (? & Hm & ? & Hp & ?); (split_and!; [done| |auto|eauto|auto]);
      intros m Hma; destruct (Hm m Hma) as [?|[?|?]]; eauto using settled_mono.
Qed.

(** The events of a path come from a conflicted event and lead to the last one. *)
Lemma chain_reach m path :
  chain (m :: path) →
  ∃ a, a ∈ C ∧ (∀ x, x ∈ m :: path → rtc edge a x ∧ rtc edge x m)
       ∧ (path ≠ [] → tc edge a m).
Proof.
  revert m. induction path as [|q ps IH]; intros m [Hl Hc].
  - exists m. split_and!; [done| |done]. intros x ->%list_elem_of_singleton. split; apply rtc_refl.
  - destruct (IH q Hc) as (a & Ha & Hx & _).
    assert (tc edge a m) as Ht.
    { eapply tc_rtc_l; [apply (Hx q); by left|]. by apply tc_once. }
    exists a. split_and!; [done| |done].
    intros x [->|Hin]%elem_of_cons; [split; [by apply tc_rtc|apply rtc_refl]|].
    destruct (Hx x Hin). split; [done|]. by eapply rtc_r.
Qed.

(** ** Taking the next event *)

Definition entered (sub seen : gset EventId) (path : list EventId) (p : EventId) : Prop :=
  match path with
  | [] => p ∈ seen ∨ fetch_event p = None
  | _ => settled sub seen path p
  end.

Lemma frames_ok_left sub seen stack path p :
  entered sub seen path p → frames_ok sub seen stack path (Some p) →
  frames_ok sub seen stack path None.
Proof.
  destruct stack as [|fr st], path as [|q ps]; cbn; try done.
  - destruct st; [|done]. intros He [Hfr Hr]. split; [done|]. intros r Hrc.
    destruct (Hr r Hrc) as [?|[[= <-]|?]]; auto.
  - intros He Hf. destruct st; destruct Hf as (? & Hm & ? & ? & ?); (split_and!; [done| |done..]);
      intros m Hma; destruct (Hm m Hma) as [?|[[= <-]|?]]; auto.
Qed.

(** Dropping a frame that is used up. *)
Lemma walk_inv_leave sub seen st p ps :
  walk_inv sub seen ([] :: st) (p :: ps) None → walk_inv sub seen st ps None.
Proof.
  intros [Hf [_ Hc] Hfin Hsub Hbt].
  assert ((∀ m, m ∈ auth_ids p → settled sub seen (p :: ps) m) ∧ p ∈ seen
          ∧ (p ∈ C → ps ≠ [] → ∀ x, x ∈ p :: ps → x ∈ sub)
          ∧ frames_ok sub seen st ps (Some p)) as (Hset & Hp & HpC & Hrest).
  { cbn in Hf. destruct st; destruct Hf as (_ & Hm & ? & ? & ?); (split_and!; [|done..]);
      intros m Hma; destruct (Hm m Hma) as [?%not_elem_of_nil|[[=]|?]]; done. }
  assert (reaches p → ps ≠ [] → ∀ x, x ∈ p :: ps → x ∈ sub) as Hreach.
  { intros [HC|(m & Hm & Hr)]%reaches_inv Hne; [by apply HpC|].
    destruct (Hset m Hm) as (_ & _ & Hx). auto. }
  constructor; [|done| |done|done].
  - eapply frames_ok_left; [|done]. destruct ps as [|q ps]; cbn; [by left|]. split_and!.
    + by left.
    + intros HC. apply (HpC HC); [done|by left].
    + intros Hr x Hx. apply (Hreach Hr); [done|by right].
  - intros n Hn Hnp. destruct (decide (n = p)) as [->|Hne]; [|apply Hfin; set_solver].
    intros m Hm. destruct (Hset m Hm) as (? & ? & Hx). split_and!; [done..|].
    intros Hr x ->%list_elem_of_singleton. apply (Hx Hr). by left.
Qed.

Definition frames_size (stack : list (list EventId)) : nat := sum_list_with length stack.

Lemma next_event_inv sub seen stack path :
  walk_inv sub seen stack path None →
  match next_event stack path with
  | Some (m, stack', path') =>
      walk_inv sub seen stack' path' (Some m) ∧ chain (m :: path')
      ∧ frames_size stack = S (frames_size stack')
  | None =>
      (∀ r, r ∈ C → r ∈ seen ∨ fetch_event r = None) ∧ (∀ n, n ∈ seen → finished sub seen n)
      ∧ (∀ n, n ∈ sub → between n)
  end.
Proof.
  revert path. induction stack as [|fr st IH]; intros path Hinv.
  { by destruct (wi_frames _ _ _ _ _ Hinv). }
  destruct fr as [|m fr]; cbn [next_event].
  - destruct path as [|p ps].
    + destruct Hinv as [Hf Hc Hfin Hsub Hbt]. cbn in Hf. destruct st; [|done]. cbn.
      destruct Hf as [_ Hr]. split_and!; [|intros; by apply Hfin; [|apply not_elem_of_nil]|done].
      intros r Hrc. destruct (Hr r Hrc) as [?%not_elem_of_nil|[[=]|?]]; done.
    + apply walk_inv_leave in Hinv. exact (IH ps Hinv).
  - destruct Hinv as [Hf Hc Hfin Hsub Hbt]. split_and!; [constructor; try done| |done].
    + destruct path as [|p ps]; cbn in Hf |- *.
      * destruct st; [|done]. destruct Hf as [Hfr Hr]. split; [set_solver|]. intros r Hrc.
        destruct (Hr r Hrc) as [[->|?]%elem_of_cons|[[=]|?]]; auto.
      * destruct st; destruct Hf as (Hfr & Hm & ? & ? & ?); (split_and!; [set_solver| |done..]);
          intros x Hx; destruct (Hm x Hx) as [[->|?]%elem_of_cons|[[=]|?]]; auto.
    + cbn. split; [|done]. destruct path as [|p ps]; cbn in Hf.
      * destruct st; [|done]. destruct Hf as [Hfr _]. apply Hfr. by left.
      * destruct st; destruct Hf as (Hfr & _); apply Hfr; by left.
Qed.

(** ** Looking at an event *)

Lemma frames_path_seen sub seen stack path next x :
  frames_ok sub seen stack path next → x ∈ path → x ∈ seen.
Proof.
  revert path next. induction stack as [|fr st IH]; intros [|p ps] next; cbn; [done..| |].
  - by intros _ ?%not_elem_of_nil.
  - intros Hf [->|Hx]%elem_of_cons; destruct st; destruct Hf as (_ & _ & ? & _ & ?); eauto.
Qed.

Lemma finished_mono sub seen sub' seen' n :
  sub ⊆ sub' → seen ⊆ seen' → finished sub seen n → finished sub' seen' n.
Proof. intros Hs Hn Hf m Hm. eapply settled_mono; eauto. Qed.

(** The path is added when it leads to a conflicted event. *)
Lemma extend_between (sub : gset EventId) m path :
  chain (m :: path) → path ≠ [] → (∀ n, n ∈ sub → between n) → m ∈ C ∨ m ∈ sub →
  ∀ n, n ∈ sub ∪ list_to_set (m :: path) → between n.
Proof.
  intros Hc Hne Hb Hm n [Hn|Hn]%elem_of_union; [auto|]. apply elem_of_list_to_set in Hn.
  destruct (chain_reach m path Hc) as (a & Ha & Hx & Ht). destruct (Hx n Hn) as [Han Hnm].
  assert (∃ c, c ∈ C ∧ rtc edge m c) as (c & Hc' & Hmc).
  { destruct Hm as [Hm|Hm]; [by exists m|]. destruct (Hb m Hm) as (_ & c & _ & ? & _ & ? & _). eauto. }
  exists a, c. split_and!; [done..|by trans m|]. eapply tc_rtc_r; [by apply Ht|done].
Qed.

Lemma walk_inv_stay sub seen stack path m sub' :
  walk_inv sub seen stack path (Some m) → sub ⊆ sub' → entered sub' seen path m →
  (∀ n, n ∈ sub' → n ∈ seen ∨ fetch_event n = None) → (∀ n, n ∈ sub' → between n) →
  walk_inv sub' seen stack path None.
Proof.
  intros [Hf Hc Hfin _ _] Hs He Hsub Hbt. constructor; try done.
  - eapply frames_ok_left; [done|]. by eapply frames_ok_mono.
  - intros n Hn Hnp. eapply finished_mono; eauto.
Qed.

(** The addition for a conflicted event that was not in the subgraph. *)
Definition extended (sub : gset EventId) (m : EventId) (path : list EventId) : gset EventId :=
  if bool_decide (m ∈ C) && bool_decide (1 < length (m :: path))
  then sub ∪ list_to_set (m :: path) else sub.

Lemma extended_spec sub m path :
  sub ⊆ extended sub m path
  ∧ (m ∈ C → path ≠ [] → ∀ x, x ∈ m :: path → x ∈ extended sub m path)
  ∧ (∀ x, x ∈ extended sub m path → x ∈ sub ∨ (m ∈ C ∧ path ≠ [] ∧ x ∈ m :: path)).
Proof.
  unfold extended. case_bool_decide as Hm; cbn [andb]; [|split_and!; [done|done|auto]].
  destruct path as [|q ps]; cbn [length]; [split_and!; [done|done|auto]|].
  rewrite bool_decide_eq_true_2 by lia. split_and!; [set_solver| |].
  - intros _ _ x Hx. apply elem_of_union_r. by apply elem_of_list_to_set.
  - intros x [?|Hx]%elem_of_union; [by left|right]. split_and!; [done..|].
    by apply elem_of_list_to_set in Hx.
Qed.

Lemma extended_between sub m path :
  chain (m :: path) → (∀ n, n ∈ sub → between n) → ∀ n, n ∈ extended sub m path → between n.
Proof.
  intros Hc Hb n Hn. destruct (extended_spec sub m path) as (_ & _ & Hx).
  destruct (Hx n Hn) as [?|(HC & Hne & Hin)]; [auto|].
  eapply (extend_between sub m path); eauto. apply elem_of_union_r. by apply elem_of_list_to_set.
Qed.

(** An event that is not explored now: it was before, or is not stored. *)
Lemma entered_skip sub seen m path :
  chain (m :: path) → m ∉ sub → m ∈ seen ∨ fetch_event m = None →
  (m ∈ seen → finished sub seen m) →
  entered (extended sub m path) seen path m.
Proof.
  intros Hc Hms Hm Hfin. destruct (extended_spec sub m path) as (Hs & HC & _).
  destruct path as [|q ps]; cbn [entered]; [done|]. split_and!; [done| |].
  - intros Hmc. apply (HC Hmc); [done|by left].
  - intros [Hmc|(m' & Hm' & Hr)]%reaches_inv x Hx; [apply (HC Hmc); [done|by right]|].
    destruct Hm as [Hseen|Hnone].
    + destruct (Hfin Hseen m' Hm') as (_ & _ & Hin). destruct Hms. apply (Hin Hr). by left.
    + unfold StateRes.auth_ids in Hm'. rewrite Hnone in Hm'. by apply not_elem_of_nil in Hm'.
Qed.

Lemma visit_inv sub seen stack path m w :
  walk_inv sub seen stack path (Some m) → chain (m :: path) → m ∉ path →
  visit fetch_event C (mkWalk sub stack path seen) m = w →
  walk_inv (subgraph w) (StateRes.seen w) (StateRes.stack w) (StateRes.path w) None.
Proof.
  intros Hinv Hc Hmp <-. pose proof (wi_frames _ _ _ _ _ Hinv) as Hfr.
  pose proof (wi_sub _ _ _ _ _ Hinv) as Hsub. pose proof (wi_between _ _ _ _ _ Hinv) as Hbt.
  unfold visit. cbn [subgraph StateRes.stack StateRes.path StateRes.seen].
  case_bool_decide as Hms; cbn [subgraph StateRes.stack StateRes.path StateRes.seen].
  { destruct path as [|q ps]; cbn [length].
    - rewrite bool_decide_eq_false_2 by lia. eapply walk_inv_stay; eauto. by apply Hsub.
    - rewrite bool_decide_eq_true_2 by lia. eapply walk_inv_stay; [done|set_solver| | |].
      + split_and!; [by apply Hsub|set_solver|]. intros _ x Hx. apply elem_of_union_r.
        apply elem_of_list_to_set. by right.
      + intros n [?|Hn%elem_of_list_to_set]%elem_of_union; [auto|].
        apply elem_of_cons in Hn as [->|Hn]; [auto|left]. by eapply frames_path_seen.
      + eapply extend_between; eauto. }
  change (if bool_decide (m ∈ C) && bool_decide (1 < length (m :: path))
          then sub ∪ list_to_set (m :: path) else sub) with (extended sub m path).
  destruct (extended_spec sub m path) as (Hs & HC & Hx).
  assert (∀ sn : gset EventId, seen ⊆ sn → m ∈ sn ∨ fetch_event m = None →
    ∀ n, n ∈ extended sub m path → n ∈ sn ∨ fetch_event n = None) as Hsub'.
  { intros sn Hsn Hm n Hn. destruct (Hx n Hn) as [Hin|(_ & _ & [->|Hin]%elem_of_cons)]; [|done|].
    - destruct (Hsub n Hin); [left; by apply Hsn|by right].
    - left. apply Hsn. by eapply frames_path_seen. }
  assert (m ∈ seen ∨ fetch_event m = None → walk_inv (extended sub m path) seen stack path None) as Hskip.
  { intros Hm. eapply walk_inv_stay; eauto using extended_between.
    apply entered_skip; [done..|]. intros Hin. by apply (wi_finished _ _ _ _ _ Hinv). }
  case_bool_decide as Hseen; cbn [subgraph StateRes.stack StateRes.path StateRes.seen]; [auto|].
  destruct (fetch_event m) as [evt|] eqn:Hev;
    cbn [subgraph StateRes.stack StateRes.path StateRes.seen]; [|auto].
  assert (auth_ids m = Event.auth_events evt) as Hids by (unfold StateRes.auth_ids; by rewrite Hev).
  constructor; [|done| |apply Hsub'; set_solver|by apply extended_between].
  - assert (frames_ok (extended sub m path) ({[m]} ∪ seen) stack path (Some m)) as Hf'
      by (eapply frames_ok_mono; [| |done]; set_solver).
    destruct stack as [|fr st]; [by destruct path|]. cbn [frames_ok].
    split_and!; [| |set_solver|done|exact Hf'].
    + intros x Hin. rewrite elem_of_reverse in Hin. by rewrite Hids.
    + intros x Hin. left. rewrite elem_of_reverse. by rewrite Hids in Hin.
  - intros n Hn Hnp. eapply finished_mono; [exact Hs| |apply (wi_finished _ _ _ _ _ Hinv)]; set_solver.
Qed.

(** ** Termination and the result *)

Context (rank : EventId → nat) (known : gset EventId).
Hypothesis rank_edge : ∀ a b, edge a b → rank b < rank a.
Hypothesis store_known : store_within fetch_event known.

Lemma rank_rtc a b : rtc edge a b → rank b ≤ rank a.
Proof. induction 1 as [|x y z Hxy _ IH]; [done|]. apply rank_edge in Hxy. lia. Qed.

Lemma chain_not_in m path : chain (m :: path) → m ∉ path.
Proof.
  destruct path as [|q ps]; [set_solver|]. intros [Hl Hc] Hin.
  destruct (chain_reach q ps Hc) as (a & _ & Hx & _). destruct (Hx m Hin) as [_ Hmq].
  apply rank_rtc in Hmq. apply rank_edge in Hl. lia.
Qed.

Lemma visit_measure sub seen stack path m w :
  visit fetch_event C (mkWalk sub stack path seen) m = w →
  frames_size (StateRes.stack w) + weight fetch_event (known ∖ StateRes.seen w)
  ≤ frames_size stack + weight fetch_event (known ∖ seen).
Proof.
  intros <-. unfold visit. cbn [subgraph StateRes.stack StateRes.path StateRes.seen].
  case_bool_decide; [done|]. case_bool_decide as Hseen; [done|].
  destruct (fetch_event m) as [evt|] eqn:Hev; [|done].
  cbn [StateRes.stack StateRes.seen]. rewrite (weight_visit _ known seen m) by done.
  unfold frames_size, StateRes.auth_ids. cbn [sum_list_with]. rewrite Hev, length_reverse. lia.
Qed.

Lemma explored_all sub seen a e :
  (∀ n, n ∈ seen → finished sub seen n) → rtc edge a e →
  a ∈ seen ∨ fetch_event a = None → e ∈ seen ∨ fetch_event e = None.
Proof.
  intros Hfin. induction 1 as [|x y z Hxy _ IH]; [done|]. intros [Hx|Hx]; apply IH.
  - by destruct (Hfin x Hx y Hxy).
  - unfold edge, StateRes.auth_ids in Hxy. rewrite Hx in Hxy. by apply not_elem_of_nil in Hxy.
Qed.

Lemma tc_last a b : tc edge a b → ∃ q, rtc edge a q ∧ edge q b.
Proof.
  induction 1 as [x y Hxy|x y z Hxy _ (q & Hq & Hqz)]; [exists x; by split; [apply rtc_refl|]|].
  exists q. split; [by eapply rtc_l|done].
Qed.

(** An event with references that was seen or is missing was seen. *)
Lemma edge_seen (seen : gset EventId) x y : edge x y → x ∈ seen ∨ fetch_event x = None → x ∈ seen.
Proof.
  intros Hxy [?|Hx]; [done|]. unfold edge, StateRes.auth_ids in Hxy. rewrite Hx in Hxy.
  by apply not_elem_of_nil in Hxy.
Qed.

Lemma between_found sub seen e :
  (∀ r, r ∈ C → r ∈ seen ∨ fetch_event r = None) → (∀ n, n ∈ seen → finished sub seen n) →
  between e → e ∈ sub.
Proof.
  intros Hroots Hfin (a & c & Ha & Hc & Hae & Hec & Hac).
  inversion Hec as [|? m ? Hem Hmc]; subst.
  - destruct (tc_last a c Hac) as (q & Haq & Hqc).
    assert (q ∈ seen) as Hq by (eapply edge_seen; [done|]; eapply explored_all; eauto).
    destruct (Hfin q Hq c Hqc) as (_ & Hin & _). auto.
  - assert (e ∈ seen) as He by (eapply edge_seen; [done|]; eapply explored_all; eauto).
    destruct (Hfin e He m Hem) as (_ & _ & Hin). apply Hin; [by exists c|by left].
Qed.

Lemma walk_spec fuel w :
  walk_inv (subgraph w) (StateRes.seen w) (StateRes.stack w) (StateRes.path w) None →
  frames_size (StateRes.stack w) + weight fetch_event (known ∖ StateRes.seen w) ≤ fuel →
  ∃ G, walk fetch_event fuel C w = Ok G ∧ ∀ e, e ∈ G ↔ between e.
Proof.
  revert w. induction fuel as [|fuel IH]; intros w Hinv Hf; cbn [walk];
    pose proof (next_event_inv _ _ _ _ Hinv) as Hnext;
    destruct (next_event (StateRes.stack w) (StateRes.path w)) as [[[m stack'] path']|].
  2,4: destruct Hnext as (Hr & Hfin & Hbt); exists (subgraph w); split; [done|];
    intros e; split; [auto|by eapply between_found].
  { destruct Hnext as (_ & _ & Hsize). lia. }
  destruct Hnext as (Hinv' & Hc & Hsize).
  set (w' := visit _ _ _ _). apply IH.
  - eapply visit_inv; [done|done|by apply chain_not_in|done].
  - pose proof (visit_measure (subgraph w) (StateRes.seen w) stack' path' m w' eq_refl). lia.
Qed.
End walk.

Section subgraph.
Context {Content : Type} `{Ruma Content} `{Schedule} (fetch_event : EventId → option (Pdu Content)).

Definition conflicted_ids (conflicted : gmap TypeStateKey (list EventId)) : gset EventId :=
  list_to_set (concat (map_to_list conflicted).*2).

Lemma conflicted_subgraph_total (rank : EventId → nat) known fuel conflicted :
  (∀ a b, b ∈ auth_ids fetch_event a → rank b < rank a) →
  store_within fetch_event known →
  size (conflicted_ids conflicted) + weight fetch_event known ≤ fuel →
  ∃ G, calculate_conflicted_subgraph fetch_event fuel conflicted = Ok G
    ∧ ∀ e, e ∈ G ↔ between fetch_event (conflicted_ids conflicted) e.
Proof.
  intros Hr Hk Hf. unfold calculate_conflicted_subgraph. fold (conflicted_ids conflicted).
  eapply walk_spec; [done|done| |]; cbn [subgraph StateRes.stack StateRes.path StateRes.seen].
  - constructor; [|done|set_solver..]. cbn. split.
    + intros r. rewrite elem_of_reverse, order_perm, elem_of_elements. done.
    + intros r Hrc. left. by rewrite elem_of_reverse, order_perm, elem_of_elements.
  - unfold frames_size. cbn. rewrite length_reverse, order_perm.
    pose proof (weight_mono fetch_event (known ∖ ∅) known ltac:(set_solver)).
    unfold size, set_size in Hf. simpl in Hf. lia.
Qed.

(** C37: with acyclic auth events [calculate_conflicted_subgraph] ends, within a number of
    rounds bounded by the conflicted events and the references of the store, and returns
    exactly the events on a path of auth events from a conflicted event to a conflicted
    event. *)
Theorem conflicted_subgraph_spec (rank : EventId → nat) known fuel conflicted :
  (∀ a b, b ∈ auth_ids fetch_event a → rank b < rank a) →
  store_within fetch_event known →
  size (conflicted_ids conflicted) + weight fetch_event known ≤ fuel →
  ∃ G, calculate_conflicted_subgraph fetch_event fuel conflicted = Ok G
    ∧ ∀ e, e ∈ G ↔ between fetch_event (conflicted_ids conflicted) e.
Proof. apply conflicted_subgraph_total. Qed.
End subgraph.
