(* ===== verification/Resolve.v ===== *)
(** * State resolution as a whole

    [iterative_auth_check] and [resolve] of [src/core/matrix/state_res/mod.rs]: the entries
    of the resolved state are the ones all state sets agree on, or events of the full
    conflicted set that passed [auth_check]; agreement is kept; and when the fetches
    complete in order the result is the same on every schedule. *)

From S2P Require Import Prelude RoomVersion Event PowerLevels EventAuth TopoSort StateRes.
From S2P Require Import StateResProps AuthGraph Mainline ConflictGraph.

(** ** Where the entries of a checked state come from *)

Section checks.
Context {Content : Type} `{Ruma Content} `{Schedule}.
Context (fetch_event : EventId → option (Pdu Content)).
Implicit Types (rv : RoomVersion) (ev : Pdu Content) (st : StateMap).

(** The event passed [auth_check] against the state resolved so far, [st], and the auth
    events it names. *)
Definition accepted rv (auth_events : gmap EventId (Pdu Content)) st ev : Prop :=
  ∃ key auth_state create,
    state_key ev = Some key
    ∧ auth_state_for fetch_event rv auth_events st ev key = Ok auth_state
    ∧ auth_state !! (RoomCreate, EmptyString) = Some create
    ∧ auth_check rv ev
        (find (λ pdu, bool_decide (kind pdu = RoomThirdPartyInvite)) (order 10 (map_to_list auth_state)).*2)
        (λ ty k, auth_state !! (ty, k)) create = Ok true.

(** The stored events that are auth events of the events to check. *)
Definition auth_events_of (events : list (Pdu Content)) : gmap EventId (Pdu Content) :=
  collect_map ((λ ev, (event_id ev, ev)) <$>
    omap fetch_event (order 12 (elements (list_to_set (concat (Event.auth_events <$> events)) : gset EventId)))).

Lemma check_event_Ok rv ae st ev st' :
  check_event fetch_event rv ae st ev = Ok st' →
  ¬ accepted rv ae st ev ∧ st' = st
  ∨ ∃ key, state_key ev = Some key ∧ accepted rv ae st ev ∧ st' = <[(kind ev, key) := event_id ev]> st.
Proof.
  unfold check_event. intros Hc. pass_in Hc. outcome_simp.
  rename select (auth_check _ _ _ _ _ = Ok _) into Ha. case_match; subst; [right|left].
  - eexists. split_and!; [done| |done]. by eexists _, _, _.
  - split; [|done]. intros (key & m & create & Hk & Hm & Hcr & Hac). simplify_eq.
    rewrite H2 in Hm. injection Hm as <-. unfold with_state_key in *. rewrite H3 in Hcr. injection Hcr as <-.
    by rewrite Ha in Hac.
Qed.

(** The entry [k] of a checked state is the event whose turn was the last one at which an
    event for [k] was accepted: it was accepted in the state that the events before it had
    made of [st], and those for [k] after it were refused at their turns. *)
Definition accepted_last rv ae (evs : list (Pdu Content)) st (k : TypeStateKey) (id : EventId) : Prop :=
  ∃ i ev key st_i,
    evs !! i = Some ev ∧ event_id ev = id ∧ state_key ev = Some key ∧ k = (kind ev, key)
    ∧ check_events fetch_event rv ae (take i evs) st = Ok st_i ∧ accepted rv ae st_i ev
    ∧ ∀ j ev' st_j, i < j → evs !! j = Some ev' → state_key ev' = Some key → kind ev' = kind ev →
        check_events fetch_event rv ae (take j evs) st = Ok st_j → ¬ accepted rv ae st_j ev'.

Lemma check_events_entry rv ae evs st st' k id :
  check_events fetch_event rv ae evs st = Ok st' → st' !! k = Some id →
  st !! k = Some id
  ∧ (∀ j ev' st_j, evs !! j = Some ev' → state_key ev' = Some k.2 → kind ev' = k.1 →
       check_events fetch_event rv ae (take j evs) st = Ok st_j → ¬ accepted rv ae st_j ev')
  ∨ accepted_last rv ae evs st k id.
Proof.
  revert st. induction evs as [|ev evs IH]; intros st; cbn.
  { intros [= <-]. left. split; [done|]. intros j ev' st_j. by rewrite lookup_nil. }
  intros (st1 & Hc & Hrest)%bind_Ok_inv Hk.
  destruct (IH st1 Hrest Hk) as [[Hk1 Hlast]|(i & ev' & key & st_i & Hi & ? & ? & ? & Hst & ? & Hlast)].
  2:{ right. exists (S i), ev', key, st_i. split_and!; try done; [cbn; by rewrite Hc|].
      intros [|j] ev'' st_j Hij Hj; [lia|]. cbn. rewrite Hc. apply Hlast; [lia|done]. }
  pose proof Hc as Hc'. apply check_event_Ok in Hc' as [[Hn ->]|(key & Hkey & Ha & ->)].
  - left. split; [done|]. intros [|j] ev' st_j Hj Hsk Hkd; cbn.
    + intros [= <-]. by injection Hj as <-.
    + rewrite Hc. by apply Hlast.
  - apply lookup_insert_Some in Hk1 as [[<- <-]|[Hne ?]].
    + right. exists 0, ev, key, st. split_and!; try done.
      intros [|j] ev' st_j Hij Hj Hsk Hkd; [lia|]. cbn. rewrite Hc. by apply Hlast.
    + left. split; [done|]. intros [|j] ev' st_j Hj Hsk Hkd; cbn.
      * intros _. injection Hj as <-. destruct k as [k1 k2]; cbn in *. by simplify_eq.
      * rewrite Hc. by apply Hlast.
Qed.

(** The same of a round of checks, of the events that the ids lead to. *)
Definition admitted rv (ids : list EventId) st (k : TypeStateKey) (id : EventId) : Prop :=
  ∃ evs, try_map (λ id, ok_or (not_found id) (fetch_event id)) (order 11 ids) = Ok evs
    ∧ accepted_last rv (auth_events_of evs) evs st k id.

Lemma admitted_from rv ids st k id :
  admitted rv ids st k id →
  ∃ i ev key, i ∈ ids ∧ fetch_event i = Some ev ∧ event_id ev = id ∧ state_key ev = Some key ∧ k = (kind ev, key).
Proof.
  intros (evs & Hevs & n & ev & key & st0 & Hin%list_elem_of_lookup_2 & ? & ? & ? & _).
  destruct (try_map_elem _ _ _ _ Hevs Hin) as (i & Hi & Hf%ok_or_Ok). rewrite order_perm in Hi.
  by eexists i, ev, key.
Qed.

Lemma iterative_auth_check_entry rv ids st st' k id :
  iterative_auth_check fetch_event rv ids st = Ok st' → st' !! k = Some id →
  st !! k = Some id ∨ admitted rv ids st k id.
Proof.
  unfold iterative_auth_check. intros (evs & Hevs & Hc)%bind_Ok_inv Hk.
  case_bool_decide; [simplify_eq; by left|].
  destruct (check_events_entry _ _ _ _ _ _ _ Hc Hk) as [[? _]|?]; [by left|right; by exists evs].
Qed.
End checks.

(** ** The ids the sorts return *)

Section sorted_ids.
Context (key_fn : EventId → outcome Error (Z * Z)) (iter : gset string → list string).

Lemma scan_ids nodes z rg z' rg' :
  scan key_fn iter nodes z rg = Ok (z', rg') →
  ∀ t, t ∈ z' → t ∈ z ∨ tie_id t ∈ nodes.*1.
Proof.
  revert z rg. induction nodes as [|[n E] nodes IH]; intros z rg; cbn [scan].
  { intros [= <- <-]. auto. }
  intros (z1 & Hz & Hs)%bind_Ok_inv t Ht. destruct (IH _ _ Hs t Ht) as [Ht1|?]; [|right; by right].
  case_bool_decide; [|simplify_eq; by left].
  apply bind_Ok_inv in Hz as (item & Hi & [= <-]). unfold tie_of in Hi.
  apply bind_Ok_inv in Hi as ([lv ts] & _ & [= <-]).
  apply elem_of_app in Ht1 as [?| ->%list_elem_of_singleton]; [by left|right; by left].
Qed.

Lemma release_ids node ps O h O' h' :
  release key_fn node ps O h = Ok (O', h') →
  dom O' = dom O ∧ ∀ t, t ∈ h' → t ∈ h ∨ tie_id t ∈ dom O.
Proof.
  revert O h. induction ps as [|p ps IH]; intros O h; cbn [release].
  { intros [= <- <-]. auto. }
  intros (out & Hout%expect_Ok & (h1 & Hh & Hr)%bind_Ok_inv)%bind_Ok_inv.
  assert (p ∈ dom O) as Hp by (apply elem_of_dom; eauto).
  destruct (IH _ _ Hr) as [Hd Ht]. rewrite dom_insert_L in Hd, Ht.
  replace ({[p]} ∪ dom O) with (dom O) in Hd, Ht by set_solver. split; [done|].
  intros t [Ht1|?]%Ht; [|by right]. case_bool_decide; [|simplify_eq; by left].
  apply bind_Ok_inv in Hh as (item & Hi & [= <-]). unfold tie_of in Hi.
  apply bind_Ok_inv in Hi as ([lv ts] & _ & [= <-]).
  apply elem_of_cons in Ht1 as [->|?]; [by right|by left].
Qed.

Lemma drain_ids fuel rg O heap acc l (D : gset string) :
  drain key_fn iter fuel rg O heap acc = Ok l → dom O = D →
  (∀ t, t ∈ heap → tie_id t ∈ D) → (∀ n, n ∈ acc → n ∈ D) → ∀ n, n ∈ l → n ∈ D.
Proof.
  revert O heap acc. induction fuel as [|fuel IH]; intros O heap acc; cbn [drain];
    destruct (heap_pop heap) as [[item rest]|] eqn:Hpop; try done;
    try (intros [= <-]; done).
  apply heap_pop_spec in Hpop as [Hp _]. intros Hd HD Hh Hacc.
  apply bind_Ok_inv in Hd as (ps & _ & ([O' h'] & Hr & Hd)%bind_Ok_inv).
  apply release_ids in Hr as [HdO Ht]. eapply IH; [exact Hd|congruence| |].
  - intros t [Hin|?]%Ht; [|by rewrite <- HD]. apply Hh. rewrite Hp. by right.
  - intros n [?| ->%list_elem_of_singleton]%elem_of_app; [auto|]. apply Hh. rewrite Hp. by left.
Qed.

Lemma sort_ids graph nodes l :
  lexicographical_topological_sort key_fn iter graph nodes = Ok l →
  nodes ≡ₚ map_to_list graph → ∀ n, n ∈ l → n ∈ dom graph.
Proof.
  unfold lexicographical_topological_sort. intros ([z rg] & Hs & Hd)%bind_Ok_inv Hn.
  eapply drain_ids; [exact Hd|done| |by intros n ?%not_elem_of_nil].
  intros t Ht. destruct (scan_ids _ _ _ _ _ Hs t Ht) as [?%not_elem_of_nil|Hin]; [done|].
  rewrite Hn in Hin. apply list_elem_of_fmap in Hin as ([n E] & -> & Hin).
  apply elem_of_map_to_list in Hin. apply elem_of_dom. eauto.
Qed.
End sorted_ids.

Section graph_ids.
Context {Content : Type} `{Ruma Content} `{Schedule}.
Context (fetch_event : EventId → option (Pdu Content)) (auth_diff : gset EventId).

Lemma add_chain_ids fuel g st g' :
  add_event_and_auth_chain_to_graph fetch_event fuel auth_diff g st = Ok g' →
  ∀ n, n ∈ dom g' → n ∈ dom g ∨ n ∈ st ∨ n ∈ auth_diff.
Proof.
  revert g st. induction fuel as [|fuel IH]; intros g [|k st]; cbn; [by intros [= <-]; auto|done|by intros [= <-]; auto|].
  destruct (add_event fetch_event auth_diff g k) as [g1 pushed] eqn:Ha.
  apply add_event_spec in Ha as (Hd & _ & Hp & _). intros Hg n Hn.
  destruct (IH _ _ Hg n Hn) as [Hn1|[[Hn1|?]%elem_of_app|?]]; [| |right; left; by right|auto].
  - rewrite Hd in Hn1. apply elem_of_union in Hn1 as [->%elem_of_singleton|?]; [right; left; by left|auto].
  - apply Hp in Hn1 as (Hn1 & _). apply elem_of_children in Hn1 as [_ ?]. auto.
Qed.

Lemma build_graph_ids fuel g ids g' :
  build_graph fetch_event fuel auth_diff g ids = Ok g' →
  ∀ n, n ∈ dom g' → n ∈ dom g ∨ n ∈ ids ∨ n ∈ auth_diff.
Proof.
  revert g. induction ids as [|id ids IH]; intros g; cbn; [by intros [= <-]; auto|].
  intros (g1 & H1 & Hr)%bind_Ok_inv n Hn. destruct (IH _ Hr n Hn) as [Hn1|[?|?]]; [|right; left; by right|auto].
  destruct (add_chain_ids _ _ _ _ H1 n Hn1) as [?|[->%list_elem_of_singleton|?]]; [auto|right; left; by left|auto].
Qed.

Lemma power_sort_ids fuel ids l :
  reverse_topological_power_sort fetch_event fuel ids auth_diff = Ok l →
  ∀ n, n ∈ l → n ∈ ids ∨ n ∈ auth_diff.
Proof.
  unfold reverse_topological_power_sort. intros (g & Hg & Hs)%bind_Ok_inv n Hn.
  pose proof (sort_ids _ _ _ _ _ Hs (order_perm _ _ _) n Hn) as Hd.
  destruct (build_graph_ids _ _ _ _ Hg n Hd); [set_solver|done].
Qed.
End graph_ids.

(** ** The resolved state *)

Section resolved.
Context {Content : Type} `{Ruma Content} `{Schedule}.
Context (fetch_event : EventId → option (Pdu Content)) (event_exists : EventId → bool).
Implicit Types (sets : list StateMap) (chains : list (gset EventId)) (fuel : nat)
  (v : RoomVersionId).

Local Abbreviation resolve := (resolve fetch_event event_exists).
Local Abbreviation resolve_conflicts := (resolve_conflicts fetch_event).

(** The entry all state sets have. *)
Definition agreed sets (k : TypeStateKey) (id : EventId) : Prop :=
  sets ≠ [] ∧ ∀ s, s ∈ sets → s !! k = Some id.

(** The rounds of a resolution of conflicts: the control events from the state [init], then
    the events that are left from what the first round made of it. *)
Definition admitted_in_rounds fuel v init (all : gset EventId) k id : Prop :=
  ∃ rv control resolved_control left,
    RoomVersion_new v = Ok rv
    ∧ reverse_topological_power_sort fetch_event fuel
        (order 15 (filter (λ id, is_power_event_id fetch_event id = true) (elements all))) all = Ok control
    ∧ iterative_auth_check fetch_event rv control init = Ok resolved_control
    ∧ mainline_sort fetch_event fuel (filter (λ id, id ∉ control) (order 16 (elements all)))
        (resolved_control !! (RoomPowerLevels, EmptyString)) = Ok left
    ∧ (admitted fetch_event rv control init k id ∨ admitted fetch_event rv left resolved_control k id).

(** What a round admits is in the full conflicted set. *)
Lemma admitted_in_rounds_from fuel v init all k id :
  admitted_in_rounds fuel v init all k id →
  ∃ i ev key, i ∈ all ∧ fetch_event i = Some ev ∧ event_id ev = id ∧ state_key ev = Some key ∧ k = (kind ev, key).
Proof.
  intros (rv & control & rc & left & _ & Hctl & _ & Hleft & [Ha|Ha]);
    apply admitted_from in Ha as (i & ev & key & Hi & Hf & ? & ? & ?);
    exists i, ev, key; split_and!; try done.
  - destruct (power_sort_ids _ _ _ _ _ Hctl i Hi) as [Hin|?]; [|done].
    rewrite order_perm, list_elem_of_filter, elem_of_elements in Hin. by destruct Hin.
  - apply mainline_sort_entries in Hleft as [[_ ->]|(ml & es & _ & -> & _ & _ & Hin)];
      [by apply not_elem_of_nil in Hi|].
    apply list_elem_of_fmap in Hi as ([i' e] & -> & [Hi' _]%Hin).
    rewrite list_elem_of_filter, order_perm, elem_of_elements in Hi'. by destruct Hi'.
Qed.

Lemma resolve_conflicts_entry fuel v U init all r k id :
  resolve_conflicts fuel v U init all = Ok r → r !! k = Some id →
  U !! k = Some id ∨ init !! k = Some id ∨ admitted_in_rounds fuel v init all k id.
Proof.
  unfold StateRes.resolve_conflicts. intros Hr Hk.
  apply bind_Ok_inv in Hr as (ctl & Hctl & (rv & Hrv & (rc & Hrc & (left & Hleft & (rs & Hrs & [= <-])
    %bind_Ok_inv)%bind_Ok_inv)%bind_Ok_inv)%bind_Ok_inv).
  apply lookup_union_Some_raw in Hk as [?|[_ Hk]]; [by left|right].
  destruct (iterative_auth_check_entry _ _ _ _ _ _ _ Hrs Hk) as [Hk1|Ha].
  - destruct (iterative_auth_check_entry _ _ _ _ _ _ _ Hrc Hk1) as [?|Ha]; [by left|right].
    exists rv, ctl, rc, left. auto 10.
  - right. exists rv, ctl, rc, left. auto 10.
Qed.

(** Where a resolution with conflicts starts: the conflicted subgraph that belongs to the
    conflicted set, and the first partial state. *)
Definition start_of fuel v sets (csg : gset EventId) (init : StateMap) : Prop :=
  match stateres_version v with
  | StateResV2_1 => calculate_conflicted_subgraph fetch_event fuel (separate sets).2 = Ok csg ∧ init = ∅
  | _ => csg = ∅ ∧ init = (separate sets).1
  end.

Lemma resolve_Ok fuel v sets chains r :
  resolve fuel v sets chains = Ok r →
  (separate sets).2 = ∅ ∧ r = (separate sets).1
  ∨ ∃ csg init,
      start_of fuel v sets csg init
      ∧ resolve_conflicts fuel v (separate sets).1 init
          (full_conflicted_set event_exists chains (separate sets).2 csg) = Ok r.
Proof.
  unfold StateRes.resolve, start_of. destruct (separate sets) as [U C]. cbn [fst snd]. case_bool_decide as HC.
  - intros [= <-]. by left.
  - intros ([csg init] & Hi & Hr)%bind_Ok_inv. right. exists csg, init. split; [|done].
    case_bool_decide as Hv; [rewrite Hv; by apply bind_Ok_inv in Hi as (g & ? & [= <- <-])|].
    injection Hi as <- <-. by destruct (stateres_version v).
Qed.

Lemma resolve_agreed fuel v sets chains r k id :
  resolve fuel v sets chains = Ok r → agreed sets k id → r !! k = Some id.
Proof.
  intros Hr Ha. apply separate_unconflicted in Ha.
  apply resolve_Ok in Hr as [[_ ->]|(csg & init & _ & Hr)]; [done|].
  unfold StateRes.resolve_conflicts in Hr.
  apply bind_Ok_inv in Hr as (ctl & _ & (rv & _ & (rc & _ & (left & _ & (rs & _ & [= <-])
    %bind_Ok_inv)%bind_Ok_inv)%bind_Ok_inv)%bind_Ok_inv).
  by apply lookup_union_Some_l.
Qed.

(** C3: what all state sets agree on is in the resolved state, whatever happens to the
    conflicts. *)
Theorem resolve_keeps_agreement fuel v sets chains r k id :
  resolve fuel v sets chains = Ok r → agreed sets k id → r !! k = Some id.
Proof. apply resolve_agreed. Qed.

(** An entry is agreed or admitted. *)
Lemma resolve_entry fuel v sets chains r k id :
  resolve fuel v sets chains = Ok r → r !! k = Some id →
  agreed sets k id ∨
  ∃ csg init, start_of fuel v sets csg init
    ∧ admitted_in_rounds fuel v init (full_conflicted_set event_exists chains (separate sets).2 csg) k id.
Proof.
  intros Hr Hk. apply resolve_Ok in Hr as [[_ ->]|(csg & init & Hinit & Hr)].
  { left. by apply separate_unconflicted. }
  destruct (resolve_conflicts_entry _ _ _ _ _ _ _ _ Hr Hk) as [HU|[Hi|?]]; [| |right; eauto].
  - left. by apply separate_unconflicted.
  - left. apply separate_unconflicted. unfold start_of in Hinit.
    destruct (stateres_version v), Hinit as [_ ->]; try done.
Qed.

(** C2: every other entry of the resolved state is an event of the full conflicted set with
    the type and state key of the entry, and the last one for them that [auth_check] accepted
    at its turn: in the round of the sorted control events, from the state both rounds start
    in, or in the round of the events left in mainline order, from the result of the first;
    the check is against the partial state the events before it in the round made and the
    stored auth events of the round. *)
Theorem resolve_admits_only_authorized fuel v sets chains r k id :
  resolve fuel v sets chains = Ok r → r !! k = Some id →
  agreed sets k id ∨
  ∃ csg init, start_of fuel v sets csg init
    ∧ let all := full_conflicted_set event_exists chains (separate sets).2 csg in
      admitted_in_rounds fuel v init all k id
      ∧ ∃ i ev key, i ∈ all ∧ fetch_event i = Some ev ∧ event_id ev = id
                    ∧ state_key ev = Some key ∧ k = (kind ev, key).
Proof.
  intros Hr Hk. destruct (resolve_entry _ _ _ _ _ _ _ Hr Hk) as [Ha|(csg & init & Hs & Ha)]; [by left|right].
  exists csg, init. split; [done|]. split; [done|]. by eapply admitted_in_rounds_from.
Qed.

(** State sets that are all the same state resolve to that state, without a look at
    the events. *)
Theorem resolve_same_state fuel v sets chains (s : StateMap) :
  sets ≠ [] → (∀ s', s' ∈ sets → s' = s) → resolve fuel v sets chains = Ok s.
Proof.
  intros Hne Hs. unfold StateRes.resolve.
  assert ((separate sets).2 = ∅) as HC.
  { apply map_eq. intros k. rewrite lookup_empty. destruct ((separate sets).2 !! k) as [ids|] eqn:Hk; [|done].
    exfalso. pose proof (separate_conflicted_nonempty _ _ _ Hk) as Hids.
    destruct ids as [|id ids]; [done|].
    destruct (proj1 (separate_conflicted sets k id)) as [(s1 & H1 & Hk1) (s2 & H2 & Hk2)];
      [rewrite Hk; by left|].
    apply Hk2. by rewrite (Hs s2 H2), <- (Hs s1 H1). }
  assert ((separate sets).1 = s) as HU.
  { apply map_eq. intros k. apply option_eq. intros id. rewrite separate_unconflicted. split.
    - intros [_ Hall]. destruct sets as [|s0 sets]; [done|].
      rewrite <- (Hs s0 ltac:(by left)). apply Hall. by left.
    - intros Hk. split; [done|]. intros s' Hs'. by rewrite (Hs s' Hs'). }
  destruct (separate sets) as [U C]. cbn [fst snd] in *. subst. by rewrite bool_decide_eq_true_2.
Qed.
End resolved.
