(* ===== verification/Convergence.v ===== *)
(** * Convergence

    Two runs of [resolve] on the same state sets and auth chains, in any order and on any
    two schedules, give the same state, provided the fetches whose order the code uses
    complete in the order they were started and no two third-party invites are stored (of
    several in the auth state the code takes whichever the hash map yields first). *)

From S2P Require Import Prelude RoomVersion Event PowerLevels EventAuth TopoSort StateRes.
From S2P Require Import StateResProps AuthGraph Mainline ConflictGraph Resolve.

(** Streams of concurrent fetches at the places where the code relies on their order:
    the power levels event of a sender (6) and the events to check (11). *)
Definition in_order (S : Schedule) : Prop :=
  ∀ A (l : list A), @order S 6 A l = l ∧ @order S 11 A l = l.

Section convergence.
Context {Content : Type} `{Ruma Content}.
Context (fetch_event : EventId → option (Pdu Content)) (event_exists : EventId → bool).
Context (S1 S2 : Schedule).
Hypothesis ordered1 : in_order S1.
Hypothesis ordered2 : in_order S2.

(** ** The steps, one by one *)

Lemma separate_same sets1 sets2 :
  sets1 ≡ₚ sets2 →
  (@separate S1 sets1).1 = (@separate S2 sets2).1
  ∧ conflicted_ids (@separate S1 sets1).2 = conflicted_ids (@separate S2 sets2).2
  ∧ ((@separate S1 sets1).2 = ∅ ↔ (@separate S2 sets2).2 = ∅).
Proof.
  intros Hp.
  assert (∀ k v, v ∈ default [] ((@separate S1 sets1).2 !! k)
                 ↔ v ∈ default [] ((@separate S2 sets2).2 !! k)) as Hc.
  { intros k v. rewrite !separate_conflicted. by setoid_rewrite Hp. }
  assert (∀ S sets, (@separate S sets).2 = ∅
            ↔ ∀ k v, v ∉ default [] ((@separate S sets).2 !! k)) as Hempty.
  { intros S sets. split; [intros -> k v; rewrite lookup_empty; apply not_elem_of_nil|].
    intros Hn. apply map_eq. intros k. rewrite lookup_empty.
    destruct ((@separate S sets).2 !! k) as [ids|] eqn:Hk; [|done].
    pose proof (separate_conflicted_nonempty _ _ _ Hk). destruct ids as [|id ids]; [done|].
    destruct (Hn k id). rewrite Hk. by left. }
  split_and!.
  - apply map_eq. intros k. apply option_eq. intros v. rewrite !separate_unconflicted.
    assert (sets1 ≠ [] ↔ sets2 ≠ []) as ->; [|by setoid_rewrite Hp].
    rewrite <- !length_zero_iff_nil. by rewrite Hp.
  - apply set_eq. intros v. unfold conflicted_ids. rewrite !elem_of_list_to_set.
    assert (∀ C : gmap TypeStateKey (list EventId),
      v ∈ concat (map_to_list C).*2 ↔ ∃ k, v ∈ default [] (C !! k)) as Hel.
    { intros C. rewrite elem_of_concat_fmap. split.
      - intros ([k ids] & Hk%elem_of_map_to_list & Hv). exists k. by rewrite Hk.
      - intros (k & Hv). destruct (C !! k) as [ids|] eqn:Hk; [|by apply not_elem_of_nil in Hv].
        exists (k, ids). split; [by apply elem_of_map_to_list|done]. }
    rewrite !Hel. by setoid_rewrite Hc.
  - rewrite !Hempty. by setoid_rewrite Hc.
Qed.

Lemma full_set_same chains1 chains2 C1 C2 csg :
  chains1 ≡ₚ chains2 → conflicted_ids C1 = conflicted_ids C2 →
  @full_conflicted_set S1 event_exists chains1 C1 csg = @full_conflicted_set S2 event_exists chains2 C2 csg.
Proof.
  intros Hp HC. apply set_eq. intros i. unfold full_conflicted_set.
  rewrite !elem_of_union, !elem_of_list_to_set, !list_elem_of_filter, !elem_of_app, !auth_chain_diff_elem.
  setoid_rewrite Hp. unfold conflicted_ids in HC.
  assert (i ∈ concat (map_to_list C1).*2 ↔ i ∈ concat (map_to_list C2).*2) as ->; [|done].
  by rewrite <- !(elem_of_list_to_set (C := gset EventId)), HC.
Qed.

Lemma power_level_same id :
  @get_power_level_for_sender _ _ S1 fetch_event id = @get_power_level_for_sender _ _ S2 fetch_event id.
Proof.
  unfold get_power_level_for_sender.
  by rewrite (proj1 (ordered1 _ _)), (proj1 (ordered2 _ _)).
Qed.

Lemma reached_same D ids1 ids2 n :
  ids1 ≡ₚ ids2 → reached fetch_event D ids1 n ↔ reached fetch_event D ids2 n.
Proof. intros Hp. unfold reached. by setoid_rewrite Hp. Qed.

(** The graph is determined by its nodes and their references. *)
Lemma graph_same known fuel D ids1 ids2 :
  ids1 ≡ₚ ids2 → store_within fetch_event known → S (weight fetch_event known) ≤ fuel →
  build_graph fetch_event fuel D ∅ ids1 = build_graph fetch_event fuel D ∅ ids2.
Proof.
  intros Hp Hk Hf. destruct (build_graph_spec fetch_event D known fuel ids1 Hk Hf) as (g1 & -> & Hd1 & He1).
  destruct (build_graph_spec fetch_event D known fuel ids2 Hk Hf) as (g2 & -> & Hd2 & He2). f_equal.
  assert (∀ n, n ∈ dom g1 ↔ n ∈ dom g2) as Hd by (intros n; rewrite Hd1, Hd2; by apply reached_same).
  apply map_eq. intros n. specialize (He1 n). specialize (He2 n). specialize (Hd n).
  rewrite !elem_of_dom in *. unfold edges in *.
  destruct (g1 !! n), (g2 !! n); simpl in *.
  - f_equal. rewrite He1, He2 by eauto. done.
  - destruct Hd as [Hd _]. by destruct (Hd ltac:(eauto)).
  - destruct Hd as [_ Hd]. by destruct (Hd ltac:(eauto)).
  - done.
Qed.

Lemma event_levels_same g : @event_levels _ _ S1 fetch_event g = @event_levels _ _ S2 fetch_event g.
Proof.
  apply map_eq. intros id. apply option_eq. intros pl. rewrite !event_levels_lookup.
  by rewrite power_level_same.
Qed.

Lemma power_sort_same known fuel D ids1 ids2 :
  ids1 ≡ₚ ids2 → store_within fetch_event known → S (weight fetch_event known) ≤ fuel →
  @levels_readable _ _ S1 fetch_event D ids1 →
  @reverse_topological_power_sort _ _ S1 fetch_event fuel ids1 D
  = @reverse_topological_power_sort _ _ S2 fetch_event fuel ids2 D.
Proof.
  intros Hp Hk Hf Hl. unfold reverse_topological_power_sort.
  rewrite <- (graph_same known fuel D ids1 ids2) by done.
  destruct (build_graph_spec fetch_event D known fuel ids1 Hk Hf) as (g & -> & Hd & He).
  cbn [mbind outcome_bind]. rewrite <- event_levels_same.
  assert (sortable (fetcher fetch_event (@event_levels _ _ S1 fetch_event g)) g) as Hs
    by (by eapply graph_sortable).
  destruct (sort_lex_topo _ g _ _ Hs (λ X, @order_perm S1 8 _ (elements X)) (@order_perm S1 9 _ _))
    as (l1 & -> & Hl1).
  destruct (sort_lex_topo _ g _ _ Hs (λ X, @order_perm S2 8 _ (elements X)) (@order_perm S2 9 _ _))
    as (l2 & -> & Hl2).
  f_equal. by eapply lex_topo_unique.
Qed.

(** ** The auth checks *)

(** The store returns the event that was asked for, and has at most one third-party invite. *)
Hypothesis ids_consistent : ∀ id ev, fetch_event id = Some ev → event_id ev = id.
Hypothesis one_third_party : ∀ id id' ev ev',
  fetch_event id = Some ev → fetch_event id' = Some ev' →
  kind ev = RoomThirdPartyInvite → kind ev' = RoomThirdPartyInvite → ev = ev'.

Definition stored (ev : Pdu Content) : Prop := ∃ id, fetch_event id = Some ev.

Lemma fetched_lookup `{Schedule} (X : gset EventId) id ev :
  collect_map ((λ ev, (event_id ev, ev)) <$> omap fetch_event (order 12 (elements X))) !! id = Some ev
  ↔ id ∈ X ∧ fetch_event id = Some ev.
Proof.
  assert (∀ i e, (i, e) ∈ (λ ev, (event_id ev, ev)) <$> omap fetch_event (order 12 (elements X))
                 ↔ i ∈ X ∧ fetch_event i = Some e) as Hl.
  { intros i e. rewrite list_elem_of_fmap. setoid_rewrite list_elem_of_omap.
    setoid_rewrite order_perm. setoid_rewrite elem_of_elements. split.
    - intros (? & [= -> ->] & (j & Hj & Hf)). by rewrite (ids_consistent _ _ Hf).
    - intros [Hi Hf]. exists e. split; [by rewrite (ids_consistent _ _ Hf)|eauto]. }
  split.
  - intros Hc%collect_map_elem. by apply Hl.
  - intros Hc. apply collect_map_functional; [|by apply Hl]. intros e [_ He]%Hl. naive_solver.
Qed.

Section auth_state.
Context (rv : RoomVersion) (ae : gmap EventId (Pdu Content)).
Hypothesis ae_stored : map_Forall (λ _, stored) ae.

Lemma hashed_create_stored ev m :
  hashed_create fetch_event rv ev = Ok m → map_Forall (λ _, stored) m.
Proof.
  unfold hashed_create. destruct (room_ids_as_hashes rv); [|intros [= <-]; apply map_Forall_empty].
  intros (room & _ & Hm)%bind_Ok_inv. destruct (event_id_parse _) as [i|]; [|done].
  apply bind_Ok_inv in Hm as (c & Hc%ok_or_Ok & [= <-]). apply map_Forall_singleton. by exists i.
Qed.

Lemma add_auth_events_stored ids m m' :
  map_Forall (λ _, stored) m → add_auth_events ae ids m = Ok m' → map_Forall (λ _, stored) m'.
Proof.
  revert m. induction ids as [|a ids IH]; intros m Hm; cbn; [by intros [= <-]|].
  destruct (ae !! a) as [ev|] eqn:Ha; [|by apply IH].
  intros (key & _ & Hr)%bind_Ok_inv. eapply IH; [|done]. apply map_Forall_insert_2; [|done].
  by apply (ae_stored a).
Qed.

Lemma add_resolved_stored st m k :
  map_Forall (λ _, stored) m → map_Forall (λ _, stored) (add_resolved fetch_event ae st m k).
Proof.
  intros Hm. unfold add_resolved. destruct (st !! k) as [id|]; [|done].
  destruct (ae !! id) as [ev|] eqn:Ha; [apply map_Forall_insert_2; [by apply (ae_stored id)|done]|].
  destruct (fetch_event id) as [ev|] eqn:Hf; [|done].
  apply map_Forall_insert_2; [by exists id|done].
Qed.

Lemma auth_state_stored st ev key m :
  auth_state_for fetch_event rv ae st ev key = Ok m → map_Forall (λ _, stored) m.
Proof.
  unfold auth_state_for. intros (types & _ & (m1 & H1 & (m2 & H2 & [= <-])%bind_Ok_inv)%bind_Ok_inv)%bind_Ok_inv.
  apply hashed_create_stored in H1. pose proof (add_auth_events_stored _ _ _ H1 H2) as Hm2.
  clear -Hm2 ae_stored. revert m2 Hm2. induction types as [|k types IH]; intros m2 Hm2; [done|].
  cbn. apply IH. by apply add_resolved_stored.
Qed.

Lemma find_None_iff {A} (p : A → bool) l : find p l = None ↔ ∀ x, x ∈ l → p x = false.
Proof.
  induction l as [|y l IH]; cbn; [split; [by intros _ x ?%not_elem_of_nil|done]|].
  destruct (p y) eqn:Hy; split.
  - done.
  - intros Hn. by rewrite (Hn y) in Hy by (by left).
  - rewrite IH. intros Hn x [->|Hx]%elem_of_cons; auto.
  - rewrite IH. intros Hn x Hx. apply Hn. by right.
Qed.

Lemma find_Some_elem {A} (p : A → bool) l x : find p l = Some x → x ∈ l ∧ p x = true.
Proof.
  induction l as [|y l IH]; cbn; [done|]. destruct (p y) eqn:Hy.
  - intros [= <-]. split; [by left|done].
  - intros [? ?]%IH. split; [by right|done].
Qed.

(** Where all that fit are the same, the order of the list does not matter. *)
Lemma find_same {A} (p : A → bool) l l' :
  l ≡ₚ l' → (∀ x y, x ∈ l → y ∈ l → p x = true → p y = true → x = y) → find p l = find p l'.
Proof.
  intros Hl Hu. destruct (find p l) as [x|] eqn:Hx.
  - apply find_Some_elem in Hx as [Hx Hp].
    destruct (find p l') as [y|] eqn:Hy.
    + apply find_Some_elem in Hy as [Hy Hq]. rewrite <- Hl in Hy. f_equal. by apply Hu.
    + rewrite find_None_iff in Hy. rewrite Hl in Hx. by rewrite (Hy x Hx) in Hp.
  - symmetry. apply find_None_iff. intros x. rewrite <- Hl. by apply find_None_iff.
Qed.

Lemma same_invite_found `{S : Schedule} `{S' : Schedule} (m : gmap TypeStateKey (Pdu Content)) :
  map_Forall (λ _, stored) m →
  find (λ pdu : Pdu Content, bool_decide (kind pdu = RoomThirdPartyInvite))
    (@order S 10 _ (map_to_list m)).*2
  = find (λ pdu : Pdu Content, bool_decide (kind pdu = RoomThirdPartyInvite))
      (@order S' 10 _ (map_to_list m)).*2.
Proof.
  intros Hm. apply find_same; [by rewrite !order_perm|].
  assert (∀ ev, ev ∈ (@order S 10 _ (map_to_list m)).*2 → stored ev) as Hst.
  { intros ev ([k ev'] & -> & Hin)%list_elem_of_fmap.
    rewrite order_perm, elem_of_map_to_list in Hin. by apply (Hm k). }
  intros x y [i Hi]%Hst [j Hj]%Hst Hx%bool_decide_eq_true Hy%bool_decide_eq_true.
  by eapply one_third_party.
Qed.

Lemma check_event_same st ev :
  @check_event _ _ S1 fetch_event rv ae st ev = @check_event _ _ S2 fetch_event rv ae st ev.
Proof.
  unfold check_event. destruct (ok_or _ _); cbn [mbind outcome_bind]; [|done..].
  destruct (auth_state_for _ _ _ _ _ _) as [m| |] eqn:Hm; cbn [mbind outcome_bind]; [|done..].
  by rewrite (same_invite_found (S := S1) (S' := S2)) by (by eapply auth_state_stored).
Qed.

Lemma check_events_same evs st :
  @check_events _ _ S1 fetch_event rv ae evs st = @check_events _ _ S2 fetch_event rv ae evs st.
Proof.
  revert st. induction evs as [|ev evs IH]; intros st; cbn [check_events]; [done|].
  rewrite check_event_same. destruct (@check_event _ _ S2 _ _ _ _ _); cbn; [apply IH|done..].
Qed.
End auth_state.

Lemma iterative_same rv ids st :
  @iterative_auth_check _ _ S1 fetch_event rv ids st = @iterative_auth_check _ _ S2 fetch_event rv ids st.
Proof.
  unfold iterative_auth_check. rewrite (proj2 (ordered1 _ _)), (proj2 (ordered2 _ _)).
  destruct (try_map _ ids) as [evs| |]; cbn [mbind outcome_bind]; [|done..].
  case_bool_decide; [done|]. set (X := list_to_set _).
  assert (∀ S S' : Schedule,
    collect_map ((λ ev, (event_id ev, ev)) <$> omap fetch_event (@order S 12 _ (elements X)))
    = collect_map ((λ ev, (event_id ev, ev)) <$> omap fetch_event (@order S' 12 _ (elements X)))) as Hsame.
  { intros S S'. apply map_eq. intros id. apply option_eq. intros ev. by rewrite !fetched_lookup. }
  rewrite (Hsame S2 S1). apply check_events_same.
  intros id ev Hev%fetched_lookup. exists id. by destruct Hev.
Qed.

(** ** The whole *)

(** The store: finite, auth events stored and acyclic; the state sets name stored
    events, and [event_exists] does not invent any; power levels can be read. *)
Record well_stored (rank : EventId → nat) (known : gset EventId) (sets : list StateMap) : Prop := {
  ws_within : store_within fetch_event known;
  ws_closed : store_closed fetch_event;
  ws_acyclic : acyclic fetch_event rank;
  ws_sets : ∀ s k id, s ∈ sets → s !! k = Some id → is_Some (fetch_event id);
  ws_exists : ∀ id, event_exists id = true → is_Some (fetch_event id);
  ws_levels : ∀ id, is_Some (fetch_event id) →
                ∃ pl, @get_power_level_for_sender _ _ S1 fetch_event id = Ok pl;
}.

Lemma rtc_stored a b :
  store_closed fetch_event → rtc (edge fetch_event) a b →
  is_Some (fetch_event a) → is_Some (fetch_event b).
Proof. intros Hc. induction 1 as [|x y z Hxy _ IH]; [done|]. intros _. apply IH. by apply (Hc x). Qed.

Lemma resolve_conflicts_same rank known fuel v U init sets D :
  well_stored rank known sets → S (weight fetch_event known) ≤ fuel →
  (∀ i, i ∈ D → is_Some (fetch_event i)) →
  @resolve_conflicts _ _ S1 fetch_event fuel v U init D
  = @resolve_conflicts _ _ S2 fetch_event fuel v U init D.
Proof.
  intros Hw Hf HD. unfold resolve_conflicts.
  set (ids := filter _ (elements D)).
  rewrite (power_sort_same known fuel D (@order S1 15 _ ids) (@order S2 15 _ ids));
    [|by rewrite !order_perm|by apply Hw|done|].
  2:{ intros n (r & Hr & Hrt). assert (is_Some (fetch_event n)) as Hn; [|split; [done|by apply Hw]].
      apply rtc_inv_r in Hrt as [->|(m & _ & Hm)].
      - rewrite order_perm in Hr. unfold ids in Hr. apply list_elem_of_filter in Hr as [_ Hr].
        apply HD. by apply elem_of_elements.
      - apply HD. unfold refers in Hm. apply elem_of_children in Hm. by destruct Hm. }
  destruct (reverse_topological_power_sort _ _ _ _) as [ctl| |]; cbn [mbind outcome_bind]; [|done..].
  destruct (RoomVersion_new v) as [rv| |]; cbn [mbind outcome_bind]; [|done..].
  rewrite iterative_same.
  destruct (@iterative_auth_check _ _ S2 _ _ _ _) as [rc| |]; cbn [mbind outcome_bind]; [|done..].
  rewrite (mainline_sort_deterministic_aux fetch_event S1 S2 fuel
    (filter (λ id, id ∉ ctl) (@order S1 16 _ (elements D)))
    (filter (λ id, id ∉ ctl) (@order S2 16 _ (elements D)))) by (by rewrite !order_perm).
  destruct (mainline_sort _ _ _ _) as [left| |]; cbn [mbind outcome_bind]; [|done..].
  by rewrite iterative_same.
Qed.

Lemma conflicted_stored `{Schedule} rank known sets a :
  well_stored rank known sets → a ∈ conflicted_ids (separate sets).2 → is_Some (fetch_event a).
Proof.
  intros Hw Ha. unfold conflicted_ids in Ha.
  apply elem_of_list_to_set, elem_of_concat_fmap in Ha as ([k ids] & Hk%elem_of_map_to_list & Ha).
  destruct (proj1 (separate_conflicted sets k a)) as [(s & Hs & Hsk) _]; [by rewrite Hk|].
  by eapply (ws_sets _ _ _ Hw).
Qed.

Lemma full_set_stored `{Schedule} rank known sets chains csg :
  well_stored rank known sets →
  (∀ e, e ∈ csg → between fetch_event (conflicted_ids (separate sets).2) e) →
  ∀ i, i ∈ full_conflicted_set event_exists chains (separate sets).2 csg → is_Some (fetch_event i).
Proof.
  intros Hw Hcsg i. unfold full_conflicted_set. intros [Hi|Hi]%elem_of_union.
  - apply elem_of_list_to_set, list_elem_of_filter in Hi as [Hi _]. by apply Hw.
  - destruct (Hcsg i Hi) as (a & _ & Ha & _ & Hr & _). eapply rtc_stored; [by apply Hw|done|].
    by eapply conflicted_stored.
Qed.

(** C1: state resolution converges where no two third-party invites are stored.  On the same
    state sets and auth chains, in any order, over a store that is finite, returns the events
    asked for, has their auth events without a cycle, the events the state sets name and
    readable power levels, two runs of [resolve] whose fetches of events to check and of power
    levels complete in order agree, result or error, whatever the iteration order of every
    hash map and set and the completion order of all other fetches; the fuel covers the walks
    of the auth events.  With two third-party invites in an auth state the result does depend
    on the order of a hash map. *)
Theorem resolve_converges rank known fuel v sets1 sets2 chains1 chains2 :
  sets1 ≡ₚ sets2 → chains1 ≡ₚ chains2 → well_stored rank known sets1 →
  size known + S (weight fetch_event known) ≤ fuel →
  @resolve _ _ S1 fetch_event event_exists fuel v sets1 chains1
  = @resolve _ _ S2 fetch_event event_exists fuel v sets2 chains2.
Proof.
  intros Hs Hch Hw Hf. destruct (separate_same sets1 sets2 Hs) as (HU & HC & Hempty).
  pose proof (λ a, conflicted_stored (H0 := S1) rank known sets1 a Hw) as Hst.
  pose proof (λ csg, full_set_stored (H0 := S1) rank known sets1 chains1 csg Hw) as Hfull.
  unfold resolve. destruct (@separate S1 sets1) as [U1 C1], (@separate S2 sets2) as [U2 C2].
  cbn [fst snd] in *. subst U2. rewrite (bool_decide_ext _ _ Hempty). case_bool_decide; [done|].
  assert (size (conflicted_ids C1) + weight fetch_event known ≤ fuel) as Hf1.
  { assert (size (conflicted_ids C1) ≤ size known); [|lia].
    apply subseteq_size. intros a Ha. by apply (ws_within _ _ _ Hw), Hst. }
  case_bool_decide; cbn [mbind outcome_bind].
  - destruct (conflicted_subgraph_total (H0 := S1) fetch_event rank known fuel C1)
      as (G1 & -> & HG1); [by apply Hw..|done|].
    destruct (conflicted_subgraph_total (H0 := S2) fetch_event rank known fuel C2)
      as (G2 & -> & HG2); [by apply Hw..|by rewrite <- HC|].
    assert (G1 = G2) as <- by (apply set_eq; intros e; by rewrite HG1, HG2, HC).
    cbn [mbind outcome_bind].
    rewrite <- (full_set_same chains1 chains2 C1 C2 G1) by done.
    eapply resolve_conflicts_same; [done|lia|]. apply Hfull. intros e. by apply HG1.
  - rewrite <- (full_set_same chains1 chains2 C1 C2 ∅) by done.
    eapply resolve_conflicts_same; [done|lia|]. apply Hfull. set_solver.
Qed.
End convergence.
