(* ===== verification/StateResDemo.v ===== *)
(** * A conflict, resolved

    A room in which one server saw Bob set the topic and the other saw Alice ban him, and
    the theorems on state resolution applied to it; and the effect of the order in which
    concurrent fetches complete. *)

From S2P Require Import Prelude RoomVersion Event PowerLevels EventAuth AuthDemo TopoSort StateRes.
From S2P Require Import StateResProps AuthGraph Mainline ConflictGraph Resolve Convergence.



(** ** Schedules *)

#[export] Instance in_sequence : Schedule := {
  order _ _ l := l;
  order_perm _ _ l := Permutation_refl l;
}.

(** Everything comes in reverse, except the fetches at the places [keep]. *)
Definition reversed (keep : list nat) : Schedule.
Proof.
  refine {| order n A l := if bool_decide (n ∈ keep) then l else reverse l |}.
  intros n A l. case_bool_decide; [done|apply reverse_Permutation].
Defined.

Lemma in_sequence_ordered : in_order in_sequence.
Proof. done. Qed.
Lemma reversed_ordered : in_order (reversed [6; 11]%nat).
Proof. done. Qed.

(** ** The room *)

Definition event (id who : string) (ty : EventType) (key : string) (c : DemoContent) (ts : Z)
    (auth : list string) : Pdu DemoContent :=
  {| event_id := id; room_id := Some "!r:a"; sender := who; origin := None; origin_server_ts := ts; kind := ty;
     content := c; state_key := Some key; prev_events := ["$x"]; depth := 1;
     auth_events := auth; redacts := None; unsigned := None; hashes := mkEventHash EmptyString;
     signatures := None |}.

Definition topic : EventType := OtherType "m.room.topic".
Definition public_rules : DemoContent := mkDemo None None None None (Some PublicRule) None.

Definition room_events : list (Pdu DemoContent) :=
  [ create;
    event "$ma" "@alice:a" RoomMember "@alice:a" (member_content Join) 1 ["$create"];
    event "$levels" "@alice:a" RoomPowerLevels EmptyString (levels_content levels) 2 ["$create"; "$ma"];
    event "$rules" "@alice:a" RoomJoinRules EmptyString public_rules 3 ["$create"; "$ma"; "$levels"];
    event "$mb" "@bob:a" RoomMember "@bob:a" (member_content Join) 4 ["$create"; "$rules"; "$levels"];
    event "$ban" "@alice:a" RoomMember "@bob:a" (member_content Ban) 5 ["$create"; "$ma"; "$levels"; "$mb"];
    event "$ta" "@alice:a" topic EmptyString no_content 6 ["$create"; "$ma"; "$levels"];
    event "$tb" "@bob:a" topic EmptyString no_content 7 ["$create"; "$mb"; "$levels"] ].

Definition store : gmap EventId (Pdu DemoContent) :=
  list_to_map ((λ ev, (event_id ev, ev)) <$> room_events).
Definition fetch (id : EventId) : option (Pdu DemoContent) := store !! id.
Definition exists_event (id : EventId) : bool := bool_decide (is_Some (fetch id)).

Definition common : StateMap :=
  {[ (RoomCreate, EmptyString) := "$create"; (RoomMember, "@alice:a") := "$ma";
     (RoomPowerLevels, EmptyString) := "$levels"; (RoomJoinRules, EmptyString) := "$rules" ]}.
Definition state1 : StateMap := <[(RoomMember, "@bob:a") := "$mb"]> (<[(topic, EmptyString) := "$tb"]> common).
Definition state2 : StateMap := <[(RoomMember, "@bob:a") := "$ban"]> (<[(topic, EmptyString) := "$ta"]> common).
Definition base_chain : gset EventId := {["$create"; "$ma"; "$levels"; "$rules"]}.
Definition chains : list (gset EventId) := [base_chain ∪ {["$mb"; "$tb"]}; base_chain ∪ {["$mb"; "$ban"; "$ta"]}].

(** The ban stands, Bob's topic does not. *)
Example conflict_resolved :
  resolve fetch exists_event 100 V10 [state1; state2] chains = Ok state2.
Proof. by apply (bool_decide_unpack _); vm_compute. Qed.

(** ** The order of the fetches shows *)

(** [iterative_auth_check] does not keep the order it is given: it fetches the events
    concurrently and checks them as they arrive.  When the fetch of the later of two
    accepted topics completes first, the earlier one ends up in the state. *)
Theorem iterative_auth_check_loses_order :
  @iterative_auth_check _ _ in_sequence fetch RV10 ["$mb"; "$ta"; "$tb"] common
    = Ok (<[(topic, EmptyString) := "$tb"]> (<[(RoomMember, "@bob:a") := "$mb"]> common))
  ∧ @iterative_auth_check _ _ (reversed []) fetch RV10 ["$mb"; "$ta"; "$tb"] common
    = Ok (<[(topic, EmptyString) := "$ta"]> (<[(RoomMember, "@bob:a") := "$mb"]> common)).
Proof. split; by apply (bool_decide_unpack _); vm_compute. Qed.

(** ** The theorems at this room *)

Lemma separate_spec_witness :
  (separate [state1; state2]).1 !! (RoomCreate, EmptyString) = Some "$create"
  ∧ "$ban" ∈ default [] ((separate [state1; state2]).2 !! (RoomMember, "@bob:a")).
Proof.
  destruct (separate_spec [state1; state2] _ _ (surjective_pairing _)) as (Hu & Hc & _). split.
  - apply Hu. split; [done|]. intros s Hs.
    apply list_elem_of_In in Hs as [<-|[<-|[]]]; apply (bool_decide_unpack _); vm_compute; exact I.
  - apply Hc. split.
    + exists state2. split; [repeat constructor|]. apply (bool_decide_unpack _). vm_compute. exact I.
    + exists state1. split; [repeat constructor|]. apply (bool_decide_unpack _). vm_compute. exact I.
Defined.

Definition rank (id : EventId) : nat :=
  match list_find (λ ev : Pdu DemoContent, event_id ev = id) room_events with Some (n, _) => n | None => 0 end.
Definition known : gset EventId := dom store.

Lemma known_within : store_within fetch known.
Proof. intros id Hid. by apply elem_of_dom. Qed.

(** The references of the room, by computation. *)
Definition room_edges : list (EventId * EventId) :=
  concat ((λ ev : Pdu DemoContent, pair (event_id ev) <$> auth_events ev) <$> room_events).

Lemma auth_ids_edges a b : b ∈ auth_ids fetch a → (a, b) ∈ room_edges.
Proof.
  unfold auth_ids, fetch. destruct (store !! a) as [ev|] eqn:Ha; [|by intros ?%not_elem_of_nil].
  intros Hb. assert (map_Forall (λ id ev, Forall (λ x, (id, x) ∈ room_edges) (auth_events ev)) store) as Hall
    by (apply (bool_decide_unpack _); by vm_compute).
  specialize (Hall a ev Ha). rewrite Forall_forall in Hall. auto.
Qed.

Lemma room_acyclic : acyclic fetch rank.
Proof.
  assert (Forall (λ e, rank e.2 < rank e.1) room_edges) as Hall
    by (apply (bool_decide_unpack _); by vm_compute).
  rewrite Forall_forall in Hall. intros a b Hb%auth_ids_edges. exact (Hall (a, b) Hb).
Qed.
Lemma room_closed : store_closed fetch.
Proof.
  assert (Forall (λ e, is_Some (fetch e.2)) room_edges) as Hall
    by (apply (bool_decide_unpack _); by vm_compute).
  rewrite Forall_forall in Hall. intros a b Hb%auth_ids_edges. exact (Hall (a, b) Hb).
Qed.

Lemma store_forall (P : EventId → Prop) `{∀ id, Decision (P id)} :
  bool_decide (set_Forall P known) = true → ∀ id, is_Some (fetch id) → P id.
Proof. intros Hall%bool_decide_eq_true id Hid. by apply Hall, known_within. Qed.

Definition is_ok {E A} (o : outcome E A) : bool := match o with Ok _ => true | _ => false end.

Lemma levels_ok id :
  is_Some (fetch id) → ∃ pl, get_power_level_for_sender fetch id = Ok pl.
Proof.
  assert (set_Forall (λ id, is_ok (get_power_level_for_sender fetch id) = true) known) as Hall
    by (apply (bool_decide_unpack _); by vm_compute).
  intros Hid%known_within. specialize (Hall id Hid). cbn beta in Hall.
  destruct (get_power_level_for_sender fetch id); [by eexists|done..].
Qed.

Lemma rank_bound id : rank id < 100.
Proof.
  unfold rank. destruct (list_find _ room_events) as [[n ev]|] eqn:Hf; [|lia].
  apply list_find_Some in Hf as (Hn & _). apply lookup_lt_Some in Hn. unfold room_events in Hn.
  cbn [length] in Hn. lia.
Qed.

Definition conflicts : gset EventId := {["$mb"; "$ban"; "$ta"; "$tb"]}.
Lemma conflicts_stored id : id ∈ conflicts → is_Some (fetch id).
Proof.
  assert (set_Forall (λ id, is_Some (fetch id)) conflicts) as Hall
    by (apply (bool_decide_unpack _); by vm_compute). apply Hall.
Qed.

Lemma reverse_topological_power_sort_spec_witness :
  ∃ l, reverse_topological_power_sort fetch 100 ["$ban"] conflicts = Ok l ∧ NoDup l.
Proof.
  destruct (reverse_topological_power_sort_spec fetch conflicts known 100 ["$ban"] rank)
    as (l & Hl & Hnd & _).
  - exact known_within.
  - apply (bool_decide_unpack _). by vm_compute.
  - intros n (r & Hr & Hrt). assert (is_Some (fetch n)) as Hn; [|split; [done|by apply levels_ok]].
    apply conflicts_stored. apply rtc_inv_r in Hrt as [->|(m & _ & Hm)].
    + apply list_elem_of_singleton in Hr as ->. apply (bool_decide_unpack _). by vm_compute.
    + unfold refers in Hm. apply elem_of_children in Hm. by destruct Hm.
  - exact room_acyclic.
  - exact (ex_intro _ l (conj Hl Hnd)).
Defined.

Lemma mainline_sort_spec_witness :
  ∃ es, mainline_sort fetch 100 ["$tb"; "$ta"; "$gone"] (Some "$levels") = Ok es.*1
        ∧ StronglySorted entry_le es.
Proof.
  destruct (mainline_sort_spec fetch rank 100 ["$tb"; "$ta"; "$gone"] (Some "$levels"))
    as (es & Hes & _ & _ & Hs & _).
  - exact room_closed.
  - exact room_acyclic.
  - exact rank_bound.
  - intros p [= <-]. apply (bool_decide_unpack _). by vm_compute.
  - exact (ex_intro _ es (conj Hes Hs)).
Defined.

Lemma mainline_sort_deterministic_witness :
  @mainline_sort _ in_sequence fetch 100 ["$tb"; "$ta"] (Some "$levels")
  = @mainline_sort _ (reversed []) fetch 100 ["$ta"; "$tb"] (Some "$levels").
Proof. apply (mainline_sort_deterministic fetch in_sequence (reversed [])). apply perm_swap. Defined.

Definition member_conflict : gmap TypeStateKey (list EventId) := {[(RoomMember, "@bob:a") := ["$mb"; "$ban"]]}.

Lemma conflicted_subgraph_spec_witness :
  ∃ G, calculate_conflicted_subgraph fetch 100 member_conflict = Ok G
       ∧ ∀ e, e ∈ G ↔ between fetch (conflicted_ids member_conflict) e.
Proof.
  apply (conflicted_subgraph_spec fetch rank known 100 member_conflict).
  - exact room_acyclic.
  - exact known_within.
  - apply (bool_decide_unpack _). by vm_compute.
Defined.

Lemma resolve_keeps_agreement_witness :
  ∃ r, resolve fetch exists_event 100 V10 [state1; state2] chains = Ok r
       ∧ r !! (RoomPowerLevels, EmptyString) = Some "$levels".
Proof.
  exists state2. split; [apply conflict_resolved|].
  apply (resolve_keeps_agreement fetch exists_event 100 V10 [state1; state2] chains).
  - apply conflict_resolved.
  - split; [done|]. intros s Hs. repeat (apply elem_of_cons in Hs as [->|Hs]; [by vm_compute|]).
    by apply not_elem_of_nil in Hs.
Defined.

Lemma resolve_admits_only_authorized_witness :
  agreed [state1; state2] (topic, EmptyString) "$ta" ∨
  ∃ csg init, start_of fetch 100 V10 [state1; state2] csg init
    ∧ let all := full_conflicted_set exists_event chains (separate [state1; state2]).2 csg in
      admitted_in_rounds fetch 100 V10 init all (topic, EmptyString) "$ta"
      ∧ ∃ i ev key, i ∈ all ∧ fetch i = Some ev ∧ event_id ev = "$ta"
                    ∧ state_key ev = Some key ∧ (topic, EmptyString) = (kind ev, key).
Proof.
  apply (resolve_admits_only_authorized fetch exists_event 100 V10 [state1; state2] chains state2).
  - apply conflict_resolved.
  - by vm_compute.
Defined.

Lemma resolve_same_state_witness :
  resolve fetch exists_event 0 V12 [state1; state1] [] = Ok state1.
Proof.
  apply (resolve_same_state fetch exists_event 0 V12 [state1; state1] []); [done|].
  intros s Hs. repeat (apply elem_of_cons in Hs as [->|Hs]; [done|]). by apply not_elem_of_nil in Hs.
Defined.

Lemma room_well_stored : well_stored fetch exists_event in_sequence rank known [state1; state2].
Proof.
  constructor; [exact known_within|exact room_closed|exact room_acyclic| | |exact levels_ok].
  - intros s k id Hs. revert k id. change (map_Forall (λ _ id, is_Some (fetch id)) s).
    repeat (apply elem_of_cons in Hs as [->|Hs]; [apply (bool_decide_unpack _); by vm_compute|]).
    by apply not_elem_of_nil in Hs.
  - intros id Hid. by apply bool_decide_eq_true in Hid.
Qed.

Lemma store_events id ev : fetch id = Some ev → event_id ev = id ∧ kind ev ≠ RoomThirdPartyInvite.
Proof.
  assert (map_Forall (λ id ev, event_id ev = id ∧ kind ev ≠ RoomThirdPartyInvite) store) as Hall
    by (apply (bool_decide_unpack _); by vm_compute). apply Hall.
Qed.

Lemma resolve_converges_witness :
  @resolve _ _ in_sequence fetch exists_event 100 V10 [state1; state2] chains
  = @resolve _ _ (reversed [6; 11]) fetch exists_event 100 V10 [state2; state1] (reverse chains).
Proof.
  apply (resolve_converges fetch exists_event in_sequence (reversed [6; 11])
    in_sequence_ordered reversed_ordered) with rank known.
  - intros id ev Hev. by apply store_events.
  - intros id id' ev ev' Hev _ Hk _. by destruct (store_events id ev Hev).
  - apply perm_swap.
  - symmetry. apply reverse_Permutation.
  - exact room_well_stored.
  - apply (bool_decide_unpack _). by vm_compute.
Defined.
