(* ===== verification/StateCompressor.v ===== *)
(** * Compressed room states: [src/service/rooms/state_compressor/mod.rs]

    A room state is a set of 16-byte entries (short state key, short event id).  States
    are stored as layers of differences.  The module models the encoding of an entry and
    of a difference, the loading of a stack of layers through the cache, the merging of
    layers and the choice of the layer a new state is stored on.  [save_state], which also
    reads the tables of other services, is in [RoomState]. *)

From S2P Require Import Prelude Bytes DbMap.

(** ** Data *)

(** Errors of this service: a missing or unreadable row, [checked!] arithmetic. *)
Inductive CompressorError := DatabaseError | ArithmeticError.

(** [CompressedStateEvent = [u8; 16]]; [CompressedState] is a [BTreeSet] of them, which
    iterates in byte order. *)
Abbreviation CompressedStateEvent := bytes (only parsing).
Abbreviation CompressedState := (gset bytes).

#[export] Instance bytes_le_total : Total bytes_le.
Proof. intros l k. unfold bytes_le. rewrite (bytes_cmp_antisym k l). destruct (bytes_cmp k l); naive_solver. Qed.
Definition ascending (X : CompressedState) : list bytes := merge_sort bytes_le (elements X).

Record StateDiff := mkStateDiff {
  parent : option Z;
  added : CompressedState;
  removed : CompressedState;
}.

Record ShortStateInfo := mkShortStateInfo {
  shortstatehash : Z;
  full_state : CompressedState;
  info_added : CompressedState;
  info_removed : CompressedState;
}.

(** ** Entries *)

Definition compress_state_event (shortstatekey shorteventid : Z) : CompressedStateEvent :=
  u64_be shortstatekey ++ u64_be shorteventid.

Definition parse_compressed_state_event (compressed_event : CompressedStateEvent)
    : outcome unit (Z * Z) :=
  shortstatekey ← u64_from_u8 (take 8 compressed_event);
  shorteventid ← u64_from_u8 (drop 8 compressed_event);
  Ok (shortstatekey, shorteventid).

(** ** Differences *)

Definition zero_u64 : bytes := u64_be 0.

(** The value [save_statediff] writes. *)
Definition statediff_value (diff : StateDiff) : bytes :=
  u64_be (default 0%Z (parent diff)) ++ concat (ascending (added diff)) ++
  (if bool_decide (removed diff = ∅) then []
   else zero_u64 ++ concat (ascending (removed diff))).

(** The loop of [get_statediff]; [rest] is [value] from index [i] on, and a round takes
    at least eight bytes off it. *)
Fixpoint parse_entries (fuel : nat) (add_mode : bool) (added removed : CompressedState) (rest : bytes)
    : CompressedState * CompressedState :=
  match fuel with
  | O => (added, removed)
  | S fuel =>
      if bool_decide (length rest < 16) then (added, removed)
      else
        let v := take 16 rest in
        if add_mode && bool_decide (starts_with v zero_u64)
        then parse_entries fuel false added removed (drop 8 rest)
        else if add_mode
        then parse_entries fuel add_mode ({[v]} ∪ added) removed (drop 16 rest)
        else parse_entries fuel add_mode added ({[v]} ∪ removed) (drop 16 rest)
  end.

Section service.
Context {DB : Type} `{Store DB}.

Definition get_statediff (db : DB) (hash : Z) : outcome CompressorError StateDiff :=
  value ← ok_or DatabaseError (map_get db (u64_be hash));
  if bool_decide (length value < 8) then Panic
  else
    let parent := match u64_from_bytes (take 8 value) with
                  | Some p => if bool_decide (p ≠ 0%Z) then Some p else None
                  | None => None
                  end in
    let '(added, removed) := parse_entries (length value) true ∅ ∅ (drop 8 value) in
    Ok (mkStateDiff parent added removed).

Definition save_statediff (db : DB) (hash : Z) (diff : StateDiff) : DB :=
  map_insert db (u64_be hash) (statediff_value diff).

(** ** Loading *)

(** The service: its table and its cache.  The cache is bounded; what it evicts is up to
    the implementation of the LRU map. *)
Record Service := mkService {
  shortstatehash_statediff : DB;
  stateinfo_cache : gmap Z (list ShortStateInfo);
}.
Context (evict : gmap Z (list ShortStateInfo) → gmap Z (list ShortStateInfo)).

Definition cache_shortstatehash_info (s : Service) (hash : Z) (stack : list ShortStateInfo) : Service :=
  mkService (shortstatehash_statediff s) (evict (<[hash := stack]> (stateinfo_cache s))).

(** The layer on top of the stack of its parent; stacks are listed bottom first. *)
Definition push_layer (stack : list ShortStateInfo) (hash : Z) (diff : StateDiff)
    : outcome CompressorError (list ShortStateInfo) :=
  top ← expect (last stack);
  Ok (stack ++ [mkShortStateInfo hash ((full_state top ∪ added diff) ∖ removed diff)
                  (added diff) (removed diff)]).

(** [load_shortstatehash_info] and [new_shortstatehash_info], which call each other. *)
Fixpoint load_shortstatehash_info (fuel : nat) (s : Service) (hash : Z)
    : Service * outcome CompressorError (list ShortStateInfo) :=
  match stateinfo_cache s !! hash with
  | Some r => (s, Ok r)
  | None =>
      match fuel with
      | O => (s, Panic)
      | S fuel =>
          let '(s, stack) :=
            match get_statediff (shortstatehash_statediff s) hash with
            | Ok diff =>
                match parent diff with
                | None => (s, Ok [mkShortStateInfo hash (added diff) (added diff) (removed diff)])
                | Some p =>
                    let '(s, stack) := load_shortstatehash_info fuel s p in
                    (s, stack ← stack; push_layer stack hash diff)
                end
            | Err e => (s, Err e)
            | Panic => (s, Panic)
            end in
          match stack with
          | Ok stack => (cache_shortstatehash_info s hash stack, Ok stack)
          | _ => (s, stack)
          end
      end
  end.

(** ** Saving *)

Definition merge_removed (acc : CompressedState * CompressedState) (r : bytes) :=
  let '(parent_new, parent_removed) := acc in
  if bool_decide (r ∈ parent_new) then (parent_new ∖ {[r]}, parent_removed)
  else (parent_new, {[r]} ∪ parent_removed).
Definition merge_new (acc : CompressedState * CompressedState) (n : bytes) :=
  let '(parent_new, parent_removed) := acc in
  if bool_decide (n ∈ parent_removed) then (parent_new, parent_removed ∖ {[n]})
  else ({[n]} ∪ parent_new, parent_removed).

(** The difference to the layer below the parent. *)
Definition merge_layers (parent : ShortStateInfo) (statediffnew statediffremoved : CompressedState)
    : CompressedState * CompressedState :=
  foldl merge_new
    (foldl merge_removed (info_added parent, info_removed parent) (ascending statediffremoved))
    (ascending statediffnew).

(** [checked!] on [usize]. *)
Definition checked_usize (z : Z) : outcome CompressorError Z := ok_or ArithmeticError (u64_checked z).
Definition len (X : CompressedState) : Z := Z.of_nat (size X).

(** [parent_states] is listed with the last (top) layer first. *)
Fixpoint save_state_from_diff (db : DB) (hash : Z) (statediffnew statediffremoved : CompressedState)
    (diff_to_sibling : Z) (parent_states : list ShortStateInfo) : outcome CompressorError DB :=
  diffsum ← checked_usize (len statediffnew + len statediffremoved);
  match parent_states with
  | [] => Ok (save_statediff db hash (mkStateDiff None statediffnew statediffremoved))
  | parent :: above =>
      let '(parent_new, parent_removed) := merge_layers parent statediffnew statediffremoved in
      if bool_decide (3 < length parent_states) then
        save_state_from_diff db hash parent_new parent_removed diffsum above
      else
        parent_diff ← checked_usize (len (info_added parent) + len (info_removed parent));
        square ← checked_usize (diffsum * diffsum);
        double ← checked_usize (2 * diff_to_sibling);
        limit ← checked_usize (double * parent_diff);
        if bool_decide (limit ≤ square)%Z then
          save_state_from_diff db hash parent_new parent_removed diffsum above
        else
          Ok (save_statediff db hash
                (mkStateDiff (Some (shortstatehash parent)) statediffnew statediffremoved))
  end.
End service.
