(* ===== verification/CompressorProps.v ===== *)
(** * Compressed states come back

    Round trips of the encodings of [StateCompressor], the meaning of a stack of layers,
    and the correctness of saving: merging layers keeps the state, at most four layers are
    stored, and loading a saved state returns it, through any coherent cache. *)

From S2P Require Import Prelude Bytes DbMap StateCompressor.

(** ** Encodings *)

(** A well-formed entry: sixteen bytes with a short state key other than zero (short ids
    are counts, and the counter starts at one). *)
Definition valid_entry (e : bytes) : Prop := length e = 16 ∧ ¬ starts_with e zero_u64.
Definition valid_state (X : CompressedState) : Prop := ∀ e, e ∈ X → valid_entry e.

Lemma length_compress k e : length (compress_state_event k e) = 16.
Proof. unfold compress_state_event. by rewrite length_app, !length_u64_be. Qed.

Lemma compress_parse k e :
  is_u64 k → is_u64 e → parse_compressed_state_event (compress_state_event k e) = Ok (k, e).
Proof.
  intros Hk He. unfold parse_compressed_state_event, compress_state_event, u64_from_u8.
  rewrite take_app_length', drop_app_length' by (by rewrite length_u64_be).
  by rewrite !u64_from_be.
Qed.

Lemma compress_valid k e : is_u64 k → k ≠ 0%Z → valid_entry (compress_state_event k e).
Proof.
  intros Hk Hk0. split; [apply length_compress|].
  unfold starts_with, compress_state_event, zero_u64. rewrite length_u64_be.
  rewrite take_app_length' by (by rewrite length_u64_be). intros Heq.
  apply Hk0, u64_be_inj; [done|split; lia|done].
Qed.

(** An entry of a compressed state is decoded to the short state key and the short event
    id it was made of, and entries made of a key other than zero are well-formed. *)
Theorem compressed_entry_round_trip k e :
  is_u64 k → is_u64 e → k ≠ 0%Z →
  parse_compressed_state_event (compress_state_event k e) = Ok (k, e)
  ∧ valid_entry (compress_state_event k e).
Proof.
  intros Hk He Hk0. split; [by apply compress_parse|by apply compress_valid].
Qed.

Lemma compressed_entry_round_trip_witness :
  parse_compressed_state_event (compress_state_event 7 300) = Ok (7, 300)%Z
  ∧ valid_entry (compress_state_event 7 300).
Proof. apply compressed_entry_round_trip; [split; lia..|done]. Defined.

Lemma elem_of_ascending x X : x ∈ ascending X ↔ x ∈ X.
Proof. unfold ascending. by rewrite merge_sort_Permutation, elem_of_elements. Qed.
Lemma length_ascending X : length (ascending X) = size X.
Proof. unfold ascending. by rewrite merge_sort_Permutation. Qed.
Lemma ascending_set X : list_to_set (ascending X) = X.
Proof. apply set_eq. intros x. by rewrite elem_of_list_to_set, elem_of_ascending. Qed.

Lemma parse_removed l fuel A R :
  Forall (λ e, length e = 16) l → length l < fuel →
  parse_entries fuel false A R (concat l) = (A, list_to_set l ∪ R).
Proof.
  intros Hl. revert fuel R. induction Hl as [|e l He _ IH]; intros [|fuel] R Hf; cbn [length] in Hf; try lia.
  - cbn. f_equal. set_solver.
  - cbn [parse_entries concat]. rewrite bool_decide_eq_false_2 by (rewrite length_app; lia).
    cbn [andb]. rewrite (take_app_length' e), (drop_app_length' e _ 16) by (by rewrite He).
    rewrite IH by lia. f_equal. cbn [list_to_set]. set_solver.
Qed.

Lemma parse_added l tail fuel A R :
  Forall valid_entry l →
  parse_entries (length l + fuel) true A R (concat l ++ tail)
  = parse_entries fuel true (list_to_set l ∪ A) R tail.
Proof.
  intros Hl. revert A. induction Hl as [|e l [He Hz] _ IH]; intros A.
  - cbn. f_equal. set_solver.
  - cbn [length Nat.add parse_entries concat]. rewrite <- app_assoc.
    rewrite bool_decide_eq_false_2 by (rewrite length_app; lia).
    rewrite (take_app_length' e), (drop_app_length' e _ 16) by (by rewrite He).
    rewrite (bool_decide_eq_false_2 (starts_with e zero_u64)) by done. cbn [andb].
    rewrite IH. f_equal. cbn [list_to_set]. set_solver.
Qed.

Lemma length_concat_16 (l : list bytes) : Forall (λ e, length e = 16) l → length (concat l) = 16 * length l.
Proof. induction 1 as [|e l He _ IH]; cbn; [done|]. rewrite length_app, He, IH. lia. Qed.

(** The reader of a difference against its writer. *)
Lemma parse_statediff (X R : CompressedState) p :
  valid_state X → (∀ e, e ∈ R → length e = 16) →
  parse_entries (length (statediff_value (mkStateDiff p X R))) true ∅ ∅
    (drop 8 (statediff_value (mkStateDiff p X R))) = (X, R).
Proof.
  intros HX HR. unfold statediff_value. cbn [parent added removed].
  assert (Forall valid_entry (ascending X)) as HX'
    by (apply Forall_forall; intros e; rewrite elem_of_ascending; auto).
  assert (Forall (λ e, length e = 16) (ascending R)) as HR'
    by (apply Forall_forall; intros e; rewrite elem_of_ascending; auto).
  assert (Forall (λ e, length e = 16) (ascending X)) as HX16
    by (eapply Forall_impl; [exact HX'|]; by intros e []).
  rewrite drop_app_length' by (by rewrite length_u64_be).
  rewrite !length_app, length_u64_be, (length_concat_16 _ HX16).
  case_bool_decide as HRe.
  - subst R. rewrite app_nil_r. cbn [length].
    replace (8 + (16 * length (ascending X) + 0)) with (length (ascending X) + (8 + 15 * length (ascending X))) by lia.
    rewrite <- (app_nil_r (concat (ascending X))), parse_added by done.
    rewrite ascending_set. cbn. f_equal. set_solver.
  - rewrite length_app, (length_concat_16 _ HR').
    set (n := length (ascending X)). set (m := length (ascending R)).
    assert (length zero_u64 = 8) as Hz by apply length_u64_be. rewrite Hz.
    assert (0 < m) as Hm.
    { unfold m. rewrite length_ascending. destruct (decide (size R = 0)) as [Hs|]; [|lia]. by apply size_empty_inv in Hs; apply leibniz_equiv in Hs. }
    replace (8 + (16 * n + (8 + 16 * m))) with (n + (S (15 * n + 15 + 16 * m))) by lia.
    unfold n. rewrite parse_added by done. cbn [parse_entries].
    rewrite bool_decide_eq_false_2 by (rewrite length_app, (length_concat_16 _ HR'), Hz; fold m; lia).
    rewrite (bool_decide_eq_true_2 (starts_with _ _)).
    2:{ unfold starts_with. rewrite Hz, take_take. change (8 `min` 16) with 8.
        by rewrite take_app_length' by (by rewrite Hz). }
    cbn [andb]. rewrite drop_app_length' by (by rewrite Hz).
    rewrite parse_removed by (done || (fold m; lia)).
    rewrite !ascending_set. f_equal; set_solver.
Qed.

Definition wf_diff (d : StateDiff) : Prop :=
  valid_state (added d) ∧ (∀ e, e ∈ removed d → length e = 16)
  ∧ ∀ p, parent d = Some p → is_u64 p ∧ p ≠ 0%Z.

Section store.
Context {DB : Type} `{Store DB}.
Implicit Types (db : DB) (h : Z).

Lemma get_saved db h d : wf_diff d → get_statediff (save_statediff db h d) h = Ok d.
Proof.
  intros (HX & HR & Hp). unfold get_statediff, save_statediff, map_get, map_insert.
  rewrite store_get_put, bool_decide_eq_true_2 by done. cbn [ok_or mbind outcome_bind].
  destruct d as [p X R]. cbn [added removed parent] in *.
  rewrite bool_decide_eq_false_2.
  2:{ unfold statediff_value. rewrite length_app, length_u64_be. lia. }
  rewrite (parse_statediff X R p) by done.
  unfold statediff_value. rewrite take_app_length' by (by rewrite length_u64_be). cbn [parent].
  destruct p as [p|]; cbn [default].
  - destruct (Hp p eq_refl) as [Hu Hn]. rewrite u64_from_be by done. by rewrite bool_decide_eq_true_2.
  - rewrite u64_from_be by (split; lia). by rewrite bool_decide_eq_false_2 by auto.
Qed.

(** [get_statediff] reads back the parent and the two sets [save_statediff] wrote,
    for well-formed entries and a parent that is a short id; rows of other hashes are
    not touched. *)
Theorem statediff_round_trip db h h' d :
  wf_diff d → is_u64 h → is_u64 h' →
  get_statediff (save_statediff db h d) h'
  = if bool_decide (h = h') then Ok d else get_statediff db h'.
Proof.
  intros Hd Hh Hh'. case_bool_decide as Heq; [subst h'; by apply get_saved|].
  unfold get_statediff, save_statediff, map_get, map_insert. rewrite store_get_put.
  rewrite bool_decide_eq_false_2; [done|]. intros Hk. by apply Heq, u64_be_inj.
Qed.

(** ** Layers *)

(** The stack of the layers of a state, top first: the bottom has the full state, a
    layer adds what is not there and removes what is. *)
Inductive layered db : Z → list ShortStateInfo → Prop :=
  | layer_base h X :
      get_statediff db h = Ok (mkStateDiff None X ∅) →
      layered db h [mkShortStateInfo h X X ∅]
  | layer_on h p X R top rest :
      get_statediff db h = Ok (mkStateDiff (Some p) X R) →
      layered db p (top :: rest) →
      X ## full_state top → R ⊆ full_state top →
      layered db h (mkShortStateInfo h ((full_state top ∪ X) ∖ R) X R :: top :: rest).

Lemma layered_unique db h st1 st2 : layered db h st1 → layered db h st2 → st1 = st2.
Proof.
  intros H1. revert st2. induction H1 as [h X Hg|h p X R top rest Hg H1 IH Hd Hs]; intros st2 H2;
    inversion H2 as [? ? Hg2|? ? ? ? ? ? Hg2 H2' ? ?]; subst; rewrite Hg in Hg2; simplify_eq; [done|].
  by injection (IH _ H2') as <- <-.
Qed.

Lemma layered_hash db h st : layered db h st → ∃ top rest, st = top :: rest ∧ shortstatehash top = h.
Proof. by destruct 1; eexists _, _. Qed.

(** A row that was not there does not change the stacks that were. *)
Lemma layered_put db h d p st :
  map_get db (u64_be h) = None → layered db p st → layered (save_statediff db h d) p st.
Proof.
  intros Hn.
  assert (∀ q x, get_statediff db q = Ok x → get_statediff (save_statediff db h d) q = Ok x) as Hget.
  { intros q x. unfold get_statediff, save_statediff, map_get, map_insert in *. rewrite store_get_put.
    case_bool_decide as Hk; [|done]. rewrite <- Hk, Hn. done. }
  induction 1; [apply layer_base|eapply layer_on]; eauto.
Qed.

(** ** Loading *)

Context (evict : gmap Z (list ShortStateInfo) → gmap Z (list ShortStateInfo)).
Hypothesis evict_sub : ∀ m, evict m ⊆ m.

(** The cache holds the stacks the table has. *)
Definition coherent (s : Service (DB := DB)) : Prop :=
  ∀ h st, stateinfo_cache s !! h = Some st → layered (shortstatehash_statediff s) h (reverse st).

Lemma coherent_cache s h st :
  coherent s → layered (shortstatehash_statediff s) h st →
  coherent (cache_shortstatehash_info evict s h (reverse st)).
Proof.
  intros Hc Hl h' st' Hst. cbn in Hst |- *.
  pose proof (lookup_weaken _ _ _ _ Hst (evict_sub _)) as Hin.
  apply lookup_insert_Some in Hin as [[<- <-]|[_ Hin]]; [by rewrite reverse_involutive|].
  by apply Hc.
Qed.

Lemma push_layer_reverse h d top rest :
  push_layer (reverse (top :: rest)) h d
  = Ok (reverse (mkShortStateInfo h ((full_state top ∪ added d) ∖ removed d) (added d) (removed d)
                 :: top :: rest)).
Proof.
  unfold push_layer. rewrite !reverse_cons, last_snoc. done.
Qed.

Lemma load_layered fuel s h st :
  layered (shortstatehash_statediff s) h st → length st ≤ fuel → coherent s →
  ∃ s', load_shortstatehash_info evict fuel s h = (s', Ok (reverse st))
    ∧ shortstatehash_statediff s' = shortstatehash_statediff s ∧ coherent s'.
Proof.
  remember (shortstatehash_statediff s) as db eqn:Hdb. intros Hl. revert fuel s Hdb.
  induction Hl as [h X Hg|h p X R top rest Hg Hl IH Hd Hs]; intros fuel s Hdb Hf Hc; subst db;
    (destruct fuel as [|fuel]; [cbn in Hf; lia|]); cbn [load_shortstatehash_info];
    destruct (stateinfo_cache s !! h) as [r|] eqn:Hr.
  1,3: exists s; split_and!; try done; apply Hc in Hr; rewrite <- (reverse_involutive r);
    do 3 f_equal; eapply layered_unique; [exact Hr|]; by econstructor.
  - rewrite Hg. cbn [parent added removed]. eexists. split_and!; [done|done|].
    apply (coherent_cache s h [mkShortStateInfo h X X ∅]); [done|]. by apply layer_base.
  - rewrite Hg. cbn [parent added removed].
    destruct (IH fuel s eq_refl) as (s1 & -> & Hdb1 & Hc1); [cbn in Hf |- *; lia|done|].
    cbn [mbind outcome_bind]. rewrite push_layer_reverse. cbn [added removed].
    eexists. split_and!; [done|done|]. apply coherent_cache; [done|]. rewrite Hdb1. by eapply layer_on.
Qed.

(** Loading follows the layers: for a stored state of at most [fuel] layers
    [load_shortstatehash_info] returns its stack, bottom first, from the table or through
    the cache, whatever the cache evicts, and leaves the cache coherent. *)
Theorem load_returns_layers fuel s h st :
  layered (shortstatehash_statediff s) h st → length st ≤ fuel → coherent s →
  ∃ s', load_shortstatehash_info evict fuel s h = (s', Ok (reverse st))
    ∧ shortstatehash_statediff s' = shortstatehash_statediff s ∧ coherent s'.
Proof. apply load_layered. Qed.
End store.

(** ** Merging layers *)

Lemma merge_removed_fold l pn pr :
  NoDup l →
  foldl merge_removed (pn, pr) l = (pn ∖ list_to_set l, pr ∪ (list_to_set l ∖ pn)).
Proof.
  intros Hnd. revert pn pr. induction Hnd as [|r l Hr Hnd IH]; intros pn pr; cbn [foldl list_to_set].
  - f_equal; set_solver.
  - unfold merge_removed at 2. case_bool_decide as Hin; rewrite IH; f_equal; apply set_eq; intros x;
      destruct (decide (x = r)); set_solver.
Qed.

Lemma merge_new_fold l pn pr :
  NoDup l →
  foldl merge_new (pn, pr) l = (pn ∪ (list_to_set l ∖ pr), pr ∖ list_to_set l).
Proof.
  intros Hnd. revert pn pr. induction Hnd as [|r l Hr Hnd IH]; intros pn pr; cbn [foldl list_to_set].
  - f_equal; set_solver.
  - unfold merge_new at 2. case_bool_decide as Hin; rewrite IH; f_equal; apply set_eq; intros x;
      destruct (decide (x = r)); set_solver.
Qed.

Lemma NoDup_ascending X : NoDup (ascending X).
Proof. unfold ascending. rewrite merge_sort_Permutation. apply NoDup_elements. Qed.

Lemma merge_layers_eq P new gone :
  merge_layers P new gone
  = ((info_added P ∖ gone) ∪ (new ∖ (info_removed P ∪ (gone ∖ info_added P))),
     (info_removed P ∪ (gone ∖ info_added P)) ∖ new).
Proof.
  unfold merge_layers. rewrite merge_removed_fold, merge_new_fold by apply NoDup_ascending.
  by rewrite !ascending_set.
Qed.

(** ** Saving *)

(** The difference between the top of a stack (or nothing) and a state. *)
Definition diff_to (parents : list ShortStateInfo) (new gone N : CompressedState) : Prop :=
  match parents with
  | [] => new = N ∧ gone = ∅
  | top :: _ => new = N ∖ full_state top ∧ gone = full_state top ∖ N
  end.

(** States of at most [M] well-formed entries, under short ids. *)
Definition good_state (M : Z) (X : CompressedState) : Prop := valid_state X ∧ (len X ≤ M)%Z.
Definition good_info (M : Z) (i : ShortStateInfo) : Prop :=
  good_state M (full_state i) ∧ is_u64 (shortstatehash i) ∧ shortstatehash i ≠ 0%Z.
(** The bound keeps the arithmetic of the layer sizes within [usize]. *)
Definition max_state : Z := 2 ^ 30.

Lemma len_mono X Y : X ⊆ Y → (len X ≤ len Y)%Z.
Proof. intros Hs. unfold len. apply inj_le. by apply subseteq_size. Qed.

Lemma len_empty : len ∅ = 0%Z.
Proof. unfold len. by rewrite size_empty. Qed.

Section saving.
Context {DB : Type} `{Store DB}.
Implicit Types (db : DB).

(** Merging the parent into the difference keeps the target. *)
Lemma merge_diff_to db p top rest new gone N :
  layered db p (top :: rest) → diff_to (top :: rest) new gone N →
  diff_to rest (merge_layers top new gone).1 (merge_layers top new gone).2 N.
Proof.
  rewrite merge_layers_eq. cbn [fst snd]. intros Hl [-> ->].
  inversion Hl as [? X Hg|? q X R top' rest' Hg Hl' Hd Hs]; subst; cbn [diff_to full_state info_added info_removed].
  - split; apply set_eq; intros x; destruct (decide (x ∈ N)), (decide (x ∈ X)); set_solver.
  - clear Hl Hl' Hg. split; apply set_eq; intros x;
      destruct (decide (x ∈ N)), (decide (x ∈ X)), (decide (x ∈ R)), (decide (x ∈ full_state top')); set_solver.
Qed.

(** The sizes the loop compares. *)
Lemma diff_to_len M parents new gone N :
  Forall (good_info M) parents → good_state M N → diff_to parents new gone N →
  (0 ≤ len new + len gone ≤ 2 * M)%Z.
Proof.
  intros HP [_ HN] Hd. assert (0 ≤ len new ∧ 0 ≤ len gone)%Z by (unfold len; lia).
  destruct parents as [|top rest]; cbn in Hd; destruct Hd as [-> ->].
  - rewrite len_empty in *. lia.
  - apply Forall_cons in HP as [[[_ Ht] _] _].
    pose proof (len_mono (N ∖ full_state top) N ltac:(set_solver)).
    pose proof (len_mono (full_state top ∖ N) (full_state top) ltac:(set_solver)). lia.
Qed.

Lemma layer_len M db p top rest :
  Forall (good_info M) (top :: rest) → layered db p (top :: rest) →
  (0 ≤ len (info_added top) + len (info_removed top) ≤ 2 * M)%Z.
Proof.
  intros HP Hl. apply Forall_cons in HP as [[[_ Ht] _] HP].
  assert (0 ≤ len (info_added top) ∧ 0 ≤ len (info_removed top))%Z by (unfold len; lia).
  inversion Hl as [? X Hg|? q X R top' rest' Hg Hl' Hd Hs]; subst;
    cbn [full_state info_added info_removed] in *.
  - rewrite len_empty in *. lia.
  - apply Forall_cons in HP as [[[_ Ht'] _] _].
    pose proof (len_mono X ((full_state top' ∪ X) ∖ R) ltac:(set_solver)).
    pose proof (len_mono R (full_state top') Hs). lia.
Qed.

Lemma checked_usize_Ok z : (0 ≤ z < 2 ^ 64)%Z → checked_usize z = Ok z.
Proof.
  intros Hz. unfold checked_usize, u64_checked, checked, in_range, u64_max.
  rewrite bool_decide_eq_true_2 by lia. done.
Qed.

(** What is stored at the end. *)
Lemma stored_base db h N :
  valid_state N → layered (save_statediff db h (mkStateDiff None N ∅)) h [mkShortStateInfo h N N ∅].
Proof. intros HN. apply layer_base, get_saved. by split_and!. Qed.

Lemma stored_on db h p top rest new gone N :
  map_get db (u64_be h) = None → layered db p (top :: rest) →
  good_info max_state top → valid_state N → diff_to (top :: rest) new gone N →
  ∃ st, layered (save_statediff db h (mkStateDiff (Some (shortstatehash top)) new gone)) h st
    ∧ tail st = top :: rest ∧ full_state <$> head st = Some N.
Proof.
  intros Hn Hl [[Hv _] [Hu H0]] HN [-> ->]. eexists. split_and!.
  - eapply layer_on; [apply get_saved| | |].
    + split_and!; cbn.
      * intros e He. apply HN. set_solver.
      * intros e He. apply Hv. set_solver.
      * intros q [= <-]. done.
    + apply layered_put; [done|]. destruct (layered_hash _ _ _ Hl) as (t & r & [= <- <-] & ->). exact Hl.
    + set_solver.
    + set_solver.
  - done.
  - cbn. f_equal. apply set_eq. intros x. destruct (decide (x ∈ N)), (decide (x ∈ full_state top)); set_solver.
Qed.

Lemma layered_below db p top rest :
  layered db p (top :: rest) → rest = [] ∨ ∃ q, layered db q rest.
Proof. inversion 1; eauto. Qed.

Lemma save_from_diff_layers db h N parents : ∀ new gone dts,
  map_get db (u64_be h) = None →
  (parents = [] ∨ ∃ p, layered db p parents) → Forall (good_info max_state) parents →
  good_state max_state N → diff_to parents new gone N → (0 ≤ dts ≤ 2 * max_state)%Z →
  ∃ d st, save_state_from_diff db h new gone dts parents = Ok (save_statediff db h d)
    ∧ layered (save_statediff db h d) h st ∧ length st ≤ 4
    ∧ Forall (good_info max_state) (tail st) ∧ full_state <$> head st = Some N.
Proof.
  induction parents as [|top rest IH]; intros new gone dts Hn Hl HP HN Hd Hs; cbn [save_state_from_diff];
    pose proof (diff_to_len max_state _ _ _ _ HP HN Hd) as Hsum; unfold max_state in Hsum, Hs;
    rewrite (checked_usize_Ok (len new + len gone)) by lia; cbn [mbind outcome_bind].
  { destruct Hd as [-> ->]. eexists _, _. split_and!; [done|apply stored_base; by destruct HN|cbn; lia|constructor|done]. }
  destruct Hl as [?|[p Hl]]; [done|].
  pose proof (merge_diff_to _ _ _ _ _ _ _ Hl Hd) as Hd'.
  destruct (merge_layers top new gone) as [pn pr]. cbn [fst snd] in Hd'.
  assert (∃ d st, save_state_from_diff db h pn pr (len new + len gone) rest = Ok (save_statediff db h d)
    ∧ layered (save_statediff db h d) h st ∧ length st ≤ 4
    ∧ Forall (good_info max_state) (tail st) ∧ full_state <$> head st = Some N) as Hrec.
  { apply IH; [done|by eapply layered_below|by apply Forall_cons in HP as [_ ?]|done|done|].
    unfold max_state. lia. }
  case_bool_decide as Hlen; [done|].
  pose proof (layer_len _ _ _ _ _ HP Hl) as Hpl. unfold max_state in Hpl.
  rewrite (checked_usize_Ok (len (info_added top) + len (info_removed top))) by lia. cbn [mbind outcome_bind].
  rewrite (checked_usize_Ok ((len new + len gone) * (len new + len gone))) by nia. cbn [mbind outcome_bind].
  rewrite (checked_usize_Ok (2 * dts)) by lia. cbn [mbind outcome_bind].
  rewrite (checked_usize_Ok (2 * dts * (len (info_added top) + len (info_removed top)))) by nia. cbn [mbind outcome_bind].
  case_bool_decide; [done|].
  pose proof HP as [Ht _]%Forall_cons.
  destruct (stored_on db h p top rest new gone N Hn Hl Ht ltac:(by destruct HN) Hd) as (st & Hst & Htl & Hhd).
  eexists _, st. split_and!; [done|done| |by rewrite Htl|done].
  destruct st as [|i st]; cbn in Htl; [done|]. rewrite Htl. cbn in Hlen |- *. lia.
Qed.
End saving.

(** ** States under a hash *)

Section stored_states.
Context {DB : Type} `{Store DB}.
Implicit Types (db : DB).

(** The state a hash stands for, in at most four well-formed layers. *)
Definition holds db (h : Z) (X : CompressedState) : Prop :=
  ∃ st, layered db h st ∧ length st ≤ 4
    ∧ Forall (good_info max_state) st ∧ full_state <$> head st = Some X.

Lemma holds_unique db h X Y : holds db h X → holds db h Y → X = Y.
Proof.
  intros (st & Hl & _ & _ & Hx) (st' & Hl' & _ & _ & Hy).
  rewrite (layered_unique _ _ _ _ Hl Hl') in Hx. congruence.
Qed.

Lemma holds_good db h X : holds db h X → good_state max_state X ∧ is_u64 h ∧ h ≠ 0%Z.
Proof.
  intros (st & Hl & _ & Hg & Hx). destruct (layered_hash _ _ _ Hl) as (top & rest & -> & <-).
  cbn in Hx. injection Hx as <-. by apply Forall_cons in Hg as [? _].
Qed.

Lemma holds_put db h d p X :
  map_get db (u64_be h) = None → holds db p X → holds (save_statediff db h d) p X.
Proof.
  intros Hn (st & Hl & ? & ? & ?). exists st. split_and!; try done. by apply layered_put.
Qed.

Lemma layered_good db h st N :
  layered db h st → Forall (good_info max_state) (tail st) → full_state <$> head st = Some N →
  good_state max_state N → is_u64 h → h ≠ 0%Z → Forall (good_info max_state) st.
Proof.
  intros Hl Ht Hh HN Hu H0. destruct (layered_hash _ _ _ Hl) as (top & rest & -> & Hhash).
  cbn in *. simplify_eq. constructor; [|done]. by split_and!.
Qed.

(** Saving the difference to the layers of a stored state under an unused hash stores the
    new state and keeps the states and the cache that were there. *)
Lemma save_from_diff_holds db h N parents new gone dts :
  map_get db (u64_be h) = None → is_u64 h → h ≠ 0%Z → good_state max_state N →
  (parents = [] ∨ ∃ p, layered db p parents) → Forall (good_info max_state) parents →
  diff_to parents new gone N → (0 ≤ dts ≤ 2 * max_state)%Z →
  ∃ d, save_state_from_diff db h new gone dts parents = Ok (save_statediff db h d)
    ∧ holds (save_statediff db h d) h N
    ∧ (∀ q Y, holds db q Y → holds (save_statediff db h d) q Y)
    ∧ (∀ cache, coherent (mkService db cache) → coherent (mkService (save_statediff db h d) cache)).
Proof.
  intros Hn Hu H0 HN Hl HP Hd Hdts.
  destruct (save_from_diff_layers db h N parents new gone dts) as (d & st & -> & Hst & Hlen & Htl & Hhd); try done.
  exists d. split_and!; [done| | |].
  - exists st. split_and!; [done|done|by eapply layered_good|done].
  - intros q Y Hq. by apply holds_put.
  - intros cache Hc q r Hr. cbn in Hr |- *. apply layered_put; [done|]. by apply Hc.
Qed.
End stored_states.

(** ** Two states of a room *)

Module CompressorDemo.
Definition e1 : bytes := compress_state_event 1 10.
Definition e2 : bytes := compress_state_event 2 20.
Definition old_state : CompressedState := {[e1]}.
Definition new_state : CompressedState := {[e1; e2]}.
Definition db0 : gmap bytes bytes := ∅.
Definition keep (m : gmap Z (list ShortStateInfo)) : gmap Z (list ShortStateInfo) := m.

Lemma valid_demo X : X ⊆ new_state → valid_state X.
Proof.
  intros HX e He%HX. assert (set_Forall (λ e, length e = 16 ∧ ¬ starts_with e zero_u64) new_state) as Hall
    by (apply (bool_decide_unpack _); by vm_compute). by apply Hall.
Qed.

Definition diff : StateDiff := mkStateDiff (Some 1%Z) {[e2]} {[e1]}.
Lemma diff_wf : wf_diff diff.
Proof.
  split_and!; [apply valid_demo; set_solver| |].
  - intros e He. apply (valid_demo new_state); set_solver.
  - intros p [= <-]. split; [split; lia|done].
Qed.

Lemma statediff_round_trip_witness :
  get_statediff (save_statediff db0 3 diff) 3 = Ok diff.
Proof. rewrite statediff_round_trip; [done|apply diff_wf|split; lia..]. Defined.

Definition stored_old : Service := mkService (save_statediff db0 5 (mkStateDiff None old_state ∅)) ∅.
Definition old_layers : list ShortStateInfo := [mkShortStateInfo 5 old_state old_state ∅].

Lemma old_layered : layered (shortstatehash_statediff stored_old) 5 old_layers.
Proof. apply stored_base. apply valid_demo. set_solver. Qed.
Lemma old_coherent : coherent stored_old.
Proof. intros h st Hst. done. Qed.

Lemma load_returns_layers_witness :
  ∃ s', load_shortstatehash_info keep 1 stored_old 5 = (s', Ok old_layers).
Proof.
  destruct (load_returns_layers keep (λ m, reflexivity m) 1 stored_old 5 old_layers) as (s' & Hs' & _).
  - exact old_layered.
  - done.
  - exact old_coherent.
  - exists s'. exact Hs'.
Defined.

Lemma good_demo X : X ⊆ new_state → good_state max_state X.
Proof.
  intros HX. split; [by apply valid_demo|]. etrans; [by apply len_mono|]. by vm_compute.
Qed.
End CompressorDemo.
