(* ===== verification/RoomState.v ===== *)
(** * The state of rooms

    Models [src/service/rooms/state/mod.rs] together with [save_state] of
    [src/service/rooms/state_compressor/mod.rs], where the short ids, the compressed states
    and the tables of current states meet.  The service is one record, an operation a
    function of it that returns a result and the service after the call. *)

From S2P Require Import Prelude Bytes DbMap DbSer Short RoomVersion Event StateCompressor.

Local Open Scope Z_scope.

(** Errors of the services called, of a state that cannot be loaded, of a key that a state
    does not have, of the authorization rules and of contents, and refusals. *)
Inductive RoomError :=
  | ShortFailed (e : ShortError)
  | CompressorFailed (e : CompressorError)
  | MissingStateIds
  | NotInRoomState
  | StateResFailed (e : Error)
  | BadContent
  | ForbiddenRequest (why : string).

(** [sha256::delimited] ([calculate_hash]): the digest of the inputs with 0xFF between. *)
Fixpoint delimited (inputs : list bytes) : bytes :=
  match inputs with
  | [] => []
  | [input] => input
  | input :: inputs => input ++ SEP :: delimited inputs
  end.

Section room_state.
Context {DB : Type} `{Store DB}.
(** The digest of the [sha2] crate and the eviction of the LRU cache. *)
Context (sha256 : bytes → bytes).
Context (evict : gmap Z (list ShortStateInfo) → gmap Z (list ShortStateInfo)).

Record RoomState := mkRoomState {
  short : Short DB;
  state_compressor : Service (DB := DB);
  shorteventid_shortstatehash : DB;
  roomid_shortstatehash : DB;
  roomid_pduleaves : DB;
}.
Implicit Types (rs : RoomState).

(** ** Calls that change the service *)

Definition RoomM (A : Type) : Type := RoomState → outcome RoomError A * RoomState.
Definition ret {A} (a : A) : RoomM A := λ rs, (Ok a, rs).
Definition bind {A B} (m : RoomM A) (f : A → RoomM B) : RoomM B := λ rs,
  match m rs with
  | (Ok a, rs) => f a rs
  | (Err e, rs) => (Err e, rs)
  | (Panic, rs) => (Panic, rs)
  end.
Local Notation "'let!' x := m 'in' k" := (bind m (λ x, k))
  (at level 10, x name, m at level 200, k at level 200).
Definition read_short {A} (f : Short DB → outcome ShortError A) : RoomM A := λ rs,
  (match f (short rs) with Ok a => Ok a | Err e => Err (ShortFailed e) | Panic => Panic end, rs).
Definition pure {A} (o : outcome RoomError A) : RoomM A := λ rs, (o, rs).

Definition lift_short {A} (f : Short DB → outcome ShortError (A * Short DB)) : RoomM A := λ rs,
  match f (short rs) with
  | Ok (a, s) => (Ok a, mkRoomState s (state_compressor rs) (shorteventid_shortstatehash rs)
                          (roomid_shortstatehash rs) (roomid_pduleaves rs))
  | Err e => (Err (ShortFailed e), rs)
  | Panic => (Panic, rs)
  end.
Definition set_compressor rs (c : Service) : RoomState :=
  mkRoomState (short rs) c (shorteventid_shortstatehash rs) (roomid_shortstatehash rs) (roomid_pduleaves rs).
Definition load (fuel : nat) (h : Z) : RoomM (list ShortStateInfo) := λ rs,
  let '(c, r) := load_shortstatehash_info evict fuel (state_compressor rs) h in
  (match r with Ok st => Ok st | Err e => Err (CompressorFailed e) | Panic => Panic end,
   set_compressor rs c).
(** [save_state_from_diff]; [parents] is listed bottom first. *)
Definition save_diff (h : Z) (new gone : CompressedState) (diff_to_sibling : Z)
    (parents : list ShortStateInfo) : RoomM unit := λ rs,
  let c := state_compressor rs in
  match save_state_from_diff (shortstatehash_statediff c) h new gone diff_to_sibling (reverse parents) with
  | Ok db => (Ok tt, set_compressor rs (mkService db (stateinfo_cache c)))
  | Err e => (Err (CompressorFailed e), rs)
  | Panic => (Panic, rs)
  end.
(** [globals.next_count()]. *)
Definition next_id : RoomM Z :=
  lift_short (λ s, let '(z, g) := next_count (globals s) in Ok (z, with_count s g)).

(** ** The tables of current states *)

Definition get_room_shortstatehash rs (room_id : string) : outcome ShortError Z :=
  deserialized_u64 (map_get (roomid_shortstatehash rs) (bytes_of_string room_id)).
Definition room_shortstatehash (room_id : string) : RoomM (option Z) := λ rs,
  match get_room_shortstatehash rs room_id with
  | Ok p => (Ok (Some p), rs)
  | Err _ => (Ok None, rs)
  | Panic => (Panic, rs)
  end.

Definition set_room_state (room_id : string) (shortstatehash : Z) : RoomM unit := λ rs,
  match raw_aput 8 (roomid_shortstatehash rs) (bytes_of_string room_id) (VU64 shortstatehash) with
  | Ok m => (Ok tt, mkRoomState (short rs) (state_compressor rs) (shorteventid_shortstatehash rs) m
                      (roomid_pduleaves rs))
  | Err e => (Err e, rs)
  | Panic => (Panic, rs)
  end.

(** The state hash of an event: the state before it. *)
Definition put_event_state (shorteventid shortstatehash : Z) : RoomM unit := λ rs,
  match aput 8 8 (shorteventid_shortstatehash rs) (VU64 shorteventid) (VU64 shortstatehash) with
  | Ok m => (Ok tt, mkRoomState (short rs) (state_compressor rs) m (roomid_shortstatehash rs)
                      (roomid_pduleaves rs))
  | Err e => (Err e, rs)
  | Panic => (Panic, rs)
  end.

Definition calculate_hash (X : CompressedState) : bytes := sha256 (delimited (ascending X)).

(** The difference to the top of the parent's layers; [parents] is listed bottom first. *)
Definition state_diff (parents : list ShortStateInfo) (X : CompressedState) : CompressedState * CompressedState :=
  match last parents with
  | Some parent_stateinfo => (X ∖ full_state parent_stateinfo, full_state parent_stateinfo ∖ X)
  | None => (X, ∅)
  end.

(** ** Operations *)

Definition shortstatehash_of (state_hash : bytes) : RoomM (Z * bool) :=
  lift_short (λ s, get_or_create_shortstatehash s state_hash).

(** [state_compressor.compress_state_event] of an event id. *)
Definition compress_event (shortstatekey : Z) (event_id : string) : RoomM CompressedStateEvent :=
  let! shorteventid := lift_short (λ s, get_or_create_shorteventid s event_id) in
  ret (StateCompressor.compress_state_event shortstatekey shorteventid).

(** [state_compressor.compress_state_events]: the event ids are numbered in batches. *)
Definition compress_state_events (state : list (Z * string)) (batches : list (list string))
    : RoomM (list CompressedStateEvent) :=
  let! short_event_ids := lift_short (λ s, multi_get_or_create_shorteventid s batches) in
  ret (zip_with StateCompressor.compress_state_event state.*1 short_event_ids).

(** The layers of the current state, with [unwrap_or_default] on an error. *)
Definition parents_or_default (fuel : nat) (previous : option Z) : RoomM (list ShortStateInfo) := λ rs,
  match previous with
  | Some p => match load fuel p rs with
              | (Ok st, rs) => (Ok st, rs)
              | (Err _, rs) => (Ok [], rs)
              | (Panic, rs) => (Panic, rs)
              end
  | None => (Ok [], rs)
  end.

Definition save_state (fuel : nat) (room_id : string) (new_state : CompressedState)
    : RoomM (Z * CompressedState * CompressedState) :=
  let! previous := room_shortstatehash room_id in
  let! new_id := shortstatehash_of (calculate_hash new_state) in
  let '(new_shortstatehash, already_existed) := new_id in
  if bool_decide (previous = Some new_shortstatehash) then ret (new_shortstatehash, ∅, ∅)
  else
    let! states_parents := parents_or_default fuel previous in
    let '(statediffnew, statediffremoved) := state_diff states_parents new_state in
    let! _ := (if already_existed then ret tt
          else save_diff new_shortstatehash statediffnew statediffremoved 2 states_parents) in
    ret (new_shortstatehash, statediffnew, statediffremoved).

(** The layers of the current state. *)
Definition current_parents (fuel : nat) (previous : option Z) : RoomM (list ShortStateInfo) :=
  match previous with Some p => load fuel p | None => ret [] end.

Definition set_event_state (fuel : nat) (event_id room_id : string) (state : CompressedState) : RoomM Z :=
  let! shorteventid := lift_short (λ s, get_or_create_shorteventid s event_id) in
  let! previous := room_shortstatehash room_id in
  let! new_id := shortstatehash_of (calculate_hash state) in
  let '(shortstatehash, already_existed) := new_id in
  let! _ := (if (already_existed : bool) then ret tt
        else
          let! states_parents := current_parents fuel previous in
          let '(statediffnew, statediffremoved) := state_diff states_parents state in
          save_diff shortstatehash statediffnew statediffremoved 1000000 states_parents) in
  let! _ := put_event_state shorteventid shortstatehash in
  ret shortstatehash.

(** The entry of a state event replaces the one of its key, under a new number unless it is
    there already. *)
Definition append_entry (previous : option Z) (states_parents : list ShortStateInfo)
    (shortstatekey : Z) (new : CompressedStateEvent) : RoomM Z :=
  let replaces :=
    last states_parents ≫= λ info,
      find (λ e, bool_decide (starts_with e (u64_be shortstatekey))) (ascending (full_state info)) in
  if bool_decide (Some new = replaces) then pure (expect previous)
  else
    let! shortstatehash := next_id in
    let statediffremoved : CompressedState :=
      match replaces with Some r => {[r]} | None => ∅ end in
    let! _ := save_diff shortstatehash {[new]} statediffremoved 2 states_parents in
    ret shortstatehash.

Definition append_to_state {Content} (fuel : nat) (new_pdu : Pdu Content) (room_id : string) : RoomM Z :=
  let! shorteventid := lift_short (λ s, get_or_create_shorteventid s (event_id new_pdu)) in
  let! previous := room_shortstatehash room_id in
  let! _ := match previous with Some p => put_event_state shorteventid p | None => ret tt end in
  match state_key new_pdu with
  | Some key =>
      let! states_parents := current_parents fuel previous in
      let! shortstatekey := lift_short (λ s, get_or_create_shortstatekey s (type_name (kind new_pdu)) key) in
      let! new := compress_event shortstatekey (event_id new_pdu) in
      append_entry previous states_parents shortstatekey new
  | None => pure (expect previous)
  end.

(** ** Forward extremities *)

(** Keys are (room, event); [Interfix] ends a prefix with a separator. *)
Definition leaves_prefix (room_id : string) : outcome RoomError bytes :=
  must (serialize None (VTuple [VStr (bytes_of_string room_id); VInterfix])).

Definition get_forward_extremities rs (room_id : string) : outcome RoomError (list bytes) :=
  prefix ← leaves_prefix room_id;
  Ok (omap (λ kv : KeyVal,
        match from_slice (STuple [SIgnore; SStr]) kv.1 with
        | Ok (VTuple [_; VStr event_id]) => Some event_id
        | _ => None
        end) (raw_stream_prefix (roomid_pduleaves rs) prefix)).

Fixpoint put_leaves (m : DB) (room_id : string) (event_ids : list string) : outcome RoomError DB :=
  match event_ids with
  | [] => Ok m
  | event_id :: event_ids =>
      m ← put_raw m (VTuple [VStr (bytes_of_string room_id); VStr (bytes_of_string event_id)])
            (bytes_of_string event_id);
      put_leaves m room_id event_ids
  end.
Definition set_forward_extremities (room_id : string) (event_ids : list string) : RoomM unit := λ rs,
  match (prefix ← leaves_prefix room_id;
         let m := foldl (λ m (kv : KeyVal), map_remove m kv.1) (roomid_pduleaves rs)
                    (raw_stream_prefix (roomid_pduleaves rs) prefix) in
         put_leaves m room_id event_ids) with
  | Ok m => (Ok tt, mkRoomState (short rs) (state_compressor rs) (shorteventid_shortstatehash rs)
                      (roomid_shortstatehash rs) m)
  | Err e => (Err e, rs)
  | Panic => (Panic, rs)
  end.
End room_state.
