(* ===== verification/StateAccessor.v ===== *)
(** * Reading the state of a room at some point

    Models [src/service/rooms/state_accessor/state.rs]: lookups and listings in the state a
    number stands for.  A load may fill the cache of the state compressor, so reads return
    the service too. *)

From S2P Require Import Prelude Bytes DbMap DbSer Short Event StateCompressor RoomState.

Local Open Scope Z_scope.

Section state_accessor.
Context {DB : Type} `{Store DB}.
Context (evict : gmap Z (list ShortStateInfo) → gmap Z (list ShortStateInfo)).
Implicit Types (rs : RoomState (DB := DB)).
Local Notation "'let!' x := m 'in' k" := (bind m (λ x, k))
  (at level 10, x name, m at level 200, k at level 200).

Definition load_full_state (fuel : nat) (h : Z) : RoomM (DB := DB) CompressedState := λ rs,
  match load evict fuel h rs with
  | (Ok st, rs) => (expect (full_state <$> last st), rs)
  | (Err _, rs) => (Err MissingStateIds, rs)
  | (Panic, rs) => (Panic, rs)
  end.

(** [full_state.range(start..=end).next()] of a [BTreeSet]. *)
Definition range_first (X : CompressedState) (first last : bytes) : option bytes :=
  head (filter (λ e, bytes_le first e ∧ bytes_le e last) (ascending X)).

Definition entry_in (X : CompressedState) (shortstatekey : Z) : option bytes :=
  range_first X (compress_state_event shortstatekey 0) (compress_state_event shortstatekey u64_max).

Definition state_contains_shortstatekey (fuel : nat) (h shortstatekey : Z) : RoomM (DB := DB) bool := λ rs,
  match load_full_state fuel h rs with
  | (Ok X, rs) => (Ok (bool_decide (is_Some (entry_in X shortstatekey))), rs)
  | (Err _, rs) => (Ok false, rs)
  | (Panic, rs) => (Panic, rs)
  end.

Definition state_contains (fuel : nat) (h : Z) (event_type state_key : string) : RoomM (DB := DB) bool := λ rs,
  match get_shortstatekey (short rs) event_type state_key with
  | Ok shortstatekey => state_contains_shortstatekey fuel h shortstatekey rs
  | Err _ => (Ok false, rs)
  | Panic => (Panic, rs)
  end.

Definition state_get_shortid (fuel : nat) (h : Z) (event_type state_key : string) : RoomM (DB := DB) Z :=
  let! shortstatekey := read_short (λ s, get_shortstatekey s event_type state_key) in
  let! full_state := load_full_state fuel h in
  pure match entry_in full_state shortstatekey with
       | Some e => '(_, shorteventid) ← must (parse_compressed_state_event e); Ok shorteventid
       | None => Err NotInRoomState
       end.

Definition state_get_id (fuel : nat) (h : Z) (event_type state_key : string) : RoomM (DB := DB) bytes :=
  let! shorteventid := state_get_shortid fuel h event_type state_key in
  read_short (λ s, get_eventid_from_short s shorteventid).

(** ** Listings *)

(** A stream that ends with the error of the load, if there is one. *)
Definition state_full_shortids (fuel : nat) (h : Z)
    : RoomM (DB := DB) (list (outcome RoomError (Z * Z))) := λ rs,
  match load_full_state fuel h rs with
  | (Ok X, rs) => (Ok ((λ e, must (parse_compressed_state_event e)) <$> ascending X), rs)
  | (Err e, rs) => (Ok [Err e], rs)
  | (Panic, rs) => (Panic, rs)
  end.

(** [ignore_err]; an item that panics ends the program. *)
Fixpoint ignore_err {E A} (l : list (outcome E A)) : outcome RoomError (list A) :=
  match l with
  | [] => Ok []
  | Ok a :: l => l ← ignore_err l; Ok (a :: l)
  | Err _ :: l => ignore_err l
  | Panic :: _ => Panic
  end.
Definition full_shortids (fuel : nat) (h : Z) : RoomM (DB := DB) (list (Z * Z)) :=
  let! l := state_full_shortids fuel h in pure (ignore_err l).

Definition tag {A B} (x : outcome ShortError A) (b : B) : outcome ShortError (A * B) :=
  a ← x; Ok (a, b).

(** [multi_get_eventid_from_short] zipped with what the ids belong to. *)
Definition with_event_ids {A} (s : Short DB) (l : list (A * Z)) : outcome RoomError (list (A * bytes)) :=
  ignore_err (zip_with (λ eid a, e ← eid; Ok (a, e)) (multi_get_eventid_from_short s l.*2) l.*1).

(** A read of the tables of short ids. *)
Definition read_tables {A} (f : Short DB → outcome RoomError A) : RoomM (DB := DB) A := λ rs, (f (short rs), rs).

Definition state_full_ids (fuel : nat) (h : Z) : RoomM (DB := DB) (list (Z * bytes)) :=
  let! ids := full_shortids fuel h in
  read_tables (λ s, with_event_ids s ids).

Definition of_type (event_type : string) (x : bytes * bytes) : bool :=
  bool_decide (x.1 = bytes_of_string event_type).

Definition state_keys_with_shortids (fuel : nat) (h : Z) (event_type : string)
    : RoomM (DB := DB) (list (bytes * Z)) :=
  let! ids := full_shortids fuel h in
  let! l := read_tables (λ s, ignore_err (zip_with tag (multi_get_statekey_from_short s ids.*1) ids.*2)) in
  ret (omap (λ x, if of_type event_type x.1 then Some (x.1.2, x.2) else None) l).

Definition state_keys_with_ids (fuel : nat) (h : Z) (event_type : string)
    : RoomM (DB := DB) (list (bytes * bytes)) :=
  let! l := state_keys_with_shortids fuel h event_type in
  read_tables (λ s, with_event_ids s l).

Definition state_keys (fuel : nat) (h : Z) (event_type : string) : RoomM (DB := DB) (list bytes) :=
  let! ids := full_shortids fuel h in
  let! l := read_tables (λ s, ignore_err (multi_get_statekey_from_short s ids.*1)) in
  ret (omap (λ x, if of_type event_type x then Some x.2 else None) l).

Definition state_contains_type (fuel : nat) (h : Z) (event_type : string) : RoomM (DB := DB) bool :=
  let! l := state_keys fuel h event_type in ret (bool_decide (l ≠ [])).

(** ** Differences *)

(** What is in the second state and not in the first, in byte order. *)
Definition state_added (fuel : nat) (h h' : Z) : RoomM (DB := DB) (list (Z * Z)) :=
  let! full_state_a := load_full_state fuel h in
  let! full_state_b := load_full_state fuel h' in
  pure (try_map (λ e, must (parse_compressed_state_event e)) (ascending (full_state_b ∖ full_state_a))).
Definition state_removed (fuel : nat) (h h' : Z) : RoomM (DB := DB) (list (Z * Z)) := state_added fuel h' h.

(** ** The state before an event *)

Definition pdu_shortstatehash rs (event_id : string) : outcome ShortError Z :=
  shorteventid ← get_shorteventid (short rs) event_id;
  b ← aqry 8 (shorteventid_shortstatehash rs) (VU64 shorteventid);
  deserialized_u64 b.

(** ** Events *)

(** [timeline.get_pdu], by the bytes of the event id. *)
Context {Content : Type} `{Ruma Content} `{Schedule} (get_pdu : bytes → option (Pdu Content)).

Definition state_get (fuel : nat) (h : Z) (event_type state_key : string) : RoomM (DB := DB) (Pdu Content) :=
  let! event_id := state_get_id fuel h event_type state_key in
  pure (ok_or NotInRoomState (get_pdu event_id)).

Definition user_membership (fuel : nat) (h : Z) (user_id : UserId) : RoomM (DB := DB) MembershipState := λ rs,
  match state_get fuel h (type_name RoomMember) user_id rs with
  | (Ok event, rs) => (Ok (default Leave (from_RoomMemberEventContent (content event))), rs)
  | (Err _, rs) => (Ok Leave, rs)
  | (Panic, rs) => (Panic, rs)
  end.
Definition user_was_joined (fuel : nat) (h : Z) (user_id : UserId) : RoomM (DB := DB) bool :=
  let! s := user_membership fuel h user_id in ret (bool_decide (s = Join)).
Definition user_was_invited (fuel : nat) (h : Z) (user_id : UserId) : RoomM (DB := DB) bool :=
  let! s := user_membership fuel h user_id in ret (bool_decide (s = Join) || bool_decide (s = Invite)).

Definition state_full_pdus (fuel : nat) (h : Z) : RoomM (DB := DB) (list (Pdu Content)) :=
  let! ids := full_shortids fuel h in
  let! l := read_tables (λ s, ignore_err (multi_get_eventid_from_short s ids.*2)) in
  ret (order 17 (omap get_pdu l)).
Definition state_full (fuel : nat) (h : Z) : RoomM (DB := DB) (list (TypeStateKey * Pdu Content)) :=
  let! pdus := state_full_pdus fuel h in
  ret (omap (λ pdu, key ← state_key pdu; Some (with_state_key (kind pdu) key, pdu)) pdus).
End state_accessor.
