(* ===== verification/RoomStateProps.v ===== *)
(** * What the state service promises

    The abstract state of a room is a map from (event type, state key) to an event id.  The
    service keeps it as a number that stands for layers of sets of pairs of numbers.  The
    theorems say that the service implements the map: storing a state and reading it gives
    the state back, and appending a state event inserts it into the map. *)

From S2P Require Import Prelude Bytes DbMap DbSer Short ShortProps Event StateCompressor CompressorProps RoomState.

Local Open Scope Z_scope.

(** ** Hashing states *)

Lemma delimited_inj l l' :
  Forall (λ e, length e = 16%nat) l → Forall (λ e, length e = 16%nat) l' → delimited l = delimited l' → l = l'.
Proof.
  assert (∀ (e e' k k' : bytes), length e = 16%nat → length e' = 16%nat → e ++ k = e' ++ k' → e = e' ∧ k = k') as Happ.
  { intros e e' k k' He He' E. apply app_inj_1 in E; [done|]. by rewrite He, He'. }
  intros Hl. revert l'. induction Hl as [|e l He Hl IH]; intros l' Hl' E.
  - destruct Hl' as [|e' l' He' Hl']; [done|]. apply (f_equal length) in E.
    destruct l'; cbn in E; rewrite ?length_app in E; cbn in *; lia.
  - destruct Hl' as [|e' l' He' Hl'].
    { apply (f_equal length) in E. destruct l; cbn in E; rewrite ?length_app in E; cbn in *; lia. }
    destruct l as [|e2 l], l' as [|e2' l']; cbn [delimited] in E.
    + by subst.
    + apply (f_equal length) in E. rewrite length_app in E. cbn in E. lia.
    + apply (f_equal length) in E. rewrite length_app in E. cbn in E. lia.
    + apply Happ in E as [-> E]; [|done..]. injection E as E. f_equal. by apply IH.
Qed.

Lemma delimited_state_inj X Y :
  valid_state X → valid_state Y → delimited (ascending X) = delimited (ascending Y) → X = Y.
Proof.
  intros HX HY E. rewrite <- (ascending_set X), <- (ascending_set Y). f_equal.
  apply delimited_inj; [..|done]; apply Forall_forall; intros e He%elem_of_ascending; [by apply HX|by apply HY].
Qed.

(** ** The invariant *)

Section invariant.
Context {DB : Type} `{Store DB}.
Context (sha256 : bytes → bytes) (evict : gmap Z (list ShortStateInfo) → gmap Z (list ShortStateInfo)).
Hypothesis evict_sub : ∀ m, evict m ⊆ m.
Implicit Types (rs : RoomState (DB := DB)).

Local Abbreviation statediff rs := (shortstatehash_statediff (state_compressor rs)).
Local Abbreviation count rs := (counter (globals (short rs))).
Local Abbreviation calculate_hash := (calculate_hash sha256).

Record room_wf rs : Prop := {
  rw_short : short_wf (short rs);
  rw_cache : coherent (state_compressor rs);
  (** rows of the difference table have numbers the counter has passed *)
  rw_rows : ∀ k v, map_get (statediff rs) k = Some v → ∃ z, k = u64_be z ∧ 1 ≤ z ≤ count rs;
  (** a hash that has a number is that of the state stored under it *)
  rw_hashes : ∀ k v, map_get (statehash_shortstatehash (short rs)) k = Some v →
    ∃ z Y, v = u64_be z ∧ k = calculate_hash Y ∧ holds (statediff rs) z Y;
  (** the current state of a room is stored *)
  rw_rooms : ∀ k v, map_get (roomid_shortstatehash rs) k = Some v →
    ∃ z X, v = u64_be z ∧ holds (statediff rs) z X;
}.

(** What a call leaves alone. *)
Definition extends rs rs' : Prop :=
  (∀ q Y, holds (statediff rs) q Y → holds (statediff rs') q Y)
  ∧ (∀ n, grows (table_of (short rs) n) (table_of (short rs') n))
  ∧ roomid_shortstatehash rs' = roomid_shortstatehash rs.

Lemma extends_refl rs : extends rs rs.
Proof. split_and!; [done|by intros ????|done]. Qed.
Lemma extends_trans rs1 rs2 rs3 : extends rs1 rs2 → extends rs2 rs3 → extends rs1 rs3.
Proof.
  intros (Hh & Hg & Hr) (Hh' & Hg' & Hr'). split_and!; [auto| |congruence].
  intros n k v Hk. by apply Hg', Hg.
Qed.

Definition with_short rs (s : Short DB) : RoomState :=
  mkRoomState s (state_compressor rs) (shorteventid_shortstatehash rs) (roomid_shortstatehash rs)
    (roomid_pduleaves rs).

Lemma room_wf_short rs s :
  room_wf rs → short_wf s → count rs ≤ counter (globals s) →
  statehash_shortstatehash s = statehash_shortstatehash (short rs) → room_wf (with_short rs s).
Proof.
  intros [? ? Hr Hh ?] Hw Hc Hs. split; cbn; [done|done| |by rewrite Hs|done].
  intros k v (z & -> & ?)%Hr. exists z. split; [done|lia].
Qed.

Lemma fresh_row rs : room_wf rs → count rs < u64_max → map_get (statediff rs) (u64_be (count rs + 1)) = None.
Proof.
  intros Hw Hc. destruct (map_get _ _) as [v|] eqn:Hv; [|done]. exfalso.
  pose proof (wf_counter _ (rw_short rs Hw)) as Hu.
  apply (rw_rows rs Hw) in Hv as (z & Hz & ?). apply u64_be_inj in Hz; unfold is_u64, u64_max in *; lia.
Qed.

(** *** The tables of other services *)

Lemma room_shortstatehash_spec rs room :
  room_wf rs →
  (∃ p X, room_shortstatehash room rs = (Ok (Some p), rs) ∧ get_room_shortstatehash rs room = Ok p
     ∧ holds (statediff rs) p X)
  ∨ (room_shortstatehash room rs = (Ok None, rs) ∧ get_room_shortstatehash rs room = Err RequestNotFound).
Proof.
  intros Hw. unfold room_shortstatehash, get_room_shortstatehash.
  destruct (map_get (roomid_shortstatehash rs) _) as [v|] eqn:Hv; [left|by right].
  apply (rw_rooms rs Hw) in Hv as (z & X & -> & HX). exists z, X.
  destruct (holds_good _ _ _ HX) as (_ & Hu & _). by rewrite deserialized_u64_be.
Qed.

Lemma load_spec rs fuel p X :
  coherent (state_compressor rs) → (4 ≤ fuel)%nat → holds (statediff rs) p X →
  ∃ top rest c, load evict fuel p rs = (Ok (reverse (top :: rest)), set_compressor rs c)
    ∧ layered (statediff rs) p (top :: rest) ∧ Forall (good_info max_state) (top :: rest)
    ∧ full_state top = X ∧ shortstatehash_statediff c = statediff rs ∧ coherent c.
Proof.
  intros Hw Hf (st & Hl & Hlen & HP & HX). destruct (layered_hash _ _ _ Hl) as (top & rest & -> & _).
  destruct (load_layered evict evict_sub fuel (state_compressor rs) p (top :: rest)) as (c & Hload & Hdb & Hc);
    [done|lia|done|].
  exists top, rest, c. unfold load. rewrite Hload. cbn in HX. split_and!; congruence || done.
Qed.

Lemma room_wf_compressor rs c :
  room_wf rs → shortstatehash_statediff c = statediff rs → coherent c → room_wf (set_compressor rs c).
Proof. intros [? ? ? ? ?] Hdb Hc. split; cbn; rewrite ?Hdb; done. Qed.
Lemma extends_compressor rs c : shortstatehash_statediff c = statediff rs → extends rs (set_compressor rs c).
Proof. intros Hdb. split_and!; cbn; [by rewrite Hdb|by intros ????|done]. Qed.

(** *** A new state *)

(** A state stored under the next number; its hash may be recorded at the same time. *)
Lemma room_wf_store rs rs' h N d :
  room_wf rs → short_wf (short rs') → count rs < h ≤ count rs' → is_u64 h →
  statehash_shortstatehash (short rs') = statehash_shortstatehash (short rs)
  ∨ statehash_shortstatehash (short rs')
    = map_insert (statehash_shortstatehash (short rs)) (calculate_hash N) (u64_be h) →
  (∀ n, grows (table_of (short rs) n) (table_of (short rs') n)) →
  statediff rs' = save_statediff (statediff rs) h d → roomid_shortstatehash rs' = roomid_shortstatehash rs →
  holds (statediff rs') h N → (∀ q Y, holds (statediff rs) q Y → holds (statediff rs') q Y) →
  coherent (state_compressor rs') →
  room_wf rs' ∧ extends rs rs'.
Proof.
  intros Hw Hs Hh Hu Hhash Hg Hdb Hroom HN Hkeep Hc. split; [|by split_and!].
  split; [done|done| | |].
  - intros k v Hk. rewrite Hdb in Hk. unfold save_statediff in Hk. rewrite map_get_insert in Hk.
    case_decide as E; [exists h; split; [done|]|apply (rw_rows rs Hw) in Hk as (z & -> & ?); exists z; split; [done|lia]].
    destruct (rw_short rs Hw) as [Hc0 _ _ _ _ _ _ _ _ _]. unfold is_u64 in Hc0. lia.
  - intros k v Hk. destruct Hhash as [E|E]; rewrite E in Hk.
    + apply (rw_hashes rs Hw) in Hk as (z & Y & ? & ? & ?). by exists z, Y; auto.
    + rewrite map_get_insert in Hk. case_decide; [injection Hk as <-; by exists h, N|].
      apply (rw_hashes rs Hw) in Hk as (z & Y & ? & ? & ?). by exists z, Y; auto.
  - rewrite Hroom. intros k v (z & X & ? & ?)%(rw_rooms rs Hw). by exists z, X; auto.
Qed.

(** Storing the difference to the layers of the current state, or to nothing. *)
Lemma save_diff_spec rs h N parents new gone dts :
  coherent (state_compressor rs) →
  map_get (statediff rs) (u64_be h) = None → is_u64 h → h ≠ 0 → good_state max_state N →
  (parents = [] ∨ ∃ p, layered (statediff rs) p parents) → Forall (good_info max_state) parents →
  diff_to parents new gone N → 0 ≤ dts ≤ 2 * max_state →
  ∃ c d, save_diff h new gone dts (reverse parents) rs = (Ok tt, set_compressor rs c)
    ∧ shortstatehash_statediff c = save_statediff (statediff rs) h d ∧ coherent c
    ∧ holds (shortstatehash_statediff c) h N
    ∧ (∀ q Y, holds (statediff rs) q Y → holds (shortstatehash_statediff c) q Y).
Proof.
  intros Hc Hn Hu H0 HN Hl HP Hd Hdts. unfold save_diff. rewrite reverse_involutive.
  destruct (save_from_diff_holds (statediff rs) h N parents new gone dts) as (d & -> & Hh & Hk & Hc'); try done.
  eexists _, d. split_and!; [done..| |done|done]. apply Hc'. by destruct (state_compressor rs).
Qed.

(** The number of a state hash: known with its state, or new. *)
Lemma shortstatehash_of_spec rs N :
  room_wf rs → count rs < u64_max →
  (∃ z Y, shortstatehash_of (calculate_hash N) rs = (Ok (z, true), rs)
     ∧ calculate_hash Y = calculate_hash N ∧ holds (statediff rs) z Y)
  ∨ (∃ s, shortstatehash_of (calculate_hash N) rs = (Ok (count rs + 1, false), with_short rs s)
     ∧ short_wf s ∧ counter (globals s) = count rs + 1
     ∧ statehash_shortstatehash s
       = map_insert (statehash_shortstatehash (short rs)) (calculate_hash N) (u64_be (count rs + 1))
     ∧ (∀ n, grows (table_of (short rs) n) (table_of s n))).
Proof.
  intros Hw Hc. pose proof (rw_short rs Hw) as Hs. unfold shortstatehash_of, lift_short.
  pose proof (deserialized_not_found _ _ (calculate_hash N) (wf_counter _ Hs) (wf_statehashes _ Hs)) as Hd.
  destruct (deserialized_u64 _) as [z|e|] eqn:Hn; [left|right|done].
  - destruct Hd as [Hk Hz]. apply (rw_hashes rs Hw) in Hk as (y & Y & Hy & Hh & HY).
    destruct (holds_good _ _ _ HY) as (_ & Hyu & _). apply u64_be_inj in Hy as ->; [|done..].
    exists y, Y. unfold get_or_create_shortstatehash. rewrite Hn. split_and!; [|done..].
    by destruct rs.
  - destruct (assign_new (short rs) (NStateHash (calculate_hash N)) Hs Hc Hd) as (s & Ha & Hw' & Hcnt & Hk & Ho).
    exists s. cbn [assign] in Ha. unfold get_or_create_shortstatehash in *. rewrite Hn in Ha |- *.
    destruct (next_count (globals (short rs))) as [z g]. destruct (raw_aput _ _ _ _) as [m| |]; [|done..].
    cbn [mbind outcome_bind] in *. injection Ha as -> <-. split_and!; [done..|apply (Hk (NStateHash []) I)|].
    intros [] k v Hkv; (rewrite Ho by (intros []); done) || idtac.
    rewrite Hk by done. by apply grows_insert.
Qed.

(** ** Saving a state *)

(** The digest tells the new state from the ones whose hash has a number. *)
Definition no_collision rs (N : CompressedState) : Prop :=
  ∀ z Y, map_get (statehash_shortstatehash (short rs)) (calculate_hash Y) = Some (u64_be z) →
    holds (statediff rs) z Y → calculate_hash Y = calculate_hash N →
    delimited (ascending Y) = delimited (ascending N).

Lemma shortstatehash_of_same rs N z Y :
  room_wf rs → no_collision rs N → good_state max_state N →
  shortstatehash_of (calculate_hash N) rs = (Ok (z, true), rs) →
  calculate_hash Y = calculate_hash N → holds (statediff rs) z Y → Y = N.
Proof.
  intros Hw Hnc [HN _] Hz E HY. apply delimited_state_inj; [|done|].
  - destruct (holds_good _ _ _ HY) as ([? _] & _). done.
  - apply (Hnc z Y); [|done..]. unfold shortstatehash_of, lift_short, get_or_create_shortstatehash in Hz.
    pose proof (rw_short rs Hw) as Hs. rewrite E.
    pose proof (deserialized_not_found _ _ (calculate_hash N) (wf_counter _ Hs) (wf_statehashes _ Hs)) as Hd.
    destruct (deserialized_u64 _) as [y|e|] eqn:Hn; [|clear Hd|done].
    + destruct Hd as [Hd _]. rewrite Hd. congruence.
    + destruct (next_count _). destruct (raw_aput _ _ _ _); cbn in Hz; congruence.
Qed.

(** The stack of the current state, loaded, and what storing a new state on it does. *)
Definition current_state rs (previous : option Z) (X : CompressedState) : Prop :=
  match previous with Some p => holds (statediff rs) p X | None => X = ∅ end.

Lemma current_parents_spec rs fuel previous X :
  coherent (state_compressor rs) → (4 ≤ fuel)%nat → current_state rs previous X →
  ∃ parents c, current_parents evict fuel previous rs = (Ok (reverse parents), set_compressor rs c)
    ∧ shortstatehash_statediff c = statediff rs ∧ coherent c
    ∧ (parents = [] ∨ ∃ p, layered (statediff rs) p parents) ∧ Forall (good_info max_state) parents
    ∧ (∀ N, state_diff (reverse parents) N = (N ∖ X, X ∖ N))
    ∧ (∀ N new gone, new = N ∖ X → gone = X ∖ N → diff_to parents new gone N)
    ∧ (full_state <$> last (reverse parents) = if previous then Some X else None).
Proof.
  intros Hc Hf HX. destruct previous as [p|]; cbn in HX.
  - destruct (load_spec rs fuel p X Hc Hf HX) as (top & rest & c & Hl & Hlay & HP & Htop & Hdb & Hc').
    exists (top :: rest), c. split_and!; try done; [by right; exists p|..].
    + intros N. unfold state_diff. rewrite reverse_cons, last_snoc. by rewrite Htop.
    + intros N new gone -> ->. cbn. by rewrite Htop.
    + rewrite reverse_cons, last_snoc. cbn. by rewrite Htop.
  - subst X. exists [], (state_compressor rs). split_and!; try done.
    + by destruct rs.
    + by left.
    + intros N. cbn. f_equal; set_solver.
    + intros N new gone -> ->. cbn. split; set_solver.
Qed.

Lemma new_state_stored rs s N h fuel previous X dts :
  room_wf rs → short_wf s → count rs < h ≤ counter (globals s) → is_u64 h →
  statehash_shortstatehash s = statehash_shortstatehash (short rs)
  ∨ statehash_shortstatehash s = map_insert (statehash_shortstatehash (short rs)) (calculate_hash N) (u64_be h) →
  (∀ n, grows (table_of (short rs) n) (table_of s n)) →
  (4 ≤ fuel)%nat → good_state max_state N → 0 ≤ dts ≤ 2 * max_state → current_state rs previous X →
  ∃ parents rs1 rs', current_parents evict fuel previous (with_short rs s) = (Ok parents, rs1)
    ∧ state_diff parents N = (N ∖ X, X ∖ N)
    ∧ save_diff h (N ∖ X) (X ∖ N) dts parents rs1 = (Ok tt, rs')
    ∧ room_wf rs' ∧ extends rs rs' ∧ holds (statediff rs') h N.
Proof.
  intros Hw Hs Hh Hu Hhash Hg Hf HN Hdts HX.
  destruct (current_parents_spec (with_short rs s) fuel previous X (rw_cache rs Hw) Hf HX)
    as (parents & c & Hp & Hdb & Hc & Hl & HP & Hsd & Hd & _).
  destruct (save_diff_spec (set_compressor (with_short rs s) c) h N parents (N ∖ X) (X ∖ N) dts)
    as (c' & d & Hsave & Hdb' & Hc' & HhN & Hkeep); try done.
  - cbn. rewrite Hdb. destruct (map_get _ _) as [v|] eqn:Hv; [|done]. exfalso.
    apply (rw_rows rs Hw) in Hv as (z & Hz & ?). pose proof (wf_counter _ (rw_short rs Hw)) as Hcu.
    apply u64_be_inj in Hz; unfold is_u64 in *; lia.
  - pose proof (wf_counter _ (rw_short rs Hw)) as Hcu. unfold is_u64 in Hcu. lia.
  - cbn. by rewrite Hdb.
  - by apply Hd.
  - eexists _, _, _. split_and!; [exact Hp|apply Hsd|exact Hsave|..].
    all: assert (statediff (set_compressor (set_compressor (with_short rs s) c) c') = save_statediff (statediff rs) h d)
      as Hdd by (cbn in *; by rewrite Hdb', Hdb); cbn in Hkeep; rewrite Hdb in Hkeep.
    3: done.
    all: eapply (room_wf_store rs _ h N d); cbn; done.
Qed.

Lemma holds_row (db : DB) h X : holds db h X → is_Some (map_get db (u64_be h)).
Proof.
  intros (st & Hl & _). destruct Hl as [h' Y Hg|h' p Y R top rest Hg]; unfold get_statediff in Hg;
    destruct (map_get db (u64_be h')); cbn in Hg; eauto; done.
Qed.

Lemma current_not_next rs previous X :
  room_wf rs → count rs < u64_max → current_state rs previous X → previous ≠ Some (count rs + 1).
Proof. intros Hw Hc HX ->. cbn in HX. apply holds_row in HX as [v Hv]. by rewrite fresh_row in Hv. Qed.

(** C13: saving a state and loading it gives it back.  On a well-formed service [save_state]
    succeeds and returns a number that afterwards holds the new state in at most four
    layers, whether its hash was known or not, and the difference between the current state
    of the room and the new one; every state that was stored still is, and the service
    stays well formed. *)
Theorem save_state_stores rs fuel room N :
  room_wf rs → (4 ≤ fuel)%nat → count rs < u64_max → good_state max_state N → no_collision rs N →
  ∃ h new gone rs', save_state sha256 evict fuel room N rs = (Ok (h, new, gone), rs')
    ∧ room_wf rs' ∧ extends rs rs' ∧ holds (statediff rs') h N
    ∧ match get_room_shortstatehash rs room with
      | Ok p => ∃ X, holds (statediff rs) p X ∧ new = N ∖ X ∧ gone = X ∖ N
      | _ => new = N ∧ gone = ∅
      end.
Proof.
  intros Hw Hf Hc HN Hnc. unfold save_state, bind, ret.
  assert (∃ previous X, room_shortstatehash room rs = (Ok previous, rs) ∧ current_state rs previous X
    ∧ match get_room_shortstatehash rs room with
      | Ok p => previous = Some p | _ => previous = None end) as (previous & X & -> & HX & Hprev).
  { destruct (room_shortstatehash_spec rs room Hw) as [(p & X & -> & -> & HX)|[-> ->]];
      [by exists (Some p), X|by exists None, ∅]. }
  assert (∀ rs1 st rs2, current_parents evict fuel previous rs1 = (Ok st, rs2) →
    parents_or_default evict fuel previous rs1 = (Ok st, rs2)) as Hload.
  { intros rs1 st rs2. destruct previous as [p|]; cbn; [intros ->|]; done. }
  assert (∀ new gone, new = N ∖ X → gone = X ∖ N →
    match get_room_shortstatehash rs room with
    | Ok p => ∃ X, holds (statediff rs) p X ∧ new = N ∖ X ∧ gone = X ∖ N
    | _ => new = N ∧ gone = ∅
    end) as Hdiff.
  { intros new gone -> ->. destruct (get_room_shortstatehash rs room); subst previous; cbn in HX;
      [by exists X|subst X; split; set_solver..]. }
  destruct (shortstatehash_of_spec rs N Hw Hc) as [(z & Y & Hz & E & HY)|(s & -> & Hs & Hcnt & Hsh & Hg)].
  - pose proof (shortstatehash_of_same rs N z Y Hw Hnc HN Hz E HY) as ->. rewrite Hz.
    case_bool_decide as Hp.
    + exists z, ∅, ∅, rs. split_and!; [done|done|apply extends_refl|done|].
      subst previous. cbn in HX. rewrite (holds_unique _ _ _ _ HX HY) in *. apply Hdiff; set_solver.
    + destruct (current_parents_spec rs fuel previous X (rw_cache rs Hw) Hf HX)
        as (parents & c & Hcp & Hdb & Hcc & _ & _ & Hsd & _).
      rewrite (Hload _ _ _ Hcp), Hsd. eexists z, _, _, _. split_and!; [done|..].
      * by apply room_wf_compressor.
      * by apply extends_compressor.
      * cbn. by rewrite Hdb.
      * by apply Hdiff.
  - rewrite bool_decide_eq_false_2 by by eapply current_not_next.
    destruct (new_state_stored rs s N (count rs + 1) fuel previous X 2)
      as (parents & rs1 & rs' & Hcp & Hsd & Hsave & Hw' & He & HN'); try done; [lia| |by right|].
    + pose proof (wf_counter _ (rw_short rs Hw)). unfold is_u64, u64_max in *. lia.
    + rewrite (Hload _ _ _ Hcp), Hsd, Hsave. eexists _, _, _, _. split_and!; [done..|by apply Hdiff].
Qed.
End invariant.

(** ** The state as a map of numbers *)

(** A set of entries as the map from short state keys to short event ids it stands for. *)
Definition represents (X : CompressedState) (m : gmap Z Z) : Prop :=
  (∀ e, e ∈ X ↔ ∃ k v, m !! k = Some v ∧ e = compress_state_event k v)
  ∧ ∀ k v, m !! k = Some v → is_u64 k ∧ k ≠ 0 ∧ is_u64 v.

Lemma represents_valid X m : represents X m → valid_state X.
Proof. intros [Hx Hm] e (k & v & Hk & ->)%Hx. apply Hm in Hk as (? & ? & ?). by apply compress_valid. Qed.

Lemma compress_inj k v k' v' :
  is_u64 k → is_u64 v → is_u64 k' → is_u64 v' →
  compress_state_event k v = compress_state_event k' v' → k = k' ∧ v = v'.
Proof.
  intros Hk Hv Hk' Hv' E. pose proof (compress_parse k v Hk Hv) as Hp.
  rewrite E, compress_parse in Hp by done. by injection Hp as -> ->.
Qed.

Lemma entry_starts_with_key k k' v : is_u64 k → is_u64 k' → starts_with (compress_state_event k' v) (u64_be k) ↔ k' = k.
Proof.
  intros Hk Hk'. unfold starts_with, compress_state_event.
  rewrite take_app_length' by by rewrite !length_u64_be. split; [by apply u64_be_inj|by intros ->].
Qed.

Lemma find_Some {A} (p : A → bool) l x : find p l = Some x → x ∈ l ∧ p x = true.
Proof.
  induction l as [|y l IH]; cbn; [done|]. destruct (p y) eqn:Hy; [intros [= ->]; split; [left|done]|].
  intros [? ?]%IH. split; [by right|done].
Qed.
Lemma find_None {A} (p : A → bool) l x : find p l = None → x ∈ l → p x = false.
Proof.
  induction l as [|y l IH]; cbn; [by intros _ ?%not_elem_of_nil|].
  destruct (p y) eqn:Hy; [done|]. intros Hf [->|?]%elem_of_cons; [done|by apply IH].
Qed.

(** The entry that a new one replaces: [starts_with] on the short state key. *)
Lemma find_entry X m k :
  represents X m → is_u64 k →
  find (λ e, bool_decide (starts_with e (u64_be k))) (ascending X) = compress_state_event k <$> m !! k.
Proof.
  intros [Hx Hm] Hk. destruct (find _ _) as [e|] eqn:Hf.
  - apply find_Some in Hf as [He%elem_of_ascending Hp%bool_decide_eq_true].
    apply Hx in He as (k' & v & Hv & ->). destruct (Hm _ _ Hv) as (? & _ & _).
    apply entry_starts_with_key in Hp as ->; [|done..]. by rewrite Hv.
  - destruct (m !! k) as [v|] eqn:Hv; [|done]. exfalso.
    assert (compress_state_event k v ∈ ascending X) as He by (apply elem_of_ascending, Hx; eauto).
    apply (find_None _ _ _ Hf) in He. apply bool_decide_eq_false in He. by apply He, entry_starts_with_key.
Qed.

(** Replacing an entry inserts into the map. *)
Definition replaced (m : gmap Z Z) (k : Z) : CompressedState :=
  match compress_state_event k <$> m !! k with Some r => {[r]} | None => ∅ end.

Lemma represents_insert X m k v :
  represents X m → is_u64 k → k ≠ 0 → is_u64 v →
  represents ({[compress_state_event k v]} ∪ (X ∖ replaced m k)) (<[k := v]> m).
Proof.
  intros [Hx Hm] Hk Hk0 Hv. split.
  - intros e. rewrite elem_of_union, elem_of_singleton, elem_of_difference, Hx. split.
    + intros [->|[(k' & v' & Hv' & ->) Hr]]; [exists k, v; by rewrite lookup_insert_eq|].
      exists k', v'. rewrite lookup_insert_ne; [done|]. intros <-. apply Hr. unfold replaced.
      rewrite Hv'. cbn. set_solver.
    + intros (k' & v' & Hv' & ->). apply lookup_insert_Some in Hv' as [[<- <-]|[Hne Hv']]; [by left|].
      right. split; [by exists k', v'|]. unfold replaced. destruct (m !! k) as [w|] eqn:Hw; cbn; [|set_solver].
      rewrite elem_of_singleton. destruct (Hm _ _ Hv') as (? & ? & ?), (Hm _ _ Hw) as (_ & _ & ?).
      intros [-> _]%compress_inj; done.
  - intros k' v' [[<- <-]|[_ ?]]%lookup_insert_Some; [done|by apply Hm].
Qed.

(** What storing the change asks for: the new entry is not there, the old one is. *)
Lemma replaced_diff X m k v :
  represents X m → is_u64 k → is_u64 v → m !! k ≠ Some v →
  let N := {[compress_state_event k v]} ∪ (X ∖ replaced m k) in
  {[compress_state_event k v]} = N ∖ X ∧ replaced m k = X ∖ N.
Proof.
  intros [Hx Hm] Hk Hv Hne N.
  assert (compress_state_event k v ∉ X) as Hnew.
  { intros (k' & v' & Hv' & E)%Hx. destruct (Hm _ _ Hv') as (? & _ & ?).
    apply compress_inj in E as [-> ->]; done. }
  assert (replaced m k ⊆ X) as Hold.
  { unfold replaced. destruct (m !! k) as [w|] eqn:Hw; cbn; [|set_solver].
    intros e ->%elem_of_singleton. apply Hx. eauto. }
  unfold N. split; apply set_eq; intros e; destruct (decide (e ∈ replaced m k)); set_solver.
Qed.
