(* ===== verification/RoomStateRefine.v ===== *)
(** * Appending an event inserts it into the state of the room

    The refinement of [append_to_state]: the number it returns stands for the map from
    (event type, state key) to event id with the event inserted. *)

From S2P Require Import Prelude Bytes DbMap DbSer Short ShortProps Event StateCompressor CompressorProps.
From S2P Require Import RoomState StateAccessor RoomStateProps.

Local Open Scope Z_scope.

(** The state of a room. *)
Abbreviation StateOf := (gmap (string * string) string).

Section refine.
Context {DB : Type} `{Store DB}.
Context (sha256 : bytes → bytes) (evict : gmap Z (list ShortStateInfo) → gmap Z (list ShortStateInfo)).
Hypothesis evict_sub : ∀ m, evict m ⊆ m.
Implicit Types (rs : RoomState (DB := DB)) (M : StateOf).
Local Abbreviation room_wf := (room_wf sha256).
Local Abbreviation statediff rs := (shortstatehash_statediff (state_compressor rs)).
Local Abbreviation count rs := (counter (globals (short rs))).

(** ** Names of numbers *)

Definition has_numbers (s : Short DB) (ty key e : string) (k v : Z) : Prop :=
  utf8 ty ∧ utf8 key ∧ utf8 e ∧ number s (NStateKey ty key) = Ok k ∧ number s (NEvent e) = Ok v.

Definition describes (s : Short DB) (m : gmap Z Z) M : Prop :=
  (∀ ty key e, M !! (ty, key) = Some e → ∃ k v, has_numbers s ty key e k v ∧ m !! k = Some v)
  ∧ (∀ k v, m !! k = Some v → ∃ ty key e, has_numbers s ty key e k v ∧ M !! (ty, key) = Some e).

Lemma has_numbers_grows s s' ty key e k v :
  short_wf s → (∀ n, grows (table_of s n) (table_of s' n)) →
  has_numbers s ty key e k v → has_numbers s' ty key e k v.
Proof. intros Hw Hg (? & ? & ? & ? & ?). split_and!; try done; by eapply number_grows. Qed.

Lemma describes_grows s s' m M :
  short_wf s → (∀ n, grows (table_of s n) (table_of s' n)) → describes s m M → describes s' m M.
Proof.
  intros Hw Hg [H1 H2]. split.
  - intros ty key e (k & v & ? & ?)%H1. exists k, v. split; [by eapply has_numbers_grows|done].
  - intros k v (ty & key & e & ? & ?)%H2. exists ty, key, e. split; [by eapply has_numbers_grows|done].
Qed.

Lemma describes_insert s m M ty key e k v :
  short_wf s → describes s m M → has_numbers s ty key e k v →
  describes s (<[k := v]> m) (<[(ty, key) := e]> M).
Proof.
  intros Hw [H1 H2] Hn. pose proof Hn as (Ht & Hk & He & Hnk & Hnv). split.
  - intros ty' key' e' [[[= <- <-] <-]|[Hne HM]]%lookup_insert_Some.
    { exists k, v. by rewrite lookup_insert_eq. }
    destruct (H1 _ _ _ HM) as (k' & v' & Hn' & Hm). exists k', v'. split; [done|].
    rewrite lookup_insert_ne; [done|]. intros <-. destruct Hn' as (Ht' & Hk' & _ & Hnk' & _).
    assert (NStateKey ty key = NStateKey ty' key') as E by by apply (number_inj s _ _ k).
    apply Hne. congruence.
  - intros k' v' [[<- <-]|[Hne Hm]]%lookup_insert_Some.
    { exists ty, key, e. by rewrite lookup_insert_eq. }
    destruct (H2 _ _ Hm) as (ty' & key' & e' & Hn' & HM). exists ty', key', e'. split; [done|].
    rewrite lookup_insert_ne; [done|]. intros [= <- <-]. destruct Hn' as (_ & _ & _ & Hnk' & _). congruence.
Qed.

(** The names behind a list of entries. *)
Definition Row : Type := (string * string * string) * (Z * Z).
Definition row_ok (s : Short DB) (r : Row) : Prop :=
  let '((ty, key, e), (k, v)) := r in has_numbers s ty key e k v.

Lemma rows_of s m M (ids : list (Z * Z)) :
  short_wf s → describes s m M → NoDup ids → (∀ k v, (k, v) ∈ ids ↔ m !! k = Some v) →
  ∃ rows : list Row, ids = rows.*2 ∧ Forall (row_ok s) rows ∧ NoDup (rows.*1.*1)
    ∧ ∀ ty key e, (ty, key, e) ∈ rows.*1 ↔ M !! (ty, key) = Some e.
Proof.
  intros Hs [H1 H2] Hnd Hids.
  assert (∃ rows : list Row, ids = rows.*2 ∧ Forall (row_ok s) rows
    ∧ ∀ ty key e, (ty, key, e) ∈ rows.*1 → M !! (ty, key) = Some e) as (rows & -> & Hok & HM).
  { assert (∀ k v, (k, v) ∈ ids → m !! k = Some v) as Hin by (intros; by apply Hids). clear Hids Hnd.
    induction ids as [|[k v] ids IH].
    - exists []. split_and!; [done|constructor|]. by intros ??? ?%not_elem_of_nil.
    - destruct IH as (rows & -> & Hok & HM); [intros ???; apply Hin; by right|].
      destruct (H2 k v) as (ty & key & e & Hn & ?); [apply Hin; by left|].
      exists (((ty, key, e), (k, v)) :: rows). split_and!; [done|by constructor|].
      intros ??? [[= -> -> ->]|?]%elem_of_cons; [done|by apply HM]. }
  assert (∀ r, r ∈ rows → row_ok s r ∧ M !! (r.1.1) = Some r.1.2 ∧ m !! r.2.1 = Some r.2.2) as Hrow.
  { intros [[[ty key] e] [k v]] Hr. split_and!.
    - by apply (proj1 (Forall_forall _ _) Hok).
    - apply HM. by apply (list_elem_of_fmap_2 fst) in Hr.
    - apply Hids. by apply (list_elem_of_fmap_2 snd) in Hr. }
  exists rows. split_and!; [done|done| |].
  - rewrite <- list_fmap_compose. apply NoDup_fmap_2_strong; [|by eapply NoDup_fmap_1].
    intros [[[ty key] e] [k v]] [[[ty' key'] e'] [k' v']] Hr Hr' [= <- <-].
    apply Hrow in Hr as ((_ & _ & _ & Hk & Hv) & HM1 & Hm1), Hr' as ((_ & _ & _ & Hk' & Hv') & HM2 & Hm2).
    cbn [fst snd] in *. assert (e = e') as <- by congruence. assert (k = k') as <- by congruence. by assert (v = v') as <- by congruence.
  - intros ty key e. split; [apply HM|]. intros He. destruct (H1 _ _ _ He) as (k & v & Hn & Hv).
    apply Hids, list_elem_of_fmap in Hv as ([[[ty' key'] e'] [k' v']] & [= <- <-] & Hr).
    pose proof (Hrow _ Hr) as ((Ht' & Hke' & _ & Hk' & _) & HM' & _). destruct Hn as (? & ? & _ & Hk & _).
    assert (NStateKey ty key = NStateKey ty' key') as [= <- <-] by by apply (number_inj s _ _ k).
    cbn in HM'. rewrite He in HM'. simplify_eq. by apply (list_elem_of_fmap_2 fst) in Hr.
Qed.

(** The entries of the set are as many as those of the map. *)
Lemma represents_size X m : represents X m → len X = Z.of_nat (size m).
Proof.
  intros [Hx Hm]. unfold len. f_equal.
  assert (X = list_to_set ((λ kv : Z * Z, compress_state_event kv.1 kv.2) <$> map_to_list m)) as ->.
  { apply set_eq. intros e. rewrite elem_of_list_to_set, list_elem_of_fmap, Hx. split.
    - intros (k & v & Hv & ->). exists (k, v). by rewrite elem_of_map_to_list.
    - intros ([k v] & -> & Hv). exists k, v. by apply elem_of_map_to_list in Hv. }
  rewrite size_list_to_set, length_fmap; [by rewrite length_map_to_list|].
  apply NoDup_fmap_2_strong; [|apply NoDup_map_to_list].
  intros [k v] [k' v'] (? & _ & ?)%elem_of_map_to_list%Hm (? & _ & ?)%elem_of_map_to_list%Hm E.
  cbn [fst snd] in E. apply compress_inj in E as [-> ->]; done.
Qed.

Lemma describes_size s m M : short_wf s → describes s m M → size m = size M.
Proof.
  intros Hs HM.
  destruct (rows_of s m M (map_to_list m) Hs HM) as (rows & E & _ & Hnd & HR);
    [apply NoDup_map_to_list|intros; apply elem_of_map_to_list|].
  rewrite <- length_map_to_list, E, length_fmap, <- size_dom.
  assert (dom M = list_to_set (rows.*1.*1)) as ->.
  { apply set_eq. intros [ty key]. rewrite elem_of_list_to_set, elem_of_dom, list_elem_of_fmap. split.
    - intros [e He]. exists (ty, key, e). by rewrite HR.
    - intros ([[ty' key'] e] & [= <- <-] & He). exists e. by apply HR. }
  by rewrite size_list_to_set, !length_fmap.
Qed.

(** The map a number stands for. *)
Definition room_state rs (h : Z) M : Prop :=
  ∃ X m, holds (statediff rs) h X ∧ represents X m ∧ describes (short rs) m M.

Lemma room_state_extends rs rs' h M :
  room_wf rs → extends rs rs' → room_state rs h M → room_state rs' h M.
Proof.
  intros Hw (Hh & Hg & _) (X & m & ? & ? & ?). exists X, m. split_and!; [by apply Hh|done|].
  eapply describes_grows; [apply Hw|done..].
Qed.

(** ** Steps of the operation *)

Lemma lift_assign rs f n :
  room_wf rs → (∀ h, n ≠ NStateHash h) → (∀ s, f s = assign s n) → count rs < u64_max →
  ∃ z s, lift_short f rs = (Ok z, with_short rs s) ∧ room_wf (with_short rs s)
    ∧ extends rs (with_short rs s) ∧ number s n = Ok z ∧ count rs ≤ counter (globals s) ≤ count rs + 1.
Proof.
  intros Hw Hn Hf Hc.
  destruct (short_id_assigned_aux (short rs) n (rw_short _ rs Hw) Hc) as (z & s & Ha & Hs & Hz & Hcnt & Hg & Ho).
  exists z, s. unfold lift_short. rewrite Hf, Ha. split_and!; [done| |by split_and!|done|lia|lia].
  apply room_wf_short; [done..|lia|]. apply (Ho (NStateHash [])). destruct n; naive_solver.
Qed.

Lemma lift_known rs f n z : (∀ s, f s = assign s n) → number (short rs) n = Ok z → lift_short f rs = (Ok z, rs).
Proof. intros Hf Hz. unfold lift_short. rewrite Hf, (assign_old _ _ z) by done. by destruct rs. Qed.

Definition with_event_states rs (m : DB) : RoomState :=
  mkRoomState (short rs) (state_compressor rs) m (roomid_shortstatehash rs) (roomid_pduleaves rs).

Lemma put_event_state_spec rs e h :
  put_event_state e h rs
  = (Ok tt, with_event_states rs (map_insert (shorteventid_shortstatehash rs) (u64_be e) (u64_be h))).
Proof.
  unfold put_event_state, aput, bput, bput_raw. cbn [fst snd]. by rewrite !serialize_u64.
Qed.

Lemma room_wf_event_states rs m : room_wf rs → room_wf (with_event_states rs m) ∧ extends rs (with_event_states rs m).
Proof. intros []. split; [done|split_and!; [done|by intros ????|done]]. Qed.

Lemma next_id_spec rs :
  room_wf rs → count rs < u64_max →
  ∃ s, next_id rs = (Ok (count rs + 1), with_short rs s) ∧ short_wf s
    ∧ counter (globals s) = count rs + 1 ∧ (∀ n, table_of s n = table_of (short rs) n).
Proof.
  intros Hw Hc. pose proof (rw_short _ rs Hw) as Hs. pose proof (wf_counter _ Hs) as Hu.
  unfold next_id, lift_short. rewrite next_count_spec by done. eexists. split; [done|].
  split_and!; [|done|by intros []]. destruct Hs as [? ? He Hk Hh Hr ? ? ? ?].
  split; cbn; try done; try (eapply table_wf_mono; [|done]; lia).
  - unfold is_u64, u64_max in *. lia.
  - apply stored_count_insert. unfold is_u64, u64_max in *. lia.
Qed.

(** What is known after the layers of the current state are loaded. *)
Record loaded rs (previous : option Z) (X : CompressedState) (parents : list ShortStateInfo) : Prop := {
  ld_layers : parents = [] ∨ ∃ p, layered (statediff rs) p parents;
  ld_good : Forall (good_info max_state) parents;
  ld_diff N new gone : new = N ∖ X → gone = X ∖ N → diff_to parents new gone N;
  ld_top : full_state <$> last (reverse parents) = if previous then Some X else None;
}.

Lemma replaces_entry rs previous X parents m k :
  current_state rs previous X → loaded rs previous X parents → represents X m → is_u64 k →
  (last (reverse parents) ≫= λ info,
     find (λ e, bool_decide (starts_with e (u64_be k))) (ascending (full_state info)))
  = compress_state_event k <$> m !! k.
Proof.
  intros HX Hl Hm Hk. rewrite <- (find_entry X m k) by done. pose proof (ld_top _ _ _ _ Hl) as Ht.
  destruct (last (reverse parents)) as [info|], previous; cbn in *; simplify_eq; done.
Qed.

Lemma len_insert X m k v : len ({[compress_state_event k v]} ∪ (X ∖ replaced m k)) ≤ len X + 1.
Proof.
  unfold len. pose proof (size_union_alt {[compress_state_event k v]} (X ∖ replaced m k)) as Hs.
  rewrite Hs, size_singleton.
  pose proof (subseteq_size ((X ∖ replaced m k) ∖ {[compress_state_event k v]}) X ltac:(set_solver)). lia.
Qed.

Lemma append_entry_spec rs previous X parents m k v :
  room_wf rs → count rs < u64_max → current_state rs previous X → loaded rs previous X parents →
  represents X m → len X < max_state → is_u64 k → k ≠ 0 → is_u64 v →
  ∃ h rs', append_entry previous (reverse parents) k (compress_state_event k v) rs = (Ok h, rs')
    ∧ room_wf rs' ∧ extends rs rs' ∧ shorteventid_shortstatehash rs' = shorteventid_shortstatehash rs
    ∧ ∃ X', holds (statediff rs') h X' ∧ represents X' (<[k := v]> m).
Proof.
  intros Hw Hc HX Hl Hm Hlen Hk Hk0 Hv. unfold append_entry.
  rewrite (replaces_entry rs previous X parents m k) by done. case_bool_decide as Hsame.
  - destruct (m !! k) as [w|] eqn:Hmk; cbn in Hsame; [|done].
    assert (w = v) as ->.
    { destruct Hm as [_ Hm]. destruct (Hm _ _ Hmk) as (_ & _ & ?).
      apply (inj Some), compress_inj in Hsame as [_ ?]; done. }
    assert (compress_state_event k v ∈ X) as Hin by (apply Hm; eauto).
    destruct previous as [p|]; cbn in HX; [|by subst X; apply not_elem_of_empty in Hin].
    exists p, rs. split_and!; [done|done|apply extends_refl|done|]. exists X. by rewrite insert_id.
  - destruct (next_id_spec rs Hw Hc) as (s & Hid & Hs & Hcnt & Ht). unfold bind at 1. rewrite Hid.
    destruct (replaced_diff X m k v Hm Hk Hv) as [Hn Hg].
    { intros E. apply Hsame. by rewrite E. }
    fold (replaced m k). set (N := {[compress_state_event k v]} ∪ (X ∖ replaced m k)) in *.
    pose proof (represents_insert X m k v Hm Hk Hk0 Hv) as HN.
    assert (is_u64 (count rs + 1) ∧ count rs + 1 ≠ 0) as [Hu H0].
    { pose proof (wf_counter _ (rw_short _ rs Hw)). unfold is_u64, u64_max in *. lia. }
    destruct (save_diff_spec (with_short rs s) (count rs + 1) N parents {[compress_state_event k v]} (replaced m k) 2)
      as (c & d & Hsave & Hdb & Hcc & Hh & Hkeep); try done.
    + apply Hw.
    + exact (fresh_row sha256 rs Hw Hc).
    + split; [by eapply represents_valid|]. unfold N. pose proof (len_insert X m k v). lia.
    + apply Hl.
    + apply Hl.
    + by apply (ld_diff _ _ _ _ Hl).
    + unfold bind, ret. rewrite Hsave. eexists _, _. split; [done|].
      assert (∀ n, grows (table_of (short rs) n) (table_of s n)) as Hgr by (intros n; rewrite Ht; by intros ???).
      destruct (room_wf_store sha256 rs (set_compressor (with_short rs s) c) (count rs + 1) N d) as [Hw' He];
        cbn; try done; [lia|left; apply (Ht (NStateHash []))|].
      split_and!; [done..|]. by exists N.
Qed.

(** ** Appending *)

(** The state of a room, with space for one more entry; a new room has none. *)
Definition current rs (room : string) M : Prop :=
  match get_room_shortstatehash rs room with
  | Ok p => room_state rs p M ∧ Z.of_nat (size M) < max_state
  | _ => M = ∅
  end.

(** The sets behind it. *)
Definition current_sets rs (previous : option Z) X (m : gmap Z Z) M : Prop :=
  current_state rs previous X ∧ represents X m ∧ describes (short rs) m M.

Lemma empty_sets rs : current_sets rs None ∅ ∅ ∅.
Proof.
  split_and!; [done| |by split]. split; [|done]. intros e.
  split; [by intros ?%not_elem_of_empty|by intros (? & ? & ? & _)].
Qed.

Lemma current_spec rs room M :
  room_wf rs → current rs room M →
  ∃ previous X m, room_shortstatehash room rs = (Ok previous, rs) ∧ current_sets rs previous X m M
    ∧ Z.of_nat (size M) < max_state ∧ ∀ p, get_room_shortstatehash rs room = Ok p → previous = Some p.
Proof.
  intros Hw. unfold current.
  destruct (room_shortstatehash_spec sha256 rs room Hw) as [(p & Y & -> & -> & HY)|[-> ->]].
  - intros [(X & m & HX & ? & ?) ?]. exists (Some p), X, m. split_and!; try done. by intros ? [= ->].
  - intros ->. exists None, ∅, ∅. split_and!; [done|apply empty_sets|done..].
Qed.

Lemma loaded_spec rs fuel previous X :
  room_wf rs → (4 ≤ fuel)%nat → current_state rs previous X →
  ∃ parents c, current_parents evict fuel previous rs = (Ok (reverse parents), set_compressor rs c)
    ∧ room_wf (set_compressor rs c) ∧ extends rs (set_compressor rs c)
    ∧ loaded (set_compressor rs c) previous X parents.
Proof.
  intros Hw Hf HX.
  destruct (current_parents_spec sha256 evict evict_sub rs fuel previous X (rw_cache _ rs Hw) Hf HX)
    as (parents & c & Hp & Hdb & Hc & Hl & HP & _ & Hd & Ht).
  exists parents, c. split_and!; [done|by apply room_wf_compressor|by apply extends_compressor|].
  split; cbn; try done. by rewrite Hdb.
Qed.

Lemma current_state_extends rs rs' previous X :
  extends rs rs' → current_state rs previous X → current_state rs' previous X.
Proof. intros (Hh & _). destruct previous; cbn; [apply Hh|done]. Qed.

(** The state hash of the event is written when the room has a state. *)
Lemma event_state_spec rs previous e :
  room_wf rs → 
  ∃ m, match previous with Some p => put_event_state e p | None => ret tt end rs = (Ok tt, with_event_states rs m)
    ∧ (∀ p, previous = Some p → map_get m (u64_be e) = Some (u64_be p)).
Proof.
  intros Hw. destruct previous as [p|].
  - rewrite put_event_state_spec. eexists. split; [done|]. intros ? [= <-]. apply map_get_insert_eq.
  - exists (shorteventid_shortstatehash rs). split; [by destruct rs|done].
Qed.

Lemma current_extends rs rs' room M : room_wf rs → extends rs rs' → current rs room M → current rs' room M.
Proof.
  intros Hw Hx. pose proof Hx as (_ & _ & Hr). unfold current, get_room_shortstatehash. rewrite Hr.
  destruct (deserialized_u64 _) as [p| |]; [|done..]. intros [? ?]. split; [|done]. by eapply room_state_extends.
Qed.

Lemma loaded_extends rs rs' previous X parents :
  statediff rs' = statediff rs → loaded rs previous X parents → loaded rs' previous X parents.
Proof. intros E [? ? ? ?]. split; [by rewrite E|done..]. Qed.

Lemma room_state_map rs h X m ty key e k v M :
  room_wf rs → holds (statediff rs) h X → represents X (<[k := v]> m) → describes (short rs) m M →
  has_numbers (short rs) ty key e k v → room_state rs h (<[(ty, key) := e]> M).
Proof.
  intros Hw ? ? ? ?. exists X, (<[k := v]> m). split_and!; [done..|].
  apply describes_insert; [apply Hw|done..].
Qed.

(** The second half of the operation, once the layers are loaded and the state before the
    event is recorded. *)
Definition append_key (fuel : nat) (previous : option Z) (ty key e : string) : RoomM (DB := DB) Z :=
  bind (current_parents evict fuel previous) (λ states_parents,
  bind (lift_short (λ s, get_or_create_shortstatekey s ty key)) (λ shortstatekey,
  bind (compress_event shortstatekey e) (λ new,
  append_entry previous states_parents shortstatekey new))).

Lemma append_key_spec rs fuel previous X m ty key e z M :
  room_wf rs → (4 ≤ fuel)%nat → count rs + 2 ≤ u64_max → current_sets rs previous X m M →
  Z.of_nat (size M) < max_state →
  utf8 ty → utf8 key → utf8 e → number (short rs) (NEvent e) = Ok z →
  ∃ h rs', append_key fuel previous ty key e rs = (Ok h, rs') ∧ room_wf rs' ∧ extends rs rs'
    ∧ shorteventid_shortstatehash rs' = shorteventid_shortstatehash rs
    ∧ room_state rs' h (<[(ty, key) := e]> M).
Proof.
  intros Hw Hf Hc (HX & Hm & HM) Hlen Hty Hkey He Hz. unfold append_key, bind at 1.
  assert (len X < max_state) as HlenX
    by (by rewrite (represents_size X m), (describes_size (short rs) m M) by (done || apply Hw)).
  destruct (loaded_spec rs fuel previous X Hw Hf HX) as (parents & c & -> & Hw1 & Hx1 & Hl).
  set (rs1 := set_compressor rs c) in *. unfold bind at 1.
  destruct (lift_assign rs1 (λ s, get_or_create_shortstatekey s ty key) (NStateKey ty key))
    as (k & s & -> & Hw2 & Hx2 & Hk & Hc2); [done..|cbn; lia|].
  set (rs2 := with_short rs1 s) in *. assert (extends rs rs2) as Hx by by eapply extends_trans.
  assert (number s (NEvent e) = Ok z) as Hz2 by (eapply (number_grows (short rs)); [apply Hw|apply Hx|done]).
  unfold bind at 1, compress_event, bind at 1.
  rewrite (lift_known rs2 _ (NEvent e) z) by done. unfold ret at 1.
  destruct (number_bounds s _ _ (rw_short _ rs2 Hw2) Hk) as [Hku Hk0].
  destruct (number_bounds s _ _ (rw_short _ rs2 Hw2) Hz2) as [Hzu _].
  destruct (append_entry_spec rs2 previous X parents m k z) as (h & rs3 & -> & Hw3 & Hx3 & Hev & X' & HX' & Hm');
    try done; [cbn in *; lia|by apply (current_state_extends rs)|by apply (loaded_extends rs1)|].
  exists h, rs3. split_and!; [done|done|by eapply extends_trans|done|].
  assert (∀ n, grows (table_of (short rs) n) (table_of (short rs3) n)) as Hg
    by (intros n q w ?; by apply Hx3, Hx).
  apply (room_state_map rs3 h X' m ty key e k z); [done..| |].
  - eapply describes_grows; [apply Hw|done..].
  - apply (has_numbers_grows s); [apply Hw2|apply Hx3|by split_and!].
Qed.

(** The state recorded for an event is found again. *)
Lemma pdu_shortstatehash_found rs e z p :
  number (short rs) (NEvent e) = Ok z → map_get (shorteventid_shortstatehash rs) (u64_be z) = Some (u64_be p) →
  is_u64 p → pdu_shortstatehash rs e = Ok p.
Proof.
  intros Hz Hm Hp. unfold pdu_shortstatehash. cbn [number] in Hz. rewrite Hz. cbn [mbind outcome_bind].
  unfold aqry, bqry. rewrite serialize_u64 by done. cbn [must mbind outcome_bind]. by rewrite Hm, deserialized_u64_be.
Qed.

(** C12: [append_to_state] implements insertion into the state of a room.  For a state event
    it succeeds and returns a number that stands for the current state of the room with the
    event under its type and state key, be the key new, held by another event or by this
    one; the state before the event is recorded for it, and every number that was given
    keeps its state. *)
Theorem append_to_state_refines {Content} rs fuel (pdu : Pdu Content) room key M :
  room_wf rs → (4 ≤ fuel)%nat → count rs + 3 ≤ u64_max → state_key pdu = Some key →
  utf8 (event_id pdu) → utf8 (type_name (kind pdu)) → utf8 key → current rs room M →
  ∃ h rs', append_to_state evict fuel pdu room rs = (Ok h, rs')
    ∧ room_wf rs' ∧ room_state rs' h (<[(type_name (kind pdu), key) := event_id pdu]> M)
    ∧ (∀ q M', room_state rs q M' → room_state rs' q M')
    ∧ (∀ p, get_room_shortstatehash rs room = Ok p → pdu_shortstatehash rs' (event_id pdu) = Ok p).
Proof.
  intros Hw Hf Hc Hkey He Hty Hk Hcur. unfold append_to_state, bind at 1.
  destruct (lift_assign rs (λ s, get_or_create_shorteventid s (event_id pdu)) (NEvent (event_id pdu)))
    as (z & s1 & -> & Hw1 & Hx1 & Hz & Hc1); [done..|lia|].
  set (rs1 := with_short rs s1) in *.
  destruct (current_spec rs1 room M Hw1) as (previous & X & m & Hprev & Hsets & Hlen & Hp).
  { by apply (current_extends rs). }
  unfold bind at 1. rewrite Hprev. unfold bind at 1.
  destruct (event_state_spec rs1 previous z Hw1) as (d & -> & Hd).
  destruct (room_wf_event_states rs1 d Hw1) as [Hw2 Hx2]. set (rs2 := with_event_states rs1 d) in *.
  rewrite Hkey. change (bind _ _) with (append_key fuel previous (type_name (kind pdu)) key (event_id pdu)).
  destruct (append_key_spec rs2 fuel previous X m (type_name (kind pdu)) key (event_id pdu) z M)
    as (h & rs3 & -> & Hw3 & Hx3 & Hev & Hst); try done; [cbn; lia|].
  assert (extends rs rs3) as Hx by exact (extends_trans _ _ _ (extends_trans _ _ _ Hx1 Hx2) Hx3).
  exists h, rs3. split_and!; [done..| |].
  - intros q M'. by apply room_state_extends.
  - intros p Hroom. specialize (Hp p Hroom). apply (pdu_shortstatehash_found rs3 _ z).
    + eapply (number_grows s1); [apply Hw1|apply Hx3|done].
    + rewrite Hev. by apply Hd.
    + subst previous. destruct Hsets as (HX & _). cbn in HX. by destruct (holds_good _ _ _ HX) as (_ & ? & _).
Qed.
End refine.
