(* ===== verification/StateAccessorProps.v ===== *)
(** * What reading a state promises

    A number that stands for a map from (event type, state key) to event id answers lookups
    and listings as the map does, and the difference of two numbers is that of their maps. *)

From S2P Require Import Prelude Bytes DbMap DbSer Short ShortProps Event StateCompressor CompressorProps.
From S2P Require Import RoomState StateAccessor RoomStateProps RoomStateRefine.

Local Open Scope Z_scope.

(** ** Entries of a set *)

(** The bounds of the range a lookup scans enclose the entries of its key and no others. *)
Lemma in_range k k' v :
  is_u64 k → is_u64 k' → is_u64 v →
  bytes_le (compress_state_event k 0) (compress_state_event k' v)
  ∧ bytes_le (compress_state_event k' v) (compress_state_event k u64_max) ↔ k' = k.
Proof.
  intros Hk Hk' Hv. unfold bytes_le, compress_state_event.
  assert (is_u64 0 ∧ is_u64 u64_max) as [H0 Hm] by (unfold is_u64, u64_max; lia).
  destruct (decide (k' = k)) as [->|Hne].
  - rewrite !bytes_cmp_app_same, !bytes_cmp_u64 by done. unfold is_u64, u64_max in *.
    split; [done|]. intros _. rewrite !Z.compare_ngt_iff. lia.
  - rewrite !bytes_cmp_app_prefix; rewrite ?length_u64_be, ?bytes_cmp_u64 by done; try done.
    + rewrite !Z.compare_ngt_iff. lia.
    + by rewrite Z.compare_eq_iff.
    + rewrite Z.compare_eq_iff. congruence.
Qed.

Lemma head_filter_unique {A} (P : A → Prop) `{!∀ x, Decision (P x)} (l : list A) (o : option A) :
  (∀ x, x ∈ l → P x → o = Some x) → (∀ x, o = Some x → x ∈ l ∧ P x) → head (filter P l) = o.
Proof.
  intros H1 H2. destruct (filter P l) as [|x l'] eqn:E; cbn.
  - destruct o as [x|]; [|done]. destruct (H2 x eq_refl) as [? ?].
    assert (x ∈ filter P l) as Hx by (by apply list_elem_of_filter). rewrite E in Hx. by apply not_elem_of_nil in Hx.
  - assert (x ∈ filter P l) as Hx by (rewrite E; by left). apply list_elem_of_filter in Hx as [? ?].
    symmetry. by apply H1.
Qed.

Lemma entry_in_spec X m k : represents X m → is_u64 k → entry_in X k = compress_state_event k <$> m !! k.
Proof.
  intros [Hx Hm] Hk. apply head_filter_unique.
  - intros e He%elem_of_ascending Hr. apply Hx in He as (k' & v & Hv & ->).
    destruct (Hm _ _ Hv) as (? & _ & ?). apply in_range in Hr as ->; [|done..]. by rewrite Hv.
  - intros e (v & Hv & ->)%fmap_Some. rewrite elem_of_ascending, Hx.
    destruct (Hm _ _ Hv) as (? & _ & ?). split; [by exists k, v|by apply in_range].
Qed.

(** The entries of a set as pairs of numbers, in byte order. *)
Lemma parse_entries_spec X m :
  represents X m →
  ∃ ids : list (Z * Z), ((λ e, must (E' := RoomError) (parse_compressed_state_event e)) <$> ascending X = Ok <$> ids)
    ∧ NoDup ids ∧ ∀ k v, (k, v) ∈ ids ↔ m !! k = Some v.
Proof.
  intros [Hx Hm].
  assert (∀ l, (∀ e, e ∈ l → e ∈ X) → ∃ ids : list (Z * Z),
    l = (λ kv, compress_state_event kv.1 kv.2) <$> ids ∧ ∀ k v, (k, v) ∈ ids → m !! k = Some v) as Hl.
  { induction l as [|e l IH]; intros Hl; [exists []; split; [done|by intros ?? ?%not_elem_of_nil]|].
    destruct IH as (ids & -> & Hids); [intros ??; apply Hl; by right|].
    destruct (proj1 (Hx e)) as (k & v & Hv & ->); [apply Hl; by left|].
    exists ((k, v) :: ids). split; [done|]. intros ?? [[= -> ->]|?]%elem_of_cons; eauto. }
  destruct (Hl (ascending X)) as (ids & E & Hids); [by intros ? ?%elem_of_ascending|].
  exists ids. split_and!.
  - rewrite E, <- list_fmap_compose. apply list_fmap_ext. intros i [k v] Hkv. unfold compose. cbn [fst snd].
    apply list_elem_of_lookup_2, Hids, Hm in Hkv as (? & _ & ?). by rewrite compress_parse.
  - pose proof (NoDup_ascending X) as Hnd. rewrite E in Hnd. by eapply NoDup_fmap_1.
  - intros k v. split; [apply Hids|]. intros Hv.
    assert (compress_state_event k v ∈ ascending X) as He by (apply elem_of_ascending, Hx; eauto).
    rewrite E in He. apply list_elem_of_fmap in He as ([k' v'] & Hc & Hin).
    pose proof (Hids _ _ Hin) as Hv'. destruct (Hm _ _ Hv) as (? & _ & ?), (Hm _ _ Hv') as (? & _ & ?).
    apply compress_inj in Hc as [-> ->]; done.
Qed.

(** ** Reading a number *)

Section reads.
Context {DB : Type} `{Store DB}.
Context (sha256 : bytes → bytes) (evict : gmap Z (list ShortStateInfo) → gmap Z (list ShortStateInfo)).
Hypothesis evict_sub : ∀ m, evict m ⊆ m.
Implicit Types (rs : RoomState (DB := DB)) (M : StateOf).
Local Abbreviation room_wf := (room_wf sha256).
Local Abbreviation statediff rs := (shortstatehash_statediff (state_compressor rs)).

(** What a read may change: the cache. *)
Definition same_tables rs rs' : Prop := room_wf rs' ∧ extends rs rs' ∧ short rs' = short rs.

Lemma load_full_state_spec rs fuel h X :
  room_wf rs → (4 ≤ fuel)%nat → holds (statediff rs) h X →
  ∃ rs', load_full_state evict fuel h rs = (Ok X, rs') ∧ same_tables rs rs' ∧ statediff rs' = statediff rs.
Proof.
  intros Hw Hf HX.
  destruct (load_spec evict evict_sub rs fuel h X (rw_cache _ rs Hw) Hf HX)
    as (top & rest & c & Hl & _ & _ & Htop & Hdb & Hc).
  exists (set_compressor rs c). unfold load_full_state. rewrite Hl, reverse_cons, last_snoc. cbn. rewrite Htop.
  split; [done|]. split; [|done]. split; [by apply room_wf_compressor|]. split; [by apply extends_compressor|done].
Qed.

(** A state key without a number is not in the state. *)
Lemma described_number s m M ty key :
  short_wf s → describes s m M → utf8 ty → utf8 key →
  match number s (NStateKey ty key) with
  | Ok k => is_u64 k ∧ match M !! (ty, key) with
                       | Some e => ∃ v, m !! k = Some v ∧ number s (NEvent e) = Ok v ∧ utf8 e
                       | None => m !! k = None
                       end
  | Err _ => M !! (ty, key) = None
  | Panic => False
  end.
Proof.
  intros Hw [H1 H2] Ht Hk. destruct (number s (NStateKey ty key)) as [k|e|] eqn:Hn.
  - split; [by apply (number_bounds s _ _ Hw Hn)|]. destruct (M !! (ty, key)) as [e|] eqn:HM.
    + destruct (H1 _ _ _ HM) as (k' & v & (_ & _ & ? & Hn' & ?) & ?). rewrite Hn in Hn'. simplify_eq. eauto.
    + destruct (m !! k) as [v|] eqn:Hv; [|done]. exfalso.
      destruct (H2 _ _ Hv) as (ty' & key' & e & (Ht' & Hk' & _ & Hn' & _) & HM').
      assert (NStateKey ty key = NStateKey ty' key') as [= -> ->] by by apply (number_inj s _ _ k).
      congruence.
  - destruct (M !! (ty, key)) as [e'|] eqn:HM; [|done]. destruct (H1 _ _ _ HM) as (? & ? & (_ & _ & _ & ? & _) & _).
    congruence.
  - pose proof (deserialized_not_found _ _ (key_of (NStateKey ty key)) (wf_counter s Hw)
      (table_of_wf s (NStateKey ty key) Hw)) as Hd. rewrite <- number_lookup, Hn in Hd. done.
Qed.

(** A lookup in a stored state answers as the map does.  On a number that stands for a
    map, [state_get_id] returns the event id of the type and state key if the map has one
    and an error if it has none; the tables stay as they are. *)
Theorem state_get_id_spec rs fuel h M ty key :
  room_wf rs → (4 ≤ fuel)%nat → room_state rs h M → utf8 ty → utf8 key →
  ∃ r rs', state_get_id evict fuel h ty key rs = (r, rs') ∧ same_tables rs rs'
    ∧ match M !! (ty, key) with Some e => r = Ok (bytes_of_string e) | None => ∃ err, r = Err err end.
Proof.
  intros Hw Hf (X & m & HX & Hm & HM) Ht Hk. pose proof (rw_short _ rs Hw) as Hs.
  pose proof (described_number _ _ _ _ _ Hs HM Ht Hk) as Hd.
  unfold state_get_id, state_get_shortid, bind, read_short. cbn [number] in Hd.
  destruct (get_shortstatekey (short rs) ty key) as [k|e|]; [| |done].
  - destruct Hd as [Hku Hd]. destruct (load_full_state_spec rs fuel h X Hw Hf HX) as (rs' & -> & Hsame & _).
    unfold pure. rewrite (entry_in_spec X m k) by done. destruct (M !! (ty, key)) as [e|]; [|rewrite Hd].
    + destruct Hd as (v & Hv & Hn & He). rewrite Hv. cbn [fmap option_fmap option_map].
      rewrite compress_parse; [|done|by apply (number_bounds (short rs) (NEvent e))]. cbn [must mbind outcome_bind].
      pose proof Hsame as (_ & _ & Hsh). rewrite Hsh, (named_number (short rs) (NEvent e) v) by done.
      eexists _, _. by split.
    + eexists _, _. split; [done|]. split; [exact Hsame|by eexists].
  - rewrite Hd. eexists _, rs. split; [done|]. split; [|by eexists]. split; [done|]. split; [apply extends_refl|done].
Qed.

(** ** Listings *)

Lemma ignore_err_Ok {E A} (l : list A) : ignore_err (Ok (E := E) <$> l) = Ok l.
Proof. induction l as [|a l IH]; [done|]. rewrite fmap_cons. cbn. by rewrite IH. Qed.

Lemma full_shortids_spec rs fuel h M :
  room_wf rs → (4 ≤ fuel)%nat → room_state rs h M →
  ∃ (rows : list Row) rs', full_shortids evict fuel h rs = (Ok rows.*2, rs') ∧ same_tables rs rs'
    ∧ Forall (row_ok (short rs')) rows ∧ NoDup (rows.*1.*1)
    ∧ ∀ ty key e, (ty, key, e) ∈ rows.*1 ↔ M !! (ty, key) = Some e.
Proof.
  intros Hw Hf (X & m & HX & Hm & HM).
  destruct (load_full_state_spec rs fuel h X Hw Hf HX) as (rs' & Hl & Hsame & _).
  destruct (parse_entries_spec X m Hm) as (ids & Hids & Hnd & Hin).
  destruct (rows_of (short rs) m M ids (rw_short _ rs Hw) HM Hnd Hin) as (rows & -> & Hok & Hk & HR).
  exists rows, rs'. unfold full_shortids, bind, state_full_shortids. rewrite Hl, Hids. unfold pure.
  rewrite ignore_err_Ok. split; [done|]. split; [done|]. pose proof Hsame as (_ & _ & Hsh). by rewrite Hsh.
Qed.

Definition row_key (r : Row) : bytes * bytes := (bytes_of_string r.1.1.1, bytes_of_string r.1.1.2).
Definition row_event (r : Row) : bytes := bytes_of_string r.1.2.

Lemma multi_get_keys s rows :
  short_wf s → Forall (row_ok s) rows → multi_get_statekey_from_short s rows.*2.*1 = Ok <$> (row_key <$> rows).
Proof.
  intros Hs. induction 1 as [|[[[ty key] e] [k v]] rows (? & ? & ? & ? & ?) _ IH]; [done|].
  rewrite !fmap_cons. cbn [fst snd]. by rewrite (multi_get_statekey s ty key), IH.
Qed.

Lemma with_event_ids_rows {A} s (f : Row → A) rows :
  short_wf s → Forall (row_ok s) rows →
  with_event_ids s ((λ r, (f r, r.2.2)) <$> rows) = Ok ((λ r, (f r, row_event r)) <$> rows).
Proof.
  intros Hs Hok. unfold with_event_ids. rewrite <- (ignore_err_Ok (E := ShortError)). f_equal.
  induction Hok as [|[[[ty key] e] [k v]] rows (? & ? & ? & ? & ?) _ IH]; [done|].
  rewrite !fmap_cons. cbn [fst snd]. rewrite (multi_get_event s e) by done. cbn [zip_with mbind outcome_bind].
  by rewrite IH.
Qed.

Lemma tag_rows (rows : list Row) :
  zip_with tag (Ok <$> (row_key <$> rows)) (rows.*2).*2
  = Ok <$> ((λ r, (row_key r, r.2.2)) <$> rows).
Proof. induction rows as [|r rows IH]; [done|]. rewrite !fmap_cons. cbn [zip_with]. by rewrite IH. Qed.

Definition row_of_type (ty : string) (r : Row) : Prop := r.1.1.1 = ty.

#[local] Instance row_of_type_dec ty r : Decision (row_of_type ty r).
Proof. unfold row_of_type. apply _. Defined.

Lemma omap_of_type ty (rows : list Row) :
  omap (λ x : (bytes * bytes) * Z, if of_type ty x.1 then Some (x.1.2, x.2) else None)
    ((λ r, (row_key r, r.2.2)) <$> rows)
  = (λ r : Row, (bytes_of_string r.1.1.2, r.2.2)) <$> filter (row_of_type ty) rows.
Proof.
  induction rows as [|r rows IH]; [done|]. rewrite fmap_cons, filter_cons. cbn [omap list_omap fst snd].
  assert (of_type ty (row_key r) = bool_decide (row_of_type ty r)) as ->.
  { apply bool_decide_ext. unfold row_of_type. cbn. split; [by intros ?%bytes_of_string_inj|by intros ->]. }
  rewrite IH. unfold row_of_type. cbn [fst snd]. case_bool_decide; by case_decide.
Qed.

(** The listing of an event type has the entries of the type, each once.
    [state_keys_with_ids] on a number that stands for a map succeeds, no state key is listed
    twice, and a state key is listed with an event id exactly when the map has that event
    under the type and the key. *)
Theorem state_keys_with_ids_spec rs fuel h M ty :
  room_wf rs → (4 ≤ fuel)%nat → room_state rs h M →
  ∃ (l : list (string * string)) rs',
    state_keys_with_ids evict fuel h ty rs
    = (Ok (prod_map bytes_of_string bytes_of_string <$> l), rs') ∧ same_tables rs rs'
    ∧ NoDup l.*1 ∧ ∀ key e, (key, e) ∈ l ↔ M !! (ty, key) = Some e.
Proof.
  intros Hw Hf Hst. destruct (full_shortids_spec rs fuel h M Hw Hf Hst) as (rows & rs' & Hl & Hsame & Hok & Hnd & HR).
  pose proof Hsame as (Hw' & _). pose proof (rw_short _ rs' Hw') as Hs.
  exists ((λ r : Row, (r.1.1.2, r.1.2)) <$> filter (row_of_type ty) rows), rs'.
  split; [|split; [exact Hsame|split]].
  - unfold state_keys_with_ids, state_keys_with_shortids, bind. rewrite Hl. unfold read_tables, ret.
    rewrite multi_get_keys, tag_rows, ignore_err_Ok, omap_of_type by done.
    rewrite (with_event_ids_rows _ (λ r : Row, bytes_of_string r.1.1.2)); [|done|by apply Forall_filter].
    by rewrite <- list_fmap_compose.
  - rewrite <- !list_fmap_compose in *. apply NoDup_fmap_2_strong.
    + intros r r' [Ht Hr]%list_elem_of_filter [Ht' Hr']%list_elem_of_filter E.
      apply (NoDup_fmap_inj _ rows r r' Hnd); [done..|]. unfold compose, row_of_type in *. cbn [fst snd] in E.
      destruct r as [[[? ?] ?] ?], r' as [[[? ?] ?] ?]. cbn in *. by subst.
    + apply NoDup_filter. by eapply NoDup_fmap_1.
  - intros key e. rewrite <- HR, !list_elem_of_fmap. split.
    + intros (r & [= -> ->] & [Ht Hr]%list_elem_of_filter). exists r. split; [|done]. destruct r as [[[? ?] ?] ?].
      cbn in *. by rewrite <- Ht.
    + intros (r & E & Hr). exists r. rewrite <- E. split; [done|]. apply list_elem_of_filter. split; [|done].
      unfold row_of_type. by rewrite <- E.
Qed.

(** ** Differences *)

(** The entries of a map that another has not. *)
Definition map_diff {K V} `{Countable K, EqDecision V} (m' m : gmap K V) : gmap K V :=
  filter (λ kv, m !! kv.1 ≠ Some kv.2) m'.
Lemma lookup_map_diff {K V} `{Countable K, EqDecision V} (m' m : gmap K V) k v :
  map_diff m' m !! k = Some v ↔ m' !! k = Some v ∧ m !! k ≠ Some v.
Proof. unfold map_diff. by rewrite map_lookup_filter_Some. Qed.

Lemma represents_diff X X' m m' : represents X m → represents X' m' → represents (X' ∖ X) (map_diff m' m).
Proof.
  intros [Hx Hm] [Hx' Hm']. split.
  - intros e. rewrite elem_of_difference, Hx, Hx'. split.
    + intros [(k & v & Hv & ->) Hn]. exists k, v. rewrite lookup_map_diff. split_and!; [done| |done].
      intros Hv'. apply Hn. eauto.
    + intros (k & v & [Hv Hne]%lookup_map_diff & ->). split; [eauto|].
      intros (k' & v' & Hv' & E). destruct (Hm _ _ Hv') as (? & _ & ?), (Hm' _ _ Hv) as (? & _ & ?).
      apply compress_inj in E as [-> ->]; done.
  - intros k v [Hv _]%lookup_map_diff. by apply Hm'.
Qed.

Lemma describes_diff s m m' M M' :
  short_wf s → describes s m M → describes s m' M' → describes s (map_diff m' m) (map_diff M' M).
Proof.
  intros Hs [H1 H2] [H1' H2']. split.
  - intros ty key e [He Hne]%lookup_map_diff. destruct (H1' _ _ _ He) as (k & v & Hn & Hv). exists k, v.
    split; [done|]. apply lookup_map_diff. split; [done|]. intros Hv'.
    destruct (H2 _ _ Hv') as (ty' & key' & e' & (? & ? & ? & ? & ?) & HM'). destruct Hn as (? & ? & ? & ? & ?).
    assert (NStateKey ty key = NStateKey ty' key') as [= <- <-] by by apply (number_inj s _ _ k).
    assert (NEvent e = NEvent e') as [= <-] by by apply (number_inj s _ _ v).
    by apply Hne.
  - intros k v [Hv Hne]%lookup_map_diff. destruct (H2' _ _ Hv) as (ty & key & e & Hn & He). exists ty, key, e.
    split; [done|]. apply lookup_map_diff. split; [done|]. intros He'. apply Hne.
    destruct (H1 _ _ _ He') as (k' & v' & (_ & _ & _ & ? & ?) & ?). destruct Hn as (_ & _ & _ & ? & ?).
    assert (k' = k) as -> by congruence. by assert (v' = v) as -> by congruence.
Qed.

(** The difference of two stored states is that of their maps.  [state_added] lists
    numbers that name, each once, the entries which the second map has and the first has
    not or has with another event. *)
Theorem state_added_spec rs fuel h h' M M' :
  room_wf rs → (4 ≤ fuel)%nat → room_state rs h M → room_state rs h' M' →
  ∃ (rows : list Row) rs', state_added evict fuel h h' rs = (Ok rows.*2, rs') ∧ same_tables rs rs'
    ∧ Forall (row_ok (short rs')) rows ∧ NoDup (rows.*1.*1)
    ∧ ∀ ty key e, (ty, key, e) ∈ rows.*1 ↔ M' !! (ty, key) = Some e ∧ M !! (ty, key) ≠ Some e.
Proof.
  intros Hw Hf (X & m & HX & Hm & HM) (X' & m' & HX' & Hm' & HM').
  destruct (load_full_state_spec rs fuel h X Hw Hf HX) as (rs1 & Hl1 & (Hw1 & Hx1 & Hsh1) & Hdb1).
  destruct (load_full_state_spec rs1 fuel h' X' Hw1 Hf) as (rs2 & Hl2 & (Hw2 & Hx2 & Hsh2) & _); [by rewrite Hdb1|].
  pose proof (rw_short _ rs Hw) as Hs.
  destruct (parse_entries_spec _ _ (represents_diff X X' m m' Hm Hm')) as (ids & Hids & Hnd & Hin).
  destruct (rows_of (short rs) _ _ ids Hs (describes_diff _ _ _ _ _ Hs HM HM') Hnd Hin) as (rows & -> & Hok & Hk & HR).
  exists rows, rs2. split; [|split; [|split_and!]].
  - unfold state_added, bind. rewrite Hl1, Hl2. unfold pure. f_equal. by apply try_map_fmap.
  - split; [done|]. split; [by eapply extends_trans|congruence].
  - by rewrite Hsh2, Hsh1.
  - done.
  - intros ty key e. by rewrite HR, lookup_map_diff.
Qed.
End reads.
