(* ===== verification/RoomStateDemo.v ===== *)
(** * A room with a state event

    A service with empty tables, a room on it and the states that its first event stores:
    inputs at which the theorems about the state service apply. *)

From S2P Require Import Prelude Bytes DbMap DbSer Short ShortProps Event StateCompressor CompressorProps.
From S2P Require Import RoomState StateAccessor RoomStateProps RoomStateRefine StateAccessorProps.

Local Open Scope Z_scope.

Definition keep_all : gmap Z (list ShortStateInfo) → gmap Z (list ShortStateInfo) := λ m, m.
Definition plain_digest : bytes → bytes := λ b, b.
Lemma keep_all_sub m : keep_all m ⊆ m.
Proof. done. Qed.

Definition room0 : RoomState (DB := gmap bytes bytes) := mkRoomState fresh_short (mkService ∅ ∅) ∅ ∅ ∅.

Lemma room0_wf : room_wf plain_digest room0.
Proof.
  split; [apply fresh_short_wf| |..]; intros k v Hk; cbn in Hk; [by rewrite lookup_empty in Hk|..];
    by apply lookup_empty_Some in Hk.
Qed.

(** The state with a topic, and the one with a name too; both keys are set by one event. *)
Definition topic_state : StateOf := {[("m.room.topic", "") := "$t"]}.
Definition name_state : StateOf := <[("m.room.name", "") := "$t"]> topic_state.

Definition room1 : RoomState := (lift_short (λ s, get_or_create_shorteventid s "$t") room0).2.
Definition room2 : RoomState := (append_key keep_all 4 None "m.room.topic" "" "$t" room1).2.
Definition room3 : RoomState := (append_key keep_all 4 (Some 3) "m.room.name" "" "$t" room2).2.

Lemma room1_wf : room_wf plain_digest room1 ∧ number (short room1) (NEvent "$t") = Ok 1.
Proof.
  destruct (lift_assign plain_digest room0 (λ s, get_or_create_shorteventid s "$t") (NEvent "$t"))
    as (z & s & E & Hw & _ & _ & _); [apply room0_wf|done..|].
  assert (room1 = with_short room0 s) as R by (unfold room1; by rewrite E).
  split; [by rewrite R|]. by vm_compute.
Qed.

Lemma room2_stored : room_wf plain_digest room2 ∧ extends room1 room2 ∧ room_state room2 3 topic_state.
Proof.
  destruct room1_wf as [Hw1 Hn].
  destruct (append_key_spec plain_digest keep_all keep_all_sub room1 4 None ∅ ∅ "m.room.topic" "" "$t" 1 ∅)
    as (h & rs & E & Hw & Hx & _ & Hs); [done..|apply empty_sets|done|done|done|done|done|].
  unfold room2. rewrite E. split_and!; [done..|].
  assert (h = 3) as <-; [|done]. apply (f_equal fst) in E. vm_compute in E. congruence.
Qed.

Lemma room2_short : counter (globals (short room2)) = 3 ∧ number (short room2) (NEvent "$t") = Ok 1.
Proof. by vm_compute. Qed.

Lemma name_number : (append_key keep_all 4 (Some 3) "m.room.name" "" "$t" room2).1 = Ok 5.
Proof. by vm_compute. Qed.

Lemma room3_stored :
  room_wf plain_digest room3 ∧ room_state room3 3 topic_state ∧ room_state room3 5 name_state.
Proof.
  destruct room2_stored as (Hw2 & Hx2 & X & m & HX & Hm & HM), room2_short as [Hc Hn].
  destruct (append_key_spec plain_digest keep_all keep_all_sub room2 4 (Some 3) X m
    "m.room.name" "" "$t" 1 topic_state Hw2 (le_n 4)) as (h & rs & E & Hw & Hx & _ & Hs).
  - by rewrite Hc.
  - by split_and!.
  - by vm_compute.
  - done.
  - done.
  - done.
  - exact Hn.
  - unfold room3. rewrite E. split; [exact Hw|]. split.
    + eapply room_state_extends; [exact Hw2|exact Hx|]. exists X, m. exact (conj HX (conj Hm HM)).
    + pose proof name_number as Hid. rewrite E in Hid. by injection Hid as ->.
Qed.

(** ** The theorems at these states *)

Lemma save_state_stores_witness :
  ∃ h new gone rs', save_state plain_digest keep_all 4 "!r" {[compress_state_event 2 1]} room3 = (Ok (h, new, gone), rs')
    ∧ room_wf plain_digest rs' ∧ holds (shortstatehash_statediff (state_compressor rs')) h {[compress_state_event 2 1]}
    ∧ new = {[compress_state_event 2 1]} ∧ gone = ∅.
Proof.
  destruct (save_state_stores plain_digest keep_all keep_all_sub room3 4 "!r" {[compress_state_event 2 1]})
    as (h & new & gone & rs & E & Hw & _ & Hh & Hd).
  - apply room3_stored.
  - apply le_n.
  - by vm_compute.
  - split; [|by vm_compute]. intros e ->%elem_of_singleton. by apply compress_valid.
  - intros z Y _ _ E. exact E.
  - exists h, new, gone, rs. split; [exact E|]. split; [exact Hw|]. split; [exact Hh|].
    assert (get_room_shortstatehash room3 "!r" = Err RequestNotFound) as R by by vm_compute.
    rewrite R in Hd. exact Hd.
Defined.

Definition topic_event : Pdu unit :=
  mkPdu "$n" None "@a:b" None 0 (OtherType "m.room.name") tt (Some "") [] 0 [] None None (mkEventHash "") None.

Lemma append_to_state_refines_witness :
  ∃ h rs', append_to_state keep_all 4 topic_event "!r" room3 = (Ok h, rs')
    ∧ room_state rs' h {[("m.room.name", "") := "$n"]} ∧ room_state rs' 5 name_state.
Proof.
  destruct (append_to_state_refines plain_digest keep_all keep_all_sub room3 4 topic_event "!r" "" ∅)
    as (h & rs & E & _ & Hs & Hk & _).
  - apply room3_stored.
  - apply le_n.
  - by vm_compute.
  - reflexivity.
  - by vm_compute.
  - by vm_compute.
  - by vm_compute.
  - unfold current. assert (get_room_shortstatehash room3 "!r" = Err RequestNotFound) as -> by by vm_compute. done.
  - exists h, rs. split; [exact E|]. split; [exact Hs|]. apply Hk, room3_stored.
Defined.

Lemma state_get_id_spec_witness :
  ∃ rs', state_get_id keep_all 4 5 "m.room.topic" "" room3 = (Ok (bytes_of_string "$t"), rs')
    ∧ room_wf plain_digest rs'.
Proof.
  destruct (state_get_id_spec plain_digest keep_all keep_all_sub room3 4 5 name_state "m.room.topic" "")
    as (r & rs & E & (Hw & _) & Hr).
  - apply room3_stored.
  - apply le_n.
  - apply room3_stored.
  - by vm_compute.
  - by vm_compute.
  - exists rs. split; [|exact Hw]. assert (r = Ok (bytes_of_string "$t")) as <- by exact Hr. exact E.
Defined.

Lemma state_keys_with_ids_spec_witness :
  ∃ l rs', state_keys_with_ids keep_all 4 5 "m.room.topic" room3
    = (Ok (prod_map bytes_of_string bytes_of_string <$> l), rs') ∧ NoDup l.*1 ∧ ("", "$t") ∈ l.
Proof.
  destruct (state_keys_with_ids_spec plain_digest keep_all keep_all_sub room3 4 5 name_state "m.room.topic")
    as (l & rs & E & _ & Hnd & Hl).
  - apply room3_stored.
  - apply le_n.
  - apply room3_stored.
  - exists l, rs. split; [exact E|]. split; [exact Hnd|]. apply Hl. reflexivity.
Defined.

Lemma state_added_spec_witness :
  ∃ (rows : list Row) rs', state_added keep_all 4 3 5 room3 = (Ok rows.*2, rs')
    ∧ ("m.room.name", "", "$t") ∈ rows.*1 ∧ ("m.room.topic", "", "$t") ∉ rows.*1.
Proof.
  destruct (state_added_spec plain_digest keep_all keep_all_sub room3 4 3 5 topic_state name_state)
    as (rows & rs & E & _ & _ & _ & Hl).
  - apply room3_stored.
  - apply le_n.
  - apply room3_stored.
  - apply room3_stored.
  - exists rows, rs. split; [exact E|]. rewrite !Hl. split; [by split|]. intros [_ Hn]. apply Hn. reflexivity.
Defined.
