(* ===== verification/StateCache.v ===== *)
(** * The memberships of a room

    Models [src/service/rooms/state_cache/]: [mod.rs] (queries), [update.rs] (changes of
    memberships and counts) and [via.rs] (servers to reach a room through).  For each state a
    member can be in, one table is keyed by (user, room) and one by (room, user). *)

From S2P Require Import Prelude Bytes DbMap DbSer DbScan Tables Short ShortProps Event AccountData Users.

Local Open Scope Z_scope.

Inductive CacheTable :=
  | RoomidInvitedcount | RoomidInviteviaservers | RoomidJoinedcount | Roomserverids
  | RoomuseridInvitecount | RoomuseridJoined | RoomuseridLeftcount | RoomuseridKnockedcount
  | Roomuseroncejoinedids | Serverroomids | UserroomidInvitestate | UserroomidJoined
  | UserroomidLeftstate | UserroomidKnockedstate | UserroomidInvitesender.
#[export] Instance CacheTable_eq_dec : EqDecision CacheTable.
Proof. solve_decision. Defined.

Inductive CacheError :=
  | InviteBlocked
  | InvalidContent
  | CacheUser (e : UserError)
  | CacheAccount (e : AccountError)
  | CacheDb (e : ShortError).

Section state_cache.
Context {DB : Type} `{Store DB}.

(** The service with the tables of the services it calls. *)
Record Cache := mkCache {
  cache_globals : Globals DB;
  cache_db : CacheTable → DB;
  account_tables : AccountTable → DB;
  user_tables : UserTable → DB;
  bannedroomids : DB;
  disabledroomids : DB;
  appservice_in_room_cache : gmap string (gmap string bool);
}.
Implicit Types (c : Cache) (user_id room_id : string).

Definition with_cache c (g : Globals DB) (db : CacheTable → DB) : Cache :=
  mkCache g db (account_tables c) (user_tables c) (bannedroomids c) (disabledroomids c)
    (appservice_in_room_cache c).
Definition cache_writes c (ws : list (Write CacheTable)) : Cache := with_cache c (cache_globals c) (writes (cache_db c) ws).

(** [roomuserid] and [userroomid]. *)
Definition serialize_key (a b : string) : outcome CacheError bytes := must (serialize None (pair_value a b)).

(** ** Reads *)

Definition has_row c (t : CacheTable) (a b : string) : outcome CacheError bool :=
  r ← qry (cache_db c t) (pair_value a b); Ok (bool_decide (is_Some r)).
Definition once_joined c user_id room_id := has_row c Roomuseroncejoinedids user_id room_id.
Definition is_joined c user_id room_id := has_row c UserroomidJoined user_id room_id.
Definition is_knocked c user_id room_id := has_row c UserroomidKnockedstate user_id room_id.
Definition is_invited c user_id room_id := has_row c UserroomidInvitestate user_id room_id.
Definition is_left c user_id room_id := has_row c UserroomidLeftstate user_id room_id.

Definition user_membership c user_id room_id : outcome CacheError (option MembershipState) :=
  joined ← is_joined c user_id room_id;
  left ← is_left c user_id room_id;
  knocked ← is_knocked c user_id room_id;
  invited ← is_invited c user_id room_id;
  once ← once_joined c user_id room_id;
  Ok (if (joined : bool) then Some Join
      else if (left : bool) then Some Leave
      else if (knocked : bool) then Some Knock
      else if (invited : bool) then Some Invite
      else if (once : bool) then Some Ban else None).

Definition cache_db_error {A} (o : outcome ShortError A) : outcome CacheError A :=
  match o with Ok a => Ok a | Err e => Err (CacheDb e) | Panic => Panic end.
Definition get_row_u64 c (t : CacheTable) (a b : string) : outcome CacheError Z :=
  r ← qry (cache_db c t) (pair_value a b); cache_db_error (deserialized_u64 r).
Definition get_invite_count c room_id user_id := get_row_u64 c RoomuseridInvitecount room_id user_id.
Definition get_knock_count c room_id user_id := get_row_u64 c RoomuseridKnockedcount room_id user_id.
Definition get_left_count c room_id user_id := get_row_u64 c RoomuseridLeftcount room_id user_id.
Definition room_count c (t : CacheTable) room_id : outcome CacheError Z :=
  cache_db_error (deserialized_u64 (map_get (cache_db c t) (bytes_of_string room_id))).
Definition room_joined_count c room_id := room_count c RoomidJoinedcount room_id.
Definition room_invited_count c room_id := room_count c RoomidInvitedcount room_id.
Definition invite_sender c user_id room_id : outcome CacheError bytes :=
  r ← qry (cache_db c UserroomidInvitesender) (pair_value user_id room_id); cache_db_error (deserialized_str r).

(** *** Listings *)

(** Keys with the prefix (name, [Interfix]); the second names of those that can be read. *)
Definition scan_pairs c (t : CacheTable) (a : string) : outcome CacheError (list string) :=
  let seconds (l : list (outcome SerdeError Value)) := omap read_second l in
  l ← keys_prefix (STuple [SIgnore; SStr]) (cache_db c t) (VTuple [VStr (bytes_of_string a); VInterfix]);
  Ok (seconds l).
Definition room_members c room_id := scan_pairs c RoomuseridJoined room_id.
Definition room_members_invited c room_id := scan_pairs c RoomuseridInvitecount room_id.
Definition room_members_knocked c room_id := scan_pairs c RoomuseridKnockedcount room_id.
(** [roomuseroncejoinedids] is written with keys (user, room). *)
Definition room_useroncejoined c room_id := scan_pairs c Roomuseroncejoinedids room_id.
Definition room_servers c room_id := scan_pairs c Roomserverids room_id.
Definition server_rooms c (server : string) := scan_pairs c Serverroomids server.
Definition server_in_room c (server room_id : string) := has_row c Serverroomids server room_id.

(** The keys that start with the bytes of the user id: no separator ends the prefix. *)
Definition rooms_joined c user_id : list string :=
  omap read_second (keys_raw_prefix (STuple [SIgnore; SStr]) (cache_db c UserroomidJoined) (bytes_of_string user_id)).

Fixpoint first_true {A} (f : A → outcome CacheError bool) (l : list A) : outcome CacheError bool :=
  match l with
  | [] => Ok false
  | a :: l => b ← f a; if (b : bool) then Ok true else first_true f l
  end.
Definition server_sees_user c (server user_id : string) : outcome CacheError bool :=
  l ← server_rooms c server; first_true (is_joined c user_id) l.

(** [intersection_sorted_stream2]: the second stream is consumed up to the item of the first. *)
Fixpoint next_until (a : string) (b : list string) : bool * list string :=
  match b with
  | [] => (false, [])
  | bi :: b' =>
      if bool_decide (bytes_le (bytes_of_string bi) (bytes_of_string a)) then
        if bool_decide (a = bi) then (true, b') else next_until a b'
      else (false, b)
  end.
Fixpoint intersection_sorted_stream2 (a b : list string) : list string :=
  match a with
  | [] => []
  | ai :: a => let '(found, b) := next_until ai b in
               if (found : bool) then ai :: intersection_sorted_stream2 a b else intersection_sorted_stream2 a b
  end.
Definition get_shared_rooms c (user_a user_b : string) : list string :=
  intersection_sorted_stream2 (rooms_joined c user_a) (rooms_joined c user_b).
Definition user_sees_user c (user_a user_b : string) : bool := bool_decide (get_shared_rooms c user_a user_b ≠ []).

(** ** Configuration *)

Context (user_is_local : string → bool) (server_name : string → string).
Context (forget_forced_upon_leave : bool).

Definition local_users_in_room c room_id : outcome CacheError (list string) :=
  l ← room_members c room_id; Ok (filter (λ u, user_is_local u = true) l).
Definition active_local_users_in_room c room_id : outcome CacheError (list string) :=
  l ← local_users_in_room c room_id; Ok (filter (λ u, is_active (user_tables c) u = true) l).

(** ** Changes of a membership *)

Definition is_room_flagged c room_id : bool :=
  bool_decide (is_Some (map_get (bannedroomids c) (bytes_of_string room_id)))
  || bool_decide (is_Some (map_get (disabledroomids c) (bytes_of_string room_id))).

Definition mark_as_joined c user_id room_id : outcome CacheError Cache :=
  userroom_id ← serialize_key user_id room_id;
  roomuser_id ← serialize_key room_id user_id;
  Ok (cache_writes c [
    Insert UserroomidJoined userroom_id []; Insert RoomuseridJoined roomuser_id [];
    Remove UserroomidInvitestate userroom_id; Remove RoomuseridInvitecount roomuser_id;
    Remove UserroomidInvitesender userroom_id;
    Remove UserroomidLeftstate userroom_id; Remove RoomuseridLeftcount roomuser_id;
    Remove UserroomidKnockedstate userroom_id; Remove RoomuseridKnockedcount roomuser_id;
    Remove RoomidInviteviaservers (bytes_of_string room_id)]).

Definition forget c room_id user_id : outcome CacheError Cache :=
  userroom_id ← serialize_key user_id room_id;
  roomuser_id ← serialize_key room_id user_id;
  Ok (cache_writes c [Remove UserroomidLeftstate userroom_id; Remove RoomuseridLeftcount roomuser_id]).

(** [leave_pdu] is the JSON text of an optional event. *)
Definition mark_as_left c user_id room_id (leave_pdu : bytes) : outcome CacheError Cache :=
  userroom_id ← serialize_key user_id room_id;
  roomuser_id ← serialize_key room_id user_id;
  let '(count, g) := next_count (cache_globals c) in
  let c := with_cache c g (writes (cache_db c) [
    Insert UserroomidLeftstate userroom_id leave_pdu;
    Insert RoomuseridLeftcount roomuser_id (u64_be count);
    Remove UserroomidJoined userroom_id; Remove RoomuseridJoined roomuser_id;
    Remove UserroomidInvitestate userroom_id; Remove RoomuseridInvitecount roomuser_id;
    Remove UserroomidInvitesender userroom_id;
    Remove UserroomidKnockedstate userroom_id; Remove RoomuseridKnockedcount roomuser_id;
    Remove RoomidInviteviaservers (bytes_of_string room_id)]) in
  if user_is_local user_id && (forget_forced_upon_leave || is_room_flagged c room_id)
  then forget c room_id user_id else Ok c.

Definition mark_as_knocked c user_id room_id (knocked_state : bytes) : outcome CacheError Cache :=
  userroom_id ← serialize_key user_id room_id;
  roomuser_id ← serialize_key room_id user_id;
  let '(count, g) := next_count (cache_globals c) in
  Ok (with_cache c g (writes (cache_db c) [
    Insert UserroomidKnockedstate userroom_id knocked_state;
    Insert RoomuseridKnockedcount roomuser_id (u64_be count);
    Remove UserroomidJoined userroom_id; Remove RoomuseridJoined roomuser_id;
    Remove UserroomidInvitestate userroom_id; Remove RoomuseridInvitecount roomuser_id;
    Remove UserroomidInvitesender userroom_id;
    Remove UserroomidLeftstate userroom_id; Remove RoomuseridLeftcount roomuser_id;
    Remove RoomidInviteviaservers (bytes_of_string room_id)])).

Definition mark_as_once_joined c user_id room_id : outcome CacheError Cache :=
  key ← serialize_key user_id room_id; Ok (cache_writes c [Insert Roomuseroncejoinedids key []]).

(** *** Servers to reach a room through *)

Definition read_servers (kv : KeyVal) : outcome SerdeError (list bytes) :=
  _ ← from_slice SIgnore kv.1; v ← from_slice (SSeq SStr) kv.2;
  match v with
  | VSeq vs => Ok (omap (λ v, match v with VStr s => Some s | _ => None end) vs)
  | _ => Panic
  end.

(** The last server of every row whose key starts with the bytes of the room id. *)
Fixpoint last_servers (rows : list KeyVal) : outcome CacheError (list bytes) :=
  match rows with
  | [] => Ok []
  | kv :: rows =>
      match read_servers kv with
      | Ok servers => s ← expect (last servers); l ← last_servers rows; Ok (s :: l)
      | Err _ => last_servers rows
      | Panic => Panic
      end
  end.
Definition servers_invite_via c room_id : outcome CacheError (list bytes) :=
  last_servers (raw_stream_prefix (cache_db c RoomidInviteviaservers) (bytes_of_string room_id)).

(** [Vec::dedup]: consecutive equal items. *)
Fixpoint dedup (l : list bytes) : list bytes :=
  match l with
  | x :: ((y :: _) as l') => if bool_decide (x = y) then dedup l' else x :: dedup l'
  | l => l
  end.
(** [join] with the separator byte. *)
Fixpoint join_sep (l : list bytes) : bytes :=
  match l with [] => [] | [x] => x | x :: l => x ++ SEP :: join_sep l end.

Definition add_servers_invite_via c room_id (servers : list bytes) : outcome CacheError Cache :=
  old ← servers_invite_via c room_id;
  let servers := dedup (merge_sort bytes_le (old ++ servers)) in
  Ok (cache_writes c [Insert RoomidInviteviaservers (bytes_of_string room_id) (join_sep servers)]).

(** [Iterator::max_by_key]: the last of the greatest. *)
Definition max_by_level (l : list (string * Z)) : option (string * Z) :=
  foldl (λ best x, match best with
                   | Some b => if bool_decide (b.2 ≤ x.2) then Some x else Some b
                   | None => Some x
                   end) None l.
(** [counts_by] and [sorted_by_key] on the counts; the map is iterated in any order. *)
Definition count_server (m : gmap string nat) (u : string) : gmap string nat :=
  <[server_name u := S (default 0%nat (m !! server_name u))]> m.
Definition count_le (x y : string * nat) : Prop := (x.2 ≤ y.2)%nat.
#[local] Instance count_le_dec : RelDecision count_le.
Proof. intros x y. unfold count_le. apply _. Defined.

Context `{Schedule}.

(** [power_users]: the users of the power levels of the room, in the order of their map. *)
Definition servers_route_via c (power_users : option (list (string * Z))) room_id : outcome CacheError (list string) :=
  let most_powerful_user_server :=
    x ← power_users ≫= max_by_level;
    if bool_decide (50 ≤ x.2) then Some (server_name x.1) else None in
  members ← room_members c room_id;
  let counts := merge_sort count_le (order 18 (map_to_list (foldl count_server ∅ members))) in
  let servers := take 5 (reverse counts.*1) in
  Ok match most_powerful_user_server with
     | Some server => take 5 (server :: servers)
     | None => servers
     end.

(** ** Counts of a room *)

Definition count_u64 (n : nat) : Z := Z.min (Z.of_nat n) u64_max.

(** Old servers that still have a member are taken out of the set, the others deleted. *)
Fixpoint remove_servers (db : CacheTable → DB) room_id (old : list string) (joined : gset string)
    : outcome CacheError ((CacheTable → DB) * gset string) :=
  match old with
  | [] => Ok (db, joined)
  | server :: old =>
      if bool_decide (server ∈ joined) then remove_servers db room_id old (joined ∖ {[server]})
      else
        roomserver_id ← serialize_key room_id server;
        serverroom_id ← serialize_key server room_id;
        remove_servers (writes db [Remove Roomserverids roomserver_id; Remove Serverroomids serverroom_id])
          room_id old joined
  end.
Fixpoint add_servers (db : CacheTable → DB) room_id (joined : list string) : outcome CacheError (CacheTable → DB) :=
  match joined with
  | [] => Ok db
  | server :: joined =>
      roomserver_id ← serialize_key room_id server;
      serverroom_id ← serialize_key server room_id;
      add_servers (writes db [Insert Roomserverids roomserver_id []; Insert Serverroomids serverroom_id []])
        room_id joined
  end.

Definition clear_room c room_id : Cache :=
  mkCache (cache_globals c) (cache_db c) (account_tables c) (user_tables c) (bannedroomids c) (disabledroomids c)
    (delete room_id (appservice_in_room_cache c)).

(** The count of knocks goes to [roomuserid_knockedcount], under the room alone. *)
Definition update_joined_count c room_id : outcome CacheError Cache :=
  members ← room_members c room_id;
  invited ← room_members_invited c room_id;
  knocked ← room_members_knocked c room_id;
  let room := bytes_of_string room_id in
  let c := cache_writes c [
    Insert RoomidJoinedcount room (u64_be (count_u64 (length members)));
    Insert RoomidInvitedcount room (u64_be (count_u64 (length invited)));
    Insert RoomuseridKnockedcount room (u64_be (count_u64 (length knocked)))] in
  old ← room_servers c room_id;
  '(db, joined) ← remove_servers (cache_db c) room_id old (list_to_set (server_name <$> members));
  db ← add_servers db room_id (order 19 (elements joined));
  Ok (clear_room (with_cache c (cache_globals c) db) room_id).

(** ** Invitations *)

Context (ignored_user_list invite_permission_config : string).
Context (ignored_users : bytes → option (list string)) (user_filter_level : bytes → string → option FilterLevel).

Definition account_of c : AccountData := mkAccountData (cache_globals c) (account_tables c).

Definition mark_as_invited c user_id room_id (sender_user : string) (last_state : option bytes)
    (invite_via : option (list bytes)) : outcome CacheError Cache :=
  match invite_filter_level ignored_user_list invite_permission_config ignored_users user_filter_level
          (account_of c) sender_user user_id with
  | Block => Err InviteBlocked
  | _ =>
      roomuser_id ← serialize_key room_id user_id;
      userroom_id ← serialize_key user_id room_id;
      let '(count, g) := next_count (cache_globals c) in
      let c := with_cache c g (writes (cache_db c) [
        Insert UserroomidInvitestate userroom_id (default (bytes_of_string "[]") last_state);
        Insert RoomuseridInvitecount roomuser_id (u64_be count);
        Insert UserroomidInvitesender userroom_id (bytes_of_string sender_user);
        Remove UserroomidJoined userroom_id; Remove RoomuseridJoined roomuser_id;
        Remove UserroomidLeftstate userroom_id; Remove RoomuseridLeftcount roomuser_id;
        Remove UserroomidKnockedstate userroom_id; Remove RoomuseridKnockedcount roomuser_id]) in
      match invite_via with
      | Some (_ :: _ as servers) => add_servers_invite_via c room_id servers
      | _ => Ok c
      end
  end.

(** ** Membership events *)

Context {Content : Type} `{Ruma Content}.
(** Passwords, JSON values and ruma's decoders of account data; [predecessor] is the
    predecessor in the create event of a room's current state, [summary_stripped] the state
    shown to an invited user, as JSON. *)
Context (ldap : bool) (hash_password : string → option string).
Context {Json : Type} (json_get : Json → string → bool) (json_text : Json → bytes) (read_json : bytes → option Json).
Context (tag_type direct_type : string).
Context (read_direct : bytes → option (list (string * list string))) (direct_json : list (string * list string) → Json).
Context (predecessor : string → option string) (summary_stripped : Pdu Content → string → bytes).
Context (pdu_text : Pdu Content → bytes).

Definition with_account c (a : AccountData) : Cache :=
  mkCache (account_globals a) (cache_db c) (account_db a) (user_tables c) (bannedroomids c) (disabledroomids c)
    (appservice_in_room_cache c).
Definition with_users c (db : UserTable → DB) : Cache :=
  mkCache (cache_globals c) (cache_db c) (account_tables c) db (bannedroomids c) (disabledroomids c)
    (appservice_in_room_cache c).

(** Copying the tags of the predecessor; an error is ignored. *)
Definition copy_tags c user_id room_id (old_room : string) : outcome CacheError Cache :=
  match get_room read_json (account_of c) old_room user_id tag_type with
  | Ok tag_event =>
      match update json_get json_text (account_of c) (Some room_id) user_id tag_type tag_event with
      | Ok a => Ok (with_account c a)
      | Err _ => Ok c
      | Panic => Panic
      end
  | Err _ => Ok c
  | Panic => Panic
  end.
(** Adding the room to the direct chats the predecessor is among. *)
Definition direct_updated (direct : list (string * list string)) (old_room room_id : string)
    : bool * list (string * list string) :=
  (existsb (λ x, bool_decide (old_room ∈ x.2)) direct,
   (λ x, if bool_decide (old_room ∈ x.2) then (x.1, x.2 ++ [room_id]) else x) <$> direct).
Definition copy_direct c user_id room_id (old_room : string) : outcome CacheError Cache :=
  match get_global read_direct (account_of c) user_id direct_type with
  | Ok direct =>
      let '(updated, direct) := direct_updated direct old_room room_id in
      if (updated : bool) then
        match update json_get json_text (account_of c) None user_id direct_type (direct_json direct) with
        | Ok a => Ok (with_account c a)
        | Err e => Err (CacheAccount e)
        | Panic => Panic
        end
      else Ok c
  | Err _ => Ok c
  | Panic => Panic
  end.

Definition first_join c user_id room_id : outcome CacheError Cache :=
  once ← once_joined c user_id room_id;
  if (once : bool) then Ok c
  else
    c ← mark_as_once_joined c user_id room_id;
    match predecessor room_id with
    | Some old_room => c ← copy_tags c user_id room_id old_room; copy_direct c user_id room_id old_room
    | None => Ok c
    end.

Definition create_remote c user_id : outcome CacheError Cache :=
  if user_is_local user_id || exists_user (user_tables c) user_id then Ok c
  else match create user_is_local ldap hash_password (user_tables c) user_id None None with
       | Ok db => Ok (with_users c db)
       | Err e => Err (CacheUser e)
       | Panic => Panic
       end.

Definition update_membership c room_id user_id (pdu : Pdu Content) (update_count : bool) : outcome CacheError Cache :=
  membership ← ok_or InvalidContent (from_RoomMemberEventContent (content pdu));
  c ← create_remote c user_id;
  c ← match membership with
      | Join => c ← first_join c user_id room_id; mark_as_joined c user_id room_id
      | Invite => mark_as_invited c user_id room_id (sender pdu) (Some (summary_stripped pdu room_id)) None
      | Leave | Ban => mark_as_left c user_id room_id (pdu_text pdu)
      | _ => Ok c
      end;
  if update_count then update_joined_count c room_id else Ok c.

(** ** Application services *)

(** [bridge_user_id] is the sender of the registration, if it is a user id; [is_match] its
    patterns for users. *)
Definition appservice_in_room c room_id (id : string) (bridge_user_id : option string) (is_match : string → bool)
    : outcome CacheError (bool * Cache) :=
  match appservice_in_room_cache c !! room_id ≫= (λ m, m !! id) with
  | Some cached => Ok (cached, c)
  | None =>
      match bridge_user_id with
      | None => Ok (false, c)
      | Some bridge =>
          joined ← is_joined c bridge room_id;
          in_room ← (if (joined : bool) then Ok true
                     else members ← room_members c room_id; Ok (existsb is_match members));
          Ok (in_room,
            mkCache (cache_globals c) (cache_db c) (account_tables c) (user_tables c) (bannedroomids c)
              (disabledroomids c)
              (<[room_id := <[id := in_room]> (default ∅ (appservice_in_room_cache c !! room_id))]>
                 (appservice_in_room_cache c)))
      end
  end.
Definition clear_appservice_in_room_cache c : Cache :=
  mkCache (cache_globals c) (cache_db c) (account_tables c) (user_tables c) (bannedroomids c) (disabledroomids c) ∅.

(** ** States kept for a user *)

Section states.
Context {S : Type} (read_state : bytes → option S).
Definition read_room_state (kv : KeyVal) : option (string * S) :=
  room ← read_second (from_slice (STuple [SIgnore; SStr]) kv.1); s ← read_state kv.2; Some (room, s).
Definition rooms_with_state c (t : CacheTable) user_id : outcome CacheError (list (string * S)) :=
  let read (l : list KeyVal) := omap read_room_state l in
  l ← stream_prefix_raw (cache_db c t) (VTuple [VStr (bytes_of_string user_id); VInterfix]);
  Ok (read l).
Definition rooms_invited c user_id := rooms_with_state c UserroomidInvitestate user_id.
Definition rooms_knocked c user_id := rooms_with_state c UserroomidKnockedstate user_id.
Definition rooms_left c user_id := rooms_with_state c UserroomidLeftstate user_id.
Definition state_of c (t : CacheTable) user_id room_id : outcome CacheError S :=
  r ← qry (cache_db c t) (pair_value user_id room_id);
  match r with
  | Some v => ok_or (CacheDb (BadValue SerdeDe)) (read_state v)
  | None => Err (CacheDb RequestNotFound)
  end.
Definition invite_state c user_id room_id := state_of c UserroomidInvitestate user_id room_id.
Definition knock_state c user_id room_id := state_of c UserroomidKnockedstate user_id room_id.
Definition left_state c user_id room_id := state_of c UserroomidLeftstate user_id room_id.
End states.
End state_cache.
