(* ===== verification/StateCacheProps.v ===== *)
(** * What the state cache promises

    The abstract state is a map from (user, room) to the place of the user in the room: the
    tables by user and by room of that place have the pair, those of the other places have
    not.  The changes of a membership are updates of the map, the queries read it.

    * The state cache on concrete tables

    A server with one joined user, on which the theorems about the state cache apply, and
    runs that show how its operations play together. *)

From S2P Require Import Prelude Bytes DbMap DbSer DbScan Tables Short ShortProps Event AccountData Users StateCache.

Local Open Scope Z_scope.

Inductive Place := Joined | Left | Knocked | Invited.
#[export] Instance Place_eq_dec : EqDecision Place.
Proof. solve_decision. Defined.

Abbreviation Places := (gmap (string * string) Place).

Definition user_table (p : Place) : CacheTable :=
  match p with
  | Joined => UserroomidJoined | Left => UserroomidLeftstate
  | Knocked => UserroomidKnockedstate | Invited => UserroomidInvitestate
  end.
Definition room_table (p : Place) : CacheTable :=
  match p with
  | Joined => RoomuseridJoined | Left => RoomuseridLeftcount
  | Knocked => RoomuseridKnockedcount | Invited => RoomuseridInvitecount
  end.

(** Decisions about names of tables and about equal keys. *)
Ltac decide_names :=
  repeat match goal with
  | |- context [decide (?a = ?b)] =>
      first [rewrite (decide_False (P := (a = b))) by discriminate
            |rewrite (decide_True (P := (a = b))) by reflexivity]
  end.

Section invariant.
Context {DB : Type} `{Store DB}.
Implicit Types (c : Cache (DB := DB)) (A : Places) (u r : string).

Record cache_wf c A : Prop := {
  cw_counter : is_u64 (counter (cache_globals c));
  cw_stored : stored_count (global (cache_globals c)) = Ok (counter (cache_globals c));
  cw_keys : ∀ t, pair_keys (cache_db c t);
  cw_user : ∀ p u r, utf8 u → utf8 r → has_pair (cache_db c (user_table p)) u r ↔ A !! (u, r) = Some p;
  cw_room : ∀ p u r, utf8 u → utf8 r → has_pair (cache_db c (room_table p)) r u ↔ A !! (u, r) = Some p;
  cw_sender : ∀ u r, utf8 u → utf8 r → has_pair (cache_db c UserroomidInvitesender) u r ↔ A !! (u, r) = Some Invited;
}.

(** A user moves to a place, or out of all. *)
Definition place A u r (q : option Place) : Places :=
  match q with Some p => <[(u, r) := p]> A | None => delete (u, r) A end.
Lemma lookup_place A u r q u' r' : place A u r q !! (u', r') = if decide ((u', r') = (u, r)) then q else A !! (u', r').
Proof.
  destruct q as [p|]; cbn; case_decide as E; rewrite ?E.
  - apply lookup_insert_eq.
  - by apply lookup_insert_ne.
  - apply lookup_delete_eq.
  - by apply lookup_delete_ne.
Qed.

(** Writes that concern only the pair (a, b) of a table and leave it in the table or not. *)
Definition sets_pair (ws : list (Write CacheTable)) (t : CacheTable) (a b : string) (here : Prop) : Prop :=
  ∀ k, match written ws t k with
       | Some v => k = pair_key a b ∧ (is_Some v ↔ here)
       | None => k ≠ pair_key a b
       end.
Lemma sets_pair_spec c ws t a b here a' b' :
  sets_pair ws t a b here → utf8 a → utf8 a' →
  has_pair (writes (cache_db c) ws t) a' b'
  ↔ if decide ((a', b') = (a, b)) then here else has_pair (cache_db c t) a' b'.
Proof.
  intros Hs Ha Ha'. unfold has_pair. rewrite get_writes. specialize (Hs (pair_key a' b')).
  destruct (written ws t (pair_key a' b')) as [v|]; cbn.
  - destruct Hs as [E Hv]. apply pair_key_inj in E as [-> ->]; [|done..]. by rewrite decide_True.
  - rewrite decide_False; [done|]. intros [= -> ->]. done.
Qed.

(** Or the table is left alone and is right already. *)
Definition sets_to c ws t a b here : Prop :=
  sets_pair ws t a b here ∨ (∀ k, written ws t k = None) ∧ (has_pair (cache_db c t) a b ↔ here).
Lemma sets_to_spec c ws t a b here a' b' :
  sets_to c ws t a b here → utf8 a → utf8 a' →
  has_pair (writes (cache_db c) ws t) a' b'
  ↔ if decide ((a', b') = (a, b)) then here else has_pair (cache_db c t) a' b'.
Proof.
  intros [Hs|[Hn Hh]] ??; [by apply sets_pair_spec|]. unfold has_pair at 1. rewrite get_writes, Hn. cbn.
  case_decide as E; [by injection E as -> ->|done].
Qed.

Definition moves c (ws : list (Write CacheTable)) u r (q : option Place) : Prop :=
  (∀ p, sets_to c ws (user_table p) u r (q = Some p))
  ∧ (∀ p, sets_to c ws (room_table p) r u (q = Some p))
  ∧ sets_to c ws UserroomidInvitesender u r (q = Some Invited).

Definition good_keys (ws : list (Write CacheTable)) : Prop :=
  Forall (λ w, match w with Insert _ k _ => (∃ a b, utf8 a ∧ utf8 b ∧ k = pair_key a b) ∨ ∃ a, utf8 a ∧ k = bytes_of_string a
                          | Remove _ _ => True end) ws.

Lemma moves_wf c A ws u r q (g : Globals DB) :
  cache_wf c A → moves c ws u r q → good_keys ws → utf8 u → utf8 r →
  is_u64 (counter g) → stored_count (global g) = Ok (counter g) →
  cache_wf (with_cache c g (writes (cache_db c) ws)) (place A u r q).
Proof.
  intros Hc (Hu & Hr & Hs) Hk ????. split; cbn [with_cache cache_globals cache_db]; [done|done| | | |].
  - intros t. apply pair_keys_writes; [apply Hc|done].
  - intros p u' r' ??. rewrite lookup_place, (sets_to_spec c ws _ u r (q = Some p)) by done.
    case_decide; [done|]. by apply (cw_user c A Hc).
  - intros p u' r' ??. rewrite lookup_place, (sets_to_spec c ws _ r u (q = Some p)) by done.
    destruct (decide ((r', u') = (r, u))) as [[= -> ->]|E]; [by rewrite decide_True|].
    rewrite decide_False by congruence. by apply (cw_room c A Hc).
  - intros u' r' ??. rewrite lookup_place, (sets_to_spec c ws _ u r (q = Some Invited)) by done.
    case_decide; [done|]. by apply (cw_sender c A Hc).
Qed.

(** ** Changes *)

(** A list of writes is [moves]: the tables one by one, then the row of the pair or another. *)
Ltac moves_solve :=
  split_and!; [intros []; left; intros k|intros []; left; intros k|left; intros k];
    cbn [user_table room_table written written1]; decide_names;
    repeat (case_decide; simplify_eq);
    first [done | split; [done|split; [by intros [? ?]|done]] | split; [done|split; [done|eauto]] | idtac].

Lemma joined_moves c u r :
  let uk := pair_key u r in let rk := pair_key r u in
  moves c [Insert UserroomidJoined uk []; Insert RoomuseridJoined rk [];
    Remove UserroomidInvitestate uk; Remove RoomuseridInvitecount rk; Remove UserroomidInvitesender uk;
    Remove UserroomidLeftstate uk; Remove RoomuseridLeftcount rk;
    Remove UserroomidKnockedstate uk; Remove RoomuseridKnockedcount rk;
    Remove RoomidInviteviaservers (bytes_of_string r)] u r (Some Joined).
Proof. intros uk rk. moves_solve. Qed.

(** Entering a place whose rows have contents. *)
Lemma left_moves c u r v w :
  let uk := pair_key u r in let rk := pair_key r u in
  moves c [Insert UserroomidLeftstate uk v; Insert RoomuseridLeftcount rk w;
    Remove UserroomidJoined uk; Remove RoomuseridJoined rk;
    Remove UserroomidInvitestate uk; Remove RoomuseridInvitecount rk; Remove UserroomidInvitesender uk;
    Remove UserroomidKnockedstate uk; Remove RoomuseridKnockedcount rk;
    Remove RoomidInviteviaservers (bytes_of_string r)] u r (Some Left).
Proof. intros uk rk. moves_solve. Qed.
Lemma knocked_moves c u r v w :
  let uk := pair_key u r in let rk := pair_key r u in
  moves c [Insert UserroomidKnockedstate uk v; Insert RoomuseridKnockedcount rk w;
    Remove UserroomidJoined uk; Remove RoomuseridJoined rk;
    Remove UserroomidInvitestate uk; Remove RoomuseridInvitecount rk; Remove UserroomidInvitesender uk;
    Remove UserroomidLeftstate uk; Remove RoomuseridLeftcount rk;
    Remove RoomidInviteviaservers (bytes_of_string r)] u r (Some Knocked).
Proof. intros uk rk. moves_solve. Qed.
Lemma invited_moves c u r v w x :
  let uk := pair_key u r in let rk := pair_key r u in
  moves c [Insert UserroomidInvitestate uk v; Insert RoomuseridInvitecount rk w; Insert UserroomidInvitesender uk x;
    Remove UserroomidJoined uk; Remove RoomuseridJoined rk;
    Remove UserroomidLeftstate uk; Remove RoomuseridLeftcount rk;
    Remove UserroomidKnockedstate uk; Remove RoomuseridKnockedcount rk] u r (Some Invited).
Proof. intros uk rk. moves_solve. Qed.

Lemma serialize_key_pair a b : serialize_key a b = Ok (pair_key a b).
Proof. unfold serialize_key. by rewrite serialize_pair. Qed.

Ltac good_solve u r :=
  repeat (constructor; [first [exact I | left; exists u, r; done | left; exists r, u; done]|]); constructor.

(** The counter after an operation that takes a count. *)
Lemma next_count_wf (g : Globals DB) :
  is_u64 (counter g) → counter g < u64_max →
  ∃ g', next_count g = (counter g + 1, g') ∧ counter g' = counter g + 1 ∧ is_u64 (counter g')
    ∧ stored_count (global g') = Ok (counter g').
Proof.
  intros Hu Hc. rewrite next_count_spec by done. eexists. split; [done|]. cbn.
  assert (is_u64 (counter g + 1)) by (unfold is_u64, u64_max in *; lia).
  split; [done|]. split; [done|]. by apply stored_count_insert.
Qed.

Context (user_is_local : string → bool) (forget_forced_upon_leave : bool).

Lemma forget_wf c A u r :
  cache_wf c A → utf8 u → utf8 r → A !! (u, r) = Some Left ∨ A !! (u, r) = None →
  ∃ c', forget c r u = Ok c' ∧ cache_wf c' (delete (u, r) A) ∧ cache_globals c' = cache_globals c.
Proof.
  intros Hc Hu Hr HA. unfold forget. rewrite !serialize_key_pair. cbn [mbind outcome_bind]. eexists.
  split; [done|]. split; [|done]. apply (moves_wf c A _ u r None); try done; [|repeat constructor|apply Hc..].
  assert (∀ t k, t ≠ UserroomidLeftstate → t ≠ RoomuseridLeftcount →
    written [Remove UserroomidLeftstate (pair_key u r); Remove RoomuseridLeftcount (pair_key r u)] t k = None) as Hn.
  { intros t k ??. cbn. by rewrite !decide_False. }
  assert (∀ p, p ≠ Left → A !! (u, r) ≠ Some p) as Hp.
  { intros p ? HA'. destruct HA as [HA|HA]; congruence. }
  split_and!.
  - intros p. destruct (decide (p = Left)) as [->|Hne]; [left; intros k; cbn; decide_names; by case_decide|].
    right. split; [intros k; apply Hn; by destruct p|]. rewrite (cw_user c A Hc) by done. split; [|done].
    intros HA'. by destruct (Hp p).
  - intros p. destruct (decide (p = Left)) as [->|Hne]; [left; intros k; cbn; decide_names; by case_decide|].
    right. split; [intros k; apply Hn; by destruct p|]. rewrite (cw_room c A Hc) by done. split; [|done].
    intros HA'. by destruct (Hp p).
  - right. split; [intros k; by apply Hn|]. rewrite (cw_sender c A Hc) by done. split; [|done].
    intros HA'. by destruct (Hp Invited).
Qed.

(** The forced forgetting of a room that was left. *)
Definition forgets c u r : bool :=
  user_is_local u && (forget_forced_upon_leave || is_room_flagged c r).

Lemma mark_as_joined_wf c A u r :
  cache_wf c A → utf8 u → utf8 r →
  ∃ c', mark_as_joined c u r = Ok c' ∧ cache_wf c' (<[(u, r) := Joined]> A).
Proof.
  intros Hc Hu Hr. unfold mark_as_joined. rewrite !serialize_key_pair. cbn [mbind outcome_bind].
  eexists. split; [done|]. apply (moves_wf c A _ u r (Some Joined)); [done|apply joined_moves|good_solve u r|done..|apply Hc|apply Hc].
Qed.

Lemma mark_as_left_wf c A u r pdu :
  cache_wf c A → utf8 u → utf8 r → counter (cache_globals c) < u64_max →
  ∃ c', mark_as_left user_is_local forget_forced_upon_leave c u r pdu = Ok c'
    ∧ cache_wf c' (if forgets c u r then delete (u, r) A else <[(u, r) := Left]> A).
Proof.
  intros Hc Hu Hr Hlt. unfold mark_as_left. rewrite !serialize_key_pair. cbn [mbind outcome_bind].
  destruct (next_count_wf (cache_globals c)) as (g & -> & Hg & Hgu & Hgs); [apply Hc|done|].
  set (ws := [Insert _ _ _; _; _; _; _; _; _; _; _; _]).
  assert (cache_wf (with_cache c g (writes (cache_db c) ws)) (<[(u, r) := Left]> A)) as Hw.
  { apply (moves_wf c A ws u r (Some Left)); [done|apply left_moves|good_solve u r|done..]. }
  change (is_room_flagged (with_cache c g (writes (cache_db c) ws)) r) with (is_room_flagged c r).
  fold (forgets c u r). destruct (forgets c u r); [|by eexists].
  destruct (forget_wf _ _ u r Hw Hu Hr) as (c' & Hf & Hc' & _); [left; apply lookup_insert_eq|].
  exists c'. split; [done|]. by rewrite delete_insert_eq in Hc'.
Qed.

Lemma mark_as_knocked_wf c A u r st :
  cache_wf c A → utf8 u → utf8 r → counter (cache_globals c) < u64_max →
  ∃ c', mark_as_knocked c u r st = Ok c' ∧ cache_wf c' (<[(u, r) := Knocked]> A).
Proof.
  intros Hc Hu Hr Hlt. unfold mark_as_knocked. rewrite !serialize_key_pair. cbn [mbind outcome_bind].
  destruct (next_count_wf (cache_globals c)) as (g & -> & Hg & Hgu & Hgs); [apply Hc|done|].
  eexists. split; [done|].
  apply (moves_wf c A _ u r (Some Knocked)); [done|apply knocked_moves|good_solve u r|done..].
Qed.

Context (ignored_user_list invite_permission_config : string).
Context (ignored_users : bytes → option (list string)) (user_filter_level : bytes → string → option FilterLevel).
Local Abbreviation mark_as_invited :=
  (mark_as_invited ignored_user_list invite_permission_config ignored_users user_filter_level).
Definition blocked c (sender_user : string) u : bool :=
  match invite_filter_level ignored_user_list invite_permission_config ignored_users user_filter_level
          (account_of c) sender_user u with Block => true | _ => false end.

Lemma mark_as_invited_wf c A u r sender st :
  cache_wf c A → utf8 u → utf8 r → counter (cache_globals c) < u64_max →
  if blocked c sender u then mark_as_invited c u r sender st None = Err InviteBlocked
  else ∃ c', mark_as_invited c u r sender st None = Ok c' ∧ cache_wf c' (<[(u, r) := Invited]> A).
Proof.
  intros Hc Hu Hr Hlt. unfold blocked, StateCache.mark_as_invited. rewrite !serialize_key_pair. cbn [mbind outcome_bind].
  destruct (next_count_wf (cache_globals c)) as (g & -> & Hg & Hgu & Hgs); [apply Hc|done|].
  assert (∀ v w x, cache_wf (with_cache c g (writes (cache_db c) [
    Insert UserroomidInvitestate (pair_key u r) v; Insert RoomuseridInvitecount (pair_key r u) w;
    Insert UserroomidInvitesender (pair_key u r) x;
    Remove UserroomidJoined (pair_key u r); Remove RoomuseridJoined (pair_key r u);
    Remove UserroomidLeftstate (pair_key u r); Remove RoomuseridLeftcount (pair_key r u);
    Remove UserroomidKnockedstate (pair_key u r); Remove RoomuseridKnockedcount (pair_key r u)]))
    (<[(u, r) := Invited]> A)) as Hw.
  { intros. apply (moves_wf c A _ u r (Some Invited)); [done|apply invited_moves|good_solve u r|done..]. }
  destruct (invite_filter_level _ _ _ _ _ _ _); [eexists; split; [done|apply Hw]..|done].
Qed.

(** C15: the changes of a membership move the user in the map.  On tables that represent a
    map of places, joining, leaving (or being made to forget the room), knocking and being
    invited succeed and give tables that represent the map with the user at the new place;
    an invite that the user blocks is refused. *)
Theorem membership_changes c A u r pdu knock_state sender invite_state :
  cache_wf c A → utf8 u → utf8 r → counter (cache_globals c) < u64_max →
  (∃ c', mark_as_joined c u r = Ok c' ∧ cache_wf c' (<[(u, r) := Joined]> A))
  ∧ (∃ c', mark_as_left user_is_local forget_forced_upon_leave c u r pdu = Ok c'
       ∧ cache_wf c' (if forgets c u r then delete (u, r) A else <[(u, r) := Left]> A))
  ∧ (∃ c', mark_as_knocked c u r knock_state = Ok c' ∧ cache_wf c' (<[(u, r) := Knocked]> A))
  ∧ (if blocked c sender u then mark_as_invited c u r sender invite_state None = Err InviteBlocked
     else ∃ c', mark_as_invited c u r sender invite_state None = Ok c' ∧ cache_wf c' (<[(u, r) := Invited]> A)).
Proof.
  intros. split_and!; [by apply mark_as_joined_wf|by apply mark_as_left_wf|by apply mark_as_knocked_wf|].
  by apply mark_as_invited_wf.
Qed.
End invariant.

(** ** Queries *)

Section queries.
Context {DB : Type} `{Store DB}.
Implicit Types (c : Cache (DB := DB)) (A : Places) (u r : string).

Lemma has_row_spec c t a b : has_row c t a b = Ok (bool_decide (has_pair (cache_db c t) a b)).
Proof. unfold has_row, qry, bqry. rewrite serialize_pair. cbn [must mbind outcome_bind]. by apply f_equal, bool_decide_ext. Qed.
Lemma has_place c A p u r :
  cache_wf c A → utf8 u → utf8 r →
  has_row c (user_table p) u r = Ok (bool_decide (A !! (u, r) = Some p)).
Proof. intros Hc ??. rewrite has_row_spec. by apply f_equal, bool_decide_ext, (cw_user c A Hc). Qed.

Lemma scan_pairs_spec c t a : scan_pairs c t a = Ok (seconds (cache_db c t) a).
Proof. unfold scan_pairs, keys_prefix. by rewrite serialize_interfix. Qed.

(** The members of a room at a place, in byte order. *)
Lemma room_scan c A p r :
  cache_wf c A → utf8 r →
  ∃ l, scan_pairs c (room_table p) r = Ok l ∧ StronglySorted name_lt l ∧ NoDup l ∧ Forall utf8 l
    ∧ ∀ u, u ∈ l ↔ utf8 u ∧ A !! (u, r) = Some p.
Proof.
  intros Hc Hr. rewrite scan_pairs_spec. eexists. split; [done|]. pose proof (cw_keys c A Hc (room_table p)) as Hk.
  assert (∀ u, u ∈ seconds (cache_db c (room_table p)) r ↔ utf8 u ∧ A !! (u, r) = Some p) as Hin.
  { intros u. rewrite elem_of_seconds by done. split; intros [Hu Hh]; (split; [done|]); by apply (cw_room c A Hc). }
  split_and!; [by apply seconds_sorted|by apply seconds_NoDup| |done].
  apply Forall_forall. by intros u [? _]%Hin.
Qed.

(** The queries of the state cache read the map.  A user's membership is that of the
    place in the map; a user at no place who once joined is reported as banned.  The
    listing of the members of a room at a place is in byte order and has exactly the users
    the map has there. *)
Theorem membership_queries c A u r :
  cache_wf c A → utf8 u → utf8 r →
  is_joined c u r = Ok (bool_decide (A !! (u, r) = Some Joined))
  ∧ user_membership c u r
    = Ok match A !! (u, r) with
         | Some Joined => Some Join | Some Left => Some Leave
         | Some Knocked => Some Knock | Some Invited => Some Invite
         | None => if bool_decide (has_pair (cache_db c Roomuseroncejoinedids) u r) then Some Ban else None
         end
  ∧ ∃ l, room_members c r = Ok l ∧ StronglySorted name_lt l ∧ NoDup l
      ∧ ∀ u', u' ∈ l ↔ utf8 u' ∧ A !! (u', r) = Some Joined.
Proof.
  intros Hc Hu Hr. split_and!.
  - by apply (has_place c A Joined).
  - unfold user_membership, is_joined, is_left, is_knocked, is_invited, once_joined.
    rewrite (has_place c A Joined), (has_place c A Left), (has_place c A Knocked), (has_place c A Invited) by done.
    rewrite has_row_spec. cbn [mbind outcome_bind]. f_equal. by destruct (A !! (u, r)) as [[]|].
  - destruct (room_scan c A Joined r Hc Hr) as (l & Hl & ? & ? & _ & ?). by exists l.
Qed.

(** Bytes that a user id starts with. *)
Definition extends_name (u u' : string) : Prop := starts_with (bytes_of_string u') (bytes_of_string u).

Lemma pair_starts u u' r :
  utf8 u → starts_with (pair_key u' r) (bytes_of_string u) ↔ extends_name u u'.
Proof.
  intros Hu. unfold extends_name, starts_with, pair_key.
  destruct (decide (length (bytes_of_string u) ≤ length (bytes_of_string u'))%nat) as [Hle|Hgt].
  - by rewrite take_app_le.
  - split; [|intros E; apply (f_equal length) in E; rewrite length_take in E; lia].
    intros E. exfalso. rewrite take_app_ge in E by lia.
    destruct (length (bytes_of_string u) - length (bytes_of_string u'))%nat as [|n] eqn:Hn; [lia|].
    cbn in E. apply utf8_no_sep in Hu. rewrite <- E in Hu. set_solver.
Qed.

(** [rooms_joined] lists the rooms of every user whose id starts with the id asked for.
    The prefix of the scan is the bare user id, without the separator that ends it in the
    keys, so the rooms joined by "\@a:b.example" are listed for "\@a:b" as well. *)
Theorem rooms_joined_spec c A u r :
  cache_wf c A → utf8 u →
  r ∈ rooms_joined c u ↔ utf8 r ∧ ∃ u', utf8 u' ∧ extends_name u u' ∧ A !! (u', r) = Some Joined.
Proof.
  intros Hc Hu. unfold rooms_joined, keys_raw_prefix, raw_keys_prefix. rewrite list_elem_of_omap. split.
  - intros (o & Ho & Hr). apply list_elem_of_fmap in Ho as (k & -> & Hk).
    apply list_elem_of_fmap in Hk as ([k' v] & -> & [Hv Hp]%elem_of_raw_stream_prefix). cbn [fst] in *.
    destruct (cw_keys c A Hc _ _ _ Hv) as [(u' & r' & Hu' & Hr' & ->)|(a & Ha & ->)].
    + rewrite read_pair in Hr by done. injection Hr as ->. split; [done|]. exists u'.
      rewrite pair_starts in Hp by done. split; [done|]. split; [done|]. apply (cw_user c A Hc Joined); [done..|by exists v].
    + by rewrite read_single in Hr.
  - intros (Hr & u' & Hu' & He & HA). apply (cw_user c A Hc Joined) in HA as [v Hv]; [|done..].
    exists (from_slice (STuple [SIgnore; SStr]) (pair_key u' r)). split; [|by apply read_pair].
    apply list_elem_of_fmap_2. apply list_elem_of_fmap. exists (pair_key u' r, v). split; [done|].
    apply elem_of_raw_stream_prefix. split; [done|]. by apply pair_starts.
Qed.
End queries.

(** ** Counts and servers *)

Section counts.
Context {DB : Type} `{Store DB} `{Schedule}.
Implicit Types (c : Cache (DB := DB)) (A : Places) (u r : string).

(** The two tables of servers mirror each other. *)
Definition servers_wf c : Prop :=
  ∀ r s, utf8 r → utf8 s → has_pair (cache_db c Roomserverids) r s ↔ has_pair (cache_db c Serverroomids) s r.

Definition leaves r (l : list string) : list (Write CacheTable) :=
  flat_map (λ s, [Remove Roomserverids (pair_key r s); Remove Serverroomids (pair_key s r)]) l.
Definition enters r (l : list string) : list (Write CacheTable) :=
  flat_map (λ s, [Insert Roomserverids (pair_key r s) []; Insert Serverroomids (pair_key s r) []]) l.

Lemma remove_servers_writes (db : CacheTable → DB) r old joined :
  NoDup old →
  remove_servers db r old joined
  = Ok (writes db (leaves r (filter (λ s, s ∉ joined) old)), joined ∖ list_to_set old).
Proof.
  intros Hd. revert db joined. induction Hd as [|s old Hs _ IH]; intros db joined.
  { cbn. by rewrite difference_empty_L. }
  cbn [remove_servers list_to_set]. case_bool_decide as Hin.
  - rewrite IH, filter_cons_False by auto.
    rewrite (filter_ext_in (λ s', s' ∉ joined ∖ {[s]}) (λ s', s' ∉ joined)).
    + by rewrite difference_difference_l_L.
    + intros s' Hs'. assert (s' ≠ s) by congruence. set_solver.
  - rewrite !serialize_key_pair. cbn [mbind outcome_bind]. rewrite IH, filter_cons_True by done.
    by replace (joined ∖ ({[s]} ∪ list_to_set old)) with (joined ∖ list_to_set old) by set_solver.
Qed.
Lemma add_servers_writes (db : CacheTable → DB) r l : add_servers db r l = Ok (writes db (enters r l)).
Proof.
  revert db. induction l as [|s l IH]; intros db; [done|]. cbn [add_servers].
  rewrite !serialize_key_pair. cbn [mbind outcome_bind]. by rewrite IH.
Qed.

(** What the writes about servers say of a row. *)
Lemma written_app (a b : list (Write CacheTable)) t k :
  written (a ++ b) t k = match written b t k with Some x => Some x | None => written a t k end.
Proof. induction a as [|w a IH]; cbn; [by destruct (written b t k)|]. rewrite IH. by destruct (written b t k). Qed.
Lemma writes_app (db : CacheTable → DB) a b : writes db (a ++ b) = writes (writes db a) b.
Proof. apply foldl_app. Qed.
Lemma written_leaves r l t k :
  written (leaves r l) t k
  = if decide ((t = Roomserverids ∧ k ∈ pair_key r <$> l) ∨ (t = Serverroomids ∧ k ∈ (λ s, pair_key s r) <$> l))
    then Some None else None.
Proof.
  induction l as [|s l IH]; [cbn; by rewrite decide_False by set_solver|]. cbn [leaves flat_map app written].
  fold (leaves r l). rewrite IH. cbn [written1].
  repeat case_decide; subst; rewrite ?fmap_cons, ?elem_of_cons in *; naive_solver.
Qed.
Lemma written_enters r l t k :
  written (enters r l) t k
  = if decide ((t = Roomserverids ∧ k ∈ pair_key r <$> l) ∨ (t = Serverroomids ∧ k ∈ (λ s, pair_key s r) <$> l))
    then Some (Some []) else None.
Proof.
  induction l as [|s l IH]; [cbn; by rewrite decide_False by set_solver|]. cbn [enters flat_map app written].
  fold (enters r l). rewrite IH. cbn [written1].
  repeat case_decide; subst; rewrite ?fmap_cons, ?elem_of_cons in *; naive_solver.
Qed.

(** The server tables after the writes of [update_joined_count]. *)
Lemma has_server_row (db : CacheTable → DB) r old joined r' s :
  utf8 r → utf8 r' → utf8 s → Forall utf8 old → Forall utf8 joined →
  let db' := writes db (leaves r old ++ enters r joined) in
  (has_pair (db' Roomserverids) r' s
   ↔ (r' = r ∧ s ∈ joined) ∨ (¬ (r' = r ∧ s ∈ old) ∧ has_pair (db Roomserverids) r' s))
  ∧ (has_pair (db' Serverroomids) s r'
   ↔ (r' = r ∧ s ∈ joined) ∨ (¬ (r' = r ∧ s ∈ old) ∧ has_pair (db Serverroomids) s r')).
Proof.
  intros Hr Hr' Hs Ho Hj db'. rewrite Forall_forall in Ho, Hj.
  assert (∀ l : list string, pair_key r' s ∈ pair_key r <$> l ↔ r' = r ∧ s ∈ l) as H1.
  { intros l. rewrite list_elem_of_fmap. split; [intros (s' & [-> ->]%pair_key_inj & ?); done|].
    intros [-> ?]. by exists s. }
  assert (∀ l : list string, (∀ s', s' ∈ l → utf8 s') → pair_key s r' ∈ (λ s, pair_key s r) <$> l ↔ r' = r ∧ s ∈ l) as H2.
  { intros l Hl. rewrite list_elem_of_fmap. split.
    - intros (s' & E & ?). apply pair_key_inj in E as [-> ->]; auto.
    - intros [-> ?]. by exists s. }
  subst db'. unfold has_pair. rewrite !get_writes, !written_app, !written_leaves, !written_enters.
  split; repeat case_decide; cbn; rewrite ?H1, ?H2 in * by done; naive_solver.
Qed.
Lemma other_server_row (db : CacheTable → DB) r old joined t k :
  t ≠ Roomserverids → t ≠ Serverroomids →
  map_get (writes db (leaves r old ++ enters r joined) t) k = map_get (db t) k.
Proof.
  intros ??. rewrite get_writes, written_app, written_leaves, written_enters. by rewrite !decide_False by tauto.
Qed.


(** Changes that concern no pair of the membership tables. *)
Lemma keeps_wf c c' A :
  cache_wf c A → cache_globals c' = cache_globals c → (∀ t, pair_keys (cache_db c' t)) →
  (∀ t a b, t ≠ Roomserverids → t ≠ Serverroomids → utf8 a → utf8 b →
    has_pair (cache_db c' t) a b ↔ has_pair (cache_db c t) a b) →
  cache_wf c' A.
Proof.
  intros Hc Hg Hk Hp. split; rewrite ?Hg; [apply Hc..|done| | |].
  - intros p u r ??. rewrite Hp by (by destruct p). by apply (cw_user c A Hc).
  - intros p u r ??. rewrite Hp by (by destruct p). by apply (cw_room c A Hc).
  - intros u r ??. rewrite Hp by done. by apply (cw_sender c A Hc).
Qed.
Lemma good_servers r old joined :
  utf8 r → Forall utf8 joined → good_keys (leaves r old ++ enters r joined).
Proof.
  intros Hr Hj. apply Forall_app. split.
  - induction old as [|s old IH]; cbn; [constructor|]. by repeat constructor.
  - induction Hj as [|s joined Hs _ IH]; cbn; [constructor|]. constructor; [left; by exists r, s|].
    constructor; [left; by exists s, r|done].
Qed.

(** The tables with the new counts. *)
Definition count_writes r (j i k : Z) : list (Write CacheTable) :=
  [Insert RoomidJoinedcount (bytes_of_string r) (u64_be j);
   Insert RoomidInvitedcount (bytes_of_string r) (u64_be i);
   Insert RoomuseridKnockedcount (bytes_of_string r) (u64_be k)].
Lemma count_writes_pairs c r j i k t a b :
  utf8 r → has_pair (writes (cache_db c) (count_writes r j i k) t) a b ↔ has_pair (cache_db c t) a b.
Proof.
  intros Hr. unfold has_pair. rewrite get_writes. cbn [count_writes written written1].
  assert (bytes_of_string r ≠ pair_key a b) by (intros E; by apply (pair_key_not_name a b r)).
  rewrite !(decide_False (P := bytes_of_string r = _)) by done. by repeat case_decide.
Qed.
Lemma count_u64_range n : is_u64 (count_u64 n).
Proof. unfold count_u64, is_u64, u64_max. lia. Qed.
Lemma count_written c r (j i k : nat) :
  room_count (cache_writes c (count_writes r (count_u64 j) (count_u64 i) (count_u64 k))) RoomidJoinedcount r = Ok (count_u64 j)
  ∧ room_count (cache_writes c (count_writes r (count_u64 j) (count_u64 i) (count_u64 k))) RoomidInvitedcount r = Ok (count_u64 i).
Proof.
  unfold room_count, cache_writes. cbn [with_cache cache_db].
  rewrite !get_writes. cbn [count_writes written written1]. decide_names. cbn [default].
  unfold id. by rewrite !deserialized_u64_be by apply count_u64_range.
Qed.
Lemma count_writes_wf c A r j i k :
  cache_wf c A → servers_wf c → utf8 r →
  cache_wf (cache_writes c (count_writes r j i k)) A ∧ servers_wf (cache_writes c (count_writes r j i k)).
Proof.
  intros Hc Hs Hr. split.
  - apply (keeps_wf c); [done|done| |intros; by apply count_writes_pairs].
    intros t. apply pair_keys_writes; [apply Hc|]. repeat (constructor; [right; by exists r|]). constructor.
  - intros r' s ??. unfold cache_writes. cbn [with_cache cache_db]. rewrite !count_writes_pairs by done. by apply Hs.
Qed.

(** What becomes of the servers. *)
Lemma servers_updated c A r joined c' :
  cache_wf c A → servers_wf c → utf8 r → Forall utf8 joined →
  let old := seconds (cache_db c Roomserverids) r in
  cache_globals c' = cache_globals c →
  cache_db c' = writes (writes (cache_db c) (leaves r (filter (λ s, s ∉ (list_to_set joined : gset string)) old)))
                  (enters r (order 19 (elements ((list_to_set joined : gset string) ∖ list_to_set old)))) →
  cache_wf c' A ∧ servers_wf c'
  ∧ (∀ s, utf8 s → has_pair (cache_db c' Serverroomids) s r ↔ s ∈ joined)
  ∧ ∀ r' s, utf8 r' → utf8 s → r' ≠ r →
      has_pair (cache_db c' Serverroomids) s r' ↔ has_pair (cache_db c Serverroomids) s r'.
Proof.
  intros Hc Hs Hr Hj old Hg Hdb.
  assert (Forall utf8 old) as Ho by (apply seconds_keys; [apply Hc|done]).
  assert (∀ s, s ∈ old ↔ utf8 s ∧ has_pair (cache_db c Roomserverids) r s) as Hin.
  { intros s. apply elem_of_seconds; [apply Hc|done]. }
  rewrite <- writes_app in Hdb. set (gone := filter _ old) in Hdb. set (new := order 19 _) in Hdb.
  assert (Forall utf8 gone) as Hgone by (by apply Forall_filter).
  assert (∀ s, s ∈ new ↔ s ∈ joined ∧ s ∉ old) as Hnew.
  { intros s. unfold new. rewrite order_perm, elem_of_elements. set_solver. }
  assert (Forall utf8 new) as Hutf.
  { rewrite Forall_forall in Hj |- *. intros s [? _]%Hnew. auto. }
  assert (∀ s, s ∈ gone ↔ s ∉ joined ∧ s ∈ old) as Hgo.
  { intros s. unfold gone. rewrite list_elem_of_filter. set_solver. }
  assert (∀ r' s, utf8 r' → utf8 s →
    (has_pair (cache_db c' Roomserverids) r' s ↔ has_pair (cache_db c' Serverroomids) s r')
    ∧ (has_pair (cache_db c' Serverroomids) s r'
       ↔ (r' = r ∧ s ∈ new) ∨ (¬ (r' = r ∧ s ∈ gone) ∧ has_pair (cache_db c Serverroomids) s r'))) as Hrow.
  { intros r' s ??. destruct (has_server_row (cache_db c) r gone new r' s) as [E1 E2]; [done..|].
    rewrite Hdb. split; [|done]. rewrite E1, E2. by rewrite (Hs r' s). }
  split_and!.
  - apply (keeps_wf c); [done|done| |].
    + intros t. rewrite Hdb. apply pair_keys_writes; [apply Hc|]. by apply good_servers.
    + intros t a b ????. unfold has_pair. by rewrite Hdb, other_server_row.
  - intros r' s ??. by apply Hrow.
  - intros s Hus. rewrite (proj2 (Hrow r s Hr Hus)), Hnew, Hgo, Hin, <- (Hs r s) by done.
    destruct (decide (s ∈ joined)), (decide (has_pair (cache_db c Roomserverids) r s)); tauto.
  - intros r' s ???. rewrite (proj2 (Hrow r' s ltac:(done) ltac:(done))). tauto.
Qed.

Context (server_name : string → string).

(** [update_joined_count] makes the counts and the servers of a room those of its
    members: the joined and invited counts are the numbers of joined and invited users
    (saturated at 64 bits), the servers of the room are exactly those of its joined users,
    in both tables, the servers of other rooms are as before, and nobody's membership
    changes. *)
Theorem update_joined_count_spec c A r :
  cache_wf c A → servers_wf c → utf8 r → (∀ u, utf8 u → utf8 (server_name u)) →
  ∃ c' joined invited,
    update_joined_count server_name c r = Ok c' ∧ cache_wf c' A ∧ servers_wf c'
    ∧ room_members c r = Ok joined ∧ room_joined_count c' r = Ok (count_u64 (length joined))
    ∧ room_members_invited c r = Ok invited ∧ room_invited_count c' r = Ok (count_u64 (length invited))
    ∧ (∀ s, utf8 s → has_pair (cache_db c' Serverroomids) s r
         ↔ ∃ u, utf8 u ∧ A !! (u, r) = Some Joined ∧ server_name u = s)
    ∧ ∀ r' s, utf8 r' → utf8 s → r' ≠ r →
        has_pair (cache_db c' Serverroomids) s r' ↔ has_pair (cache_db c Serverroomids) s r'.
Proof.
  intros Hc Hs Hr Hname. unfold update_joined_count, room_members, room_members_invited, room_members_knocked.
  destruct (room_scan c A Joined r Hc Hr) as (joined & Hj & _ & _ & Huj & Hinj).
  destruct (room_scan c A Invited r Hc Hr) as (invited & Hi & _ & _ & _ & _).
  destruct (room_scan c A Knocked r Hc Hr) as (knocked & Hk & _ & _ & _ & _).
  cbn [room_table] in Hj, Hi, Hk. rewrite Hj, Hi, Hk. cbn [mbind outcome_bind]. cbv zeta.
  fold (count_writes r (count_u64 (length joined)) (count_u64 (length invited)) (count_u64 (length knocked))).
  set (ws := count_writes _ _ _ _). destruct (count_writes_wf c A r (count_u64 (length joined))
    (count_u64 (length invited)) (count_u64 (length knocked)) Hc Hs Hr) as [Hc1 Hs1]. fold ws in Hc1, Hs1.
  unfold room_servers. rewrite scan_pairs_spec. cbn [mbind outcome_bind].
  rewrite remove_servers_writes by (apply seconds_NoDup; [apply Hc1|done]). cbn [mbind outcome_bind].
  rewrite add_servers_writes. cbn [mbind outcome_bind].
  match goal with |- ∃ c' _ _, Ok ?x = _ ∧ _ => set (c' := x) end.
  destruct (servers_updated (cache_writes c ws) A r (server_name <$> joined) c') as (Hc' & Hs' & Hsv & Hrest); [done..| |done|done|].
  { apply Forall_fmap. eapply Forall_impl; [exact Huj|]. intros u Hu. by apply Hname. }
  assert (∀ t, t ≠ Roomserverids → t ≠ Serverroomids → room_count c' t r = room_count (cache_writes c ws) t r) as Hcount.
  { intros t ??. unfold room_count, c'. do 2 f_equal. cbn [clear_room with_cache cache_db].
    by rewrite <- writes_app, other_server_row. }
  exists c', joined, invited. unfold room_joined_count, room_invited_count. split_and!; try done.
  - rewrite (Hcount RoomidJoinedcount) by done. by apply count_written.
  - rewrite (Hcount RoomidInvitedcount) by done. by apply count_written.
  - intros s Hus. rewrite Hsv, list_elem_of_fmap by done. setoid_rewrite Hinj. naive_solver.
Qed.
End counts.

Local Open Scope Z_scope.

Module StateCacheDemo.
Abbreviation C := (Cache (DB := gmap bytes bytes)).

Definition cache0 : C :=
  mkCache (globals fresh_short) (λ _, store_empty) (λ _, store_empty) (λ _, store_empty) store_empty store_empty ∅.
Lemma empty_pair a b : ¬ has_pair (store_empty : gmap bytes bytes) a b.
Proof. intros [v Hv]. by rewrite map_get_empty in Hv. Qed.
Lemma cache0_wf : cache_wf cache0 ∅.
Proof.
  split; [by vm_compute|by vm_compute|intros t; apply pair_keys_empty|..]; intros; rewrite lookup_empty;
    (split; [by intros ?%empty_pair|done]).
Qed.

(** "\@a:b.example" joins a room. *)
Definition alice : string := "@a:b.example".
Definition room : string := "!r:b".
Definition joined_places : Places := {[(alice, room) := Joined]}.
Definition cache1 : C := match mark_as_joined cache0 alice room with Ok c => c | _ => cache0 end.
Lemma cache1_wf : cache_wf cache1 joined_places.
Proof.
  destruct (mark_as_joined_wf cache0 ∅ alice room cache0_wf) as (c' & Hc & Hw); [by vm_compute..|].
  unfold cache1. rewrite Hc. exact Hw.
Qed.
Lemma cache1_servers : servers_wf cache1.
Proof. intros r s _ _. split; by intros ?%empty_pair. Qed.

Definition never_local (u : string) : bool := false.
Definition no_list (b : bytes) : option (list string) := None.
Definition no_level (b : bytes) (s : string) : option FilterLevel := None.

Lemma membership_changes_witness :
  ∃ c', mark_as_knocked cache1 "@c:d" room [] = Ok c'
    ∧ cache_wf c' (<[("@c:d", room) := Knocked]> joined_places).
Proof.
  destruct (membership_changes never_local false "l" "p" no_list no_level cache1 joined_places "@c:d" room [] [] "@s:b" None)
    as (_ & _ & Hk & _); [apply cache1_wf|by vm_compute..|]. exact Hk.
Defined.

Lemma membership_queries_witness : user_membership cache1 alice room = Ok (Some Join).
Proof.
  destruct (membership_queries cache1 joined_places alice room) as (_ & Hm & _); [apply cache1_wf|by vm_compute..|].
  unfold joined_places in Hm. rewrite lookup_singleton_eq in Hm. exact Hm.
Defined.

(** The room of "\@a:b.example" is listed for "\@a:b". *)
Lemma rooms_joined_spec_witness : room ∈ rooms_joined cache1 "@a:b".
Proof.
  apply (rooms_joined_spec cache1 joined_places "@a:b" room); [apply cache1_wf|by vm_compute|].
  split; [by vm_compute|]. exists alice. split; [by vm_compute|]. split; [by vm_compute|]. apply lookup_singleton_eq.
Defined.

#[local] Instance in_order : Schedule := {| order _ _ l := l; order_perm _ _ l := reflexivity l |}.
Definition home (u : string) : string := "b.example".
Lemma update_joined_count_spec_witness :
  ∃ c', update_joined_count home cache1 room = Ok c' ∧ has_pair (cache_db c' Serverroomids) "b.example" room.
Proof.
  destruct (update_joined_count_spec home cache1 joined_places room) as (c' & j & i & Hc & _ & _ & _ & _ & _ & _ & Hs & _);
    [apply cache1_wf|apply cache1_servers|by vm_compute|intros; by vm_compute|].
  exists c'. split; [done|]. apply Hs; [by vm_compute|]. exists alice. split; [by vm_compute|].
  split; [apply lookup_singleton_eq|done].
Defined.

(** Once joined, left and forgotten: the membership that is reported is a ban. *)
Example forgotten_is_banned :
  (c ← mark_as_once_joined cache1 alice room;
   c ← mark_as_left never_local false c alice room [];
   c ← forget c room alice; user_membership c alice room) = Ok (Some Ban).
Proof. by vm_compute. Qed.

(** The rows of those who once joined have keys (user, room): a scan by room finds none. *)
Example once_joined_not_found :
  (c ← mark_as_once_joined cache1 alice room; room_useroncejoined c room) = Ok [].
Proof. by vm_compute. Qed.

(** Servers to reach a room through: every addition forgets those before it but one. *)
Example invite_via_forgets :
  (c ← add_servers_invite_via cache1 room (bytes_of_string <$> ["a.example"; "b.example"]);
   c ← add_servers_invite_via c room (bytes_of_string <$> ["c.example"]);
   servers_invite_via c room) = Ok [bytes_of_string "c.example"].
Proof. by vm_compute. Qed.
End StateCacheDemo.
