(* ===== verification/UserDevices.v ===== *)
(** * Devices and tokens of users

    Models the part of [src/service/users/mod.rs] about devices, their access tokens and
    metadata, their removal and the log of changed keys, with the reads of
    [dehydrated_device.rs]; keys and events are in UserKeys.  The state is that of the state
    cache, which has the tables of users and the counter; JSON texts are [serde_json]'s. *)

From S2P Require Import Prelude Bytes DbMap DbSer DbScan Tables Short ShortProps AccountData Users StateCache.

Local Open Scope Z_scope.

(** [ruma::api::client::device::Device]. *)
Record Device := mkDevice {
  device_id : string;
  display_name : option string;
  last_seen_ip : option string;
  last_seen_ts : option Z;
}.

Record DehydratedDevice := mkDehydratedDevice {
  dehydrated_id : string;
  device_data : bytes;
}.

(** A request to store a dehydrated device; keys are JSON texts under their ids. *)
Record DehydratedRequest := mkDehydratedRequest {
  request_device_id : string;
  initial_device_display_name : option string;
  request_device_data : bytes;
  device_keys : bytes;
  one_time_keys : list (string * bytes);
}.

Section devices.
Context {DB : Type} `{Store DB}.
Implicit Types (c : Cache (DB := DB)) (user_id device_id token : string).

(** Tokens of application services, rooms with encryption, and the JSON texts of devices,
    dehydrated devices and ids of keys; [read_raw] accepts the texts [Raw] accepts. *)
Context (appservice_token : string → bool) (is_encrypted_room : string → bool).
Context (device_text : Device → bytes) (read_device : bytes → option Device).
Context (dehydrated_text : DehydratedDevice → bytes) (read_dehydrated : bytes → option DehydratedDevice).
Context (key_id_text : string → bytes) (read_key_id : bytes → option string) (key_algorithm : string → option string).
Context (read_raw : bytes → option bytes).

(** ** Rows *)

Definition user_writes c (ws : list (Write UserTable)) : Cache := with_users c (writes (user_tables c) ws).
Definition user_get c (t : UserTable) (k : bytes) : option bytes := map_get (user_tables c t) k.
Definition user_qry c (t : UserTable) (key : Value) : outcome UserError (option bytes) := qry (user_tables c t) key.
Definition user_key (key : Value) : outcome UserError bytes := must (serialize None key).
Definition text_of (v : outcome SerdeError Value) : option string :=
  match v with Ok (VStr s) => Some (string_of_bytes s) | _ => None end.
Definition get_user_text (o : option bytes) : outcome UserError string :=
  string_of_bytes <$> user_db (deserialized_str o).

(** [increment] of a row: the next number, from one. *)
Definition increment_row c (t : UserTable) user_id : Cache :=
  let k := bytes_of_string user_id in user_writes c [Insert t k (increment (user_get c t k))].

(** ** Changes of keys *)

Fixpoint mark_rooms c (rooms : list string) (count : Z) user_id : outcome UserError Cache :=
  match rooms with
  | [] => Ok c
  | room :: rooms =>
      key ← user_key (VTuple [VStr (bytes_of_string room); VU64 count]);
      mark_rooms (user_writes c [Insert KeychangeidUserid key (bytes_of_string user_id)]) rooms count user_id
  end.
Definition mark_device_key_update c user_id : outcome UserError Cache :=
  let '(count, g) := next_count (cache_globals c) in
  let c := with_cache c g (cache_db c) in
  let rooms := filter (λ r, is_encrypted_room r = true) (rooms_joined c user_id) in
  mark_rooms c (rooms ++ [user_id]) count user_id.

Definition read_change (kv : KeyVal) : option (string * Z * string) :=
  match from_slice (STuple [SStr; SU64]) kv.1, text_of (from_slice SStr kv.2) with
  | Ok (VTuple [VStr a; VU64 n]), Some u => Some (string_of_bytes a, n, u)
  | _, _ => None
  end.
Definition sat_succ (z : Z) : Z := if bool_decide (z = u64_max) then z else z + 1.
Definition keys_changed_user_or_room c (user_or_room_id : string) (from to : option Z)
    : outcome UserError (list (string * Z)) :=
  start ← user_key (VTuple [VStr (bytes_of_string user_or_room_id); VU64 (sat_succ (default 0 from))]);
  let to := default u64_max to in
  let rows := omap read_change (raw_stream_from (user_tables c KeychangeidUserid) start) in
  let rows := take_while (λ row : string * Z * string, row.1.1 = user_or_room_id ∧ row.1.2 ≤ to) rows in
  Ok ((λ row : string * Z * string, (row.2, row.1.2)) <$> rows).
Definition keys_changed c user_id (from to : option Z) : outcome UserError (list string) :=
  let users (l : list (string * Z)) := l.*1 in
  l ← keys_changed_user_or_room c user_id from to; Ok (users l).
Definition room_keys_changed c room_id (from to : option Z) := keys_changed_user_or_room c room_id from to.

(** ** Devices and their tokens *)

Definition get_device_metadata c user_id device_id : outcome UserError Device :=
  r ← user_qry c UserdeviceidMetadata (pair_value user_id device_id); ok_or NoDevice (r ≫= read_device).
Definition get_token c user_id device_id : outcome UserError string :=
  r ← user_qry c UserdeviceidToken (pair_value user_id device_id); get_user_text r.

(** The user and the device of an access token. *)
Definition find_from_token c token : outcome UserError (string * string) :=
  v ← user_db (deserialized (STuple [SStr; SStr]) (user_get c TokenUserdeviceid (bytes_of_string token)));
  match v with
  | VTuple [VStr u; VStr d] => Ok (string_of_bytes u, string_of_bytes d)
  | _ => Panic
  end.

(** The first of the random texts that is no token yet; [fuel] of them are drawn. *)
Fixpoint generate_unique_token c (random_string : nat → string) (fuel i : nat) : option string :=
  match fuel with
  | O => None
  | S fuel =>
      let token := random_string i in
      if appservice_token token then generate_unique_token c random_string fuel (S i)
      else if bool_decide (is_Some (user_get c TokenUserdeviceid (bytes_of_string token)))
           then generate_unique_token c random_string fuel (S i)
           else Some token
  end.

Definition set_token c user_id device_id token : outcome UserError Cache :=
  metadata ← user_qry c UserdeviceidMetadata (pair_value user_id device_id);
  match metadata with
  | None => Err NoDevice
  | Some _ =>
      if appservice_token token then Err AppserviceToken
      else
        old ← user_qry c UserdeviceidToken (pair_value user_id device_id);
        key ← user_key (pair_value user_id device_id);
        let token := bytes_of_string token in
        Ok (user_writes c
          ((match old with Some old_token => [Remove TokenUserdeviceid old_token] | None => [] end)
           ++ [Insert UserdeviceidToken key token; Insert TokenUserdeviceid token key]))
  end.

Definition create_device c user_id device_id token (initial_device_display_name client_ip : option string) (now : Z)
    : outcome UserError Cache :=
  if negb (exists_user (user_tables c) user_id) then Err NoSuchUser
  else
    let val := mkDevice device_id initial_device_display_name client_ip (Some now) in
    let c := increment_row c UseridDevicelistversion user_id in
    key ← user_key (pair_value user_id device_id);
    set_token (user_writes c [Insert UserdeviceidMetadata key (device_text val)]) user_id device_id token.

Definition all_device_ids c user_id : outcome UserError (list string) :=
  let seconds (l : list (outcome SerdeError Value)) := omap read_second l in
  l ← keys_prefix (STuple [SIgnore; SStr]) (user_tables c UserdeviceidMetadata)
        (VTuple [VStr (bytes_of_string user_id); VInterfix]);
  Ok (seconds l).
Definition all_devices_metadata c user_id : outcome UserError (list Device) :=
  let devices (l : list KeyVal) := omap (λ kv : KeyVal, read_device kv.2) l in
  l ← stream_prefix_raw (user_tables c UserdeviceidMetadata) (VTuple [VStr (bytes_of_string user_id); VInterfix]);
  Ok (devices l).

(** *** Dehydrated devices *)

Definition get_dehydrated_device c user_id : outcome UserError DehydratedDevice :=
  ok_or NotDehydrated (user_get c UseridDehydrateddevice (bytes_of_string user_id) ≫= read_dehydrated).
Definition get_dehydrated_device_id c user_id : outcome UserError string :=
  d ← get_dehydrated_device c user_id; Ok (dehydrated_id d).
Definition remove_dehydrated_device c user_id (maybe_device_id : option string) : outcome UserError (string * Cache) :=
  match get_dehydrated_device_id c user_id with
  | Ok device_id =>
      if match maybe_device_id with Some d => bool_decide (d ≠ device_id) | None => false end
      then Err NotDehydrated
      else Ok (device_id, user_writes c [Remove UseridDehydrateddevice (bytes_of_string user_id)])
  | _ => Err NotDehydrated
  end.

(** *** Removal *)

Definition remove_device c user_id device_id : outcome UserError Cache :=
  let c := match remove_dehydrated_device c user_id (Some device_id) with Ok (_, c) => c | _ => c end in
  old ← user_qry c UserdeviceidToken (pair_value user_id device_id);
  key ← user_key (pair_value user_id device_id);
  let c := match old with
           | Some old_token => user_writes c [Remove UserdeviceidToken key; Remove TokenUserdeviceid old_token]
           | None => c
           end in
  events ← keys_prefix_raw (user_tables c TodeviceidEvents)
             (VTuple [VStr (bytes_of_string user_id); VStr (bytes_of_string device_id); VInterfix]);
  let c := user_writes c ((λ k, Remove TodeviceidEvents k) <$> events) in
  let c := increment_row c UseridDevicelistversion user_id in
  mark_device_key_update (user_writes c [Remove UserdeviceidMetadata key]) user_id.

Fixpoint remove_devices c user_id (devices : list string) : outcome UserError Cache :=
  match devices with
  | [] => Ok c
  | device_id :: devices => c ← remove_device c user_id device_id; remove_devices c user_id devices
  end.

Context (ldap : bool) (hash_password : string → option string).

(** All devices go, and the password is set to the empty text. *)
Definition deactivate_account c user_id : outcome UserError Cache :=
  devices ← all_device_ids c user_id;
  c ← remove_devices c user_id devices;
  db ← set_password ldap hash_password (user_tables c) user_id None;
  Ok (with_users c db).

(** *** Metadata of devices *)

Definition update_device_metadata_no_increment c user_id device_id (device : Device) : outcome UserError Cache :=
  key ← user_key (pair_value user_id device_id);
  Ok (user_writes c [Insert UserdeviceidMetadata key (device_text device)]).
Definition update_device_metadata c user_id device_id (device : Device) : outcome UserError Cache :=
  update_device_metadata_no_increment (increment_row c UseridDevicelistversion user_id) user_id device_id device.
(** At most every ten seconds. *)
Definition update_device_last_seen c user_id (device_id : option string) (ip : string) (now : Z)
    : outcome UserError Cache :=
  match device_id with
  | None => Ok c
  | Some device_id =>
      match get_device_metadata c user_id device_id with
      | Ok d =>
          if match last_seen_ts d with Some prev => bool_decide (Z.max 0 (now - prev) < 10000) | None => false end
          then Ok c
          else update_device_metadata_no_increment c user_id device_id
                 (mkDevice (UserDevices.device_id d) (display_name d) (Some ip) (Some now))
      | Err _ => Ok c
      | Panic => Panic
      end
  end.
Definition get_devicelist_version c user_id : outcome UserError Z :=
  user_db (deserialized_u64 (user_get c UseridDevicelistversion (bytes_of_string user_id))).
End devices.
