(* ===== verification/UserKeys.v ===== *)
(** * Keys, events and short-lived tokens of users

    Models the part of [src/service/users/mod.rs] about one-time keys, device and
    cross-signing keys, events sent to devices, OpenID and login tokens, filters and profile
    keys, and the storing of a dehydrated device ([dehydrated_device.rs]). *)

From S2P Require Import Prelude Bytes DbMap DbSer DbScan Tables Short ShortProps AccountData Users StateCache UserDevices.

Local Open Scope Z_scope.

Section keys.
Context {DB : Type} `{Store DB}.
Implicit Types (c : Cache (DB := DB)) (user_id device_id token : string).

Context (appservice_token : string → bool) (is_encrypted_room : string → bool).
Context (device_text : Device → bytes) (read_device : bytes → option Device).
Context (dehydrated_text : DehydratedDevice → bytes) (read_dehydrated : bytes → option DehydratedDevice).
(** [serde_json] on ids of keys; [key_algorithm] is ruma's reading of such an id. *)
Context (key_id_text : string → bytes) (read_key_id : bytes → option string) (key_algorithm : string → option string).
Context (read_json : bytes → option bytes).

Local Abbreviation mark_device_key_update := (mark_device_key_update is_encrypted_room).

Definition quote : byte := x22.

(** ** One-time keys *)

Definition one_time_prefix user_id device_id : bytes :=
  bytes_of_string user_id ++ [SEP] ++ bytes_of_string device_id ++ [SEP].

Definition add_one_time_key c user_id device_id (one_time_key_key : string) (one_time_key_value : bytes)
    : outcome UserError Cache :=
  metadata ← user_qry c UserdeviceidMetadata (pair_value user_id device_id);
  match metadata with
  | None => Err NoDevice
  | Some _ =>
      let key := one_time_prefix user_id device_id ++ key_id_text one_time_key_key in
      let c := user_writes c [Insert OnetimekeyidOnetimekeys key one_time_key_value] in
      let '(count, g) := next_count (cache_globals c) in
      let c := with_cache c g (cache_db c) in
      Ok (user_writes c [Insert UseridLastonetimekeyupdate (bytes_of_string user_id) (u64_be count)])
  end.
Definition last_one_time_keys_update c user_id : Z :=
  match deserialized_u64 (user_get c UseridLastonetimekeyupdate (bytes_of_string user_id)) with
  | Ok n => n
  | _ => 0
  end.

(** [key.rsplit(0xFF).next()]: what follows the last separator. *)
Definition last_record (k : bytes) : bytes := reverse (take_while (λ b, b ≠ SEP) (reverse k)).

(** The first key of an algorithm is removed and handed out; a row that cannot be read
    panics after its removal. *)
Definition take_one_time_key c user_id device_id (key_algorithm : string)
    : Cache * outcome UserError (string * bytes) :=
  let '(count, g) := next_count (cache_globals c) in
  let c := with_cache c g (cache_db c) in
  let c := user_writes c [Insert UseridLastonetimekeyupdate (bytes_of_string user_id) (u64_be count)] in
  let prefix := one_time_prefix user_id device_id ++ quote :: bytes_of_string key_algorithm ++ bytes_of_string ":" in
  match raw_stream_prefix (user_tables c OnetimekeyidOnetimekeys) prefix with
  | (key, val) :: _ =>
      (user_writes c [Remove OnetimekeyidOnetimekeys key],
       match read_key_id (last_record key), read_json val with
       | Some id, Some val => Ok (id, val)
       | _, _ => Panic
       end)
  | [] => (c, Err NoOneTimeKey)
  end.

(** [UInt] of [js_int] stops at 2^53 - 1. *)
Definition count_one (counts : gmap string Z) (algorithm : string) : gmap string Z :=
  <[algorithm := Z.min (default 0 (counts !! algorithm) + 1) (2 ^ 53 - 1)]> counts.

(** [Unquoted]: a text that starts and ends with a quote; the slice between them. *)
Definition is_quoted (s : bytes) : bool := bool_decide (head s = Some quote) && bool_decide (last s = Some quote).
Definition unquote_infallible (s : bytes) : bytes :=
  let stripped := match s with b :: s' => if bool_decide (b = quote) then s' else s | [] => s end in
  match last stripped with
  | Some b => if bool_decide (b = quote) then removelast stripped else s
  | None => s
  end.
Definition read_unquoted (k : bytes) : option bytes :=
  match from_slice (STuple [SIgnore; SIgnore; SStr]) k with
  | Ok (VTuple [_; _; VStr s]) => if is_quoted s then Some (unquote_infallible s) else None
  | _ => None
  end.
Fixpoint count_keys (counts : gmap string Z) (ids : list bytes) : outcome UserError (gmap string Z) :=
  match ids with
  | [] => Ok counts
  | id :: ids => algorithm ← expect (key_algorithm (string_of_bytes id)); count_keys (count_one counts algorithm) ids
  end.
(** The prefix of the scan has no separator after the device. *)
Definition count_one_time_keys c user_id device_id : outcome UserError (gmap string Z) :=
  let ids (rows : list KeyVal) := omap (λ kv : KeyVal, read_unquoted kv.1) rows in
  rows ← stream_prefix_raw (user_tables c OnetimekeyidOnetimekeys) (pair_value user_id device_id);
  count_keys ∅ (ids rows).

(** ** Keys of devices and users *)

Definition add_device_keys c user_id device_id (device_keys : bytes) : outcome UserError Cache :=
  key ← user_key (pair_value user_id device_id);
  mark_device_key_update (user_writes c [Insert KeyidKey key device_keys]) user_id.
Definition get_device_keys c user_id device_id : outcome UserError bytes :=
  r ← user_qry c KeyidKey (pair_value user_id device_id); ok_or NoDevice (r ≫= read_json).

(** The ids of the keys in a cross-signing key, if its text can be read. *)
Context (signing_key_ids : bytes → option (list string)).

(** Exactly one key. *)
Definition single_key (key : bytes) : outcome UserError string :=
  match signing_key_ids key with
  | Some [id] => Ok id
  | _ => Err InvalidKey
  end.
Definition parse_master_key user_id (master_key : bytes) : outcome UserError bytes :=
  id ← single_key master_key; Ok (bytes_of_string user_id ++ SEP :: bytes_of_string id).
Definition parse_user_signing_key (user_signing_key : bytes) : outcome UserError string := single_key user_signing_key.

Definition add_master_key c user_id (master_key : bytes) : outcome UserError Cache :=
  key ← parse_master_key user_id master_key;
  Ok (user_writes c [Insert KeyidKey key master_key; Insert UseridMasterkeyid (bytes_of_string user_id) key]).
Definition add_self_signing_key c user_id (self_signing_key : bytes) : outcome UserError Cache :=
  id ← single_key self_signing_key;
  let key := bytes_of_string user_id ++ SEP :: bytes_of_string id in
  Ok (user_writes c [Insert KeyidKey key self_signing_key; Insert UseridSelfsigningkeyid (bytes_of_string user_id) key]).
Definition add_user_signing_key c user_id (user_signing_key : bytes) : outcome UserError Cache :=
  id ← parse_user_signing_key user_signing_key;
  key ← user_key (pair_value user_id id);
  Ok (user_writes c [Insert KeyidKey key user_signing_key; Insert UseridUsersigningkeyid (bytes_of_string user_id) key]).

Definition if_some {A} (o : option A) c (f : Cache → A → outcome UserError Cache) : Cache * outcome UserError unit :=
  match o with
  | Some a => match f c a with Ok c' => (c', Ok tt) | Err e => (c, Err e) | Panic => (c, Panic) end
  | None => (c, Ok tt)
  end.
(** The keys before the one that is refused stay. *)
Definition add_cross_signing_keys c user_id (master_key self_signing_key user_signing_key : option bytes)
    (notify : bool) : Cache * outcome UserError unit :=
  let '(c, r) := if_some master_key c (λ c, add_master_key c user_id) in
  match r with
  | Ok _ =>
      let '(c, r) := if_some self_signing_key c (λ c, add_self_signing_key c user_id) in
      match r with
      | Ok _ =>
          let '(c, r) := if_some user_signing_key c (λ c, add_user_signing_key c user_id) in
          match r with
          | Ok _ => if notify then if_some (Some tt) c (λ c _, mark_device_key_update c user_id) else (c, Ok tt)
          | _ => (c, r)
          end
      | _ => (c, r)
      end
  | _ => (c, r)
  end.
Definition get_user_signing_key c user_id : outcome UserError bytes :=
  ok_or NoDevice (user_get c UseridUsersigningkeyid (bytes_of_string user_id)
                  ≫= λ key_id, user_get c KeyidKey key_id ≫= read_json).

(** ** Storing a dehydrated device *)

Fixpoint add_one_time_keys c user_id device_id (keys : list (string * bytes)) : outcome UserError Cache :=
  match keys with
  | [] => Ok c
  | (k, v) :: keys => c ← add_one_time_key c user_id device_id k v; add_one_time_keys c user_id device_id keys
  end.
(** The device is created with an empty access token. *)
Definition set_dehydrated_device c user_id (request : DehydratedRequest) (now : Z) : outcome UserError Cache :=
  if negb (exists_user (user_tables c) user_id) then Panic
  else
    let device := request_device_id request in
    c ← match get_dehydrated_device_id read_dehydrated c user_id with
        | Ok existing_id => remove_device is_encrypted_room read_dehydrated c user_id existing_id
        | _ => match get_device_metadata read_device c user_id device with
               | Ok _ => Err HydratedDevice
               | _ => Ok c
               end
        end;
    c ← create_device appservice_token device_text c user_id device "" (initial_device_display_name request) None now;
    let c := user_writes c [Insert UseridDehydrateddevice (bytes_of_string user_id)
               (dehydrated_text (mkDehydratedDevice device (request_device_data request)))] in
    c ← add_device_keys c user_id device (device_keys request);
    add_one_time_keys c user_id device (one_time_keys request).

(** ** Events to devices *)

(** The JSON text of type, sender and content. *)
Context {Json : Type} (event_text : string → string → Json → bytes).

Definition add_to_device_event c (sender target_user_id target_device_id event_type : string) (content : Json)
    : outcome UserError Cache :=
  let '(count, g) := next_count (cache_globals c) in
  let c := with_cache c g (cache_db c) in
  key ← user_key (VTuple [VStr (bytes_of_string target_user_id); VStr (bytes_of_string target_device_id); VU64 count]);
  Ok (user_writes c [Insert TodeviceidEvents key (event_text event_type sender content)]).

Definition read_to_device_key (k : bytes) : option (string * string * Z) :=
  match from_slice (STuple [SStr; SStr; SU64]) k with
  | Ok (VTuple [VStr u; VStr d; VU64 n]) => Some (string_of_bytes u, string_of_bytes d, n)
  | _ => None
  end.
Definition read_to_device (kv : KeyVal) : option (string * string * Z * bytes) :=
  match read_to_device_key kv.1, read_json kv.2 with
  | Some key, Some event => Some (key, event)
  | _, _ => None
  end.
Definition get_to_device_events c user_id device_id (since to : option Z) : outcome UserError (list (Z * bytes)) :=
  let since := match since with Some since => sat_succ since | None => 0 end in
  from ← user_key (VTuple [VStr (bytes_of_string user_id); VStr (bytes_of_string device_id); VU64 since]);
  let rows := omap read_to_device (raw_stream_from (user_tables c TodeviceidEvents) from) in
  let rows := take_while (λ row : string * string * Z * bytes,
    user_id = row.1.1.1 ∧ device_id = row.1.1.2 ∧ match to with Some to => bool_decide (row.1.2 ≤ to) | None => true end = true) rows in
  Ok ((λ row : string * string * Z * bytes, (row.1.2, row.2)) <$> rows).

Fixpoint delete_events c (keys : list (string * string * Z)) : outcome UserError Cache :=
  match keys with
  | [] => Ok c
  | (u, d, n) :: keys =>
      key ← user_key (VTuple [VStr (bytes_of_string u); VStr (bytes_of_string d); VU64 n]);
      delete_events (user_writes c [Remove TodeviceidEvents key]) keys
  end.
(** Backwards from the last event to be removed. *)
Definition remove_to_device_events c user_id device_id (until : option Z) : outcome UserError Cache :=
  from ← user_key (VTuple [VStr (bytes_of_string user_id); VStr (bytes_of_string device_id); VU64 (default u64_max until)]);
  let rows := omap (λ kv : KeyVal, read_to_device_key kv.1) (rev_raw_stream_from (user_tables c TodeviceidEvents) from) in
  delete_events c (take_while (λ k : string * string * Z, user_id = k.1.1 ∧ device_id = k.1.2) rows).

(** ** Filters and profile keys *)

Definition create_filter c user_id (filter_id : string) (filter : bytes) : outcome UserError Cache :=
  key ← user_key (pair_value user_id filter_id); Ok (user_writes c [Insert UserfilteridFilter key filter]).
Definition get_filter c user_id (filter_id : string) : outcome UserError bytes :=
  r ← user_qry c UserfilteridFilter (pair_value user_id filter_id); ok_or NoDevice (r ≫= read_json).
Definition profile_key c user_id (profile_key : string) : outcome UserError bytes :=
  r ← user_qry c UseridprofilekeyValue (pair_value user_id profile_key); ok_or NoDevice (r ≫= read_json).
Definition set_profile_key c user_id (profile_key : string) (profile_key_value : option bytes) : outcome UserError Cache :=
  key ← user_key (pair_value user_id profile_key);
  Ok (user_writes c [match profile_key_value with
                     | Some value => Insert UseridprofilekeyValue key value
                     | None => Remove UseridprofilekeyValue key
                     end]).
Definition all_profile_keys c user_id : outcome UserError (list (string * bytes)) :=
  let read (l : list KeyVal) := omap (λ kv : KeyVal,
    k ← read_second (from_slice (STuple [SIgnore; SStr]) kv.1); v ← read_json kv.2; Some (k, v)) l in
  l ← stream_prefix_raw (user_tables c UseridprofilekeyValue) (VTuple [VStr (bytes_of_string user_id); VInterfix]);
  Ok (read l).

(** ** OpenID and login tokens *)

Context (openid_token_ttl login_token_ttl : Z) (is_user_id : string → bool).

Definition create_openid_token c user_id token (now : Z) : Cache * Z :=
  let expires_at := u64_saturate (now + u64_saturate (openid_token_ttl * 1000)) in
  (user_writes c [Insert OpenidtokenExpiresatuserid (bytes_of_string token) (u64_be expires_at ++ bytes_of_string user_id)],
   openid_token_ttl).
(** An expired token is removed; a valid one stays. *)
Definition find_from_openid_token c token (now : Z) : Cache * outcome UserError string :=
  match user_get c OpenidtokenExpiresatuserid (bytes_of_string token) with
  | None => (c, Err Unauthorized)
  | Some value =>
      if bool_decide (length value < 8)%nat then (c, Panic)
      else
        let expires_at := be_value (take 8 value) in
        if bool_decide (expires_at < now)
        then (user_writes c [Remove OpenidtokenExpiresatuserid (bytes_of_string token)], Err Unauthorized)
        else (c, if utf8_valid (drop 8 value) then
                   let user := string_of_bytes (drop 8 value) in
                   if is_user_id user then Ok user else Err BadUserId
                 else Err BadUserId)
  end.

Definition create_login_token c user_id token (now : Z) : outcome UserError (Cache * Z) :=
  let expires_at := u64_saturate (now + login_token_ttl) in
  value ← user_key (VTuple [VU64 expires_at; VStr (bytes_of_string user_id)]);
  Ok (user_writes c [Insert LogintokenExpiresatuserid (bytes_of_string token) value], login_token_ttl).
(** A login token is removed when it is used. *)
Definition find_from_login_token c token (now : Z) : Cache * outcome UserError string :=
  match user_get c LogintokenExpiresatuserid (bytes_of_string token) with
  | None => (c, Err TokenForbidden)
  | Some value =>
      match user_db (deserialized (STuple [SU64; SStr]) (Some value)) with
      | Ok (VTuple [VU64 expires_at; VStr user_id]) =>
          let c := user_writes c [Remove LogintokenExpiresatuserid (bytes_of_string token)] in
          if bool_decide (expires_at < now) then (c, Err TokenForbidden) else (c, Ok (string_of_bytes user_id))
      | Ok _ | Panic => (c, Panic)
      | Err e => (c, Err e)
      end
  end.
End keys.
