(* ===== verification/UserDevicesProps.v ===== *)
(** * What the devices of users promise

    The abstract state is a map from (user, device) to the access token of the device.  The
    two token tables are each other's inverse on it but for the empty token, which every
    dehydrated device has and which leads to the last of them at most; so any other token
    identifies one device.  Operations on devices are updates of the map. *)

From S2P Require Import Prelude Bytes DbMap DbSer DbScan Tables Short ShortProps AccountData Users StateCache UserDevices.

Local Open Scope Z_scope.

Abbreviation Tokens := (gmap (string * string) string).

Section tokens.
Context {DB : Type} `{Store DB}.
Implicit Types (c : Cache (DB := DB)) (S : Tokens) (u d : string) (token : string).

Record tokens_wf c S : Prop := {
  tw_names : ∀ u d t, S !! (u, d) = Some t → utf8 u ∧ utf8 d ∧ has_pair (user_tables c UserdeviceidMetadata) u d;
  tw_metadata : pair_keys (user_tables c UserdeviceidMetadata);
  tw_device : ∀ u d, utf8 u → utf8 d →
    user_get c UserdeviceidToken (pair_key u d) = bytes_of_string <$> S !! (u, d);
  tw_token : ∀ t k, user_get c TokenUserdeviceid (bytes_of_string t) = Some k → ∃ u d, k = pair_key u d ∧ S !! (u, d) = Some t;
  tw_found : ∀ u d t, S !! (u, d) = Some t → t ≠ EmptyString →
    user_get c TokenUserdeviceid (bytes_of_string t) = Some (pair_key u d);
}.

(** A token belongs to one device, unless it is empty. *)
Lemma tokens_inj c S x y t : tokens_wf c S → S !! x = Some t → S !! y = Some t → t ≠ EmptyString → x = y.
Proof.
  intros Hc. destruct x as [u d], y as [u' d']. intros Hx Hy Ht.
  pose proof (tw_found c S Hc _ _ _ Hx Ht) as E. rewrite (tw_found c S Hc _ _ _ Hy Ht) in E.
  destruct (tw_names c S Hc _ _ _ Hx) as (? & ? & _), (tw_names c S Hc _ _ _ Hy) as (? & ? & _).
  injection E as E. by apply pair_key_inj in E as [-> ->].
Qed.

Lemma tokens_wf_frame c c' S :
  tokens_wf c S → user_tables c' UserdeviceidToken = user_tables c UserdeviceidToken →
  user_tables c' TokenUserdeviceid = user_tables c TokenUserdeviceid →
  user_tables c' UserdeviceidMetadata = user_tables c UserdeviceidMetadata → tokens_wf c' S.
Proof. intros [] E1 E2 E3. split; unfold user_get in *; rewrite ?E1, ?E2, ?E3; done. Qed.

(** ** Rows *)

Lemma user_get_writes c ws (t : UserTable) k : user_get (user_writes c ws) t k = default (user_get c t k) (written ws t k).
Proof. apply get_writes. Qed.
Lemma user_writes_ne c ws (t : UserTable) :
  Forall (λ w, match w with Insert t' _ _ | Remove t' _ => t' ≠ t end) ws →
  user_tables (user_writes c ws) t = user_tables c t.
Proof.
  unfold user_writes, writes. cbn [user_tables with_users]. generalize (user_tables c). intros db Hw. revert db.
  induction Hw as [|w ws Hw _ IH]; intros db; [done|]. cbn. rewrite IH.
  destruct w; cbn; by rewrite set_table_ne.
Qed.
Lemma user_key_pair u d : user_key (pair_value u d) = Ok (pair_key u d).
Proof. unfold user_key. by rewrite serialize_pair. Qed.
Lemma user_qry_pair c (t : UserTable) u d : user_qry c t (pair_value u d) = Ok (user_get c t (pair_key u d)).
Proof. unfold user_qry, qry, bqry. by rewrite serialize_pair. Qed.

(** Announcing new keys writes nothing but the change log and the counter. *)
Definition count_key (a : string) (n : Z) : bytes := bytes_of_string a ++ SEP :: u64_be n.
Lemma serialize_count a n : serialize None (VTuple [VStr (bytes_of_string a); VU64 n]) = Ok (count_key a n).
Proof. unfold count_key. cbn. by rewrite <- (assoc_L (++)). Qed.

Lemma mark_rooms_frame c rooms n u :
  ∃ c', mark_rooms c rooms n u = Ok c' ∧ ∀ t, t ≠ KeychangeidUserid → user_tables c' t = user_tables c t.
Proof.
  revert c. induction rooms as [|r rooms IH]; intros c; [by eexists|]. cbn [mark_rooms].
  unfold user_key. rewrite serialize_count. cbn [must mbind outcome_bind].
  edestruct IH as (c' & -> & Hc'). exists c'. split; [done|]. intros t Ht. rewrite Hc' by done.
  apply user_writes_ne. other_tables.
Qed.

(** ** Tokens *)

(** The device found is the one of the row of the token. *)
Lemma token_row_device c S t u d :
  tokens_wf c S → find_from_token c t = Ok (u, d) ↔ utf8 u ∧ utf8 d ∧ user_get c TokenUserdeviceid (bytes_of_string t) = Some (pair_key u d).
Proof.
  intros Hc. unfold find_from_token. destruct (user_get c TokenUserdeviceid (bytes_of_string t)) as [k|] eqn:Hk; [|naive_solver].
  apply (tw_token c S Hc) in Hk as (u' & d' & -> & HS).
  destruct (tw_names c S Hc _ _ _ HS) as (Hu & Hd & _). unfold deserialized.
  pose proof (tuple_read [SStr; SStr] (VStr (bytes_of_string u')) [VStr (bytes_of_string d')]
    [VStr (bytes_of_string u'); VStr (bytes_of_string d')]) as Hr.
  unfold tail_bytes in Hr. cbn [fmap list_fmap concat field_bytes] in Hr. rewrite app_nil_r in Hr.
  unfold pair_key. rewrite Hr; [|by repeat constructor|by destruct (bytes_of_string u')].
  cbn [user_db mbind outcome_bind]. rewrite !string_of_bytes_of_string. split; [by intros [= <- <-]|].
  intros (Hu' & Hd' & [= E]). by apply (pair_key_inj u' d' u d) in E as [-> ->].
Qed.

(** A device is found under its own token only; and it is, unless the token is empty. *)
Lemma find_from_token_own c S t u d : tokens_wf c S → find_from_token c t = Ok (u, d) → S !! (u, d) = Some t.
Proof.
  intros Hc. rewrite (token_row_device c S) by done. intros (Hu & Hd & (u' & d' & E & HS)%(tw_token c S Hc)).
  destruct (tw_names c S Hc _ _ _ HS) as (? & ? & _). by apply pair_key_inj in E as [-> ->].
Qed.
Lemma find_from_token_device c S t u d :
  tokens_wf c S → t ≠ EmptyString → find_from_token c t = Ok (u, d) ↔ S !! (u, d) = Some t.
Proof.
  intros Hc Ht. split; [by apply find_from_token_own|]. intros HS. apply (token_row_device c S); [done|].
  destruct (tw_names c S Hc _ _ _ HS) as (? & ? & _). split_and!; [done..|by apply (tw_found c S Hc)].
Qed.

(** The writes of [set_token] and [remove_device] to the token tables. *)
Definition token_writes (old : option bytes) (key : bytes) (new : option bytes) : list (Write UserTable) :=
  let gone := match old with Some old => [Remove TokenUserdeviceid old] | None => [] end in
  match new with
  | Some t => gone ++ [Insert UserdeviceidToken key t; Insert TokenUserdeviceid t key]
  | None => Remove UserdeviceidToken key :: gone
  end.

(** The row of each token after them. *)
Lemma token_written (o : option string) k (new : option string) t' :
  written (token_writes (bytes_of_string <$> o) k (bytes_of_string <$> new)) TokenUserdeviceid (bytes_of_string t')
  = if decide (new = Some t') then Some (Some k) else if decide (o = Some t') then Some None else None.
Proof.
  assert (∀ a, bytes_of_string a = bytes_of_string t' ↔ a = t') as Hinj
    by (intros a; split; [apply bytes_of_string_inj|by intros ->]).
  unfold token_writes. destruct o as [t0|], new as [t1|]; cbn; repeat case_decide; rewrite ?Hinj in *; congruence.
Qed.

Lemma token_writes_wf c S u d (new : option string) :
  tokens_wf c S → utf8 u → utf8 d → (is_Some new → has_pair (user_tables c UserdeviceidMetadata) u d) →
  (∀ t x, new = Some t → S !! x = Some t → t ≠ EmptyString → x = (u, d)) →
  tokens_wf (user_writes c (token_writes (bytes_of_string <$> S !! (u, d)) (pair_key u d) (bytes_of_string <$> new)))
    (match new with Some t => <[(u, d) := t]> S | None => delete (u, d) S end).
Proof.
  intros Hc Hu Hd Hm Hnew. set (S' := match new with Some t => <[(u, d) := t]> S | None => delete (u, d) S end).
  set (ws := token_writes _ _ _).
  assert (∀ x, S' !! x = if decide (x = (u, d)) then new else S !! x) as HS'.
  { intros x. subst S'. destruct new; case_decide as E; subst; by simplify_map_eq. }
  assert (user_tables (user_writes c ws) UserdeviceidMetadata = user_tables c UserdeviceidMetadata) as Hmeta.
  { apply user_writes_ne. unfold ws, token_writes. destruct (S !! (u, d)), new; cbn; other_tables. }
  split; rewrite ?Hmeta.
  - intros u' d' t'. rewrite HS'. case_decide as E; [|by apply (tw_names c S Hc)].
    injection E as -> ->. intros ->. eauto.
  - apply Hc.
  - intros u' d' Hu' Hd'. rewrite user_get_writes, HS'. rewrite (tw_device c S Hc) by done.
    assert (written ws UserdeviceidToken (pair_key u' d')
      = if decide ((u', d') = (u, d)) then Some (bytes_of_string <$> new) else None) as ->; [|by case_decide].
    unfold ws, token_writes. case_decide as E.
    + injection E as -> ->. destruct (S !! (u, d)), new; cbn; repeat case_decide; naive_solver.
    + assert (pair_key u d ≠ pair_key u' d') by (intros ?%pair_key_inj; naive_solver).
      destruct (S !! (u, d)), new; cbn; repeat case_decide; naive_solver.
  - intros t' k. rewrite user_get_writes. unfold ws. rewrite token_written.
    case_decide as E1; [|case_decide as E2]; cbn; [|done|].
    + intros [= <-]. exists u, d. by rewrite HS', decide_True.
    + intros Hk. destruct (tw_token c S Hc _ _ Hk) as (u' & d' & -> & HSx). exists u', d'. split; [done|].
      rewrite HS'. case_decide as E; [|done]. injection E as -> ->. done.
  - intros u' d' t' HSx Ht. rewrite HS' in HSx. rewrite user_get_writes. unfold ws. rewrite token_written.
    case_decide as E; [injection E as -> ->; by rewrite decide_True|].
    rewrite decide_False by (intros ->; by apply Hnew in HSx).
    rewrite decide_False; [by apply (tw_found c S Hc)|]. intros E2. by destruct (tokens_inj c S (u', d') (u, d) t' Hc HSx E2 Ht).
Qed.

(** ** Removal of devices *)

Definition events_prefix u d : bytes := pair_key u d ++ [SEP].
Lemma serialize_events u d :
  serialize None (VTuple [VStr (bytes_of_string u); VStr (bytes_of_string d); VInterfix]) = Ok (events_prefix u d).
Proof. unfold events_prefix, pair_key. cbn. by rewrite <- !(assoc_L (++)). Qed.

Lemma written_removes (l : list bytes) (t t' : UserTable) k :
  written ((λ k, Remove t k) <$> l) t' k = if decide (t = t' ∧ k ∈ l) then Some None else None.
Proof.
  induction l as [|k' l IH]; [cbn; by rewrite decide_False by set_solver|].
  rewrite fmap_cons. cbn [written written1]. rewrite IH.
  repeat case_decide; subst; rewrite ?elem_of_cons in *; naive_solver.
Qed.

Lemma tokens_wf_metadata c c' S u d :
  tokens_wf c S → user_tables c' UserdeviceidToken = user_tables c UserdeviceidToken →
  user_tables c' TokenUserdeviceid = user_tables c TokenUserdeviceid →
  (∀ k, user_get c' UserdeviceidMetadata k = if decide (k = pair_key u d) then None else user_get c UserdeviceidMetadata k) →
  S !! (u, d) = None → utf8 u → tokens_wf c' S.
Proof.
  intros Hc E1 E2 Hm Hn Hu. split; unfold user_get in *; rewrite ?E1, ?E2; try apply Hc.
  - intros u' d' t HS. destruct (tw_names c S Hc _ _ _ HS) as (? & ? & Hp). split_and!; [done..|].
    unfold has_pair. rewrite Hm, decide_False; [done|]. intros [-> ->]%pair_key_inj; congruence.
  - intros k v. rewrite Hm. case_decide; [done|]. apply (tw_metadata c S Hc).
Qed.

(** What a removed device leaves behind: nothing in the tables about it. *)
Record removed c c' u d : Prop := {
  rm_tables : ∀ t, t ∉ [UserdeviceidToken; TokenUserdeviceid; UserdeviceidMetadata; TodeviceidEvents;
                        UseridDevicelistversion; KeychangeidUserid; UseridDehydrateddevice] →
    user_tables c' t = user_tables c t;
  rm_metadata : ∀ k, user_get c' UserdeviceidMetadata k = if decide (k = pair_key u d) then None else user_get c UserdeviceidMetadata k;
  rm_events : ∀ k, user_get c' TodeviceidEvents k
    = if decide (starts_with k (events_prefix u d)) then None else user_get c TodeviceidEvents k;
}.

End tokens.

Section removal.
Context {DB : Type} `{Store DB}.
Context (is_encrypted_room : string → bool) (read_dehydrated : bytes → option DehydratedDevice).
Implicit Types (c : Cache (DB := DB)) (S : Tokens) (u d : string).

Lemma mark_device_key_update_frame c u :
  ∃ c', mark_device_key_update is_encrypted_room c u = Ok c'
    ∧ ∀ t, t ≠ KeychangeidUserid → user_tables c' t = user_tables c t.
Proof.
  unfold mark_device_key_update. destruct (next_count _) as [n g].
  edestruct mark_rooms_frame as (c' & -> & Hc'). exists c'. split; [done|]. intros t Ht. by rewrite Hc'.
Qed.

Lemma remove_device_wf c S u d :
  tokens_wf c S → utf8 u → utf8 d →
  ∃ c', remove_device is_encrypted_room read_dehydrated c u d = Ok c'
    ∧ tokens_wf c' (delete (u, d) S) ∧ removed c c' u d
    ∧ ∀ t, user_get c' TokenUserdeviceid (bytes_of_string t)
           = if decide (S !! (u, d) = Some t) then None else user_get c TokenUserdeviceid (bytes_of_string t).
Proof.
  intros Hc Hu Hd. unfold remove_device.
  set (c0 := match remove_dehydrated_device _ _ _ _ with Ok (_, c) => c | _ => c end).
  assert (∀ t, t ≠ UseridDehydrateddevice → user_tables c0 t = user_tables c t) as H0.
  { intros t Ht. subst c0. unfold remove_dehydrated_device. destruct (get_dehydrated_device_id _ _ _); [|done..].
    destruct (bool_decide _); [done|]. apply user_writes_ne. other_tables. }
  assert (tokens_wf c0 S) as Hc0 by (apply (tokens_wf_frame c); [done|by apply H0..]).
  rewrite user_qry_pair, user_key_pair. cbn [mbind outcome_bind].
  rewrite (tw_device c0 S Hc0) by done.
  set (c1 := match bytes_of_string <$> S !! (u, d) with Some _ => _ | None => _ end).
  assert (tokens_wf c1 (delete (u, d) S)) as Hc1.
  { subst c1. destruct (S !! (u, d)) as [t|] eqn:HS; cbn [fmap option_fmap option_map].
    - pose proof (token_writes_wf c0 S u d None Hc0 Hu Hd) as Hw. rewrite HS in Hw. apply Hw; [by intros []|done].
    - by rewrite delete_id. }
  assert (∀ t, t ≠ UserdeviceidToken → t ≠ TokenUserdeviceid → user_tables c1 t = user_tables c0 t) as H1.
  { intros t ??. subst c1. destruct (S !! (u, d)); cbn [fmap option_fmap option_map]; [|done].
    apply user_writes_ne. other_tables. }
  unfold keys_prefix_raw. rewrite serialize_events. cbn [must mbind outcome_bind]. cbv zeta.
  set (events := raw_keys_prefix _ _). set (c2 := user_writes c1 _).
  assert (∀ t, t ≠ TodeviceidEvents → user_tables c2 t = user_tables c1 t) as H2.
  { intros t Ht. apply user_writes_ne, Forall_fmap, Forall_forall. congruence. }
  set (c3 := user_writes (increment_row c2 _ u) _).
  assert (∀ t, t ≠ UserdeviceidMetadata → t ≠ UseridDevicelistversion → user_tables c3 t = user_tables c2 t) as H3.
  { intros t ??. unfold c3, increment_row. rewrite !user_writes_ne; [done|other_tables..]. }
  destruct (mark_device_key_update_frame c3 u) as (c' & -> & H4). exists c'. split; [done|].
  assert (∀ k, user_get c' UserdeviceidMetadata k
    = if decide (k = pair_key u d) then None else user_get c UserdeviceidMetadata k) as Hm.
  { intros k. unfold user_get. rewrite H4 by done. unfold c3. fold (user_get (user_writes (increment_row c2 UseridDevicelistversion u)
      [Remove UserdeviceidMetadata (pair_key u d)]) UserdeviceidMetadata k). rewrite user_get_writes. cbn.
    repeat case_decide; try congruence; [done|]. cbn. unfold user_get, increment_row. rewrite user_writes_ne by other_tables.
    by rewrite H2, H1, H0. }
  split; [|split].
  - apply (tokens_wf_metadata c1 _ _ u d); [done|by rewrite H4, H3, H2..| |apply lookup_delete_eq|done].
    intros k. rewrite Hm. unfold user_get. by rewrite H1, H0.
  - split; [|done|].
    + intros t Ht. rewrite !not_elem_of_cons in Ht. destruct Ht as (?&?&?&?&?&?&?&_). by rewrite H4, H3, H2, H1, H0.
    + intros k. unfold user_get. rewrite H4, H3 by done. fold (user_get c2 TodeviceidEvents k). unfold c2.
      rewrite user_get_writes, written_removes. unfold user_get. rewrite H1, H0 by done.
      unfold events. rewrite H1, H0 by done.
      destruct (decide (starts_with k (events_prefix u d))) as [Hk|Hk].
      * destruct (map_get (user_tables c TodeviceidEvents) k) as [v|] eqn:Hv; [|by case_decide].
        rewrite decide_True; [done|]. split; [done|]. apply list_elem_of_fmap. exists (k, v). split; [done|].
        by apply elem_of_raw_stream_prefix.
      * rewrite decide_False; [done|]. intros [_ ([k' v] & -> & [_ Hp]%elem_of_raw_stream_prefix)%list_elem_of_fmap].
        done.
  - intros t. assert (user_get c' TokenUserdeviceid (bytes_of_string t) = user_get c1 TokenUserdeviceid (bytes_of_string t)) as ->
      by (unfold user_get; by rewrite H4, H3, H2).
    assert (user_get c TokenUserdeviceid (bytes_of_string t) = user_get c0 TokenUserdeviceid (bytes_of_string t)) as ->
      by (unfold user_get; by rewrite H0).
    subst c1. destruct (S !! (u, d)) as [t0|] eqn:HS; cbn [fmap option_fmap option_map]; [|by rewrite decide_False].
    rewrite user_get_writes. pose proof (token_written (Some t0) (pair_key u d) None t) as Hw. cbn [fmap option_fmap option_map] in Hw.
    unfold token_writes in Hw. cbn [app] in Hw. rewrite Hw, decide_False by done. by repeat case_decide.
Qed.

(** ** Deactivation *)

Context (ldap : bool) (hash_password : string → option string).

Definition removed_devices c c' u (ds : list string) : Prop :=
  (∀ t, t ∉ [UserdeviceidToken; TokenUserdeviceid; UserdeviceidMetadata; TodeviceidEvents;
             UseridDevicelistversion; KeychangeidUserid; UseridDehydrateddevice] →
    user_tables c' t = user_tables c t)
  ∧ ∀ k, user_get c' TodeviceidEvents k
    = if decide (Exists (λ d, starts_with k (events_prefix u d)) ds) then None else user_get c TodeviceidEvents k.

Lemma remove_devices_wf c S u ds :
  tokens_wf c S → utf8 u → Forall utf8 ds →
  ∃ c', remove_devices is_encrypted_room read_dehydrated c u ds = Ok c'
    ∧ tokens_wf c' (filter (λ x, ¬ (x.1.1 = u ∧ x.1.2 ∈ ds)) S) ∧ removed_devices c c' u ds
    ∧ ∀ t, user_get c' TokenUserdeviceid (bytes_of_string t)
           = if decide (Exists (λ d, S !! (u, d) = Some t) ds) then None else user_get c TokenUserdeviceid (bytes_of_string t).
Proof.
  intros Hc Hu Hds. revert c S Hc. induction Hds as [|d ds Hd _ IH]; intros c S Hc.
  - exists c. split; [done|]. rewrite map_filter_id; [|intros ? ? _; cbn; set_solver]. split; [done|].
    split; [split; [done|]|]; intros k; by rewrite decide_False by by intros ?%Exists_nil.
  - cbn [remove_devices]. destruct (remove_device_wf c S u d Hc Hu Hd) as (c1 & -> & Hc1 & Hr1 & Hrow1).
    cbn [mbind outcome_bind]. destruct (IH c1 _ Hc1) as (c' & -> & Hc' & [Ht He] & Hrow). exists c'. split; [done|]. split; [|split].
    + assert (filter (λ x, ¬ (x.1.1 = u ∧ x.1.2 ∈ d :: ds)) S = filter (λ x, ¬ (x.1.1 = u ∧ x.1.2 ∈ ds)) (delete (u, d) S)) as ->; [|done].
      apply map_eq. intros [u' d']. apply option_eq. intros t. rewrite !map_lookup_filter_Some, lookup_delete_Some. cbn.
      rewrite elem_of_cons. destruct (decide ((u, d) = (u', d'))); naive_solver.
    + split.
      * intros t Hn. rewrite Ht by done. by apply (rm_tables c c1 u d).
      * intros k. rewrite He, (rm_events c c1 u d Hr1).
        repeat case_decide; rewrite ?Exists_cons in *; naive_solver.
    + intros t. rewrite Hrow, Hrow1.
      assert (S !! (u, d) ≠ Some t → Exists (λ d0, delete (u, d) S !! (u, d0) = Some t) ds ↔ Exists (λ d0, S !! (u, d0) = Some t) ds) as Hex.
      { intros Hn. rewrite !Exists_exists. split; intros (d0 & Hin & HS); exists d0; (split; [done|]).
        - by apply lookup_delete_Some in HS as [_ ?].
        - apply lookup_delete_Some. split; [|done]. intros [= ->]. done. }
      destruct (decide (S !! (u, d) = Some t)) as [E|E].
      * rewrite (decide_True (P := Exists _ (d :: ds))) by by left. by repeat case_decide.
      * destruct (decide (Exists (λ d0, delete (u, d) S !! (u, d0) = Some t) ds)) as [Hx|Hx]; rewrite Hex in Hx by done.
        -- by rewrite decide_True by by right.
        -- rewrite decide_False; [done|]. by intros [?|?]%Exists_cons.
Qed.

Lemma all_device_ids_spec c S u :
  tokens_wf c S → utf8 u →
  ∃ ds, all_device_ids c u = Ok ds ∧ Forall utf8 ds ∧ ∀ d t, S !! (u, d) = Some t → d ∈ ds.
Proof.
  intros Hc Hu. unfold all_device_ids, keys_prefix. rewrite serialize_interfix. cbn [must mbind outcome_bind].
  eexists. split; [done|]. change (omap read_second _) with (seconds (user_tables c UserdeviceidMetadata) u).
  split; [apply seconds_keys; [apply Hc|done]|]. intros d t HS.
  destruct (tw_names c S Hc _ _ _ HS) as (_ & ? & ?). apply elem_of_seconds; [apply Hc|done|done].
Qed.

(** C35: [deactivate_account] logs the user out everywhere.  It succeeds; afterwards no
    access token leads to a device of the user, the tokens of other users are as they were,
    and the account counts as deactivated.  The one exception is the empty token, which
    dehydrated devices share: if the user had a device with it, it leads nowhere afterwards. *)
Theorem deactivate_account_spec c S u :
  tokens_wf c S → utf8 u →
  ∃ c', deactivate_account is_encrypted_room read_dehydrated ldap hash_password c u = Ok c'
    ∧ tokens_wf c' (filter (λ x, x.1.1 ≠ u) S)
    ∧ (∀ t d, find_from_token c' t ≠ Ok (u, d))
    ∧ (∀ t u' d, u' ≠ u → find_from_token c' t = Ok (u', d)
                           ↔ find_from_token c t = Ok (u', d) ∧ ¬ (t = EmptyString ∧ ∃ d', S !! (u, d') = Some EmptyString))
    ∧ is_deactivated (user_tables c') u = Ok true.
Proof.
  intros Hc Hu. unfold deactivate_account. destruct (all_device_ids_spec c S u Hc Hu) as (ds & -> & Hds & Hin).
  cbn [mbind outcome_bind]. destruct (remove_devices_wf c S u ds Hc Hu Hds) as (c1 & -> & Hc1 & _ & Hrow).
  cbn [mbind outcome_bind]. unfold set_password. rewrite andb_false_r. cbn [andb mbind outcome_bind].
  set (c' := with_users c1 _). exists c'. split; [done|].
  assert (filter (λ x, ¬ (x.1.1 = u ∧ x.1.2 ∈ ds)) S = filter (λ x, x.1.1 ≠ u) S) as HS.
  { apply map_filter_ext. intros [u' d] t HS. cbn. split; [|tauto]. intros Hn ->. apply Hn. eauto. }
  rewrite HS in Hc1.
  assert (tokens_wf c' (filter (λ x, x.1.1 ≠ u) S)) as Hc'.
  { apply (tokens_wf_frame c1); [done|..]; cbn; unfold put_row; by rewrite set_table_ne. }
  split; [done|]. split_and!.
  - intros t d Hf. apply (find_from_token_own c' _ t u d Hc') in Hf. apply map_lookup_filter_Some in Hf. by destruct Hf.
  - intros t u' d Hne. rewrite (token_row_device c' _ t u' d Hc'), (token_row_device c S t u' d Hc).
    assert (user_get c' TokenUserdeviceid (bytes_of_string t) = user_get c1 TokenUserdeviceid (bytes_of_string t)) as ->
      by (unfold user_get; cbn; unfold put_row; by rewrite set_table_ne).
    rewrite Hrow. split.
    + case_decide as Hex; [naive_solver|]. intros Hf. split; [done|]. intros [-> [d' Hd']]. apply Hex, Exists_exists. eauto.
    + intros [Hf Hn]. rewrite decide_False; [done|]. rewrite Exists_exists. intros (d' & _ & Hd').
      destruct (decide (t = EmptyString)) as [->|Ht]; [by apply Hn; eauto|].
      assert (S !! (u', d) = Some t) as HS' by (apply (find_from_token_own c); [done|]; by apply (token_row_device c S)).
      pose proof (tokens_inj c S (u, d') (u', d) t Hc Hd' HS' Ht). congruence.
  - unfold is_deactivated, user_row. cbn. unfold put_row. by rewrite set_table_eq, map_get_insert_eq.
Qed.
End removal.

(** ** New tokens *)

Section new_tokens.
Context {DB : Type} `{Store DB} (appservice_token : string → bool).
Implicit Types (c : Cache (DB := DB)) (S : Tokens) (u d : string) (token : string).

Lemma set_token_wf c S u d t :
  tokens_wf c S → utf8 u → utf8 d → has_pair (user_tables c UserdeviceidMetadata) u d →
  appservice_token t = false → (∀ x, S !! x = Some t → t ≠ EmptyString → x = (u, d)) →
  ∃ c', set_token appservice_token c u d t = Ok c' ∧ tokens_wf c' (<[(u, d) := t]> S).
Proof.
  intros Hc Hu Hd Hm Ha Hf. unfold set_token. rewrite !user_qry_pair, user_key_pair. cbn [mbind outcome_bind].
  destruct Hm as [m Hm]. unfold user_get at 1. rewrite Hm, Ha, (tw_device c S Hc) by done.
  eexists. split; [done|]. assert (has_pair (user_tables c UserdeviceidMetadata) u d) by by exists m.
  pose proof (token_writes_wf c S u d (Some t) Hc Hu Hd) as Hw. cbn in Hw. unfold token_writes in Hw.
  destruct (S !! (u, d)); apply Hw; naive_solver.
Qed.

(** [set_token] gives a device the token: the token then identifies exactly this device,
    the device's former token identifies nobody, and the tokens of all other devices are as
    they were, but for the empty one.  The token must be new, as [generate_unique_token] makes it. *)
Theorem set_token_spec c S u d t :
  tokens_wf c S → utf8 u → utf8 d → has_pair (user_tables c UserdeviceidMetadata) u d →
  appservice_token t = false → (∀ x, S !! x ≠ Some t) → t ≠ EmptyString →
  ∃ c', set_token appservice_token c u d t = Ok c' ∧ tokens_wf c' (<[(u, d) := t]> S)
    ∧ find_from_token c' t = Ok (u, d)
    ∧ (∀ t' x, S !! (u, d) = Some t' → t' ≠ EmptyString → find_from_token c' t' ≠ Ok x)
    ∧ ∀ t' u' d', t' ≠ EmptyString → (u', d') ≠ (u, d) → find_from_token c' t' = Ok (u', d') ↔ find_from_token c t' = Ok (u', d').
Proof.
  intros Hc Hu Hd Hm Ha Hf Ht. destruct (set_token_wf c S u d t) as (c' & Hs & Hc'); [done..|intros x Hx; by destruct (Hf x)|].
  exists c'. split; [done|]. split; [done|]. split_and!.
  - apply (find_from_token_device c' _ t u d Hc' Ht). apply lookup_insert_eq.
  - intros t' [u' d'] HS Ht'. rewrite (find_from_token_device c' _ t' u' d' Hc' Ht').
    destruct (decide ((u, d) = (u', d'))) as [E|E]; [rewrite <- E, lookup_insert_eq; intros [= ->]; by apply (Hf (u, d))|].
    rewrite lookup_insert_ne by done. intros HS'. by apply E, (tokens_inj c S _ _ t').
  - intros t' u' d' Ht' Hne. rewrite (find_from_token_device c' _ t' u' d' Hc' Ht'), (find_from_token_device c S t' u' d' Hc Ht').
    by rewrite lookup_insert_ne by congruence.
Qed.

(** ** Unique tokens *)

(** [generate_unique_token] ends as soon as the generator yields a token in nobody's
    use, with the first such token: if the i-th random text is free, at most i + 1 texts are
    drawn and the result belongs to no device and no application service. *)
Theorem generate_unique_token_terminates c (random : nat → string) (i : nat) :
  appservice_token (random i) = false → user_get c TokenUserdeviceid (bytes_of_string (random i)) = None →
  ∃ j, (j ≤ i)%nat
    ∧ (∀ fuel, (i < fuel)%nat → generate_unique_token appservice_token c random fuel 0 = Some (random j))
    ∧ appservice_token (random j) = false ∧ ∀ x, find_from_token c (random j) ≠ Ok x.
Proof.
  intros Ha Hg.
  assert (∀ n k, (k + n = i)%nat → ∃ j, (k ≤ j ≤ i)%nat
    ∧ (∀ fuel, (n < fuel)%nat → generate_unique_token appservice_token c random fuel k = Some (random j))
    ∧ appservice_token (random j) = false ∧ user_get c TokenUserdeviceid (bytes_of_string (random j)) = None) as Hgen.
  { induction n as [|n IH]; intros k Hk.
    - replace k with i by lia. exists i. split; [lia|]. split; [|done]. intros [|fuel] ?; [lia|]. cbn.
      by rewrite Ha, Hg.
    - destruct (decide (appservice_token (random k) = false ∧ user_get c TokenUserdeviceid (bytes_of_string (random k)) = None)) as [[H1 H2]|Hn].
      + exists k. split; [lia|]. split; [|done]. intros [|fuel] ?; [lia|]. cbn. by rewrite H1, H2.
      + destruct (IH (S k)) as (j & ? & Hj & ? & ?); [lia|]. exists j. split; [lia|]. split; [|done].
        intros [|fuel] ?; [lia|]. cbn. destruct (appservice_token (random k)) eqn:E1; [apply Hj; lia|].
        case_bool_decide as E2; [apply Hj; lia|]. exfalso. apply Hn. split; [done|]. by apply eq_None_not_Some. }
  destruct (Hgen i 0%nat) as (j & ? & Hj & ? & He); [done|]. exists j. split; [lia|]. split; [done|]. split; [done|].
  intros x. unfold find_from_token. by rewrite He.
Qed.
End new_tokens.
