(* ===== verification/UserKeysProps.v ===== *)
(** * What keys, events and short-lived tokens promise

    Events to devices are a queue per device: an abstract map from (user, device, count) to
    the text of an event.  One-time keys and login tokens are handed out once.

    * Users on concrete tables

    A user with one device, on which the theorems about devices, tokens, keys and events
    apply. *)

From S2P Require Import Prelude Bytes DbMap DbSer DbScan DbWindow Tables Short ShortProps AccountData Users StateCache.
From S2P Require Import StateCacheProps UserDevices UserDevicesProps UserKeys.

Local Open Scope Z_scope.

(** ** Events to devices *)

Abbreviation Events := (gmap (string * string * Z) bytes).

Definition device_window (w : string * string) : bytes := events_prefix w.1 w.2.
Definition device_valid (w : string * string) : Prop := utf8 w.1 ∧ utf8 w.2.
Local Abbreviation event_key := (row_key device_window).

Lemma device_window_inj w w' k k' :
  device_valid w → device_valid w' → device_window w ++ k = device_window w' ++ k' → w = w' ∧ k = k'.
Proof.
  destruct w as [u d], w' as [u' d']. unfold device_valid, device_window, events_prefix, pair_key. cbn [fst snd].
  intros [Hu%utf8_no_sep Hd%utf8_no_sep] [Hu'%utf8_no_sep Hd'%utf8_no_sep]. rewrite <- !(assoc_L (++)). cbn [app].
  intros E. apply split_at_sep in E as [<-%bytes_of_string_inj E]; [|done..]. cbn [app] in E.
  by apply split_at_sep in E as [<-%bytes_of_string_inj <-].
Qed.
Lemma serialize_event u d n :
  serialize None (VTuple [VStr (bytes_of_string u); VStr (bytes_of_string d); VU64 n]) = Ok (event_key (u, d) n).
Proof. unfold row_key, device_window, events_prefix, pair_key. cbn. by rewrite <- !(assoc_L (++)). Qed.

Lemma read_event_key w n : device_valid w → is_u64 n → read_to_device_key (event_key w n) = Some (w, n).
Proof.
  destruct w as [u d]. intros [Hu Hd] Hn. cbn [fst snd] in *. unfold read_to_device_key.
  pose proof (tuple_read [SStr; SStr; SU64] (VStr (bytes_of_string u)) [VStr (bytes_of_string d); VU64 n]
    [VStr (bytes_of_string u); VStr (bytes_of_string d); VU64 n]) as Hr.
  unfold tail_bytes in Hr. cbn [fmap list_fmap concat field_bytes] in Hr. rewrite app_nil_r in Hr.
  replace (event_key (u, d) n) with (bytes_of_string u ++ (SEP :: bytes_of_string d) ++ SEP :: be_bytes 8 n).
  - rewrite Hr; [by rewrite !string_of_bytes_of_string|reads_solve|by destruct (bytes_of_string u)].
  - unfold row_key, device_window, events_prefix, pair_key. cbn [fst snd]. by rewrite <- !(assoc_L (++)).
Qed.

Lemma read_event read_json w n v :
  device_valid w → is_u64 n → read_to_device read_json (event_key w n, v) = (λ x, (w, n, x)) <$> read_json v.
Proof. intros. unfold read_to_device. cbn [fst snd]. rewrite read_event_key by done. by destruct (read_json v). Qed.

Section events.
Context {DB : Type} `{Store DB}.
Context (read_json : bytes → option bytes) {Json : Type} (event_text : string → string → Json → bytes).
Implicit Types (c : Cache (DB := DB)) (M : Events) (u d : string) (n : Z).

Record events_wf c M : Prop := {
  ew_counter : is_u64 (counter (cache_globals c));
  ew_names : ∀ w n v, M !! (w, n) = Some v → device_valid w ∧ 0 ≤ n ≤ counter (cache_globals c);
  ew_rows : ∀ k v, user_get c TodeviceidEvents k = Some v ↔ ∃ w n, k = event_key w n ∧ M !! (w, n) = Some v;
}.

Lemma events_u64 c M w n v : events_wf c M → M !! (w, n) = Some v → is_u64 n.
Proof.
  intros Hc HM. destruct (ew_names c M Hc _ _ _ HM) as [_ ?]. pose proof (ew_counter c M Hc). unfold is_u64 in *. lia.
Qed.
Lemma events_keys c M : events_wf c M → window_keys device_window device_valid (user_tables c TodeviceidEvents).
Proof.
  intros Hc k v Hk. apply (ew_rows c M Hc) in Hk as (w & n & -> & HM). exists w, n.
  destruct (ew_names c M Hc _ _ _ HM). eauto using events_u64.
Qed.
Lemma event_row c M w n :
  events_wf c M → device_valid w → is_u64 n → user_get c TodeviceidEvents (event_key w n) = M !! (w, n).
Proof.
  intros Hc Hw Hn. apply option_eq. intros v. rewrite (ew_rows c M Hc). split; [|by eauto].
  intros (w' & n' & E & HM). destruct (ew_names c M Hc _ _ _ HM).
  apply (row_key_inj device_window device_valid device_window_inj) in E as [-> ->]; eauto using events_u64.
Qed.

Lemma add_event_wf c M sender u d ty (content : Json) :
  events_wf c M → utf8 u → utf8 d → counter (cache_globals c) < u64_max →
  let n := counter (cache_globals c) + 1 in
  ∃ c', add_to_device_event event_text c sender u d ty content = Ok c' ∧ M !! (u, d, n) = None
    ∧ events_wf c' (<[(u, d, n) := event_text ty sender content]> M).
Proof.
  intros Hc Hu Hd Hlt n. unfold add_to_device_event. pose proof (ew_counter c M Hc) as Hct.
  rewrite next_count_spec by done. fold n. unfold user_key. rewrite serialize_event. cbn [must mbind outcome_bind].
  assert (is_u64 n) as Hn by (unfold is_u64, u64_max in *; lia).
  eexists. split; [done|]. assert (M !! (u, d, n) = None) as HM.
  { destruct (M !! (u, d, n)) eqn:E; [|done]. destruct (ew_names c M Hc _ _ _ E). unfold n in *. lia. }
  split; [done|]. split; cbn [cache_globals with_cache with_users user_writes counter].
  - done.
  - intros w n' v [[[= <- <-] _]|[_ HM']]%lookup_insert_Some; [split; [done|unfold is_u64 in *; lia]|].
    destruct (ew_names c M Hc _ _ _ HM'). split; [done|]. unfold n. lia.
  - intros k v. rewrite user_get_writes. cbn [written written1]. rewrite decide_True by done.
    case_decide as E; cbn.
    + subst k. split; [intros [= <-]; exists (u, d), n; by rewrite lookup_insert_eq|].
      intros (w & n' & E & HM'). apply lookup_insert_Some in HM' as [[_ ->]|[Hne HM']]; [done|].
      destruct (ew_names c M Hc _ _ _ HM').
      apply (row_key_inj device_window device_valid device_window_inj) in E as [<- <-]; eauto using events_u64; done.
    + change (user_get _ TodeviceidEvents k) with (user_get c TodeviceidEvents k). rewrite (ew_rows c M Hc). split.
      * intros (w & n' & -> & HM'). exists w, n'. split; [done|]. rewrite lookup_insert_ne; [done|]. by intros [= <- <-].
      * intros (w & n' & -> & HM'). apply lookup_insert_Some in HM' as [[[= <- <-] _]|[_ ?]]; [by destruct E|eauto].
Qed.

Lemma user_after_range since : from_option is_u64 True since → is_u64 (match since with Some since => sat_succ since | None => 0 end).
Proof. destruct since as [z|]; cbn; [|done]. unfold sat_succ, is_u64, u64_max. case_bool_decide; lia. Qed.

Lemma get_events_spec c M u d since to :
  events_wf c M → utf8 u → utf8 d → from_option is_u64 True since →
  ∃ l, get_to_device_events read_json c u d since to = Ok l
    ∧ StronglySorted (λ a b, a.1 < b.1) l
    ∧ ∀ n e, (n, e) ∈ l ↔ match since with Some since => sat_succ since | None => 0 end ≤ n
        ∧ from_option (λ to, n ≤ to) True to ∧ ∃ v, M !! (u, d, n) = Some v ∧ read_json v = Some e.
Proof.
  intros Hc Hu Hd Hs%user_after_range. set (first := match since with Some since => sat_succ since | None => 0 end) in *.
  assert (device_valid (u, d)) as Hw by done.
  unfold get_to_device_events. fold first. unfold user_key. rewrite serialize_event. cbn [must mbind outcome_bind].
  eexists. split; [done|].
  match goal with |- context [take_while ?P _] =>
    pose proof (window_forward device_window device_valid read_json (read_to_device read_json) device_window_inj (read_event read_json)
      (user_tables c TodeviceidEvents) (u, d) first P to (events_keys c M Hc) Hw Hs) as Hf end.
  destruct Hf as [Hso Hin].
  { intros [[[u' d'] n] e]. cbn. destruct to as [to|]; cbn; rewrite ?bool_decide_eq_true; naive_solver. }
  split; [revert Hso; by apply sorted_fmap|]. intros n e. rewrite list_elem_of_fmap. split.
  - intros ([[w n'] e'] & [= -> ->] & (-> & Hn & ? & ? & v & Hv & He)%Hin). cbn.
    change (map_get _ _) with (user_get c TodeviceidEvents (event_key (u, d) n')) in Hv.
    rewrite (event_row c M (u, d) _ Hc Hw Hn) in Hv. eauto.
  - intros (? & ? & v & Hv & He). exists (u, d, n, e). split; [done|]. apply Hin. pose proof (events_u64 c M (u, d) n v Hc Hv).
    do 4 (split; [done|]). exists v. split; [|done].
    change (map_get _ _) with (user_get c TodeviceidEvents (event_key (u, d) n)). by rewrite (event_row c M).
Qed.

(** Deleting rows by their keys. *)
Lemma delete_events_rows c keys :
  ∃ c', delete_events c keys = Ok c' ∧ cache_globals c' = cache_globals c
    ∧ ∀ k, user_get c' TodeviceidEvents k
        = if decide (k ∈ (λ x : string * string * Z, event_key x.1 x.2) <$> keys) then None else user_get c TodeviceidEvents k.
Proof.
  revert c. induction keys as [|[[u d] n] keys IH]; intros c; [exists c; repeat split; intros; by rewrite decide_False by set_solver|].
  cbn [delete_events]. unfold user_key. rewrite serialize_event. cbn [must mbind outcome_bind].
  edestruct IH as (c' & -> & Hg & Hk). exists c'. split; [done|]. split; [by rewrite Hg|]. intros k. rewrite Hk, user_get_writes.
  cbn [written written1]. rewrite fmap_cons. cbn [fst snd].
  rewrite (decide_True (P := TodeviceidEvents = TodeviceidEvents)) by done.
  repeat case_decide; cbn; rewrite ?elem_of_cons in *; naive_solver.
Qed.

Lemma remove_events_wf c M u d until :
  events_wf c M → utf8 u → utf8 d → from_option is_u64 True until →
  ∃ c', remove_to_device_events c u d until = Ok c'
    ∧ events_wf c' (filter (λ x, ¬ (x.1.1 = (u, d) ∧ x.1.2 ≤ default u64_max until)) M).
Proof.
  intros Hc Hu Hd Hun. set (last := default u64_max until). assert (is_u64 last) as Hl.
  { unfold last. destruct until; cbn in *; [done|]. unfold is_u64, u64_max. lia. }
  assert (device_valid (u, d)) as Hw by done.
  unfold remove_to_device_events. fold last. unfold user_key. rewrite serialize_event. cbn [must mbind outcome_bind].
  set (P := λ k : string * string * Z, u = k.1.1 ∧ d = k.1.2).
  set (read := λ kv : KeyVal, (λ k : string * string * Z, (k, tt)) <$> read_to_device_key kv.1).
  set (rows := rev_raw_stream_from _ _).
  assert (omap (λ kv : KeyVal, read_to_device_key kv.1) rows = fst <$> omap read rows) as ->.
  { generalize rows. intros l. induction l as [|kv l IH]; [done|]. rewrite !omap_cons. unfold read at 1.
    destruct (read_to_device_key kv.1); cbn; by rewrite IH. }
  rewrite take_while_fmap. set (L := take_while _ (omap read rows)).
  assert (∀ w n x, (w, n, x) ∈ L ↔ w = (u, d) ∧ is_u64 n ∧ n ≤ last
    ∧ ∃ v, map_get (user_tables c TodeviceidEvents) (event_key (u, d) n) = Some v ∧ Some tt = Some x) as HL.
  { apply (window_backward device_window device_valid (λ _, Some tt) read device_window_inj); [|by eapply events_keys|done..|].
    - intros w n v ??. unfold read. cbn [fst]. by rewrite read_event_key.
    - intros [[[u' d'] n] x]. unfold P. cbn. naive_solver. }
  destruct (delete_events_rows c (fst <$> L)) as (c' & -> & Hg & Hk). exists c'. split; [done|].
  assert (∀ w n v, M !! (w, n) = Some v →
    event_key w n ∈ (λ x : string * string * Z, event_key x.1 x.2) <$> (fst <$> L) ↔ w = (u, d) ∧ n ≤ last) as Hin.
  { intros w n v HM. destruct (ew_names c M Hc _ _ _ HM) as [Hvw _]. pose proof (events_u64 c M w n v Hc HM) as Hn.
    rewrite <- list_fmap_compose, list_elem_of_fmap. split.
    - intros ([[w' n'] x] & E & (-> & ? & ? & _)%HL). change (event_key w n = event_key (u, d) n') in E.
      by apply (row_key_inj device_window device_valid device_window_inj) in E as [-> ->].
    - intros [-> Hle]. exists (u, d, n, tt). split; [done|]. apply HL. do 3 (split; [done|]). exists v. split; [|done].
      change (user_get c TodeviceidEvents (event_key (u, d) n) = Some v). by rewrite (event_row c M). }
  split; rewrite ?Hg.
  - apply Hc.
  - intros w n v [HM _]%map_lookup_filter_Some. by apply (ew_names c M Hc _ _ v).
  - intros k v. rewrite Hk. split.
    + case_decide as E; [done|]. intros (w & n & -> & HM)%(ew_rows c M Hc). exists w, n. split; [done|].
      apply map_lookup_filter_Some. split; [done|]. cbn. by rewrite <- (Hin w n v HM).
    + intros (w & n & -> & [HM Hn]%map_lookup_filter_Some). cbn in Hn. rewrite decide_False by by rewrite (Hin w n v HM).
      apply (ew_rows c M Hc). eauto.
Qed.

(** Events to devices are a queue per device.  Adding an event puts it under the next
    count, which no event has; reading gives the readable events of the device after a count
    and up to a bound, in order and nothing else; removal takes exactly the events of the
    device up to the bound, so an event after the acknowledged one is never lost. *)
Theorem to_device_queue c M u d :
  events_wf c M → utf8 u → utf8 d →
  (∀ sender ty (content : Json), counter (cache_globals c) < u64_max →
     let n := counter (cache_globals c) + 1 in
     ∃ c', add_to_device_event event_text c sender u d ty content = Ok c' ∧ M !! (u, d, n) = None
       ∧ events_wf c' (<[(u, d, n) := event_text ty sender content]> M))
  ∧ (∀ since to, from_option is_u64 True since →
     ∃ l, get_to_device_events read_json c u d since to = Ok l
       ∧ StronglySorted (λ a b, a.1 < b.1) l
       ∧ ∀ n e, (n, e) ∈ l ↔ match since with Some since => sat_succ since | None => 0 end ≤ n
           ∧ from_option (λ to, n ≤ to) True to ∧ ∃ v, M !! (u, d, n) = Some v ∧ read_json v = Some e)
  ∧ ∀ until, from_option is_u64 True until →
     ∃ c', remove_to_device_events c u d until = Ok c'
       ∧ events_wf c' (filter (λ x, ¬ (x.1.1 = (u, d) ∧ x.1.2 ≤ default u64_max until)) M).
Proof.
  intros Hc Hu Hd. split; [|split].
  - intros. by apply add_event_wf.
  - intros. by apply get_events_spec.
  - intros. by apply remove_events_wf.
Qed.
End events.

(** ** Tokens *)

Section short_tokens.
Context {DB : Type} `{Store DB}.
Context (openid_token_ttl login_token_ttl : Z) (is_user_id : string → bool).
Implicit Types (c : Cache (DB := DB)) (u t : string) (now : Z).

Lemma login_value u n :
  utf8 u → is_u64 n →
  ∃ v, user_key (VTuple [VU64 n; VStr (bytes_of_string u)]) = Ok v
    ∧ from_slice (STuple [SU64; SStr]) v = Ok (VTuple [VU64 n; VStr (bytes_of_string u)]).
Proof.
  intros Hu Hn. exists (be_bytes 8 n ++ tail_bytes [VStr (bytes_of_string u)]). unfold user_key.
  rewrite (serialize_tuple' [SU64; SStr]) by fits_solve. split; [done|].
  apply (tuple_read [SU64; SStr] (VU64 n) [VStr (bytes_of_string u)]); [reads_solve|by destruct (be_bytes 8 n)].
Qed.

(** A login token is used once.  Until it expires a new token yields its user, after that
    an error; either way the first use removes it, and every further use is refused. *)
Theorem login_token_once c u t now now' :
  utf8 u → 0 ≤ now + login_token_ttl →
  ∃ c1 c2, create_login_token login_token_ttl c u t now = Ok (c1, login_token_ttl)
    ∧ find_from_login_token c1 t now'
      = (c2, if bool_decide (now' ≤ u64_saturate (now + login_token_ttl)) then Ok u else Err TokenForbidden)
    ∧ ∀ now'', find_from_login_token c2 t now'' = (c2, Err TokenForbidden).
Proof.
  intros Hu Hnow. set (n := u64_saturate (now + login_token_ttl)).
  assert (is_u64 n) as Hn by (unfold n, u64_saturate, saturate, is_u64, u64_max; lia).
  destruct (login_value u n Hu Hn) as (v & Hv & Hr). unfold create_login_token. fold n. rewrite Hv. cbn [mbind outcome_bind].
  set (c1 := user_writes c _). exists c1, (user_writes c1 [Remove LogintokenExpiresatuserid (bytes_of_string t)]).
  split; [done|]. split.
  - unfold find_from_login_token at 1, c1 at 1. rewrite user_get_writes. cbn [written written1]. rewrite !decide_True by done.
    cbn [default]. unfold id, deserialized. rewrite Hr. cbn [user_db]. rewrite string_of_bytes_of_string.
    case_bool_decide; case_bool_decide; done || lia.
  - intros now''. unfold find_from_login_token. rewrite user_get_writes. cbn [written written1]. by rewrite !decide_True by done.
Qed.

(** An OpenID token stays until it expires. *)
Lemma openid_token_expires c u t now now' :
  utf8 u → is_user_id u = true →
  let n := u64_saturate (now + u64_saturate (openid_token_ttl * 1000)) in
  let c1 := (create_openid_token openid_token_ttl c u t now).1 in
  find_from_openid_token is_user_id c1 t now'
  = if bool_decide (n < now')
    then (user_writes c1 [Remove OpenidtokenExpiresatuserid (bytes_of_string t)], Err Unauthorized)
    else (c1, Ok u).
Proof.
  intros Hu Hid n c1. assert (is_u64 n) as Hn by (unfold n, u64_saturate, saturate, is_u64, u64_max; lia).
  unfold find_from_openid_token, c1 at 1. unfold create_openid_token. fold n. cbn [fst]. rewrite user_get_writes.
  cbn [written written1]. rewrite !decide_True by done. cbn [default]. unfold id.
  rewrite bool_decide_eq_false_2 by (rewrite length_app, length_u64_be; lia).
  rewrite take_app_length', drop_app_length' by (symmetry; apply length_u64_be).
  assert (be_value (u64_be n) = n) as ->.
  { unfold u64_be. rewrite be_value_bytes. apply Z.mod_small, Hn. }
  case_bool_decide; [done|]. unfold utf8 in Hu. by rewrite Hu, string_of_bytes_of_string, Hid.
Qed.
End short_tokens.

(** ** One-time keys *)

Abbreviation OneTimeKeys := (gmap (string * string * string) bytes).

Section one_time_keys.
Context {DB : Type} `{Store DB}.
(** The text of the id of a key has no separator and is read back. *)
Context (key_id_text : string → bytes) (read_key_id : bytes → option string) (read_json : bytes → option bytes).
Hypothesis key_id_read : ∀ id, utf8 id → read_key_id (key_id_text id) = Some id.
Hypothesis key_id_no_sep : ∀ id, utf8 id → SEP ∉ key_id_text id.
Implicit Types (c : Cache (DB := DB)) (O : OneTimeKeys) (u d id alg : string).

Definition one_time_row (x : string * string * string) : bytes := one_time_prefix x.1.1 x.1.2 ++ key_id_text x.2.

Record one_time_wf c O : Prop := {
  ow_names : ∀ x v, O !! x = Some v → utf8 x.1.1 ∧ utf8 x.1.2 ∧ utf8 x.2 ∧ read_json v = Some v;
  ow_rows : ∀ k v, user_get c OnetimekeyidOnetimekeys k = Some v ↔ ∃ x, k = one_time_row x ∧ O !! x = Some v;
}.

(** The ids of an algorithm. *)
Definition of_algorithm alg id : Prop := starts_with (key_id_text id) (quote :: bytes_of_string alg ++ bytes_of_string ":").

Lemma one_time_row_inj x y :
  utf8 x.1.1 → utf8 x.1.2 → utf8 x.2 → utf8 y.1.1 → utf8 y.1.2 → utf8 y.2 → one_time_row x = one_time_row y → x = y.
Proof.
  destruct x as [[u d] i], y as [[u' d'] i']. cbn [fst snd]. unfold one_time_row, one_time_prefix. cbn [fst snd].
  rewrite <- !(assoc_L (++)). cbn [app].
  intros ?%utf8_no_sep ?%utf8_no_sep ? ?%utf8_no_sep ?%utf8_no_sep ? [<-%bytes_of_string_inj E]%split_at_sep; [|done..].
  apply split_at_sep in E as [<-%bytes_of_string_inj E]; [|done..].
  pose proof (key_id_read i) as Hi. rewrite E, key_id_read in Hi by done. naive_solver.
Qed.
Lemma last_record_row x : utf8 x.2 → last_record (one_time_row x) = key_id_text x.2.
Proof.
  intros Hx.
  unfold last_record, one_time_row, one_time_prefix. rewrite !reverse_app. cbn [reverse rev_append].
  rewrite <- !(assoc_L (++)). change (reverse [SEP]) with [SEP]. cbn [app].
  rewrite record_of_text; [apply reverse_involutive| |done].
  rewrite elem_of_reverse. by apply key_id_no_sep.
Qed.

Lemma starts_with_app p q k : starts_with (p ++ k) (p ++ q) ↔ starts_with k q.
Proof.
  unfold starts_with. rewrite length_app, take_app_add. split; [by intros ?%(inj (p ++.))|by intros ->].
Qed.
Lemma row_starts x u d alg :
  utf8 x.1.1 → utf8 x.1.2 → utf8 u → utf8 d →
  starts_with (one_time_row x) (one_time_prefix u d ++ quote :: bytes_of_string alg ++ bytes_of_string ":")
  ↔ x.1 = (u, d) ∧ of_algorithm alg x.2.
Proof.
  intros Hu' Hd' Hu Hd. destruct x as [[u' d'] i]. cbn [fst snd] in *. split.
  - intros Hs. pose proof Hs as E. apply starts_with_split in E. unfold one_time_row, one_time_prefix in E. cbn [fst snd] in E.
    rewrite <- !(assoc_L (++)) in E. cbn [app] in E.
    apply utf8_no_sep in Hu', Hd', Hu, Hd. apply split_at_sep in E as [->%bytes_of_string_inj E]; [|done..].
    rewrite <- ?(assoc_L (++)) in E. cbn [app] in E. apply split_at_sep in E as [->%bytes_of_string_inj E]; [|done..].
    split; [done|]. unfold one_time_row in Hs. cbn [fst snd] in Hs. by apply starts_with_app in Hs.
  - intros [[= -> ->] Ha]. unfold one_time_row. cbn [fst snd]. by apply starts_with_app.
Qed.

Lemma one_time_frame c c' O :
  (∀ k, user_get c' OnetimekeyidOnetimekeys k = user_get c OnetimekeyidOnetimekeys k) →
  one_time_wf c O → one_time_wf c' O.
Proof. intros E []. split; [done|]. intros k v. by rewrite E. Qed.

Lemma one_time_insert c O u d id v :
  one_time_wf c O → utf8 u → utf8 d → utf8 id → read_json v = Some v →
  one_time_wf (user_writes c [Insert OnetimekeyidOnetimekeys (one_time_row (u, d, id)) v]) (<[(u, d, id) := v]> O).
Proof.
  intros Hc Hu Hd Hid Hv. split.
  - intros x w [[<- <-]|[_ Hx]]%lookup_insert_Some; [done|by apply (ow_names c O Hc)].
  - intros k w. rewrite user_get_writes. cbn [written written1]. rewrite decide_True by done. case_decide as E; cbn.
    + subst k. split; [intros [= <-]; exists (u, d, id); by rewrite lookup_insert_eq|].
      intros (x & E & [[_ ->]|[Hne Hx]]%lookup_insert_Some); [done|]. destruct (ow_names c O Hc _ _ Hx) as (? & ? & ? & _).
      by apply one_time_row_inj in E.
    + rewrite (ow_rows c O Hc). split.
      * intros (x & -> & Hx). exists x. split; [done|]. rewrite lookup_insert_ne; [done|]. by intros <-.
      * intros (x & -> & [[<- _]|[_ ?]]%lookup_insert_Some); [done|eauto].
Qed.
Lemma one_time_delete c O x :
  one_time_wf c O → is_Some (O !! x) →
  one_time_wf (user_writes c [Remove OnetimekeyidOnetimekeys (one_time_row x)]) (delete x O).
Proof.
  intros Hc [v0 Hx0]. destruct (ow_names c O Hc _ _ Hx0) as (? & ? & ? & _). split.
  - intros y w [_ Hy]%lookup_delete_Some. by apply (ow_names c O Hc).
  - intros k w. rewrite user_get_writes. cbn [written written1]. rewrite decide_True by done. case_decide as E; cbn.
    + subst k. split; [done|]. intros (y & E & [Hne Hy]%lookup_delete_Some).
      destruct (ow_names c O Hc _ _ Hy) as (? & ? & ? & _). by apply one_time_row_inj in E.
    + rewrite (ow_rows c O Hc). split; [intros (y & -> & Hy)|intros (y & -> & [_ Hy]%lookup_delete_Some); eauto].
      exists y. split; [done|]. apply lookup_delete_Some. split; [|done]. by intros ->.
Qed.

(** A one-time key is handed out once.  Adding a key to a device with metadata puts it in
    the map from (user, device, id) to keys.  Taking a key of an algorithm gives one the
    device has and removes it from the map, and nothing else; if there is none the answer is
    an error and the map is as it was. *)
Theorem one_time_key_once c O u d alg :
  one_time_wf c O → utf8 u → utf8 d →
  (∀ id v, has_pair (user_tables c UserdeviceidMetadata) u d → utf8 id → read_json v = Some v →
     ∃ c', add_one_time_key key_id_text c u d id v = Ok c' ∧ one_time_wf c' (<[(u, d, id) := v]> O))
  ∧ let '(c', r) := take_one_time_key read_key_id read_json c u d alg in
    match r with
    | Ok (id, v) => O !! (u, d, id) = Some v ∧ of_algorithm alg id ∧ one_time_wf c' (delete (u, d, id) O)
    | Err e => e = NoOneTimeKey ∧ one_time_wf c' O ∧ ∀ id, is_Some (O !! (u, d, id)) → ¬ of_algorithm alg id
    | Panic => False
    end.
Proof.
  intros Hc Hu Hd. split.
  - intros id v [m Hm] Hid Hv. unfold add_one_time_key. rewrite user_qry_pair. cbn [mbind outcome_bind].
    unfold user_get at 1. rewrite Hm. destruct (next_count _) as [n g]. eexists. split; [done|].
    eapply one_time_frame; [|by apply (one_time_insert c O u d id v)]. intros k. rewrite user_get_writes. done.
  - unfold take_one_time_key. destruct (next_count _) as [n g]. set (c1 := user_writes _ [Insert UseridLastonetimekeyupdate _ _]).
    assert (∀ k, user_get c1 OnetimekeyidOnetimekeys k = user_get c OnetimekeyidOnetimekeys k) as Hk1.
    { intros k. unfold c1. by rewrite user_get_writes. }
    assert (one_time_wf c1 O) as Hc1 by by apply (one_time_frame c). clearbody c1.
    set (p := one_time_prefix u d ++ _).
    assert (∀ k v, (k, v) ∈ raw_stream_prefix (user_tables c1 OnetimekeyidOnetimekeys) p
      ↔ ∃ x, k = one_time_row x ∧ O !! x = Some v ∧ x.1 = (u, d) ∧ of_algorithm alg x.2) as Hin.
    { intros k v. rewrite elem_of_raw_stream_prefix. change (map_get _ k) with (user_get c1 OnetimekeyidOnetimekeys k).
      rewrite (ow_rows c1 O Hc1). split.
      - intros [(x & -> & Hx) Hs]. destruct (ow_names c1 O Hc1 _ _ Hx) as (? & ? & _). apply row_starts in Hs; eauto.
      - intros (x & -> & Hx & Hs). destruct (ow_names c1 O Hc1 _ _ Hx) as (? & ? & _). split; [eauto|]. by apply row_starts. }
    destruct (raw_stream_prefix _ p) as [|[k v] l].
    + split; [done|]. split; [done|]. intros id [v Hv] Ha. apply (not_elem_of_nil (one_time_row (u, d, id), v)), Hin.
      by exists (u, d, id).
    + destruct (proj1 (Hin k v)) as ([[u' d'] id] & -> & Hx & [= -> ->] & Ha); [by left|].
      destruct (ow_names c1 O Hc1 _ _ Hx) as (_ & _ & Hid & Hv). cbn [snd] in Hid.
      rewrite last_record_row by done. cbn [snd]. rewrite key_id_read, Hv by done.
      split; [done|]. split; [done|]. by apply one_time_delete.
Qed.
End one_time_keys.

(** ** Dehydrated devices *)

Section dehydrated.
Context {DB : Type} `{Store DB}.
Context (appservice_token : string → bool) (is_encrypted_room : string → bool).
Context (device_text : Device → bytes) (read_device : bytes → option Device).
Context (dehydrated_text : DehydratedDevice → bytes) (read_dehydrated : bytes → option DehydratedDevice).
Context (key_id_text : string → bytes).
Implicit Types (c : Cache (DB := DB)) (u d : string).

Definition token_table c : DB := user_tables c TokenUserdeviceid.

Lemma find_from_token_row c u d t :
  utf8 u → utf8 d → map_get (token_table c) (bytes_of_string t) = Some (pair_key u d) → find_from_token c t = Ok (u, d).
Proof.
  intros Hu Hd Hr. unfold find_from_token. unfold user_get. fold (token_table c). rewrite Hr. unfold deserialized, pair_key.
  pose proof (tuple_read [SStr; SStr] (VStr (bytes_of_string u)) [VStr (bytes_of_string d)]
    [VStr (bytes_of_string u); VStr (bytes_of_string d)]) as Hp.
  unfold tail_bytes in Hp. cbn [fmap list_fmap concat field_bytes] in Hp. rewrite app_nil_r in Hp.
  rewrite Hp; [by cbn; rewrite !string_of_bytes_of_string|by repeat constructor|by destruct (bytes_of_string u)].
Qed.
Lemma set_token_table c u d t c' :
  set_token appservice_token c u d t = Ok c' → map_get (token_table c') (bytes_of_string t) = Some (pair_key u d).
Proof.
  unfold set_token. rewrite !user_qry_pair, user_key_pair. cbn [mbind outcome_bind].
  destruct (user_get c UserdeviceidMetadata _); [|done]. destruct (appservice_token t); [done|].
  intros [= <-]. change (map_get (token_table ?c) ?k) with (user_get c TokenUserdeviceid k). rewrite user_get_writes.
  assert (∀ l, written (l ++ [Insert UserdeviceidToken (pair_key u d) (bytes_of_string t);
    Insert TokenUserdeviceid (bytes_of_string t) (pair_key u d)]) TokenUserdeviceid (bytes_of_string t) = Some (Some (pair_key u d))) as ->; [|done].
  intros ws. induction ws as [|w ws IH]; [cbn; by repeat case_decide|]. rewrite <- app_comm_cons. cbn [written]. by rewrite IH.
Qed.
Lemma add_one_time_keys_tokens c u d keys c' :
  add_one_time_keys key_id_text c u d keys = Ok c' → token_table c' = token_table c.
Proof.
  revert c. induction keys as [|[k v] keys IH]; intros c; [by intros [= <-]|]. cbn [add_one_time_keys].
  unfold add_one_time_key. rewrite user_qry_pair. cbn [mbind outcome_bind].
  destruct (user_get c UserdeviceidMetadata _); [|done]. destruct (next_count _) as [n g]. cbn [mbind outcome_bind].
  intros ->%IH. unfold token_table. rewrite user_writes_ne by other_tables.
  change (user_tables (with_cache ?c _ _)) with (user_tables c). by rewrite user_writes_ne by other_tables.
Qed.

(** The access token of a dehydrated device is the empty text.  Whenever a user stores
    one, the empty token identifies this user and device to [find_from_token]: a request
    with an empty access token is a request of the last user who did. *)
Theorem dehydrated_device_has_empty_token c u (request : DehydratedRequest) now c' :
  utf8 u → utf8 (request_device_id request) →
  set_dehydrated_device appservice_token is_encrypted_room device_text read_device dehydrated_text read_dehydrated
    key_id_text c u request now = Ok c' →
  find_from_token c' "" = Ok (u, request_device_id request).
Proof.
  intros Hu Hd. unfold set_dehydrated_device. destruct (negb _); [done|].
  destruct (match get_dehydrated_device_id _ _ _ with Ok _ => _ | _ => _ end) as [c1| |]; [|done..]. cbn [mbind outcome_bind].
  destruct (create_device _ _ _ _ _ _ _ _ _) as [c2| |] eqn:Hc2; [|done..]. cbn [mbind outcome_bind].
  unfold add_device_keys. rewrite user_key_pair. cbn [mbind outcome_bind].
  match goal with |- context [mark_device_key_update _ ?c3 _] =>
    destruct (mark_device_key_update_frame is_encrypted_room c3 u) as (c4 & -> & H4) end. cbn [mbind outcome_bind].
  intros H5%add_one_time_keys_tokens. apply find_from_token_row; [done..|]. rewrite H5. unfold token_table.
  rewrite H4 by done. rewrite !user_writes_ne by other_tables.
  unfold create_device in Hc2. destruct (negb _); [done|]. rewrite user_key_pair in Hc2. cbn [mbind outcome_bind] in Hc2.
  by apply set_token_table in Hc2.
Qed.
End dehydrated.

Local Open Scope Z_scope.

Module UserDemo.
Abbreviation C := (Cache (DB := gmap bytes bytes)).

Definition user : string := "@u:a".
Definition device : string := "D".
Definition devices0 : C :=
  user_writes StateCacheDemo.cache0
    [Insert UserdeviceidMetadata (pair_key user device) []; Insert UseridPassword (bytes_of_string user) []].
Lemma user_utf8 : utf8 user. Proof. by vm_compute. Qed.
Lemma device_utf8 : utf8 device. Proof. by vm_compute. Qed.
Lemma empty_get k : map_get (store_empty : gmap bytes bytes) k = None.
Proof. apply map_get_empty. Qed.
Lemma devices0_metadata : has_pair (user_tables devices0 UserdeviceidMetadata) user device.
Proof. exists []. change (user_get devices0 UserdeviceidMetadata (pair_key user device) = Some []). by vm_compute. Qed.

Lemma devices0_tokens : tokens_wf devices0 ∅.
Proof.
  split.
  - intros u d t Ht. by rewrite lookup_empty in Ht.
  - apply (pair_keys_insert store_empty); [by vm_compute..|apply pair_keys_empty].
  - intros u d _ _. rewrite lookup_empty. apply (empty_get (pair_key u d)).
  - intros t k Hk. change (map_get (store_empty : gmap bytes bytes) (bytes_of_string t) = Some k) in Hk.
    by rewrite empty_get in Hk.
  - intros u d t Ht. by rewrite lookup_empty in Ht.
Qed.

Definition no_appservice (t : string) : bool := false.
Definition no_encryption (r : string) : bool := false.
Definition no_dehydrated (b : bytes) : option DehydratedDevice := None.

Lemma set_token_spec_witness :
  ∃ c', set_token no_appservice devices0 user device "secret" = Ok c' ∧ find_from_token c' "secret" = Ok (user, device).
Proof.
  destruct (set_token_spec no_appservice devices0 ∅ user device "secret") as (c' & Hs & _ & Hf & _).
  - apply devices0_tokens.
  - apply user_utf8.
  - apply device_utf8.
  - apply devices0_metadata.
  - done.
  - intros x Hx. by rewrite lookup_empty in Hx.
  - discriminate.
  - exists c'. split; [exact Hs|exact Hf].
Defined.

(** The user logs in and is deactivated. *)
Definition devices1 : C := match set_token no_appservice devices0 user device "secret" with Ok c => c | _ => devices0 end.
Lemma devices1_tokens : tokens_wf devices1 {[(user, device) := "secret"]}.
Proof.
  destruct (set_token_wf no_appservice devices0 ∅ user device "secret") as (c' & Hs & Hw);
    [apply devices0_tokens|apply user_utf8|apply device_utf8|apply devices0_metadata|done| |].
  - intros x Hx. by rewrite lookup_empty in Hx.
  - unfold devices1. rewrite Hs. exact Hw.
Qed.
Definition hash (p : string) : option string := Some p.
Lemma deactivate_account_spec_witness :
  ∃ c', deactivate_account no_encryption no_dehydrated false hash devices1 user = Ok c'
    ∧ ∀ t d, find_from_token c' t ≠ Ok (user, d).
Proof.
  destruct (deactivate_account_spec no_encryption no_dehydrated false hash devices1 {[(user, device) := "secret"]} user)
    as (c' & Hd & _ & Hf & _); [apply devices1_tokens|apply user_utf8|]. exists c'. split; [exact Hd|exact Hf].
Defined.

(** The second text is the first that is free. *)
Definition texts (i : nat) : string := match i with O => "secret" | _ => "other" end.
Lemma generate_unique_token_terminates_witness :
  ∃ j, (j ≤ 1)%nat ∧ generate_unique_token no_appservice devices1 texts 2 0 = Some (texts j).
Proof.
  destruct (generate_unique_token_terminates no_appservice devices1 texts 1) as (j & Hj & Hg & _);
    [done|by vm_compute|]. exists j. split; [done|]. apply Hg. lia.
Defined.

(** ** Events to devices *)

Definition text_json (b : bytes) : option bytes := Some b.
Definition event_json (ty sender content : string) : bytes := bytes_of_string content.
Lemma devices0_events : events_wf devices0 ∅.
Proof.
  split; [by vm_compute| |].
  - intros w n v Hv. by rewrite lookup_empty in Hv.
  - intros k v. split; [|intros (w & n & _ & Hv); by rewrite lookup_empty in Hv].
    intros Hk. change (map_get (store_empty : gmap bytes bytes) k = Some v) in Hk. by rewrite empty_get in Hk.
Qed.
Lemma to_device_queue_witness :
  ∃ c', add_to_device_event event_json devices0 user user device "m.dummy" "hello" = Ok c'
    ∧ events_wf c' (<[(user, device, 1) := bytes_of_string "hello"]> ∅).
Proof.
  destruct (to_device_queue text_json event_json devices0 ∅ user device) as (Ha & _);
    [apply devices0_events|apply user_utf8|apply device_utf8|].
  destruct (Ha user "m.dummy" "hello") as (c' & Hc & _ & Hw); [by vm_compute|]. exists c'. split; [exact Hc|exact Hw].
Defined.

(** ** Tokens and keys *)

Lemma login_token_once_witness :
  ∃ c1 c2, create_login_token 1000 devices0 user "login" 5 = Ok (c1, 1000)
    ∧ find_from_login_token c1 "login" 6 = (c2, Ok user)
    ∧ find_from_login_token c2 "login" 7 = (c2, Err TokenForbidden).
Proof.
  destruct (login_token_once 1000 devices0 user "login" 5 6) as (c1 & c2 & Hc & Hf & Hn); [apply user_utf8|lia|].
  exists c1, c2. split; [exact Hc|]. split; [exact Hf|apply Hn].
Defined.

(** Ids of keys in quotes. *)
Definition quoted (id : string) : bytes := quote :: bytes_of_string id ++ [quote].
Definition unquoted (b : bytes) : option string := Some (string_of_bytes (removelast (tail b))).
Lemma unquoted_quoted id : utf8 id → unquoted (quoted id) = Some id.
Proof.
  intros _. unfold unquoted, quoted. cbn [tail]. rewrite removelast_app by done. cbn [removelast].
  by rewrite app_nil_r, string_of_bytes_of_string.
Qed.
Lemma quoted_no_sep id : utf8 id → SEP ∉ quoted id.
Proof.
  intros Hid%utf8_no_sep. unfold quoted. rewrite elem_of_cons, elem_of_app, list_elem_of_singleton. by intros [?|[?|?]].
Qed.
Lemma devices0_keys : one_time_wf quoted text_json devices0 ∅.
Proof.
  split; [intros x v Hv; by rewrite lookup_empty in Hv|]. intros k v. split; [|intros (x & _ & Hv); by rewrite lookup_empty in Hv].
  intros Hk. change (map_get (store_empty : gmap bytes bytes) k = Some v) in Hk. by rewrite empty_get in Hk.
Qed.
Lemma one_time_key_once_witness :
  ∃ c', add_one_time_key quoted devices0 user device "ed:1" (bytes_of_string "{}") = Ok c'
    ∧ one_time_wf quoted text_json c' {[(user, device, "ed:1") := bytes_of_string "{}"]}.
Proof.
  destruct (one_time_key_once quoted unquoted text_json unquoted_quoted quoted_no_sep devices0 ∅ user device "ed") as [Ha _];
    [apply devices0_keys|apply user_utf8|apply device_utf8|].
  destruct (Ha "ed:1" (bytes_of_string "{}") devices0_metadata) as (c' & Hc & Hw); [by vm_compute|done|].
  exists c'. split; [exact Hc|exact Hw].
Defined.

(** A stored dehydrated device is found under the empty token. *)
Definition no_text (d : Device) : bytes := [].
Definition dehydrated_text (d : DehydratedDevice) : bytes := [].
Definition no_device (b : bytes) : option Device := None.
Definition request : DehydratedRequest := mkDehydratedRequest "E" None [] [] [("ed:1", bytes_of_string "{}")].
Definition dehydrated : outcome UserError C :=
  set_dehydrated_device no_appservice no_encryption no_text no_device dehydrated_text no_dehydrated quoted devices0 user request 0.
Definition devices2 : C := match dehydrated with Ok c => c | _ => devices0 end.
Lemma dehydrated_Ok : dehydrated = Ok devices2.
Proof.
  unfold devices2. assert (match dehydrated with Ok _ => true | _ => false end = true) as Hd by by vm_compute.
  destruct dehydrated; [done|discriminate Hd..].
Qed.
Lemma dehydrated_device_has_empty_token_witness : find_from_token devices2 "" = Ok (user, "E").
Proof.
  apply (dehydrated_device_has_empty_token no_appservice no_encryption no_text no_device dehydrated_text no_dehydrated
    quoted devices0 user request 0); [apply user_utf8|by vm_compute|apply dehydrated_Ok].
Defined.

(** The scan that counts the keys of a device has no separator after the device id. *)
Example counts_of_longer_device :
  let c := user_writes devices0 [Insert OnetimekeyidOnetimekeys (one_time_prefix user "DD" ++ quoted "ed:1") []] in
  count_one_time_keys (λ _, Some "ed") c user "D" = Ok {["ed" := 1]}.
Proof. by vm_compute. Qed.
End UserDemo.
