(* ===== verification/DemoText.v ===== *)
(** * A text for every value

    The services take what [serde_json] writes and reads as parameters with the round trip
    as a hypothesis.  Here is one writer and reader for every countable type, at which such
    hypotheses hold: the binary digits of the number of the value. *)

From S2P Require Import Prelude Bytes DbMap.

Fixpoint digits (p : positive) : bytes :=
  match p with xH => [] | xO p => x00 :: digits p | xI p => x01 :: digits p end.
Fixpoint of_digits (b : bytes) : option positive :=
  match b with
  | [] => Some xH
  | x00 :: b => p ← of_digits b; Some (xO p)
  | x01 :: b => p ← of_digits b; Some (xI p)
  | _ => None
  end.
Definition any_text {A} `{Countable A} (a : A) : bytes := digits (encode a).
Definition read_any {A} `{Countable A} (b : bytes) : option A := of_digits b ≫= decode.

Lemma of_digits_digits p : of_digits (digits p) = Some p.
Proof. induction p as [p IH|p IH|]; cbn; by rewrite ?IH. Qed.
Lemma read_any_text {A} `{Countable A} (a : A) : read_any (any_text a) = Some a.
Proof. unfold read_any, any_text. rewrite of_digits_digits. cbn. apply decode_encode. Qed.
