(* ===== verification/RegistrationTokens.v ===== *)
(** * Registration tokens

    Models [src/service/registration_tokens/]: [data.rs] (tokens and their uses in the
    database) and [mod.rs] (validation, use and revocation of tokens of every source).  The
    theorem says how often a token with a limit of uses can be redeemed. *)

From S2P Require Import Prelude Bytes DbMap DbSer DbScan Tables DemoText.

Local Open Scope Z_scope.

(** Times are numbers of nanoseconds, as [SystemTime] compares them. *)
Inductive TokenExpires :=
  | AfterUses (max_uses : Z)
  | AfterTime (expiry_time : Z).

Record DatabaseTokenInfo := mkTokenInfo {
  creator : string;
  uses : Z;
  expires : option TokenExpires;
}.

Definition new_token_info (creator : string) (expires : option TokenExpires) : DatabaseTokenInfo :=
  mkTokenInfo creator 0 expires.

Definition is_valid (now : Z) (info : DatabaseTokenInfo) : bool :=
  match expires info with
  | Some (AfterUses max_uses) => bool_decide (uses info < max_uses)
  | Some (AfterTime expiry_time) => bool_decide (now ≤ expiry_time)
  | None => true
  end.

Inductive ValidTokenSource :=
  | SourceConfig
  | SourceDatabase (info : DatabaseTokenInfo)
  | SourceFirstAccount
  | SourceTokenFile.

Record ValidToken := mkValidToken { token : string; source : ValidTokenSource }.

Inductive RevokeError := RevokeConfig | RevokeFirstAccount | RevokeTokenFile.

Section tokens.
Context {DB : Type} `{Store DB}.
(** [serde_json] on the metadata of a token. *)
Context (info_text : DatabaseTokenInfo → bytes) (read_info : bytes → option DatabaseTokenInfo).

(** The table, the token of the configuration file, the lines of the token file, and the
    token of a server without accounts. *)
Record RegistrationTokens := mkRegistrationTokens {
  registrationtoken_info : DB;
  config_file_token : option string;
  registration_tokens_from_file : list string;
  first_account_token : option string;
}.
Implicit Types (s : RegistrationTokens).

Definition with_info s (db : DB) : RegistrationTokens :=
  mkRegistrationTokens db (config_file_token s) (registration_tokens_from_file s) (first_account_token s).

Definition save_token s (t : string) (info : DatabaseTokenInfo) : RegistrationTokens :=
  with_info s (map_insert (registrationtoken_info s) (bytes_of_string t) (info_text info)).
Definition lookup_token_info s (t : string) : option DatabaseTokenInfo :=
  map_get (registrationtoken_info s) (bytes_of_string t) ≫= read_info.

(** The token is a random text. *)
Definition issue_token s (random : string) (creator : string) (expires : option TokenExpires)
    : RegistrationTokens * (string * DatabaseTokenInfo) :=
  let info := new_token_info creator expires in
  (save_token s random info, (random, info)).

Definition iterate_static_tokens s : list ValidToken :=
  match config_file_token s with Some t => [mkValidToken t SourceConfig] | None => [] end
  ++ ((λ t, mkValidToken t SourceTokenFile) <$> registration_tokens_from_file s).

Definition validate_token s (now : Z) (t : string) : option ValidToken :=
  match first_account_token s with
  | Some first => if bool_decide (first = t) then Some (mkValidToken first SourceFirstAccount) else None
  | None =>
      match find (λ static, bool_decide (token static = t)) (iterate_static_tokens s) with
      | Some static => Some static
      | None =>
          match lookup_token_info s t with
          | Some info => if is_valid now info then Some (mkValidToken t (SourceDatabase info)) else None
          | None => None
          end
      end
  end.

Definition mark_token_as_used s (v : ValidToken) : RegistrationTokens :=
  match source v with
  | SourceDatabase info =>
      save_token s (token v) (mkTokenInfo (creator info) (u64_saturate (uses info + 1)) (expires info))
  | _ => s
  end.

Definition revoke_token s (v : ValidToken) : outcome RevokeError RegistrationTokens :=
  match source v with
  | SourceConfig => Err RevokeConfig
  | SourceDatabase _ => Ok (with_info s (map_remove (registrationtoken_info s) (bytes_of_string (token v))))
  | SourceFirstAccount => Err RevokeFirstAccount
  | SourceTokenFile => Err RevokeTokenFile
  end.

(** The rows that can be read: the valid ones are listed, the others removed. *)
Definition read_token_row (kv : KeyVal) : option (bytes * string * DatabaseTokenInfo) :=
  match from_slice SStr kv.1, read_info kv.2 with
  | Ok (VStr t), Some info => Some (t, string_of_bytes t, info)
  | _, _ => None
  end.
Definition iterate_and_clean_tokens s (now : Z) : list (string * DatabaseTokenInfo) * RegistrationTokens :=
  let rows := omap read_token_row (raw_stream_from (registrationtoken_info s) []) in
  (omap (λ r : bytes * string * DatabaseTokenInfo, if is_valid now r.2 then Some (r.1.2, r.2) else None) rows,
   with_info s (foldl (λ db r, if is_valid now r.2 then db else map_remove db r.1.1) (registrationtoken_info s) rows)).
Definition iterate_tokens s (now : Z) : list ValidToken * RegistrationTokens :=
  match first_account_token s with
  | Some first => ([mkValidToken first SourceFirstAccount], s)
  | None =>
      let '(rows, s') := iterate_and_clean_tokens s now in
      (iterate_static_tokens s ++ ((λ r : string * DatabaseTokenInfo, mkValidToken r.1 (SourceDatabase r.2)) <$> rows), s')
  end.

(** Redeeming a token: the stage of authentication that takes one. *)
Definition redeem s (now : Z) (t : string) : bool * RegistrationTokens :=
  match validate_token s now t with
  | Some v => (true, mark_token_as_used s v)
  | None => (false, s)
  end.
Fixpoint redeem_all s (nows : list Z) (t : string) : list bool * RegistrationTokens :=
  match nows with
  | [] => ([], s)
  | now :: nows => let '(b, s) := redeem s now t in let '(l, s) := redeem_all s nows t in (b :: l, s)
  end.

Hypothesis info_read : ∀ info, read_info (info_text info) = Some info.

Definition not_static s (t : string) : Prop :=
  first_account_token s = None ∧ Forall (λ v, token v ≠ t) (iterate_static_tokens s).

Lemma validate_database s now t :
  not_static s t →
  validate_token s now t
  = match lookup_token_info s t with
    | Some info => if is_valid now info then Some (mkValidToken t (SourceDatabase info)) else None
    | None => None
    end.
Proof.
  intros [Hf Hs]. unfold validate_token. rewrite Hf.
  assert (find (λ static, bool_decide (token static = t)) (iterate_static_tokens s) = None) as ->; [|done].
  induction Hs as [|v l Hv _ IH]; [done|]. cbn. by rewrite bool_decide_eq_false_2.
Qed.
Lemma lookup_saved s t info : lookup_token_info (save_token s t info) t = Some info.
Proof. unfold lookup_token_info, save_token. cbn. rewrite map_get_insert_eq. apply info_read. Qed.

Lemma redeem_uses s nows t c n u :
  not_static s t → lookup_token_info s t = Some (mkTokenInfo c u (Some (AfterUses n))) → 0 ≤ u → n ≤ u64_max →
  (redeem_all s nows t).1 = (λ i : nat, bool_decide (u + Z.of_nat i < n)) <$> List.seq 0%nat (length nows).
Proof.
  revert s u. induction nows as [|now nows IH]; intros s u Hs Hl Hu Hn; [done|].
  cbn [redeem_all]. unfold redeem. rewrite validate_database, Hl by done. cbn [is_valid expires uses]. cbn [length List.seq].
  rewrite fmap_cons, Z.add_0_r. case_bool_decide as Hlt.
  - set (s' := mark_token_as_used s _). specialize (IH s' (u + 1)). destruct (redeem_all s' nows t) as [l s2]. cbn [fst] in *.
    f_equal. rewrite IH; [|done| |lia|done].
    + rewrite <- fmap_S_seq, <- list_fmap_compose. apply list_fmap_ext. intros ? i _. cbn. apply bool_decide_ext. lia.
    + unfold s', mark_token_as_used. cbn [source token]. rewrite lookup_saved. cbn [creator uses expires]. do 2 f_equal.
      unfold u64_saturate, saturate. lia.
  - specialize (IH s u Hs Hl Hu Hn). destruct (redeem_all s nows t) as [l s2]. cbn [fst] in *. f_equal.
    rewrite IH, <- fmap_S_seq, <- list_fmap_compose. apply list_fmap_ext. intros ? i _. cbn. apply bool_decide_ext. lia.
Qed.

(** C34: a registration token issued for a number of uses is accepted exactly that many times:
    of any sequence of attempts to redeem it, the first ones succeed and all others fail. *)
Theorem token_uses_bounded s random admin n (nows : list Z) :
  not_static s random → 0 ≤ n → n ≤ u64_max →
  let s' := (issue_token s random admin (Some (AfterUses n))).1 in
  (redeem_all s' nows random).1 = (λ i : nat, bool_decide (Z.of_nat i < n)) <$> List.seq 0%nat (length nows).
Proof.
  intros Hs Hn Hm s'. exact (redeem_uses s' nows random admin n 0 Hs (lookup_saved _ _ _) (Z.le_refl 0) Hm).
Qed.
End tokens.

Module RegistrationDemo.
Definition no_tokens : RegistrationTokens (DB := gmap bytes bytes) := mkRegistrationTokens ∅ (Some "static") [] None.

Definition tuple_of (i : DatabaseTokenInfo) : string * Z * option (Z + Z) :=
  (creator i, uses i, match expires i with
                      | Some (AfterUses n) => Some (inl n)
                      | Some (AfterTime t) => Some (inr t)
                      | None => None
                      end).
Definition of_tuple (x : string * Z * option (Z + Z)) : DatabaseTokenInfo :=
  mkTokenInfo x.1.1 x.1.2 (match x.2 with
                           | Some (inl n) => Some (AfterUses n)
                           | Some (inr t) => Some (AfterTime t)
                           | None => None
                           end).
Definition info_text (i : DatabaseTokenInfo) : bytes := any_text (tuple_of i).
Definition read_info (b : bytes) : option DatabaseTokenInfo := of_tuple <$> read_any b.
Lemma info_read i : read_info (info_text i) = Some i.
Proof. unfold read_info, info_text. rewrite read_any_text. by destruct i as [? ? [[]|]]. Qed.

Lemma token_uses_bounded_witness :
  (redeem_all info_text read_info (issue_token info_text no_tokens "abc" "@admin:a" (Some (AfterUses 2))).1 [1; 2; 3] "abc").1
  = [true; true; false].
Proof.
  apply (token_uses_bounded info_text read_info info_read no_tokens "abc" "@admin:a" 2 [1; 2; 3]); [|done|done].
  split; [done|]. by repeat constructor.
Defined.
End RegistrationDemo.
