(* ===== verification/Threepid.v ===== *)
(** * Email addresses of users

    Models [src/service/threepid/]: [session.rs] (validation sessions and their tokens) and
    [mod.rs] (sending of validation mails, validation, and the tables that associate
    addresses with accounts).

    * Theorems on email addresses

    The sessions and the secrets that find them stay inverse of each other, so no operation
    panics; the two tables of addresses implement an injective map from accounts to
    addresses; and a token mailed to one address validates another. *)

From S2P Require Import Prelude Bytes DbMap DbSer DbScan Tables Short ShortProps.

Local Open Scope Z_scope.

(** ** Validation sessions *)

Record ValidationToken := mkValidationToken { otp : string; issued_at : Z }.
Inductive ValidationState :=
  | Pending (t : ValidationToken)
  | Validated.
Record ValidationSession := mkValidationSession {
  session_id : string;
  client_secret : string;
  email : string;
  validation_state : ValidationState;
}.

(** One hour, in nanoseconds. *)
Definition MAX_TOKEN_AGE : Z := 3600 * 10 ^ 9.
Definition token_is_valid (now : Z) (t : ValidationToken) : bool :=
  bool_decide (issued_at t ≤ now) && bool_decide (now - issued_at t < MAX_TOKEN_AGE).

Record ValidationSessions := mkValidationSessions {
  sessions : gmap string ValidationSession;
  client_secrets : gmap string string;
}.

(** The id is a random text. *)
Definition create_session_with_token (ss : ValidationSessions) (random_id email client_secret : string)
    (t : ValidationToken) : ValidationSessions * ValidationSession :=
  let session := mkValidationSession random_id client_secret email (Pending t) in
  (mkValidationSessions (<[random_id := session]> (sessions ss)) (<[client_secret := random_id]> (client_secrets ss)),
   session).
Definition get_session (ss : ValidationSessions) (session_id : string) : option ValidationSession :=
  sessions ss !! session_id.
Definition put_session (ss : ValidationSessions) (s : ValidationSession) (state : ValidationState) : ValidationSessions :=
  mkValidationSessions
    (<[session_id s := mkValidationSession (session_id s) (client_secret s) (email s) state]> (sessions ss))
    (client_secrets ss).

Inductive ThreepidError :=
  | LimitExceeded
  | NoSession
  | BadToken
  | NotValidated
  | ThreepidInUse
  | MailerError.

Definition get_session_by_client_secret (ss : ValidationSessions) (client_secret : string)
    : outcome ThreepidError (option ValidationSession) :=
  match client_secrets ss !! client_secret with
  | None => Ok None
  | Some id => s ← expect (sessions ss !! id); Ok (Some s)
  end.
Definition remove_session (ss : ValidationSessions) (session_id : string)
    : outcome ThreepidError (ValidationSessions * ValidationSession) :=
  session ← expect (sessions ss !! session_id);
  _ ← expect (client_secrets ss !! client_secret session);
  Ok (mkValidationSessions (delete session_id (sessions ss)) (delete (client_secret session) (client_secrets ss)), session).

Section threepid.
Context {DB : Type} `{Store DB}.
(** [trim().to_lowercase()] on Unicode, and the validity of an address. *)
Context (normalize_email : string → string) (is_address : string → bool).

(** Sessions, the last send attempt per (secret, address), and the two tables. *)
Record Threepid := mkThreepid {
  validation : ValidationSessions;
  send_attempts : gmap (string * string) Z;
  localpart_email : DB;
  email_localpart : DB;
}.
Implicit Types (t : Threepid).

Definition with_validation t (ss : ValidationSessions) : Threepid :=
  mkThreepid ss (send_attempts t) (localpart_email t) (email_localpart t).
Definition with_attempts t (a : gmap (string * string) Z) : Threepid :=
  mkThreepid (validation t) a (localpart_email t) (email_localpart t).
Definition with_tables t (le el : DB) : Threepid := mkThreepid (validation t) (send_attempts t) le el.

Record ValidationChallenge := mkChallenge { challenge_session : string; challenge_token : option string }.

(** [allowed] is the answer of the rate limiter for the address, [new_token] the token drawn
    (or the fixed one), [random_id] the id drawn for a new session. *)
Definition issue_validation_session t (email client_secret : string) (send_attempt : Z) (fixed allowed : bool)
    (random_id : string) (new_token : ValidationToken) : Threepid * outcome ThreepidError ValidationChallenge :=
  match get_session_by_client_secret (validation t) client_secret with
  | Ok (Some session) =>
      match validation_state session with
      | Validated => (t, Ok (mkChallenge (session_id session) None))
      | Pending _ =>
          if negb fixed && negb allowed then (t, Err LimitExceeded)
          else
            let key := (Threepid.client_secret session, Threepid.email session) in
            let last_send_attempt := default 0 (send_attempts t !! key) in
            if bool_decide (send_attempt ≤ last_send_attempt)
            then (with_attempts t (<[key := last_send_attempt]> (send_attempts t)), Ok (mkChallenge (session_id session) None))
            else
              let t := with_attempts t (<[key := send_attempt]> (send_attempts t)) in
              (with_validation t (put_session (validation t) session (Pending new_token)),
               Ok (mkChallenge (session_id session) (Some (otp new_token))))
      end
  | Ok None =>
      let '(ss, session) := create_session_with_token (validation t) random_id email client_secret new_token in
      (with_validation t ss, Ok (mkChallenge (session_id session) (Some (otp new_token))))
  | Err e => (t, Err e)
  | Panic => (t, Panic)
  end.

(** The mail that goes out is the third component: its recipient and the token in it;
    [mailer] is the answer of the mail server, if one is configured. *)
Definition send_validation_email t (recipient client_secret : string) (send_attempt : Z) (allowed mailer : bool)
    (random_id : string) (new_token : ValidationToken) : Threepid * outcome ThreepidError string * option (string * string) :=
  let '(t, challenge) := issue_validation_session t recipient client_secret send_attempt false allowed random_id new_token in
  match challenge with
  | Ok (mkChallenge session None) => (t, Ok session, None)
  | Ok (mkChallenge session (Some token)) =>
      if mailer then (t, Ok session, Some (recipient, token)) else (t, Err MailerError, None)
  | Err e => (t, Err e, None)
  | Panic => (t, Panic, None)
  end.

(** Review accounts have a fixed code and get no mail. *)
Definition play_review_code_for (play_review : option (list string * string)) (eq_ignore_ascii_case : string → string → bool)
    (email : string) : option string :=
  '(emails, code) ← play_review; if existsb (λ e, eq_ignore_ascii_case e email) emails then Some code else None.
Definition send_validation_code_email t (play_review_code : option string) (recipient client_secret : string)
    (send_attempt : Z) (allowed mailer : bool) (random_id random_otp : string) (now : Z)
    : Threepid * outcome ThreepidError string * option (string * string) :=
  let new_token := mkValidationToken (default random_otp play_review_code) now in
  let fixed := bool_decide (is_Some play_review_code) in
  let '(t, challenge) := issue_validation_session t recipient client_secret send_attempt fixed allowed random_id new_token in
  match challenge with
  | Ok (mkChallenge session None) => (t, Ok session, None)
  | Ok (mkChallenge session (Some token)) =>
      if fixed then (t, Ok session, None)
      else if mailer then (t, Ok session, Some (recipient, token)) else (t, Err MailerError, None)
  | Err e => (t, Err e, None)
  | Panic => (t, Panic, None)
  end.

Definition try_validate_session t (session_id supplied_token : string) (now : Z) : Threepid * outcome ThreepidError unit :=
  match get_session (validation t) session_id with
  | None => (t, Err NoSession)
  | Some session =>
      match validation_state session with
      | Validated => (t, Ok tt)
      | Pending token =>
          if bool_decide (otp token ≠ supplied_token) || negb (token_is_valid now token) then (t, Err BadToken)
          else (with_validation t (put_session (validation t) session Validated), Ok tt)
      end
  end.

Definition consume_valid_session t (session_id client_secret : string) : Threepid * outcome ThreepidError string :=
  match get_session (validation t) session_id with
  | None => (t, Err NoSession)
  | Some session =>
      if bool_decide (Threepid.client_secret session = client_secret)
         && match validation_state session with Validated => true | Pending _ => false end
      then match remove_session (validation t) session_id with
           | Ok (ss, session) => (with_validation t ss, Ok (Threepid.email session))
           | Err e => (t, Err e)
           | Panic => (t, Panic)
           end
      else (t, Err NotValidated)
  end.

(** ** Addresses of accounts *)

Definition text_row (o : option bytes) : option string :=
  match deserialized_str o with Ok b => Some (string_of_bytes b) | _ => None end.

Definition read_email_row (kv : KeyVal) : option (string * string) :=
  match from_slice SStr kv.1, from_slice SStr kv.2 with
  | Ok (VStr l), Ok (VStr e) => Some (string_of_bytes l, string_of_bytes e)
  | _, _ => None
  end.
(** At most two: enough to see that the address is ambiguous. *)
Definition find_localparts_for_normalized_email t (normalized_email : string) : list string :=
  fst <$> take 2 (filter (λ row : string * string, normalize_email row.2 = normalized_email)
                    (omap read_email_row (raw_stream_from (localpart_email t) []))).

(** A missing row of the reverse table is filled in when it is asked for. *)
Definition get_localpart_for_email t (email : string) : Threepid * option string :=
  let normalized_email := normalize_email email in
  match text_row (map_get (email_localpart t) (bytes_of_string normalized_email)) with
  | Some localpart => (t, Some localpart)
  | None =>
      match find_localparts_for_normalized_email t normalized_email with
      | [matching_localpart] =>
          (with_tables t (localpart_email t)
             (map_insert (email_localpart t) (bytes_of_string normalized_email) (bytes_of_string matching_localpart)),
           Some matching_localpart)
      | _ => (t, None)
      end
  end.
Definition get_email_for_localpart t (localpart : string) : option string :=
  e ← text_row (map_get (localpart_email t) (bytes_of_string localpart)); if is_address e then Some e else None.
Definition disassociate_localpart_email t (localpart : string) : Threepid * option string :=
  match get_email_for_localpart t localpart with
  | None => (t, None)
  | Some email =>
      (with_tables t (map_remove (localpart_email t) (bytes_of_string localpart))
         (map_remove (email_localpart t) (bytes_of_string (normalize_email email))), Some email)
  end.
Definition associate_localpart_email t (localpart email : string) : Threepid * outcome ThreepidError unit :=
  let normalized_email := normalize_email email in
  match get_localpart_for_email t normalized_email with
  | (t, Some existing_localpart) =>
      if bool_decide (existing_localpart ≠ localpart) then (t, Err ThreepidInUse) else (t, Ok tt)
  | (t, None) =>
      if existsb (λ l, bool_decide (l ≠ localpart)) (find_localparts_for_normalized_email t normalized_email)
      then (t, Err ThreepidInUse)
      else
        let t := (disassociate_localpart_email t localpart).1 in
        (with_tables t (map_insert (localpart_email t) (bytes_of_string localpart) (bytes_of_string normalized_email))
           (map_insert (email_localpart t) (bytes_of_string normalized_email) (bytes_of_string localpart)), Ok tt)
  end.
End threepid.

Local Open Scope Z_scope.

(** ** Sessions *)

Definition sessions_wf (ss : ValidationSessions) : Prop :=
  (∀ id s, sessions ss !! id = Some s → session_id s = id ∧ client_secrets ss !! client_secret s = Some id)
  ∧ (∀ c id, client_secrets ss !! c = Some id → ∃ s, sessions ss !! id = Some s ∧ client_secret s = c).

Lemma sessions_wf_create ss id e c tok :
  sessions_wf ss → sessions ss !! id = None → client_secrets ss !! c = None →
  sessions_wf (create_session_with_token ss id e c tok).1.
Proof.
  intros [W1 W2] Hid Hc. split; cbn.
  - intros id' s. destruct (decide (id' = id)) as [->|Hne].
    + rewrite lookup_insert_eq. intros [= <-]. cbn. by rewrite lookup_insert_eq.
    + rewrite lookup_insert_ne by done. intros Hs. destruct (W1 _ _ Hs) as [? Hcs].
      rewrite lookup_insert_ne by congruence. done.
  - intros c' id'. destruct (decide (c' = c)) as [->|Hne].
    + rewrite lookup_insert_eq. intros [= <-]. rewrite lookup_insert_eq. by eexists.
    + rewrite lookup_insert_ne by done. intros Hc'. destruct (W2 _ _ Hc') as (s & Hs & ?).
      exists s. rewrite lookup_insert_ne by congruence. done.
Qed.
Lemma sessions_wf_put ss id s st :
  sessions_wf ss → sessions ss !! id = Some s → sessions_wf (put_session ss s st).
Proof.
  intros [W1 W2] Hs. destruct (W1 _ _ Hs) as [Hid Hc]. split; cbn; rewrite Hid.
  - intros id' s'. destruct (decide (id' = id)) as [->|Hne].
    + rewrite lookup_insert_eq. intros [= <-]. done.
    + rewrite lookup_insert_ne by done. apply W1.
  - intros c id' Hc'. destruct (W2 _ _ Hc') as (s' & Hs' & <-). destruct (decide (id' = id)) as [->|Hne].
    + rewrite lookup_insert_eq. eexists. split; [done|]. cbn. congruence.
    + exists s'. by rewrite lookup_insert_ne.
Qed.
Lemma sessions_wf_remove ss id s :
  sessions_wf ss → sessions ss !! id = Some s →
  ∃ ss', remove_session ss id = Ok (ss', s) ∧ sessions_wf ss' ∧ sessions ss' = delete id (sessions ss).
Proof.
  intros [W1 W2] Hs. destruct (W1 _ _ Hs) as [Hid Hc]. unfold remove_session. rewrite Hs. cbn. rewrite Hc. cbn.
  eexists. split; [done|]. split; [|done]. split; cbn.
  - intros id' s' [Hne Hs']%lookup_delete_Some. destruct (W1 _ _ Hs') as [? Hc']. split; [done|].
    apply lookup_delete_Some. split; [|done]. intros E. rewrite E in Hc. congruence.
  - intros c id' [Hne Hc']%lookup_delete_Some. destruct (W2 _ _ Hc') as (s' & Hs' & Es). exists s'. split; [|done].
    apply lookup_delete_Some. split; [|done]. intros <-. congruence.
Qed.
Lemma by_client_secret ss c :
  sessions_wf ss →
  (∃ s, get_session_by_client_secret ss c = Ok (Some s) ∧ sessions ss !! session_id s = Some s ∧ client_secret s = c)
  ∨ (get_session_by_client_secret ss c = Ok None ∧ client_secrets ss !! c = None).
Proof.
  intros [W1 W2]. unfold get_session_by_client_secret. destruct (client_secrets ss !! c) as [id|] eqn:E; [left|by right].
  destruct (W2 _ _ E) as (s & Hs & ?). rewrite Hs. cbn. exists s. by destruct (W1 _ _ Hs) as [-> _].
Qed.

Section sessions.
Context {DB : Type} `{Store DB}.
Implicit Types (t : Threepid (DB := DB)).

Lemma issue_wf t e c n fixed allowed id tok t' r :
  sessions_wf (validation t) → sessions (validation t) !! id = None →
  issue_validation_session t e c n fixed allowed id tok = (t', r) → sessions_wf (validation t') ∧ r ≠ Panic.
Proof.
  intros W Hid. unfold issue_validation_session.
  destruct (by_client_secret _ c W) as [(s & -> & Hs & <-)|[-> Hc]].
  - destruct (validation_state s); [|by intros [= <- <-]]. destruct (negb fixed && negb allowed); [by intros [= <- <-]|].
    case_bool_decide; intros [= <- <-]; [done|]. split; [|done]. cbn. by eapply sessions_wf_put.
  - pose proof (sessions_wf_create _ id e c tok W Hid Hc) as W'.
    destruct (create_session_with_token (validation t) id e c tok) as [ss s]. by intros [= <- <-].
Qed.

(** One request to the service; the id drawn for a new session is not in use. *)
Inductive request :=
  | RequestMail (recipient client_secret : string) (send_attempt : Z) (allowed mailer : bool) (id : string) (tok : ValidationToken)
  | RequestCode (review : option string) (recipient client_secret : string) (send_attempt : Z) (allowed mailer : bool)
      (id otp : string) (now : Z)
  | RequestValidate (id token : string) (now : Z)
  | RequestConsume (id client_secret : string).
Definition serve t (q : request) : Threepid (DB := DB) * outcome ThreepidError string :=
  match q with
  | RequestMail to c n allowed mailer id tok => (send_validation_email t to c n allowed mailer id tok).1
  | RequestCode review to c n allowed mailer id otp now =>
      (send_validation_code_email t review to c n allowed mailer id otp now).1
  | RequestValidate id token now => let '(t, r) := try_validate_session t id token now in (t, (λ _, "") <$> r)
  | RequestConsume id c => consume_valid_session t id c
  end.
Definition draws_fresh t (q : request) : Prop :=
  match q with
  | RequestMail _ _ _ _ _ id _ | RequestCode _ _ _ _ _ _ id _ _ => sessions (validation t) !! id = None
  | _ => True
  end.
Inductive served : Threepid (DB := DB) → list (outcome ThreepidError string) → Threepid (DB := DB) → Prop :=
  | served_nil t : served t [] t
  | served_cons t q t' r rs t'' : draws_fresh t q → serve t q = (t', r) → served t' rs t'' → served t (r :: rs) t''.

Lemma serve_wf t q t' r :
  sessions_wf (validation t) → draws_fresh t q → serve t q = (t', r) → sessions_wf (validation t') ∧ r ≠ Panic.
Proof.
  intros W Hq. destruct q as [to c n allowed mailer id tok|review to c n allowed mailer id otp now|id token now|id c]; cbn in Hq |- *.
  - unfold send_validation_email. destruct (issue_validation_session t to c n false allowed id tok) as [t1 r1] eqn:E.
    apply issue_wf in E as [??]; [|done..]. destruct r1 as [[s [tok'|]]|e|]; [destruct mailer|..]; cbn; by intros [= <- <-].
  - unfold send_validation_code_email. destruct (issue_validation_session t to c n _ allowed id _) as [t1 r1] eqn:E.
    apply issue_wf in E as [??]; [|done..].
    destruct r1 as [[s [tok'|]]|e|]; [destruct (bool_decide _); [|destruct mailer]|..]; cbn; by intros [= <- <-].
  - unfold try_validate_session, get_session. destruct (sessions (validation t) !! id) as [s|] eqn:Es; [|by intros [= <- <-]].
    destruct (validation_state s); [|by intros [= <- <-]]. destruct (_ || _); intros [= <- <-]; [done|]. split; [|done].
    cbn. by eapply sessions_wf_put.
  - unfold consume_valid_session, get_session. destruct (sessions (validation t) !! id) as [s|] eqn:Es; [|by intros [= <- <-]].
    destruct (_ && _); [|by intros [= <- <-]]. destruct (sessions_wf_remove _ _ _ W Es) as (ss' & -> & ? & _). by intros [= <- <-].
Qed.

(** The sessions and the secrets by which clients find them stay inverse of each other,
    so that no sequence of requests makes the service panic. *)
Theorem validation_sessions_invariant t rs t' :
  sessions_wf (validation t) → served t rs t' → sessions_wf (validation t') ∧ Panic ∉ rs.
Proof.
  intros W Hs. induction Hs as [t|t q t' r rs t'' Hq E _ IH]; [by split; [|apply not_elem_of_nil]|].
  destruct (serve_wf _ _ _ _ W Hq E) as [W' Hr]. destruct (IH W') as [? ?]. split; [done|].
  rewrite not_elem_of_cons. by split.
Qed.

(** C33: a session proves control of the first address it was requested for, but a later
    request with the same secret and another recipient renews its token and mails it to that
    recipient: with the code from his own mailbox, a client validates an address whose mail
    he never saw. *)
Theorem code_mailed_to_other_address t c victim attacker id id2 otp1 otp2 now1 now2 now3 :
  client_secrets (validation t) !! c = None → send_attempts t !! (c, victim) = None →
  now2 ≤ now3 < now2 + MAX_TOKEN_AGE →
  let '(t1, r1, mail1) := send_validation_code_email t None victim c 1 true true id otp1 now1 in
  let '(t2, r2, mail2) := send_validation_code_email t1 None attacker c 1 true true id2 otp2 now2 in
  let '(t3, r3) := try_validate_session t2 id otp2 now3 in
  mail1 = Some (victim, otp1) ∧ mail2 = Some (attacker, otp2) ∧ r2 = Ok id ∧ r3 = Ok tt
  ∧ (consume_valid_session t3 id c).2 = Ok victim.
Proof.
  intros Hc Ha [Hn1 Hn2].
  assert (send_validation_code_email t None victim c 1 true true id otp1 now1
    = (with_validation t (create_session_with_token (validation t) id victim c (mkValidationToken otp1 now1)).1,
       Ok id, Some (victim, otp1))) as ->.
  { unfold send_validation_code_email, issue_validation_session, get_session_by_client_secret. by rewrite Hc. }
  unfold send_validation_code_email, issue_validation_session, get_session_by_client_secret. cbn.
  rewrite lookup_insert_eq. cbn. rewrite lookup_insert_eq. cbn. rewrite Ha. cbn.
  rewrite (bool_decide_eq_false_2 (1 ≤ 0)) by lia. cbn.
  unfold try_validate_session, get_session. cbn. rewrite lookup_insert_eq. cbn.
  rewrite (bool_decide_eq_false_2 (otp2 ≠ otp2)) by (intros ?; congruence). unfold token_is_valid. cbn.
  rewrite !bool_decide_eq_true_2 by lia. cbn.
  unfold consume_valid_session, get_session, remove_session. cbn. rewrite lookup_insert_eq. cbn.
  rewrite bool_decide_eq_true_2 by done. cbn. by rewrite !lookup_insert_eq.
Qed.
End sessions.

(** ** Addresses *)

Section addresses.
Context {DB : Type} `{Store DB}.
Context (normalize_email : string → string) (is_address : string → bool).
Implicit Types (t : Threepid (DB := DB)) (E : gmap string string) (l e n : string).

(** [E] gives the address of an account.  The first table holds exactly [E]; a row of the
    second one points back, but may be missing; no two accounts have the same address. *)
Record emails_wf t E : Prop := {
  emails_forward l e : E !! l = Some e → map_get (localpart_email t) (bytes_of_string l) = Some (bytes_of_string e);
  emails_forward_inv k v : map_get (localpart_email t) k = Some v →
    ∃ l e, k = bytes_of_string l ∧ v = bytes_of_string e ∧ E !! l = Some e ∧ utf8 l ∧ utf8 e;
  emails_back n v : map_get (email_localpart t) (bytes_of_string n) = Some v →
    ∃ l e, v = bytes_of_string l ∧ E !! l = Some e ∧ normalize_email e = n ∧ utf8 l;
  emails_inj l e l' e' : E !! l = Some e → E !! l' = Some e' → normalize_email e = normalize_email e' → l = l';
  emails_address l e : E !! l = Some e → is_address e = true;
}.

(** The account that has an address. *)
Definition owns E n l : Prop := ∃ e, E !! l = Some e ∧ normalize_email e = n.

Lemma text_row_some s : utf8 s → text_row (Some (bytes_of_string s)) = Some s.
Proof. intros Hs. unfold text_row. by rewrite read_str, string_of_bytes_of_string. Qed.
Lemma text_row_none : text_row None = None.
Proof. done. Qed.

Lemma elem_of_rows t E l e :
  emails_wf t E → (l, e) ∈ omap read_email_row (raw_stream_from (localpart_email t) []) ↔ E !! l = Some e.
Proof.
  intros W. rewrite list_elem_of_omap. unfold raw_stream_from. rewrite store_seek_spec. split.
  - intros ([k v] & [_ Hkv]%list_elem_of_filter & Hr). apply store_scan_spec in Hkv.
    destruct (emails_forward_inv _ _ W _ _ Hkv) as (l' & e' & -> & -> & HE & Hl & He).
    unfold read_email_row in Hr. cbn [fst snd] in Hr. rewrite !from_slice_str in Hr by done.
    rewrite !string_of_bytes_of_string in Hr. congruence.
  - intros HE. pose proof (emails_forward _ _ W _ _ HE) as Hkv. exists (bytes_of_string l, bytes_of_string e).
    destruct (emails_forward_inv _ _ W _ _ Hkv) as (l' & e' & <-%bytes_of_string_inj & <-%bytes_of_string_inj & _ & Hl & He).
    split.
    + apply list_elem_of_filter. cbn. split; [by destruct (bytes_of_string l)|]. by apply store_scan_spec.
    + unfold read_email_row. cbn [fst snd]. by rewrite !from_slice_str, !string_of_bytes_of_string by done.
Qed.
Lemma rows_NoDup t E : emails_wf t E → NoDup (omap read_email_row (raw_stream_from (localpart_email t) [])).
Proof.
  intros W. unfold raw_stream_from. rewrite store_seek_spec.
  assert (StronglySorted key_lt (filter (λ kv : KeyVal, bytes_le [] kv.1) (store_scan (localpart_email t)))) as Hs
    by apply StronglySorted_filter, store_scan_sorted.
  assert (∀ kv, kv ∈ filter (λ kv : KeyVal, bytes_le [] kv.1) (store_scan (localpart_email t)) →
    ∃ l e, utf8 l ∧ utf8 e ∧ kv = (bytes_of_string l, bytes_of_string e)) as Hrow.
  { intros [k v] [_ Hkv]%list_elem_of_filter. apply store_scan_spec in Hkv.
    destruct (emails_forward_inv _ _ W _ _ Hkv) as (l & e & -> & -> & _ & Hl & He). by exists l, e. }
  induction Hs as [|[k v] rows Hs IH Hx]; [constructor|]. rewrite omap_cons.
  destruct (Hrow (k, v)) as (l & e & Hl & He & [= -> ->]); [by left|].
  unfold read_email_row at 1. cbn [fst snd]. rewrite !from_slice_str, !string_of_bytes_of_string by done.
  constructor; [|by apply IH; intros; apply Hrow; right]. rewrite list_elem_of_omap. intros ([k' v'] & Hin & Hr).
  destruct (Hrow (k', v')) as (l' & e' & Hl' & He' & [= -> ->]); [by right|].
  unfold read_email_row in Hr. cbn [fst snd] in Hr. rewrite !from_slice_str, !string_of_bytes_of_string in Hr by done.
  injection Hr as -> ->. rewrite Forall_forall in Hx. specialize (Hx _ Hin). unfold key_lt, bytes_lt in Hx. cbn in Hx.
  by rewrite bytes_cmp_refl in Hx.
Qed.

(** The scan for an address finds its owner, if there is one. *)
Lemma find_owner t E n :
  emails_wf t E →
  (∃ l, owns E n l ∧ find_localparts_for_normalized_email normalize_email t n = [l])
  ∨ ((∀ l, ¬ owns E n l) ∧ find_localparts_for_normalized_email normalize_email t n = []).
Proof.
  intros W. unfold find_localparts_for_normalized_email. pose proof (rows_NoDup t E W) as Hnd.
  pose proof (elem_of_rows t E) as Hin. set (rows := omap read_email_row _) in *.
  assert (NoDup (filter (λ row : string * string, normalize_email row.2 = n) rows)) as Hnd2 by (by apply NoDup_filter).
  assert (∀ l e, (l, e) ∈ filter (λ row : string * string, normalize_email row.2 = n) rows ↔ E !! l = Some e ∧ normalize_email e = n) as Hf.
  { intros l e. rewrite list_elem_of_filter, (Hin l e W). cbn. tauto. }
  destruct (filter _ rows) as [|[l e] [|[l' e'] rest]].
  - right. split; [|done]. intros l (e & He & Hn). by apply (not_elem_of_nil (l, e)), Hf.
  - left. exists l. split; [|done]. exists e. apply Hf. by left.
  - exfalso. destruct (proj1 (Hf l e)) as [H1 N1]; [by left|]. destruct (proj1 (Hf l' e')) as [H2 N2]; [by right; left|].
    assert (l = l') as <- by (eapply emails_inj; [done..|congruence]). assert (e = e') as <- by congruence.
    apply NoDup_cons in Hnd2 as [Hnd2 _]. apply Hnd2. by left.
Qed.

Lemma back_row t E n l e v :
  emails_wf t E → E !! l = Some e → normalize_email e = n → map_get (email_localpart t) (bytes_of_string n) = Some v →
  v = bytes_of_string l.
Proof.
  intros W He Hn Hv. destruct (emails_back _ _ W _ _ Hv) as (l' & e' & -> & He' & Hn' & _).
  f_equal. eapply emails_inj; [done..|]. congruence.
Qed.

Lemma get_localpart_owner t E e :
  emails_wf t E →
  let '(t', r) := get_localpart_for_email normalize_email t e in
  emails_wf t' E ∧ localpart_email t' = localpart_email t ∧
  match r with Some l => owns E (normalize_email e) l | None => ∀ l, ¬ owns E (normalize_email e) l end.
Proof.
  intros W. unfold get_localpart_for_email.
  destruct (map_get (email_localpart t) (bytes_of_string (normalize_email e))) as [v|] eqn:Hv.
  - destruct (emails_back _ _ W _ _ Hv) as (l & e' & -> & He' & Hn & Hl). rewrite text_row_some by done.
    split; [done|]. split; [done|]. by exists e'.
  - rewrite text_row_none. destruct (find_owner t E (normalize_email e) W) as [(l & Ho & ->)|[Ho ->]]; [|done].
    split; [|done]. destruct Ho as (e' & He' & Hn). destruct W as [W1 W2 W3 W4 W5]. split; cbn; [done..| |done|done].
    intros n v'. destruct (decide (n = normalize_email e)) as [->|Hne].
    + rewrite map_get_insert_eq. intros [= <-]. exists l, e'. split; [done|]. split; [done|]. split; [done|].
      by destruct (W2 _ _ (W1 _ _ He')) as (? & ? & <-%bytes_of_string_inj & _ & _ & ? & _).
    + rewrite map_get_insert_ne by (intros ?%bytes_of_string_inj; congruence). apply W3.
Qed.

Lemma get_email_owner t E l : emails_wf t E → get_email_for_localpart is_address t l = E !! l.
Proof.
  intros W. unfold get_email_for_localpart. destruct (E !! l) as [e|] eqn:He.
  - rewrite (emails_forward _ _ W _ _ He).
    destruct (emails_forward_inv _ _ W _ _ (emails_forward _ _ W _ _ He)) as (? & ? & _ & <-%bytes_of_string_inj & _ & _ & ?).
    rewrite text_row_some by done. cbn. by rewrite (emails_address _ _ W _ _ He).
  - destruct (map_get (localpart_email t) (bytes_of_string l)) as [v|] eqn:Hv; [|done].
    destruct (emails_forward_inv _ _ W _ _ Hv) as (? & ? & <-%bytes_of_string_inj & _ & ? & _). congruence.
Qed.

Lemma disassociate_wf t E l :
  emails_wf t E →
  let '(t', r) := disassociate_localpart_email normalize_email is_address t l in r = E !! l ∧ emails_wf t' (delete l E).
Proof.
  intros W. unfold disassociate_localpart_email. rewrite (get_email_owner t E l W).
  destruct (E !! l) as [e|] eqn:He; [|by rewrite delete_id]. split; [done|]. destruct W as [W1 W2 W3 W4 W5]. split; cbn.
  - intros l' e' [Hne He']%lookup_delete_Some. rewrite map_get_remove_ne by (by intros ?%bytes_of_string_inj). by apply W1.
  - intros k v. destruct (decide (k = bytes_of_string l)) as [->|Hne]; [by rewrite map_get_remove_eq|].
    rewrite map_get_remove_ne by done. intros Hv. destruct (W2 _ _ Hv) as (l' & e' & -> & -> & He' & ?). exists l', e'.
    rewrite lookup_delete_ne by congruence. done.
  - intros n v. destruct (decide (n = normalize_email e)) as [->|Hne]; [by rewrite map_get_remove_eq|].
    rewrite map_get_remove_ne by (intros ?%bytes_of_string_inj; congruence). intros Hv.
    destruct (W3 _ _ Hv) as (l' & e' & -> & He' & Hn & ?). exists l', e'. rewrite lookup_delete_ne by congruence. done.
  - intros l1 e1 l2 e2 [_ H1]%lookup_delete_Some [_ H2]%lookup_delete_Some. by eapply W4.
  - intros l1 e1 [_ H1]%lookup_delete_Some. by eapply W5.
Qed.

Lemma insert_wf t E l n :
  emails_wf t (delete l E) → utf8 l → utf8 n → is_address n = true → normalize_email n = n →
  (∀ l', ¬ owns (delete l E) n l') →
  emails_wf (with_tables t (map_insert (localpart_email t) (bytes_of_string l) (bytes_of_string n))
     (map_insert (email_localpart t) (bytes_of_string n) (bytes_of_string l))) (<[l := n]> E).
Proof.
  intros [W1 W2 W3 W4 W5] Hl Hu Ha Hn Ho. rewrite <- insert_delete_eq. split; cbn.
  - intros l' e'. destruct (decide (l' = l)) as [->|Hne].
    + rewrite lookup_insert_eq, map_get_insert_eq. by intros [= <-].
    + rewrite lookup_insert_ne, map_get_insert_ne by (done || by intros ?%bytes_of_string_inj). apply W1.
  - intros k v. destruct (decide (k = bytes_of_string l)) as [->|Hne].
    + rewrite map_get_insert_eq. intros [= <-]. exists l, n. by rewrite lookup_insert_eq.
    + rewrite map_get_insert_ne by done. intros Hv. destruct (W2 _ _ Hv) as (l' & e' & -> & -> & He' & ?).
      exists l', e'. rewrite lookup_insert_ne by congruence. done.
  - intros n' v. destruct (decide (n' = n)) as [->|Hne].
    + rewrite map_get_insert_eq. intros [= <-]. exists l, n. by rewrite lookup_insert_eq.
    + rewrite map_get_insert_ne by (intros ?%bytes_of_string_inj; congruence). intros Hv.
      destruct (W3 _ _ Hv) as (l' & e' & -> & He' & Hn' & ?). exists l', e'. rewrite lookup_insert_ne; [done|].
      intros <-. by apply lookup_delete_Some in He' as [? _].
  - assert (∀ l' e', delete l E !! l' = Some e' → normalize_email n = normalize_email e' → False) as Hno.
    { intros l' e' He' E'. apply (Ho l'). exists e'. split; [done|congruence]. }
    intros l1 e1 l2 e2 [[<- <-]|[? H1]]%lookup_insert_Some [[<- <-]|[? H2]]%lookup_insert_Some HE; [done|..|by eapply W4];
      exfalso; eapply Hno; eauto.
  - intros l1 e1 [[_ <-]|[_ H1]]%lookup_insert_Some; [done|by eapply W5].
Qed.

(** Associating an address with an account keeps the map from accounts to addresses
    injective: it is refused when another account has the address, changes nothing when the
    account has it already, and otherwise replaces the account's address by it. *)
Theorem associate_localpart_email_spec t E l email :
  emails_wf t E → utf8 l → utf8 (normalize_email email) → is_address (normalize_email email) = true →
  (∀ e, normalize_email (normalize_email e) = normalize_email e) →
  let n := normalize_email email in
  let '(t', r) := associate_localpart_email normalize_email is_address t l email in
  (r = Err ThreepidInUse ∧ emails_wf t' E ∧ ∃ l', l' ≠ l ∧ owns E n l')
  ∨ (r = Ok tt ∧ emails_wf t' E ∧ owns E n l)
  ∨ (r = Ok tt ∧ emails_wf t' (<[l := n]> E) ∧ ∀ l', ¬ owns E n l').
Proof.
  intros W Hl Hu Ha Hidem n. unfold associate_localpart_email.
  pose proof (get_localpart_owner t E n W) as Hg. fold n. rewrite (Hidem email : normalize_email n = n) in Hg.
  destruct (get_localpart_for_email normalize_email t n) as [t1 [l'|]]; destruct Hg as (W1 & Hle & Ho).
  - case_bool_decide as Hne; [left|right; left].
    + split; [done|]. split; [done|]. by exists l'.
    + subst l'. done.
  - destruct (find_owner t1 E n W1) as [(l' & Ho' & _)|[_ ->]]; [by destruct (Ho l')|]. cbn [existsb].
    pose proof (disassociate_wf t1 E l W1) as Hd. destruct (disassociate_localpart_email _ _ t1 l) as [t2 r]. destruct Hd as [_ W2].
    right. right. split; [done|]. split; [|done]. apply insert_wf; [done..|apply Hidem|].
    intros l' (e & [_ He]%lookup_delete_Some & Hn). apply (Ho l'). by exists e.
Qed.

(** The account found for an address is the one that has it, whether or not the second
    table has been filled in yet; looking it up changes no association. *)
Theorem get_localpart_for_email_spec t E email l :
  emails_wf t E →
  let '(t', r) := get_localpart_for_email normalize_email t email in
  emails_wf t' E ∧ (r = Some l ↔ ∃ e, E !! l = Some e ∧ normalize_email e = normalize_email email).
Proof.
  intros W. pose proof (get_localpart_owner t E email W) as Hg.
  destruct (get_localpart_for_email _ t email) as [t' [l'|]]; destruct Hg as (W' & _ & Ho); (split; [done|]); split.
  - by intros [= ->].
  - intros (e & He & Hn). destruct Ho as (e' & He' & Hn'). f_equal. eapply (emails_inj _ _ W l' e' l e); congruence.
  - done.
  - intros Hl. by destruct (Ho l).
Qed.
End addresses.

(** ** A concrete server *)

Module ThreepidDemo.
Abbreviation DB := (gmap bytes bytes).
Definition empty : Threepid (DB := DB) := mkThreepid (mkValidationSessions ∅ ∅) ∅ ∅ ∅.
Lemma empty_sessions : sessions_wf (validation empty).
Proof. split; cbn; intros ??; by rewrite lookup_empty. Qed.
Lemma empty_emails : emails_wf id (λ _, true) empty ∅.
Proof. split; cbn; try (intros ??; by rewrite ?lookup_empty). Qed.

Definition requests : list request :=
  [RequestCode None "a@a" "secret" 1 true true "sid" "1234" 1; RequestValidate "sid" "1234" 2; RequestConsume "sid" "secret"].
Definition state (n : nat) : Threepid (DB := DB) := foldl (λ t q, (serve t q).1) empty (take n requests).

Lemma validation_sessions_invariant_witness :
  sessions_wf (validation (state 3)) ∧ Panic ∉ [Ok "sid"; Ok ""; (Ok "a@a" : outcome ThreepidError string)].
Proof.
  apply (validation_sessions_invariant empty _ (state 3) empty_sessions).
  apply (served_cons empty (RequestCode None "a@a" "secret" 1 true true "sid" "1234" 1) (state 1)); [done|reflexivity|].
  apply (served_cons (state 1) (RequestValidate "sid" "1234" 2) (state 2)); [exact I|reflexivity|].
  apply (served_cons (state 2) (RequestConsume "sid" "secret") (state 3)); [exact I|reflexivity|constructor].
Defined.

Lemma code_mailed_to_other_address_witness :
  let '(t1, r1, mail1) := send_validation_code_email empty None "alice@a" "secret" 1 true true "sid" "1111" 1 in
  let '(t2, r2, mail2) := send_validation_code_email t1 None "mallory@m" "secret" 1 true true "sid2" "2222" 2 in
  let '(t3, r3) := try_validate_session t2 "sid" "2222" 3 in
  mail1 = Some ("alice@a", "1111") ∧ mail2 = Some ("mallory@m", "2222") ∧ r2 = Ok "sid" ∧ r3 = Ok tt
  ∧ (consume_valid_session t3 "sid" "secret").2 = Ok "alice@a".
Proof.
  apply (code_mailed_to_other_address empty "secret" "alice@a" "mallory@m" "sid" "sid2" "1111" "2222" 1 2 3); [done|done|].
  by split.
Defined.

(** [alice] takes an address, [bob] cannot have it. *)
Lemma associate_localpart_email_spec_witness :
  let '(t', r) := associate_localpart_email id (λ _, true) empty "alice" "a@a" in
  (r = Err ThreepidInUse ∧ emails_wf id (λ _, true) t' ∅ ∧ ∃ l', l' ≠ "alice" ∧ owns id ∅ "a@a" l')
  ∨ (r = Ok tt ∧ emails_wf id (λ _, true) t' ∅ ∧ owns id ∅ "a@a" "alice")
  ∨ (r = Ok tt ∧ emails_wf id (λ _, true) t' (<["alice" := "a@a"]> ∅) ∧ ∀ l', ¬ owns id ∅ "a@a" l').
Proof.
  exact (associate_localpart_email_spec id (λ _, true) empty ∅ "alice" "a@a" empty_emails eq_refl eq_refl eq_refl (λ _, eq_refl)).
Defined.
Lemma get_localpart_for_email_spec_witness :
  let '(t', r) := get_localpart_for_email id empty "a@a" in
  emails_wf id (λ _, true) t' ∅ ∧ (r = Some "alice" ↔ ∃ e, (∅ : gmap string string) !! "alice" = Some e ∧ id e = id "a@a").
Proof. exact (get_localpart_for_email_spec id (λ _, true) empty ∅ "a@a" "alice" empty_emails). Defined.

(** The second table is filled in when it is asked for. *)
Example missing_row_filled :
  let t : Threepid (DB := DB) :=
    mkThreepid (mkValidationSessions ∅ ∅) ∅ {[ bytes_of_string "alice" := bytes_of_string "a@a" ]} ∅ in
  let '(t', r) := get_localpart_for_email id t "a@a" in
  r = Some "alice" ∧ map_get (email_localpart t') (bytes_of_string "a@a") = Some (bytes_of_string "alice").
Proof. by vm_compute. Qed.
End ThreepidDemo.
