(* ===== verification/Uiaa.v ===== *)
(** * User-interactive authentication

    Models [src/service/uiaa/mod.rs]: sessions in which a client completes the stages of one
    of several flows, and the check of each kind of stage against the services for users,
    email addresses and registration tokens.

    * Theorems on user-interactive authentication

    What an accepted authentication proves of the requests before it, and what it does not:
    which account the accepted data belong to. *)

From S2P Require Import Prelude Bytes DbMap DbSer DbScan Tables Short AccountData Users RegistrationTokens Threepid.

Local Open Scope Z_scope.

(** [ruma]'s types of stages, flows and authentication data. *)
Inductive AuthType :=
  | TypePassword | TypeReCaptcha | TypeEmailIdentity | TypeMsisdn | TypeSso | TypeDummy | TypeRegistrationToken
  | TypeTerms | TypeCustom (name : string).
#[export] Instance AuthType_eq_dec : EqDecision AuthType.
Proof. solve_decision. Defined.
Definition as_str (t : AuthType) : string :=
  match t with
  | TypePassword => "m.login.password" | TypeReCaptcha => "m.login.recaptcha"
  | TypeEmailIdentity => "m.login.email.identity" | TypeMsisdn => "m.login.msisdn" | TypeSso => "m.login.sso"
  | TypeDummy => "m.login.dummy" | TypeRegistrationToken => "m.login.registration_token"
  | TypeTerms => "m.login.terms" | TypeCustom name => name
  end.

Inductive UserIdentifier :=
  | UserIdOrLocalpart (username : string)
  | Email (address : string)
  | OtherIdentifier.
Inductive AuthData :=
  | Dummy
  | EmailIdentity (sid client_secret : string) (id_access_token : option string)
  | Password (identifier : option UserIdentifier) (password : string)
  | ReCaptcha (response : string)
  | RegistrationToken (token : string)
  | Terms
  | FallbackAcknowledgement
  | OtherData (t : AuthType).
Definition auth_type (auth : AuthData) : option AuthType :=
  match auth with
  | Dummy => Some TypeDummy
  | EmailIdentity _ _ _ => Some TypeEmailIdentity
  | Password _ _ => Some TypePassword
  | ReCaptcha _ => Some TypeReCaptcha
  | RegistrationToken _ => Some TypeRegistrationToken
  | Terms => Some TypeTerms
  | FallbackAcknowledgement => None
  | OtherData t => Some t
  end.

(** The kind of an error of a stage. *)
Inductive StageError := StageInvalidParam | StageForbidden | ThreepidAuthFailed | Unrecognized.

Record Identity := mkIdentity { localpart : option string; id_email : option string }.
Definition no_identity : Identity := mkIdentity None None.
Record UiaaInfo := mkUiaaInfo {
  flows : list (list AuthType);
  completed : list AuthType;
  info_session : option string;
  auth_error : option StageError;
}.
Record UiaaSession := mkUiaaSession { info : UiaaInfo; identity : Identity }.

(** The localpart of the user id. *)
Definition from_user_id (user_localpart : string) : Identity := mkIdentity (Some user_localpart) None.
Definition try_set_localpart (i : Identity) (l : string) : outcome StageError Identity :=
  match localpart i with
  | None => Ok (mkIdentity (Some l) (id_email i))
  | Some l' => if bool_decide (l' = l) then Ok i else Err StageInvalidParam
  end.
Definition try_set_email (i : Identity) (e : string) : outcome StageError Identity :=
  match id_email i with
  | None => Ok (mkIdentity (localpart i) (Some e))
  | Some e' => if bool_decide (e' = e) then Ok i else Err StageInvalidParam
  end.

Inductive UiaaError :=
  | Incomplete (info : UiaaInfo)
  | InvalidSession
  | StageNotInFlows.

Section uiaa.
Context {DB : Type} `{Store DB}.
(** The parameters of the services; [ruma]'s [parse_with_server_name] reads a user id, or a
    localpart on this server, and [user_localpart] is the localpart of a user id; the check of
    a hash, LDAP and ReCaptcha are outside, [trim] and [to_lowercase] are those of [str]. *)
Context (info_text : DatabaseTokenInfo → bytes) (read_info : bytes → option DatabaseTokenInfo).
Context (normalize_email : string → string) (is_address : string → bool).
Context (parse_with_server_name : string → option string) (user_localpart : string → string) (to_lowercase trim : string → string).
Context (verify_password : string → bytes → bool) (ldap_login : string → string → bool).
Context (recaptcha : option (string → bool)).

Record Uiaa := mkUiaa {
  uiaa_sessions : gmap string UiaaSession;
  uiaa_users : UserTable → DB;
  uiaa_tokens : RegistrationTokens (DB := DB);
  uiaa_threepid : Threepid (DB := DB);
}.
Implicit Types (s : Uiaa) (auth : AuthData) (now : Z).

Definition with_sessions s (m : gmap string UiaaSession) : Uiaa := mkUiaa m (uiaa_users s) (uiaa_tokens s) (uiaa_threepid s).
Definition with_threepid s (t : Threepid) : Uiaa := mkUiaa (uiaa_sessions s) (uiaa_users s) (uiaa_tokens s) t.
Definition with_tokens s (t : RegistrationTokens) : Uiaa := mkUiaa (uiaa_sessions s) (uiaa_users s) t (uiaa_threepid s).

(** ** Stages *)

Definition check_email s (i : Identity) (sid client_secret : string) (id_access_token : option string) now
    : Uiaa * outcome StageError (AuthType * Identity) :=
  let '(t, valid) :=
    match id_access_token with
    | Some token => try_validate_session (uiaa_threepid s) sid token now
    | None => (uiaa_threepid s, Ok tt)
    end in
  let s := with_threepid s t in
  match valid with
  | Ok _ =>
      let '(t, email) := consume_valid_session (uiaa_threepid s) sid client_secret in
      let s := with_threepid s t in
      match email with
      | Ok email =>
          let '(t, l) := get_localpart_for_email normalize_email (uiaa_threepid s) email in
          let s := with_threepid s t in
          (s, i ← match l with Some l => try_set_localpart i l | None => Ok i end;
              i ← try_set_email i email; Ok (TypeEmailIdentity, i))
      | Err _ => (s, Err ThreepidAuthFailed)
      | Panic => (s, Panic)
      end
  | Err _ => (s, Err ThreepidAuthFailed)
  | Panic => (s, Panic)
  end.

(** The account of a name: the one of the lower-case localpart on this server if it exists. *)
Definition resolve_user s (name : string) : outcome StageError string :=
  match parse_with_server_name name with
  | None => Err StageInvalidParam
  | Some user_id =>
      lowercased_user_id ← expect (parse_with_server_name (to_lowercase (user_localpart user_id)));
      Ok (if exists_user (uiaa_users s) lowercased_user_id then lowercased_user_id else user_id)
  end.
Definition find_password_user s (i : Identity) (identifier : option UserIdentifier)
    : Uiaa * outcome StageError (string * Identity) :=
  match identifier with
  | Some (UserIdOrLocalpart username) => (s, user_id ← resolve_user s username; Ok (user_id, i))
  | Some (Email address) =>
      if negb (is_address address) then (s, Err StageInvalidParam)
      else
        let '(t, l) := get_localpart_for_email normalize_email (uiaa_threepid s) address in
        let s := with_threepid s t in
        match l with
        | Some l => (s, i ← try_set_email i address; user_id ← resolve_user s l; Ok (user_id, i))
        | None => (s, Err StageForbidden)
        end
  | _ => (s, Err Unrecognized)
  end.
Definition password_verified s (user_id password : string) : bool :=
  match password_hash (uiaa_users s) user_id with
  | Ok hash => verify_password password hash
  | _ => false
  end || ldap_login user_id password.
Definition check_password s (i : Identity) (identifier : option UserIdentifier) (password : string)
    : Uiaa * outcome StageError (AuthType * Identity) :=
  let '(s, user) := find_password_user s i identifier in
  (s, '(user_id, i) ← user;
      if password_verified s user_id password
      then i ← try_set_localpart i (user_localpart user_id); Ok (TypePassword, i)
      else Err StageForbidden).

Definition check_token s (i : Identity) (token : string) now : Uiaa * outcome StageError (AuthType * Identity) :=
  match validate_token read_info (uiaa_tokens s) now (trim token) with
  | Some v => (with_tokens s (mark_token_as_used info_text (uiaa_tokens s) v), Ok (TypeRegistrationToken, i))
  | None => (s, Err StageForbidden)
  end.

Definition check_stage s auth (i : Identity) now : Uiaa * outcome StageError (AuthType * Identity) :=
  match auth with
  | Dummy => (s, Ok (TypeDummy, i))
  | EmailIdentity sid client_secret id_access_token => check_email s i sid client_secret id_access_token now
  | Password identifier password => check_password s i identifier password
  | ReCaptcha response =>
      (s, match recaptcha with
          | Some verify => if verify response : bool then Ok (TypeReCaptcha, i) else Err StageForbidden
          | None => Err StageForbidden
          end)
  | RegistrationToken token => check_token s i token now
  | Terms => (s, Ok (TypeTerms, i))
  | FallbackAcknowledgement | OtherData _ => (s, Err Unrecognized)
  end.

(** ** Sessions *)

(** [random] is the id drawn for the session. *)
Definition create_session s (random : string) (fl : list (list AuthType)) (i : option Identity) : Uiaa * UiaaInfo :=
  let info := mkUiaaInfo fl [] (Some random) None in
  (with_sessions s (<[random := mkUiaaSession info (default no_identity i)]> (uiaa_sessions s)), info).

Definition stages (l : list AuthType) : gset string := list_to_set (as_str <$> l).

Definition continue_session s auth (sid : string) now : Uiaa * outcome UiaaError Identity :=
  match uiaa_sessions s !! sid with
  | None => (s, Err InvalidSession)
  | Some session =>
      match auth with
      | FallbackAcknowledgement => (s, Err (Incomplete (info session)))
      | _ =>
          match auth_type auth with
          | None => (s, Panic)
          | Some type =>
              let flow_stages := stages <$> flows (info session) in
              let completed_stages := stages (completed (info session)) in
              if negb (existsb (λ fl, bool_decide (as_str type ∈ fl)) flow_stages) then (s, Err StageNotInFlows)
              else
                let '(s, completed_stages, session) :=
                  if bool_decide (as_str type ∈ completed_stages) then (s, Ok completed_stages, session)
                  else
                    match check_stage s auth (identity session) now with
                    | (s, Ok (completed_stage, updated_identity)) =>
                        (s, Ok ({[as_str completed_stage]} ∪ completed_stages),
                         mkUiaaSession
                           (mkUiaaInfo (flows (info session)) (completed (info session) ++ [completed_stage])
                              (info_session (info session)) None) updated_identity)
                    | (s, Err e) =>
                        (s, Ok completed_stages,
                         mkUiaaSession
                           (mkUiaaInfo (flows (info session)) (completed (info session)) (info_session (info session))
                              (Some e)) (identity session))
                    | (s, Panic) => (s, Panic, session)
                    end in
                match (completed_stages : outcome UiaaError (gset string)) with
                | Ok completed_stages =>
                    if existsb (λ fl, bool_decide (fl ⊆ completed_stages)) flow_stages
                    then (with_sessions s (delete sid (uiaa_sessions s)), Ok (identity session))
                    else (with_sessions s (<[sid := session]> (uiaa_sessions s)), Err (Incomplete (info session)))
                | _ => (s, Panic)
                end
          end
      end
  end.

(** Authentication data with the session it names. *)
Definition authenticate s (auth : option (AuthData * option string)) (fl : list (list AuthType)) (i : option Identity)
    (random : string) now : Uiaa * outcome UiaaError Identity :=
  match auth with
  | None => let '(s, info) := create_session s random fl i in (s, Err (Incomplete info))
  | Some (auth, Some sid) => continue_session s auth sid now
  | Some (auth, None) => let '(s, _) := create_session s random fl i in continue_session s auth random now
  end.
Definition authenticate_password s (auth : option (AuthData * option string)) (i : option Identity) (random : string) now :=
  authenticate s auth [[TypePassword]] i random now.
End uiaa.

Local Open Scope Z_scope.

(** What is known of an identity only grows. *)
Definition extends (i i' : Identity) : Prop :=
  (∀ l, localpart i = Some l → localpart i' = Some l) ∧ (∀ e, id_email i = Some e → id_email i' = Some e).
#[export] Instance extends_preorder : PreOrder extends.
Proof. split; [done|]. intros i1 i2 i3 [? ?] [? ?]. split; auto. Qed.
Lemma try_set_localpart_extends i l i' : try_set_localpart i l = Ok i' → extends i i' ∧ localpart i' = Some l.
Proof.
  unfold try_set_localpart. destruct (localpart i) as [l'|] eqn:E; [|intros [= <-]; split; [split|]; cbn; congruence].
  case_bool_decide; [|done]. intros [= <-]. split; [done|congruence].
Qed.
Lemma try_set_email_extends i e i' : try_set_email i e = Ok i' → extends i i' ∧ id_email i' = Some e.
Proof.
  unfold try_set_email. destruct (id_email i) as [e'|] eqn:E; [|intros [= <-]; split; [split|]; cbn; congruence].
  case_bool_decide; [|done]. intros [= <-]. split; [done|congruence].
Qed.

Section uiaa_props.
Context {DB : Type} `{Store DB}.
Context (info_text : DatabaseTokenInfo → bytes) (read_info : bytes → option DatabaseTokenInfo).
Context (normalize_email : string → string) (is_address : string → bool).
Context (parse_with_server_name : string → option string) (user_localpart : string → string) (to_lowercase trim : string → string).
Context (verify_password : string → bytes → bool) (ldap_login : string → string → bool).
Context (recaptcha : option (string → bool)).
Implicit Types (s : Uiaa (DB := DB)) (auth : AuthData) (now : Z).

Local Notation check_stage := (check_stage info_text read_info normalize_email is_address parse_with_server_name
  user_localpart to_lowercase trim verify_password ldap_login recaptcha).
Local Notation continue_session := (continue_session info_text read_info normalize_email is_address parse_with_server_name
  user_localpart to_lowercase trim verify_password ldap_login recaptcha).
Local Notation authenticate := (authenticate info_text read_info normalize_email is_address parse_with_server_name
  user_localpart to_lowercase trim verify_password ldap_login recaptcha).
Local Notation check_password := (check_password normalize_email is_address parse_with_server_name
  user_localpart to_lowercase verify_password ldap_login).
Local Notation password_verified := (password_verified verify_password ldap_login).

(** ** One stage *)

Lemma check_email_ok s i sid c tok now :
  let '(s', r) := check_email normalize_email s i sid c tok now in
  uiaa_sessions s' = uiaa_sessions s ∧ ∀ t i', r = Ok (t, i') → t = TypeEmailIdentity ∧ extends i i'.
Proof.
  unfold check_email. destruct (match tok with Some _ => _ | None => _ end) as [t1 [|?|]]; [|by split..].
  destruct (consume_valid_session _ _ _) as [t2 [e|?|]]; [|by split..]. destruct (get_localpart_for_email _ _ _) as [t3 l].
  split; [done|]. intros t i' (i1 & H1 & (i2 & [H2 _]%try_set_email_extends & [= <- <-])%bind_Ok_inv)%bind_Ok_inv.
  split; [done|]. destruct l; [apply try_set_localpart_extends in H1 as [H1 _]; by trans i1|]. by injection H1 as ->.
Qed.

Lemma find_password_user_ok s i id :
  let '(s', r) := find_password_user normalize_email is_address parse_with_server_name user_localpart to_lowercase s i id in
  uiaa_sessions s' = uiaa_sessions s ∧ uiaa_users s' = uiaa_users s ∧ ∀ u i', r = Ok (u, i') → extends i i'.
Proof.
  destruct id as [[name|e|]|]; cbn; [| |by split..].
  - split; [done|]. split; [done|]. intros u i' (u' & _ & [= <- <-])%bind_Ok_inv. done.
  - destruct (negb _); [done|]. destruct (get_localpart_for_email _ _ _) as [t [l|]]; [|done].
    split; [done|]. split; [done|]. intros u i' (i1 & [H1 _]%try_set_email_extends & (u' & _ & [= <- <-])%bind_Ok_inv)%bind_Ok_inv. done.
Qed.

Lemma check_password_ok s i id pw :
  let '(s', r) := check_password s i id pw in
  uiaa_sessions s' = uiaa_sessions s ∧
  ∀ t i', r = Ok (t, i') → t = TypePassword ∧ extends i i' ∧
    ∃ user_id, password_verified s user_id pw = true ∧ localpart i' = Some (user_localpart user_id).
Proof.
  unfold check_password. pose proof (find_password_user_ok s i id) as Hf.
  destruct (find_password_user _ _ _ _ _ s i id) as [s' r]. destruct Hf as (Hs & Hu & Hi). split; [done|].
  intros t i' ([user_id i1] & -> & Hc)%bind_Ok_inv. destruct (password_verified s' user_id pw) eqn:Hp; [|done].
  apply bind_Ok_inv in Hc as (i2 & [H2 Hl]%try_set_localpart_extends & [= <- <-]). split; [done|]. split.
  - specialize (Hi user_id i1 eq_refl). by trans i1.
  - exists user_id. split; [|done]. revert Hp. unfold Uiaa.password_verified. by rewrite Hu.
Qed.

Lemma check_stage_aux s auth i now :
  let '(s', r) := check_stage s auth i now in
  uiaa_sessions s' = uiaa_sessions s ∧ ∀ t i', r = Ok (t, i') → auth_type auth = Some t ∧ extends i i'.
Proof.
  destruct auth as [|sid c tok|id pw|resp|tok| | |ty]; cbn.
  - split; [done|]. by intros t i' [= <- <-].
  - pose proof (check_email_ok s i sid c tok now) as Hc. destruct (check_email _ s i sid c tok now) as [s' r].
    destruct Hc as [? Hc]. split; [done|]. by intros t i' [-> ?]%Hc.
  - pose proof (check_password_ok s i id pw) as Hc. destruct (check_password s i id pw) as [s' r].
    destruct Hc as [? Hc]. split; [done|]. by intros t i' (-> & ? & _)%Hc.
  - split; [done|]. intros t i'. destruct recaptcha as [v|]; [|done]. destruct (v resp); [|done]. by intros [= <- <-].
  - unfold check_token. destruct (validate_token _ _ _ _); (split; [done|]); [|done]. by intros t i' [= <- <-].
  - split; [done|]. by intros t i' [= <- <-].
  - done.
  - done.
Qed.

(** C32: a stage that is accepted has the type of the data that were sent for it, and
    contradicts nothing that was known of the user. *)
Theorem check_stage_type s auth i now s' t i' :
  check_stage s auth i now = (s', Ok (t, i')) → auth_type auth = Some t ∧ extends i i'.
Proof. intros E. pose proof (check_stage_aux s auth i now) as Hc. rewrite E in Hc. destruct Hc as [_ Hc]. by apply Hc. Qed.

(** ** A history of requests *)

(** What a request did: it opened a session, and its data were checked in a session. *)
Inductive event :=
  | Opened (sid : string) (fl : list (list AuthType)) (i : Identity)
  | Checked (s : Uiaa (DB := DB)) (sid : string) (auth : AuthData) (i : Identity) (now : Z).
Definition accepted (e : event) (sid : string) (t : AuthType) (i' : Identity) : Prop :=
  ∃ s auth i now, e = Checked s sid auth i now ∧ (check_stage s auth i now).2 = Ok (t, i').

Record call := mkCall {
  c_auth : option (AuthData * option string);
  c_flows : list (list AuthType);
  c_identity : option Identity;
  c_random : string;
  c_now : Z;
}.
Definition perform s (c : call) := authenticate s (c_auth c) (c_flows c) (c_identity c) (c_random c) (c_now c).
Definition checks s auth sid now : list event :=
  match uiaa_sessions s !! sid with Some session => [Checked s sid auth (identity session) now] | None => [] end.
Definition events s (c : call) : list event :=
  let opened := Opened (c_random c) (c_flows c) (default no_identity (c_identity c)) in
  match c_auth c with
  | None => [opened]
  | Some (auth, Some sid) => checks s auth sid (c_now c)
  | Some (auth, None) => opened :: checks (create_session s (c_random c) (c_flows c) (c_identity c)).1 auth (c_random c) (c_now c)
  end.
Fixpoint perform_all s (cs : list call) : Uiaa (DB := DB) * list event :=
  match cs with
  | [] => (s, [])
  | c :: cs => let '(s', log) := perform_all (perform s c).1 cs in (s', events s c ++ log)
  end.

(** What a stored session records is in the history. *)
Definition justified (log : list event) (sid : string) (fl : list (list AuthType)) (done : list AuthType) (i : Identity) : Prop :=
  ∃ i0, Opened sid fl i0 ∈ log ∧ extends i0 i ∧
  ∀ t, t ∈ done → ∃ e i', e ∈ log ∧ accepted e sid t i' ∧ extends i' i.
Definition history_wf s (log : list event) : Prop :=
  ∀ sid session, uiaa_sessions s !! sid = Some session →
    justified log sid (flows (info session)) (completed (info session)) (identity session).

Lemma justified_app log log' sid fl l i : justified log sid fl l i → justified (log ++ log') sid fl l i.
Proof.
  intros (i0 & Ho & He & Hd). exists i0. split; [set_solver|]. split; [done|]. intros t Ht.
  destruct (Hd t Ht) as (e & i' & ? & ? & ?). exists e, i'. split; [set_solver|done].
Qed.
Lemma history_create s log r fl i :
  history_wf s log → history_wf (create_session s r fl i).1 (log ++ [Opened r fl (default no_identity i)]).
Proof.
  intros W sid session. cbn. intros [[<- <-]|[_ Hs]]%lookup_insert_Some; [|by apply justified_app, W].
  exists (default no_identity i). split; [set_solver|]. split; [done|]. by intros t ?%not_elem_of_nil.
Qed.

(** The stages of a completed flow were all accepted in the session. *)
Definition authenticated (log : list event) (sid : string) (i : Identity) : Prop :=
  ∃ fl flow, flow ∈ fl ∧ ∃ i0, Opened sid fl i0 ∈ log ∧ extends i0 i ∧
  ∀ t, t ∈ flow → ∃ e t' i', e ∈ log ∧ as_str t' = as_str t ∧ accepted e sid t' i' ∧ extends i' i.

Lemma elem_of_stages (x : string) (l : list AuthType) : x ∈ stages l ↔ ∃ t, t ∈ l ∧ as_str t = x.
Proof. unfold stages. rewrite elem_of_list_to_set, list_elem_of_fmap. naive_solver. Qed.

Lemma completed_flow log sid fl l i (st : gset string) :
  justified log sid fl l i → st ⊆ stages l →
  existsb (λ f, bool_decide (f ⊆ st)) (stages <$> fl) = true → authenticated log sid i.
Proof.
  intros (i0 & Ho & He & Hd) Hst (f & Hf & Hsub%bool_decide_eq_true)%existsb_exists.
  apply list_elem_of_In, list_elem_of_fmap in Hf as (flow & -> & Hf). exists fl, flow. split; [done|]. exists i0.
  split; [done|]. split; [done|]. intros t Ht.
  assert (as_str t ∈ stages l) as (t' & Ht' & E)%elem_of_stages.
  { apply Hst, Hsub, elem_of_stages. by exists t. }
  destruct (Hd t' Ht') as (e & i' & ? & ? & ?). by exists e, t', i'.
Qed.

Lemma continue_history s log auth sid now s' r :
  history_wf s log → continue_session s auth sid now = (s', r) →
  history_wf s' (log ++ checks s auth sid now) ∧
  ∀ i, r = Ok i → uiaa_sessions s' !! sid = None ∧ authenticated (log ++ checks s auth sid now) sid i.
Proof.
  intros W. unfold Uiaa.continue_session, checks. destruct (uiaa_sessions s !! sid) as [session|] eqn:Hs.
  2:{ intros [= <- <-]. rewrite app_nil_r. done. }
  set (log' := log ++ _). assert (W' : history_wf s log') by (intros sid' s1 Hs1; by apply justified_app, W).
  assert (auth = FallbackAcknowledgement ∨ auth ≠ FallbackAcknowledgement) as [->|Hauth]
    by (destruct auth; by (left + right)); [by intros [= <- <-]|].
  assert (∀ A (x y : A), match auth with FallbackAcknowledgement => x | _ => y end = y) as -> by (by destruct auth).
  destruct (auth_type auth) as [ty|]; [|by intros [= <- <-]].
  destruct (negb _); [by intros [= <- <-]|].
  pose proof (W' sid session Hs) as Hj. pose proof (check_stage_aux s auth (identity session) now) as Hc.
  assert (Hfin : ∀ s1 session1 (st : gset string), uiaa_sessions s1 = uiaa_sessions s →
    justified log' sid (flows (info session)) (completed (info session1)) (identity session1) →
    flows (info session1) = flows (info session) → st ⊆ stages (completed (info session1)) →
    (if existsb (λ fl, bool_decide (fl ⊆ st)) (stages <$> flows (info session))
     then (with_sessions s1 (delete sid (uiaa_sessions s1)), Ok (identity session1))
     else (with_sessions s1 (<[sid := session1]> (uiaa_sessions s1)), Err (Incomplete (info session1)))) = (s', r) →
    history_wf s' log' ∧ ∀ i, r = Ok i → uiaa_sessions s' !! sid = None ∧ authenticated log' sid i).
  { intros s1 session1 st E1 Hj1 Ef Hst. destruct (existsb _ _) eqn:Ex; intros [= <- <-].
    - split; [|intros i [= <-]; split; [cbn; apply lookup_delete_eq|by eapply completed_flow]].
      intros sid' s2. cbn. rewrite E1. intros [_ Hs2]%lookup_delete_Some. by apply W'.
    - split; [|done]. intros sid' s2. cbn. rewrite E1. intros [[<- <-]|[_ Hs2]]%lookup_insert_Some; [by rewrite Ef|by apply W']. }
  case_bool_decide as Hdone; [by apply Hfin|].
  destruct (check_stage s auth (identity session) now) as [s1 [[t i']|e|]] eqn:Ec; destruct Hc as [E1 Hc].
  - destruct (Hc t i' eq_refl) as [Ht Hi]. apply Hfin; [done| |done|].
    + destruct Hj as (i0 & Ho & He & Hd). exists i0. split; [done|]. split; [by trans (identity session)|]. cbn.
      intros t1 [Ht1| ->%list_elem_of_singleton]%elem_of_app.
      * destruct (Hd t1 Ht1) as (e & i1 & ? & ? & ?). exists e, i1. split; [done|]. split; [done|]. by trans (identity session).
      * eexists (Checked s sid auth (identity session) now), i'. split; [unfold log'; set_solver|]. split; [|done].
        exists s, auth, (identity session), now. split; [done|]. by rewrite Ec.
    + cbn. intros x [->%elem_of_singleton|(t1 & ? & <-)%elem_of_stages]%elem_of_union; apply elem_of_stages;
        [exists t|exists t1]; (split; [|done]); set_solver.
  - by apply Hfin.
  - intros [= <- <-]. split; [|done]. intros sid' s2. rewrite E1. apply W'.
Qed.

Lemma perform_history s log c s' r :
  history_wf s log → perform s c = (s', r) →
  history_wf s' (log ++ events s c) ∧
  ∀ i, r = Ok i → ∃ sid, uiaa_sessions s' !! sid = None ∧ authenticated (log ++ events s c) sid i.
Proof.
  intros W. unfold perform, Uiaa.authenticate, events. destruct (c_auth c) as [[auth [sid|]]|].
  - intros E. destruct (continue_history _ _ _ _ _ _ _ W E) as [? Hr]. split; [done|]. intros i Hi. exists sid. by apply Hr.
  - pose proof (history_create s log (c_random c) (c_flows c) (c_identity c) W) as W1.
    destruct (create_session s (c_random c) (c_flows c) (c_identity c)) as [s1 i1]. intros E.
    destruct (continue_history _ _ _ _ _ _ _ W1 E) as [W2 Hr]. rewrite <- (assoc_L (++)) in W2, Hr. split; [done|].
    intros i Hi. exists (c_random c). by apply Hr.
  - pose proof (history_create s log (c_random c) (c_flows c) (c_identity c) W) as W1.
    destruct (create_session s (c_random c) (c_flows c) (c_identity c)) as [s1 i1]. by intros [= <- <-].
Qed.

Lemma perform_all_history s log cs :
  history_wf s log → history_wf (perform_all s cs).1 (log ++ (perform_all s cs).2).
Proof.
  revert s log. induction cs as [|c cs IH]; intros s log W; cbn; [by rewrite app_nil_r|].
  destruct (perform s c) as [s1 r] eqn:E. destruct (perform_history _ _ _ _ _ W E) as [W1 _]. specialize (IH s1 _ W1).
  cbn [fst]. destruct (perform_all s1 cs) as [s2 log2]. cbn in *. by rewrite (assoc_L (++)).
Qed.

(** C30: starting without sessions, whatever requests came before: one is accepted only if it
    names a session opened with some flows, in which data for every stage of one of these
    flows were accepted; the identity returned agrees with the one the session was opened
    for and with that of every stage; and the session is gone, so it is accepted once. *)
Theorem authenticated_stages s cs c s' i :
  uiaa_sessions s = ∅ → perform (perform_all s cs).1 c = (s', Ok i) →
  ∃ sid, uiaa_sessions s' !! sid = None ∧
    authenticated ((perform_all s cs).2 ++ events (perform_all s cs).1 c) sid i.
Proof.
  intros Hs E. assert (history_wf s []) as W by (intros sid session; by rewrite Hs, lookup_empty).
  apply (perform_all_history s [] cs) in W. by eapply perform_history in E as [_ E]; [apply E|exact W].
Qed.

(** C31: a session is not bound to the account that asks.  With his own password in a session
    opened for his own account, a client passes the password check of a request made for
    any other account; the identity returned is his own, which most routes ignore. *)
Theorem password_of_other_account_accepted s name pw user_id victim sid random now now' :
  resolve_user parse_with_server_name user_localpart to_lowercase s name = Ok user_id → password_verified s user_id pw = true →
  let authenticate_password := authenticate_password info_text read_info normalize_email is_address parse_with_server_name
    user_localpart to_lowercase trim verify_password ldap_login recaptcha in
  let '(s1, r1) := authenticate_password s None (Some (from_user_id (user_localpart user_id))) sid now in
  let auth := Password (Some (UserIdOrLocalpart name)) pw in
  let '(s2, r2) := authenticate_password s1 (Some (auth, Some sid)) (Some (from_user_id victim)) random now' in
  r2 = Ok (from_user_id (user_localpart user_id)).
Proof.
  intros Hu Hp authenticate_password.
  unfold authenticate_password, Uiaa.authenticate_password, Uiaa.authenticate, create_session. cbn beta iota.
  unfold Uiaa.continue_session. cbn [uiaa_sessions with_sessions]. rewrite lookup_insert_eq. cbn.
  unfold Uiaa.check_password, find_password_user. cbn.
  assert (resolve_user parse_with_server_name user_localpart to_lowercase (with_sessions s (<[sid := mkUiaaSession
    (mkUiaaInfo [[TypePassword]] [] (Some sid) None) (from_user_id (user_localpart user_id))]> (uiaa_sessions s))) name = Ok user_id)
    as E by exact Hu.
  rewrite E. unfold Uiaa.password_verified in *. cbn. rewrite Hp. unfold try_set_localpart. cbn.
  rewrite (bool_decide_eq_true_2 (user_localpart user_id = _)) by done. cbn.
  rewrite (bool_decide_eq_true_2 (_ ∈ {[_]} ∪ ∅)) by set_solver. cbn.
  rewrite (bool_decide_eq_false_2 (_ ∈ ∅)) by set_solver. cbn.
  by rewrite (bool_decide_eq_true_2 (_ ⊆ _)) by set_solver.
Qed.
End uiaa_props.

(** ** A concrete server *)

Module UiaaDemo.
Definition info_text (i : DatabaseTokenInfo) : bytes := [].
Definition read_info (b : bytes) : option DatabaseTokenInfo := None.
Definition demo (users : UserTable → gmap bytes bytes) : Uiaa (DB := gmap bytes bytes) :=
  mkUiaa ∅ users (mkRegistrationTokens ∅ None [] None) (mkThreepid (mkValidationSessions ∅ ∅) ∅ ∅ ∅).
(** The accounts are names, and the password of an account is its name. *)
Definition is_password (pw : string) (hash : bytes) : bool := bool_decide (bytes_of_string pw = hash).
Definition no_ldap (u pw : string) : bool := false.
Definition users : UserTable → gmap bytes bytes :=
  λ t, match t with
       | UseridPassword => {[ bytes_of_string "mallory" := bytes_of_string "mallory" ]}
       | _ => ∅
       end.
Definition dummy : call := mkCall (Some (Dummy, None)) [[TypeDummy; TypeTerms]; [TypePassword]] None "s1" 1.
Definition terms : call := mkCall (Some (Terms, Some "s1")) [] None "s2" 2.

Lemma authenticated_stages_witness :
  let perform := perform info_text read_info id (λ _, true) Some id id id is_password no_ldap None in
  let perform_all := perform_all info_text read_info id (λ _, true) Some id id id is_password no_ldap None in
  let s := (perform_all (demo users) [dummy]).1 in
  ∃ sid, uiaa_sessions (perform s terms).1 !! sid = None ∧
    authenticated info_text read_info id (λ _, true) Some id id id is_password no_ldap None
      ((perform_all (demo users) [dummy]).2 ++ events s terms) sid no_identity.
Proof.
  exact (authenticated_stages info_text read_info id (λ _, true) Some id id id is_password no_ldap None
    (demo users) [dummy] terms _ no_identity eq_refl eq_refl).
Defined.
Lemma check_stage_type_witness :
  auth_type (Password (Some (UserIdOrLocalpart "mallory")) "mallory") = Some TypePassword
  ∧ extends no_identity (from_user_id "mallory").
Proof.
  exact (check_stage_type info_text read_info id (λ _, true) Some id id id is_password no_ldap None
    (demo users) (Password (Some (UserIdOrLocalpart "mallory")) "mallory") no_identity 1 (demo users) TypePassword
    (from_user_id "mallory") eq_refl).
Defined.
Lemma password_of_other_account_accepted_witness :
  let authenticate_password := authenticate_password info_text read_info id (λ _, true) Some id id id is_password no_ldap None in
  let '(s1, r1) := authenticate_password (demo users) None (Some (from_user_id "mallory")) "s1" 1 in
  let '(s2, r2) := authenticate_password s1 (Some (Password (Some (UserIdOrLocalpart "mallory")) "mallory", Some "s1"))
    (Some (from_user_id "alice")) "s2" 2 in
  r2 = Ok (from_user_id "mallory").
Proof.
  exact (password_of_other_account_accepted info_text read_info id (λ _, true) Some id id id is_password no_ldap None
    (demo users) "mallory" "mallory" "mallory" "alice" "s1" "s2" 1 2 eq_refl eq_refl).
Defined.
End UiaaDemo.
