(* ===== verification/Sending.v ===== *)
(** * The queues of outgoing transactions

    Models [src/service/sending/]: [dest.rs] and [data.rs] (the tables of queued and active
    events and their keys), the queueing of [mod.rs], and the worker of [sender.rs]: which
    transactions run, which failed, what is sent next.

    The worker is a function of its state and of what happens to it; the system runs it with
    its channel and its transactions in flight. *)

From S2P Require Import Prelude Bytes PduId DbMap DbSer DbScan Short Backoff.

Local Open Scope Z_scope.

(** ** Destinations *)

Inductive Destination :=
  | Appservice (id : string)
  | Push (user pushkey : string)
  | Federation (server : string).
#[export] Instance Destination_eq_dec : EqDecision Destination.
Proof. solve_decision. Defined.
#[export] Program Instance Destination_countable : Countable Destination :=
  inj_countable'
    (λ d, match d with Appservice i => inl i | Push u p => inr (inl (u, p)) | Federation s => inr (inr s) end)
    (λ x, match x with inl i => Appservice i | inr (inl (u, p)) => Push u p | inr (inr s) => Federation s end) _.
Next Obligation. by intros []. Qed.

Definition PLUS : byte := x2b.
Definition DOLLAR : byte := x24.

Definition get_prefix (d : Destination) : bytes :=
  match d with
  | Federation server => bytes_of_string server ++ [SEP]
  | Appservice server => PLUS :: bytes_of_string server ++ [SEP]
  | Push user pushkey => DOLLAR :: bytes_of_string user ++ SEP :: bytes_of_string pushkey ++ [SEP]
  end.

(** The stored position of an event, a serialized ephemeral event, or nothing. *)
Inductive SendingEvent :=
  | Pdu (pdu_id : RawId)
  | Edu (buf : bytes)
  | Flush.
#[export] Instance RawId_eq_dec : EqDecision RawId.
Proof. solve_decision. Defined.
#[export] Instance SendingEvent_eq_dec : EqDecision SendingEvent.
Proof. solve_decision. Defined.

Inductive SendingError := BadDatabase.

(** ** Keys *)

(** [splitn(2, 0xFF)]. *)
Fixpoint splitn2 (k : bytes) : bytes * option bytes :=
  match k with
  | [] => ([], None)
  | b :: k => if bool_decide (b = SEP) then ([], Some k) else let '(p, r) := splitn2 k in (b :: p, r)
  end.

Definition event_bytes (event : SendingEvent) : bytes := match event with Edu value => value | _ => [] end.

Section parse.
(** [ruma]'s validity of user ids and server names. *)
Context (valid_user_id valid_server_name : string → bool).

Definition text (b : bytes) : outcome SendingError string :=
  if utf8_valid b then Ok (string_of_bytes b) else Err BadDatabase.
Definition parse_event (event value : bytes) : outcome SendingError SendingEvent :=
  match value with
  | [] => match raw_of_slice event with Ok r => Ok (Pdu r) | _ => Panic end
  | _ => Ok (Edu value)
  end.
Definition valid (p : string → bool) (s : string) : outcome SendingError string := if p s then Ok s else Err BadDatabase.

Definition parse_servercurrentevent (key value : bytes) : outcome SendingError (Destination * SendingEvent) :=
  let federation :=
    let '(server, event) := splitn2 key in
    event ← ok_or BadDatabase event;
    server ← text server;
    server ← valid valid_server_name server;
    event ← parse_event event value;
    Ok (Federation server, event) in
  match key with
  | sigil :: rest =>
      if bool_decide (sigil = PLUS) then
        let '(server, event) := splitn2 rest in
        event ← ok_or BadDatabase event;
        server ← text server;
        event ← parse_event event value;
        Ok (Appservice server, event)
      else if bool_decide (sigil = DOLLAR) then
        let '(user, rest) := splitn2 rest in
        user ← text user;
        user_id ← valid valid_user_id user;
        rest ← ok_or BadDatabase rest;
        let '(pushkey, event) := splitn2 rest in
        pushkey ← text pushkey;
        event ← ok_or BadDatabase event;
        event ← parse_event event value;
        Ok (Push user_id pushkey, event)
      else federation
  | [] => federation
  end.
End parse.

(** ** The tables *)

Section sending.
Context {DB : Type} `{Store DB}.
Context (valid_user_id valid_server_name : string → bool).
Local Notation parse_servercurrentevent := (parse_servercurrentevent valid_user_id valid_server_name).

Record SendingData := mkSendingData {
  servercurrentevent_data : DB;
  servernameevent_data : DB;
  servername_educount : DB;
  sending_globals : Globals DB;
}.
Implicit Types (d : SendingData) (dest : Destination).

Abbreviation OutgoingItem := (bytes * SendingEvent * Destination)%type.
Abbreviation QueueItem := (bytes * SendingEvent)%type.

Definition with_active d (m : DB) : SendingData := mkSendingData m (servernameevent_data d) (servername_educount d) (sending_globals d).
Definition with_queue d (m : DB) : SendingData := mkSendingData (servercurrentevent_data d) m (servername_educount d) (sending_globals d).

Definition delete_active_request d (key : bytes) : SendingData := with_active d (map_remove (servercurrentevent_data d) key).
Definition delete_all_active_requests_for d dest : SendingData :=
  with_active d (remove_keys (servercurrentevent_data d) (raw_keys_prefix (servercurrentevent_data d) (get_prefix dest))).
Definition delete_all_requests_for d dest : SendingData :=
  let d := delete_all_active_requests_for d dest in
  with_queue d (remove_keys (servernameevent_data d) (raw_keys_prefix (servernameevent_data d) (get_prefix dest))).

Definition mark_one d (item : QueueItem) : SendingData :=
  if bool_decide (item.1 = []) then d
  else
    mkSendingData (map_insert (servercurrentevent_data d) item.1 (event_bytes item.2))
      (map_remove (servernameevent_data d) item.1) (servername_educount d) (sending_globals d).
Definition mark_as_active d (events : list QueueItem) : SendingData := foldl mark_one d events.

(** A stored entry that cannot be parsed stops the worker when it is reached. *)
Definition outgoing_item (kv : KeyVal) : outcome SendingError OutgoingItem :=
  match parse_servercurrentevent kv.1 kv.2 with
  | Ok (dest, event) => Ok (kv.1, event, dest)
  | _ => Panic
  end.
Definition queue_item (kv : KeyVal) : outcome SendingError QueueItem := '(item, _) ← outgoing_item kv; Ok item.
Definition active_requests d : list (outcome SendingError OutgoingItem) :=
  outgoing_item <$> raw_stream_from (servercurrentevent_data d) [].
Definition active_requests_for d dest : list (outcome SendingError QueueItem) :=
  queue_item <$> raw_stream_prefix (servercurrentevent_data d) (get_prefix dest).
Definition queued_requests d dest : list (outcome SendingError QueueItem) :=
  queue_item <$> raw_stream_prefix (servernameevent_data d) (get_prefix dest).
(** [collect]. *)
Definition collect {A} (l : list (outcome SendingError A)) : outcome SendingError (list A) := try_map id l.

Definition request_key (g : Globals DB) (event : SendingEvent) dest : bytes * Globals DB :=
  match event with
  | Pdu value => (get_prefix dest ++ as_bytes value, g)
  | _ => let '(count, g) := next_count g in (get_prefix dest ++ u64_be count, g)
  end.
Fixpoint request_keys (g : Globals DB) (requests : list (SendingEvent * Destination)) : list bytes * Globals DB :=
  match requests with
  | [] => ([], g)
  | (event, dest) :: requests =>
      let '(key, g) := request_key g event dest in
      let '(keys, g) := request_keys g requests in (key :: keys, g)
  end.
Definition queue_requests d (requests : list (SendingEvent * Destination)) : SendingData * list bytes :=
  let '(keys, g) := request_keys (sending_globals d) requests in
  (mkSendingData (servercurrentevent_data d)
     (insert_batch (servernameevent_data d) (zip keys (event_bytes <$> requests.*1))) (servername_educount d) g, keys).

Definition set_latest_educount d (server_name : string) (last_count : Z) : SendingData :=
  mkSendingData (servercurrentevent_data d) (servernameevent_data d)
    (map_insert (servername_educount d) (bytes_of_string server_name) (u64_be last_count)) (sending_globals d).
Definition get_latest_educount d (server_name : string) : Z :=
  match deserialized_u64 (map_get (servername_educount d) (bytes_of_string server_name)) with Ok n => n | _ => 0 end.

(** ** Messages to the worker *)

Record Msg := mkMsg { msg_dest : Destination; msg_event : SendingEvent; queue_id : bytes }.

(** The shard of a destination among the senders. *)
Definition shard_id (hash : Destination → Z) (num_senders : Z) dest : Z :=
  if bool_decide (num_senders ≤ 1) then 0 else hash dest mod num_senders.

(** Queueing for one or several destinations: the messages that are dispatched. *)
Definition send_requests d (requests : list (SendingEvent * Destination)) : SendingData * list Msg :=
  let '(d, keys) := queue_requests d requests in
  (d, zip_with (λ (r : SendingEvent * Destination) key, mkMsg r.2 r.1 key) requests keys).
Definition send_pdu_push d (pdu_id : RawId) (user pushkey : string) := send_requests d [(Pdu pdu_id, Push user pushkey)].
Definition send_pdu_appservice d (appservice_id : string) (pdu_id : RawId) := send_requests d [(Pdu pdu_id, Appservice appservice_id)].
Definition send_pdu_servers d (servers : list string) (pdu_id : RawId) :=
  send_requests d ((λ server, (Pdu pdu_id, Federation server)) <$> servers).
Definition send_edu_server d (server : string) (serialized : bytes) := send_requests d [(Edu serialized, Federation server)].
Definition send_edu_servers d (servers : list string) (serialized : bytes) :=
  send_requests d ((λ server, (Edu serialized, Federation server)) <$> servers).
Definition flush_servers (servers : list string) : list Msg := (λ server, mkMsg (Federation server) Flush []) <$> servers.
(** To the servers of a room, except this one. *)
Definition other_servers (server_is_ours : string → bool) (room_servers : list string) : list string :=
  filter (λ server, server_is_ours server = false) room_servers.
Definition send_pdu_room d server_is_ours room_servers (pdu_id : RawId) :=
  send_pdu_servers d (other_servers server_is_ours room_servers) pdu_id.
Definition send_edu_room d server_is_ours room_servers (serialized : bytes) :=
  send_edu_servers d (other_servers server_is_ours room_servers) serialized.
Definition flush_room server_is_ours room_servers := flush_servers (other_servers server_is_ours room_servers).

Definition cleanup_events d (appservice_id user_id push_key : option string) : SendingData :=
  match appservice_id, user_id, push_key with
  | None, Some user_id, Some push_key => delete_all_requests_for d (Push user_id push_key)
  | Some appservice_id, None, None => delete_all_requests_for d (Appservice appservice_id)
  | _, _, _ => d
  end.

(** ** The worker *)

Inductive TransactionStatus :=
  | Running
  | Failed (tries : Z) (time : Z)
  | Retrying (tries : Z).

Definition DEQUEUE_LIMIT : nat := 48.

Record SenderConfig := mkSenderConfig {
  sender_timeout : Z;
  sender_retry_backoff_limit : Z;
  startup_netburst : bool;
  startup_netburst_keep : Z;
}.
(** A transaction in flight: where it goes and what it carries. *)
Abbreviation Transaction := (Destination * list SendingEvent)%type.
Record Worker := mkWorker {
  data : SendingData;
  statuses : gmap Destination TransactionStatus;
  futures : list Transaction;
}.
Implicit Types (w : Worker) (now : Z).
Definition with_data w d : Worker := mkWorker d (statuses w) (futures w).

Context (config : SenderConfig).
(** The ephemeral events a federation transaction takes along, and the count they reach. *)
Context (select_edus : SendingData → string → option (list bytes * Z)).

Definition handle_response_err w dest now : outcome SendingError Worker :=
  match statuses w !! dest with
  | None => Ok w
  | Some Running => Ok (mkWorker (data w) (<[dest := Failed 1 now]> (statuses w)) (futures w))
  | Some (Retrying n) => Ok (mkWorker (data w) (<[dest := Failed (Z.min (n + 1) u32_max) now]> (statuses w)) (futures w))
  | Some (Failed _ _) => Panic
  end.

Definition handle_response_ok w dest : outcome SendingError Worker :=
  let d := delete_all_active_requests_for (data w) dest in
  new_events ← collect (take DEQUEUE_LIMIT (queued_requests d dest));
  match new_events with
  | [] => Ok (mkWorker d (delete dest (statuses w)) (futures w))
  | _ => Ok (mkWorker (mark_as_active d new_events) (statuses w) (futures w ++ [(dest, new_events.*2)]))
  end.

Definition is_appservice dest : bool := match dest with Appservice _ => true | _ => false end.

(** Whether a transaction to the destination may start now, and whether it retries. *)
Definition select_events_current (st : gmap Destination TransactionStatus) dest now
    : gmap Destination TransactionStatus * (bool * bool) :=
  match st !! dest with
  | None => (<[dest := Running]> st, (true, false))
  | Some (Failed tries time) =>
      if continue_exponential_backoff_secs (sender_timeout config) (sender_retry_backoff_limit config) (now - time) tries
         && negb (is_appservice dest)
      then (st, (false, false))
      else (<[dest := Retrying tries]> st, (true, true))
  | Some _ => (st, (false, false))
  end.

Definition select_events w dest (new_events : list QueueItem) now : outcome SendingError (Worker * option (list SendingEvent)) :=
  let '(st, (allow, retry)) := select_events_current (statuses w) dest now in
  let w := mkWorker (data w) st (futures w) in
  if negb allow then Ok (w, None)
  else if (retry : bool) then
    events ← collect (active_requests_for (data w) dest); Ok (w, Some (events.*2))
  else
    let d := mark_as_active (data w) new_events in
    match dest with
    | Federation server_name =>
        match select_edus d server_name with
        | Some (edus, last_count) =>
            Ok (with_data w (set_latest_educount d server_name last_count), Some (new_events.*2 ++ (Edu <$> edus)))
        | None => Ok (with_data w d, Some (new_events.*2))
        end
    | _ => Ok (with_data w d, Some (new_events.*2))
    end.

Definition handle_request w (msg : Msg) now : outcome SendingError Worker :=
  '(w, events) ← select_events w (msg_dest msg) [(queue_id msg, msg_event msg)] now;
  match events with
  | None => Ok w
  | Some [] => Ok (mkWorker (data w) (delete (msg_dest msg) (statuses w)) (futures w))
  | Some events => Ok (mkWorker (data w) (statuses w) (futures w ++ [(msg_dest msg, events)]))
  end.

(** What is left of the transactions of the last run: per destination the events that are
    kept, in order; the map gives them in some order. *)
Fixpoint burst (mine : Destination → bool) d (txns : gmap Destination (list SendingEvent)) (active : list OutgoingItem)
    : SendingData * gmap Destination (list SendingEvent) :=
  match active with
  | [] => (d, txns)
  | (key, event, dest) :: active =>
      if negb (mine dest) then burst mine d txns active
      else
        let entry := default [] (txns !! dest) in
        if bool_decide (0 ≤ startup_netburst_keep config) && bool_decide (startup_netburst_keep config ≤ Z.of_nat (length entry))
        then burst mine (delete_active_request d key) (<[dest := entry]> txns) active
        else burst mine d (<[dest := entry ++ [event]]> txns) active
  end.
Definition startup_netburst_worker (mine : Destination → bool) d : outcome SendingError Worker :=
  active ← collect (active_requests d);
  let '(d, txns) := burst mine d ∅ active in
  let started := filter (λ t : Transaction, startup_netburst config = true ∧ t.2 ≠ []) (map_to_list txns) in
  Ok (mkWorker d (list_to_map ((λ t : Transaction, (t.1, Running)) <$> started)) started).

(** ** The system

    What other services do with the queues, what the worker receives, and what becomes of
    its transactions; [delivered] records the transactions that were answered. *)

Inductive action :=
  | Queue (requests : list (SendingEvent * Destination))
  | FlushServers (servers : list string)
  | Cleanup (appservice_id user_id push_key : option string)
  | Receive (now : Z)
  | Respond (i : nat) (success : bool) (now : Z)
  | RestartWorker.
Record System := mkSystem { worker : Worker; channel : list Msg; delivered : list (Destination * SendingEvent) }.

Definition handle_response w (t : Transaction) (success : bool) now : outcome SendingError Worker :=
  if success then handle_response_ok w t.1 else handle_response_err w t.1 now.

Definition act (s : System) (a : action) : outcome SendingError System :=
  match a with
  | Queue requests =>
      let '(d, msgs) := send_requests (data (worker s)) requests in
      Ok (mkSystem (with_data (worker s) d) (channel s ++ msgs) (delivered s))
  | FlushServers servers => Ok (mkSystem (worker s) (channel s ++ flush_servers servers) (delivered s))
  | Cleanup appservice_id user_id push_key =>
      Ok (mkSystem (with_data (worker s) (cleanup_events (data (worker s)) appservice_id user_id push_key)) (channel s) (delivered s))
  | Receive now =>
      match channel s with
      | [] => Ok s
      | msg :: rest => w ← handle_request (worker s) msg now; Ok (mkSystem w rest (delivered s))
      end
  | Respond i success now =>
      match futures (worker s) !! i with
      | None => Ok s
      | Some t =>
          let w := mkWorker (data (worker s)) (statuses (worker s)) (list_delete i (futures (worker s))) in
          w ← handle_response w t success now;
          Ok (mkSystem w (channel s) (delivered s ++ if success then pair t.1 <$> t.2 else []))
      end
  | RestartWorker => w ← startup_netburst_worker (λ _, true) (data (worker s)); Ok (mkSystem w [] (delivered s))
  end.
Fixpoint acts (s : System) (l : list action) : outcome SendingError System :=
  match l with [] => Ok s | a :: l => s ← act s a; acts s l end.
End sending.
