(* ===== verification/SendingProps.v ===== *)
(** * Theorems on the queues of outgoing transactions

    Keys name their destination and event; the worker never panics; and no queued event is
    lost: it stays in one of the two tables until a transaction that carried it succeeds. *)

From S2P Require Import Prelude Bytes PduId DbMap DbSer DbScan Short ShortProps Sending.

Local Open Scope Z_scope.

(** ** Keys *)

Lemma splitn2_sep p r : SEP ∉ p → splitn2 (p ++ SEP :: r) = (p, Some r).
Proof.
  induction p as [|b p IH]; intros Hp; cbn; [done|].
  rewrite bool_decide_eq_false_2 by set_solver. by rewrite IH by set_solver.
Qed.

Section keys.
Context (valid_user_id valid_server_name : string → bool).

(** Destinations as the services make them: names are texts, and a server name starts with
    neither sigil. *)
Definition dest_ok (d : Destination) : Prop :=
  match d with
  | Appservice id => utf8 id
  | Push user pushkey => utf8 user ∧ valid_user_id user = true ∧ utf8 pushkey
  | Federation server =>
      utf8 server ∧ valid_server_name server = true ∧
      head (bytes_of_string server) ≠ Some PLUS ∧ head (bytes_of_string server) ≠ Some DOLLAR
  end.
(** Events that are queued. *)
Definition event_ok (e : SendingEvent) : Prop :=
  match e with Pdu r => raw_of_slice (as_bytes r) = Ok r | Edu b => b ≠ [] | Flush => False end.
(** What follows the destination in a key. *)
Definition event_tail (e : SendingEvent) (tail : bytes) : Prop :=
  match e with Pdu r => tail = as_bytes r | _ => length tail = 8%nat end.

Lemma text_utf8 s : utf8 s → text (bytes_of_string s) = Ok s.
Proof. intros Hs. unfold text. unfold utf8 in Hs. by rewrite Hs, string_of_bytes_of_string. Qed.
Lemma parse_event_tail e tail : event_ok e → event_tail e tail → parse_event tail (event_bytes e) = Ok e.
Proof. destruct e as [r|[|b l]|]; cbn; [|done..]. intros He ->. by rewrite He. Qed.

Lemma parse_key d e tail :
  dest_ok d → event_ok e → event_tail e tail →
  parse_servercurrentevent valid_user_id valid_server_name (get_prefix d ++ tail) (event_bytes e) = Ok (d, e).
Proof.
  intros Hd He Ht. pose proof (parse_event_tail e tail He Ht) as Hp. destruct d as [id|user pushkey|server].
  - unfold parse_servercurrentevent. cbn [get_prefix app]. rewrite bool_decide_eq_true_2 by done.
    rewrite <- (assoc_L (++)). cbn [app]. rewrite splitn2_sep by (by apply utf8_no_sep).
    cbn. rewrite text_utf8 by done. cbn. by rewrite Hp.
  - destruct Hd as (Hu & Hv & Hk). unfold parse_servercurrentevent. cbn [get_prefix app].
    rewrite bool_decide_eq_false_2, bool_decide_eq_true_2 by done. rewrite <- (assoc_L (++)). cbn [app].
    rewrite splitn2_sep by (by apply utf8_no_sep). rewrite text_utf8 by done. cbn. unfold valid. rewrite Hv. cbn.
    rewrite <- (assoc_L (++)). cbn [app]. rewrite splitn2_sep by (by apply utf8_no_sep). rewrite text_utf8 by done. cbn. by rewrite Hp.
  - destruct Hd as (Hs & Hv & H1 & H2). unfold parse_servercurrentevent. cbn [get_prefix].
    rewrite <- (assoc_L (++)). cbn [app].
    assert (∀ A (x y z : A), (match bytes_of_string server ++ SEP :: tail with
      | sigil :: rest => if bool_decide (sigil = PLUS) then x else if bool_decide (sigil = DOLLAR) then y else z
      | [] => z end) = z) as Hz.
    { intros A x y z. destruct (bytes_of_string server) as [|b l]; cbn in *.
      - by rewrite !bool_decide_eq_false_2 by done.
      - by rewrite !bool_decide_eq_false_2 by congruence. }
    destruct (bytes_of_string server ++ SEP :: tail) as [|b l] eqn:E; [by destruct (bytes_of_string server)|].
    assert (b ≠ PLUS ∧ b ≠ DOLLAR) as [Hb1 Hb2].
    { destruct (bytes_of_string server) as [|b' l']; cbn in *; [by injection E as <- _|]. injection E as <- _.
      split; congruence. }
    rewrite !bool_decide_eq_false_2 by done. rewrite <- E, splitn2_sep by (by apply utf8_no_sep). cbn.
    rewrite text_utf8 by done. cbn. unfold valid. rewrite Hv. cbn. by rewrite Hp.
Qed.

(** Destinations are told apart by their prefixes, whatever follows. *)
Lemma get_prefix_inj d d' t t' : dest_ok d → dest_ok d' → get_prefix d ++ t = get_prefix d' ++ t' → d = d' ∧ t = t'.
Proof.
  intros Hd Hd'.
  destruct d as [i|u p|s], d' as [i'|u' p'|s']; cbn [get_prefix dest_ok app] in *.
  - intros [= E]. rewrite <- !(assoc_L (++)) in E.
    apply split_at_sep in E as [->%bytes_of_string_inj ->]; [done|by apply utf8_no_sep..].
  - done.
  - intros E. destruct Hd' as (_ & _ & H1 & _). destruct (bytes_of_string s'); [discriminate E|]. injection E; intros; subst; by destruct H1.
  - done.
  - intros [= E]. rewrite <- !(assoc_L (++)) in E. cbn [app] in E.
    destruct Hd as (Hu & _ & Hp), Hd' as (Hu' & _ & Hp').
    apply split_at_sep in E as [->%bytes_of_string_inj E]; [|by apply utf8_no_sep..].
    rewrite <- !(assoc_L (++)) in E. cbn [app] in E.
    by apply split_at_sep in E as [->%bytes_of_string_inj ->]; [|by apply utf8_no_sep..].
  - intros E. destruct Hd' as (_ & _ & _ & H1). destruct (bytes_of_string s'); [discriminate E|]. injection E; intros; subst; by destruct H1.
  - intros E. destruct Hd as (_ & _ & H1 & _). destruct (bytes_of_string s); [discriminate E|]. injection E; intros; subst; by destruct H1.
  - intros E. destruct Hd as (_ & _ & _ & H1). destruct (bytes_of_string s); [discriminate E|]. injection E; intros; subst; by destruct H1.
  - intros E. destruct Hd as (Hs & _), Hd' as (Hs' & _).
    rewrite <- !(assoc_L (++)) in E. apply split_at_sep in E as [->%bytes_of_string_inj ->]; [done|by apply utf8_no_sep..].
Qed.
Lemma prefix_of_key d d' t : dest_ok d → dest_ok d' → starts_with (get_prefix d ++ t) (get_prefix d') ↔ d = d'.
Proof.
  intros Hd Hd'. split.
  - intros E%starts_with_split. by apply get_prefix_inj in E as [? _].
  - intros ->. unfold starts_with. by rewrite take_app_length.
Qed.
End keys.

(** ** The tables *)

Lemma collect_items {A} (f : KeyVal → outcome SendingError A) (rows : list KeyVal) :
  (∀ kv, kv ∈ rows → ∃ it, f kv = Ok it) → ∃ its, collect (f <$> rows) = Ok its ∧ Forall2 (λ kv it, f kv = Ok it) rows its.
Proof.
  induction rows as [|kv rows IH]; intros Hf; [by exists []|].
  destruct (Hf kv) as [it Hit]; [by left|]. destruct IH as (its & Hc & HF); [intros; apply Hf; by right|].
  exists (it :: its). split; [|by constructor]. unfold collect in *. cbn. rewrite Hit. cbn. by rewrite Hc.
Qed.

Section tables.
Context {DB : Type} `{Store DB}.
Context (valid_user_id valid_server_name : string → bool).
Local Notation dest_ok := (dest_ok valid_user_id valid_server_name).
Implicit Types (m : DB) (D : SendingData (DB := DB)) (K : gmap bytes (Destination * SendingEvent)).

(** [K] tells for which destination and event a key was made; counts up to [c] are used. *)
Definition key_ok (c : Z) (k : bytes) (d : Destination) (e : SendingEvent) : Prop :=
  dest_ok d ∧ event_ok e ∧ ∃ tail, k = get_prefix d ++ tail ∧ event_tail e tail ∧
    match e with Edu _ => ∃ n, tail = u64_be n ∧ 0 ≤ n ≤ c | _ => True end.
Definition keys_ok K (c : Z) : Prop := is_u64 c ∧ ∀ k d e, K !! k = Some (d, e) → key_ok c k d e.
Definition rows_ok K m : Prop := ∀ k v, map_get m k = Some v → ∃ d e, K !! k = Some (d, e) ∧ v = event_bytes e.
Definition tables_ok K D : Prop :=
  keys_ok K (counter (sending_globals D)) ∧ rows_ok K (servercurrentevent_data D) ∧ rows_ok K (servernameevent_data D).

Lemma key_starts K c k d e d' : keys_ok K c → K !! k = Some (d, e) → dest_ok d' → starts_with k (get_prefix d') ↔ d = d'.
Proof. intros [_ HK] Hk Hd'. destruct (HK _ _ _ Hk) as (Hd & _ & t & -> & _). by apply (prefix_of_key valid_user_id valid_server_name). Qed.
Lemma key_nonempty K c k d e : keys_ok K c → K !! k = Some (d, e) → k ≠ [].
Proof.
  intros [_ HK] Hk. destruct (HK _ _ _ Hk) as (Hd & _ & t & -> & _). destruct d; cbn; try done.
  by destruct (bytes_of_string server).
Qed.
Lemma outgoing_item_ok K c k d e :
  keys_ok K c → K !! k = Some (d, e) → outgoing_item valid_user_id valid_server_name (k, event_bytes e) = Ok (k, e, d).
Proof.
  intros [_ HK] Hk. destruct (HK _ _ _ Hk) as (Hd & He & t & -> & Ht & _). unfold outgoing_item. cbn [fst snd].
  by rewrite parse_key.
Qed.

(** The keys of a destination in a table. *)
Lemma elem_of_dest_keys K c m k d d' e :
  keys_ok K c → K !! k = Some (d, e) → dest_ok d' →
  k ∈ raw_keys_prefix m (get_prefix d') ↔ is_Some (map_get m k) ∧ d = d'.
Proof. intros HK Hk Hd'. by rewrite elem_of_raw_keys, (key_starts K c k d e d'). Qed.
Lemma dest_key K c m k d : keys_ok K c → rows_ok K m → dest_ok d → k ∈ raw_keys_prefix m (get_prefix d) →
  ∃ e, K !! k = Some (d, e) ∧ map_get m k = Some (event_bytes e).
Proof.
  intros HK Hm Hd [[v Hv] Hp]%elem_of_raw_keys. destruct (Hm _ _ Hv) as (d' & e & Hk & ->).
  apply (key_starts K c k d' e d) in Hp as <-; [|done..]. by exists e.
Qed.

(** What [collect] of a scan of one destination gives. *)
Lemma collect_dest K c m d n :
  keys_ok K c → rows_ok K m → dest_ok d →
  ∃ items, collect (take n (queue_item valid_user_id valid_server_name <$> raw_stream_prefix m (get_prefix d))) = Ok items ∧
    items.*1 = take n (raw_keys_prefix m (get_prefix d)) ∧ ∀ k e, (k, e) ∈ items → K !! k = Some (d, e) ∧ is_Some (map_get m k).
Proof.
  intros HK Hm Hd. rewrite <- fmap_take. set (rows := take n (raw_stream_prefix m (get_prefix d))).
  assert (∀ kv, kv ∈ rows → ∃ e, K !! kv.1 = Some (d, e) ∧ kv.2 = event_bytes e ∧ is_Some (map_get m kv.1)) as Hrows.
  { intros [k v] Hkv. apply elem_of_take in Hkv as (i & Hi & _). apply list_elem_of_lookup_2 in Hi.
    pose proof (proj1 (elem_of_raw_stream_prefix _ _ _ _) Hi) as [Hv _].
    destruct (dest_key K c m k d HK Hm Hd) as (e & Hk & Hv'); [apply list_elem_of_fmap; by exists (k, v)|].
    exists e. cbn. split; [done|]. split; [congruence|by exists v]. }
  destruct (collect_items (queue_item valid_user_id valid_server_name) rows) as (items & -> & HF).
  { intros [k v] (e & Hk & Hv & _)%Hrows. unfold queue_item. cbn in Hk, Hv. subst v. by rewrite (outgoing_item_ok K c k d e) by done; eexists. }
  exists items. split; [done|]. split.
  - unfold raw_keys_prefix. rewrite <- fmap_take. fold rows. clear -HF HK Hrows.
    induction HF as [|[k v] it rows items Hit _ IH]; [done|]. rewrite !fmap_cons. f_equal.
    + destruct (Hrows (k, v)) as (e & Hk & Hv & _); [by left|]. cbn in Hk, Hv. subst v. unfold queue_item in Hit.
      rewrite (outgoing_item_ok K c k d e) in Hit by done. by injection Hit as <-.
    + apply IH. intros kv Hkv. apply Hrows. by right.
  - intros k e Hin. apply list_elem_of_lookup in Hin as [i Hi].
    destruct (Forall2_lookup_r _ _ _ _ _ HF Hi) as ([k' v] & Hkv & Hit). apply list_elem_of_lookup_2 in Hkv.
    destruct (Hrows _ Hkv) as (e' & Hk & Hv & Hs). cbn in Hk, Hv, Hs. subst v. unfold queue_item in Hit.
    rewrite (outgoing_item_ok K c k' d e') in Hit by done. by injection Hit as <- <-.
Qed.

(** Marking: the events move from the queue to the active events. *)
Lemma get_mark_as_active D items k :
  Forall (λ it, it.1 ≠ []) items →
  map_get (servernameevent_data (mark_as_active D items)) k
    = (if bool_decide (k ∈ items.*1) then None else map_get (servernameevent_data D) k)
  ∧ (∀ v, map_get (servercurrentevent_data (mark_as_active D items)) k = Some v →
       (∃ e, (k, e) ∈ items ∧ v = event_bytes e) ∨ map_get (servercurrentevent_data D) k = Some v)
  ∧ (is_Some (map_get (servercurrentevent_data D) k) ∨ k ∈ items.*1 →
       is_Some (map_get (servercurrentevent_data (mark_as_active D items)) k))
  ∧ sending_globals (mark_as_active D items) = sending_globals D.
Proof.
  intros HF. revert D. induction HF as [|[k' e] items Hne _ IH]; intros D.
  - cbn. rewrite bool_decide_eq_false_2 by apply not_elem_of_nil. split_and!; [done|by right| |done].
    by intros [|?%not_elem_of_nil].
  - cbn [mark_as_active foldl]. unfold mark_as_active in IH. destruct (IH (mark_one D (k', e))) as (I1 & I2 & I3 & I4).
    assert (mark_one D (k', e) = mkSendingData (map_insert (servercurrentevent_data D) k' (event_bytes e))
      (map_remove (servernameevent_data D) k') (servername_educount D) (sending_globals D)) as E.
    { unfold mark_one. cbn [fst snd]. by rewrite bool_decide_eq_false_2. }
    rewrite fmap_cons. cbn [fst]. split_and!.
    + rewrite I1, E. cbn [servernameevent_data]. destruct (decide (k = k')) as [->|Hk].
      * rewrite map_get_remove_eq, (bool_decide_eq_true_2 (_ ∈ _ :: _)) by set_solver. by case_bool_decide.
      * rewrite map_get_remove_ne by done. by rewrite (bool_decide_ext (k ∈ k' :: items.*1) (k ∈ items.*1)) by set_solver.
    + intros v Hv. destruct (I2 _ Hv) as [(e' & ? & ?)|Hv']; [left; exists e'; by split; [right|]|].
      rewrite E in Hv'. cbn in Hv'. destruct (decide (k = k')) as [->|Hk].
      * rewrite map_get_insert_eq in Hv'. injection Hv' as <-. left. exists e. by split; [left|].
      * rewrite map_get_insert_ne in Hv' by done. by right.
    + intros Hk. apply I3. rewrite E. cbn. destruct (decide (k = k')) as [->|Hne'].
      * left. by rewrite map_get_insert_eq.
      * rewrite map_get_insert_ne by done. set_solver.
    + by rewrite I4, E.
Qed.
Lemma tables_mark K D items d :
  tables_ok K D → (∀ k e, (k, e) ∈ items → K !! k = Some (d, e)) → tables_ok K (mark_as_active D items).
Proof.
  intros (HK & Hc & Hn) Hi.
  assert (Forall (λ it : bytes * SendingEvent, it.1 ≠ []) items) as HF.
  { apply Forall_forall. intros [k e] Hin. eapply key_nonempty; [done|]. by apply (Hi k e). }
  split; [by rewrite (proj2 (proj2 (proj2 (get_mark_as_active D items [] HF))))|]. split.
  - intros k v Hv. destruct (get_mark_as_active D items k HF) as (_ & I2 & _). destruct (I2 _ Hv) as [(e & Hin & ->)|Hv']; [|by apply Hc].
    exists d, e. split; [by apply Hi|done].
  - intros k v Hv. rewrite (proj1 (get_mark_as_active D items k HF)) in Hv. case_bool_decide; [done|]. by apply Hn.
Qed.

Lemma get_delete_active K D d k d' e :
  tables_ok K D → dest_ok d → K !! k = Some (d', e) →
  map_get (servercurrentevent_data (delete_all_active_requests_for D d)) k
  = if bool_decide (d' = d) then None else map_get (servercurrentevent_data D) k.
Proof.
  intros (HK & _) Hd Hk. cbn. rewrite get_remove_keys. case_bool_decide as Hin.
  - apply (elem_of_dest_keys _ _ _ _ _ _ _ HK Hk Hd) in Hin as [_ ->]. by rewrite bool_decide_eq_true_2.
  - case_bool_decide as Hdd; [|done]. destruct (map_get _ k) as [v|] eqn:Hv; [|done]. destruct Hin.
    apply (elem_of_dest_keys _ _ _ _ _ _ _ HK Hk Hd). by rewrite Hv.
Qed.
Lemma rows_remove K m keys : rows_ok K m → rows_ok K (remove_keys m keys).
Proof. intros Hm k v. rewrite get_remove_keys. case_bool_decide; [done|apply Hm]. Qed.
Lemma tables_delete_active K D d : tables_ok K D → tables_ok K (delete_all_active_requests_for D d).
Proof. intros (HK & Hc & Hn). split; [done|]. split; [|done]. by apply rows_remove. Qed.

(** *** Queueing *)

Definition request_ok (r : SendingEvent * Destination) : Prop := event_ok r.1 ∧ dest_ok r.2.

Lemma raw_length r : raw_of_slice (as_bytes r) = Ok r → length (as_bytes r) = 16%nat ∨ length (as_bytes r) = 24%nat.
Proof. unfold raw_of_slice. case_bool_decide; [by left|]. case_bool_decide; [by right|done]. Qed.

(** A fresh key, or the key the same event already has. *)
Lemma request_key_ok K g event dest :
  keys_ok K (counter g) → request_ok (event, dest) → counter g + 1 ≤ u64_max →
  let '(k, g') := request_key g event dest in
  let K' := <[k := (dest, event)]> K in
  K ⊆ K' ∧ keys_ok K' (counter g') ∧ counter g ≤ counter g' ≤ counter g + 1.
Proof.
  intros [Hu HK] [He Hd] Hb. cbn in He, Hd. unfold is_u64 in Hu.
  assert (∀ k c, counter g ≤ c → is_u64 c → (∀ x, K !! k = Some x → x = (dest, event)) → key_ok c k dest event →
    K ⊆ <[k := (dest, event)]> K ∧ keys_ok (<[k := (dest, event)]> K) c) as Hnew.
  { intros k c Hc Hcu Hsame Hk. split.
    - destruct (K !! k) as [x|] eqn:Ek; [|by apply insert_subseteq].
      rewrite insert_id; [done|]. by rewrite Ek, (Hsame x).
    - split; [done|]. intros k' d' e'. intros [[<- [= <- <-]]|[_ Hk']]%lookup_insert_Some; [done|].
      destruct (HK _ _ _ Hk') as (? & ? & t & -> & ? & Ht). split; [done|]. split; [done|]. exists t. split; [done|].
      split; [done|]. destruct e'; try done. destruct Ht as (n & -> & ?). exists n. split; [done|lia]. }
  destruct event as [r|b|]; cbn [request_key]; [| |by destruct He].
  - cbn in He. destruct (Hnew (get_prefix dest ++ as_bytes r) (counter g)) as [? ?]; [lia|done| | |split; [done|]; split; [done|lia]].
    + intros [d' e'] Hx. destruct (HK _ _ _ Hx) as (Hd' & He' & t & E & Ht & _).
      apply (get_prefix_inj valid_user_id valid_server_name) in E as [<- E]; [|done..]. subst t.
      pose proof (raw_length r He). destruct e' as [r'|b|]; cbn in Ht; [|lia|lia].
      do 2 f_equal. cbn in He'. rewrite Ht in He. rewrite He in He'. congruence.
    + split; [done|]. split; [done|]. by exists (as_bytes r).
  - unfold next_count. assert (u64_checked (counter g + 1) = Some (counter g + 1)) as ->.
    { unfold u64_checked, checked, in_range. by rewrite bool_decide_eq_true_2 by (unfold u64_max in *; lia). }
    cbn. destruct (Hnew (get_prefix dest ++ u64_be (counter g + 1)) (counter g + 1)) as [? ?];
      [lia|unfold is_u64, u64_max in *; lia| | |split; [done|]; split; [done|lia]].
    + intros [d' e'] Hx. exfalso. destruct (HK _ _ _ Hx) as (Hd' & He' & t & E & Ht & Hn).
      apply (get_prefix_inj valid_user_id valid_server_name) in E as [<- E]; [|done..]. subst t.
      destruct e' as [r'|b'|]; cbn [event_tail] in Ht; [| |done].
      * cbn in He'. pose proof (raw_length r' He') as Hl. rewrite <- Ht, length_u64_be in Hl. lia.
      * destruct Hn as (n & E & Hn). apply u64_be_inj in E; [lia|unfold is_u64, u64_max in *; lia..].
    + split; [done|]. split; [done|]. exists (u64_be (counter g + 1)). split; [done|]. split; [apply length_u64_be|].
      exists (counter g + 1). split; [done|lia].
Qed.
Lemma request_keys_ok K g rs :
  keys_ok K (counter g) → Forall request_ok rs → counter g + Z.of_nat (length rs) ≤ u64_max →
  let '(ks, g') := request_keys g rs in
  ∃ K', K ⊆ K' ∧ keys_ok K' (counter g') ∧ counter g' ≤ counter g + Z.of_nat (length rs) ∧
    Forall2 (λ k r, K' !! k = Some (r.2, r.1)) ks rs ∧ ∀ k, is_Some (K' !! k) → is_Some (K !! k) ∨ k ∈ ks.
Proof.
  intros HK Hrs. revert K g HK. induction Hrs as [|[event dest] rs Hr _ IH]; intros K g HK Hb; cbn [request_keys].
  - exists K. split; [done|]. split; [done|]. split; [cbn; lia|]. split; [constructor|]. by left.
  - cbn [length] in Hb. pose proof (request_key_ok K g event dest HK Hr ltac:(lia)) as Hk.
    destruct (request_key g event dest) as [k g1]. destruct Hk as (Hsub & HK1 & Hc).
    specialize (IH _ g1 HK1 ltac:(lia)). destruct (request_keys g1 rs) as [ks g2]. destruct IH as (K' & Hsub' & HK' & Hc' & HF & Hnew).
    exists K'. split; [by trans (<[k := (dest, event)]> K)|]. split; [done|]. split; [cbn [length]; lia|]. split.
    + constructor; [|done]. cbn. eapply lookup_weaken; [|done]. apply lookup_insert_eq.
    + intros k' [Hk'|?]%Hnew; [|right; by right]. destruct (decide (k = k')) as [->|Hne]; [right; by left|].
      rewrite lookup_insert_ne in Hk' by done. by left.
Qed.

Lemma get_insert_batch m rows k :
  (∀ v, map_get (insert_batch m rows) k = Some v → (k, v) ∈ rows ∨ map_get m k = Some v)
  ∧ (is_Some (map_get m k) ∨ k ∈ rows.*1 → is_Some (map_get (insert_batch m rows) k)).
Proof.
  revert m. induction rows as [|[k' v'] rows IH]; intros m; cbn [insert_batch foldl].
  - split; [by right|]. by intros [|?%not_elem_of_nil].
  - change (foldl (λ m row, map_insert m row.1 row.2) ?m rows) with (insert_batch m rows).
    destruct (IH (map_insert m k' v')) as [I1 I2]. split.
    + intros v [?|Hv]%I1; [left; by right|]. cbn in Hv. destruct (decide (k' = k)) as [->|Hne].
      * rewrite map_get_insert_eq in Hv. injection Hv as <-. left; by left.
      * rewrite map_get_insert_ne in Hv by done. by right.
    + intros Hk. apply I2. cbn in *. destruct (decide (k' = k)) as [->|Hne]; [left; by rewrite map_get_insert_eq|].
      rewrite map_get_insert_ne by done. set_solver.
Qed.

Lemma queue_requests_ok K D rs :
  tables_ok K D → Forall request_ok rs → counter (sending_globals D) + Z.of_nat (length rs) ≤ u64_max →
  let '(D', ks) := queue_requests D rs in
  ∃ K', K ⊆ K' ∧ tables_ok K' D' ∧ counter (sending_globals D') ≤ counter (sending_globals D) + Z.of_nat (length rs)
    ∧ servercurrentevent_data D' = servercurrentevent_data D
    ∧ Forall2 (λ k r, K' !! k = Some (r.2, r.1)) ks rs
    ∧ (∀ k, is_Some (K' !! k) → is_Some (K !! k) ∨ is_Some (map_get (servernameevent_data D') k))
    ∧ (∀ k, is_Some (map_get (servernameevent_data D) k) → is_Some (map_get (servernameevent_data D') k)).
Proof.
  intros (HK & Hc & Hn) Hrs Hb. unfold queue_requests. pose proof (request_keys_ok K _ rs HK Hrs Hb) as Hr.
  destruct (request_keys (sending_globals D) rs) as [ks g']. destruct Hr as (K' & Hsub & HK' & Hc' & HF & Hnew).
  exists K'. split; [done|].
  assert (∀ m, rows_ok K m → rows_ok K' m) as Hgrow.
  { intros m Hm k v Hv. destruct (Hm _ _ Hv) as (d & e & Hk & ->). exists d, e. split; [|done]. by eapply lookup_weaken. }
  assert ((zip ks (event_bytes <$> rs.*1)).*1 = ks) as Hz.
  { apply fst_zip. rewrite !length_fmap. apply Forall2_length in HF. lia. }
  split_and!; try done.
  - split; [done|]. split; [by apply Hgrow|]. cbn. intros k v [Hin|Hv]%(proj1 (get_insert_batch _ _ _)); [|by apply (Hgrow _ Hn)].
    apply list_elem_of_lookup in Hin as [i Hi]. apply lookup_zip_with_Some in Hi as (k' & v' & [= <- <-] & Hk & Hv).
    destruct (Forall2_lookup_l _ _ _ _ _ HF Hk) as ([e d] & Hr & HK1). exists d, e. split; [done|].
    rewrite !list_lookup_fmap, Hr in Hv. by injection Hv as <-.
  - intros k [?|Hin]%Hnew; [by left|right]. cbn. apply get_insert_batch. right. by rewrite Hz.
  - intros k Hk. cbn. apply get_insert_batch. by left.
Qed.
End tables.

(** The key under which an event is queued, with its row, is read back as the destination
    and the event. *)
Theorem queue_key_round_trip {DB} `{Store DB} (valid_user_id valid_server_name : string → bool) (g : Globals DB) d e :
  dest_ok valid_user_id valid_server_name d → event_ok e →
  parse_servercurrentevent valid_user_id valid_server_name (request_key g e d).1 (event_bytes e) = Ok (d, e).
Proof.
  intros Hd He. destruct e as [r|b|]; [| |by destruct He].
  - by apply parse_key.
  - unfold request_key. destruct (next_count g) as [c g']. cbn [fst]. apply parse_key; [done|done|]. apply length_u64_be.
Qed.
