(* ===== verification/SendingSystem.v ===== *)
(** * The sending system: nothing is lost, nothing panics

    An invariant of the worker, its tables, its transactions in flight and its channel, kept
    by every action; what follows for the events that were queued; and what the option
    against the burst at start-up does. *)

From S2P Require Import Prelude Bytes PduId DbMap DbSer DbScan Short ShortProps Sending SendingProps.

Local Open Scope Z_scope.

Definition is_running (st : option TransactionStatus) : bool :=
  match st with Some Running | Some (Retrying _) => true | _ => false end.

(** The transactions in flight to a destination. *)
Definition in_flight (d : Destination) (futs : list (Destination * list SendingEvent)) : nat :=
  length (filter (λ t, t.1 = d) futs).
Lemma in_flight_app d f1 f2 : in_flight d (f1 ++ f2) = (in_flight d f1 + in_flight d f2)%nat.
Proof. unfold in_flight. by rewrite filter_app, length_app. Qed.
Lemma in_flight_one d t : in_flight d [t] = if bool_decide (t.1 = d) then 1%nat else 0%nat.
Proof. unfold in_flight. rewrite filter_cons, filter_nil. case_decide; by case_bool_decide. Qed.
Lemma in_flight_delete d futs i t : futs !! i = Some t →
  in_flight d futs = ((if bool_decide (t.1 = d) then 1 else 0) + in_flight d (list_delete i futs))%nat.
Proof.
  intros Hi. unfold in_flight. rewrite (delete_Permutation futs i t Hi) at 1. rewrite filter_cons.
  case_decide; by case_bool_decide.
Qed.
Lemma in_flight_zero d futs : in_flight d futs = 0%nat ↔ ∀ t, t ∈ futs → t.1 ≠ d.
Proof.
  unfold in_flight. rewrite length_zero_iff_nil. split.
  - intros Hf t Ht Hd. assert (t ∈ filter (λ t, t.1 = d) futs) as Hin by (by apply list_elem_of_filter).
    rewrite Hf in Hin. by apply not_elem_of_nil in Hin.
  - intros Hf. by apply filter_none.
Qed.

Lemma filter_all {A} (P : A → Prop) `{∀ x, Decision (P x)} (l : list A) : (∀ x, P x) → filter P l = l.
Proof. intros HP. induction l as [|x l IH]; [done|]. rewrite filter_cons_True by done. by f_equal. Qed.
Lemma non_empty_elem {A} (l : list A) : l ≠ [] → ∃ x, x ∈ l.
Proof. destruct l as [|x l]; [done|]. exists x. by left. Qed.
Lemma in_flight_keys d futs : in_flight d futs = multiplicity d futs.*1.
Proof.
  unfold in_flight, multiplicity. induction futs as [|t futs IH]; [done|]. rewrite fmap_cons, !filter_cons.
  case_decide; cbn [length]; by rewrite IH.
Qed.

Section system.
Context {DB : Type} `{Store DB}.
Context (valid_user_id valid_server_name : string → bool).
Context (config : SenderConfig) (select_edus : SendingData (DB := DB) → string → option (list bytes * Z)).
Local Notation dest_ok := (dest_ok valid_user_id valid_server_name).
Local Notation tables_ok := (tables_ok valid_user_id valid_server_name).
Local Notation keys_ok := (keys_ok valid_user_id valid_server_name).
Local Notation request_ok := (request_ok valid_user_id valid_server_name).
Local Notation act := (act valid_user_id valid_server_name config select_edus).
Local Notation acts := (acts valid_user_id valid_server_name config select_edus).
Local Notation handle_request := (handle_request valid_user_id valid_server_name config select_edus).
Local Notation handle_response_ok := (handle_response_ok valid_user_id valid_server_name).
Implicit Types (w : Worker (DB := DB)) (s : System (DB := DB)) (D : SendingData (DB := DB)) (d : Destination) (e : SendingEvent).
Implicit Types (K : gmap bytes (Destination * SendingEvent)).

(** The worker: one transaction at a time to a destination, which carries every active event
    of it; no more events are active than one transaction takes. *)
Record worker_ok K w : Prop := {
  ok_tables : tables_ok K (data w);
  ok_flight d : in_flight d (futures w) = if is_running (statuses w !! d) then 1%nat else 0%nat;
  ok_dests t : t ∈ futures w → dest_ok t.1;
  ok_active k d e : K !! k = Some (d, e) → is_Some (map_get (servercurrentevent_data (data w)) k) →
    is_Some (statuses w !! d) ∧ ∀ t, t ∈ futures w → t.1 = d → e ∈ t.2;
  ok_few d : dest_ok d → (length (raw_keys_prefix (servercurrentevent_data (data w)) (get_prefix d)) ≤ DEQUEUE_LIMIT)%nat;
}.
Definition msg_ok K (m : Msg) : Prop :=
  dest_ok (msg_dest m) ∧ ((msg_event m = Flush ∧ queue_id m = []) ∨ K !! queue_id m = Some (msg_dest m, msg_event m)).

(** Where the event of a key is. *)
Definition kept D (dl : list (Destination * SendingEvent)) (cleaned : Destination → Prop) k d e : Prop :=
  is_Some (map_get (servercurrentevent_data D) k) ∨ is_Some (map_get (servernameevent_data D) k) ∨ (d, e) ∈ dl ∨ cleaned d.
Record system_ok K s (cleaned : Destination → Prop) : Prop := {
  ok_worker : worker_ok K (worker s);
  ok_channel : Forall (msg_ok K) (channel s);
  ok_kept k d e : K !! k = Some (d, e) → kept (data (worker s)) (delivered s) cleaned k d e;
}.

(** Changing neither the active events nor the transactions. *)
Lemma worker_grows K K' w D' :
  worker_ok K w → K ⊆ K' → tables_ok K' D' → servercurrentevent_data D' = servercurrentevent_data (data w) →
  worker_ok K' (mkWorker D' (statuses w) (futures w)).
Proof.
  intros [W1 W2 W3 W4 W5] Hsub Ht E. split; cbn; rewrite ?E; try done.
  intros k d e Hk Hs. destruct W1 as (_ & Hc & _). destruct Hs as [v Hv]. destruct (Hc _ _ Hv) as (d' & e' & Hk' & _).
  pose proof (lookup_weaken _ _ _ _ Hk' Hsub) as Hk2. rewrite Hk in Hk2. injection Hk2 as <- <-. eapply W4; [done|by exists v].
Qed.
Lemma msgs_grow K K' ms : K ⊆ K' → Forall (msg_ok K) ms → Forall (msg_ok K') ms.
Proof. intros Hs HF. eapply Forall_impl; [exact HF|]. intros m [? [?|?]]; split; auto. right. by eapply lookup_weaken. Qed.

Lemma queue_ok K s cleaned rs :
  system_ok K s cleaned → Forall request_ok rs →
  counter (sending_globals (data (worker s))) + Z.of_nat (length rs) ≤ u64_max →
  ∃ K' s', act s (Queue rs) = Ok s' ∧ system_ok K' s' cleaned ∧ K ⊆ K'
    ∧ counter (sending_globals (data (worker s'))) ≤ counter (sending_globals (data (worker s))) + Z.of_nat (length rs)
    ∧ ∀ e d, (e, d) ∈ rs → ∃ k, K' !! k = Some (d, e).
Proof.
  intros [W C L] Hrs Hb. pose proof (queue_requests_ok valid_user_id valid_server_name K _ rs (ok_tables _ _ W) Hrs Hb) as Hq.
  cbn [Sending.act]. unfold send_requests. destruct (queue_requests (data (worker s)) rs) as [D' ks].
  destruct Hq as (K' & Hsub & Ht & Hc & Ecur & HF & Hnew & Hold). eexists K', _. split; [done|].
  split; [|split; [done|]; split; [done|]].
  - split; cbn.
    + by apply (worker_grows K).
    + apply Forall_app. split; [by eapply msgs_grow|]. apply Forall_forall. intros m Hm.
      apply list_elem_of_lookup in Hm as [i Hi]. apply lookup_zip_with_Some in Hi as ([e d] & k & -> & Hr & Hk).
      pose proof (Forall2_lookup_lr _ _ _ _ _ _ HF Hk Hr) as Hkr. rewrite Forall_forall in Hrs.
      apply list_elem_of_lookup_2, Hrs in Hr as [_ Hd]. by split; [|right].
    + intros k d e Hk. unfold kept. rewrite Ecur. destruct (Hnew k) as [[[d' e'] Hk']|?]; [by rewrite Hk| |by right; left].
      pose proof (lookup_weaken _ _ _ _ Hk' Hsub) as Hk2. rewrite Hk in Hk2. injection Hk2 as <- <-.
      destruct (L _ _ _ Hk') as [?|[?|?]]; [by left|right; left; by apply Hold|by right; right].
  - intros e d Hin. apply list_elem_of_lookup in Hin as [i Hi]. destruct (Forall2_lookup_r _ _ _ _ _ HF Hi) as (k & _ & Hk).
    by exists k.
Qed.

(** ** Responses *)

Lemma response_taken K w i t :
  worker_ok K w → futures w !! i = Some t →
  dest_ok t.1 ∧ is_running (statuses w !! t.1) = true
  ∧ (∀ d, in_flight d (list_delete i (futures w)) = if bool_decide (t.1 = d) then 0%nat else in_flight d (futures w))
  ∧ (∀ t', t' ∈ list_delete i (futures w) → t' ∈ futures w ∧ t'.1 ≠ t.1).
Proof.
  intros [W1 W2 W3 W4 W5] Hi.
  assert (∀ d, in_flight d (list_delete i (futures w)) = if bool_decide (t.1 = d) then 0%nat else in_flight d (futures w)) as Hf.
  { intros d. pose proof (in_flight_delete d _ _ _ Hi) as Hd. case_bool_decide as E; [|lia]. rewrite W2 in Hd.
    destruct (is_running _); lia. }
  split; [by eapply W3, list_elem_of_lookup_2|]. split; [|split; [done|]].
  - pose proof (in_flight_delete t.1 _ _ _ Hi) as Hd. rewrite W2, bool_decide_eq_true_2 in Hd by done.
    destruct (is_running _); [done|lia].
  - intros t' Ht'. split; [rewrite (delete_Permutation _ _ _ Hi); by right|].
    pose proof (Hf t.1) as H0. rewrite bool_decide_eq_true_2 in H0 by done. by eapply in_flight_zero.
Qed.

Lemma response_err_ok K s cleaned i t now :
  system_ok K s cleaned → futures (worker s) !! i = Some t →
  ∃ w', handle_response_err (mkWorker (data (worker s)) (statuses (worker s)) (list_delete i (futures (worker s)))) t.1 now = Ok w'
    ∧ data w' = data (worker s) ∧ worker_ok K w'.
Proof.
  intros [W C L] Hi. destruct (response_taken K _ _ _ W Hi) as (Hd & Hr & Hf & Ht). destruct W as [W1 W2 W3 W4 W5].
  unfold handle_response_err. cbn.
  assert (∀ st, is_running (Some st) = false →
    worker_ok K (mkWorker (data (worker s)) (<[t.1 := st]> (statuses (worker s))) (list_delete i (futures (worker s))))) as Hw.
  { intros st Hst. split; cbn [data statuses futures]; [done| | | |done].
    - intros d. rewrite Hf. case_bool_decide as E.
      + subst d. by rewrite lookup_insert_eq, Hst.
      + rewrite lookup_insert_ne by done. apply W2.
    - intros t' [? _]%Ht. by apply W3.
    - intros k d e Hk Hs. destruct (W4 _ _ _ Hk Hs) as [H1 H2]. split.
      + destruct (decide (t.1 = d)) as [->|?]; [rewrite lookup_insert_eq; by eexists|by rewrite lookup_insert_ne].
      + intros t' [? _]%Ht. by apply H2. }
  destruct (statuses (worker s) !! t.1) as [[|n ?|n]|]; try done; eexists; (split; [done|]); (split; [done|]); by apply Hw.
Qed.

Lemma response_ok_ok K s cleaned i t :
  system_ok K s cleaned → futures (worker s) !! i = Some t →
  ∃ w', handle_response_ok (mkWorker (data (worker s)) (statuses (worker s)) (list_delete i (futures (worker s)))) t.1 = Ok w'
    ∧ sending_globals (data w') = sending_globals (data (worker s)) ∧ worker_ok K w'
    ∧ ∀ k d e, K !! k = Some (d, e) → kept (data w') (delivered s ++ (pair t.1 <$> t.2)) cleaned k d e.
Proof.
  intros [W C L] Hi. destruct (response_taken K _ _ _ W Hi) as (Hd & Hr & Hf & Ht). destruct W as [W1 W2 W3 W4 W5].
  unfold Sending.handle_response_ok. cbn [data statuses futures]. set (D := delete_all_active_requests_for (data (worker s)) t.1).
  assert (tables_ok K D) as HD by (by apply tables_delete_active).
  destruct (collect_dest valid_user_id valid_server_name K _ (servernameevent_data D) t.1 DEQUEUE_LIMIT (proj1 HD) (proj2 (proj2 HD)) Hd)
    as (items & Hc & Hkeys & Hitems).
  unfold queued_requests. rewrite Hc. cbn [mbind outcome_bind].
  assert (Hget : ∀ k d e, K !! k = Some (d, e) → map_get (servercurrentevent_data D) k
    = if bool_decide (d = t.1) then None else map_get (servercurrentevent_data (data (worker s))) k).
  { intros k d e Hk. by apply (get_delete_active valid_user_id valid_server_name K _ t.1 k d e). }
  assert (HkeptD : ∀ k d e, K !! k = Some (d, e) → kept D (delivered s ++ (pair t.1 <$> t.2)) cleaned k d e).
  { intros k d e Hk. destruct (L _ _ _ Hk) as [Hs|[Hs|[Hs|Hs]]]; [|by right; left|right; right; left; set_solver|by do 3 right].
    destruct (decide (d = t.1)) as [->|Hne].
    - right. right. left. apply elem_of_app. right. apply list_elem_of_fmap. exists e. split; [done|].
      destruct (W4 _ _ _ Hk Hs) as [_ He]. apply He; [by apply list_elem_of_lookup_2 in Hi|done].
    - left. by rewrite (Hget _ _ _ Hk), bool_decide_eq_false_2. }
  assert (Hfew : ∀ d, dest_ok d → (length (raw_keys_prefix (servercurrentevent_data D) (get_prefix d)) ≤ DEQUEUE_LIMIT)%nat).
  { intros d Hd'. etransitivity; [|by apply (W5 d)]. apply raw_keys_le. intros k Hk.
    destruct (dest_key valid_user_id valid_server_name K _ _ k d (proj1 HD) (proj1 (proj2 HD)) Hd' Hk) as (e & Hke & Hv).
    apply (elem_of_dest_keys valid_user_id valid_server_name K _ _ k d d e (proj1 HD) Hke Hd'). split; [|done].
    rewrite (Hget _ _ _ Hke) in Hv. case_bool_decide; [done|]. by rewrite Hv. }
  destruct items as [|it items].
  - eexists. split; [done|]. split; [done|]. split; [|exact HkeptD]. split; cbn [data statuses futures]; [done| | | |done].
    + intros d. rewrite Hf. case_bool_decide as E; [subst d; by rewrite lookup_delete_eq|]. rewrite lookup_delete_ne by done. apply W2.
    + intros t' [? _]%Ht. by apply W3.
    + intros k d e Hk. rewrite (Hget _ _ _ Hk). case_bool_decide as E; [by intros []|]. intros Hs. rewrite lookup_delete_ne by done.
      destruct (W4 _ _ _ Hk Hs) as [? H2]. split; [done|]. intros t' [? _]%Ht. by apply H2.
  - set (its := it :: items) in *.
    assert (∀ k e, (k, e) ∈ its → K !! k = Some (t.1, e)) as Hits by (intros k e Hin; by apply Hitems).
    assert (Forall (λ it : bytes * SendingEvent, it.1 ≠ []) its) as HF.
    { apply Forall_forall. intros [k e] Hin. eapply key_nonempty; [exact (proj1 HD)|]. by apply Hits. }
    assert (Hmark : ∀ k d e, K !! k = Some (d, e) → is_Some (map_get (servercurrentevent_data (mark_as_active D its)) k) →
      (d = t.1 ∧ (k, e) ∈ its) ∨ (d ≠ t.1 ∧ is_Some (map_get (servercurrentevent_data (data (worker s))) k))).
    { intros k d e Hk [v Hv]. destruct (proj1 (proj2 (get_mark_as_active D its k HF)) _ Hv) as [(e' & Hin & ->)|Hv'].
      - pose proof (Hits _ _ Hin) as Hk'. rewrite Hk in Hk'. injection Hk' as <- <-. by left.
      - rewrite (Hget _ _ _ Hk) in Hv'. case_bool_decide; [done|]. right. split; [done|by exists v]. }
    exists (mkWorker (mark_as_active D its) (statuses (worker s)) (list_delete i (futures (worker s)) ++ [(t.1, its.*2)])).
    split; [done|]. split; [cbn [data]; by rewrite (proj2 (proj2 (proj2 (get_mark_as_active D its [] HF))))|]. split.
    + split; cbn [data statuses futures].
      * by eapply tables_mark.
      * intros d. rewrite in_flight_app, Hf, in_flight_one. cbn [fst]. case_bool_decide as E; [subst d; by rewrite Hr|].
        rewrite W2. lia.
      * intros t' [[? _]%Ht| ->%list_elem_of_singleton]%elem_of_app; [by apply W3|done].
      * intros k d e Hk Hs. destruct (Hmark _ _ _ Hk Hs) as [[-> Hin]|[Hne Hs']].
        -- split; [destruct (statuses (worker s) !! t.1); [by eexists|done]|].
           intros t' [[_ ?]%Ht| ->%list_elem_of_singleton]%elem_of_app; [done|]. intros _. cbn [snd].
           apply list_elem_of_fmap. by exists (k, e).
        -- destruct (W4 _ _ _ Hk Hs') as [? H2]. split; [done|].
           intros t' [[? _]%Ht| ->%list_elem_of_singleton]%elem_of_app; [by apply H2|]. by intros <-.
      * intros d Hd'. destruct (decide (d = t.1)) as [->|Hne].
        -- etransitivity; [apply (raw_keys_le _ _ its.*1)|rewrite Hkeys, length_take; apply Nat.le_min_l].
           intros k Hk. destruct (dest_key valid_user_id valid_server_name K _ _ k t.1 (proj1 HD)
             (proj1 (proj2 (tables_mark valid_user_id valid_server_name K D its t.1 HD Hits))) Hd Hk) as (e & Hke & Hv).
           destruct (Hmark k t.1 e Hke) as [[_ Hin]|[? _]]; [by rewrite Hv| |done]. apply list_elem_of_fmap. by exists (k, e).
        -- etransitivity; [|by apply (W5 d)]. apply raw_keys_le. intros k Hk.
           destruct (dest_key valid_user_id valid_server_name K _ _ k d (proj1 HD)
             (proj1 (proj2 (tables_mark valid_user_id valid_server_name K D its t.1 HD Hits))) Hd' Hk) as (e & Hke & Hv).
           apply (elem_of_dest_keys valid_user_id valid_server_name K _ _ k d d e (proj1 HD) Hke Hd'). split; [|done].
           destruct (Hmark k d e Hke) as [[? _]|[_ ?]]; [by rewrite Hv|done|done].
    + intros k d e Hk. unfold kept. cbn [data]. rewrite (proj1 (get_mark_as_active D its k HF)).
      pose proof (proj1 (proj2 (proj2 (get_mark_as_active D its k HF)))) as I3.
      case_bool_decide as Hin; [left; apply I3; by right|]. destruct (HkeptD _ _ _ Hk) as [?|?]; [left; apply I3; by left|by right].
Qed.

(** ** Requests *)

(** What a lemma on one request shows of the worker it leaves. *)
Definition request_done K s cleaned w' : Prop :=
  sending_globals (data w') = sending_globals (data (worker s)) ∧ worker_ok K w'
  ∧ ∀ k d e, K !! k = Some (d, e) → kept (data w') (delivered s) cleaned k d e.

(** Retrying: all active events of the destination, if there are any. *)
Lemma retry_ok K s cleaned d tries st :
  system_ok K s cleaned → dest_ok d → statuses (worker s) !! d = Some st → is_running (Some st) = false →
  ∃ items : list (bytes * SendingEvent), collect (active_requests_for valid_user_id valid_server_name (data (worker s)) d) = Ok items ∧
    request_done K s cleaned (mkWorker (data (worker s))
      (match items.*2 with [] => delete d (<[d := Retrying tries]> (statuses (worker s))) | _ => <[d := Retrying tries]> (statuses (worker s)) end)
      (match items.*2 with [] => futures (worker s) | es => futures (worker s) ++ [(d, es)] end)).
Proof.
  intros [[W1 W2 W3 W4 W5] C L] Hd Hst Hrun.
  destruct (collect_dest valid_user_id valid_server_name K _ (servercurrentevent_data (data (worker s))) d
    (length (raw_stream_prefix (servercurrentevent_data (data (worker s))) (get_prefix d))) (proj1 W1) (proj1 (proj2 W1)) Hd)
    as (items & Hc & Hkeys & Hitems).
  rewrite take_ge in Hc by (by rewrite length_fmap). rewrite take_ge in Hkeys by (unfold raw_keys_prefix; by rewrite length_fmap).
  exists items. split; [exact Hc|].
  assert (Hall : ∀ k e, K !! k = Some (d, e) → is_Some (map_get (servercurrentevent_data (data (worker s))) k) → e ∈ items.*2).
  { intros k e Hk Hs. assert (k ∈ items.*1) as Hin.
    { rewrite Hkeys. by apply (elem_of_dest_keys valid_user_id valid_server_name K _ _ k d d e (proj1 W1) Hk Hd). }
    apply list_elem_of_fmap in Hin as ([k' e'] & -> & Hin). destruct (Hitems _ _ Hin) as [Hk' _]. cbn in Hk. rewrite Hk in Hk'.
    injection Hk' as ->. apply list_elem_of_fmap. by exists (k', e'). }
  assert (in_flight d (futures (worker s)) = 0%nat) as H0 by (by rewrite W2, Hst, Hrun).
  split; [done|]. split; [|exact L]. destruct (items.*2) as [|e1 es] eqn:Ei.
  - split; cbn [data statuses futures]; [done| |done| |done].
    + intros d'. rewrite delete_insert_eq. destruct (decide (d' = d)) as [->|Hne]; [by rewrite lookup_delete_eq, H0|].
      rewrite lookup_delete_ne by done. apply W2.
    + intros k d' e Hk Hs. rewrite delete_insert_eq. destruct (decide (d' = d)) as [->|Hne].
      { by apply (Hall k e) in Hs as ?%not_elem_of_nil. }
      rewrite lookup_delete_ne by done. by apply (W4 k d' e).
  - split; cbn [data statuses futures]; [done| | | |done].
    + intros d'. rewrite in_flight_app, in_flight_one. cbn [fst]. case_bool_decide as E; [subst d'; by rewrite H0, lookup_insert_eq|].
      rewrite lookup_insert_ne, W2 by done. lia.
    + intros t' [?| ->%list_elem_of_singleton]%elem_of_app; [by apply W3|done].
    + intros k d' e Hk Hs. split.
      { destruct (decide (d' = d)) as [->|Hne]; [rewrite lookup_insert_eq; by eexists|rewrite lookup_insert_ne by done].
        by apply (W4 k d' e). }
      intros t' [Ht'| ->%list_elem_of_singleton]%elem_of_app E; [by eapply (W4 k d' e)|]. cbn in E. subst d'. by apply (Hall k e).
Qed.

(** The event of a message becomes active when nothing is active for its destination. *)
Lemma mark_request K s cleaned msg :
  system_ok K s cleaned → msg_ok K msg → statuses (worker s) !! msg_dest msg = None →
  let D := mark_as_active (data (worker s)) [(queue_id msg, msg_event msg)] in
  tables_ok K D ∧ sending_globals D = sending_globals (data (worker s))
  ∧ (∀ k d e, K !! k = Some (d, e) → kept D (delivered s) cleaned k d e)
  ∧ (∀ k d e, K !! k = Some (d, e) → is_Some (map_get (servercurrentevent_data D) k) →
       (d = msg_dest msg ∧ k = queue_id msg ∧ e = msg_event msg)
       ∨ (d ≠ msg_dest msg ∧ is_Some (map_get (servercurrentevent_data (data (worker s))) k))).
Proof.
  intros [[W1 W2 W3 W4 W5] C L] [Hd Hm] Hst D.
  assert (∀ k e, K !! k = Some (msg_dest msg, e) → is_Some (map_get (servercurrentevent_data (data (worker s))) k) → False) as Hno.
  { intros k e Hk Hs. destruct (W4 _ _ _ Hk Hs) as [[? ?] _]. congruence. }
  destruct Hm as [[He Hq]|Hq].
  - assert (D = data (worker s)) as ->.
    { unfold D, mark_as_active, mark_one. cbn. by rewrite bool_decide_eq_true_2. }
    split; [done|]. split; [done|]. split; [done|]. intros k d' e Hk Hs. right. split; [|done]. intros ->. by eapply Hno.
  - assert (∀ k e, (k, e) ∈ [(queue_id msg, msg_event msg)] → K !! k = Some (msg_dest msg, e)) as Hit
      by (by intros k e [= -> ->]%list_elem_of_singleton).
    assert (Forall (λ it : bytes * SendingEvent, it.1 ≠ []) [(queue_id msg, msg_event msg)]) as HF.
    { repeat constructor. eapply key_nonempty; [exact (proj1 W1)|exact Hq]. }
    split; [by eapply tables_mark|]. split; [by apply (get_mark_as_active _ _ [] HF)|]. split.
    + intros k d' e Hk. destruct (get_mark_as_active (data (worker s)) _ k HF) as (I1 & _ & I3 & _). unfold kept.
      unfold D. rewrite I1. case_bool_decide as Hin; [left; apply I3; by right|].
      destruct (L _ _ _ Hk) as [?|?]; [left; apply I3; by left|by right].
    + intros k d' e Hk [v Hv]. destruct (get_mark_as_active (data (worker s)) _ k HF) as (_ & I2 & _).
      destruct (I2 _ Hv) as [(e' & [= -> ->]%list_elem_of_singleton & _)|Hv'].
      * left. rewrite Hq in Hk. by injection Hk as <- <-.
      * right. split; [|by exists v]. intros ->. eapply Hno; [exact Hk|by exists v].
Qed.

(** A first transaction: the event of the message and what goes along. *)
Lemma start_ok K s cleaned msg D' evs :
  system_ok K s cleaned → msg_ok K msg → statuses (worker s) !! msg_dest msg = None →
  let D := mark_as_active (data (worker s)) [(queue_id msg, msg_event msg)] in
  servercurrentevent_data D' = servercurrentevent_data D → servernameevent_data D' = servernameevent_data D →
  sending_globals D' = sending_globals D →
  request_done K s cleaned (mkWorker D' (<[msg_dest msg := Running]> (statuses (worker s)))
    (futures (worker s) ++ [(msg_dest msg, msg_event msg :: evs)])).
Proof.
  intros Hs Hm Hst D E1 E2 E3. destruct (mark_request K s cleaned msg Hs Hm Hst) as (HD & Hg & Hk & Hact). fold D in HD, Hg, Hk, Hact.
  destruct Hs as [[W1 W2 W3 W4 W5] C L], Hm as [Hd _]. set (d := msg_dest msg) in *.
  assert (in_flight d (futures (worker s)) = 0%nat) as H0 by (by rewrite W2, Hst).
  split; [cbn [data]; congruence|]. split; [|intros k d' e Hke; unfold kept; cbn [data]; rewrite E1, E2; by apply Hk].
  split; cbn [data statuses futures]; rewrite ?E1.
  - unfold SendingProps.tables_ok. rewrite E1, E2, E3. exact HD.
  - intros d'. rewrite in_flight_app, in_flight_one. cbn [fst]. case_bool_decide as E; [subst d'; by rewrite H0, lookup_insert_eq|].
    rewrite lookup_insert_ne, W2 by done. lia.
  - intros t' [?| ->%list_elem_of_singleton]%elem_of_app; [by apply W3|done].
  - intros k d' e Hke Hs. destruct (Hact _ _ _ Hke Hs) as [(-> & -> & ->)|[Hne Hs']].
    + split; [rewrite lookup_insert_eq; by eexists|]. intros t' [Ht'| ->%list_elem_of_singleton]%elem_of_app E; [|by left].
      by apply (proj1 (in_flight_zero _ _) H0) in Ht'.
    + rewrite lookup_insert_ne by done. destruct (W4 _ _ _ Hke Hs') as [? H2]. split; [done|].
      intros t' [?| ->%list_elem_of_singleton]%elem_of_app; [by apply H2|]. cbn. congruence.
  - intros d' Hd'. destruct (decide (d' = d)) as [->|Hne].
    + etransitivity; [apply (raw_keys_le _ _ [queue_id msg])|cbn; unfold DEQUEUE_LIMIT; lia]. intros k Hin.
      destruct (dest_key valid_user_id valid_server_name K _ _ k d (proj1 HD) (proj1 (proj2 HD)) Hd Hin) as (e & Hke & Hv).
      destruct (Hact k d e Hke) as [(_ & -> & _)|[? _]]; [by rewrite Hv|by left|done].
    + etransitivity; [|by apply (W5 d')]. apply raw_keys_le. intros k Hin.
      destruct (dest_key valid_user_id valid_server_name K _ _ k d' (proj1 HD) (proj1 (proj2 HD)) Hd' Hin) as (e & Hke & Hv).
      apply (elem_of_dest_keys valid_user_id valid_server_name K _ _ k d' d' e (proj1 HD) Hke Hd'). split; [|done].
      destruct (Hact k d' e Hke) as [(? & _)|[_ ?]]; [by rewrite Hv|done|done].
Qed.

Lemma request_ok_ok K s cleaned msg now :
  system_ok K s cleaned → msg_ok K msg → ∃ w', handle_request (worker s) msg now = Ok w' ∧ request_done K s cleaned w'.
Proof.
  intros Hs Hm. unfold Sending.handle_request, select_events, select_events_current.
  assert (Hsame : request_done K s cleaned (mkWorker (data (worker s)) (statuses (worker s)) (futures (worker s)))).
  { destruct Hs as [[W1 W2 W3 W4 W5] C L]. split; [done|]. by split; [split|]. }
  destruct (statuses (worker s) !! msg_dest msg) as [[|tries time|tries]|] eqn:Hst; cbn [negb];
    [by eexists| |by eexists|].
  - destruct (_ && _); cbn [negb]; [by eexists|]. cbn [data].
    destruct (retry_ok K s cleaned (msg_dest msg) tries _ Hs (proj1 Hm) Hst eq_refl) as (items & -> & Hr). cbn [mbind outcome_bind].
    destruct (items.*2); by eexists.
  - cbn [negb data statuses futures]. destruct (msg_dest msg) as [i|u p|server] eqn:Ed; cbn [mbind outcome_bind];
      [rewrite <- Ed in *; eexists; (split; [done|]); by apply start_ok..|].
    destruct (select_edus _ server) as [[edus last_count]|]; rewrite <- Ed in *; eexists; (split; [done|]); by apply start_ok.
Qed.

(** ** Cleaning up *)

Lemma cleanup_ok K s cleaned a u p :
  system_ok K s cleaned →
  (∀ id, a = Some id → dest_ok (Appservice id)) → (∀ us pk, u = Some us → p = Some pk → dest_ok (Push us pk)) →
  system_ok K (mkSystem (with_data (worker s) (cleanup_events (data (worker s)) a u p)) (channel s) (delivered s))
    (λ d, cleaned d ∨ (∃ id, a = Some id ∧ d = Appservice id) ∨ ∃ us pk, u = Some us ∧ p = Some pk ∧ d = Push us pk).
Proof.
  intros [[W1 W2 W3 W4 W5] C L] Ha Hp. set (cleaned' := λ d, cleaned d ∨ _).
  assert (Hdel : ∀ d, dest_ok d → cleaned' d →
    system_ok K (mkSystem (with_data (worker s) (delete_all_requests_for (data (worker s)) d)) (channel s) (delivered s)) cleaned').
  { intros d Hd Hcl. pose proof (tables_delete_active valid_user_id valid_server_name K _ d W1) as HD.
    assert (∀ k d' e, K !! k = Some (d', e) → map_get (servercurrentevent_data (delete_all_requests_for (data (worker s)) d)) k
      = if bool_decide (d' = d) then None else map_get (servercurrentevent_data (data (worker s))) k) as Hcur.
    { intros k d' e Hk. by apply (get_delete_active valid_user_id valid_server_name K _ d k d' e). }
    split; cbn [worker channel delivered]; [split; cbn [data statuses futures with_data]| |].
    - destruct HD as (H1 & H2 & H3). split; [done|]. split; [done|]. by apply rows_remove.
    - done.
    - done.
    - intros k d' e Hk. rewrite (Hcur _ _ _ Hk). case_bool_decide; [by intros []|]. by apply W4.
    - intros d' Hd'. etransitivity; [|by apply (W5 d')]. apply raw_keys_le. intros k Hin.
      destruct (dest_key valid_user_id valid_server_name K _ _ k d' (proj1 W1) (proj1 (proj2 HD)) Hd' Hin) as (e & Hke & Hv).
      apply (elem_of_dest_keys valid_user_id valid_server_name K _ _ k d' d' e (proj1 W1) Hke Hd'). split; [|done].
      pose proof (Hcur k d' e Hke) as Hc. cbn in Hc, Hv. rewrite Hv in Hc. case_bool_decide; [done|]. by rewrite <- Hc.
    - done.
    - intros k d' e Hk. destruct (decide (d' = d)) as [->|Hne]; [by do 3 right|].
      unfold kept. cbn [data with_data]. rewrite (Hcur _ _ _ Hk), bool_decide_eq_false_2 by done.
      assert (map_get (servernameevent_data (delete_all_requests_for (data (worker s)) d)) k = map_get (servernameevent_data (data (worker s))) k) as ->.
      { cbn. rewrite get_remove_keys, bool_decide_eq_false_2; [done|].
        intros [_ ?]%(elem_of_dest_keys valid_user_id valid_server_name K _ _ k d' d e (proj1 W1) Hk Hd). done. }
      destruct (L _ _ _ Hk) as [?|[?|[?|?]]]; [by left|by right; left|by do 2 right; left|by do 3 right; left]. }
  unfold cleanup_events.
  assert (system_ok K (mkSystem (with_data (worker s) (data (worker s))) (channel s) (delivered s)) cleaned') as Hid.
  { split; cbn [worker channel delivered]; [by split|done|]. intros k d e Hk. destruct (L _ _ _ Hk) as [?|[?|[?|?]]];
      [by left|by right; left|by do 2 right; left|by do 3 right; left]. }
  destruct a as [id|], u as [us|], p as [pk|]; try exact Hid; apply Hdel.
  - by apply Ha.
  - right. left. by exists id.
  - by apply Hp.
  - right. right. by exists us, pk.
Qed.

(** ** Starting *)

Definition keeps_all : Prop :=
  startup_netburst config = true ∧ (startup_netburst_keep config < 0 ∨ Z.of_nat DEQUEUE_LIMIT ≤ startup_netburst_keep config).

Lemma active_rows K D :
  tables_ok K D →
  ∃ active, collect (active_requests valid_user_id valid_server_name D) = Ok active
    ∧ NoDup (active.*1.*1)
    ∧ ∀ k e d, (k, e, d) ∈ active ↔ K !! k = Some (d, e) ∧ is_Some (map_get (servercurrentevent_data D) k).
Proof.
  intros (HK & Hc & _). unfold active_requests, raw_stream_from. rewrite store_seek_spec.
  rewrite filter_all by (intros kv; by destruct (kv.1)). set (rows := store_scan (servercurrentevent_data D)).
  assert (∀ kv, kv ∈ rows → ∃ d e, K !! kv.1 = Some (d, e) ∧ outgoing_item valid_user_id valid_server_name kv = Ok (kv.1, e, d)) as Hrows.
  { intros [k v] Hkv%store_scan_spec. destruct (Hc k v Hkv) as (d & e & Hk & ->). exists d, e. split; [done|].
    by eapply outgoing_item_ok. }
  destruct (collect_items (outgoing_item valid_user_id valid_server_name) rows) as (active & Hcol & HF).
  { intros kv (d & e & _ & E)%Hrows. by eexists. }
  exists active. split; [done|]. split.
  - assert (active.*1.*1 = rows.*1) as ->.
    { clear Hcol. revert Hrows. induction HF as [|kv it rows' items Hit _ IH]; intros Hrows; [done|]. rewrite !fmap_cons. f_equal.
      - destruct (Hrows kv) as (d & e & _ & E); [by left|]. rewrite Hit in E. by injection E as ->.
      - apply IH. intros kv' Hkv'. apply Hrows. by right. }
    apply (sorted_NoDup bytes_lt).
    + intros k Hk. unfold bytes_lt in Hk. by rewrite bytes_cmp_refl in Hk.
    + apply (sorted_fmap fst key_lt); [done|apply store_scan_sorted].
  - intros k e d. split.
    + intros Hin. apply list_elem_of_lookup in Hin as [i Hi]. destruct (Forall2_lookup_r _ _ _ _ _ HF Hi) as ([k' v] & Hkv & Hit).
      apply list_elem_of_lookup_2 in Hkv. destruct (Hrows _ Hkv) as (d' & e' & Hk & E). rewrite Hit in E. injection E as -> -> ->.
      split; [done|]. apply store_scan_spec in Hkv. by exists v.
    + intros [Hk [v Hv]]. assert ((k, v) ∈ rows) as Hkv by by apply store_scan_spec.
      destruct (Hrows _ Hkv) as (d' & e' & Hk' & E). cbn in Hk', E. rewrite Hk in Hk'. injection Hk' as <- <-.
      apply list_elem_of_lookup in Hkv as [i Hi]. destruct (Forall2_lookup_l _ _ _ _ _ HF Hi) as (it & Hit & E').
      rewrite E in E'. injection E' as <-. by apply list_elem_of_lookup_2 in Hit.
Qed.

Lemma burst_all D active txns :
  keeps_all →
  (∀ d, (length (default [] (txns !! d)) + length (filter (λ it : bytes * SendingEvent * Destination, it.2 = d) active) ≤ DEQUEUE_LIMIT)%nat) →
  ∃ txns', burst config (λ _, true) D txns active = (D, txns')
    ∧ ∀ d, default [] (txns' !! d) = default [] (txns !! d)
        ++ ((λ it : bytes * SendingEvent * Destination, it.1.2) <$> filter (λ it : bytes * SendingEvent * Destination, it.2 = d) active).
Proof.
  intros [_ Hkeep]. revert txns. induction active as [|[[k e] d] active IH]; intros txns Hfew.
  - exists txns. split; [done|]. intros d. cbn. by rewrite app_nil_r.
  - cbn [burst negb]. assert (Z.of_nat (length (default [] (txns !! d))) < Z.of_nat DEQUEUE_LIMIT) as Hlt.
    { specialize (Hfew d). rewrite filter_cons_True in Hfew by done. cbn [length] in Hfew. lia. }
    assert (bool_decide (0 ≤ startup_netburst_keep config) && bool_decide
      (startup_netburst_keep config ≤ Z.of_nat (length (default [] (txns !! d)))) = false) as ->.
    { destruct Hkeep as [?|?]; [by rewrite bool_decide_eq_false_2 by lia|]. by rewrite (bool_decide_eq_false_2 (_ ≤ Z.of_nat _)), andb_false_r by lia. }
    destruct (IH (<[d := default [] (txns !! d) ++ [e]]> txns)) as (txns' & E & Ht).
    { intros d'. specialize (Hfew d'). rewrite filter_cons in Hfew. cbn [snd] in Hfew. destruct (decide (d = d')) as [<-|Hne].
      - assert (default [] (<[d := default [] (txns !! d) ++ [e]]> txns !! d) = default [] (txns !! d) ++ [e]) as -> by (by rewrite lookup_insert_eq).
        rewrite length_app. cbn [length] in *. lia.
      - rewrite lookup_insert_ne by done. done. }
    exists txns'. split; [done|]. intros d'. rewrite Ht, filter_cons. cbn [snd]. destruct (decide (d = d')) as [<-|Hne].
    + rewrite fmap_cons, lookup_insert_eq. cbn. by rewrite <- (assoc_L (++)).
    + by rewrite lookup_insert_ne.
Qed.

Lemma count_active K D (active : list (bytes * SendingEvent * Destination)) d :
  tables_ok K D → NoDup (active.*1.*1) → dest_ok d →
  (∀ k e d, (k, e, d) ∈ active → K !! k = Some (d, e) ∧ is_Some (map_get (servercurrentevent_data D) k)) →
  (length (filter (λ it : bytes * SendingEvent * Destination, it.2 = d) active)
     ≤ length (raw_keys_prefix (servercurrentevent_data D) (get_prefix d)))%nat.
Proof.
  intros Ht Hnd Hd Hact. rewrite <- (length_fmap fst), <- (length_fmap fst). apply submseteq_length, NoDup_submseteq.
  - eapply sublist_NoDup; [exact Hnd|]. do 2 apply fmap_sublist. apply sublist_filter.
  - intros k Hk. rewrite <- list_fmap_compose in Hk. apply list_elem_of_fmap in Hk as ([[k' e] d'] & -> & [Ed Hin]%list_elem_of_filter).
    cbn in Ed |- *. subst d'. destruct (Hact _ _ _ Hin) as [Hk Hs].
    by apply (elem_of_dest_keys valid_user_id valid_server_name K _ _ k' d d e (proj1 Ht) Hk Hd).
Qed.

Lemma restart_ok K s cleaned :
  keeps_all → system_ok K s cleaned →
  ∃ w', startup_netburst_worker valid_user_id valid_server_name config (λ _, true) (data (worker s)) = Ok w'
    ∧ data w' = data (worker s) ∧ worker_ok K w'.
Proof.
  intros Hkeep [[W1 W2 W3 W4 W5] C L]. set (D := data (worker s)) in *.
  destruct (active_rows K D W1) as (active & Hcol & Hnd & Hact). unfold startup_netburst_worker. rewrite Hcol. cbn [mbind outcome_bind].
  assert (Hok : ∀ k e d, (k, e, d) ∈ active → dest_ok d).
  { intros k e d [Hk _]%Hact. destruct W1 as ([_ HK] & _). by destruct (HK _ _ _ Hk). }
  assert (Hfil : ∀ k e d, (k, e, d) ∈ active → e ∈ ((λ it : bytes * SendingEvent * Destination, it.1.2) <$>
    filter (λ it : bytes * SendingEvent * Destination, it.2 = d) active)).
  { intros k e d Hin. apply list_elem_of_fmap. exists (k, e, d). split; [done|]. by apply list_elem_of_filter. }
  destruct (burst_all D active ∅ Hkeep) as (txns & Hb & Ht).
  { intros d. rewrite lookup_empty. cbn [default length]. change (0 + ?n)%nat with n.
    destruct (decide (filter (λ it : bytes * SendingEvent * Destination, it.2 = d) active = [])) as [E|E]; [rewrite E; cbn; lia|].
    apply non_empty_elem in E as [[[k0 e0] d0] [E0 Hin]%list_elem_of_filter]. cbn in E0. subst d0.
    etransitivity; [|apply (W5 d); by eapply Hok]. apply (count_active K); [done..|by eapply Hok|by intros ????%Hact]. }
  rewrite Hb. setoid_rewrite lookup_empty in Ht. cbn [default] in Ht.
  set (started := filter (λ t : Destination * list SendingEvent, startup_netburst config = true ∧ t.2 ≠ []) (map_to_list txns)).
  eexists. split; [done|]. split; [done|].
  assert (Hst : ∀ t, t ∈ started ↔ t.2 ≠ [] ∧ txns !! t.1 = Some t.2).
  { intros [d es]. unfold started. rewrite list_elem_of_filter, elem_of_map_to_list. cbn. destruct Hkeep as [? _]. tauto. }
  assert (Hnds : NoDup started.*1).
  { eapply sublist_NoDup; [apply (NoDup_fst_map_to_list txns)|]. apply fmap_sublist, sublist_filter. }
  assert (Hlk : ∀ d, (list_to_map ((λ t : Destination * list SendingEvent, (t.1, Running)) <$> started) : gmap Destination TransactionStatus) !! d
    = if bool_decide (d ∈ started.*1) then Some Running else None).
  { intros d. case_bool_decide as Hin.
    - apply elem_of_list_to_map; [rewrite <- list_fmap_compose; exact Hnds|].
      apply list_elem_of_fmap in Hin as (t & -> & Hin). apply list_elem_of_fmap. by exists t.
    - apply not_elem_of_list_to_map. rewrite <- list_fmap_compose. exact Hin. }
  split; cbn [data statuses futures]; [done| | | |done].
  - intros d. rewrite Hlk, in_flight_keys, multiplicity_NoDup by done. by case_bool_decide.
  - intros [d es] [Hne Hd]%Hst. cbn in Hne, Hd |- *. specialize (Ht d). rewrite Hd in Ht. cbn in Ht.
    destruct (decide (filter (λ it : bytes * SendingEvent * Destination, it.2 = d) active = [])) as [E|E]; [rewrite E in Ht; done|].
    apply non_empty_elem in E as [[[k0 e0] d0] [E0 Hin]%list_elem_of_filter]. cbn in E0. subst d0. by eapply Hok.
  - intros k d e Hk Hs. assert ((k, e, d) ∈ active) as Hin by by apply Hact. apply Hfil in Hin as He. rewrite <- (app_nil_l (_ <$> _)), <- Ht in He.
    destruct (txns !! d) as [es|] eqn:Ed; [|by apply not_elem_of_nil in He]. cbn in He.
    assert ((d, es) ∈ started) as Hd by (apply Hst; split; [|done]; intros E; cbn in E; subst es; by apply not_elem_of_nil in He).
    split.
    + rewrite Hlk, bool_decide_eq_true_2; [by eexists|]. apply list_elem_of_fmap. by exists (d, es).
    + intros [d' es'] [_ Hd']%Hst. cbn in Hd' |- *. intros ->. rewrite Ed in Hd'. by injection Hd' as <-.
Qed.

(** ** Every sequence of actions *)

Definition action_ok (a : action) : Prop :=
  match a with
  | Queue requests => Forall request_ok requests
  | FlushServers servers => Forall (λ server, dest_ok (Federation server)) servers
  | Cleanup a u p => (∀ id, a = Some id → dest_ok (Appservice id)) ∧ (∀ us pk, u = Some us → p = Some pk → dest_ok (Push us pk))
  | _ => True
  end.
Definition cleans (a : action) d : Prop :=
  match a with
  | Cleanup a u p => (∃ id, a = Some id ∧ d = Appservice id) ∨ ∃ us pk, u = Some us ∧ p = Some pk ∧ d = Push us pk
  | _ => False
  end.
Definition requested (a : action) : list (SendingEvent * Destination) := match a with Queue requests => requests | _ => [] end.

Lemma act_ok K s cleaned a :
  keeps_all → system_ok K s cleaned → action_ok a →
  counter (sending_globals (data (worker s))) + Z.of_nat (length (requested a)) ≤ u64_max →
  ∃ K' s', act s a = Ok s' ∧ system_ok K' s' (λ d, cleaned d ∨ cleans a d) ∧ K ⊆ K'
    ∧ counter (sending_globals (data (worker s'))) ≤ counter (sending_globals (data (worker s))) + Z.of_nat (length (requested a))
    ∧ ∀ e d, (e, d) ∈ requested a → ∃ k, K' !! k = Some (d, e).
Proof.
  intros Hkeep Hs Ha Hb.
  assert (Hweak : ∀ K s, system_ok K s cleaned → system_ok K s (λ d, cleaned d ∨ cleans a d)).
  { intros K1 s1 [? ? L]. split; [done|done|]. intros k d e Hk. destruct (L _ _ _ Hk) as [?|[?|[?|?]]];
      [by left|by right; left|by do 2 right; left|by do 3 right; left]. }
  assert (Hone : ∀ s', act s a = Ok s' → system_ok K s' cleaned → requested a = [] →
    sending_globals (data (worker s')) = sending_globals (data (worker s)) →
    ∃ K' s', act s a = Ok s' ∧ system_ok K' s' (λ d, cleaned d ∨ cleans a d) ∧ K ⊆ K'
    ∧ counter (sending_globals (data (worker s'))) ≤ counter (sending_globals (data (worker s))) + Z.of_nat (length (requested a))
    ∧ ∀ e d, (e, d) ∈ requested a → ∃ k, K' !! k = Some (d, e)).
  { intros s' E Hs' Er Eg. exists K, s'. split; [done|]. split; [by apply Hweak|]. split; [done|]. rewrite Eg, Er. cbn.
    split; [lia|]. by intros e d ?%not_elem_of_nil. }
  destruct a as [rs|servers|ai us pk|now|i success now|]; cbn [action_ok requested] in *.
  - destruct (queue_ok K s cleaned rs Hs Ha Hb) as (K' & s' & E & Hs' & ?). exists K', s'. split; [done|]. split; [by apply Hweak|done].
  - eapply Hone; [done| |done|done]. destruct Hs as [W C L]. split; cbn; [done| |done]. apply Forall_app. split; [done|].
    unfold flush_servers. apply Forall_fmap. eapply Forall_impl; [exact Ha|]. intros server Hd. split; [exact Hd|by left].
  - destruct Ha as [Ha Hp]. exists K. eexists. split; [done|]. split; [by apply cleanup_ok|]. split; [done|]. cbn.
    split; [|by intros e d ?%not_elem_of_nil]. unfold cleanup_events. destruct ai, us, pk; cbn; lia.
  - destruct s as [w [|msg rest] dl] eqn:Es; [by eapply Hone|]. rewrite <- Es in *.
    assert (msg_ok K msg) as Hm by (destruct Hs as [_ C _]; rewrite Es in C; by inversion C).
    destruct (request_ok_ok K s cleaned msg now Hs Hm) as (w' & E & Eg & W' & L'). rewrite Es in E, Eg, L'. cbn in E, Eg, L'.
    eapply (Hone (mkSystem w' rest dl)); [rewrite Es; cbn; by rewrite E| |done|by rewrite Es].
    split; cbn; [done| |done]. destruct Hs as [_ C _]. rewrite Es in C. by inversion C.
  - destruct (futures (worker s) !! i) as [t|] eqn:Hi.
    2:{ eapply (Hone s); [cbn; by rewrite Hi|done..]. }
    destruct success.
    + destruct (response_ok_ok K s cleaned i t Hs Hi) as (w' & E & Eg & W' & L').
      eapply (Hone (mkSystem w' (channel s) (delivered s ++ (pair t.1 <$> t.2)))); [unfold Sending.act; rewrite Hi; unfold handle_response; by rewrite E| |done|done].
      destruct Hs as [_ C _]. by split.
    + destruct (response_err_ok K s cleaned i t now Hs Hi) as (w' & E & Ed & W').
      eapply (Hone (mkSystem w' (channel s) (delivered s ++ []))); [unfold Sending.act; rewrite Hi; unfold handle_response; by rewrite E| |done|cbn; by rewrite Ed].
      destruct Hs as [_ C L]. split; cbn; [done|done|]. rewrite Ed, app_nil_r. exact L.
  - destruct (restart_ok K s cleaned Hkeep Hs) as (w' & E & Ed & W').
    eapply (Hone (mkSystem w' [] (delivered s))); [cbn; by rewrite E| |done|cbn; by rewrite Ed].
    destruct Hs as [_ C L]. split; cbn; [done|done|]. rewrite Ed. exact L.
Qed.

Lemma acts_ok K s cleaned l :
  keeps_all → system_ok K s cleaned → Forall action_ok l →
  counter (sending_globals (data (worker s))) + Z.of_nat (length (concat (requested <$> l))) ≤ u64_max →
  ∃ K' s', acts s l = Ok s' ∧ system_ok K' s' (λ d, cleaned d ∨ ∃ a, a ∈ l ∧ cleans a d) ∧ K ⊆ K'
    ∧ ∀ a e d, a ∈ l → (e, d) ∈ requested a → ∃ k, K' !! k = Some (d, e).
Proof.
  intros Hkeep Hs Hl. revert K s cleaned Hs. induction Hl as [|a l Ha _ IH]; intros K s cleaned Hs Hb.
  - exists K, s. split; [done|]. split; [|split; [done|by intros ??? ?%not_elem_of_nil]].
    destruct Hs as [? ? L]. split; [done|done|]. intros k d e Hk. destruct (L _ _ _ Hk) as [?|[?|[?|?]]];
      [by left|by right; left|by do 2 right; left|by do 3 right; left].
  - rewrite fmap_cons in Hb. cbn [concat] in Hb. rewrite length_app, Nat2Z.inj_add in Hb.
    destruct (act_ok K s cleaned a Hkeep Hs Ha ltac:(lia)) as (K1 & s1 & E1 & Hs1 & Hsub1 & Hc & Hq1).
    destruct (IH K1 s1 _ Hs1 ltac:(lia)) as (K2 & s2 & E2 & [W2 C2 L2] & Hsub2 & Hq2).
    exists K2, s2. split; [cbn; by rewrite E1|]. split; [|split; [by trans K1|]].
    + split; [done|done|]. intros k d e Hk. destruct (L2 _ _ _ Hk) as [?|[?|[?|[[?|?]|(a' & ? & ?)]]]];
        [by left|by right; left|by do 2 right; left|by do 3 right; left|..]; do 4 right; [exists a|exists a']; (split; [|done]);
        by constructor.
    + intros a' e d [->|Ha']%elem_of_cons He; [|by eapply Hq2]. destruct (Hq1 _ _ He) as [k Hk]. exists k. by eapply lookup_weaken.
Qed.

(** ** What the invariant gives *)

(** A server that has queued nothing yet. *)
Definition started_system (g : Globals DB) : System (DB := DB) :=
  mkSystem (mkWorker (mkSendingData store_empty store_empty store_empty g) ∅ []) [] [].
Lemma started_ok g : is_u64 (counter g) → system_ok ∅ (started_system g) (λ _, False).
Proof.
  intros Hg. split; cbn; [|constructor|by intros ???; rewrite lookup_empty]. split; cbn.
  - split; [split; [done|]; intros ???; by rewrite lookup_empty|]. split; intros ??; cbn; by rewrite map_get_empty.
  - intros d. by rewrite lookup_empty.
  - by intros t ?%not_elem_of_nil.
  - intros ???. by rewrite lookup_empty.
  - intros d Hd. destruct (raw_keys_prefix store_empty (get_prefix d)) as [|k l] eqn:E; [cbn; lia|].
    assert (k ∈ raw_keys_prefix store_empty (get_prefix d)) as [[v Hv] _]%elem_of_raw_keys by (rewrite E; by left).
    by rewrite map_get_empty in Hv.
Qed.

(** A stored entry for the event. *)
Definition waiting s d e : Prop :=
  ∃ k v, (map_get (servercurrentevent_data (data (worker s))) k = Some v ∨ map_get (servernameevent_data (data (worker s))) k = Some v)
    ∧ parse_servercurrentevent valid_user_id valid_server_name k v = Ok (d, e).

Lemma kept_waiting K s cleaned k d e : system_ok K s cleaned → K !! k = Some (d, e) →
  waiting s d e ∨ (d, e) ∈ delivered s ∨ cleaned d.
Proof.
  intros [[(HK & Hc & Hn) _ _ _ _] _ L] Hk. pose proof (outgoing_item_ok valid_user_id valid_server_name K _ k d e HK Hk) as Hp.
  assert (parse_servercurrentevent valid_user_id valid_server_name k (event_bytes e) = Ok (d, e)) as Hpe.
  { unfold outgoing_item in Hp. cbn in Hp. by destruct (parse_servercurrentevent _ _ k (event_bytes e)) as [[? ?]|?|]; simplify_eq. }
  assert (∀ m v, rows_ok K m → map_get m k = Some v → v = event_bytes e) as Hv.
  { intros m v Hm Hv. destruct (Hm _ _ Hv) as (d' & e' & Hk' & ->). congruence. }
  destruct (L _ _ _ Hk) as [[v Hs]|[[v Hs]|?]]; [| |by right]; left; exists k, v; (split; [auto|]).
  - by rewrite (Hv _ _ Hc Hs).
  - by rewrite (Hv _ _ Hn Hs).
Qed.

(** C16: with the burst at start-up on, and keeping at least one transaction's worth of
    events, the worker never panics and loses no event: after any sequence of queued events,
    received messages, answered and failed transactions, clean-ups and restarts, every event
    that was queued is still stored for its destination, or a transaction with it was
    answered, or the queues of the destination were cleaned up. *)
Theorem no_event_lost g l :
  keeps_all → is_u64 (counter g) → Forall action_ok l →
  counter g + Z.of_nat (length (concat (requested <$> l))) ≤ u64_max →
  ∃ s, acts (started_system g) l = Ok s ∧
    ∀ a e d, a ∈ l → (e, d) ∈ requested a → waiting s d e ∨ (d, e) ∈ delivered s ∨ ∃ a', a' ∈ l ∧ cleans a' d.
Proof.
  intros Hkeep Hg Hl Hb. destruct (acts_ok ∅ _ _ l Hkeep (started_ok g Hg) Hl Hb) as (K & s & E & Hs & _ & Hq).
  exists s. split; [done|]. intros a e d Ha He. destruct (Hq _ _ _ Ha He) as [k Hk].
  destruct (kept_waiting _ _ _ _ _ _ Hs Hk) as [?|[?|[[]|?]]]; auto.
Qed.

(** C18: at most one transaction to a destination is in flight at any time, exactly when its
    status says so, and it carries every active event of the destination, when a restart
    sends again all that was active ([keeps_all]: [startup_netburst] is on and keeps at least
    48 events, or all). *)
Theorem one_transaction_at_a_time g l s d :
  keeps_all → is_u64 (counter g) → Forall action_ok l →
  counter g + Z.of_nat (length (concat (requested <$> l))) ≤ u64_max →
  acts (started_system g) l = Ok s →
  in_flight d (futures (worker s)) = (if is_running (statuses (worker s) !! d) then 1%nat else 0%nat)
  ∧ ∀ t k v e, t ∈ futures (worker s) → map_get (servercurrentevent_data (data (worker s))) k = Some v →
      parse_servercurrentevent valid_user_id valid_server_name k v = Ok (t.1, e) → e ∈ t.2.
Proof.
  intros Hkeep Hg Hl Hb E. destruct (acts_ok ∅ _ _ l Hkeep (started_ok g Hg) Hl Hb) as (K & s' & E' & [W _ _] & _ & _).
  rewrite E in E'. injection E' as <-. split; [apply W|]. intros t k v e Ht Hv Hp.
  destruct (ok_tables _ _ W) as (HK & Hc & _). destruct (Hc _ _ Hv) as (d' & e' & Hk & ->).
  pose proof (outgoing_item_ok valid_user_id valid_server_name K _ k d' e' HK Hk) as Ho. unfold outgoing_item in Ho. cbn in Ho.
  rewrite Hp in Ho. injection Ho as <- <-. by apply (ok_active _ _ W k (t.1) e Hk); [exists (event_bytes e)|..].
Qed.

(** Answering the transactions to a destination as long as there is one. *)
Fixpoint settle (n : nat) s d now : outcome SendingError System :=
  match n with
  | O => Ok s
  | S n => match list_find (λ t : Destination * list SendingEvent, t.1 = d) (futures (worker s)) with
           | None => Ok s
           | Some (i, _) => s ← act s (Respond i true now); settle n s d now
           end
  end.

(** A success sends the next events of the queue, in the order of their keys. *)
Lemma response_queue K s cleaned i t w' :
  system_ok K s cleaned → futures (worker s) !! i = Some t →
  handle_response_ok (mkWorker (data (worker s)) (statuses (worker s)) (list_delete i (futures (worker s)))) t.1 = Ok w' →
  let q m := raw_keys_prefix m (get_prefix t.1) in
  match q (servernameevent_data (data (worker s))) with
  | [] => q (servernameevent_data (data w')) = [] ∧ q (servercurrentevent_data (data w')) = [] ∧ statuses w' !! t.1 = None
  | _ => in_flight t.1 (futures w') = 1%nat
         ∧ (length (q (servernameevent_data (data w'))) ≤ length (q (servernameevent_data (data (worker s)))) - DEQUEUE_LIMIT)%nat
  end.
Proof.
  intros [W C L] Hi Hok q. destruct (response_taken K _ _ _ W Hi) as (Hd & Hr & Hf & Ht). destruct W as [W1 W2 W3 W4 W5].
  unfold Sending.handle_response_ok in Hok. cbn [data statuses futures] in Hok.
  set (D := delete_all_active_requests_for (data (worker s)) t.1) in *.
  assert (tables_ok K D) as HD by (by apply tables_delete_active).
  destruct (collect_dest valid_user_id valid_server_name K _ (servernameevent_data D) t.1 DEQUEUE_LIMIT (proj1 HD) (proj2 (proj2 HD)) Hd)
    as (items & Hc & Hkeys & Hitems).
  unfold queued_requests in Hok. rewrite Hc in Hok. cbn [mbind outcome_bind] in Hok.
  change (servernameevent_data D) with (servernameevent_data (data (worker s))) in Hkeys. fold (q (servernameevent_data (data (worker s)))) in Hkeys.
  destruct items as [|it items].
  - injection Hok as <-. cbn [data statuses].
    destruct (q (servernameevent_data (data (worker s)))) as [|k l] eqn:Eq; [|done]. split; [exact Eq|]. split; [|apply lookup_delete_eq].
    destruct (q (servercurrentevent_data D)) as [|k l] eqn:Ec; [done|].
    destruct (dest_key valid_user_id valid_server_name K _ (servercurrentevent_data D) k t.1 (proj1 HD) (proj1 (proj2 HD)) Hd) as (e & Hk & Hv).
    { fold (q (servercurrentevent_data D)). rewrite Ec. by left. }
    unfold D in Hv. by rewrite (get_delete_active valid_user_id valid_server_name K _ t.1 k t.1 e W1 Hd Hk), bool_decide_eq_true_2 in Hv by done.
  - injection Hok as <-. cbn [data futures]. set (its := it :: items) in *.
    destruct (q (servernameevent_data (data (worker s)))) as [|k0 l0] eqn:Eq; [done|]. rewrite <- Eq in *. split.
    + rewrite in_flight_app, Hf, in_flight_one. cbn [fst]. by rewrite bool_decide_eq_true_2.
    + rewrite <- (length_drop _ DEQUEUE_LIMIT). apply raw_keys_le. intros k Hk.
      assert (Forall (λ it : bytes * SendingEvent, it.1 ≠ []) its) as HF.
      { apply Forall_forall. intros [k1 e1] Hin. eapply key_nonempty; [exact (proj1 HD)|]. by apply (Hitems k1 e1). }
      apply elem_of_raw_keys in Hk as [[v Hv] Hp]. cbn [data] in Hv.
      change (mark_as_active (mark_one D it) items) with (mark_as_active D its) in Hv.
      rewrite (proj1 (get_mark_as_active D its k HF)) in Hv.
      case_bool_decide as Hin; [done|]. assert (k ∈ q (servernameevent_data (data (worker s)))) as Hq by (apply elem_of_raw_keys; split; [by exists v|done]).
      rewrite Hkeys in Hin. rewrite <- (take_drop DEQUEUE_LIMIT (q _)) in Hq. by apply elem_of_app in Hq as [?|?].
Qed.

Lemma settle_ok K s cleaned d now n :
  system_ok K s cleaned → in_flight d (futures (worker s)) = 1%nat →
  (length (raw_keys_prefix (servernameevent_data (data (worker s))) (get_prefix d)) ≤ DEQUEUE_LIMIT * n)%nat →
  ∃ s', settle (S n) s d now = Ok s' ∧ statuses (worker s') !! d = None
    ∧ raw_keys_prefix (servernameevent_data (data (worker s'))) (get_prefix d) = []
    ∧ raw_keys_prefix (servercurrentevent_data (data (worker s'))) (get_prefix d) = [].
Proof.
  revert s. induction n as [|n IH]; intros s Hs Hf Hq; cbn [settle].
  all: destruct (list_find _ (futures (worker s))) as [[i t]|] eqn:Ef;
    [|apply list_find_None in Ef; rewrite Forall_forall in Ef; by rewrite (proj2 (in_flight_zero _ _)) in Hf by done].
  all: apply list_find_Some in Ef as (Hi & <- & _).
  all: destruct (response_ok_ok K s cleaned i t Hs Hi) as (w' & E & Eg & W' & L').
  all: pose proof (response_queue K s cleaned i t w' Hs Hi E) as Hw; cbn in Hw.
  all: assert (act s (Respond i true now) = Ok (mkSystem w' (channel s) (delivered s ++ (pair t.1 <$> t.2)))) as ->
    by (unfold Sending.act; rewrite Hi; unfold handle_response; by rewrite E).
  all: cbn [mbind outcome_bind].
  - destruct (raw_keys_prefix (servernameevent_data (data (worker s))) (get_prefix t.1)); [|cbn in Hq; lia].
    destruct Hw as (? & ? & ?). eexists. split; [done|]. by split_and!.
  - destruct (raw_keys_prefix (servernameevent_data (data (worker s))) (get_prefix t.1)) as [|k l] eqn:Eq.
    + destruct Hw as (? & ? & Hst). exists (mkSystem w' (channel s) (delivered s ++ (pair t.1 <$> t.2))).
      split; [|by split_and!]. cbn [settle worker].
      destruct (list_find _ (futures w')) as [[j t']|] eqn:Ej; [|done]. apply list_find_Some in Ej as (Hj & E1 & _).
      pose proof (ok_flight _ _ W' t.1) as Hz. rewrite Hst in Hz. apply list_elem_of_lookup_2 in Hj.
      by apply (proj1 (in_flight_zero _ _) Hz) in Hj.
    + destruct Hw as [Hf' Hq']. apply (IH (mkSystem w' (channel s) (delivered s ++ (pair t.1 <$> t.2)))); cbn [worker].
      * destruct Hs as [_ C _]. by split.
      * done.
      * cbn [worker]. lia.
Qed.

(** C17: if the transactions to a destination succeed, its queue empties: with [n] times
    forty-eight events queued, after at most [n + 1] answers nothing for it is stored, and
    the worker is done with it. *)
Theorem queue_drains g l s d now n :
  keeps_all → is_u64 (counter g) → Forall action_ok l →
  counter g + Z.of_nat (length (concat (requested <$> l))) ≤ u64_max →
  acts (started_system g) l = Ok s → is_running (statuses (worker s) !! d) = true →
  (length (raw_keys_prefix (servernameevent_data (data (worker s))) (get_prefix d)) ≤ DEQUEUE_LIMIT * n)%nat →
  ∃ s', settle (S n) s d now = Ok s' ∧ statuses (worker s') !! d = None
    ∧ raw_keys_prefix (servernameevent_data (data (worker s'))) (get_prefix d) = []
    ∧ raw_keys_prefix (servercurrentevent_data (data (worker s'))) (get_prefix d) = [].
Proof.
  intros Hkeep Hg Hl Hb E Hrun Hq. destruct (acts_ok ∅ _ _ l Hkeep (started_ok g Hg) Hl Hb) as (K & s' & E' & Hs & _ & _).
  rewrite E in E'. injection E' as <-. eapply settle_ok; [exact Hs| |exact Hq]. by rewrite (ok_flight _ _ (ok_worker _ _ _ Hs)), Hrun.
Qed.
End system.
