(* ===== verification/SendingDemo.v ===== *)
(** * The sending system on concrete runs

    Witnesses of the theorems on the queues, and runs that show what is lost when the burst
    at start-up is off, and that ephemeral events are not retried. *)

From S2P Require Import Prelude Bytes PduId DbMap DbSer DbScan Short ShortProps Sending SendingProps SendingSystem.

Local Open Scope Z_scope.

Module SendingDemo.
Abbreviation DB := (gmap bytes bytes).
Definition config : SenderConfig := mkSenderConfig 60 86400 true 50.
Definition no_burst : SenderConfig := mkSenderConfig 60 86400 false 50.
Definition any (s : string) : bool := true.
Definition no_edus (d : SendingData (DB := DB)) (server : string) : option (list bytes * Z) := None.
Definition g0 : Globals DB := mkGlobals ∅ 0.

Definition remote : Destination := Federation "remote".
Definition event (n : Z) : SendingEvent := Pdu (RawNormal (u64_be 1 ++ u64_be n)).
Lemma remote_ok : dest_ok any any remote.
Proof. by split_and!. Qed.

(** Two events; the transaction with the first fails and is retried after a restart. *)
Definition run : list action :=
  [Queue [(event 1, remote)]; Receive 0; Queue [(event 2, remote)]; Receive 1; Respond 0 false 2; RestartWorker].
Lemma run_ok : Forall (action_ok any any) run.
Proof. repeat constructor; by apply remote_ok || by cbn. Qed.
Lemma keeps : keeps_all config.
Proof. split; [done|]. right. done. Qed.

Lemma no_event_lost_witness :
  ∃ s, acts any any config no_edus (started_system g0) run = Ok s ∧
    ∀ a e d, a ∈ run → (e, d) ∈ requested a →
      waiting any any s d e ∨ (d, e) ∈ delivered s ∨ ∃ a', a' ∈ run ∧ cleans a' d.
Proof. apply (no_event_lost any any config no_edus g0 run keeps); [done|exact run_ok|done]. Defined.

Definition outcome_system (o : outcome SendingError (System (DB := DB))) : System (DB := DB) :=
  match o with Ok s => s | _ => started_system g0 end.
Definition after : System (DB := DB) := outcome_system (acts any any config no_edus (started_system g0) run).
Lemma run_after : acts any any config no_edus (started_system g0) run = Ok after.
Proof.
  unfold after. assert (match acts any any config no_edus (started_system g0) run with Ok _ => true | _ => false end = true) as Hok
    by (vm_compute; reflexivity).
  by destruct (acts any any config no_edus (started_system g0) run).
Qed.

Lemma one_transaction_at_a_time_witness :
  in_flight remote (futures (worker after)) = (if is_running (statuses (worker after) !! remote) then 1%nat else 0%nat)
  ∧ ∀ t k v e, t ∈ futures (worker after) → map_get (servercurrentevent_data (data (worker after))) k = Some v →
      parse_servercurrentevent any any k v = Ok (t.1, e) → e ∈ t.2.
Proof. apply (one_transaction_at_a_time any any config no_edus g0 run after remote keeps); [done|exact run_ok|done|exact run_after]. Defined.

Lemma queue_drains_witness :
  ∃ s', settle any any config no_edus 2 after remote 3 = Ok s' ∧ statuses (worker s') !! remote = None
    ∧ raw_keys_prefix (servernameevent_data (data (worker s'))) (get_prefix remote) = []
    ∧ raw_keys_prefix (servercurrentevent_data (data (worker s'))) (get_prefix remote) = [].
Proof.
  apply (queue_drains any any config no_edus g0 run after remote 3 1 keeps);
    [done|exact run_ok|done|exact run_after|vm_compute; reflexivity|]. apply Nat.leb_le. vm_compute. reflexivity.
Defined.
Lemma queue_key_round_trip_witness :
  parse_servercurrentevent any any (request_key g0 (event 1) remote).1 (event_bytes (event 1)) = Ok (remote, event 1).
Proof. by apply (queue_key_round_trip any any g0 remote (event 1)). Defined.

(** Without the burst: the event in flight when the server stopped is deleted by the first
    success of a later one, although it was never sent. *)
Example unsent_event_deleted :
  let s := outcome_system (acts any any no_burst no_edus (started_system g0)
    [Queue [(event 1, remote)]; Receive 0; RestartWorker; Queue [(event 2, remote)]; Receive 1; Respond 0 true 2]) in
  delivered s = [(remote, event 2)]
  ∧ gmap_scan (servercurrentevent_data (data (worker s))) = [] ∧ gmap_scan (servernameevent_data (data (worker s))) = [].
Proof. by vm_compute. Qed.

(** An ephemeral event that goes along with a transaction is not stored: the retry after a
    failure is without it, and the count up to which such events were taken has moved on. *)
Example ephemeral_event_not_retried :
  let edus (d : SendingData (DB := DB)) (server : string) := Some ([bytes_of_string "edu"], 7) in
  let s := outcome_system (acts any any config edus (started_system g0)
    [Queue [(event 1, remote)]; Receive 0; Respond 0 false 1; FlushServers ["remote"]; Receive (10 ^ 18)]) in
  futures (worker s) = [(remote, [event 1])] ∧ get_latest_educount (data (worker s)) "remote" = 7.
Proof. by vm_compute. Qed.
End SendingDemo.
