(* ===== verification/Transactions.v ===== *)
(** * Incoming transactions

    Models [src/service/transactions/mod.rs]: the answers to the transactions of clients,
    and the table of federation transactions, which are in progress or answered and cached.
    Times are in nanoseconds; a response is a text. *)

From S2P Require Import Prelude Bytes DbMap DbSer DbScan Short ShortProps.

Local Open Scope Z_scope.

(** ** Transactions of clients *)

Section client.
Context {DB : Type} `{Store DB}.
Implicit Types (m : DB).

Definition client_txn_key (user_id : string) (device_id : option string) (txn_id : string) : bytes :=
  bytes_of_string user_id ++ SEP :: default [] (bytes_of_string <$> device_id) ++ SEP :: bytes_of_string txn_id.
Definition add_client_txnid m user_id device_id txn_id (data : bytes) : DB :=
  map_insert m (client_txn_key user_id device_id txn_id) data.
Definition client_txn_value (user_id : string) (device_id : option string) (txn_id : string) : Value :=
  VTuple [VStr (bytes_of_string user_id);
          match device_id with Some d => VSome (VStr (bytes_of_string d)) | None => VNone end;
          VStr (bytes_of_string txn_id)].
Definition get_client_txn m user_id device_id txn_id : outcome SerdeError (option bytes) :=
  key ← serialize None (client_txn_value user_id device_id txn_id); Ok (map_get m key).
End client.

(** ** Federation transactions *)

(** The origin and its id of the transaction. *)
Abbreviation TxnKey := (string * string)%type.
Record CachedTxnResponse := mkCached { response : string; created : Z }.
(** A receiver of a transaction in progress is the number of its channel. *)
Inductive TxnState :=
  | TxnActive (channel : nat)
  | TxnCached (cached : CachedTxnResponse).
Inductive FederationTxnState :=
  | StateCached (response : string)
  | StateActive (channel : nat)
  | StateStarted (channel : nat).
Inductive TxnError := OriginBusy | Overloaded.

Definition CLEANUP_INTERVAL_SECS : Z := 30.
Record TxnConfig := mkTxnConfig {
  max_concurrent_inbound_transactions : nat;
  transaction_id_cache_max_age_secs : Z;
  transaction_id_cache_max_entries : nat;
}.

Record Transactions := mkTransactions {
  federation_txn_state : gmap TxnKey TxnState;
  last_cleanup : Z;
}.
Implicit Types (state : gmap TxnKey TxnState) (t : Transactions).

Definition is_active (v : TxnState) : bool := match v with TxnActive _ => true | TxnCached _ => false end.
Definition active_count state : nat := length (filter (λ kv : TxnKey * TxnState, is_active kv.2 = true) (map_to_list state)).
Definition txn_active_handle_count t : nat := active_count (federation_txn_state t).

Definition clear_cache t : Transactions :=
  mkTransactions (filter (λ kv : TxnKey * TxnState, is_active kv.2 = true) (federation_txn_state t)) (last_cleanup t).

Definition older (x y : TxnKey * Z) : Prop := x.2 ≤ y.2.
#[export] Instance older_dec : RelDecision older.
Proof. intros x y. unfold older. apply _. Defined.

Section federation.
Context (config : TxnConfig).

(** [channel] is the number of the channel that a new transaction gets. *)
Definition get_or_start_federation_txn t (key : TxnKey) (channel : nat) : Transactions * outcome TxnError FederationTxnState :=
  let state := federation_txn_state t in
  match state !! key with
  | Some (TxnCached cached) => (t, Ok (StateCached (response cached)))
  | Some (TxnActive receiver) => (t, Ok (StateActive receiver))
  | None =>
      let has_active_from_origin :=
        existsb (λ kv : TxnKey * TxnState, bool_decide (kv.1.1 = key.1) && is_active kv.2) (map_to_list state) in
      if has_active_from_origin then (t, Err OriginBusy)
      else
        let max_active_txns := max_concurrent_inbound_transactions config in
        if bool_decide (max_active_txns ≤ size state)%nat && bool_decide (max_active_txns ≤ active_count state)%nat
        then (t, Err Overloaded)
        else (mkTransactions (<[key := TxnActive channel]> state) (last_cleanup t), Ok (StateStarted channel))
  end.

(** A time that [SystemTime] can represent: seconds in 64 bits. *)
Definition system_time (t : Z) : option Z := if bool_decide (i64_min * 10 ^ 9 ≤ t) then Some t else None.

(** Removes what is too old, then the oldest entries beyond the limit; entries of the same
    age are removed in the order of the map. *)
Definition cached_entries state : list (TxnKey * Z) :=
  omap (λ kv : TxnKey * TxnState, match kv.2 with TxnCached c => Some (kv.1, created c) | TxnActive _ => None end) (map_to_list state).
Definition younger_than (cutoff : Z) (v : TxnState) : bool :=
  match v with TxnActive _ => true | TxnCached c => bool_decide (cutoff < created c) end.
Definition cleanup_entries_locked state (now : Z) : gmap TxnKey TxnState :=
  let cutoff := default 0 (system_time (now - transaction_id_cache_max_age_secs config * 10 ^ 9)) in
  let state := filter (λ kv : TxnKey * TxnState, younger_than cutoff kv.2 = true) state in
  let cached := cached_entries state in
  if bool_decide (transaction_id_cache_max_entries config < length cached)%nat then
    let excess := (length cached - transaction_id_cache_max_entries config)%nat in
    foldl (λ state e, delete e.1 state) state (take excess (merge_sort older cached))
  else state.

(** Between reading the last clean-up and setting it, another thread may set it ([raced]). *)
Definition should_try_cleanup t (now : Z) (raced : bool) : Transactions * bool :=
  let now := now / 10 ^ 9 in
  if bool_decide (CLEANUP_INTERVAL_SECS ≤ Z.max 0 (now - last_cleanup t))
  then if raced then (t, false) else (mkTransactions (federation_txn_state t) now, true)
  else (t, false).

Definition finish_federation_txn t (key : TxnKey) (response : string) (now : Z) (raced : bool) : Transactions :=
  let '(t, try_cleanup) := should_try_cleanup t now raced in
  let state := <[key := TxnCached (mkCached response now)]> (federation_txn_state t) in
  mkTransactions (if try_cleanup then cleanup_entries_locked state now else state) (last_cleanup t).
Definition remove_federation_txn t (key : TxnKey) : Transactions :=
  mkTransactions (delete key (federation_txn_state t)) (last_cleanup t).
End federation.

(** ** Theorems *)

Section client_props.
Context {DB : Type} `{Store DB}.

Lemma client_txn_serialize u d x : serialize None (client_txn_value u d x) = Ok (client_txn_key u d x).
Proof.
  unfold client_txn_value, client_txn_key. destruct d; cbn; unfold serialize; cbn; by rewrite <- ?(assoc_L (++)).
Qed.
Lemma client_txn_key_inj u d x u' d' x' :
  utf8 u → utf8 u' → utf8 (default "" d) → utf8 (default "" d') →
  client_txn_key u d x = client_txn_key u' d' x' → u = u' ∧ default "" d = default "" d' ∧ x = x'.
Proof.
  intros Hu Hu' Hd Hd' E. unfold client_txn_key in E.
  apply split_at_sep in E as [->%bytes_of_string_inj E]; [|by apply utf8_no_sep..].
  assert (∀ d : option string, default [] (bytes_of_string <$> d) = bytes_of_string (default "" d)) as Hdef by by intros [].
  rewrite !Hdef in E. by apply split_at_sep in E as [->%bytes_of_string_inj ->%bytes_of_string_inj]; [|by apply utf8_no_sep..].
Qed.

(** The answer stored for a transaction of a client is what is found under its user,
    device and id; the answers to all other transactions are as they were. *)
Theorem client_txn_found (m : DB) u d x data u' d' x' :
  utf8 u → utf8 u' → utf8 (default "" d) → utf8 (default "" d') →
  get_client_txn (add_client_txnid m u d x data) u' d' x'
  = if bool_decide (u = u' ∧ default "" d = default "" d' ∧ x = x') then Ok (Some data) else get_client_txn m u' d' x'.
Proof.
  intros Hu Hu' Hd Hd'. unfold get_client_txn, add_client_txnid. rewrite client_txn_serialize. cbn.
  case_bool_decide as E.
  - destruct E as (-> & E & ->). assert (client_txn_key u' d x' = client_txn_key u' d' x') as ->.
    { unfold client_txn_key. destruct d, d'; cbn in *; by subst. }
    by rewrite map_get_insert_eq.
  - rewrite map_get_insert_ne; [done|]. by intros ?%client_txn_key_inj.
Qed.
End client_props.

Section federation_props.
Context (config : TxnConfig).

(** At most one transaction per origin is in progress, and at most as many as configured. *)
Definition txns_ok state : Prop :=
  (∀ o i j c c', state !! (o, i) = Some (TxnActive c) → state !! (o, j) = Some (TxnActive c') → i = j)
  ∧ (active_count state ≤ max_concurrent_inbound_transactions config)%nat.

Lemma active_count_filter state : active_count state = size (filter (λ kv : TxnKey * TxnState, is_active kv.2 = true) state).
Proof.
  unfold active_count. rewrite <- length_map_to_list. apply Permutation_length, NoDup_Permutation.
  - apply NoDup_filter, NoDup_map_to_list.
  - apply NoDup_map_to_list.
  - intros [k v]. rewrite list_elem_of_filter, !elem_of_map_to_list, map_lookup_filter_Some. tauto.
Qed.
Lemma active_count_mono state state' :
  (∀ k c, state' !! k = Some (TxnActive c) → ∃ c', state !! k = Some (TxnActive c')) → (active_count state' ≤ active_count state)%nat.
Proof.
  intros Hs. rewrite !active_count_filter, <- !size_dom. apply subseteq_size. intros k. rewrite !elem_of_dom.
  intros [v [Hv Ha]%map_lookup_filter_Some]. destruct v as [c|]; [|done]. destruct (Hs _ _ Hv) as [c' Hc'].
  exists (TxnActive c'). by apply map_lookup_filter_Some.
Qed.
Lemma txns_ok_mono state state' :
  (∀ k c, state' !! k = Some (TxnActive c) → state !! k = Some (TxnActive c)) → txns_ok state → txns_ok state'.
Proof.
  intros Hs [H1 H2]. split.
  - intros o i j c c' Hi Hj. eapply H1; by apply Hs.
  - etransitivity; [apply active_count_mono|exact H2]. eauto.
Qed.

(** *** Starting and finishing *)

Lemma txn_start_ok t key ch :
  let '(t', r) := get_or_start_federation_txn config t key ch in
  (txns_ok (federation_txn_state t) → txns_ok (federation_txn_state t'))
  ∧ match r with
    | Ok (StateStarted c) => c = ch ∧ federation_txn_state t !! key = None ∧ federation_txn_state t' = <[key := TxnActive ch]> (federation_txn_state t)
    | Ok (StateCached resp) => t' = t ∧ ∃ c, federation_txn_state t !! key = Some (TxnCached c) ∧ response c = resp
    | Ok (StateActive c) => t' = t ∧ federation_txn_state t !! key = Some (TxnActive c)
    | Err _ => t' = t ∧ federation_txn_state t !! key = None
    | Panic => False
    end.
Proof.
  unfold get_or_start_federation_txn. set (state := federation_txn_state t).
  destruct (state !! key) as [[c|c]|] eqn:Hk; [by split; [|split]|by split; [|split; [|eexists]]|].
  destruct (existsb _ (map_to_list state)) eqn:Hex; [by split; [|split]|].
  destruct (_ && _) eqn:Hcap; [by split; [|split]|]. split; [|done]. cbn. intros [H1 H2].
  assert (∀ i c, state !! (key.1, i) ≠ Some (TxnActive c)) as Hno.
  { intros i c Hi. apply (elem_of_map_to_list state) in Hi. apply not_true_iff_false in Hex. apply Hex. apply existsb_exists.
    exists (key.1, i, TxnActive c). split; [by apply list_elem_of_In|]. cbn. by rewrite bool_decide_eq_true_2. }
  split.
  - intros o i j c c' [[-> [= _]]|[_ Hi]]%lookup_insert_Some [[E [= _]]|[_ Hj]]%lookup_insert_Some.
    + congruence.
    + by apply Hno in Hj.
    + subst key. by apply Hno in Hi.
    + by eapply H1.
  - assert (active_count state < max_concurrent_inbound_transactions config)%nat as Hlt.
    { apply andb_false_iff in Hcap as [?%bool_decide_eq_false|?%bool_decide_eq_false]; [|lia].
      assert (active_count state ≤ size state)%nat; [|lia].
      unfold active_count. rewrite <- length_map_to_list. apply length_filter. }
    rewrite active_count_filter in Hlt |- *. rewrite map_filter_insert_True by done.
    rewrite map_size_insert_None; [lia|]. apply map_lookup_filter_None. left. exact Hk.
Qed.

Lemma foldl_delete (l : list (TxnKey * Z)) state k v :
  foldl (λ state e, delete e.1 state) state l !! k = Some v → state !! k = Some v ∧ k ∉ l.*1.
Proof.
  revert state. induction l as [|e l IH]; intros state; cbn; [intros ?; split; [done|apply not_elem_of_nil]|].
  intros [[Hne Hk]%lookup_delete_Some Hl]%IH. split; [done|]. rewrite ?fmap_cons, not_elem_of_cons. done.
Qed.
Lemma foldl_delete_other (l : list (TxnKey * Z)) state k : k ∉ l.*1 → foldl (λ state e, delete e.1 state) state l !! k = state !! k.
Proof.
  revert state. induction l as [|e l IH]; intros state; cbn; [done|]. rewrite ?fmap_cons, not_elem_of_cons. intros [Hne Hl].
  rewrite IH by done. by rewrite lookup_delete_ne.
Qed.
Lemma elem_of_cached_entries state k z :
  (k, z) ∈ cached_entries state ↔ ∃ c, state !! k = Some (TxnCached c) ∧ created c = z.
Proof.
  unfold cached_entries. rewrite list_elem_of_omap. split.
  - intros ([k' [ch|c]] & Hin%elem_of_map_to_list & E); cbn in E; [done|]. injection E as -> <-. by exists c.
  - intros (c & Hk & <-). exists (k, TxnCached c). by rewrite elem_of_map_to_list.
Qed.
Lemma cached_entries_NoDup state : NoDup (cached_entries state).*1.
Proof.
  unfold cached_entries. pose proof (NoDup_fst_map_to_list state) as Hnd. induction (map_to_list state) as [|[k [ch|c]] l IH]; [constructor|..];
    cbn in *; apply NoDup_cons in Hnd as [Hk Hnd]; [by apply IH|]. constructor; [|by apply IH].
  intros ([k' z] & -> & ([k2 [ch|c2]] & Hin & E)%list_elem_of_omap)%list_elem_of_fmap; cbn in E; [done|]. injection E as -> <-.
  apply Hk. apply list_elem_of_fmap. by exists (k', TxnCached c2).
Qed.

(** What a clean-up keeps. *)
Lemma cleanup_active state now k c :
  cleanup_entries_locked config state now !! k = Some (TxnActive c) ↔ state !! k = Some (TxnActive c).
Proof.
  unfold cleanup_entries_locked. set (st := filter _ state).
  assert (st !! k = Some (TxnActive c) ↔ state !! k = Some (TxnActive c)) as Hst.
  { unfold st. rewrite map_lookup_filter_Some. cbn. tauto. }
  case_bool_decide; [|exact Hst]. rewrite <- Hst. split; [by intros [? _]%foldl_delete|]. intros Hk. rewrite foldl_delete_other; [done|].
  intros ([k' z] & -> & Hin)%list_elem_of_fmap. apply elem_of_take in Hin as (i & Hi & _). apply list_elem_of_lookup_2 in Hi.
  rewrite merge_sort_Permutation in Hi. apply elem_of_cached_entries in Hi as (c' & Hc' & _). cbn in Hk. congruence.
Qed.
Lemma cleanup_sub state now k v : cleanup_entries_locked config state now !! k = Some v → state !! k = Some v.
Proof.
  unfold cleanup_entries_locked. set (st := filter _ state).
  assert (st !! k = Some v → state !! k = Some v) as Hst by by intros [? _]%map_lookup_filter_Some.
  case_bool_decide; [|exact Hst]. intros [? _]%foldl_delete. auto.
Qed.

Lemma older_total x y : older x y ∨ older y x.
Proof. unfold older. lia. Qed.
Lemma sorted_split (l : list (TxnKey * Z)) n x y :
  x ∈ take n (merge_sort older l) → y ∈ drop n (merge_sort older l) → x.2 ≤ y.2.
Proof.
  intros Hx Hy. assert (StronglySorted older (merge_sort older l)) as Hs.
  { apply StronglySorted_merge_sort; [intros ? ? ?; unfold older; lia|]. intros a b. apply older_total. }
  rewrite <- (take_drop n (merge_sort older l)) in Hs. by eapply (StronglySorted_app_1_elem_of older).
Qed.

(** A clean-up never touches a transaction in progress; what it keeps is young enough and
    no more than the limit; and of the entries that are young enough it removes the oldest:
    none that is removed was created after one that is kept. *)
Theorem cleanup_entries_spec state now :
  let state' := cleanup_entries_locked config state now in
  let cutoff := default 0 (system_time (now - transaction_id_cache_max_age_secs config * 10 ^ 9)) in
  (∀ k c, state' !! k = Some (TxnActive c) ↔ state !! k = Some (TxnActive c))
  ∧ (∀ k c, state' !! k = Some (TxnCached c) → state !! k = Some (TxnCached c) ∧ cutoff < created c)
  ∧ (length (cached_entries state') ≤ transaction_id_cache_max_entries config)%nat
  ∧ ∀ k c k' c', state !! k = Some (TxnCached c) → cutoff < created c → state' !! k = None →
      state' !! k' = Some (TxnCached c') → created c ≤ created c'.
Proof.
  intros state' cutoff. split; [apply cleanup_active|].
  unfold state', cleanup_entries_locked. fold cutoff.
  set (st := filter (λ kv : TxnKey * TxnState, younger_than cutoff kv.2 = true) state).
  assert (Hst : ∀ k c, st !! k = Some (TxnCached c) ↔ state !! k = Some (TxnCached c) ∧ cutoff < created c).
  { intros k c. unfold st. rewrite map_lookup_filter_Some. cbn. by rewrite bool_decide_eq_true. }
  set (n := (length (cached_entries st) - transaction_id_cache_max_entries config)%nat).
  set (sorted := merge_sort older (cached_entries st)).
  assert (Hsorted : sorted ≡ₚ cached_entries st) by apply merge_sort_Permutation.
  case_bool_decide as Hlen.
  2:{ split; [intros k c; by apply Hst|]. split; [lia|]. intros k c k' c' Hk Hc Hnone. assert (st !! k = Some (TxnCached c)) by (by apply Hst). congruence. }
  assert (Hkept : ∀ k c, foldl (λ state e, delete e.1 state) st (take n sorted) !! k = Some (TxnCached c) →
    st !! k = Some (TxnCached c) ∧ (k, created c) ∈ drop n sorted).
  { intros k c [Hk Hn]%foldl_delete. split; [done|]. assert ((k, created c) ∈ sorted) as Hin.
    { rewrite Hsorted. apply elem_of_cached_entries. by exists c. }
    rewrite <- (take_drop n sorted) in Hin. apply elem_of_app in Hin as [Hin|?]; [|done].
    destruct Hn. apply list_elem_of_fmap. by exists (k, created c). }
  split; [intros k c [? _]%Hkept; by apply Hst|]. split.
  - transitivity (length (drop n sorted)).
    + rewrite <- (length_fmap fst (cached_entries _)), <- (length_fmap fst (drop n sorted)). apply submseteq_length, NoDup_submseteq; [apply cached_entries_NoDup|].
      intros k ([k' z] & -> & (c & Hc & <-)%elem_of_cached_entries)%list_elem_of_fmap. apply Hkept in Hc as [_ Hin].
      apply list_elem_of_fmap. by exists (k', created c).
    + rewrite length_drop, Hsorted. lia.
  - intros k c k' c' Hk Hc Hnone Hk'. assert (st !! k = Some (TxnCached c)) as Hs by (by apply Hst).
    apply Hkept in Hk' as [_ Hin']. apply (sorted_split (cached_entries st) n (k, created c) (k', created c')); [|exact Hin'].
    destruct (decide (k ∈ (take n sorted).*1)) as [([k2 z] & -> & Hin)%list_elem_of_fmap|Hn].
    + assert ((k2, z) ∈ cached_entries st) as (c2 & Hc2 & <-)%elem_of_cached_entries.
      { rewrite <- Hsorted, <- (take_drop n sorted). set_solver. }
      cbn in Hs. rewrite Hs in Hc2. by injection Hc2 as <-.
    + by rewrite foldl_delete_other, Hs in Hnone.
Qed.

(** *** Runs *)

Inductive txn_action :=
  | TxnStart (key : TxnKey) (channel : nat)
  | TxnFinish (key : TxnKey) (response : string) (now : Z) (raced : bool)
  | TxnRemove (key : TxnKey)
  | TxnClear.
Definition txn_act t (a : txn_action) : Transactions :=
  match a with
  | TxnStart key channel => (get_or_start_federation_txn config t key channel).1
  | TxnFinish key response now raced => finish_federation_txn config t key response now raced
  | TxnRemove key => remove_federation_txn t key
  | TxnClear => clear_cache t
  end.

(** Whatever transactions start, finish, fail and are cleaned up, no server has two in
    progress, and no more are in progress than the configuration allows. *)
Theorem federation_txn_invariant (l : list txn_action) :
  txns_ok (federation_txn_state (foldl txn_act (mkTransactions ∅ 0) l)).
Proof.
  assert (∀ t, txns_ok (federation_txn_state t) → txns_ok (federation_txn_state (foldl txn_act t l))) as Hl.
  { induction l as [|a l IH]; intros t Ht; [done|]. cbn. apply IH. destruct a as [key ch|key resp now raced|key|]; cbn.
    - pose proof (txn_start_ok t key ch) as Hs. destruct (get_or_start_federation_txn config t key ch) as [t' r]. by apply Hs.
    - unfold finish_federation_txn, should_try_cleanup.
      assert (txns_ok (<[key := TxnCached (mkCached resp now)]> (federation_txn_state t))) as Hi.
      { eapply txns_ok_mono; [|exact Ht]. intros k c [[_ [=]]|[_ ?]]%lookup_insert_Some. done. }
      assert (txns_ok (cleanup_entries_locked config (<[key := TxnCached (mkCached resp now)]> (federation_txn_state t)) now)).
      { eapply txns_ok_mono; [|exact Hi]. intros k c. by apply cleanup_sub. }
      case_bool_decide; [destruct raced|]; done.
    - eapply txns_ok_mono; [|exact Ht]. by intros k c [_ ?]%lookup_delete_Some.
    - eapply txns_ok_mono; [|exact Ht]. by intros k c [? _]%map_lookup_filter_Some. }
  apply Hl. split; cbn; [intros ?????; by rewrite lookup_empty|]. unfold active_count. rewrite map_to_list_empty. cbn. lia.
Qed.
End federation_props.

Module TransactionsDemo.
Lemma client_txn_found_witness :
  get_client_txn (add_client_txnid (∅ : gmap bytes bytes) "@a:b" None "t1" [x01]) "@a:b" None "t1"
  = if bool_decide ("@a:b" = "@a:b" ∧ default "" None = default "" (None : option string) ∧ "t1" = "t1") then Ok (Some [x01])
    else get_client_txn (∅ : gmap bytes bytes) "@a:b" None "t1".
Proof. apply client_txn_found; vm_compute; reflexivity. Defined.
End TransactionsDemo.
