(* ===== verification/KeyBackups.v ===== *)
(** * Backups of room keys

    Models [src/service/key_backups/mod.rs]: per user the versions of a backup with their
    algorithm and etag, and the keys stored in a version per room and session.

    * What the key backups promise

    Deleting a version, or the keys of a room in it, deletes the keys of that version or
    room and no other; the latest backup is the greatest version as a text, which is not
    the newest one. *)

From stdpp Require Import pretty.
From S2P Require Import Prelude Bytes DbMap DbSer DbScan Short ShortProps.

Local Open Scope Z_scope.

Inductive BackupError := BackupNotFound | BackupDatabase (e : ShortError).

Section backups.
Context {DB : Type} `{Store DB}.
(** Whether a stored text is JSON, which reading it as [Raw] checks. *)
Context (is_json : bytes → bool).

Record KeyBackups := mkKeyBackups {
  backup_globals : Globals DB;
  backupid_algorithm : DB;
  backupid_etag : DB;
  backupkeyid_backup : DB;
}.
Implicit Types (s : KeyBackups) (user_id version room_id session_id : string).

Definition backup_key user_id version : Value := pair_value user_id version.
Definition backup_prefix user_id version : Value :=
  VTuple [VStr (bytes_of_string user_id); VStr (bytes_of_string version); VInterfix].
Definition backup_room_prefix user_id version room_id : Value :=
  VTuple [VStr (bytes_of_string user_id); VStr (bytes_of_string version); VStr (bytes_of_string room_id); VInterfix].
Definition session_key user_id version room_id session_id : Value :=
  VTuple [VStr (bytes_of_string user_id); VStr (bytes_of_string version); VStr (bytes_of_string room_id);
          VStr (bytes_of_string session_id)].

Definition raw_json (o : option bytes) : outcome BackupError bytes :=
  match o with
  | None => Err BackupNotFound
  | Some b => if is_json b then Ok b else Err (BackupDatabase DatabaseFailure)
  end.

Definition with_version s (g : Globals DB) (algorithm etag : DB) : KeyBackups := mkKeyBackups g algorithm etag (backupkeyid_backup s).
Definition with_backup_keys s (m : DB) : KeyBackups := mkKeyBackups (backup_globals s) (backupid_algorithm s) (backupid_etag s) m.

(** The count, as a text. *)
Definition version_of (count : Z) : string := pretty count.

Definition create_backup s user_id (backup_metadata : bytes) : outcome BackupError (string * KeyBackups) :=
  let '(n, g) := next_count (backup_globals s) in
  let version := version_of n in
  let '(count, g) := next_count g in
  key ← must (serialize None (backup_key user_id version));
  Ok (version, with_version s g (map_insert (backupid_algorithm s) key backup_metadata)
                 (map_insert (backupid_etag s) key (u64_be count))).

Definition delete_prefixed s (prefix : Value) : outcome BackupError KeyBackups :=
  prefix ← must (serialize None prefix);
  Ok (with_backup_keys s (remove_keys (backupkeyid_backup s) (raw_keys_prefix (backupkeyid_backup s) prefix))).
Definition delete_backup s user_id version : outcome BackupError KeyBackups :=
  key ← must (serialize None (backup_key user_id version));
  let s := with_version s (backup_globals s) (map_remove (backupid_algorithm s) key) (map_remove (backupid_etag s) key) in
  delete_prefixed s (backup_prefix user_id version).

Definition bump_etag s (key : bytes) : KeyBackups :=
  let '(count, g) := next_count (backup_globals s) in
  with_version s g (backupid_algorithm s) (map_insert (backupid_etag s) key (u64_be count)).
Definition update_backup s user_id version (backup_metadata : bytes) : outcome BackupError (string * KeyBackups) :=
  existing ← qry (backupid_algorithm s) (backup_key user_id version);
  match existing with
  | None => Err BackupNotFound
  | Some _ =>
      key ← must (serialize None (backup_key user_id version));
      let s := bump_etag s key in
      Ok (version, with_version s (backup_globals s) (map_insert (backupid_algorithm s) key backup_metadata) (backupid_etag s))
  end.

(** From the last possible version of the user downwards. *)
Definition rev_versions s user_id : outcome BackupError (list (string * string * bytes)) :=
  last_possible_key ← must (serialize None (VTuple [VStr (bytes_of_string user_id); VU64 u64_max]));
  let read (kv : KeyVal) :=
    match from_slice (STuple [SStr; SStr]) kv.1 with
    | Ok (VTuple [VStr u; VStr v]) => Some (string_of_bytes u, string_of_bytes v, kv.2)
    | _ => None
    end in
  Ok (omap read (rev_raw_stream_from (backupid_algorithm s) last_possible_key)).
Definition get_latest_backup_version s user_id : outcome BackupError string :=
  rows ← rev_versions s user_id;
  match take_while (λ r : string * string * bytes, r.1.1 = user_id) rows with
  | [] => Err BackupNotFound
  | (_, version, _) :: _ => Ok version
  end.
Definition get_latest_backup s user_id : outcome BackupError (string * bytes) :=
  rows ← rev_versions s user_id;
  match take_while (λ r : string * string * bytes, r.1.1 = user_id)
          (filter (λ r : string * string * bytes, is_json r.2 = true) rows) with
  | [] => Err BackupNotFound
  | (_, version, algorithm) :: _ => Ok (version, algorithm)
  end.
Definition get_backup s user_id version : outcome BackupError bytes :=
  r ← qry (backupid_algorithm s) (backup_key user_id version); raw_json r.

Definition add_key s user_id version room_id session_id (key_data : bytes) : outcome BackupError KeyBackups :=
  existing ← qry (backupid_algorithm s) (backup_key user_id version);
  match existing with
  | None => Err BackupNotFound
  | Some _ =>
      key ← must (serialize None (backup_key user_id version));
      let s := bump_etag s key in
      key ← must (serialize None (session_key user_id version room_id session_id));
      Ok (with_backup_keys s (map_insert (backupkeyid_backup s) key key_data))
  end.

(** The prefix does not end the version. *)
Definition count_backup_keys s user_id version : outcome BackupError nat :=
  prefix ← must (serialize None (backup_key user_id version));
  Ok (length (raw_keys_prefix (backupkeyid_backup s) prefix)).
Definition get_etag s user_id version : outcome BackupError string :=
  r ← qry (backupid_etag s) (backup_key user_id version);
  match deserialized_u64 r with Ok n => Ok (pretty n) | _ => Panic end.

Definition read_backup_row (kv : KeyVal) : option (string * string * bytes) :=
  match from_slice (STuple [SIgnore; SIgnore; SStr; SStr]) kv.1 with
  | Ok (VTuple [_; _; VStr room_id; VStr session_id]) =>
      if is_json kv.2 then Some (string_of_bytes room_id, string_of_bytes session_id, kv.2) else None
  | _ => None
  end.
Definition get_all s user_id version : outcome BackupError (gmap string (gmap string bytes)) :=
  prefix ← must (serialize None (backup_prefix user_id version));
  Ok (foldl (λ rooms r, <[r.1.1 := <[r.1.2 := r.2]> (default ∅ (rooms !! r.1.1))]> rooms) ∅
        (omap read_backup_row (raw_stream_prefix (backupkeyid_backup s) prefix))).
Definition get_room_keys s user_id version room_id : outcome BackupError (gmap string bytes) :=
  prefix ← must (serialize None (backup_room_prefix user_id version room_id));
  let read (kv : KeyVal) :=
    match from_slice (STuple [SIgnore; SIgnore; SIgnore; SStr]) kv.1 with
    | Ok (VTuple [_; _; _; VStr session_id]) => if is_json kv.2 then Some (string_of_bytes session_id, kv.2) else None
    | _ => None
    end in
  Ok (foldl (λ keys (r : string * bytes), <[r.1 := r.2]> keys) ∅ (omap read (raw_stream_prefix (backupkeyid_backup s) prefix))).
Definition get_session_key s user_id version room_id session_id : outcome BackupError bytes :=
  r ← qry (backupkeyid_backup s) (session_key user_id version room_id session_id); raw_json r.

Definition delete_all_keys s user_id version := delete_prefixed s (backup_prefix user_id version).
Definition delete_room_keys s user_id version room_id := delete_prefixed s (backup_room_prefix user_id version room_id).
(** The key of the session, as a prefix. *)
Definition delete_room_key s user_id version room_id session_id := delete_prefixed s (session_key user_id version room_id session_id).
End backups.

Local Open Scope Z_scope.

Section props.
Context {DB : Type} `{Store DB}.
Context (is_json : bytes → bool).
Local Notation get_session_key := (get_session_key is_json).
Implicit Types (s : KeyBackups (DB := DB)) (m : DB) (u v r x : string).

(** The key of a session: four texts. *)
Definition session_bytes u v r x : bytes := pair_key u v ++ SEP :: pair_key r x.
Lemma serialize_session u v r x : serialize None (session_key u v r x) = Ok (session_bytes u v r x).
Proof. unfold session_bytes, pair_key. cbn. by rewrite <- !(assoc_L (++)). Qed.
Lemma serialize_backup_prefix u v : serialize None (backup_prefix u v) = Ok (pair_key u v ++ [SEP]).
Proof. unfold pair_key. cbn. by rewrite <- !(assoc_L (++)). Qed.
Lemma serialize_backup_room_prefix u v r :
  serialize None (backup_room_prefix u v r) = Ok (pair_key u v ++ SEP :: bytes_of_string r ++ [SEP]).
Proof. unfold pair_key. cbn. by rewrite <- !(assoc_L (++)). Qed.

Lemma app_sep (l k : bytes) : l ++ SEP :: k = (l ++ [SEP]) ++ k.
Proof. by rewrite <- (assoc_L (++)). Qed.
Lemma starts_app (l k : bytes) : starts_with (l ++ k) l.
Proof. unfold starts_with. apply take_app_length. Qed.

(** Which sessions a prefix selects: all names are compared whole. *)
Lemma session_of_backup u v r x u' v' : utf8 u → utf8 v → utf8 u' → utf8 v' →
  starts_with (session_bytes u v r x) (pair_key u' v' ++ [SEP]) ↔ u = u' ∧ v = v'.
Proof.
  intros Hu%utf8_no_sep Hv%utf8_no_sep Hu'%utf8_no_sep Hv'%utf8_no_sep. unfold session_bytes. split.
  - intros Hp%starts_with_split. unfold pair_key in Hp. rewrite <- !(assoc_L (++)) in Hp. cbn in Hp.
    apply split_at_sep in Hp as [?%bytes_of_string_inj Hp]; [|done..].
    by apply split_at_sep in Hp as [?%bytes_of_string_inj _].
  - intros [-> ->]. rewrite app_sep. apply starts_app.
Qed.
Lemma session_of_room u v r x u' v' r' : utf8 u → utf8 v → utf8 r → utf8 u' → utf8 v' → utf8 r' →
  starts_with (session_bytes u v r x) (pair_key u' v' ++ SEP :: bytes_of_string r' ++ [SEP]) ↔ u = u' ∧ v = v' ∧ r = r'.
Proof.
  intros Hu Hv Hr%utf8_no_sep Hu' Hv' Hr'%utf8_no_sep. split.
  - intros Hp. assert (u = u' ∧ v = v') as [<- <-].
    { eapply session_of_backup; [done..|]. unfold starts_with in *. rewrite app_sep in Hp.
      apply (f_equal (take (length (pair_key u' v' ++ [SEP])))) in Hp. rewrite take_take, take_app_length in Hp.
      by rewrite Nat.min_l in Hp by (rewrite !length_app; cbn; lia). }
    split; [done|]. split; [done|]. apply starts_with_split in Hp. unfold session_bytes in Hp.
    rewrite <- (assoc_L (++)) in Hp. apply (inj (pair_key u v ++.)) in Hp. injection Hp as Hp.
    unfold pair_key in Hp. rewrite <- (assoc_L (++)) in Hp. by apply split_at_sep in Hp as [?%bytes_of_string_inj _].
  - intros (-> & -> & ->). unfold session_bytes, pair_key. rewrite !(app_sep _ (bytes_of_string x)).
    rewrite app_comm_cons, !(assoc_L (++)). apply starts_app.
Qed.

Lemma qry_session s u v r x :
  get_session_key s u v r x = raw_json is_json (map_get (backupkeyid_backup s) (session_bytes u v r x)).
Proof. unfold KeyBackups.get_session_key, qry, bqry. by rewrite serialize_session. Qed.
Lemma qry_backup s u v : get_backup is_json s u v = raw_json is_json (map_get (backupid_algorithm s) (pair_key u v)).
Proof. unfold get_backup, qry, bqry, backup_key. by rewrite serialize_pair. Qed.

Lemma get_after_delete m p k :
  map_get (remove_keys m (raw_keys_prefix m p)) k = if bool_decide (starts_with k p) then None else map_get m k.
Proof.
  rewrite get_remove_keys. destruct (decide (starts_with k p)) as [Hp|Hp].
  - rewrite (bool_decide_eq_true_2 (starts_with _ _)) by done. case_bool_decide as Hk; [done|].
    destruct (map_get m k) eqn:E; [|done]. destruct Hk. apply elem_of_raw_keys. by rewrite E.
  - rewrite (bool_decide_eq_false_2 (starts_with _ _)) by done. rewrite bool_decide_eq_false_2; [done|].
    by intros [_ ?]%elem_of_raw_keys.
Qed.

(** Deleting a backup removes its algorithm and all its keys, and no other backup's:
    afterwards the backup and every session of it is not found, and another user's or
    another version's backups and sessions read as before, also when the names are prefixes
    of each other. *)
Theorem delete_backup_exact s u v :
  utf8 u → utf8 v →
  ∃ s', delete_backup s u v = Ok s'
    ∧ (∀ u' v' r x, utf8 u' → utf8 v' → get_session_key s' u' v' r x
        = if decide (u' = u ∧ v' = v) then Err BackupNotFound else get_session_key s u' v' r x)
    ∧ (∀ u' v', utf8 u' → utf8 v' → get_backup is_json s' u' v'
        = if decide (u' = u ∧ v' = v) then Err BackupNotFound else get_backup is_json s u' v').
Proof.
  intros Hu Hv. unfold delete_backup, delete_prefixed. unfold backup_key.
  rewrite serialize_pair, serialize_backup_prefix. cbn [must mbind outcome_bind].
  eexists. split; [done|]. split.
  - intros u' v' r x Hu' Hv'. rewrite !qry_session. cbn [backupkeyid_backup with_backup_keys with_version].
    rewrite get_after_delete. rewrite (bool_decide_ext _ (u' = u ∧ v' = v)) by by apply session_of_backup.
    by case_bool_decide; case_decide.
  - intros u' v' Hu' Hv'. rewrite !qry_backup. cbn [backupid_algorithm with_backup_keys with_version].
    unfold map_get, map_remove. rewrite store_get_delete. case_bool_decide as E; case_decide as E'; try done.
    + destruct E'. by apply pair_key_inj in E as [-> ->].
    + destruct E' as [-> ->]. done.
Qed.

(** Deleting the keys of a room. *)
Lemma delete_room_keys_exact s u v r :
  utf8 u → utf8 v → utf8 r →
  ∃ s', delete_room_keys s u v r = Ok s'
    ∧ ∀ u' v' r' x, utf8 u' → utf8 v' → utf8 r' → get_session_key s' u' v' r' x
        = if decide (u' = u ∧ v' = v ∧ r' = r) then Err BackupNotFound else get_session_key s u' v' r' x.
Proof.
  intros Hu Hv Hr. unfold delete_room_keys, delete_prefixed. rewrite serialize_backup_room_prefix.
  cbn [must mbind outcome_bind]. eexists. split; [done|].
  intros u' v' r' x Hu' Hv' Hr'. rewrite !qry_session. cbn [backupkeyid_backup with_backup_keys].
  rewrite get_after_delete. rewrite (bool_decide_ext _ (u' = u ∧ v' = v ∧ r' = r)) by by apply session_of_room.
  by case_bool_decide; case_decide.
Qed.

(** A key added is read back, and announced by a fresh etag. *)
Lemma add_key_read s u v r x data a :
  get_backup is_json s u v = Ok a → is_json data = true →
  ∃ s', add_key s u v r x data = Ok s' ∧ get_session_key s' u v r x = Ok data.
Proof.
  rewrite qry_backup. intros Hb Hj. unfold add_key, qry, bqry, backup_key. rewrite !serialize_pair.
  cbn [mbind outcome_bind must]. destruct (map_get (backupid_algorithm s) (pair_key u v)); [|done].
  rewrite serialize_session. cbn [mbind outcome_bind must]. eexists. split; [done|].
  rewrite qry_session. cbn [backupkeyid_backup with_backup_keys]. rewrite map_get_insert_eq. cbn. by rewrite Hj.
Qed.

(** ** The latest version *)

Definition backup_rows m : Prop := ∀ k a, map_get m k = Some a → ∃ u v, utf8 u ∧ utf8 v ∧ k = pair_key u v.
Lemma backup_rows_of m u (vs : list string) :
  utf8 u → Forall utf8 vs → Forall (λ kv : KeyVal, kv.1 ∈ pair_key u <$> vs) (store_scan m) → backup_rows m.
Proof.
  intros Hu Hvs Hf k a Hk. rewrite Forall_forall in Hf. apply store_scan_spec, Hf in Hk.
  cbn in Hk. apply list_elem_of_fmap in Hk as (v & -> & Hv). exists u, v. split; [done|]. split; [|done].
  by eapply Forall_forall in Hv.
Qed.
Lemma read_names a b : utf8 a → utf8 b →
  from_slice (STuple [SStr; SStr]) (pair_key a b) = Ok (VTuple [VStr (bytes_of_string a); VStr (bytes_of_string b)]).
Proof.
  intros Ha Hb. pose proof (tuple_read [SStr; SStr] (VStr (bytes_of_string a)) [VStr (bytes_of_string b)]
    [VStr (bytes_of_string a); VStr (bytes_of_string b)]) as Hr.
  unfold tail_bytes in Hr. cbn [fmap list_fmap concat field_bytes] in Hr. rewrite app_nil_r in Hr.
  unfold pair_key. rewrite Hr; [done|by repeat constructor|by destruct (bytes_of_string a)].
Qed.
Lemma pair_key_lt u v v' : bytes_lt (pair_key u v) (pair_key u v') ↔ name_lt v v'.
Proof.
  unfold pair_key, name_lt, bytes_lt. rewrite bytes_cmp_app_same.
  change (SEP :: bytes_of_string v) with ([SEP] ++ bytes_of_string v).
  change (SEP :: bytes_of_string v') with ([SEP] ++ bytes_of_string v'). by rewrite bytes_cmp_app_same.
Qed.

Definition last_key u : bytes := bytes_of_string u ++ SEP :: u64_be u64_max.
Lemma version_below u v : utf8 v → bytes_lt (pair_key u v) (last_key u).
Proof.
  intros Hv%utf8_no_sep. unfold pair_key, last_key, bytes_lt. rewrite bytes_cmp_app_same.
  change (SEP :: bytes_of_string v) with ([SEP] ++ bytes_of_string v).
  change (SEP :: u64_be u64_max) with ([SEP] ++ u64_be u64_max). rewrite bytes_cmp_app_same.
  replace (u64_be u64_max) with (repeat SEP 8) by (vm_compute; reflexivity).
  destruct (bytes_of_string v) as [|b l]; [done|]. apply (bytes_lt_cons b SEP l (repeat SEP 7)), below_sep. intros ->. apply Hv. by left.
Qed.

Lemma serialize_last_key u : serialize None (VTuple [VStr (bytes_of_string u); VU64 u64_max]) = Ok (last_key u).
Proof. unfold last_key. cbn [serialize]. cbn -[u64_be u64_max]. by rewrite <- (assoc_L (++)). Qed.

(** The rows of a scan downwards: everything below the last possible key, in falling order. *)
Lemma rev_versions_rows s u :
  backup_rows (backupid_algorithm s) → utf8 u →
  ∃ rows, rev_versions s u = Ok rows
    ∧ StronglySorted (λ a b, bytes_lt (pair_key b.1.1 b.1.2) (pair_key a.1.1 a.1.2)) rows
    ∧ ∀ w v a, (w, v, a) ∈ rows ↔ utf8 w ∧ utf8 v ∧ map_get (backupid_algorithm s) (pair_key w v) = Some a
                                  ∧ bytes_le (pair_key w v) (last_key u).
Proof.
  clear is_json. intros Hs Hu. unfold rev_versions. rewrite serialize_last_key. cbn [must mbind outcome_bind].
  set (m := backupid_algorithm s) in *. set (read := λ kv : KeyVal, _).
  assert (∀ w v a, utf8 w → utf8 v → read (pair_key w v, a) = Some (w, v, a)) as Hread.
  { intros w v a Hw Hv. unfold read. cbn [fst snd]. rewrite read_names by done. by rewrite !string_of_bytes_of_string. }
  assert (∀ k (b : bytes), (k, b) ∈ rev_raw_stream_from m (last_key u) ↔ bytes_le k (last_key u) ∧ map_get m k = Some b) as Hraw.
  { intros k b. unfold rev_raw_stream_from.
    by rewrite store_seek_for_prev_spec, elem_of_reverse, list_elem_of_filter, store_scan_spec. }
  assert (StronglySorted (flip key_lt) (rev_raw_stream_from m (last_key u))) as Hsort.
  { unfold rev_raw_stream_from. rewrite store_seek_for_prev_spec.
    apply (StronglySorted_reverse key_lt), StronglySorted_filter, store_scan_sorted. }
  eexists. split; [done|]. assert (∀ (l : list KeyVal), (∀ k (b : bytes), (k, b) ∈ l → map_get m k = Some b) →
    ∀ w v (a : bytes), (w, v, a) ∈ omap read l ↔ utf8 w ∧ utf8 v ∧ (pair_key w v, a) ∈ l) as Hin.
  { intros l Hl w v a. rewrite list_elem_of_omap. split.
    - intros ([k b] & Hkb & E). destruct (Hs k b (Hl _ _ Hkb)) as (w' & v' & Hw & Hv & ->).
      rewrite Hread in E by done. by injection E as -> -> ->.
    - intros (? & ? & ?). eexists. split; [done|]. by apply Hread. }
  split.
  - assert (∀ k (b : bytes), (k, b) ∈ rev_raw_stream_from m (last_key u) → map_get m k = Some b) as Hl by (by intros k b [_ ?]%Hraw).
    revert Hsort Hl. generalize (rev_raw_stream_from m (last_key u)) as l.
    induction 1 as [|[k b] l Hsl IH Hk]; intros Hl; [constructor|]. rewrite omap_cons.
    destruct (Hs k b) as (w & v & Hw & Hv & ->); [apply Hl; by left|]. rewrite Hread by done.
    constructor; [apply IH; intros; apply Hl; by right|]. apply Forall_forall. rewrite Forall_forall in Hk.
    intros [[w' v'] b'] (_ & _ & Hel)%Hin; [|intros; apply Hl; by right]. exact (Hk _ Hel).
  - intros w v a. rewrite Hin by (by intros ?? [_ ?]%Hraw). rewrite Hraw. tauto.
Qed.

(** The latest backup of a user is the one whose version is the greatest in the order
    of texts: the versions are counts, but they are written as decimal numbers and compared
    byte by byte.  Without a backup of the user, none is found, whatever others have. *)
Theorem latest_backup_greatest_text s u :
  backup_rows (backupid_algorithm s) → utf8 u →
  match get_latest_backup_version s u with
  | Ok v => has_pair (backupid_algorithm s) u v ∧ ∀ v', utf8 v' → has_pair (backupid_algorithm s) u v' → v' = v ∨ name_lt v' v
  | Err e => e = BackupNotFound ∧ ∀ v, utf8 v → ¬ has_pair (backupid_algorithm s) u v
  | Panic => False
  end.
Proof.
  clear is_json. intros Hs Hu. destruct (rev_versions_rows s u Hs Hu) as (rows & Hrows & Hsort & Hin).
  unfold get_latest_backup_version. rewrite Hrows. cbn [mbind outcome_bind].
  set (P := λ r : string * string * bytes, r.1.1 = u).
  assert (∀ v a, utf8 v → map_get (backupid_algorithm s) (pair_key u v) = Some a → (u, v, a) ∈ filter P rows) as Hmine.
  { intros v a Hv Ha. apply list_elem_of_filter. split; [done|]. apply Hin. split; [done|]. split; [done|]. split; [done|].
    apply bytes_le_lteq. left. by apply version_below. }
  rewrite (take_while_filter _ P rows Hsort).
  - pose proof (StronglySorted_filter _ P _ Hsort) as Hsf.
    destruct (filter P rows) as [|[[w v] a] l] eqn:E.
    + split; [done|]. intros v Hv [a Ha]. by apply (Hmine v a), not_elem_of_nil in Hv.
    + assert ((w, v, a) ∈ filter P rows) as [Hw (_ & Hv & Ha & _)%Hin]%list_elem_of_filter by (rewrite E; by left).
      unfold P in Hw. cbn in Hw. subst w. split; [by eexists|]. intros v' Hv' [a' Ha'].
      apply Hmine in Ha'; [|done]. inversion Hsf as [|? ? _ Hl]; subst. rewrite Forall_forall in Hl.
      apply elem_of_cons in Ha' as [[= -> ->]|Hel]; [by left|right]. by apply Hl, pair_key_lt in Hel.
  - intros [[w v] a] [[w' v'] a'] (Hw & Hv & _ & Hle)%Hin _ Hlt Hp. unfold P in *. cbn in *. subst w'.
    assert (starts_with (pair_key w v) (bytes_of_string u ++ [SEP])) as Hst.
    { apply (between_prefix _ (u64_be u64_max)).
      - apply bytes_le_lteq. left. pose proof (starts_with_above _ _ (pair_key_starts u v')) as [Hb|Hb]%bytes_le_lteq; [by etransitivity|by rewrite Hb].
      - apply bytes_le_lteq in Hle as [Hle|Hle]; [by rewrite <- app_sep|]. exfalso.
        unfold pair_key, last_key in Hle. apply split_at_sep in Hle as [_ Hle]; [|by apply utf8_no_sep..].
        apply utf8_no_sep in Hv. rewrite Hle in Hv. apply Hv. vm_compute. by left. }
    apply (starts_with_pair _ u) in Hst as (v2 & Hv2 & E); [|done|by left; eauto]. by apply pair_key_inj in E as [-> _].
Qed.
End props.

(** ** Witnesses *)

Module KeyBackupsDemo.
Abbreviation DB := (gmap bytes bytes).
Definition fresh : KeyBackups (DB := DB) := mkKeyBackups (mkGlobals ∅ 0) ∅ ∅ ∅.
Definition json (b : bytes) : bool := true.
Definition created (n : nat) : KeyBackups (DB := DB) :=
  Nat.iter n (λ s, match create_backup s "@u:s" [x01] with Ok (_, s) => s | _ => s end) fresh.
Definition keys : KeyBackups (DB := DB) :=
  match (s ← add_key (created 6) "@u:s" "1" "!r" "x" [x02]; add_key s "@u:s" "11" "!r" "x" [x03]) with Ok s => s | _ => fresh end.

Definition versions : list string := ["1"; "3"; "5"; "7"; "9"; "11"].
Lemma created_rows : backup_rows (backupid_algorithm keys).
Proof.
  apply (backup_rows_of _ "@u:s" versions); [reflexivity|..]; apply (bool_decide_unpack _); vm_compute; exact I.
Qed.

(** The sixth version is 11, the latest is 9. *)
Lemma latest_backup_greatest_text_witness :
  get_latest_backup_version keys "@u:s" = Ok "9"%string ∧ has_pair (backupid_algorithm keys) "@u:s" "11"
  ∧ has_pair (backupid_algorithm keys) "@u:s" "9".
Proof.
  split; [vm_compute; reflexivity|]. split; [exists [x01]; vm_compute; reflexivity|].
  pose proof (latest_backup_greatest_text keys "@u:s" created_rows) as Hl.
  assert (get_latest_backup_version keys "@u:s" = Ok "9"%string) as E by (vm_compute; reflexivity).
  rewrite E in Hl. apply Hl. reflexivity.
Defined.

(** Version 1 has one key, and counts that of version 11. *)
Lemma count_backup_keys_prefix : count_backup_keys keys "@u:s" "1" = Ok 2%nat ∧ count_backup_keys keys "@u:s" "11" = Ok 1%nat.
Proof. split; vm_compute; reflexivity. Qed.

Lemma delete_backup_exact_witness :
  ∃ s', delete_backup keys "@u:s" "1" = Ok s'
    ∧ get_session_key json s' "@u:s" "11" "!r" "x" = Ok [x03] ∧ get_session_key json s' "@u:s" "1" "!r" "x" = Err BackupNotFound.
Proof.
  destruct (delete_backup_exact json keys "@u:s" "1") as (s' & Hs' & Hk & _); [reflexivity..|].
  exists s'. split; [exact Hs'|]. rewrite !Hk by reflexivity. split; vm_compute; reflexivity.
Defined.
End KeyBackupsDemo.
