(* ===== verification/AuthChain.v ===== *)
(** * Auth chains

    Models [src/service/rooms/auth_chain/] ([mod.rs], [data.rs]): the events that the auth
    events of some events lead to, as short ids, computed by a search of the timeline and
    kept in a table per event and in memory per set of events.  The events come from an
    interface, [EventSource], which the timeline store implements. *)

From S2P Require Import Prelude Bytes PduId DbMap DbSer DbScan Short Timeline Event.

Local Open Scope Z_scope.

(** ** Where events come from *)

(** What [services.timeline.get_pdu] finds, and a bound of what it can find. *)
Class EventSource (TL Content : Type) := {
  stored_pdu : TL → string → option (Pdu Content);
  known_events : TL → list string;
}.
Class EventSourceLaws (TL Content : Type) `{EventSource TL Content} : Prop := {
  stored_known tl e p : stored_pdu tl e = Some p → e ∈ known_events tl;
}.

Section timeline_source.
Context {DB Content : Type} `{Store DB} (pdu_from_slice : bytes → option (Pdu Content)) (accepted_first : bool).

#[local] Instance timeline_source : EventSource (Timeline.Data DB) Content := {
  stored_pdu d e := match get_pdu pdu_from_slice accepted_first d e with Ok p => Some p | _ => None end;
  known_events d := string_of_bytes ∘ fst <$> store_scan (eventid_pduid d) ++ store_scan (eventid_outlierpdu d);
}.

Lemma timeline_source_laws : EventSourceLaws (Timeline.Data DB) Content.
Proof.
  split. intros d e p Hp. cbn in *.
  assert (∀ m v, map_get m (bytes_of_string e) = Some v → e ∈ string_of_bytes ∘ fst <$> store_scan (m : DB)) as Hin.
  { intros m v Hv. apply list_elem_of_fmap. exists (bytes_of_string e, v).
    split; [symmetry; apply string_of_bytes_of_string|by apply store_scan_spec]. }
  rewrite fmap_app, elem_of_app. unfold get_pdu, select_ok, get_non_outlier_pdu, get_pdu_id, get_outlier_pdu, get_as in Hp.
  destruct (map_get (eventid_pduid d) (bytes_of_string e)) as [v|] eqn:E1; [left; by eapply Hin|].
  destruct (map_get (eventid_outlierpdu d) (bytes_of_string e)) as [v|] eqn:E2; [right; by eapply Hin|].
  by destruct accepted_first.
Qed.
End timeline_source.

(** ** The cache in memory *)

(** [LruCache] of the crate [lru_cache]: a map that may forget entries when one is added;
    looking an entry up only makes it the most recent one. *)
Class LruCache (C : Type) := {
  lru_get_mut : C → list Z → option (list Z) * C;
  lru_insert : C → list Z → list Z → C;
  lru_clear : C → C;
  lru_len : C → nat;
  lru_capacity : C → nat;
}.
Definition lru_peek {C} `{LruCache C} (c : C) (k : list Z) : option (list Z) := (lru_get_mut c k).1.
Class LruLaws (C : Type) `{LruCache C} : Prop := {
  lru_get_keeps c k k' : lru_peek (lru_get_mut c k).2 k' = lru_peek c k';
  lru_insert_sound c k v k' w :
    lru_peek (lru_insert c k v) k' = Some w → (k' = k ∧ w = v) ∨ lru_peek c k' = Some w;
  lru_clear_empty c k : lru_peek (lru_clear c) k = None;
}.

(** ** The service *)

Inductive AuthChainError := RequestForbidden (event_id room_id : string).

(** [BTreeSet<(u64, &EventId)>]: in increasing order. *)
Definition bucket_lt (a b : Z * string) : Prop :=
  a.1 < b.1 ∨ (a.1 = b.1 ∧ bytes_lt (bytes_of_string a.2) (bytes_of_string b.2)).
#[export] Instance bucket_lt_dec a b : Decision (bucket_lt a b).
Proof. unfold bucket_lt, bytes_lt. apply _. Defined.
Fixpoint bucket_insert (x : Z * string) (l : list (Z * string)) : list (Z * string) :=
  match l with
  | [] => [x]
  | y :: l => if decide (x = y) then y :: l else if decide (bucket_lt x y) then x :: y :: l else y :: bucket_insert x l
  end.

(** [Vec::dedup] *)
Fixpoint dedup_shorts (l : list Z) : list Z :=
  match l with
  | [] => []
  | x :: ((y :: _) as l') => if bool_decide (x = y) then dedup_shorts l' else x :: dedup_shorts l'
  | [x] => [x]
  end.
Definition sort_dedup (l : list Z) : list Z := dedup_shorts (merge_sort Z.le l).

(** [chunks_exact(8)]: what is left over is not a chunk. *)
Fixpoint chunks_exact (fuel n : nat) (b : bytes) : list bytes :=
  match fuel with
  | O => []
  | S fuel => if bool_decide (n ≤ length b)%nat then take n b :: chunks_exact fuel n (drop n b) else []
  end.

Definition NUM_BUCKETS : nat := 50.

Section auth_chain.
Context {DB : Type} `{Store DB} {C : Type} `{LruCache C} {TL Content : Type} `{EventSource TL Content}.
(** The order in which a [HashSet] lists its elements, the order in which the futures of a
    [broad_and_then] finish, and how the database layer cuts a stream of ids into batches. *)
Context (hash_order : list Z → list Z) (broad : ∀ A, list A → list A) (batches : list string → list (list string)).

Record AuthChain := mkAuthChain {
  short : Short DB;
  shorteventid_authchain : DB;
  auth_chain_cache : C;
}.
Implicit Types (a : AuthChain) (s : Short DB) (tl : TL) (room_id event_id : string).

Definition with_short a s : AuthChain := mkAuthChain s (shorteventid_authchain a) (auth_chain_cache a).
Definition with_cache a (c : C) : AuthChain := mkAuthChain (short a) (shorteventid_authchain a) c.

(** *** [data.rs] *)

Definition decode_chain (b : bytes) : list Z := u64_from_u8x8 <$> chunks_exact (length b) 8 b.
Definition encode_chain (chain : list Z) : bytes := concat (u64_be <$> chain).

Definition get_cached_eventid_authchain a (key : list Z) : AuthChain * option (list Z) :=
  let '(hit, c) := lru_get_mut (auth_chain_cache a) key in
  let a := with_cache a c in
  match hit, key with
  | Some result, _ => (a, Some result)
  | None, [k] =>
      match map_get (shorteventid_authchain a) (u64_be k) with
      | None => (a, None)
      | Some b =>
          let chain := decode_chain b in (with_cache a (lru_insert (auth_chain_cache a) [k] chain), Some chain)
      end
  | None, _ => (a, None)
  end.

Definition cache_auth_chain a (key : list Z) (auth_chain : list Z) : AuthChain :=
  let db := match key with
            | [k] => map_insert (shorteventid_authchain a) (u64_be k) (encode_chain auth_chain)
            | _ => shorteventid_authchain a
            end in
  mkAuthChain (short a) db (lru_insert (auth_chain_cache a) key auth_chain).
Definition cache_auth_chain_set a key (auth_chain : gset Z) : AuthChain :=
  cache_auth_chain a key (hash_order (elements auth_chain)).

Definition get_cache_usage a : nat * nat := (lru_len (auth_chain_cache a), lru_capacity (auth_chain_cache a)).
Definition clear_cache a : AuthChain := with_cache a (lru_clear (auth_chain_cache a)).

(** *** [mod.rs] *)

(** The auth events of one event: those found for the first time are queued. *)
Fixpoint queue_auth_events s (found : gset Z) (auth_events : list string)
    : outcome AuthChainError (Short DB * gset Z * list string) :=
  match auth_events with
  | [] => Ok (s, found, [])
  | auth_event :: auth_events =>
      match get_or_create_shorteventid s auth_event with
      | Ok (sauthevent, s) =>
          if bool_decide (sauthevent ∈ found) then queue_auth_events s found auth_events
          else
            '(s, found, todo) ← queue_auth_events s ({[sauthevent]} ∪ found) auth_events;
            Ok (s, found, auth_event :: todo)
      | _ => Panic
      end
  end.

Definition wrong_room room_id (pdu : Pdu Content) : bool :=
  match Event.room_id pdu with
  | Some claimed_room_id => bool_decide (claimed_room_id ≠ room_id)
  | None => false
  end.

Fixpoint chain_loop (fuel : nat) tl room_id s (todo : list string) (found : gset Z)
    : Short DB * outcome AuthChainError (gset Z) :=
  match todo with
  | [] => (s, Ok found)
  | event_id :: todo =>
      match fuel with
      | O => (s, Panic)
      | S fuel =>
          match stored_pdu tl event_id with
          | None => chain_loop fuel tl room_id s todo found
          | Some pdu =>
              if wrong_room room_id pdu then (s, Err (RequestForbidden event_id room_id))
              else
                match queue_auth_events s found (auth_events pdu) with
                | Ok (s, found, pushed) => chain_loop fuel tl room_id s (todo ++ pushed) found
                | _ => (s, Panic)
                end
          end
      end
  end.
Definition get_auth_chain_inner (fuel : nat) tl room_id a event_id : AuthChain * outcome AuthChainError (list Z) :=
  let '(s, r) := chain_loop fuel tl room_id (short a) [event_id] ∅ in
  (with_short a s, found ← r; Ok (hash_order (elements found))).

(** The chains of the events of a bucket, up to the first error. *)
Fixpoint event_chains (fuel : nat) tl room_id a (chunk : list (Z * string))
    : AuthChain * outcome AuthChainError (list (list Z)) :=
  match chunk with
  | [] => (a, Ok [])
  | (shortid, event_id) :: chunk =>
      let '(a, r) :=
        match get_cached_eventid_authchain a [shortid] with
        | (a, Some cached) => (a, Ok cached)
        | (a, None) =>
            match get_auth_chain_inner fuel tl room_id a event_id with
            | (a, Ok auth_chain) => (cache_auth_chain a [shortid] auth_chain, Ok auth_chain)
            | (a, Err e) => (a, Err e)
            | (a, Panic) => (a, Panic)
            end
        end in
      match r with
      | Ok chain => let '(a, rest) := event_chains fuel tl room_id a chunk in (a, rest ← rest; Ok (chain :: rest))
      | Err e => (a, Err e)
      | Panic => (a, Panic)
      end
  end.

Definition get_auth_chain_outer (fuel : nat) tl room_id a (chunk : list (Z * string))
    : AuthChain * outcome AuthChainError (list Z) :=
  let chunk_key := chunk.*1 in
  match chunk_key with
  | [] => (a, Ok [])
  | _ =>
      match get_cached_eventid_authchain a chunk_key with
      | (a, Some cached) => (a, Ok cached)
      | (a, None) =>
          match event_chains fuel tl room_id a (broad _ chunk) with
          | (a, Ok chains) =>
              let chunk_cache := sort_dedup (concat chains) in
              (cache_auth_chain a chunk_key chunk_cache, Ok chunk_cache)
          | (a, Err e) => (a, Err e)
          | (a, Panic) => (a, Panic)
          end
      end
  end.

Fixpoint bucket_chains (fuel : nat) tl room_id a (buckets : list (list (Z * string)))
    : AuthChain * outcome AuthChainError (list (list Z)) :=
  match buckets with
  | [] => (a, Ok [])
  | chunk :: buckets =>
      match get_auth_chain_outer fuel tl room_id a chunk with
      | (a, Ok chain) => let '(a, rest) := bucket_chains fuel tl room_id a buckets in (a, rest ← rest; Ok (chain :: rest))
      | (a, Err e) => (a, Err e)
      | (a, Panic) => (a, Panic)
      end
  end.

Definition fill_buckets (starting_ids : list (Z * string)) : list (list (Z * string)) :=
  foldl (λ buckets x, alter (bucket_insert x) (Z.to_nat (x.1 mod Z.of_nat NUM_BUCKETS)) buckets)
    (replicate NUM_BUCKETS []) starting_ids.

Definition get_auth_chain (fuel : nat) tl room_id a (starting_events : list string)
    : AuthChain * outcome AuthChainError (list Z) :=
  match multi_get_or_create_shorteventid (short a) (batches starting_events) with
  | Ok (shorts, s) =>
      let buckets := fill_buckets (zip shorts starting_events) in
      let '(a, r) := bucket_chains fuel tl room_id (with_short a s) (broad _ buckets) in
      (a, chains ← r; Ok (sort_dedup (concat chains)))
  | _ => (a, Panic)
  end.

Definition event_ids_iter (fuel : nat) tl room_id a (starting_events : list string)
    : AuthChain * outcome AuthChainError (list string) :=
  let '(a, r) := get_auth_chain fuel tl room_id a starting_events in
  (a, chain ← r;
      Ok (omap (λ e, match e with Ok b => Some (string_of_bytes b) | _ => None end)
            (multi_get_eventid_from_short (short a) chain))).
End auth_chain.
