(* ===== verification/AuthChainProps.v ===== *)
(** * What auth chains promise

    [get_auth_chain] computes the transitive closure of the auth events of the starting
    events, whatever was cached before, and leaves the caches correct; it always ends. *)

From S2P Require Import Prelude Bytes PduId DbMap DbSer DbScan Short ShortProps Timeline Event AuthChain.

Local Open Scope Z_scope.

(** ** Sorting and encoding *)

Lemma dedup_spec l :
  StronglySorted Z.le l → StronglySorted Z.lt (dedup_shorts l) ∧ ∀ x, x ∈ dedup_shorts l ↔ x ∈ l.
Proof.
  induction 1 as [|x l Hs [IHs IHe] Hx]; [by split; [constructor|]|].
  destruct l as [|y l]; [by split; [repeat constructor|]|]. cbn [dedup_shorts]. rewrite Forall_forall in Hx.
  case_bool_decide as E; subst.
  - split; [done|]. intros z. rewrite IHe. set_solver.
  - split; [|intros z; rewrite !elem_of_cons, IHe; set_solver]. constructor; [done|].
    apply Forall_forall. intros z Hz%IHe. assert (x ≤ y) by (apply Hx; by left).
    apply StronglySorted_inv in Hs as [_ Hy]. rewrite Forall_forall in Hy.
    apply elem_of_cons in Hz as [->|Hz]; [lia|]. apply Hy in Hz. lia.
Qed.
Lemma sort_dedup_spec l : StronglySorted Z.lt (sort_dedup l) ∧ ∀ x, x ∈ sort_dedup l ↔ x ∈ l.
Proof.
  unfold sort_dedup. destruct (dedup_spec (merge_sort Z.le l)) as [Hs He]; [apply StronglySorted_merge_sort; apply _|].
  split; [done|]. intros x. by rewrite He, merge_sort_Permutation.
Qed.

Lemma chunks_concat n (ls : list bytes) fuel :
  (0 < n)%nat → Forall (λ l, length l = n) ls → (length ls ≤ fuel)%nat → chunks_exact fuel n (concat ls) = ls.
Proof.
  intros Hn Hl. revert fuel. induction Hl as [|l ls Hl _ IH]; intros [|fuel] Hf; cbn in *; try lia; try done.
  - rewrite bool_decide_eq_false_2 by lia. done.
  - rewrite bool_decide_eq_true_2 by (rewrite length_app; lia). subst n. rewrite take_app_length, drop_app_length.
    by rewrite IH by lia.
Qed.
Lemma u64_from_u8x8_be z : is_u64 z → u64_from_u8x8 (u64_be z) = z.
Proof.
  intros Hz. pose proof (u64_from_be z Hz) as E. unfold u64_from_bytes in E.
  destruct (u8x8_from_bytes (u64_be z)) eqn:E8; [|done]. cbn in E. unfold u8x8_from_bytes in E8.
  case_bool_decide; [|done]. by injection E8 as ->; injection E.
Qed.
Lemma decode_encode_chain chain : Forall is_u64 chain → decode_chain (encode_chain chain) = chain.
Proof.
  intros Hc. unfold decode_chain, encode_chain. rewrite chunks_concat; [|lia| |].
  - rewrite <- list_fmap_compose. etransitivity; [|apply list_fmap_id].
    apply list_fmap_ext. intros i z Hz. cbn. apply u64_from_u8x8_be. by eapply Forall_lookup in Hc.
  - apply Forall_fmap, Forall_true. intros z. apply length_u64_be.
  - rewrite length_fmap. induction chain as [|z chain IH]; [done|]. rewrite fmap_cons. cbn [concat length].
    rewrite length_app, length_u64_be. apply Forall_cons in Hc as [_ Hc]. specialize (IH Hc). lia.
Qed.

(** Filling buckets loses no id. *)
Lemma elem_of_bucket_insert x y l : x ∈ bucket_insert y l ↔ x = y ∨ x ∈ l.
Proof.
  induction l as [|z l IH]; cbn; [set_solver|]. case_decide; [subst; set_solver|].
  case_decide; rewrite ?elem_of_cons, ?IH; tauto.
Qed.
Lemma elem_of_alter {A} (f : list A → list A) i (ls : list (list A)) (y x : A) :
  (∀ l, y ∈ f l ↔ y = x ∨ y ∈ l) → (i < length ls)%nat → y ∈ concat (alter f i ls) ↔ y = x ∨ y ∈ concat ls.
Proof.
  intros Hf. revert i. induction ls as [|l ls IH]; intros [|i] Hi; cbn in *; try lia.
  - rewrite !elem_of_app, Hf. tauto.
  - rewrite !elem_of_app. change (y ∈ concat (alter f i ls)) with (y ∈ concat (alter f i ls)).
    rewrite IH by lia. tauto.
Qed.
Lemma elem_of_fill_buckets ids x : x ∈ concat (fill_buckets ids) ↔ x ∈ ids.
Proof.
  unfold fill_buckets.
  assert (∀ ids buckets, length buckets = NUM_BUCKETS →
    x ∈ concat (foldl (λ buckets y, alter (bucket_insert y) (Z.to_nat (y.1 mod Z.of_nat NUM_BUCKETS)) buckets) buckets ids)
    ↔ x ∈ concat buckets ∨ x ∈ ids) as Hf.
  { clear ids. induction ids as [|y ids IH]; intros buckets Hl; [cbn; set_solver|]. cbn [foldl].
    rewrite IH by by rewrite length_alter. rewrite (elem_of_alter _ _ _ x y).
    - rewrite elem_of_cons. tauto.
    - intros l. apply elem_of_bucket_insert.
    - rewrite Hl. pose proof (Z.mod_pos_bound y.1 (Z.of_nat NUM_BUCKETS)). unfold NUM_BUCKETS in *. lia. }
  rewrite Hf by by rewrite length_replicate. change (concat (replicate NUM_BUCKETS [])) with (@nil (Z * string)). set_solver.
Qed.

(** ** Numbers of events *)

Lemma filter_length_lt {A} (P Q : A → Prop) `{∀ x, Decision (P x)} `{∀ x, Decision (Q x)} l x :
  (∀ x, Q x → P x) → x ∈ l → P x → ¬ Q x → (length (filter Q l) < length (filter P l))%nat.
Proof.
  intros HQ Hx HPx HQx. assert (∀ l, (length (filter Q l) ≤ length (filter P l))%nat) as Hle.
  { clear l Hx. induction l as [|y l IH]; [done|]. rewrite !filter_cons. repeat case_decide; cbn; [lia|naive_solver|lia|lia]. }
  induction l as [|y l IH]; [by apply not_elem_of_nil in Hx|]. rewrite !filter_cons. apply elem_of_cons in Hx as [<-|Hx].
  - rewrite decide_False, decide_True by done. cbn. specialize (Hle l). lia.
  - specialize (IH Hx). repeat case_decide; cbn; [lia|naive_solver|lia|lia].
Qed.

Section numbers.
Context {DB : Type} `{Store DB}.
(** Every event whose number is ever asked for. *)
Context (U : list string).
Implicit Types (s : Short DB) (e : string) (z : Z) (v key : list Z) (es : list string).

Definition numbered s e z : Prop := get_shorteventid s e = Ok z.
Definition unnumbered s e : Prop := match get_shorteventid s e with Ok _ => False | _ => True end.
#[export] Instance unnumbered_dec s e : Decision (unnumbered s e).
Proof. unfold unnumbered. destruct (get_shorteventid s e); apply _. Defined.

(** The counter has room for those without a number. *)
Definition spent s : Z := counter (globals s) + Z.of_nat (length (filter (unnumbered s) U)).
Definition room_left s : Prop := spent s ≤ u64_max.

Record evolves s s' : Prop := {
  ev_wf : short_wf s → short_wf s';
  ev_spent : spent s' ≤ spent s;
  ev_numbers e z : short_wf s → numbered s e z → numbered s' e z;
  (** only events get numbers *)
  ev_count : counter (globals s) ≤ counter (globals s');
  ev_grows n : grows (table_of s n) (table_of s' n);
  ev_others n : ¬ same_kind (NEvent EmptyString) n → table_of s' n = table_of s n;
}.
#[export] Instance evolves_preorder : PreOrder evolves.
Proof.
  split; [intros s; split; by try intros ???|]. intros s1 s2 s3 [W1 R1 N1 C1 G1 O1] [W2 R2 N2 C2 G2 O2]. split; [by auto|lia| |lia| |].
  - intros e z Hw Hn. apply N2; [by apply W1|]. by apply N1.
  - intros n k v Hk. by apply G2, G1.
  - intros n Hn. by rewrite O2, O1.
Qed.

Lemma ev_room s s' : evolves s s' → room_left s → room_left s'.
Proof. intros He. pose proof (ev_spent _ _ He). unfold room_left. lia. Qed.

Lemma numbered_inj s e e' z : short_wf s → utf8 e → utf8 e' → numbered s e z → numbered s e' z → e = e'.
Proof.
  intros Hw He He' Hz Hz'. enough (NEvent e = NEvent e') as [=] by done.
  by eapply (number_inj s (NEvent e) (NEvent e') z).
Qed.
Lemma numbered_u64 s e z : short_wf s → numbered s e z → is_u64 z.
Proof. intros Hw Hz. by destruct (number_bounds s (NEvent e) z Hw Hz). Qed.

Lemma assign_event s e :
  short_wf s → room_left s → e ∈ U →
  ∃ z s', get_or_create_shorteventid s e = Ok (z, s') ∧ numbered s' e z ∧ evolves s s'.
Proof.
  intros Hw Hr He. unfold get_or_create_shorteventid at 1.
  assert ((∃ z, numbered s e z) ∨ unnumbered s e) as [[z Hz]|Hz].
  { unfold numbered, unnumbered. destruct (get_shorteventid s e); eauto. }
  { unfold numbered in Hz. rewrite Hz. by exists z, s. }
  assert (counter (globals s) < u64_max) as Hc.
  { unfold room_left, spent in Hr. assert (0 < length (filter (unnumbered s) U))%nat; [|lia].
    destruct (filter (unnumbered s) U) eqn:E; [|cbn; lia]. assert (e ∈ filter (unnumbered s) U) as Hin
      by by apply list_elem_of_filter. rewrite E in Hin. by apply not_elem_of_nil in Hin. }
  destruct (short_id_assigned_aux s (NEvent e) Hw Hc) as (z & s' & Ha & Hw' & Hz' & Hcnt & Hg & Ho).
  cbn [assign] in Ha. unfold get_or_create_shorteventid in Ha.
  exists z, s'. split; [exact Ha|]. split; [done|].
  assert (∀ e' z', numbered s e' z' → numbered s' e' z') as Hmono.
  { intros e' z'. by apply (number_grows s s' (NEvent e')). }
  split; [done| |by intros; apply Hmono|lia|done|done]. unfold spent.
  assert (length (filter (unnumbered s') U) < length (filter (unnumbered s) U))%nat; [|lia].
  apply (filter_length_lt _ _ U e); [|done|done|].
  - intros e'. unfold unnumbered. destruct (get_shorteventid s e') as [z'| |] eqn:E; [|done..].
    by rewrite (Hmono e' z' E).
  - unfold unnumbered. unfold numbered in Hz'. change (number s' (NEvent e)) with (get_shorteventid s' e) in Hz'. rewrite Hz'. by intros [].
Qed.

(** *** Batches *)

Definition shorts_of s es key : Prop := Forall2 (λ e z, utf8 e ∧ numbered s e z) es key.
Lemma shorts_of_evolves s s' es key : evolves s s' → short_wf s → shorts_of s es key → shorts_of s' es key.
Proof.
  intros He Hw Hs. eapply Forall2_impl; [exact Hs|]. intros e z [? ?]. split; [done|]. by apply (ev_numbers s).
Qed.
Lemma shorts_of_inj s es es' key : short_wf s → shorts_of s es key → shorts_of s es' key → es = es'.
Proof.
  intros Hw Hs. revert es'. induction Hs as [|e z es key [? ?] _ IH]; intros es' Hs'.
  { by inversion Hs'. }
  apply Forall2_cons_inv_r in Hs' as (e' & es2 & [? ?] & Hs' & ->). f_equal; [by eapply numbered_inj|by apply IH].
Qed.

Lemma lookup_number s e :
  short_wf s → match map_get (eventid_shorteventid s) (bytes_of_string e) with
               | Some b => ∃ z, u64_from_u8 b = Ok z ∧ numbered s e z
               | None => unnumbered s e
               end.
Proof.
  intros Hw. destruct (map_get _ _) as [b|] eqn:E.
  - destruct (wf_events s Hw _ _ E) as (z & -> & Hz). pose proof (wf_counter s Hw) as Hc.
    assert (is_u64 z) by (unfold is_u64 in *; lia). exists z. unfold u64_from_u8. rewrite u64_from_be by done.
    split; [done|]. unfold numbered, get_shorteventid. rewrite E. by apply deserialized_u64_be.
  - unfold unnumbered, get_shorteventid. by rewrite E.
Qed.
Lemma create_event s e :
  short_wf s → room_left s → e ∈ U → unnumbered s e →
  ∃ z s', create_shorteventid s e = Ok (z, s') ∧ numbered s' e z ∧ evolves s s'
    ∧ ∀ e', e' ≠ e → map_get (eventid_shorteventid s') (bytes_of_string e') = map_get (eventid_shorteventid s) (bytes_of_string e').
Proof.
  intros Hw Hr He Hn. destruct (assign_event s e Hw Hr He) as (z & s' & Ha & Hz & Hev). exists z, s'.
  unfold get_or_create_shorteventid in Ha. unfold unnumbered in Hn.
  assert (create_shorteventid s e = Ok (z, s')) as Hc by by destruct (get_shorteventid s e).
  split; [done|]. split; [done|]. split; [done|]. intros e' Hne. unfold create_shorteventid in Hc.
  destruct (next_count (globals s)). rewrite raw_aput_u64, aput_raw_u64 in Hc. injection Hc as _ <-. cbn.
  apply map_get_insert_ne. by intros ->%bytes_of_string_inj.
Qed.

Lemma create_missing_spec s es :
  short_wf s → room_left s → NoDup es → Forall utf8 es → Forall (.∈ U) es →
  ∃ key s', create_missing s ((λ e, (map_get (eventid_shorteventid s) (bytes_of_string e), e)) <$> es) = Ok (key, s')
    ∧ shorts_of s' es key ∧ evolves s s'.
Proof.
  intros Hw Hr Hnd Hu HU.
  assert (∀ l s, short_wf s → room_left s → NoDup es → Forall utf8 es → Forall (.∈ U) es →
    (∀ e, e ∈ es → map_get l (bytes_of_string e) = map_get (eventid_shorteventid s) (bytes_of_string e)) →
    ∃ key s', create_missing s ((λ e, (map_get l (bytes_of_string e), e)) <$> es) = Ok (key, s')
    ∧ shorts_of s' es key ∧ evolves s s') as Hgen; [|by apply Hgen].
  clear. induction es as [|e es IH]; intros l s Hw Hr Hnd Hu HU Hl; [exists [], s; by split_and!; [done|constructor|]|].
  apply NoDup_cons in Hnd as [He Hnd]. apply Forall_cons in Hu as [Hue Hu]. apply Forall_cons in HU as [HUe HU].
  rewrite fmap_cons. cbn [create_missing]. rewrite (Hl e) by by left. pose proof (lookup_number s e Hw) as Hlk.
  destruct (map_get (eventid_shorteventid s) (bytes_of_string e)) as [b|] eqn:E.
  - destruct Hlk as (z & Hb & Hz). rewrite Hb. cbn [must mbind outcome_bind].
    destruct (IH l s) as (key & s' & -> & Hk & Hev); [done..|intros; apply Hl; by right|].
    exists (z :: key), s'. split; [done|]. split; [|done]. constructor; [|done]. split; [done|]. by apply (ev_numbers s).
  - destruct (create_event s e) as (z & s1 & -> & Hz & Hev1 & Ho); [done..|]. cbn [mbind outcome_bind].
    destruct (IH l s1) as (key & s' & -> & Hk & Hev); [by apply (ev_wf s)|by apply (ev_room s)|done..| |].
    { intros e' He'. rewrite Ho by (by intros ->). apply Hl. by right. }
    exists (z :: key), s'. split; [done|]. split; [|by etransitivity].
    constructor; [|done]. split; [done|]. apply (ev_numbers s1); [done|by apply (ev_wf s)|done].
Qed.

Lemma multi_get_or_create_spec s batches :
  short_wf s → room_left s → NoDup (concat batches) → Forall utf8 (concat batches) → Forall (.∈ U) (concat batches) →
  ∃ key s', multi_get_or_create_shorteventid s batches = Ok (key, s') ∧ shorts_of s' (concat batches) key ∧ evolves s s'.
Proof.
  revert s. induction batches as [|b batches IH]; intros s Hw Hr Hnd Hu HU; [exists [], s; by split_and!; [done|constructor|]|].
  cbn in *. apply NoDup_app in Hnd as (Hnb & _ & Hnd). apply Forall_app in Hu as [Hub Hu]. apply Forall_app in HU as [HUb HU].
  destruct (create_missing_spec s b) as (key & s1 & -> & Hk & Hev1); [done..|]. cbn [mbind outcome_bind].
  destruct (IH s1) as (key' & s' & -> & Hk' & Hev); [by apply (ev_wf s)|by apply (ev_room s)|done..|]. cbn [mbind outcome_bind].
  exists (key ++ key'), s'. split; [done|]. split; [|by etransitivity].
  apply Forall2_app; [|done]. apply (shorts_of_evolves s1); [done|by apply (ev_wf s)|done].
Qed.
End numbers.

Lemma tc_last_edge {A} (R : relation A) x y : tc R x y → ∃ z, R z y.
Proof. induction 1 as [x y|x y z ? _ IH]; [by exists x|done]. Qed.
Lemma size_list_to_set_le (l : list string) : (size (list_to_set l : gset string) ≤ length l)%nat.
Proof.
  induction l as [|x l IH]; [done|]. rewrite list_to_set_cons. destruct (decide (x ∈ (list_to_set l : gset string))).
  - replace ({[x]} ∪ list_to_set l : gset string) with (list_to_set l : gset string) by set_solver. cbn. lia.
  - rewrite size_union by set_solver. rewrite size_singleton. cbn. lia.
Qed.

(** ** The search *)

Section search.
Context {DB : Type} `{Store DB} {C : Type} `{LruCache C} `{!LruLaws C} {TL Content : Type} `{EventSource TL Content}
        `{!EventSourceLaws TL Content}.
Context (hash_order : list Z → list Z) (broad : ∀ A, list A → list A) (batches : list string → list (list string)).
Context (hash_order_perm : ∀ l, hash_order l ≡ₚ l) (broad_perm : ∀ A l, broad A l ≡ₚ l)
        (batches_concat : ∀ l, concat (batches l) = l).
Context (tl : TL).
Implicit Types (s : Short DB) (e : string) (z : Z) (v key : list Z) (es : list string) (F : gset string)
               (a : AuthChain (DB := DB) (C := C)).

(** The auth events of a stored event, and all that can be found. *)
Definition auth_edge e e' : Prop := ∃ p : Pdu Content, stored_pdu tl e = Some p ∧ e' ∈ auth_events p.
Definition all_auth_events : list string :=
  concat ((λ e, match stored_pdu tl e with Some p => auth_events (p : Pdu Content) | None => [] end) <$> known_events tl).
Lemma auth_edge_known e e' : auth_edge e e' → e' ∈ all_auth_events.
Proof.
  intros (p & Hp & He). pose proof (stored_known tl e p Hp) as Hk. unfold all_auth_events.
  apply elem_of_concat. exists (auth_events p). split; [done|]. apply list_elem_of_fmap. exists e. by rewrite Hp.
Qed.

Context (starts : list string).
Context (names_utf8 : Forall utf8 (starts ++ all_auth_events)).
Context (universe : list string) (in_universe : ∀ e, e ∈ starts ++ all_auth_events → e ∈ universe).
Local Notation evolves := (evolves universe).
Local Notation room_left := (room_left universe).

(** The events [es] lead to. *)
Definition led_to es e' : Prop := ∃ e, e ∈ es ∧ tc auth_edge e e'.
(** [v] has the numbers of the events of [P]. *)
Definition chain_for s (P : string → Prop) v : Prop :=
  (∀ e, P e → utf8 e ∧ ∃ z, numbered s e z) ∧ ∀ z, z ∈ v ↔ ∃ e, P e ∧ numbered s e z.

Lemma chain_for_evolves s s' P v : evolves s s' → short_wf s → chain_for s P v → chain_for s' P v.
Proof.
  intros Hev Hw [Hn Hv]. split.
  - intros e [He (z & Hz)]%Hn. split; [done|]. exists z. by apply (ev_numbers universe s).
  - intros z. rewrite Hv. split; intros (e & HP & Hz); exists e; (split; [done|]); [by apply (ev_numbers universe s)|].
    apply Hn in HP as [_ (z' & Hz')]. pose proof (ev_numbers universe s s' Hev e z' Hw Hz') as E.
    unfold numbered in *. congruence.
Qed.
Lemma chain_for_ext s P Q v v' : (∀ e, P e ↔ Q e) → (∀ z, z ∈ v ↔ z ∈ v') → chain_for s P v → chain_for s Q v'.
Proof.
  intros HPQ Hvv [Hn Hv]. split; [intros e ?%HPQ; by apply Hn|]. intros z. rewrite <- Hvv, Hv.
  split; intros (e & ?%HPQ & ?); eauto.
Qed.
Lemma chain_for_app s P Q v v' : chain_for s P v → chain_for s Q v' → chain_for s (λ e, P e ∨ Q e) (v ++ v').
Proof.
  intros [Hn Hv] [Hn' Hv']. split; [intros e [?|?]; eauto|]. intros z. rewrite elem_of_app, Hv, Hv'. naive_solver.
Qed.
Lemma chain_for_u64 s P v : short_wf s → chain_for s P v → Forall is_u64 v.
Proof. intros Hw [_ Hv]. apply Forall_forall. intros z (e & _ & Hz)%Hv. by eapply numbered_u64. Qed.

(** The numbers of the events found so far. *)
Definition found_is s (found : gset Z) F : Prop := chain_for s (.∈ F) (elements found).

Lemma queue_auth_events_spec s found F es :
  short_wf s → room_left s → found_is s found F → (∀ e, e ∈ es → e ∈ all_auth_events) →
  ∃ s' found' pushed, queue_auth_events s found es = Ok (s', found', pushed)
    ∧ evolves s s' ∧ found_is s' found' (F ∪ list_to_set es)
    ∧ NoDup pushed ∧ ∀ e, e ∈ pushed ↔ e ∈ es ∧ e ∉ F.
Proof.
  revert s found F. induction es as [|e es IH]; intros s found F Hw Hr Hf Hes; cbn [queue_auth_events].
  { exists s, found, []. split_and!; [done..| |constructor|set_solver].
    by rewrite list_to_set_nil, (right_id_L ∅ (∪)). }
  assert (e ∈ universe) as HeU by (apply in_universe, elem_of_app; right; apply Hes; by left).
  assert (utf8 e) as Heu.
  { apply (proj1 (Forall_forall _ _) names_utf8). apply elem_of_app; right; apply Hes; by left. }
  destruct (assign_event universe s e Hw Hr HeU) as (z & s1 & -> & Hz & Hev1).
  assert (short_wf s1) as Hw1 by by apply (ev_wf universe s). assert (room_left s1) as Hr1 by by apply (ev_room universe s).
  assert (found_is s1 found F) as Hf1 by (by apply (chain_for_evolves s)).
  assert (z ∈ found ↔ e ∈ F) as Hin.
  { destruct Hf1 as [Hn Hv]. rewrite <- elem_of_elements, Hv. split; [|by eauto].
    intros (e' & HF & Hz'). destruct (Hn e' HF) as [Hu' _]. by rewrite (numbered_inj s1 e e' z). }
  case_bool_decide as Hfd.
  - destruct (IH s1 found F) as (s' & found' & pushed & -> & Hev & Hf' & Hnd & Hp); [done..|set_solver|].
    apply Hin in Hfd. exists s', found', pushed. split_and!; [done|by etransitivity| |done|set_solver].
    by replace (F ∪ list_to_set (e :: es)) with (F ∪ list_to_set es) by set_solver.
  - assert (e ∉ F) as HeF by by rewrite <- Hin.
    destruct (IH s1 ({[z]} ∪ found) ({[e]} ∪ F)) as (s' & found' & pushed & -> & Hev & Hf' & Hnd & Hp); [done..| |set_solver|].
    { destruct Hf1 as [Hn Hv]. split.
      - intros e' [->%elem_of_singleton|?]%elem_of_union; [split; [done|by exists z]|by apply Hn].
      - intros z'. rewrite elem_of_elements, elem_of_union, elem_of_singleton, <- elem_of_elements, Hv. split.
        + intros [->|(e' & ? & ?)]; [exists e|exists e']; set_solver.
        + intros (e' & [->%elem_of_singleton|?]%elem_of_union & Hz'); [left|right; eauto].
          unfold numbered in *. congruence. }
    exists s', found', (e :: pushed). split_and!; [done|by etransitivity| | |].
    + by replace (F ∪ list_to_set (e :: es)) with ({[e]} ∪ F ∪ list_to_set es) by set_solver.
    + constructor; [|done]. rewrite Hp. set_solver.
    + intros e'. rewrite elem_of_cons, Hp. destruct (decide (e' = e)); set_solver.
Qed.

(** Events met and not queued have their auth events among those met. *)
Definition searched e0 F (todo : list string) : Prop :=
  (∀ e, e ∈ F → tc auth_edge e0 e) ∧ (∀ e, e ∈ todo → e = e0 ∨ e ∈ F)
  ∧ ∀ e e', e = e0 ∨ e ∈ F → e ∉ todo → auth_edge e e' → e' ∈ F.
Definition misplaced (room_id : string) e : Prop :=
  ∃ p : Pdu Content, stored_pdu tl e = Some p ∧ wrong_room room_id p = true.

Lemma searched_done e0 F e : searched e0 F [] → e ∈ F ↔ tc auth_edge e0 e.
Proof.
  intros (S1 & _ & S3). split; [apply S1|].
  assert (∀ x, tc auth_edge x e → x = e0 ∨ x ∈ F → e ∈ F) as Hc; [|intros Ht; by apply (Hc e0); [|left]].
  induction 1 as [x y Hxy|x y y' Hxy _ IH]; intros Hx.
  - by apply (S3 x); [|apply not_elem_of_nil|].
  - apply IH. right. by apply (S3 x); [|apply not_elem_of_nil|].
Qed.

Lemma chain_loop_spec room_id e0 fuel s todo found F :
  short_wf s → room_left s → found_is s found F → searched e0 F todo →
  (length todo + length all_auth_events ≤ fuel + size F)%nat →
  let '(s', r) := chain_loop fuel tl room_id s todo found in
  evolves s s' ∧ match r with
                 | Ok found' => ∃ F', found_is s' found' F' ∧ (∀ e, e ∈ F' ↔ tc auth_edge e0 e)
                 | Err _ => ∃ e, rtc auth_edge e0 e ∧ misplaced room_id e
                 | Panic => False
                 end.
Proof.
  revert s todo found F. induction fuel as [|fuel IH]; intros s todo found F Hw Hr Hf (S1 & S2 & S3) Hfuel.
  { assert (size F ≤ length all_auth_events)%nat as Hsz.
    { transitivity (size (list_to_set all_auth_events : gset string)); [apply subseteq_size|].
      - intros e (x & Hx)%S1%tc_last_edge. apply elem_of_list_to_set. by eapply auth_edge_known.
      - apply size_list_to_set_le. }
    destruct todo; [|cbn in Hfuel; lia]. cbn. split; [done|]. exists F. split; [done|]. intros e. by apply searched_done. }
  destruct todo as [|e todo]; cbn [chain_loop].
  { split; [done|]. exists F. split; [done|]. intros e. by apply searched_done. }
  assert (rtc auth_edge e0 e) as Hreach.
  { destruct (S2 e) as [->|He]; [by left|done|]. by apply tc_rtc, S1. }
  destruct (stored_pdu tl e) as [p|] eqn:Hp.
  - destruct (wrong_room room_id p) eqn:Hwr; [split; [done|]; exists e; split; [done|by exists p]|].
    destruct (queue_auth_events_spec s found F (auth_events p)) as (s1 & found1 & pushed & -> & Hev & Hf1 & Hnd & Hpu); [done..| |].
    { intros e' He'. eapply auth_edge_known. by exists p. }
    pose proof (IH s1 (todo ++ pushed) found1 (F ∪ list_to_set (auth_events p))) as Hrec.
    destruct (chain_loop fuel tl room_id s1 (todo ++ pushed) found1) as [s' r]. destruct Hrec as [Hev' Hres];
      [by apply (ev_wf universe s)|by apply (ev_room universe s)|done| | |split; [by etransitivity|exact Hres]].
    + split_and!.
      * intros e' [?|He'%elem_of_list_to_set]%elem_of_union; [by apply S1|]. eapply tc_rtc_l; [exact Hreach|].
        apply tc_once. by exists p.
      * intros e' [He'|[He' _]%Hpu]%elem_of_app; [|set_solver]. destruct (S2 e'); [by right|by left|set_solver].
      * intros e1 e2 He1 Hn1 Hed. rewrite elem_of_app, Hpu in Hn1. destruct (decide (e1 = e)) as [->|Hne].
        { destruct Hed as (p' & Hp' & He2). rewrite Hp in Hp'. injection Hp' as <-. set_solver. }
        apply elem_of_union_l. apply (S3 e1); [|set_solver|done].
        destruct He1 as [?|He1]; [by left|right]. apply elem_of_union in He1 as [?|He1%elem_of_list_to_set]; [done|].
        destruct (decide (e1 ∈ F)); [done|]. tauto.
    + assert (size (F ∪ list_to_set (auth_events p)) = size F + length pushed)%nat as ->; [|rewrite length_app; cbn in Hfuel; lia].
      rewrite <- (size_list_to_set (C := gset string) pushed) by done. rewrite <- size_union by set_solver. f_equal.
      apply set_eq. intros e'. rewrite !elem_of_union, !elem_of_list_to_set, Hpu. destruct (decide (e' ∈ F)); tauto.
  - apply (IH s todo found F); [done..| |cbn in Hfuel; lia]. split_and!; [done|intros e' ?; apply S2; by right|].
    intros e1 e2 He1 Hn1 Hed. destruct (decide (e1 = e)) as [->|Hne].
    { destruct Hed as (p' & Hp' & _). congruence. }
    apply (S3 e1); [done| |done]. set_solver.
Qed.

(** ** The caches *)

Definition cached_ok s key v : Prop := ∃ es, shorts_of s es key ∧ chain_for s (led_to es) v.
Record chains_wf a : Prop := {
  cw_short : short_wf (short a);
  cw_memory key v : lru_peek (auth_chain_cache a) key = Some v → cached_ok (short a) key v;
  cw_table k b : map_get (shorteventid_authchain a) k = Some b →
    ∃ z v, is_u64 z ∧ k = u64_be z ∧ b = encode_chain v ∧ cached_ok (short a) [z] v;
}.

Lemma cached_ok_evolves s s' key v : evolves s s' → short_wf s → cached_ok s key v → cached_ok s' key v.
Proof.
  intros Hev Hw (es & Hs & Hc). exists es. split; [by apply (shorts_of_evolves universe s)|by apply (chain_for_evolves s)].
Qed.
Lemma cached_ok_for s key v es : short_wf s → cached_ok s key v → shorts_of s es key → chain_for s (led_to es) v.
Proof. intros Hw (es' & Hs' & Hc) Hs. by rewrite (shorts_of_inj s es es' key). Qed.

Lemma with_short_wf a s : chains_wf a → evolves (short a) s → chains_wf (with_short a s).
Proof.
  intros [Hw Hm Ht] Hev. split; cbn.
  - by apply (ev_wf universe (short a)).
  - intros key v Hk. apply (cached_ok_evolves (short a)); [done|done|by apply Hm].
  - intros k b (z & v & ? & ? & ? & ?)%Ht. exists z, v. split_and!; [done..|]. by apply (cached_ok_evolves (short a)).
Qed.

Lemma insert_memory_wf a key v :
  chains_wf a → cached_ok (short a) key v → chains_wf (with_cache a (lru_insert (auth_chain_cache a) key v)).
Proof.
  intros [Hw Hm Ht] Hv. split; cbn; [done| |done]. intros key' v' [[-> ->]|?]%lru_insert_sound; [done|by apply Hm].
Qed.

Lemma shorts_of_u64 s es key : short_wf s → shorts_of s es key → Forall is_u64 key.
Proof. intros Hw. induction 1 as [|e z es key [_ Hz] _ IH]; constructor; [by eapply numbered_u64|done]. Qed.

Lemma get_cached_spec a es key :
  chains_wf a → shorts_of (short a) es key →
  let '(a', r) := get_cached_eventid_authchain a key in
  chains_wf a' ∧ short a' = short a ∧ ∀ v, r = Some v → chain_for (short a) (led_to es) v.
Proof.
  intros Ha Hes. unfold get_cached_eventid_authchain.
  destruct (lru_get_mut (auth_chain_cache a) key) as [hit c] eqn:Hl.
  assert (∀ k, lru_peek c k = lru_peek (auth_chain_cache a) k) as Hc.
  { intros k. by rewrite <- (lru_get_keeps (auth_chain_cache a) key k), Hl. }
  assert (chains_wf (with_cache a c)) as Ha'.
  { destruct Ha as [Hw Hm Ht]. split; cbn; [done| |done]. intros k v. rewrite Hc. apply Hm. }
  assert (∀ v, hit = Some v → chain_for (short a) (led_to es) v) as Hhit.
  { intros v ->. eapply cached_ok_for; [apply Ha| |exact Hes]. apply (cw_memory a Ha). unfold lru_peek. by rewrite Hl. }
  destruct hit as [v|]; [by split_and!|]. destruct key as [|k [|k' key]]; [by split_and!| |by split_and!].
  cbn [with_cache shorteventid_authchain auth_chain_cache].
  destruct (map_get (shorteventid_authchain a) (u64_be k)) as [b|] eqn:Hb; [|by split_and!].
  assert (cached_ok (short a) [k] (decode_chain b)) as Hok.
  { destruct (cw_table a Ha _ _ Hb) as (z & v & Hz & Hk & -> & Hv). destruct (Hv) as (es' & Hs & Hcf).
    rewrite decode_encode_chain by by eapply chain_for_u64; [apply Ha|].
    apply u64_be_inj in Hk as ->; [done| |done]. eapply shorts_of_u64, Forall_inv in Hes; [exact Hes|apply Ha]. }
  split_and!; [by apply (insert_memory_wf (with_cache a c))|done|].
  intros v [= <-]. eapply cached_ok_for; [apply Ha|exact Hok|exact Hes].
Qed.

Lemma cache_auth_chain_wf a es key v :
  chains_wf a → shorts_of (short a) es key → chain_for (short a) (led_to es) v → chains_wf (cache_auth_chain a key v).
Proof.
  intros Ha Hes Hv. assert (cached_ok (short a) key v) as Hok by by exists es.
  destruct (insert_memory_wf a key v Ha Hok) as [Hw Hm Ht]. split; cbn in *; [done|done|].
  destruct key as [|z [|z' key]]; [done| |done]. intros k b. rewrite map_get_insert. case_decide as E; [|by apply Ht].
  intros [= <-]. exists z, v. split_and!; [|done..]. eapply shorts_of_u64, Forall_inv in Hes; [exact Hes|apply Ha].
Qed.

(** ** The chains of some events *)

(** What a part of the computation may do: keep the state well formed, and either give the
    numbers of the events of [P] or meet an event of another room behind one of [es]. *)
Definition chain_result room_id a es (P : string → Prop) (x : AuthChain * outcome AuthChainError (list Z)) : Prop :=
  chains_wf x.1 ∧ evolves (short a) (short x.1)
  ∧ match x.2 with
    | Ok v => chain_for (short x.1) P v
    | Err _ => ∃ e e', e ∈ es ∧ rtc auth_edge e e' ∧ misplaced room_id e'
    | Panic => False
    end.
Definition enough (fuel : nat) : Prop := (1 + length all_auth_events ≤ fuel)%nat.

Lemma inner_spec room_id fuel a e :
  chains_wf a → room_left (short a) → enough fuel →
  chain_result room_id a [e] (led_to [e]) (get_auth_chain_inner hash_order fuel tl room_id a e).
Proof.
  intros Ha Hr Hf. unfold get_auth_chain_inner.
  pose proof (chain_loop_spec room_id e fuel (short a) [e] ∅ ∅ (cw_short a Ha) Hr) as Hl.
  destruct (chain_loop fuel tl room_id (short a) [e] ∅) as [s r]. destruct Hl as [Hev Hres].
  { split; [set_solver|]. intros x. rewrite elements_empty. set_solver. }
  { split_and!; set_solver. }
  { unfold enough in Hf. rewrite size_empty. cbn. lia. }
  split; [by apply with_short_wf|]. split; [done|]. cbn [snd fst]. destruct r as [found|err|]; cbn; [| |done].
  - destruct Hres as (F & HF & Hreach). eapply chain_for_ext; [| |exact HF].
    + intros x. rewrite Hreach. unfold led_to. set_solver.
    + intros x. by rewrite hash_order_perm.
  - destruct Hres as (e' & ? & ?). exists e, e'. split; [by left|done].
Qed.

Lemma chain_result_ext room_id a es es' P Q x :
  (∀ e, e ∈ es → e ∈ es') → (∀ e, P e ↔ Q e) → chain_result room_id a es P x → chain_result room_id a es' Q x.
Proof.
  intros Hes HPQ (Hw & Hev & Hr). split; [done|]. split; [done|]. destruct x as [a' [v|err|]]; cbn in *; [| |done].
  - by eapply chain_for_ext.
  - destruct Hr as (e & e' & ? & ?). exists e, e'. split; [by apply Hes|done].
Qed.
Lemma chain_result_fail room_id a es es' P Q a1 err :
  (∀ e, e ∈ es → e ∈ es') → chain_result room_id a es P (a1, Err err) → chain_result room_id a es' Q (a1, Err err).
Proof.
  intros Hes (Hw & Hev & (e & e' & ? & ?)). split; [done|]. split; [done|]. exists e, e'. split; [by apply Hes|done].
Qed.

(** One part after the other. *)
Local Notation joined r := ((λ l : list (list Z), concat l) <$> r).
Lemma chain_result_app room_id a es1 es2 P1 P2 a1 v1 a2 (r2 : outcome AuthChainError (list (list Z))) :
  short_wf (short a) →
  chain_result room_id a es1 P1 (a1, Ok v1) → chain_result room_id a1 es2 P2 (a2, joined r2) →
  chain_result room_id a (es1 ++ es2) (λ e, P1 e ∨ P2 e) (a2, joined (r ← r2; Ok (v1 :: r))).
Proof.
  intros Hw (Hw1 & Hev1 & R1) (Hw2 & Hev2 & R2). split; [done|]. split; [by etransitivity|]. cbn in *.
  destruct r2 as [v2|err|]; cbn in *; [| |done].
  - apply chain_for_app; [|done]. apply (chain_for_evolves (short a1)); [done|apply Hw1|done].
  - destruct R2 as (e & e' & ? & ?). exists e, e'. split; [set_solver|done].
Qed.

Lemma room_left_result room_id a es P x : room_left (short a) → chain_result room_id a es P x → room_left (short x.1).
Proof. intros Hr (_ & Hev & _). by apply (ev_room universe (short a)). Qed.
Lemma shorts_of_result room_id a es P x es' key :
  chains_wf a → chain_result room_id a es P x → shorts_of (short a) es' key → shorts_of (short x.1) es' key.
Proof. intros Ha (_ & Hev & _). apply (shorts_of_evolves universe); [done|apply Ha]. Qed.

Lemma led_to_cons e es x : led_to [e] x ∨ led_to es x ↔ led_to (e :: es) x.
Proof. unfold led_to. set_solver. Qed.
Lemma led_to_app es es' x : led_to es x ∨ led_to es' x ↔ led_to (es ++ es') x.
Proof. unfold led_to. set_solver. Qed.

(** One event, from the cache or searched for. *)
Definition event_chain room_id fuel a (x : Z * string) : AuthChain * outcome AuthChainError (list Z) :=
  match get_cached_eventid_authchain a [x.1] with
  | (a, Some cached) => (a, Ok cached)
  | (a, None) =>
      match get_auth_chain_inner hash_order fuel tl room_id a x.2 with
      | (a, Ok auth_chain) => (cache_auth_chain a [x.1] auth_chain, Ok auth_chain)
      | (a, Err e) => (a, Err e)
      | (a, Panic) => (a, Panic)
      end
  end.
Lemma event_chain_spec room_id fuel a z e :
  chains_wf a → room_left (short a) → enough fuel → shorts_of (short a) [e] [z] →
  chain_result room_id a [e] (led_to [e]) (event_chain room_id fuel a (z, e)).
Proof.
  intros Ha Hr Hf Hs. unfold event_chain. cbn [fst snd]. pose proof (get_cached_spec a [e] [z] Ha Hs) as Hc.
  destruct (get_cached_eventid_authchain a [z]) as [a1 [v|]].
  { destruct Hc as (Ha1 & Hsh & Hv). split; [done|]. cbn. rewrite Hsh. split; [done|by apply Hv]. }
  destruct Hc as (Ha1 & Hsh & _). pose proof (inner_spec room_id fuel a1 e Ha1) as Hi. rewrite Hsh in Hi. specialize (Hi Hr Hf).
  destruct (get_auth_chain_inner hash_order fuel tl room_id a1 e) as [a2 [v|err|]]; unfold chain_result in *; rewrite Hsh in Hi; [|done..].
  destruct Hi as (Ha2 & Hev & Hv). split; [|by split].
  apply (cache_auth_chain_wf a2 [e]); [done| |done]. by apply (shorts_of_evolves universe (short a)); [|apply Ha|].
Qed.

Lemma event_chains_spec room_id fuel a chunk :
  chains_wf a → room_left (short a) → enough fuel → shorts_of (short a) chunk.*2 chunk.*1 →
  let x := event_chains hash_order fuel tl room_id a chunk in
  chain_result room_id a chunk.*2 (led_to chunk.*2) (x.1, joined x.2).
Proof.
  intros Ha Hr Hf. revert a Ha Hr. induction chunk as [|[z e] chunk IH]; intros a Ha Hr Hs.
  { split; [done|]. split; [done|]. cbn. split; [intros e (x & Hx & _); by apply not_elem_of_nil in Hx|].
    intros z. split; [by intros ?%not_elem_of_nil|]. intros (e & (x & Hx & _) & _). by apply not_elem_of_nil in Hx. }
  cbn [event_chains]. apply Forall2_cons in Hs as [Hz Hs].
  assert (shorts_of (short a) [e] [z]) as Hs1 by by repeat constructor; apply Hz.
  pose proof (event_chain_spec room_id fuel a z e Ha Hr Hf Hs1) as He. unfold event_chain in He. cbn [fst snd] in He.
  destruct (match get_cached_eventid_authchain a [z] with (_, _) => _ end) as [a1 r] eqn:Er.
  pose proof (room_left_result _ _ _ _ _ Hr He) as Hr1. pose proof (shorts_of_result _ _ _ _ _ _ _ Ha He Hs) as Hs2.
  destruct r as [v|err|]; [| |by destruct He as (_ & _ & [])].
  - specialize (IH a1 (proj1 He) Hr1 Hs2). cbn in IH. destruct (event_chains hash_order fuel tl room_id a1 chunk) as [a2 r2].
    pose proof (chain_result_app room_id a [e] chunk.*2 _ _ a1 v a2 r2 (cw_short a Ha) He IH) as Happ.
    eapply chain_result_ext; [| |exact Happ]; [done|]. intros x. apply led_to_cons.
  - eapply chain_result_fail; [|exact He]. set_solver.
Qed.

(** Ids with their events. *)
Definition id_ok s (x : Z * string) : Prop := utf8 x.2 ∧ numbered s x.2 x.1.
Lemma shorts_of_pairs s (l : list (Z * string)) : shorts_of s l.*2 l.*1 ↔ Forall (id_ok s) l.
Proof.
  unfold shorts_of. induction l as [|x l IH]; cbn; [by split; constructor|]. by rewrite Forall2_cons, Forall_cons, IH.
Qed.

Lemma outer_spec room_id fuel a chunk :
  chains_wf a → room_left (short a) → enough fuel → Forall (id_ok (short a)) chunk →
  chain_result room_id a chunk.*2 (led_to chunk.*2) (get_auth_chain_outer hash_order broad fuel tl room_id a chunk).
Proof.
  intros Ha Hr Hf Hids. unfold get_auth_chain_outer. pose proof (proj2 (shorts_of_pairs _ _) Hids) as Hs.
  destruct (chunk.*1) as [|k ks] eqn:Ek.
  { apply fmap_nil_inv in Ek as ->. split; [done|]. split; [done|]. cbn.
    split; [intros e (? & Hx & _); by apply not_elem_of_nil in Hx|].
    intros z. split; [by intros ?%not_elem_of_nil|]. intros (e & (? & Hx & _) & _). by apply not_elem_of_nil in Hx. }
  rewrite <- Ek in *. clear k ks Ek.
  pose proof (get_cached_spec a chunk.*2 chunk.*1 Ha Hs) as Hc.
  destruct (get_cached_eventid_authchain a chunk.*1) as [a1 [v|]].
  { destruct Hc as (Ha1 & Hsh & Hv). split; [done|]. cbn. rewrite Hsh. split; [done|by apply Hv]. }
  destruct Hc as (Ha1 & Hsh & _). rewrite <- Hsh in Hr, Hids. rewrite <- (broad_perm _ chunk) in Hids.
  pose proof (event_chains_spec room_id fuel a1 _ Ha1 Hr Hf (proj2 (shorts_of_pairs _ _) Hids)) as He. cbn zeta in He.
  apply (chain_result_ext _ _ _ chunk.*2 _ (led_to chunk.*2)) in He;
    [|intros e; by rewrite broad_perm|intros e; unfold led_to; by setoid_rewrite (broad_perm _ chunk)].
  destruct (event_chains hash_order fuel tl room_id a1 (broad _ chunk)) as [a2 [vs|err|]]; cbn in He; unfold chain_result in *;
    rewrite Hsh in He; [|done..].
  destruct He as (Ha2 & Hev & Hv). cbn in *. assert (chain_for (short a2) (led_to chunk.*2) (sort_dedup (concat vs))) as Hv'.
  { eapply chain_for_ext; [done| |exact Hv]. intros z. by rewrite (proj2 (sort_dedup_spec _)). }
  split; [|by split]. apply (cache_auth_chain_wf a2 chunk.*2); [done| |done].
  by apply (shorts_of_evolves universe (short a)); [|apply Ha|].
Qed.

Lemma bucket_chains_spec room_id fuel a buckets :
  chains_wf a → room_left (short a) → enough fuel → Forall (id_ok (short a)) (concat buckets) →
  let x := bucket_chains hash_order broad fuel tl room_id a buckets in
  chain_result room_id a (concat buckets).*2 (led_to (concat buckets).*2) (x.1, joined x.2).
Proof.
  intros Ha Hr Hf. revert a Ha Hr. induction buckets as [|chunk buckets IH]; intros a Ha Hr Hids.
  { split; [done|]. split; [done|]. cbn. split; [intros e (x & Hx & _); by apply not_elem_of_nil in Hx|].
    intros z. split; [by intros ?%not_elem_of_nil|]. intros (e & (x & Hx & _) & _). by apply not_elem_of_nil in Hx. }
  cbn [bucket_chains concat] in *. rewrite fmap_app. apply Forall_app in Hids as [Hc Hids].
  pose proof (outer_spec room_id fuel a chunk Ha Hr Hf Hc) as He.
  destruct (get_auth_chain_outer hash_order broad fuel tl room_id a chunk) as [a1 r].
  pose proof (room_left_result _ _ _ _ _ Hr He) as Hr1.
  assert (Forall (id_ok (short a1)) (concat buckets)) as Hids1.
  { apply shorts_of_pairs. by apply (shorts_of_result _ _ _ _ (a1, r) _ _ Ha He), shorts_of_pairs. }
  destruct r as [v|err|]; [| |by destruct He as (_ & _ & [])].
  - specialize (IH a1 (proj1 He) Hr1 Hids1). cbn zeta in IH.
    destruct (bucket_chains hash_order broad fuel tl room_id a1 buckets) as [a2 r2].
    pose proof (chain_result_app room_id a chunk.*2 _ _ _ a1 v a2 r2 (cw_short a Ha) He IH) as Happ.
    eapply chain_result_ext; [| |exact Happ]; [done|]. intros x. apply led_to_app.
  - eapply chain_result_fail; [|exact He]. set_solver.
Qed.

(** The result before it is named a claim: [get_auth_chain]. *)
Lemma get_auth_chain_result room_id fuel a :
  chains_wf a → room_left (short a) → enough fuel → NoDup starts →
  let x := get_auth_chain hash_order broad batches fuel tl room_id a starts in
  chain_result room_id a starts (led_to starts) x ∧ ∀ v, x.2 = Ok v → StronglySorted Z.lt v.
Proof.
  intros Ha Hr Hf Hnd. unfold get_auth_chain.
  destruct (multi_get_or_create_spec universe (short a) (batches starts)) as (key & s & -> & Hs & Hev);
    rewrite ?batches_concat in *; [apply Ha|done|done|by apply Forall_app in names_utf8 as []| |].
  { apply Forall_forall. intros e He. by apply in_universe, elem_of_app; left. }
  assert (length starts = length key) as Hlen by by eapply Forall2_length.
  assert (((zip key starts).*1 = key) ∧ (zip key starts).*2 = starts) as [Hz1 Hz2].
  { split; [apply fst_zip|apply snd_zip]; lia. }
  assert (Forall (id_ok s) (zip key starts)) as Hids.
  { apply shorts_of_pairs. by rewrite Hz1, Hz2. }
  assert (∀ x, x ∈ concat (broad _ (fill_buckets (zip key starts))) ↔ x ∈ zip key starts) as Hfill.
  { intros x. rewrite <- (elem_of_fill_buckets (zip key starts)). rewrite !elem_of_concat. by setoid_rewrite (broad_perm _ (fill_buckets (zip key starts))). }
  pose proof (bucket_chains_spec room_id fuel (with_short a s) (broad _ (fill_buckets (zip key starts)))) as Hb. cbn zeta in Hb.
  assert (∀ e, e ∈ (concat (broad _ (fill_buckets (zip key starts)))).*2 ↔ e ∈ starts) as Hnames.
  { intros e. rewrite <- Hz2 at 2. rewrite !list_elem_of_fmap. by setoid_rewrite Hfill. }
  assert (Forall (id_ok s) (concat (broad _ (fill_buckets (zip key starts))))) as Hids2.
  { rewrite Forall_forall in *. intros x Hx%Hfill. by apply Hids. }
  specialize (Hb (with_short_wf _ _ Ha Hev) (ev_room universe _ _ Hev Hr) Hf Hids2).
  apply (chain_result_ext _ _ _ starts _ (led_to starts)) in Hb;
    [|by intros e ?%Hnames|intros e; unfold led_to; by setoid_rewrite Hnames].
  destruct (bucket_chains _ _ _ _ _ _ _) as [a2 r]. destruct Hb as (Ha2 & Hev2 & Hres). cbn in *.
  split; [split; [done|]; split; [by etransitivity|]|].
  - destruct r as [vs|err|]; cbn in *; [|done..]. eapply chain_for_ext; [done| |exact Hres].
    intros z. by rewrite (proj2 (sort_dedup_spec _)).
  - intros v. destruct r as [vs|err|]; cbn; [|done..]. intros [= <-]. apply sort_dedup_spec.
Qed.

(** C19: the auth chain of some events is the transitive closure of the auth events of the
    events stored: the numbers, increasing, of exactly the events that a chain of auth
    events leads to, whichever of them or of sets of events were cached, as long as the
    chains cached are those of their events ([chains_wf]; what earlier computations cached
    while an event was not stored yet, or for another room, may be wrong: the examples
    [missing_event_cached] and [cached_chain_of_other_room]).  The computation ends, keeps
    the tables and caches correct, and fails only if an event it meets claims another
    room. *)
Theorem get_auth_chain_closure room_id fuel a :
  chains_wf a → room_left (short a) → enough fuel → NoDup starts →
  let '(a', r) := get_auth_chain hash_order broad batches fuel tl room_id a starts in
  chains_wf a' ∧ match r with
                 | Ok chain => StronglySorted Z.lt chain
                     ∧ ∀ z, z ∈ chain ↔ ∃ e e', e ∈ starts ∧ tc auth_edge e e' ∧ numbered (short a') e' z
                 | Err _ => ∃ e e', e ∈ starts ∧ rtc auth_edge e e' ∧ misplaced room_id e'
                 | Panic => False
                 end.
Proof.
  intros Ha Hr Hf Hnd. destruct (get_auth_chain_result room_id fuel a Ha Hr Hf Hnd) as [(Ha' & Hev & Hres) Hsort].
  destruct (get_auth_chain _ _ _ _ _ _ _ _) as [a' [v|err|]]; cbn in *; split; [done| |done..].
  split; [by apply Hsort|]. intros z. rewrite (proj2 Hres). unfold led_to. naive_solver.
Qed.

Lemma read_chain s v :
  short_wf s → (∀ z, z ∈ v → ∃ e, utf8 e ∧ numbered s e z) →
  ∃ es, omap (λ o, match o with Ok b => Some (string_of_bytes b) | _ => None end) (multi_get_eventid_from_short s v) = es
    ∧ shorts_of s es v.
Proof.
  intros Hw. induction v as [|z v IH]; intros Hv; [exists []; split; [done|constructor]|].
  destruct (Hv z) as (e & He & Hz); [by left|]. destruct IH as (es & Hes & Hs); [intros; apply Hv; by right|].
  exists (e :: es). rewrite (multi_get_event s e z v) by done. rewrite omap_cons, string_of_bytes_of_string, Hes.
  split; [done|]. by constructor.
Qed.

(** [event_ids_iter] lists every event that the auth events of the starting events lead
    to, once, and no other event; every number of the chain is translated back. *)
Theorem event_ids_iter_closure room_id fuel a :
  chains_wf a → room_left (short a) → enough fuel → NoDup starts →
  let '(a', r) := event_ids_iter hash_order broad batches fuel tl room_id a starts in
  chains_wf a' ∧ evolves (short a) (short a')
  ∧ match r with
    | Ok ids => NoDup ids ∧ ∀ e', e' ∈ ids ↔ ∃ e, e ∈ starts ∧ tc auth_edge e e'
    | Err _ => ∃ e e', e ∈ starts ∧ rtc auth_edge e e' ∧ misplaced room_id e'
    | Panic => False
    end.
Proof.
  intros Ha Hr Hf Hnd. unfold event_ids_iter.
  destruct (get_auth_chain_result room_id fuel a Ha Hr Hf Hnd) as [(Ha' & Hev & Hres) Hsort].
  destruct (get_auth_chain _ _ _ _ _ _ _ _) as [a' [v|err|]]; cbn in *; (split; [done|]); (split; [done|]); [|done..].
  destruct Hres as [Hn Hv]. destruct (read_chain (short a') v) as (ids & -> & Hs); [apply Ha'| |].
  { intros z (e & HP & Hz)%Hv. exists e. split; [by apply Hn|done]. }
  assert (NoDup v) as Hndv by (eapply sorted_NoDup; [|by apply Hsort]; intros x; lia).
  split.
  - apply NoDup_alt. intros i j e Hi Hj. destruct (Forall2_lookup_l _ _ _ _ _ Hs Hi) as (z & Hzi & _ & Hz).
    destruct (Forall2_lookup_l _ _ _ _ _ Hs Hj) as (z' & Hzj & _ & Hz').
    assert (z = z') as <- by (unfold numbered in *; congruence). by eapply NoDup_lookup.
  - intros e'. fold (led_to starts e'). split.
    + intros [i Hi]%list_elem_of_lookup. destruct (Forall2_lookup_l _ _ _ _ _ Hs Hi) as (z & Hzi & Hu & Hz).
      apply list_elem_of_lookup_2, Hv in Hzi as (e & HP & Hz2). destruct (Hn e HP) as [Hue _].
      by rewrite (numbered_inj (short a') e' e z (cw_short a' Ha')).
    + intros HP. destruct (Hn e' HP) as [Hu (z & Hz)]. assert (z ∈ v) as Hzv by (apply Hv; eauto).
      apply list_elem_of_lookup in Hzv as [i Hi]. destruct (Forall2_lookup_r _ _ _ _ _ Hs Hi) as (e & Hie & Hue & Hze).
      rewrite (numbered_inj (short a') e' e z (cw_short a' Ha')) by done. by eapply list_elem_of_lookup_2.
Qed.
End search.

(** ** Instances *)

(** The cache as a list, most recent first. *)
Record LruList := mkLruList { entries : list (list Z * list Z); capacity : nat }.
Fixpoint entry_of (k : list Z) (l : list (list Z * list Z)) : option (list Z) :=
  match l with
  | [] => None
  | (k', v) :: l => if decide (k = k') then Some v else entry_of k l
  end.
Definition to_front (k v : list Z) (l : list (list Z * list Z)) : list (list Z * list Z) :=
  (k, v) :: filter (λ e : list Z * list Z, e.1 ≠ k) l.
#[export] Instance lru_list : LruCache LruList := {
  lru_get_mut c k := match entry_of k (entries c) with
                     | Some v => (Some v, mkLruList (to_front k v (entries c)) (capacity c))
                     | None => (None, c)
                     end;
  lru_insert c k v := mkLruList (take (capacity c) (to_front k v (entries c))) (capacity c);
  lru_clear c := mkLruList [] (capacity c);
  lru_len c := length (entries c);
  lru_capacity c := capacity c;
}.

Lemma entry_to_front k v l k' : entry_of k' (to_front k v l) = if decide (k' = k) then Some v else entry_of k' l.
Proof.
  unfold to_front. cbn. case_decide as E; [done|]. induction l as [|[k2 v2] l IH]; [done|].
  rewrite filter_cons. cbn. case_decide as E2; cbn; [by rewrite IH|]. subst k2. by rewrite decide_False.
Qed.
Lemma entry_take k l n v : entry_of k (take n l) = Some v → entry_of k l = Some v.
Proof. revert n. induction l as [|[k' v'] l IH]; intros [|n]; cbn; try done. case_decide; [done|apply IH]. Qed.
Lemma lru_peek_list (c : LruList) k : lru_peek c k = entry_of k (entries c).
Proof. unfold lru_peek. cbn. by destruct (entry_of k (entries c)). Qed.
#[export] Instance lru_list_laws : LruLaws LruList.
Proof.
  split.
  - intros c k k'. rewrite !lru_peek_list. cbn. destruct (entry_of k (entries c)) as [v|] eqn:E; [|done].
    change (entry_of k' (to_front k v (entries c)) = entry_of k' (entries c)).
    rewrite entry_to_front. by case_decide; subst.
  - intros c k v k' w. rewrite !lru_peek_list. cbn [lru_insert lru_list entries]. intros Hw%entry_take. rewrite entry_to_front in Hw.
    case_decide; [left; naive_solver|by right].
  - intros c k. by rewrite lru_peek_list.
Qed.

Module AuthChainDemo.
Abbreviation DB := (gmap bytes bytes).
(** Events as a map. *)
#[export] Instance map_source : EventSource (gmap string (Pdu unit)) unit := {
  stored_pdu tl e := tl !! e; known_events tl := (map_to_list tl).*1 }.
#[export] Instance map_source_laws : EventSourceLaws (gmap string (Pdu unit)) unit.
Proof. split. intros tl e p Hp. apply list_elem_of_fmap. exists (e, p). split; [done|by apply elem_of_map_to_list]. Qed.

Definition event (id room : string) (auth : list string) : Pdu unit :=
  mkPdu id (Some room) "@a:s" None 0 RoomMember tt None [] 0 auth None None (mkEventHash EmptyString) None.
Definition timeline : gmap string (Pdu unit) :=
  <["$c" := event "$c" "!r" []]> (<["$j" := event "$j" "!r" ["$c"]]> (<["$p" := event "$p" "!r" ["$c"; "$j"]]>
    (<["$m" := event "$m" "!r" ["$p"; "$j"]]> (<["$x" := event "$x" "!r" ["$p"]]> ∅)))).
Definition a0 : AuthChain (DB := DB) (C := LruList) := mkAuthChain fresh_short ∅ (mkLruList [] 2).
Definition one_batch (l : list string) : list (list string) := [l].
Definition run (tl : gmap string (Pdu unit)) (a : AuthChain (DB := DB) (C := LruList)) (es : list string) :=
  event_ids_iter id (λ _, id) one_batch 20 tl "!r" a es.

Lemma a0_wf : chains_wf (TL := gmap string (Pdu unit)) (Content := unit) timeline a0.
Proof. split; [apply fresh_short_wf|intros key v; by rewrite lru_peek_list|intros k b Hk; cbn in Hk; by rewrite lookup_empty in Hk]. Qed.
Ltac decided := apply (bool_decide_unpack _); vm_compute; exact I.

(** A chain computed, and the same one from the cache. *)
Lemma get_auth_chain_closure_witness :
  let '(a1, r) := get_auth_chain id (λ _, id) one_batch 20 timeline "!r" a0 ["$m"] in
  let '(a2, r') := get_auth_chain id (λ _, id) one_batch 20 timeline "!r" a1 ["$m"] in
  r = Ok [2; 3; 4]%Z ∧ r' = Ok [2; 3; 4]%Z ∧ chains_wf (Content := unit) timeline a1.
Proof.
  pose proof (get_auth_chain_closure (Content := unit) id (λ _, id) one_batch (λ l, reflexivity l) (λ _ l, reflexivity l)
    (λ l, app_nil_r l) timeline ["$m"] ltac:(decided) (["$m"] ++ all_auth_events timeline) (λ _ He, He) "!r" 20 a0 a0_wf ltac:(vm_compute; discriminate) ltac:(vm_compute; lia) ltac:(decided)) as Hc.
  destruct (get_auth_chain id (λ _, id) one_batch 20 timeline "!r" a0 ["$m"]) as [a1 r] eqn:E1.
  destruct (get_auth_chain id (λ _, id) one_batch 20 timeline "!r" a1 ["$m"]) as [a2 r'] eqn:E2.
  destruct Hc as [Hw _]. split; [|split; [|exact Hw]].
  - change r with (a1, r).2. rewrite <- E1. vm_compute. reflexivity.
  - change r' with (a2, r').2. rewrite <- E2. change a1 with (a1, r).1. rewrite <- E1. vm_compute. reflexivity.
Defined.

Lemma event_ids_iter_closure_witness :
  (run timeline a0 ["$m"; "$j"]).2 = Ok ["$j"; "$p"; "$c"]
  ∧ ∀ e', e' ∈ ["$j"; "$p"; "$c"] ↔ ∃ e, e ∈ ["$m"; "$j"] ∧ tc (auth_edge (Content := unit) timeline) e e'.
Proof.
  assert ((run timeline a0 ["$m"; "$j"]).2 = Ok ["$j"; "$p"; "$c"]) as E by (vm_compute; reflexivity).
  split; [exact E|]. unfold run in E.
  pose proof (event_ids_iter_closure (Content := unit) id (λ _, id) one_batch (λ l, reflexivity l) (λ _ l, reflexivity l)
    (λ l, app_nil_r l) timeline ["$m"; "$j"] ltac:(decided) (["$m"; "$j"] ++ all_auth_events timeline) (λ _ He, He) "!r" 20 a0 a0_wf ltac:(vm_compute; discriminate) ltac:(vm_compute; lia) ltac:(decided)) as Hc.
  destruct (event_ids_iter _ _ _ _ _ _ _ _) as [a' r]. cbn [snd] in E. subst r. apply Hc.
Defined.

(** A chain computed while an event was missing stays in the cache when the event arrives. *)
Lemma missing_event_cached :
  let '(a1, r) := run (delete "$p" timeline) a0 ["$x"] in
  let '(_, r') := run timeline a1 ["$x"] in
  r = Ok ["$p"] ∧ r' = Ok ["$p"] ∧ (run timeline a0 ["$x"]).2 = Ok ["$p"; "$c"; "$j"].
Proof. vm_compute. split_and!; reflexivity. Qed.

(** The room is checked by the search only: what one room's search cached, another gets. *)
Lemma cached_chain_of_other_room :
  let '(a1, _) := run timeline a0 ["$m"] in
  (event_ids_iter id (λ _, id) one_batch 20 timeline "!other" a0 ["$m"]).2 = Err (RequestForbidden "$m" "!other")
  ∧ (event_ids_iter id (λ _, id) one_batch 20 timeline "!other" a1 ["$m"]).2 = Ok ["$p"; "$j"; "$c"].
Proof. vm_compute. split; reflexivity. Qed.
End AuthChainDemo.
