(* ===== verification/ReadReceipts.v ===== *)
(** * Read receipts

    Models [src/service/rooms/read_receipt/] ([data.rs], [mod.rs]): the public receipts of a
    room by count, the private read markers, and the packing of receipts for a sync.

    * What read receipts and unread counts promise

    A new receipt of a user in a room takes the place of the earlier ones: exactly which rows
    it removes is stated, also where the names of rooms or users continue each other.
    Reading since a count lists the later receipts of the room and no other.  Packing
    receipts for a sync keeps one receipt per event. *)

From S2P Require Import Prelude Bytes PduId DbMap DbSer DbScan Short ShortProps Timeline.

Local Open Scope Z_scope.

(** [key.ends_with(suffix)] *)
Definition ends_with (k suffix : bytes) : Prop := drop (length k - length suffix) k = suffix.
#[export] Instance ends_with_dec k p : Decision (ends_with k p).
Proof. unfold ends_with. apply _. Defined.

Inductive ReceiptError := NoPrivateReceipt | NoShortRoomId | ReceiptTimeline (e : TimelineError) | ReceiptRead (e : ShortError).

Section read_receipts.
Context {DB : Type} `{Store DB}.
(** A [ReceiptEvent] as JSON text, a text as an object, and an object as text. *)
Context {Event Json : Type} (receipt_json : Event → bytes) (object_of : bytes → option (gmap string Json))
        (object_json : gmap string Json → option bytes).

Record ReadReceipts := mkReadReceipts {
  receipt_globals : Globals DB;
  roomuserid_privateread : DB;
  roomuserid_lastprivatereadupdate : DB;
  readreceiptid_readreceipt : DB;
}.
Implicit Types (s : ReadReceipts) (user_id room_id : string).

Definition with_receipts s (g : Globals DB) (m : DB) : ReadReceipts :=
  mkReadReceipts g (roomuserid_privateread s) (roomuserid_lastprivatereadupdate s) m.

(** [&[u8]] as a key: its bytes one by one. *)
Definition slice_value (k : bytes) : Value := VSeq ((λ b, VU8 (byte_val b)) <$> k).

Definition readreceiptid room_id (count : Z) user_id : Value :=
  VTuple [VStr (bytes_of_string room_id); VU64 count; VStr (bytes_of_string user_id)].
Definition room_count_key room_id (count : Z) : Value := VTuple [VStr (bytes_of_string room_id); VU64 count].

Fixpoint del_all (m : DB) (keys : list bytes) : outcome ReceiptError DB :=
  match keys with
  | [] => Ok m
  | key :: keys => m ← del m (slice_value key); del_all m keys
  end.

Definition readreceipt_update s user_id room_id (event : Event) : outcome ReceiptError ReadReceipts :=
  last_possible_key ← must (serialize None (room_count_key room_id u64_max));
  let keys := (rev_raw_stream_from (readreceiptid_readreceipt s) last_possible_key).*1 in
  let keys := take_while (λ key, starts_with key (bytes_of_string room_id)) keys in
  let keys := filter (λ key, ends_with key (bytes_of_string user_id)) keys in
  m ← del_all (readreceiptid_readreceipt s) keys;
  let '(count, g) := next_count (receipt_globals s) in
  m ← bput m (readreceiptid room_id count user_id) (VText (receipt_json event)) (None, None);
  Ok (with_receipts s g m).

(** The receipts of a room with counts above [since], without the room in their JSON. *)
Definition read_receipt_row (kv : KeyVal) : option (string * Z * string * gmap string Json) :=
  match from_slice (STuple [SStr; SU64; SStr]) kv.1 with
  | Ok (VTuple [VStr r; VU64 count; VStr u]) =>
      json ← object_of kv.2; Some (string_of_bytes r, count, string_of_bytes u, json)
  | _ => None
  end.
Definition readreceipts_since s room_id (since : Z) : outcome ReceiptError (list (string * Z * bytes)) :=
  let after_since := u64_saturate (since + 1) in
  first_possible_edu ← must (serialize None (room_count_key room_id after_since));
  let rows := omap read_receipt_row (raw_stream_from (readreceiptid_readreceipt s) first_possible_edu) in
  let rows := take_while (λ r : string * Z * string * gmap string Json, r.1.1.1 = room_id) rows in
  Ok (omap (λ r : string * Z * string * gmap string Json,
              event ← object_json (delete "room_id" r.2); Some (r.1.2, r.1.1.2, event)) rows).
Definition readreceipts_since_opt s room_id (since : option Z) := readreceipts_since s room_id (default 0 since).

Definition private_read_set s room_id user_id (pdu_count : Z) : outcome ReceiptError ReadReceipts :=
  let key := pair_value room_id user_id in
  let '(next_count, g) := next_count (receipt_globals s) in
  read ← bput (roomuserid_privateread s) key (VU64 pdu_count) (None, None);
  update ← bput (roomuserid_lastprivatereadupdate s) key (VU64 next_count) (None, None);
  Ok (mkReadReceipts g read update (readreceiptid_readreceipt s)).

Definition receipt_error {A} (o : outcome ShortError A) : outcome ReceiptError A :=
  match o with Ok a => Ok a | Err e => Err (ReceiptRead e) | Panic => Panic end.
Definition private_read_get_count s room_id user_id : outcome ReceiptError Z :=
  r ← qry (roomuserid_privateread s) (pair_value room_id user_id); receipt_error (deserialized_u64 r).
Definition last_privateread_update s user_id room_id : outcome ReceiptError Z :=
  r ← qry (roomuserid_lastprivatereadupdate s) (pair_value room_id user_id);
  match deserialized_u64 r with Ok n => Ok n | Err _ => Ok 0 | Panic => Panic end.

(** The private receipt names the event at the marker's position. *)
Definition private_read_get {Pdu} (pdu_from_slice : bytes → option Pdu) (pdu_event_id : Pdu → string)
    (shorts : Short DB) (tl : Timeline.Data DB) s room_id user_id : outcome ReceiptError (string * string) :=
  pdu_count ← match private_read_get_count s room_id user_id with Err _ => Err NoPrivateReceipt | r => r end;
  shortroomid ← match get_shortroomid shorts room_id with Ok z => Ok z | Err _ => Err NoShortRoomId | Panic => Panic end;
  let pdu_id := raw_of_id (mkId shortroomid (Count.Normal pdu_count)) in
  pdu ← match get_pdu_from_id pdu_from_slice tl pdu_id with Ok p => Ok p | Err e => Err (ReceiptTimeline e) | Panic => Panic end;
  Ok (pdu_event_id pdu, user_id).
End read_receipts.

(** ** Packing *)

(** Event, type of receipt, user. *)
Abbreviation ReceiptContent R := (gmap string (gmap string (gmap string R))).

(** Receipts that do not parse are left out. *)
Definition pack_receipts {R} (receipts : list (option (ReceiptContent R))) : ReceiptContent R :=
  foldl (λ json receipt,
           match receipt with
           | Some content => map_fold (λ event receipt json, <[event := receipt]> json) json content
           | None => json
           end) ∅ receipts.

Local Open Scope Z_scope.

(** ** Prefixes and suffixes of keys *)

Lemma starts_with_prefix k p : starts_with k p ↔ p `prefix_of` k.
Proof.
  split; [intros ->%starts_with_split; by eexists|]. intros [l ->]. unfold starts_with. apply take_app_length.
Qed.
Lemma prefix_before_sep p l k : SEP ∉ p → p `prefix_of` (l ++ SEP :: k) ↔ p `prefix_of` l.
Proof.
  revert l. induction p as [|b p IH]; intros [|c l] Hp; cbn; [by split; intros; apply prefix_nil..| |].
  - split; [intros Hc%prefix_cons_inv_1; set_solver|by intros ?%prefix_nil_not].
  - split; intros Hc; pose proof (prefix_cons_inv_1 _ _ _ _ Hc) as ->; apply prefix_cons_inv_2 in Hc; apply prefix_cons.
    + apply (IH l); [set_solver|done].
    + apply IH; [set_solver|done].
Qed.
Lemma ends_with_suffix k p : ends_with k p ↔ p `suffix_of` k.
Proof.
  unfold ends_with. split.
  - intros E. exists (take (length k - length p) k). rewrite <- E at 2. by rewrite take_drop.
  - intros [l ->]. rewrite length_app. replace (length l + length p - length p)%nat with (length l) by lia. apply drop_app_length.
Qed.
Lemma suffix_after_sep p l k : SEP ∉ p → p `suffix_of` (k ++ SEP :: l) ↔ p `suffix_of` l.
Proof.
  intros Hp. rewrite !suffix_prefix_reverse, reverse_app, reverse_cons, <- (assoc_L (++)). cbn [app].
  apply prefix_before_sep. by rewrite elem_of_reverse.
Qed.

Section receipts.
Context {DB : Type} `{Store DB}.
Context {Event : Type} (receipt_json : Event → bytes).
Implicit Types (s : ReadReceipts (DB := DB)) (m : DB) (r u : string) (c n : Z) (k : bytes).

Definition receipt_key r c u : bytes := bytes_of_string r ++ SEP :: u64_be c ++ SEP :: bytes_of_string u.
Lemma serialize_receiptid r c u : serialize None (readreceiptid r c u) = Ok (receipt_key r c u).
Proof. unfold receipt_key. cbn -[u64_be]. by rewrite <- !(assoc_L (++)). Qed.
Lemma serialize_room_count_key r c : serialize None (room_count_key r c) = Ok (bytes_of_string r ++ SEP :: u64_be c).
Proof. cbn -[u64_be]. by rewrite <- !(assoc_L (++)). Qed.

Definition receipts_wf m : Prop := ∀ k v, map_get m k = Some v →
  ∃ r c u, utf8 r ∧ utf8 u ∧ 0 ≤ c < u64_max ∧ k = receipt_key r c u.

Lemma receipt_starts r0 r c u : utf8 r0 →
  starts_with (receipt_key r c u) (bytes_of_string r0) ↔ bytes_of_string r0 `prefix_of` bytes_of_string r.
Proof. intros Hr%utf8_no_sep. rewrite starts_with_prefix. by apply prefix_before_sep. Qed.
Lemma receipt_ends u0 r c u : utf8 u0 →
  ends_with (receipt_key r c u) (bytes_of_string u0) ↔ bytes_of_string u0 `suffix_of` bytes_of_string u.
Proof.
  intros Hu%utf8_no_sep. rewrite ends_with_suffix. unfold receipt_key.
  change (SEP :: u64_be c ++ SEP :: bytes_of_string u) with ((SEP :: u64_be c) ++ SEP :: bytes_of_string u).
  rewrite (assoc_L (++)). by apply suffix_after_sep.
Qed.
Lemma receipt_key_inj r c u r' c' u' :
  utf8 r → utf8 r' → is_u64 c → is_u64 c' → receipt_key r c u = receipt_key r' c' u' → r = r' ∧ c = c' ∧ u = u'.
Proof.
  intros Hr Hr' Hc Hc' E. apply split_at_sep in E as [->%bytes_of_string_inj E]; [|by apply utf8_no_sep..].
  apply app_inj_1 in E as [->%u64_be_inj [= ->%bytes_of_string_inj]]; [done|done|done|by rewrite !length_u64_be].
Qed.

(** A slice as a key is its bytes. *)
Lemma be_bytes_1 b : be_bytes 1 (byte_val b) = [b].
Proof.
  pose proof (be_bytes_value [b]) as E. rewrite be_value_cons in E. cbn [length] in E.
  change (256 ^ Z.of_nat 0) with 1 in E. by rewrite Z.mul_1_r, Z.add_0_r in E.
Qed.
Lemma serialize_slice k : serialize None (slice_value k) = Ok k.
Proof.
  unfold slice_value. assert (∀ o, ser_elements serialize_value ((λ b, VU8 (byte_val b)) <$> k) (mkSerializer o false None)
    = Ok (mkSerializer (o ++ k) false None)) as E.
  { induction k as [|b k IH]; intros o; [by cbn; rewrite app_nil_r|]. rewrite fmap_cons. cbn [ser_elements serialize_value].
    rewrite be_bytes_1. cbn. rewrite IH. by rewrite <- (assoc_L (++)). }
  unfold serialize. cbn [serialize_value]. by rewrite E.
Qed.
Lemma del_all_keys m keys : del_all m keys = Ok (remove_keys m keys).
Proof.
  revert m. induction keys as [|k keys IH]; intros m; [done|]. cbn [del_all]. unfold del. rewrite serialize_slice.
  cbn [must mbind outcome_bind]. by rewrite IH.
Qed.

(** The rows an update takes away. *)
Definition replaced r u k : Prop := starts_with k (bytes_of_string r) ∧ ends_with k (bytes_of_string u).
#[local] Instance replaced_dec r u k : Decision (replaced r u k).
Proof. unfold replaced. apply _. Defined.

Lemma below_last r r' c u : utf8 r → 0 ≤ c < u64_max → bytes_of_string r `prefix_of` bytes_of_string r' → utf8 r' →
  bytes_lt (receipt_key r' c u) (bytes_of_string r ++ SEP :: u64_be u64_max).
Proof.
  intros Hr Hc [x Hx] Hr'. unfold receipt_key. rewrite Hx, <- (assoc_L (++)). unfold bytes_lt. rewrite bytes_cmp_app_same.
  destruct x as [|b x]; cbn [app].
  - change (SEP :: u64_be c ++ SEP :: bytes_of_string u) with ([SEP] ++ (u64_be c ++ SEP :: bytes_of_string u)).
    change (SEP :: u64_be u64_max) with ([SEP] ++ u64_be u64_max). rewrite bytes_cmp_app_same.
    rewrite <- (app_nil_r (u64_be u64_max)), cmp_counts by (unfold is_u64, u64_max in *; lia). apply Z.compare_lt_iff. lia.
  - apply bytes_lt_cons, below_sep. apply utf8_no_sep in Hr'. rewrite Hx in Hr'. intros ->. apply Hr', elem_of_app. right. by left.
Qed.

(** What the scan downwards selects. *)
Lemma scanned m r u k :
  receipts_wf m → utf8 r →
  let keys := take_while (λ key, starts_with key (bytes_of_string r))
                (rev_raw_stream_from m (bytes_of_string r ++ SEP :: u64_be u64_max)).*1 in
  k ∈ filter (λ key, ends_with key (bytes_of_string u)) keys ↔ is_Some (map_get m k) ∧ replaced r u k.
Proof.
  intros Hm Hr. set (last := _ ++ SEP :: _). cbv zeta.
  assert (∀ k, k ∈ (rev_raw_stream_from m last).*1 ↔ bytes_le k last ∧ is_Some (map_get m k)) as Hraw.
  { intros k'. rewrite list_elem_of_fmap. unfold rev_raw_stream_from. split.
    - intros ([k2 v] & -> & Hin). rewrite store_seek_for_prev_spec, elem_of_reverse, list_elem_of_filter, store_scan_spec in Hin.
      split; [apply Hin|]. exists v. apply Hin.
    - intros [Hle [v Hv]]. exists (k', v). split; [done|].
      by rewrite store_seek_for_prev_spec, elem_of_reverse, list_elem_of_filter, store_scan_spec. }
  assert (starts_with last (bytes_of_string r)) as Hlast by apply take_app_length.
  rewrite (take_while_filter (flip bytes_lt)).
  - rewrite !list_elem_of_filter, Hraw. unfold replaced. split; [tauto|]. intros (Hk & Hs & He).
    split; [done|]. split; [done|]. split; [|done]. destruct Hk as [v Hv]. destruct (Hm k v Hv) as (r' & c & u' & Hr' & Hu' & Hc & ->).
    apply receipt_starts in Hs; [|done]. apply bytes_le_lteq. left. by apply below_last.
  - apply (sorted_fmap fst (flip key_lt)); [done|]. unfold rev_raw_stream_from. rewrite store_seek_for_prev_spec.
    apply (StronglySorted_reverse key_lt), StronglySorted_filter, store_scan_sorted.
  - intros x y [Hx _]%Hraw _ Hlt Hy. cbn in Hlt. apply bytes_le_lteq in Hx as [Hx| ->]; [|done].
    rewrite (starts_with_split _ _ Hlast) in Hx. eapply between_prefix; [|exact Hx].
    apply bytes_le_lteq. left. pose proof (starts_with_above _ _ Hy) as [Hb|Hb]%bytes_le_lteq; [by etransitivity|by rewrite Hb].
Qed.

(** What a new receipt does to the table: the receipt is stored under a fresh count, and
    the rows taken away are exactly those whose room begins with this room's id and whose
    user ends with this user's id; every other row stays. *)
Theorem readreceipt_update_exact s r u (event : Event) :
  receipts_wf (readreceiptid_readreceipt s) → utf8 r → utf8 u →
  0 ≤ counter (receipt_globals s) → counter (receipt_globals s) + 1 < u64_max →
  let c := counter (receipt_globals s) + 1 in
  ∃ s', readreceipt_update receipt_json s u r event = Ok s' ∧ counter (receipt_globals s') = c
    ∧ receipts_wf (readreceiptid_readreceipt s')
    ∧ ∀ r' c' u', utf8 r' → utf8 u' → is_u64 c' →
        map_get (readreceiptid_readreceipt s') (receipt_key r' c' u')
        = if decide (r' = r ∧ c' = c ∧ u' = u) then Some (receipt_json event)
          else if decide (bytes_of_string r `prefix_of` bytes_of_string r' ∧ bytes_of_string u `suffix_of` bytes_of_string u') then None
          else map_get (readreceiptid_readreceipt s) (receipt_key r' c' u').
Proof.
  intros Hm Hr Hu Hc0 Hc c. unfold readreceipt_update. rewrite serialize_room_count_key. cbn [must mbind outcome_bind].
  rewrite del_all_keys. set (keys := filter _ _). cbn [must mbind outcome_bind].
  assert (∀ k, k ∈ keys ↔ is_Some (map_get (readreceiptid_readreceipt s) k) ∧ replaced r u k) as Hkeys by (intros; by apply scanned).
  rewrite next_count_spec by (unfold is_u64, u64_max in *; lia). unfold bput, bput_raw. cbn [fst snd].
  rewrite serialize_receiptid. cbn [serialize serialize_value write must mbind outcome_bind].
  change (serialize None (VText (receipt_json event))) with (Ok (E := SerdeError) (receipt_json event)). cbn [must mbind outcome_bind].
  fold c. eexists. split; [done|]. split; [done|]. cbn [readreceiptid_readreceipt with_receipts]. split.
  - intros k v. rewrite map_get_insert. case_decide as E; [intros _; exists r, c, u; do 2 (split; [done|]); split; [lia|done]|].
    rewrite get_remove_keys. case_bool_decide; [done|]. apply Hm.
  - intros r' c' u' Hr' Hu' Hc'. rewrite map_get_insert.
    assert (receipt_key r c u = receipt_key r' c' u' ↔ r' = r ∧ c' = c ∧ u' = u) as Heq.
    { split; [intros (-> & -> & ->)%receipt_key_inj; try done; unfold is_u64, u64_max in *; lia|by intros (-> & -> & ->)]. }
    rewrite (decide_ext _ _ _ _ Heq). case_decide; [done|]. rewrite get_remove_keys.
    assert (replaced r u (receipt_key r' c' u') ↔ bytes_of_string r `prefix_of` bytes_of_string r' ∧ bytes_of_string u `suffix_of` bytes_of_string u') as Hrep.
    { unfold replaced. by rewrite receipt_starts, receipt_ends. }
    rewrite <- (decide_ext _ _ _ _ Hrep). case_bool_decide as Hin; rewrite Hkeys in Hin.
    + by rewrite decide_True by apply Hin.
    + case_decide as Hre; [|done]. destruct (map_get (readreceiptid_readreceipt s) (receipt_key r' c' u')) eqn:E; [|done].
      destruct Hin. split; [by eexists|done].
Qed.
End receipts.

(** ** Reading *)

Section reading.
Context {DB : Type} `{Store DB}.
Context {Json : Type} (object_of : bytes → option (gmap string Json)) (object_json : gmap string Json → option bytes).
Implicit Types (s : ReadReceipts (DB := DB)) (m : DB) (r u : string) (c n : Z) (k : bytes).

(** The first key of a scan is below the rows of the room from its count on. *)
Lemma from_first r c u n : is_u64 c → is_u64 n →
  bytes_le (bytes_of_string r ++ SEP :: u64_be n) (receipt_key r c u) ↔ n ≤ c.
Proof.
  intros Hc Hn. unfold receipt_key, bytes_le. rewrite bytes_cmp_app_same.
  change (SEP :: u64_be c ++ SEP :: bytes_of_string u) with ([SEP] ++ (u64_be c ++ SEP :: bytes_of_string u)).
  change (SEP :: u64_be n) with ([SEP] ++ u64_be n). rewrite bytes_cmp_app_same.
  destruct (decide (n = c)) as [->|Hne].
  - rewrite <- (app_nil_r (u64_be c)) at 1. rewrite bytes_cmp_app_same. cbn. split; [lia|done].
  - rewrite <- (app_nil_r (u64_be n)), cmp_counts by done. rewrite Z.compare_ngt_iff. lia.
Qed.
Lemma receipt_lt r c u c' u' : is_u64 c → is_u64 c' → bytes_lt (receipt_key r c u) (receipt_key r c' u') → c ≤ c'.
Proof.
  intros Hc Hc'. unfold receipt_key, bytes_lt. rewrite bytes_cmp_app_same.
  change (SEP :: u64_be c ++ SEP :: bytes_of_string u) with ([SEP] ++ (u64_be c ++ SEP :: bytes_of_string u)).
  change (SEP :: u64_be c' ++ SEP :: bytes_of_string u') with ([SEP] ++ (u64_be c' ++ SEP :: bytes_of_string u')).
  rewrite bytes_cmp_app_same. destruct (decide (c = c')) as [->|Hne]; [done|].
  rewrite cmp_counts by done. rewrite Z.compare_lt_iff. lia.
Qed.
Lemma read_receipt r c u (v : bytes) : utf8 r → utf8 u → is_u64 c →
  read_receipt_row object_of (receipt_key r c u, v) = (λ json, (r, c, u, json)) <$> object_of v.
Proof.
  intros Hr Hu Hc. unfold read_receipt_row. cbn [fst snd].
  pose proof (tuple_read [SStr; SU64; SStr] (VStr (bytes_of_string r)) [VU64 c; VStr (bytes_of_string u)]
    [VStr (bytes_of_string r); VU64 c; VStr (bytes_of_string u)]) as Hrd.
  unfold tail_bytes in Hrd. cbn [fmap list_fmap concat field_bytes] in Hrd. rewrite app_nil_r in Hrd.
  unfold receipt_key. change (u64_be c) with (be_bytes 8 c). cbn [app] in Hrd. rewrite Hrd.
  - rewrite !string_of_bytes_of_string. by destruct (object_of v).
  - reads_solve.
  - by destruct (bytes_of_string r).
Qed.

Abbreviation ReceiptRow := (string * Z * string * gmap string Json)%type.
Definition row_key (x : ReceiptRow) : bytes := receipt_key x.1.1.1 x.1.1.2 x.1.2.

(** The rows of a scan, read. *)
Lemma receipt_rows m r first :
  receipts_wf m →
  let rows := omap (read_receipt_row object_of) (raw_stream_from m (bytes_of_string r ++ SEP :: u64_be first)) in
  StronglySorted (λ x y, bytes_lt (row_key x) (row_key y)) rows
  ∧ ∀ x : ReceiptRow, x ∈ rows ↔ utf8 x.1.1.1 ∧ utf8 x.1.2 ∧ 0 ≤ x.1.1.2 < u64_max ∧
      bytes_le (bytes_of_string r ++ SEP :: u64_be first) (row_key x) ∧ ∃ v, map_get m (row_key x) = Some v ∧ object_of v = Some x.2.
Proof.
  intros Hm rows.
  assert (∀ k v, (k, v) ∈ raw_stream_from m (bytes_of_string r ++ SEP :: u64_be first)
    ↔ bytes_le (bytes_of_string r ++ SEP :: u64_be first) k ∧ map_get m k = Some v) as Hraw.
  { intros k v. unfold raw_stream_from. by rewrite store_seek_spec, list_elem_of_filter, store_scan_spec. }
  assert (∀ x : ReceiptRow, x ∈ rows ↔ utf8 x.1.1.1 ∧ utf8 x.1.2 ∧ 0 ≤ x.1.1.2 < u64_max ∧
    bytes_le (bytes_of_string r ++ SEP :: u64_be first) (row_key x) ∧ ∃ v, map_get m (row_key x) = Some v ∧ object_of v = Some x.2) as Hrows.
  { intros [[[r' c'] u'] j]. unfold rows, row_key. rewrite list_elem_of_omap. cbn [fst snd]. split.
    - intros ([k v] & [Hle Hk]%Hraw & Hrd). destruct (Hm k v Hk) as (r2 & c2 & u2 & Hr2 & Hu2 & Hc2 & ->).
      rewrite read_receipt in Hrd by (unfold is_u64, u64_max in *; lia || done).
      destruct (object_of v) as [json|] eqn:Ej; [|done]. injection Hrd as -> -> -> ->. split_and!; try lia; eauto.
    - intros (Hr' & Hu' & Hc' & Hle & v & Hv & Hj). exists (receipt_key r' c' u', v). split; [by apply Hraw|].
      rewrite read_receipt by (unfold is_u64, u64_max in *; lia || done). by rewrite Hj. }
  assert (StronglySorted (λ x y, bytes_lt (row_key x) (row_key y)) rows) as Hsort.
  { apply (sorted_omap _ key_lt).
    - intros [k v] [k' v'] x y [_ Hk]%Hraw [_ Hk']%Hraw Hlt.
      destruct (Hm k v Hk) as (r1 & c1 & u1 & ? & ? & ? & ->), (Hm k' v' Hk') as (r2 & c2 & u2 & ? & ? & ? & ->).
      rewrite !read_receipt by (unfold is_u64, u64_max in *; lia || done).
      destruct (object_of v), (object_of v'); try done. by intros [= <-] [= <-].
    - unfold raw_stream_from. rewrite store_seek_spec. apply StronglySorted_filter, store_scan_sorted. }
  by split.
Qed.

(** Reading the receipts of a room since a count lists the receipts of the room with
    greater counts, in the order of the counts, with the room left out of their JSON, and
    nothing else. *)
Theorem readreceipts_since_exact s r since :
  receipts_wf (readreceiptid_readreceipt s) → utf8 r → is_u64 since →
  ∃ L, readreceipts_since object_of object_json s r since = Ok L
    ∧ StronglySorted (λ x y, x.1.2 ≤ y.1.2) L
    ∧ ∀ u n event, (u, n, event) ∈ L ↔ utf8 u ∧ since < n < u64_max ∧
        ∃ v json, map_get (readreceiptid_readreceipt s) (receipt_key r n u) = Some v ∧ object_of v = Some json
          ∧ object_json (delete "room_id" json) = Some event.
Proof.
  intros Hm Hr Hs. unfold readreceipts_since. rewrite serialize_room_count_key. cbn [must mbind outcome_bind].
  set (first := u64_saturate (since + 1)). set (m := readreceiptid_readreceipt s) in *.
  assert (is_u64 first ∧ ∀ n, n < u64_max → first ≤ n ↔ since < n) as [Hf Hfirst].
  { unfold first, u64_saturate, saturate, is_u64, u64_max in *. split; [lia|]. intros n ?. lia. }
  destruct (receipt_rows m r first Hm) as [Hsort Hrows]. set (rows := omap (read_receipt_row object_of) _) in *.
  set (P := λ x : ReceiptRow, x.1.1.1 = r).
  rewrite (take_while_filter _ P rows Hsort).
  - assert (∀ x, x ∈ filter P rows ↔ x.1.1.1 = r ∧ utf8 x.1.2 ∧ since < x.1.1.2 < u64_max ∧
      ∃ v, map_get m (receipt_key r x.1.1.2 x.1.2) = Some v ∧ object_of v = Some x.2) as HP.
    { intros x. unfold P. rewrite list_elem_of_filter, Hrows. unfold row_key. split.
      - intros (-> & _ & Hu & Hc & Hle & Hv). apply from_first in Hle; [|unfold is_u64, u64_max in *; lia|done].
        apply Hfirst in Hle; [|lia]. split_and!; [done..|lia|lia|done].
      - intros (-> & Hu & Hc & Hv). unfold is_u64, u64_max in *. split_and!; [done..|lia|lia| |done].
        apply from_first; [unfold is_u64; lia|done|]. apply Hfirst; lia. }
    eexists. split; [done|]. split.
    + apply (sorted_omap _ (λ x y, bytes_lt (row_key x) (row_key y))); [|by apply StronglySorted_filter].
      intros x y a b (Hx & _ & ? & _)%HP (Hy & _ & ? & _)%HP Hlt.
      destruct (object_json (delete "room_id" x.2)), (object_json (delete "room_id" y.2)); cbn; try done. intros [= <-] [= <-]. cbn.
      unfold row_key in Hlt. rewrite Hx, Hy in Hlt. apply receipt_lt in Hlt; unfold is_u64, u64_max in *; lia.
    + intros u n event. rewrite list_elem_of_omap. split.
      * intros ([[[r' c'] u'] j] & (Er & Hu & Hc & v & Hv & Hj)%HP & He). cbn [fst snd] in *. subst r'.
        destruct (object_json (delete "room_id" j)) eqn:Ej; [|done]. injection He as -> -> ->. split_and!; [done|lia|lia|eauto].
      * intros (Hu & Hc & v & j & Hv & Hj & He). exists (r, n, u, j). split; [apply HP; cbn [fst snd]; split_and!; [done..|lia|lia|eauto]|].
        cbn [fst snd]. by rewrite He.
  - intros x y (Hrx & _ & _ & Hle & _)%Hrows (Hry & _)%Hrows Hlt Hy. unfold P in *. rewrite <- Hy in *.
    assert (starts_with (row_key x) (bytes_of_string y.1.1.1 ++ [SEP])) as Hst.
    { unfold row_key at 2, receipt_key in Hlt. eapply between_prefix; [|rewrite <- (assoc_L (++)); exact Hlt].
      etransitivity; [|exact Hle]. apply starts_with_above. unfold starts_with.
      change (SEP :: u64_be first) with ([SEP] ++ u64_be first). rewrite (assoc_L (++)). apply take_app_length. }
    apply starts_with_split in Hst. unfold row_key, receipt_key in Hst. rewrite <- (assoc_L (++)) in Hst.
    apply split_at_sep in Hst as [?%bytes_of_string_inj _]; [done|by apply utf8_no_sep..].
Qed.
End reading.

(** ** Packing *)

Lemma insert_all_union {A} (m j : gmap string A) : map_fold (λ k v (j : gmap string A), <[k := v]> j) j m = m ∪ j.
Proof.
  apply (map_fold_weak_ind (λ r m, r = m ∪ j)); [by rewrite (left_id_L ∅ (∪))|].
  intros k v m' r _ ->. by rewrite insert_union_l.
Qed.

(** A packed receipt has for every event the entry of the last receipt that names the
    event: of two users who read up to the same event, one receipt is lost. *)
Theorem pack_receipts_last {R} (receipts : list (option (ReceiptContent R))) (event : string) :
  pack_receipts receipts !! event = last (omap (λ receipt, receipt ≫= λ content, content !! event) receipts).
Proof.
  induction receipts as [|receipt receipts IH] using rev_ind; [done|]. unfold pack_receipts in *.
  rewrite foldl_app. cbn [foldl]. rewrite omap_app.
  destruct receipt as [content|]; cbn; [|by rewrite app_nil_r]. rewrite insert_all_union, lookup_union.
  destruct (content !! event) as [e|]; cbn; [|by rewrite app_nil_r, (left_id_L None _)].
  rewrite last_snoc. by destruct (_ !! event).
Qed.

(** ** Witnesses *)

Module ReceiptsDemo.
Definition fresh : ReadReceipts (DB := gmap bytes bytes) := mkReadReceipts (mkGlobals ∅ 0) ∅ ∅ ∅.
Definition update (s : ReadReceipts) (u r : string) (b : bytes) :=
  match readreceipt_update id s u r b with Ok s => s | _ => s end.
(** Two rooms, one's id continuing the other's. *)
Definition two : ReadReceipts (DB := gmap bytes bytes) := update (update fresh "@a:s" "!r:s.org" [x01]) "@a:s" "!r:s" [x02].

Lemma fresh_wf : receipts_wf (readreceiptid_readreceipt fresh).
Proof. intros k v Hk. cbn in Hk. by rewrite lookup_empty in Hk. Qed.

(** A receipt in one room takes away that of the other room. *)
Definition one : ReadReceipts (DB := gmap bytes bytes) := update fresh "@a:s" "!r:s.org" [x01].
Lemma one_wf : receipts_wf (readreceiptid_readreceipt one) ∧ counter (receipt_globals one) = 1.
Proof.
  split; [|vm_compute; reflexivity]. intros k v Hk. apply store_scan_spec in Hk. vm_compute (store_scan _) in Hk.
  apply list_elem_of_singleton in Hk. injection Hk as -> _. by exists "!r:s.org", 1, "@a:s".
Qed.
Lemma readreceipt_update_exact_witness :
  map_get (readreceiptid_readreceipt one) (receipt_key "!r:s.org" 1 "@a:s") = Some [x01]
  ∧ ∃ s', readreceipt_update id one "@a:s" "!r:s" [x02] = Ok s'
      ∧ map_get (readreceiptid_readreceipt s') (receipt_key "!r:s.org" 1 "@a:s") = None.
Proof.
  split; [vm_compute; reflexivity|]. destruct one_wf as [Hw Hc].
  destruct (readreceipt_update_exact id one "!r:s" "@a:s" [x02] Hw) as (s' & E' & _ & _ & Hg);
    [reflexivity|reflexivity|rewrite Hc; discriminate|rewrite Hc; reflexivity|].
  exists s'. split; [exact E'|]. rewrite Hg by (reflexivity || (unfold is_u64; lia)).
  rewrite decide_False by (intros [? _]; discriminate).
  rewrite decide_True; [reflexivity|]. split; [exists (bytes_of_string ".org"); reflexivity|by exists []].
Defined.

Definition no_object (b : bytes) : option (gmap string bytes) := Some {["content" := b]}.
Definition content (o : gmap string bytes) : option bytes := o !! "content".
Lemma readreceipts_since_exact_witness :
  readreceipts_since no_object content two "!r:s" 0 = Ok [("@a:s", 2, [x02])]
  ∧ ∀ u n event, (u, n, event) ∈ [("@a:s", 2, [x02])] → 0 < n.
Proof.
  assert (receipts_wf (readreceiptid_readreceipt two)) as Hw.
  { intros k v Hk. apply store_scan_spec in Hk. vm_compute (store_scan _) in Hk.
    apply list_elem_of_singleton in Hk. injection Hk as -> _. by exists "!r:s", 2, "@a:s". }
  destruct (readreceipts_since_exact no_object content two "!r:s" 0 Hw) as (L & E & _ & HL); [reflexivity|done|].
  assert (readreceipts_since no_object content two "!r:s" 0 = Ok [("@a:s", 2, [x02])]) as E' by (vm_compute; reflexivity).
  split; [exact E'|]. rewrite E' in E. injection E as <-. intros u n event Hin. by apply HL in Hin as (_ & [? _] & _).
Defined.

(** Two users read up to one event: the second receipt is the one sent. *)
Lemma packed_receipt_lost :
  pack_receipts [Some {["$e" := {["m.read" := {["@a:s" := tt]}]}]}; Some {["$e" := {["m.read" := {["@b:s" := tt]}]}]}]
  = {["$e" := {["m.read" := {["@b:s" := tt]}]}]}.
Proof. vm_compute. reflexivity. Qed.
End ReceiptsDemo.
