(* ===== verification/Presence.v ===== *)
(** * Presence

    Models [src/service/presence/] ([mod.rs], [data.rs], [presence.rs]): the presence of each
    user by count, and the timers that make a user who does nothing idle and then offline.
    Every reading of the clock is an argument.

    * What presence promises

    The tables are a map from users to a count and their presence; updates are updates of
    the map and reading since a count lists the later ones in order.  A user who is online
    or idle has a timer pending that will end after the timeout; without activity the timers
    run out, and then nobody is online. *)

From S2P Require Import Prelude Bytes DbMap DbSer DbScan Tables Short ShortProps AccountData Users.

Local Open Scope Z_scope.

Inductive PresenceState := Offline | Online | Unavailable | Busy | CustomState (s : string).
#[export] Instance PresenceState_eq_dec : EqDecision PresenceState.
Proof. solve_decision. Defined.
Definition state_is_empty (st : PresenceState) : bool := bool_decide (st = CustomState EmptyString).

Record Presence := mkPresence {
  state : PresenceState;
  currently_active : bool;
  last_active_ts : Z;
  status_msg : option string;
}.
(** The content of a [PresenceEvent], with its sender. *)
Record PresenceEvent := mkPresenceEvent {
  pe_sender : string;
  pe_presence : PresenceState;
  pe_status_msg : option string;
  pe_currently_active : option bool;
  pe_last_active_ago : option Z;
  pe_displayname : option bytes;
  pe_avatar_url : option bytes;
}.

(** [js_int::UInt] *)
Definition UINT_MAX : Z := 2 ^ 53 - 1.
Definition uint_new_saturating (z : Z) : Z := Z.min z UINT_MAX.
Definition sat_sub (a b : Z) : Z := Z.max 0 (a - b).

Inductive PresenceError := PresenceDb (e : ShortError) | PresenceNotFound | InvalidPresence | TimerFailed.

Section presence.
Context {DB : Type} `{Store DB}.
Context (to_json : Presence → bytes) (of_json : bytes → option Presence).
(** [UserId::try_from], [globals.user_is_local], [globals.server_user] and the settings. *)
Context (valid_user_id : string → bool) (user_is_local : string → bool) (server_user : string).
Context (timeout_remote_users : bool) (idle_timeout_s offline_timeout_s : Z).
Implicit Types (users : UserTable → DB) (user_id : string) (now : Z).

Definition idle_timeout : Z := idle_timeout_s * 1000.
Definition offline_timeout : Z := offline_timeout_s * 1000.

(** ** [presence.rs] *)

Definition to_presence_event (p : Presence) users user_id now : PresenceEvent :=
  let last_active_ago := Some (uint_new_saturating (sat_sub now (last_active_ts p))) in
  mkPresenceEvent user_id (state p) (status_msg p) (Some (currently_active p)) last_active_ago
    match displayname users user_id with Ok n => Some n | _ => None end
    match avatar_url users user_id with Ok a => Some a | _ => None end.

(** ** [data.rs] *)

Record Data := mkData {
  presenceid_presence : DB;
  userid_presenceid : DB;
  presence_globals : Globals DB;
}.
Implicit Types (d : Data).

Definition presenceid_key (count : Z) user_id : bytes := u64_be count ++ bytes_of_string user_id.
Definition presenceid_parse (key : bytes) : outcome PresenceError (Z * string) :=
  if bool_decide (length key < 8)%nat then Panic
  else
    let user_id := drop 8 key in
    if utf8_valid user_id && valid_user_id (string_of_bytes user_id)
    then Ok (u64_from_u8x8 (take 8 key), string_of_bytes user_id)
    else Err InvalidPresence.

Definition presence_count d user_id : outcome PresenceError Z :=
  match deserialized_u64 (map_get (userid_presenceid d) (bytes_of_string user_id)) with
  | Ok n => Ok n
  | Err e => Err (PresenceDb e)
  | Panic => Panic
  end.
Definition get_presence_data d users user_id now : outcome PresenceError (Z * PresenceEvent) :=
  count ← presence_count d user_id;
  bytes ← ok_or PresenceNotFound (map_get (presenceid_presence d) (presenceid_key count user_id));
  presence ← ok_or InvalidPresence (of_json bytes);
  Ok (count, to_presence_event presence users user_id now).

Definition put_presence d user_id (last_count : option Z) (p : Presence) : Data :=
  let '(count, g) := next_count (presence_globals d) in
  let m := map_insert (presenceid_presence d) (presenceid_key count user_id) (to_json p) in
  let u := map_insert (userid_presenceid d) (bytes_of_string user_id) (u64_be count) in
  mkData (match last_count with Some c => map_remove m (presenceid_key c user_id) | None => m end) u g.

(** What is stored, unless the update is spam: the clock is read when the last presence is,
    and once more. *)
Definition next_presence (last_presence : option PresenceEvent) (presence_state : PresenceState)
    (currently_active : option bool) (last_active_ago : option Z) (status_msg : option string) now : option Presence :=
  let state_changed :=
    match last_presence with None => true | Some e => bool_decide (pe_presence e ≠ presence_state) end in
  let status_msg_changed :=
    match last_presence with
    | None => true
    | Some e => bool_decide (default EmptyString status_msg ≠ default EmptyString (pe_status_msg e))
    end in
  let last_last_active_ts :=
    match last_presence with
    | None => 0
    | Some e => sat_sub now (default 0 (pe_last_active_ago e))
    end in
  let last_active_ts := match last_active_ago with None => now | Some ago => sat_sub now ago end in
  if negb status_msg_changed && negb state_changed && bool_decide (last_active_ts < last_last_active_ts) then None
  else
    let status_msg := if bool_decide (status_msg = Some EmptyString) then None else status_msg in
    Some (mkPresence presence_state (default false currently_active) last_active_ts status_msg).

Definition set_presence_data d users user_id (presence_state : PresenceState) (currently_active : option bool)
    (last_active_ago : option Z) (status_msg : option string) (now1 now2 : Z) : outcome PresenceError Data :=
  match get_presence_data d users user_id now1 with
  | Panic => Panic
  | r =>
      let last_presence := match r with Ok (c, e) => Some (c, e) | _ => None end in
      match next_presence (snd <$> last_presence) presence_state currently_active last_active_ago status_msg now2 with
      | None => Ok d
      | Some presence => Ok (put_presence d user_id (fst <$> last_presence) presence)
      end
  end.

Definition remove_presence d user_id : outcome PresenceError Data :=
  match presence_count d user_id with
  | Ok count =>
      Ok (mkData (map_remove (presenceid_presence d) (presenceid_key count user_id))
            (map_remove (userid_presenceid d) (bytes_of_string user_id)) (presence_globals d))
  | Err _ => Ok d
  | Panic => Panic
  end.

(** All rows, in the order of the counts. *)
Definition presence_since d (since : Z) : list (string * Z * bytes) :=
  omap (λ kv : KeyVal,
          match presenceid_parse kv.1 with
          | Ok (count, user_id) => if bool_decide (since < count) then Some (user_id, count, kv.2) else None
          | _ => None
          end) (store_scan (presenceid_presence d)).

(** ** [mod.rs] *)

Record PresenceService := mkPresenceService {
  db : Data;
  (** Timers sent and not yet received, and those running, by the time they end. *)
  timer_channel : list (string * Z);
  presence_timers : list (string * Z);
  channel_closed : bool;
}.
Implicit Types (s : PresenceService).

Definition with_db s d : PresenceService := mkPresenceService d (timer_channel s) (presence_timers s) (channel_closed s).
Definition send_timer s (t : string * Z) : PresenceService * outcome PresenceError unit :=
  if channel_closed s then (s, Err TimerFailed)
  else (mkPresenceService (db s) (timer_channel s ++ [t]) (presence_timers s) (channel_closed s), Ok tt).

Definition get_presence s users user_id now : outcome PresenceError PresenceEvent :=
  snd <$> get_presence_data (db s) users user_id now.

Definition has_timer user_id : bool :=
  (timeout_remote_users || user_is_local user_id) && bool_decide (user_id ≠ server_user).

Definition set_presence s users user_id (st : PresenceState) (currently_active : option bool)
    (last_active_ago : option Z) (status_msg : option string) (now1 now2 : Z) : PresenceService * outcome PresenceError unit :=
  let presence_state := if state_is_empty st then Offline else st in
  match set_presence_data (db s) users user_id presence_state currently_active last_active_ago status_msg now1 now2 with
  | Ok d =>
      let s := with_db s d in
      if has_timer user_id then
        let timeout := match presence_state with Online => idle_timeout_s | _ => offline_timeout_s end in
        send_timer s (user_id, timeout)
      else (s, Ok tt)
  | Err e => (s, Err e)
  | Panic => (s, Panic)
  end.

Definition REFRESH_TIMEOUT : Z := 60 * 1000.
Definition ping_presence s users user_id (new_state : PresenceState) (now now1 now2 : Z)
    : PresenceService * outcome PresenceError unit :=
  match get_presence s users user_id now with
  | Panic => (s, Panic)
  | r =>
      let last_presence := match r with Ok e => Some e | _ => None end in
      let state_changed := match last_presence with None => true | Some e => bool_decide (pe_presence e ≠ new_state) end in
      let last_last_active_ago := match last_presence with None => 0 | Some e => default 0 (pe_last_active_ago e) end in
      if negb state_changed && bool_decide (last_last_active_ago < REFRESH_TIMEOUT) then (s, Ok tt)
      else
        let status_msg := match last_presence with Some e => pe_status_msg e | None => Some EmptyString end in
        set_presence s users user_id new_state (Some (bool_decide (new_state = Online))) (Some 0) status_msg now1 now2
  end.

(** At startup; errors are logged.  [times] are the readings of the clock, three a user. *)
Fixpoint unset_presences s users (names : list string) (times : nat → Z) : PresenceService :=
  match names with
  | [] => s
  | user_id :: names =>
      let s := match get_presence s users user_id (times 0%nat) with
               | Ok e =>
                   match pe_presence e with
                   | Unavailable | Online | Busy =>
                       (set_presence s users user_id Offline (Some false) (pe_last_active_ago e) (pe_status_msg e)
                          (times 1%nat) (times 2%nat)).1
                   | _ => s
                   end
               | _ => s
               end in
      unset_presences s users names (λ n, times (n + 3)%nat)
  end.
Definition unset_all_presence s users (times : nat → Z) : PresenceService :=
  unset_presences s users (list_local_users users) times.

(** The state after a timer, [None] when it stays. *)
Definition timed_out (presence_state : PresenceState) (last_active_ago : option Z) : option PresenceState :=
  match presence_state, last_active_ago with
  | Online, Some ago => if bool_decide (idle_timeout ≤ ago) then Some Unavailable else None
  | Unavailable, Some ago => if bool_decide (offline_timeout ≤ ago) then Some Offline else None
  | _, _ => None
  end.
Definition process_presence_timer s users user_id (now now1 now2 : Z) : PresenceService * outcome PresenceError unit :=
  match get_presence s users user_id now with
  | Ok e =>
      match timed_out (pe_presence e) (pe_last_active_ago e) with
      | Some new_state =>
          set_presence s users user_id new_state (Some false) (pe_last_active_ago e) (pe_status_msg e) now1 now2
      | None => (s, Ok tt)
      end
  | Err _ => (s, Ok tt)
  | Panic => (s, Panic)
  end.

(** The worker: it receives timers and, as they end, processes them. *)
Definition receive_timer s now : option PresenceService :=
  match timer_channel s with
  | [] => None
  | (user_id, timeout) :: rest =>
      Some (mkPresenceService (db s) rest (presence_timers s ++ [(user_id, now + timeout * 1000)]) (channel_closed s))
  end.
Definition fire_timer s users (i : nat) (now now1 now2 : Z) : option PresenceService :=
  match presence_timers s !! i with
  | Some (user_id, due) =>
      if bool_decide (due ≤ now) then
        let s := mkPresenceService (db s) (timer_channel s) (delete i (presence_timers s)) (channel_closed s) in
        Some (process_presence_timer s users user_id now now1 now2).1
      else None
  | None => None
  end.
Definition interrupt s : PresenceService := mkPresenceService (db s) (timer_channel s) (presence_timers s) true.
End presence.

Local Open Scope Z_scope.

Section props.
Context {DB : Type} `{Store DB}.
Context (to_json : Presence → bytes) (of_json : bytes → option Presence).
Context (valid_user_id : string → bool).
(** [serde_json] reads what it wrote. *)
Hypothesis json_round_trip : ∀ p, of_json (to_json p) = Some p.
Local Notation get_presence_data := (get_presence_data of_json).
Local Notation put_presence := (put_presence to_json).
Local Notation set_presence_data := (set_presence_data to_json of_json).
Implicit Types (d : Data (DB := DB)) (A : gmap string (Z * Presence)) (users : UserTable → DB) (u : string) (n now : Z) (p : Presence).

Record presence_wf d A : Prop := {
  pw_counter : is_u64 (counter (presence_globals d));
  pw_names u n p : A !! u = Some (n, p) → utf8 u ∧ valid_user_id u = true ∧ 1 ≤ n ≤ counter (presence_globals d);
  pw_users u : map_get (userid_presenceid d) (bytes_of_string u) = u64_be ∘ fst <$> A !! u;
  pw_rows k v : map_get (presenceid_presence d) k = Some v ↔ ∃ u n p, A !! u = Some (n, p) ∧ k = presenceid_key n u ∧ v = to_json p;
  pw_counts u u' n p p' : A !! u = Some (n, p) → A !! u' = Some (n, p') → u = u';
}.

Lemma presenceid_key_inj n u n' u' : is_u64 n → is_u64 n' → presenceid_key n u = presenceid_key n' u' → n = n' ∧ u = u'.
Proof.
  intros Hn Hn' E. apply app_inj_1 in E as [->%u64_be_inj ->%bytes_of_string_inj]; [done..|by rewrite !length_u64_be].
Qed.
Lemma pw_u64 d A u n p : presence_wf d A → A !! u = Some (n, p) → is_u64 n.
Proof. intros Hd Hu. apply (pw_names d A Hd) in Hu as (_ & _ & ?). pose proof (pw_counter d A Hd). unfold is_u64 in *. lia. Qed.

(** Reading *)
Lemma get_presence_refines d A users u now :
  presence_wf d A →
  get_presence_data d users u now
  = match A !! u with
    | Some (n, p) => Ok (n, to_presence_event p users u now)
    | None => Err (PresenceDb RequestNotFound)
    end.
Proof.
  intros Hd. unfold Presence.get_presence_data, presence_count. rewrite (pw_users d A Hd).
  destruct (A !! u) as [[n p]|] eqn:Hu; [|done]. cbn [fmap option_fmap option_map compose fst].
  rewrite deserialized_u64_be by by eapply pw_u64. cbn [mbind outcome_bind].
  assert (map_get (presenceid_presence d) (presenceid_key n u) = Some (to_json p)) as -> by (apply (pw_rows d A Hd); by exists u, n, p).
  cbn. by rewrite json_round_trip.
Qed.

(** Writing *)
Lemma put_presence_wf d A u p :
  presence_wf d A → utf8 u → valid_user_id u = true → counter (presence_globals d) < u64_max →
  presence_wf (put_presence d u (fst <$> A !! u) p) (<[u := (counter (presence_globals d) + 1, p)]> A)
  ∧ counter (presence_globals (put_presence d u (fst <$> A !! u) p)) = counter (presence_globals d) + 1.
Proof.
  intros Hd Hu Hv Hc. pose proof (pw_counter d A Hd) as Hcu. remember (counter (presence_globals d)) as c eqn:Ec.
  assert (is_u64 (c + 1)) as Hc1 by (unfold is_u64, u64_max in *; lia).
  unfold Presence.put_presence. rewrite next_count_spec by (by rewrite <- Ec). rewrite <- Ec. cbn [presence_globals counter].
  split; [|done]. assert (∀ u' n' p', A !! u' = Some (n', p') → 1 ≤ n' ≤ c) as Hle
    by (intros u' n' p' Hx; subst c; apply (pw_names d A Hd _ _ _ Hx)).
  split; cbn [presence_globals presenceid_presence userid_presenceid counter].
  - done.
  - intros u' n' p' [[-> [= <- <-]]|[Hne Hx]]%lookup_insert_Some; [unfold is_u64 in *; split_and!; [done..|lia|lia]|].
    destruct (pw_names d A Hd _ _ _ Hx) as (? & ? & ?). rewrite <- Ec in *. split_and!; [done..|lia|lia].
  - intros u'. rewrite map_get_insert. destruct (decide (u = u')) as [->|Hne].
    + by rewrite decide_True, lookup_insert_eq.
    + rewrite decide_False by (by intros ?%bytes_of_string_inj). rewrite lookup_insert_ne by done. apply (pw_users d A Hd).
  - intros k v. assert (map_get (presenceid_presence d) k = Some v ↔ ∃ u' n p', A !! u' = Some (n, p') ∧ k = presenceid_key n u' ∧ v = to_json p')
      as Hrow by apply (pw_rows d A Hd).
    transitivity (k = presenceid_key (c + 1) u ∧ v = to_json p
      ∨ ∃ u' n p', u' ≠ u ∧ A !! u' = Some (n, p') ∧ k = presenceid_key n u' ∧ v = to_json p').
    2: { split.
      - intros [[-> ->]|(u' & n & p' & Hne & Hx & -> & ->)]; [exists u, (c + 1), p|exists u', n, p']; split_and!; try done;
          [by rewrite lookup_insert_eq|by rewrite lookup_insert_ne].
      - intros (u' & n & p' & [[-> [= <- <-]]|[Hne Hx]]%lookup_insert_Some & -> & ->); [by left|right]. exists u', n, p'. split_and!; done || by apply not_eq_sym. }
    assert (∀ u' n p', A !! u' = Some (n, p') → presenceid_key (c + 1) u ≠ presenceid_key n u') as Hfresh.
    { intros u' n p' Hx [E _]%presenceid_key_inj; [|done|by eapply pw_u64]. specialize (Hle _ _ _ Hx). lia. }
    destruct (A !! u) as [[n0 p0]|] eqn:Hx; cbn [fmap option_fmap option_map fst].
    + unfold map_get, map_remove. rewrite store_get_delete. change (store_get ?m k) with (map_get m k).
      rewrite map_get_insert. case_bool_decide as E1; [|case_decide as E2].
      * subst k. split; [done|]. intros [[E _]|(u' & n & p' & Hne & Hx' & E & _)]; exfalso.
        -- by eapply Hfresh.
        -- apply presenceid_key_inj in E as [-> ->]; [done|by eapply pw_u64..].
      * subst k. split; [intros [= <-]; by left|]. intros [[_ ->]|(u' & n & p' & _ & Hx' & E & _)]; [done|]. by eapply Hfresh in Hx'.
      * rewrite Hrow. split.
        -- intros (u' & n & p' & Hx' & -> & ->). right. exists u', n, p'. split_and!; try done. intros ->. naive_solver.
        -- intros [[-> _]|(u' & n & p' & _ & ?)]; [done|eauto].
    + rewrite map_get_insert. case_decide as E2.
      * subst k. split; [intros [= <-]; by left|]. intros [[_ ->]|(u' & n & p' & _ & Hx' & E & _)]; [done|]. by eapply Hfresh in Hx'.
      * rewrite Hrow. split.
        -- intros (u' & n & p' & Hx' & -> & ->). right. exists u', n, p'. split_and!; try done. intros ->. congruence.
        -- intros [[-> _]|(u' & n & p' & _ & ?)]; [done|eauto].
  - intros u1 u2 n p1 p2 [[-> [= <- <-]]|[Hne1 Hx1]]%lookup_insert_Some [[<- E2]|[Hne2 Hx2]]%lookup_insert_Some; try done.
    + apply Hle in Hx2. lia.
    + injection E2 as <- <-. apply Hle in Hx1. lia.
    + by eapply (pw_counts d A Hd).
Qed.

(** What an update does to the map. *)
Definition stored_update A c users u (st : PresenceState) (active : option bool) (ago : option Z) (msg : option string)
    (now1 now2 : Z) : gmap string (Z * Presence) :=
  match next_presence ((λ x : Z * Presence, to_presence_event x.2 users u now1) <$> A !! u) st active ago msg now2 with
  | Some p => <[u := (c + 1, p)]> A
  | None => A
  end.

(** An update of a presence is an update of the map from users to presences: it
    succeeds, stores the new presence under a fresh count in place of the old one, of this
    user only, and leaves the map as it is when the update changes nothing and is older
    than the stored one. *)
Theorem set_presence_refines d A users u st active ago msg now1 now2 :
  presence_wf d A → utf8 u → valid_user_id u = true → counter (presence_globals d) < u64_max →
  ∃ d', set_presence_data d users u st active ago msg now1 now2 = Ok d'
    ∧ presence_wf d' (stored_update A (counter (presence_globals d)) users u st active ago msg now1 now2)
    ∧ counter (presence_globals d) ≤ counter (presence_globals d') ≤ counter (presence_globals d) + 1.
Proof.
  intros Hd Hu Hv Hc. unfold Presence.set_presence_data, stored_update. rewrite (get_presence_refines d A) by done.
  destruct (put_presence_wf d A u) with (p := mkPresence Offline false 0 None) as [_ _]; [done..|].
  destruct (A !! u) as [[n p0]|] eqn:Hx; cbn [fmap option_fmap option_map fst snd];
    (destruct (next_presence _ _ _ _ _ _) as [p|]; [|exists d; split; [done|]; split; [done|lia]]);
    destruct (put_presence_wf d A u p) as [Hw Hcnt]; try done; rewrite Hx in Hw, Hcnt; eexists; (split; [done|]);
    (split; [exact Hw|]); cbn [fmap option_fmap option_map fst] in Hcnt; lia.
Qed.

(** Reading presences since a count lists every user whose presence changed later, with
    the stored presence, in the order of the changes, and no one else. *)
Theorem presence_since_exact d A since :
  presence_wf d A →
  StronglySorted (λ x y, x.1.2 < y.1.2) (presence_since valid_user_id d since)
  ∧ ∀ u n b, (u, n, b) ∈ presence_since valid_user_id d since ↔ ∃ p, A !! u = Some (n, p) ∧ since < n ∧ b = to_json p.
Proof.
  intros Hd. assert (∀ u n p, A !! u = Some (n, p) → presenceid_parse valid_user_id (presenceid_key n u) = Ok (n, u)) as Hparse.
  { intros u n p Hx. destruct (pw_names d A Hd _ _ _ Hx) as (Hu & Hv & _). unfold presenceid_parse, presenceid_key.
    rewrite bool_decide_eq_false_2 by (rewrite length_app, length_u64_be; lia).
    rewrite (drop_app_length' (u64_be n)), (take_app_length' (u64_be n)) by by rewrite length_u64_be.
    rewrite string_of_bytes_of_string, Hv. unfold utf8 in Hu. rewrite Hu. cbn.
    assert (is_u64 n) as Hn by by eapply pw_u64. pose proof (u64_from_be n Hn) as E. unfold u64_from_bytes, u8x8_from_bytes in E.
    rewrite bool_decide_eq_true_2 in E by apply length_u64_be. cbn in E. by injection E as ->. }
  unfold presence_since. set (read := λ kv : KeyVal, _).
  assert (∀ k v, (k, v) ∈ store_scan (presenceid_presence d) ↔ ∃ u n p, A !! u = Some (n, p) ∧ k = presenceid_key n u ∧ v = to_json p) as Hrow.
  { intros k v. rewrite store_scan_spec. apply (pw_rows d A Hd). }
  assert (∀ u n p, A !! u = Some (n, p) → read (presenceid_key n u, to_json p)
    = if bool_decide (since < n) then Some (u, n, to_json p) else None) as Hread.
  { intros u n p Hx. unfold read. cbn [fst snd]. by rewrite (Hparse u n p Hx). }
  split.
  - apply (sorted_omap _ key_lt); [|apply store_scan_sorted].
    intros [k v] [k' v'] a b (u & n & p & Hx & -> & ->)%Hrow (u' & n' & p' & Hx' & -> & ->)%Hrow Hlt.
    rewrite (Hread _ _ _ Hx), (Hread _ _ _ Hx'). repeat case_bool_decide; try done. intros [= <-] [= <-]. cbn.
    unfold key_lt, bytes_lt, presenceid_key in Hlt. cbn [fst] in Hlt. destruct (decide (n = n')) as [->|Hne].
    + rewrite (pw_counts d A Hd _ _ _ _ _ Hx Hx'), bytes_cmp_refl in Hlt. done.
    + rewrite cmp_counts in Hlt; [by apply Z.compare_lt_iff|by eapply pw_u64..|done].
  - intros u n b. rewrite list_elem_of_omap. split.
    + intros ([k v] & (u' & n' & p & Hx & -> & ->)%Hrow & E). rewrite (Hread _ _ _ Hx) in E.
      case_bool_decide; [|done]. injection E as -> -> <-. by exists p.
    + intros (p & Hx & Hn & ->). exists (presenceid_key n u, to_json p). split; [apply Hrow; by exists u, n, p|].
      rewrite (Hread _ _ _ Hx). by rewrite bool_decide_eq_true_2.
Qed.
End props.
