(* ===== verification/PresenceTimers.v ===== *)
(** * The timers of presence

    The worker of [src/service/presence/mod.rs] as a step relation: clients and servers set
    presences, the worker receives timers and processes them as they end.  Whoever is online
    or idle has a timer pending that ends late enough to act, and without activity the timers
    run out: for users of this server, and for those whose presence was set since the start.
    A user of another server who was online when this one stopped has no timer. *)

From S2P Require Import Prelude Bytes DbMap DbSer DbScan Tables Short ShortProps AccountData Users DemoText Presence.

Local Open Scope Z_scope.

Section timers.
Context {DB : Type} `{Store DB}.
Context (to_json : Presence → bytes) (of_json : bytes → option Presence).
Context (valid_user_id user_is_local : string → bool) (server_user : string).
Context (timeout_remote_users : bool) (idle_timeout_s offline_timeout_s : Z).
Hypothesis json_round_trip : ∀ p, of_json (to_json p) = Some p.
(** The timeouts are numbers of seconds that a [UInt] can count in milliseconds. *)
Hypothesis idle_bounds : 0 ≤ idle_timeout idle_timeout_s ≤ UINT_MAX.
Hypothesis offline_bounds : 0 ≤ offline_timeout offline_timeout_s ≤ UINT_MAX.
(** Presences from before the start that nobody reset. *)
Context (stale : string → Z → Presence → Prop).
Local Notation presence_wf := (presence_wf to_json valid_user_id).
Local Notation has_timer := (has_timer user_is_local server_user timeout_remote_users).
Local Notation set_presence := (set_presence to_json of_json user_is_local server_user timeout_remote_users idle_timeout_s offline_timeout_s).
Local Notation ping_presence := (ping_presence to_json of_json user_is_local server_user timeout_remote_users idle_timeout_s offline_timeout_s).
Local Notation process_presence_timer := (process_presence_timer to_json of_json user_is_local server_user timeout_remote_users idle_timeout_s offline_timeout_s).
Local Notation fire_timer := (fire_timer to_json of_json user_is_local server_user timeout_remote_users idle_timeout_s offline_timeout_s).
Local Notation timed_out := (timed_out idle_timeout_s offline_timeout_s).
Local Notation unset_presences := (unset_presences to_json of_json user_is_local server_user timeout_remote_users idle_timeout_s offline_timeout_s).
Implicit Types (s : PresenceService (DB := DB)) (A : gmap string (Z * Presence)) (users : UserTable → DB) (u : string)
  (n clock now t : Z) (p : Presence) (st : PresenceState).

(** ** Steps *)

Inductive timer_step : Z * PresenceService (DB := DB) → Z * PresenceService (DB := DB) → Prop :=
  | StepReceive clock s now s' :
      clock ≤ now → receive_timer s now = Some s' → timer_step (clock, s) (now, s')
  | StepFire clock s users i t0 t1 t2 s' :
      clock ≤ t0 → t0 ≤ t1 → t1 ≤ t2 → counter (presence_globals (db s)) < u64_max →
      fire_timer s users i t0 t1 t2 = Some s' → timer_step (clock, s) (t2, s').
Inductive presence_step : Z * PresenceService (DB := DB) → Z * PresenceService (DB := DB) → Prop :=
  | StepTimer x y : timer_step x y → presence_step x y
  | StepSet clock s users u st active ago msg t1 t2 :
      clock ≤ t1 → t1 ≤ t2 → utf8 u → valid_user_id u = true → from_option (λ ago, 0 ≤ ago) True ago →
      counter (presence_globals (db s)) < u64_max →
      presence_step (clock, s) (t2, (set_presence s users u st active ago msg t1 t2).1)
  | StepPing clock s users u st t0 t1 t2 :
      clock ≤ t0 → t0 ≤ t1 → t1 ≤ t2 → utf8 u → valid_user_id u = true → counter (presence_globals (db s)) < u64_max →
      presence_step (clock, s) (t2, (ping_presence s users u st t0 t1 t2).1).

(** ** The invariant *)

(** How long after the last activity a state lasts. *)
Definition limit st : option Z :=
  match st with
  | Online => Some (idle_timeout idle_timeout_s)
  | Unavailable => Some (offline_timeout offline_timeout_s)
  | _ => None
  end.
(** A timer of the user that ends at [bound] or later. *)
Definition pending clock s u (bound : Z) : Prop :=
  (∃ t, (u, t) ∈ timer_channel s ∧ bound ≤ clock + t * 1000) ∨ ∃ due, (u, due) ∈ presence_timers s ∧ bound ≤ due.

(** The users of [exempt] are being processed. *)
Record timers_inv (exempt : string → Prop) clock s A : Prop := {
  ti_wf : presence_wf (db s) A;
  ti_open : channel_closed s = false;
  ti_clock : 0 ≤ clock;
  ti_past u n p : A !! u = Some (n, p) → last_active_ts p ≤ clock;
  ti_armed u n p l : A !! u = Some (n, p) → has_timer u = true → ¬ exempt u → ¬ stale u n p → limit (state p) = Some l →
    pending clock s u (last_active_ts p + l);
}.

Lemma pending_mono clock clock' s s' u b :
  clock ≤ clock' → (∀ x, x ∈ timer_channel s → x ∈ timer_channel s') → (∀ x, x ∈ presence_timers s → x ∈ presence_timers s') →
  pending clock s u b → pending clock' s' u b.
Proof.
  intros Hc Hch Ht [(t & Hin & Hb)|(due & Hin & Hb)]; [left|right]; eexists; (split; [by eauto|lia]).
Qed.

(** The update of [set_presence], stored or not, keeps the timers of the others and starts
    one for the user. *)
Lemma set_presence_inv E clock s A users u st active ago msg t1 t2 :
  timers_inv E clock s A → clock ≤ t1 → t1 ≤ t2 → utf8 u → valid_user_id u = true → from_option (λ ago, 0 ≤ ago) True ago →
  counter (presence_globals (db s)) < u64_max →
  let st' := if state_is_empty st then Offline else st in
  let next := next_presence ((λ x : Z * Presence, to_presence_event x.2 users u t1) <$> A !! u) st' active ago msg t2 in
  let s' := (set_presence s users u st active ago msg t1 t2).1 in
  timers_inv (λ x, E x ∧ (x = u → next = None)) t2 s'
    match next with Some p => <[u := (counter (presence_globals (db s)) + 1, p)]> A | None => A end
  ∧ presence_timers s' = presence_timers s
  ∧ timer_channel s' = timer_channel s ++ (if has_timer u then [(u, match st' with Online => idle_timeout_s | _ => offline_timeout_s end)] else [])
  ∧ counter (presence_globals (db s')) ≤ counter (presence_globals (db s)) + 1.
Proof.
  intros [Hw Ho Hc Hp Ha] H1 H2 Hu Hv Hago Hcnt. cbv zeta. unfold Presence.set_presence.
  set (st' := if state_is_empty st then Offline else st).
  destruct (set_presence_refines to_json of_json valid_user_id json_round_trip (db s) A users u st' active ago msg t1 t2)
    as (d' & -> & Hw' & Hcount); [done..|]. unfold stored_update in Hw'.
  set (next := next_presence _ _ _ _ _ _) in *.
  assert (∀ p, next = Some p → state p = st' ∧ last_active_ts p ≤ t2) as Hnext.
  { unfold next, next_presence. intros p. cbv zeta. match goal with |- context [if ?b then None else _] => destruct b end; [done|].
    intros [= <-]. cbn. split; [done|].
    destruct ago; cbn in *; unfold sat_sub; lia. }
  set (timer := match st' with Online => _ | _ => _ end).
  set (s' := (if has_timer u then _ else _).1).
  assert (db s' = d' ∧ presence_timers s' = presence_timers s ∧ channel_closed s' = false
    ∧ timer_channel s' = timer_channel s ++ (if has_timer u then [(u, timer)] else [])) as (Hdb & Ht & Hcl & Hch).
  { unfold s'. destruct (has_timer u); cbn; [unfold send_timer; cbn; rewrite Ho|rewrite app_nil_r]; by split_and!. }
  split; [|rewrite Hdb; split_and!; [done..|lia]]. split; [by rewrite Hdb|done|lia| |].
  - intros x n p Hx. destruct next as [q|]; [apply lookup_insert_Some in Hx as [[_ [= _ <-]]|[_ Hx]]; [by apply Hnext|]|];
      apply Hp in Hx; lia.
  - intros x n p l Hx Htm Hex Hstale Hl.
    assert ((x = u ∧ next = Some p) ∨ A !! x = Some (n, p) ∧ ¬ E x) as [[-> Hn]|[Hx' HE]].
    { destruct next as [q|]; [|right; split; [done|naive_solver]].
      apply lookup_insert_Some in Hx as [[-> [= _ ->]]|[Hne Hx]]; [by left|right]. split; [done|]. naive_solver. }
    + left. exists timer. rewrite Hch, Htm. split; [set_solver|]. destruct (Hnext p Hn) as [Est Hts].
      unfold limit in Hl. rewrite Est in Hl. unfold timer. destruct st'; try done; injection Hl as <-;
        unfold idle_timeout, offline_timeout; lia.
    + apply (pending_mono clock t2 s); [lia|rewrite Hch; set_solver|by rewrite Ht|by eapply Ha].
Qed.

Lemma timers_inv_weaken (E E' : string → Prop) clock clock' s A :
  (∀ u, E u → E' u) → clock ≤ clock' → timers_inv E clock s A → timers_inv E' clock' s A.
Proof.
  intros HE Hc [Hw Ho H0 Hp Ha]. split; [done|done|lia|intros u n p ?%Hp; lia|].
  intros u n p l Hx Ht HE' Hst Hl. apply (pending_mono clock clock' s); [done..|]. eapply Ha; eauto.
Qed.

(** A state times out when the limit has passed since the last activity. *)
Lemma timed_out_limit p users u t :
  last_active_ts p ≤ t →
  match timed_out (state p) (pe_last_active_ago (to_presence_event p users u t)) with
  | Some st => (∃ l, limit (state p) = Some l ∧ last_active_ts p + l ≤ t)
               ∧ (state p = Online ∧ st = Unavailable ∨ state p = Unavailable ∧ st = Offline)
  | None => ∀ l, limit (state p) = Some l → t < last_active_ts p + l
  end.
Proof.
  intros Hts. unfold Presence.timed_out, to_presence_event, uint_new_saturating, sat_sub, limit. cbn.
  destruct (state p); try (intros l [= <-]); try done; case_bool_decide; try (intros l [= <-]); try (split; [eexists; split; [done|]|auto]); lia.
Qed.

(** Activity levels, the sum of which timers lower. *)
Definition rank p : nat := match state p with Online => 2 | Unavailable => 1 | _ => 0 end.
Definition total A : nat := map_fold (λ _ (x : Z * Presence) acc, rank x.2 + acc)%nat 0%nat A.
Lemma total_insert A u x y : A !! u = Some x → (total (<[u := y]> A) + rank x.2 = total A + rank y.2)%nat.
Proof.
  intros Hx. unfold total. rewrite <- insert_delete_eq. rewrite <- (insert_delete_id A u x) at 2 by done.
  rewrite !map_fold_insert_L by (try (intros; lia); by rewrite lookup_delete_eq). cbn. lia.
Qed.
Definition measure s A : nat := (2 * length (timer_channel s) + length (presence_timers s) + 3 * total A)%nat.

Lemma receive_inv clock s A now s' :
  timers_inv (λ _, False) clock s A → clock ≤ now → receive_timer s now = Some s' →
  timers_inv (λ _, False) now s' A ∧ (measure s' A < measure s A)%nat.
Proof.
  intros [Hw Ho H0 Hp Ha] Hc Hr. unfold receive_timer in Hr. destruct (timer_channel s) as [|[u0 t0] rest] eqn:Ech; [done|].
  injection Hr as <-. split.
  - split; [done|done|lia|intros u n p ?%Hp; lia|]. intros u n p l Hx Ht HE Hst Hl.
    destruct (Ha u n p l Hx Ht HE Hst Hl) as [(t & Hin & Hb)|(due & Hin & Hb)].
    + rewrite Ech in Hin. apply elem_of_cons in Hin as [[= -> ->]|Hin].
      * right. eexists. split; [apply elem_of_app; right; by left|]. lia.
      * left. exists t. split; [done|lia].
    + right. exists due. split; [apply elem_of_app; by left|done].
  - unfold measure. cbn. rewrite Ech, length_app. cbn. lia.
Qed.

Lemma elem_of_delete_ne {T} (l : list T) i x y : l !! i = Some y → x ≠ y → x ∈ l → x ∈ delete i l.
Proof.
  revert i. induction l as [|z l IH]; intros [|i] Hi Hne Hx; cbn in *; try done.
  - injection Hi as ->. by apply elem_of_cons in Hx as [->|?].
  - apply elem_of_cons in Hx as [->|Hx]; [by left|right]. by apply IH.
Qed.

Lemma fire_inv clock s A users i t0 t1 t2 s' :
  timers_inv (λ _, False) clock s A → clock ≤ t0 → t0 ≤ t1 → t1 ≤ t2 → counter (presence_globals (db s)) < u64_max →
  fire_timer s users i t0 t1 t2 = Some s' →
  ∃ A', timers_inv (λ _, False) t2 s' A' ∧ (measure s' A' < measure s A)%nat.
Proof.
  intros Hi Hc0 Hc1 Hc2 Hcnt Hf. unfold Presence.fire_timer in Hf. destruct (presence_timers s !! i) as [[u due]|] eqn:Et; [|done].
  case_bool_decide as Hdue; [|done]. injection Hf as <-.
  set (s0 := mkPresenceService _ _ _ _).
  assert (length (presence_timers s0) < length (presence_timers s))%nat as Hlen.
  { cbn. rewrite length_delete by by eexists. apply lookup_lt_Some in Et. lia. }
  set (over := ∃ n p l, A !! u = Some (n, p) ∧ limit (state p) = Some l ∧ last_active_ts p + l ≤ t0).
  assert (timers_inv (λ x, x = u ∧ over) t0 s0 A) as [Hw Ho H0 Hp Ha].
  { destruct Hi as [Hw Ho H0 Hp Ha]. split; [done|done|lia|intros x n p ?%Hp; lia|].
    intros x n p l Hx Ht Hex Hst Hl. destruct (Ha x n p l Hx Ht (λ e, e) Hst Hl) as [(t & Hin & Hb)|(due' & Hin & Hb)]; [left; exists t; split; [done|lia]|].
    right. exists due'. split; [|done]. cbn. apply (elem_of_delete_ne _ _ _ _ Et); [|done]. intros [= -> ->].
    apply Hex. split; [done|]. exists n, p, l. split_and!; [done..|lia]. }
  unfold Presence.process_presence_timer, get_presence. rewrite (get_presence_refines to_json of_json valid_user_id json_round_trip _ A) by done.
  destruct (A !! u) as [[n p]|] eqn:Hx; cbn [fmap outcome_fmap snd].
  2: { exists A. split; [|unfold measure; cbn in *; lia]. apply (timers_inv_weaken (λ x, x = u ∧ over) _ t0); [|lia|by split].
       intros x [_ (? & ? & ? & ? & _)]. congruence. }
  pose proof (timed_out_limit p users u t0 (Hp _ _ _ Hx)) as Hto. cbn [pe_presence to_presence_event].
  destruct (timed_out _ _) as [st|].
  - destruct Hto as [_ Hst]. destruct (pw_names _ _ _ _ Hw _ _ _ Hx) as (Hu & Hv & _).
    assert (Hinv : timers_inv (λ x, x = u ∧ over) t0 s0 A) by by split.
    destruct (set_presence_inv _ _ _ _ users u st (Some false) (pe_last_active_ago (to_presence_event p users u t0))
      (pe_status_msg (to_presence_event p users u t0)) t1 t2 Hinv) as (Hres & Ht & Hch & _); [lia|lia|done|done| |done|].
    { cbn. unfold uint_new_saturating, sat_sub, UINT_MAX. lia. }
    rewrite Hx in Hres. cbn [fmap option_fmap option_map snd] in Hres.
    assert ((if state_is_empty st then Offline else st) = st) as Est by by destruct Hst as [[_ ->]|[_ ->]].
    rewrite Est in Hres, Hch. destruct (next_presence _ st _ _ _ _) as [q|] eqn:Hq.
    2: { exfalso. unfold next_presence in Hq. cbv zeta in Hq. cbn [pe_presence to_presence_event] in Hq.
         rewrite (bool_decide_eq_true_2 (state p ≠ st)) in Hq by (by destruct Hst as [[-> ->]|[-> ->]]).
         by rewrite andb_false_r in Hq. }
    eexists. split; [eapply timers_inv_weaken; [|reflexivity|exact Hres]; naive_solver|].
    assert (rank q < rank p)%nat as Hrank.
    { unfold next_presence in Hq. cbv zeta in Hq. match type of Hq with (if ?b then _ else _) = _ => destruct b end; [done|].
      injection Hq as <-. unfold rank. cbn. destruct Hst as [[-> ->]|[-> ->]]; lia. }
    pose proof (total_insert A u _ (counter (presence_globals (db s0)) + 1, q) Hx) as Htot. cbn [snd] in Htot.
    unfold measure. rewrite Ht, Hch, length_app. destruct (has_timer u); cbn in *; lia.
  - exists A. split; [|unfold measure; cbn in *; lia]. apply (timers_inv_weaken (λ x, x = u ∧ over) _ t0); [|lia|by split].
    intros x [_ (n' & p' & l & Hx' & Hl & Hle)]. injection Hx' as <- <-. specialize (Hto l Hl). lia.
Qed.

Lemma timer_step_inv x y A :
  timers_inv (λ _, False) x.1 x.2 A → timer_step x y →
  ∃ A', timers_inv (λ _, False) y.1 y.2 A' ∧ (measure y.2 A' < measure x.2 A)%nat.
Proof.
  intros Hi Hs. destruct Hs as [clock s now s' Hc Hr|clock s users i t0 t1 t2 s' ???? Hf]; cbn in *.
  - exists A. by eapply receive_inv.
  - by eapply fire_inv.
Qed.
Lemma presence_step_inv x y A :
  timers_inv (λ _, False) x.1 x.2 A → presence_step x y → ∃ A', timers_inv (λ _, False) y.1 y.2 A'.
Proof.
  intros Hi Hs. destruct Hs as [x y Hs|clock s users u st active ago msg t1 t2 ?? Hu Hv Hago Hcnt|clock s users u st t0 t1 t2 ??? Hu Hv Hcnt];
    cbn [fst snd] in *.
  - destruct (timer_step_inv x y A Hi Hs) as (A' & ? & _). by exists A'.
  - destruct (set_presence_inv _ _ _ _ users u st active ago msg t1 t2 Hi) as (Hres & _); [done..|].
    eexists. eapply timers_inv_weaken; [|reflexivity|exact Hres]. naive_solver.
  - unfold Presence.ping_presence. assert (timers_inv (λ _, False) t2 s A) as Hstay by (apply (timers_inv_weaken (λ _, False) _ clock); [done|lia|exact Hi]).
    assert (∀ m, ∃ A', timers_inv (λ _, False) t2 (set_presence s users u st (Some (bool_decide (st = Online))) (Some 0) m t1 t2).1 A') as Hset.
    { intros m. destruct (set_presence_inv _ _ _ _ users u st (Some (bool_decide (st = Online))) (Some 0) m t1 t2 Hi) as (Hres & _);
        [lia|done|done|done|done|done|]. eexists. eapply timers_inv_weaken; [|reflexivity|exact Hres]. naive_solver. }
    destruct (get_presence of_json s users u t0) as [e|err|]; [| |by exists A];
      match goal with |- context [if ?b then _ else _] => destruct b end; by eauto.
Qed.

Lemma reachable_inv clock s A clock' s' :
  timers_inv (λ _, False) clock s A → rtc presence_step (clock, s) (clock', s') → ∃ A, timers_inv (λ _, False) clock' s' A.
Proof.
  intros Hi Hr.
  assert (∃ A, timers_inv (λ _, False) (clock, s).1 (clock, s).2 A) as Hi' by eauto.
  change (∃ A, timers_inv (λ _, False) (clock', s').1 (clock', s').2 A). clear Hi. revert Hi'.
  induction Hr as [x|x y z Hs _ IH]; intros Hi; [done|]. destruct Hi as [A' Hi]. apply IH. by eapply presence_step_inv.
Qed.

(** Resetting a presence ends the exemption of its user. *)
Lemma unset_one (names : list string) users clock s A u ago msg t1 t2 p n :
  timers_inv (λ x, x ∈ u :: names) clock s A → A !! u = Some (n, p) → state p ≠ Offline →
  clock ≤ t1 → t1 ≤ t2 → from_option (λ ago, 0 ≤ ago) True ago → counter (presence_globals (db s)) < u64_max →
  let s' := (set_presence s users u Offline (Some false) ago msg t1 t2).1 in
  ∃ A', timers_inv (λ x, x ∈ names) t2 s' A' ∧ counter (presence_globals (db s')) ≤ counter (presence_globals (db s)) + 1.
Proof.
  intros Hi Hx Hst H1 H2 Hago Hcnt. destruct (pw_names _ _ _ _ (ti_wf _ _ _ _ Hi) _ _ _ Hx) as (Hu & Hv & _).
  destruct (set_presence_inv _ _ _ _ users u Offline (Some false) ago msg t1 t2 Hi) as (Hres & _ & _ & Hcount); [done..|].
  change (state_is_empty Offline) with false in Hres. cbv beta iota zeta in Hres.
  eexists. split; [|exact Hcount]. eapply timers_inv_weaken; [|reflexivity|exact Hres].
  intros x [[->|?]%elem_of_cons Hnext]; [|done]. exfalso. specialize (Hnext eq_refl). revert Hnext. rewrite Hx.
  unfold next_presence. cbn [fmap option_fmap option_map snd]. cbv zeta. cbn [pe_presence to_presence_event].
  rewrite (bool_decide_eq_true_2 (state p ≠ Offline)) by done. by rewrite andb_false_r.
Qed.
Lemma unset_presences_inv (names : list string) (times : nat → Z) users clock s A :
  timers_inv (λ u, u ∈ names) clock s A → clock ≤ times 0%nat → (∀ k, times k ≤ times (S k)) →
  counter (presence_globals (db s)) + Z.of_nat (length names) < u64_max →
  ∃ clock' A', timers_inv (λ _, False) clock' (unset_presences s users names times) A' ∧ clock' ≤ times (3 * length names)%nat.
Proof.
  revert times clock s A. induction names as [|u names IH]; intros times clock s A Hi Hc Hmono Hcnt.
  { exists clock, A. split; [|cbn; lia]. eapply timers_inv_weaken; [|reflexivity|exact Hi]. by intros u ?%not_elem_of_nil. }
  cbn [Presence.unset_presences]. pose proof (Hmono 0%nat). pose proof (Hmono 1%nat). pose proof (Hmono 2%nat).
  assert ((∀ n p, A !! u = Some (n, p) → limit (state p) = None) →
    ∃ A1, timers_inv (λ x, x ∈ names) (times 2%nat) s A1 ∧ counter (presence_globals (db s)) ≤ counter (presence_globals (db s)) + 1) as Hsame.
  { intros Hskip. exists A. split; [|lia]. destruct Hi as [Hw Ho Hz Hp Ha].
    split; [done|done|lia|intros x n p ?%Hp; lia|]. intros x n p l Hx Ht Hex Hst Hl.
    apply (pending_mono clock (times 2%nat) s); [lia|done..|]. apply (Ha x n p l Hx Ht); [|done..].
    intros [->|?]%elem_of_cons; [|done]. by rewrite (Hskip n p Hx) in Hl. }
  set (s1 := match get_presence of_json s users u (times 0%nat) with Ok _ => _ | _ => _ end).
  assert (∃ A1, timers_inv (λ x, x ∈ names) (times 2%nat) s1 A1
    ∧ counter (presence_globals (db s1)) ≤ counter (presence_globals (db s)) + 1) as (A1 & Hi1 & Hc1).
  { unfold s1, get_presence. rewrite (get_presence_refines to_json of_json valid_user_id json_round_trip _ A) by apply Hi.
    destruct (A !! u) as [[n p]|] eqn:Hx; cbn [fmap outcome_fmap snd]; [|by apply Hsame].
    assert (from_option (λ ago, 0 ≤ ago) True (pe_last_active_ago (to_presence_event p users u (times 0%nat)))) as Hago
      by (cbn; unfold uint_new_saturating, sat_sub, UINT_MAX; lia).
    cbn [pe_presence to_presence_event]. destruct (state p) eqn:Est.
    1, 5: apply Hsame; intros n' p' [= <- <-]; by rewrite Est.
    all: eapply unset_one; [exact Hi|exact Hx|by rewrite Est|lia|lia|done|cbn in Hcnt; lia]. }
  destruct (IH (λ k, times (k + 3)%nat) (times 2%nat) s1 A1) as (clock' & A' & Hi' & Hle); [done|done|intros n; apply Hmono|cbn in Hcnt; lia|].
  exists clock', A'. split; [exact Hi'|]. replace (3 * length (u :: names))%nat with (3 * length names + 3)%nat by (cbn; lia). exact Hle.
Qed.

Lemma timer_run_bound k x y A : nsteps timer_step k x y → timers_inv (λ _, False) x.1 x.2 A → (k ≤ measure x.2 A)%nat.
Proof.
  intros Hk. revert A. induction Hk as [|k x y z Hxy _ IH]; intros A Hi; [lia|].
  destruct (timer_step_inv x y A Hi Hxy) as (A' & Hi' & Hm). specialize (IH A' Hi'). lia.
Qed.

End timers.

(** ** From the start of the server *)

#[export] Instance presence_eq_dec : EqDecision Presence.
Proof. solve_decision. Defined.

Section restart.
Context {DB : Type} `{Store DB}.
Context (to_json : Presence → bytes) (of_json : bytes → option Presence).
Context (valid_user_id user_is_local : string → bool) (server_user : string).
Context (timeout_remote_users : bool) (idle_timeout_s offline_timeout_s : Z).
Hypothesis json_round_trip : ∀ p, of_json (to_json p) = Some p.
Hypothesis idle_bounds : 0 ≤ idle_timeout idle_timeout_s ≤ UINT_MAX.
Hypothesis offline_bounds : 0 ≤ offline_timeout offline_timeout_s ≤ UINT_MAX.
Local Notation presence_wf := (presence_wf to_json valid_user_id).
Local Notation has_timer := (has_timer user_is_local server_user timeout_remote_users).
Local Notation limit := (limit idle_timeout_s offline_timeout_s).
Local Notation timer_step := (timer_step to_json of_json user_is_local server_user timeout_remote_users idle_timeout_s offline_timeout_s).
Local Notation presence_step := (presence_step to_json of_json valid_user_id user_is_local server_user timeout_remote_users idle_timeout_s offline_timeout_s).
Local Notation unset_all_presence := (unset_all_presence to_json of_json user_is_local server_user timeout_remote_users idle_timeout_s offline_timeout_s).
Implicit Types (s : PresenceService (DB := DB)) (A : gmap string (Z * Presence)) (users : UserTable → DB) (u : string)
  (n clock now t : Z) (p : Presence).

(** The presences stored when the server starts, the clock while it resets them, and the time
    when that is done. *)
Record starts users A s (times : nat → Z) clock : Prop := {
  st_wf : presence_wf (db s) A;
  st_open : channel_closed s = false;
  st_zero : 0 ≤ times 0%nat;
  st_times k : times k ≤ times (S k);
  st_past u n p : A !! u = Some (n, p) → last_active_ts p ≤ times 0%nat;
  st_done : times (3 * length (list_local_users users))%nat ≤ clock;
  st_counter : counter (presence_globals (db s)) + Z.of_nat (length (list_local_users users)) < u64_max;
}.
(** A presence from before the start, of a user whom the start does not reset: one of another
    server, or without a password. *)
Definition left_over users A u n p : Prop := A !! u = Some (n, p) ∧ u ∉ list_local_users users.
Local Notation timers_inv users A := (timers_inv to_json valid_user_id user_is_local server_user timeout_remote_users idle_timeout_s offline_timeout_s
  (left_over users A) (λ _, False)).

Lemma started_inv users A s times clock :
  starts users A s times clock → ∃ A', timers_inv users A clock (unset_all_presence s users times) A'.
Proof.
  intros [Hw Ho H0 Hmono Hp Hdone Hcnt].
  destruct (unset_presences_inv to_json of_json valid_user_id user_is_local server_user timeout_remote_users idle_timeout_s offline_timeout_s
    json_round_trip idle_bounds offline_bounds (left_over users A) (list_local_users users) times users (times 0%nat) s A)
    as (clock' & A' & Hi & Hle); [|done..|].
  - split; [done|done|done|done|]. intros u n p l Hx _ Hex Hst. by destruct Hst.
  - exists A'. eapply timers_inv_weaken; [|etrans; [exact Hle|exact Hdone]|exact Hi]. done.
Qed.
Lemma reached_inv users A s times clock clock' s' :
  starts users A s times clock → rtc presence_step (clock, unset_all_presence s users times) (clock', s') →
  ∃ A', timers_inv users A clock' s' A'.
Proof.
  intros (A1 & Hi1)%started_inv Hr. eapply reachable_inv; [exact json_round_trip|done|done|exact Hi1|exact Hr].
Qed.

(** C28: from whatever presences were stored when the server started, in every state the
    service reaches after it reset those of its own users: a watched user whose presence is
    online or idle has a timer, sent or running, that does not end before the timeout has
    passed since the user's last activity, so that the presence changes when it ends; or the
    presence is still the one from before the start, of a user whom the start does not reset,
    like one of another server. *)
Theorem online_users_have_timers users A s times clock clock' s' :
  starts users A s times clock → rtc presence_step (clock, unset_all_presence s users times) (clock', s') →
  ∃ A', presence_wf (db s') A'
    ∧ ∀ u n p l, A' !! u = Some (n, p) → has_timer u = true → limit (state p) = Some l →
        pending clock' s' u (last_active_ts p + l) ∨ left_over users A u n p.
Proof.
  intros Hs Hr. destruct (reached_inv _ _ _ _ _ _ _ Hs Hr) as (A' & [Hw _ _ _ Ha]).
  exists A'. split; [done|]. intros u n p l Hx Ht Hl.
  destruct (decide (A !! u = Some (n, p) ∧ u ∉ list_local_users users)) as [?|Hn]; [by right|left].
  apply (Ha u n p l Hx Ht); [by intros []|exact Hn|exact Hl].
Qed.

(** C29: without activity the timers run out: the worker takes a bounded number of steps from
    any reachable state, a waiting timer can always be received, and when none is left no
    watched user is online or idle but those whose presence is from before the start and was
    not reset. *)
Theorem timers_run_out users0 A s times clock clock' s' :
  starts users0 A s times clock → rtc presence_step (clock, unset_all_presence s users0 times) (clock', s') →
  (∃ bound, ∀ k y, nsteps timer_step k (clock', s') y → (k ≤ bound)%nat)
  ∧ (timer_channel s' ≠ [] → ∃ y, timer_step (clock', s') y)
  ∧ (timer_channel s' = [] → presence_timers s' = [] →
      ∀ users u now e, has_timer u = true → get_presence of_json s' users u now = Ok e →
        pe_presence e ≠ Online ∧ pe_presence e ≠ Unavailable
        ∨ ∃ n p, left_over users0 A u n p ∧ e = to_presence_event p users u now).
Proof.
  intros Hs Hr. destruct (reached_inv _ _ _ _ _ _ _ Hs Hr) as (A' & Hi). split; [|split].
  - exists (measure s' A'). intros k y Hk. eapply (timer_run_bound to_json of_json valid_user_id user_is_local server_user timeout_remote_users idle_timeout_s offline_timeout_s
      json_round_trip idle_bounds offline_bounds _ k (clock', s') y A' Hk Hi).
  - intros Hne. destruct (timer_channel s') as [|[u t] rest] eqn:E; [done|]. eexists. eapply StepReceive; [reflexivity|].
    unfold receive_timer. by rewrite E.
  - intros Hch Ht users u now e Hu. unfold get_presence.
    rewrite (get_presence_refines to_json of_json valid_user_id json_round_trip _ A') by apply Hi.
    destruct (A' !! u) as [[n p]|] eqn:Hx; [|done]. cbn [fmap outcome_fmap snd]. intros [= <-].
    destruct (decide (A !! u = Some (n, p) ∧ u ∉ list_local_users users0)) as [?|Hn]; [right; by exists n, p|left]. cbn.
    destruct (limit (state p)) as [l|] eqn:Hl; [|by destruct (state p)]. exfalso.
    destruct Hi as [_ _ _ _ Ha]. destruct (Ha u n p l Hx Hu (λ x, x) Hn Hl) as [(? & Hin & _)|(? & Hin & _)];
      rewrite ?Hch, ?Ht in Hin; by apply not_elem_of_nil in Hin.
Qed.
End restart.

(** ** A user who comes online and goes away *)

Module PresenceDemo.
Definition state_code (st : PresenceState) : nat * string :=
  match st with
  | Offline => (0%nat, "") | Online => (1%nat, "") | Unavailable => (2%nat, "") | Busy => (3%nat, "") | CustomState s => (4%nat, s)
  end.
Definition code_state (x : nat * string) : option PresenceState :=
  match x.1 with
  | 0%nat => Some Offline | 1%nat => Some Online | 2%nat => Some Unavailable | 3%nat => Some Busy | _ => Some (CustomState x.2)
  end.
#[export] Instance state_countable : Countable PresenceState.
Proof. by refine (inj_countable state_code code_state _); intros []. Defined.
#[export] Instance presence_countable : Countable Presence.
Proof.
  by refine (inj_countable' (λ p, (state p, currently_active p, last_active_ts p, status_msg p))
    (λ x, mkPresence x.1.1.1 x.1.1.2 x.1.2 x.2) _); intros [].
Defined.
Abbreviation json := (any_text (A := Presence)).
Abbreviation unjson := (read_any (A := Presence)).
Abbreviation DB := (gmap bytes bytes).
Definition yes (u : string) : bool := true.
Definition nobody : UserTable → DB := λ _, ∅.
Definition fresh : PresenceService (DB := DB) := mkPresenceService (mkData ∅ ∅ (mkGlobals ∅ 0)) [] [] false.

Lemma empty_wf : presence_wf json yes (db fresh) ∅.
Proof.
  split; cbn.
  - unfold is_u64. lia.
  - intros u n p Hx. by rewrite lookup_empty in Hx.
  - intros u. by rewrite !lookup_empty.
  - intros k v. split; [intros Hk; cbn in Hk; by rewrite lookup_empty in Hk|].
    intros (u & n & p & Hx & _). by rewrite lookup_empty in Hx.
  - intros u u' n p p' Hx. by rewrite lookup_empty in Hx.
Qed.
Definition at_1000 (k : nat) : Z := 1000.
Lemma fresh_started : starts json yes nobody ∅ fresh at_1000 1000.
Proof.
  split; try done; try apply empty_wf; try (cbn; unfold at_1000; lia).
Qed.

Definition set s st t := (set_presence json unjson yes "@server:s" false 5 5 s nobody "@a:s" st None None None t t).1.
Definition online : PresenceService (DB := DB) := set fresh Online 1000.
Lemma went_online : rtc (presence_step json unjson yes yes "@server:s" false 5 5) (1000, unset_all_presence json unjson yes "@server:s" false 5 5 fresh nobody at_1000) (1000, online).
Proof. change (unset_all_presence json unjson yes "@server:s" false 5 5 fresh nobody at_1000) with fresh. apply rtc_once. by apply StepSet. Qed.

Lemma set_presence_refines_witness :
  ∃ d', set_presence_data json unjson (db fresh) nobody "@a:s" Online None None None 1000 1000 = Ok d'
    ∧ presence_wf json yes d' {["@a:s" := (1, mkPresence Online false 1000 None)]}.
Proof.
  destruct (set_presence_refines json unjson yes read_any_text (db fresh) ∅ nobody "@a:s" Online None None None 1000 1000 empty_wf)
    as (d' & E & Hw & _); [reflexivity|reflexivity|reflexivity|].
  exists d'. split; [exact E|exact Hw].
Defined.

Lemma presence_since_exact_witness :
  presence_since yes (db online) 0 = [("@a:s", 1, json (mkPresence Online false 1000 None))]
  ∧ StronglySorted (λ x y, x.1.2 < y.1.2) (presence_since yes (db online) 0).
Proof.
  destruct (set_presence_refines json unjson yes read_any_text (db fresh) ∅ nobody "@a:s" Online None None None 1000 1000 empty_wf)
    as (d' & E & Hw & _); [reflexivity|reflexivity|reflexivity|].
  split; [vm_compute; reflexivity|].
  assert (db online = d') as ->.
  { unfold online, set, set_presence. change (if state_is_empty Online then Offline else Online) with Online.
    rewrite E. reflexivity. }
  apply (presence_since_exact json yes d' _ 0 Hw).
Defined.

Lemma online_users_have_timers_witness :
  ∃ A, presence_wf json yes (db online) A ∧ ∀ n p l, A !! "@a:s" = Some (n, p) → limit 5 5 (state p) = Some l →
    pending 1000 online "@a:s" (last_active_ts p + l).
Proof.
  destruct (online_users_have_timers json unjson yes yes "@server:s" false 5 5 read_any_text ltac:(by split) ltac:(by split)
    nobody ∅ fresh at_1000 1000 1000 online fresh_started went_online) as (A & Hw & Ha).
  exists A. split; [exact Hw|]. intros n p l Hx Hl. destruct (Ha "@a:s" n p l Hx eq_refl Hl) as [Hp|[Hn _]]; [exact Hp|].
  rewrite lookup_empty in Hn. discriminate Hn.
Defined.

(** Five seconds later idle, ten seconds later offline, and no timer is left but one that does nothing. *)
Definition later : option (PresenceService (DB := DB)) :=
  s ← receive_timer online 1000; s ← fire_timer json unjson yes "@server:s" false 5 5 s nobody 0 6000 6000 6000;
  s ← receive_timer s 6000; s ← fire_timer json unjson yes "@server:s" false 5 5 s nobody 0 11000 11000 11000;
  s ← receive_timer s 11000; fire_timer json unjson yes "@server:s" false 5 5 s nobody 0 16000 16000 16000.
Lemma timers_run_out_witness :
  (∃ s', later = Some s' ∧ timer_channel s' = [] ∧ presence_timers s' = []
    ∧ pe_presence <$> get_presence unjson s' nobody "@a:s" 16000 = Ok Offline)
  ∧ ∃ bound, ∀ k y, nsteps (timer_step json unjson yes "@server:s" false 5 5) k (1000, online) y → (k ≤ bound)%nat.
Proof.
  split.
  - assert (match later with Some s' => timer_channel s' = [] ∧ presence_timers s' = []
      ∧ pe_presence <$> get_presence unjson s' nobody "@a:s" 16000 = Ok Offline | None => False end) as Hl
      by (vm_compute; split_and!; reflexivity).
    revert Hl. generalize later as o. intros [s'|] Hl; [|destruct Hl]. exists s'. split; [reflexivity|exact Hl].
  - apply (timers_run_out json unjson yes yes "@server:s" false 5 5 read_any_text ltac:(by split) ltac:(by split)
      nobody ∅ fresh at_1000 1000 1000 online fresh_started went_online).
Defined.

(** A user of another server who is online when this one stops is so for ever: at the next
    start nothing resets the presence, and no timer watches it, though remote users are watched. *)
Definition not_here (u : string) : bool := false.
Definition before : PresenceService (DB := DB) :=
  (set_presence json unjson not_here "@server:s" true 5 5 fresh nobody "@r:b" Online None None None 1000 1000).1.
Definition restarted : PresenceService (DB := DB) :=
  unset_all_presence json unjson not_here "@server:s" true 5 5 (mkPresenceService (db before) [] [] false) nobody at_1000.
Example remote_user_stays_online :
  has_timer not_here "@server:s" true "@r:b" = true ∧ timer_channel before = [("@r:b", 5)]
  ∧ timer_channel restarted = [] ∧ presence_timers restarted = []
  ∧ pe_presence <$> get_presence unjson restarted nobody "@r:b" 1000000 = Ok Online.
Proof. vm_compute. by split_and!. Qed.
End PresenceDemo.
