(* ===== verification/CurrentState.v ===== *)
(** * The current state of a room and what it allows

    Models [src/service/rooms/state_accessor/]: [room_state.rs] and the getters of [mod.rs]
    (the state a room is in now), [user_can.rs] and [server_can.rs] (who may redact and see
    events); [get_room_version] and [get_auth_events] of [src/service/rooms/state/mod.rs];
    and [redacts_id] of [src/core/matrix/event/redact.rs].

    * What the current state promises

    [get_auth_events] is enough of the current state to authorize an event against it; and
    the queries of who may see an event answer by the state before the event. *)

From S2P Require Import Prelude Bytes DbMap DbSer Short ShortProps RoomVersion Event EventAuth AuthContext StateRes StateCompressor CompressorProps.
From S2P Require Import RoomState StateAccessor RoomStateProps RoomStateRefine StateAccessorProps StateCache.

Local Open Scope Z_scope.

Abbreviation RoomHistoryVisibility := (OtherType "m.room.history_visibility") (only parsing).
Abbreviation RoomGuestAccess := (OtherType "m.room.guest_access") (only parsing).
Abbreviation RoomEncryption := (OtherType "m.room.encryption") (only parsing).
Abbreviation RoomServerAcl := (OtherType "m.room.server_acl") (only parsing).

Inductive HistoryVisibility :=
  | VisibleInvited | VisibleJoined | VisibleShared | VisibleWorldReadable
  | VisibleCustom (name : string).
#[export] Instance HistoryVisibility_eq_dec : EqDecision HistoryVisibility.
Proof. solve_decision. Defined.

(** [RoomCreateEventContent]: the fields the code reads. *)
Record CreateContent := mkCreateContent {
  cc_room_version : RoomVersionId;
  cc_additional_creators : option (list UserId);
}.
Record AclContent := mkAclContent { acl_allow : list string; acl_deny : list string }.

(** More decoders of ruma and serde, and the tests of ruma on its types. *)
Class RoomContents (Content : Type) := {
  from_CreateContent : Content → option CreateContent;
  from_HistoryVisibility : Content → option HistoryVisibility;
  (** whether the guest access is [CanJoin] *)
  from_GuestAccess : Content → option bool;
  from_Redaction : Content → option (option EventId);
  from_Acl : Content → option AclContent;
  acl_is_allowed : AclContent → ServerName → bool;
  user_can_redact_event_of_other : RoomPowerLevelsEventContent → UserId → bool;
  user_can_redact_own_event : RoomPowerLevelsEventContent → UserId → bool;
}.

(** [redacts_id]: the field moved into the content in version 11. *)
Definition redacts_in_event (room_version : RoomVersionId) : bool :=
  match room_version with
  | V1 | V2 | V3 | V4 | V5 | V6 | V7 | V8 | V9 | V10 => true
  | _ => false
  end.
Definition redacts_id {Content} `{RoomContents Content} (event : Pdu Content) (room_version : RoomVersionId) : option EventId :=
  if bool_decide (kind event ≠ RoomRedaction) then None
  else if redacts_in_event room_version then redacts event
  else from_Redaction (content event) ≫= id.

Section current_state.
Context {DB : Type} `{Store DB}.
Context (evict : gmap Z (list ShortStateInfo) → gmap Z (list ShortStateInfo)).
Context {Content : Type} `{Ruma Content} `{RoomContents Content} `{Schedule}.
(** [timeline.get_pdu], by the bytes of the event id. *)
Context (get_pdu : bytes → option (Pdu Content)).
Context (fuel : nat).
Local Abbreviation RoomM := (RoomM (DB := DB)).
Local Notation "'let!' x := m 'in' k" := (bind m (λ x, k))
  (at level 10, x name, m at level 200, k at level 200).

Implicit Types (room_id event_id : string).

(** [Result::ok] of a call. *)
Definition try_room {A} (m : RoomM A) : RoomM (option A) := λ rs,
  match m rs with
  | (Ok a, rs) => (Ok (Some a), rs)
  | (Err _, rs) => (Ok None, rs)
  | (Panic, rs) => (Panic, rs)
  end.
Definition current_shortstatehash (room_id : string) : RoomM Z := λ rs,
  (match get_room_shortstatehash rs room_id with Ok h => Ok h | Err e => Err (ShortFailed e) | Panic => Panic end, rs).
Definition get_content {T} (decode : Content → option T) (pdu : Pdu Content) : RoomM T :=
  pure (ok_or BadContent (decode (content pdu))).

(** ** [state.rs] and [room_state.rs] *)

Definition state_get_content {T} (decode : Content → option T) (h : Z) (event_type : EventType) (state_key : string) : RoomM T :=
  let! event := state_get evict get_pdu fuel h (type_name event_type) state_key in get_content decode event.

Definition room_state_get_id room_id (event_type : EventType) (state_key : string) : RoomM bytes :=
  let! h := current_shortstatehash room_id in state_get_id evict fuel h (type_name event_type) state_key.
Definition room_state_get room_id (event_type : EventType) (state_key : string) : RoomM (Pdu Content) :=
  let! h := current_shortstatehash room_id in state_get evict get_pdu fuel h (type_name event_type) state_key.
Definition room_state_get_content {T} (decode : Content → option T) room_id (event_type : EventType) (state_key : string) : RoomM T :=
  let! event := room_state_get room_id event_type state_key in get_content decode event.
Definition room_state_keys room_id (event_type : EventType) : RoomM (list bytes) :=
  let! h := current_shortstatehash room_id in state_keys evict fuel h (type_name event_type).
Definition room_state_full room_id : RoomM (list (TypeStateKey * Pdu Content)) :=
  let! h := current_shortstatehash room_id in state_full evict get_pdu fuel h.
Definition room_state_full_pdus room_id : RoomM (list (Pdu Content)) :=
  let! h := current_shortstatehash room_id in state_full_pdus evict get_pdu fuel h.

(** ** Getters of [mod.rs] *)

Definition get_member room_id (user_id : UserId) : RoomM MembershipState :=
  room_state_get_content from_RoomMemberEventContent room_id RoomMember user_id.
Definition is_world_readable room_id : RoomM bool :=
  let! v := try_room (room_state_get_content from_HistoryVisibility room_id RoomHistoryVisibility "") in
  ret (bool_decide (v = Some VisibleWorldReadable)).
Definition guest_can_join room_id : RoomM bool :=
  let! v := try_room (room_state_get_content from_GuestAccess room_id RoomGuestAccess "") in
  ret (default false v).
Definition get_join_rules room_id : RoomM JoinRule :=
  let! v := try_room (room_state_get_content from_RoomJoinRulesEventContent room_id RoomJoinRules "") in
  ret (default InviteRule v).
Definition is_encrypted_room room_id : RoomM bool :=
  let! v := try_room (room_state_get room_id RoomEncryption "") in ret (bool_decide (is_Some v)).

(** ** [state/mod.rs] *)

Definition get_room_version room_id : RoomM RoomVersionId :=
  let! v := try_room (room_state_get_content from_CreateContent room_id RoomCreate "") in
  pure (ok_or NotInRoomState (cc_room_version <$> v)).

(** The numbers of the listed keys; a key without one is left out. *)
Definition auth_keys (s : Short DB) (auth_types : list TypeStateKey) : list (Z * TypeStateKey) :=
  omap (λ tk, match get_shortstatekey s (type_name tk.1) tk.2 with Ok ssk => Some (ssk, tk) | _ => None end) auth_types.
Definition fetch_auth_events (l : list (TypeStateKey * outcome ShortError bytes)) : list (TypeStateKey * Pdu Content) :=
  omap (λ x : TypeStateKey * outcome ShortError bytes,
    match x.2 with Ok event_id => pdu ← get_pdu event_id; Some (x.1, pdu) | _ => None end) l.
Definition get_auth_events room_id (event_kind : EventType) (sender : UserId) (state_key : option string) (c : Content)
    (room_version : RoomVersion) : RoomM (gmap TypeStateKey (Pdu Content)) := λ rs,
  match get_room_shortstatehash rs room_id with
  | Err _ => (Ok ∅, rs)
  | Panic => (Panic, rs)
  | Ok shortstatehash =>
      (let! auth_types := pure (match auth_types_for_event event_kind sender state_key c room_version with
                                | Ok l => Ok l | Err e => Err (StateResFailed e) | Panic => Panic end) in
       let! sauthevents := read_tables (λ s, Ok (collect_map (order 31 (auth_keys s auth_types)) : gmap Z TypeStateKey)) in
       let! ids := full_shortids evict fuel shortstatehash in
       let found := omap (λ id : Z * Z, tk ← sauthevents !! id.1; Some (tk, id.2)) ids in
       read_tables (λ s, Ok (collect_map (order 32 (fetch_auth_events (zip found.*1 (multi_get_eventid_from_short s found.*2))))))) rs
  end.

(** ** [user_can.rs] *)

Definition user_can_redact (redacts : EventId) (sender : UserId) room_id (federation : bool) : RoomM bool :=
  let redacting_event := get_pdu (bytes_of_string redacts) in
  if bool_decide (kind <$> redacting_event = Some RoomCreate) then
    pure (Err (ForbiddenRequest "Redacting m.room.create is not safe, forbidding."))
  else if bool_decide (kind <$> redacting_event = Some RoomServerAcl) then
    pure (Err (ForbiddenRequest "Redacting m.room.server_acl will result in the room being inaccessible for everyone (empty allow key), forbidding."))
  else
    let! room_create := room_state_get room_id RoomCreate "" in
    let! create_content := get_content from_CreateContent room_create in
    let! room_features := pure (match RoomVersion_new (cc_room_version create_content) with
                                | Ok v => Ok v | Err e => Err (StateResFailed e) | Panic => Panic end) in
    if explicitly_privilege_room_creators room_features
       && (bool_decide (sender = Event.sender room_create)
           || bool_decide (sender ∈ default [] (cc_additional_creators create_content)))
    then ret true
    else
      let! pl := try_room (room_state_get_content from_RoomPowerLevelsEventContent room_id RoomPowerLevels "") in
      ret match pl with
          | Some pl_event =>
              user_can_redact_event_of_other pl_event sender
              || user_can_redact_own_event pl_event sender
                 && match redacting_event with
                    | Some redacting_event =>
                        if federation
                        then bool_decide (user_server_name (Event.sender redacting_event) = user_server_name sender)
                        else bool_decide (Event.sender redacting_event = sender)
                    | None => false
                    end
          | None =>
              bool_decide (Event.sender room_create = sender)
              || bool_decide (Event.sender <$> redacting_event = Some sender)
          end.

(** The memberships are those of the state cache [c]. *)
Implicit Types (c : Cache (DB := DB)).

Definition user_can_see_event c (user_id : UserId) room_id event_id : RoomM bool := λ rs,
  match pdu_shortstatehash rs event_id with
  | Err _ => (Ok true, rs)
  | Panic => (Panic, rs)
  | Ok shortstatehash =>
      (let! currently_member := pure (must (is_joined c user_id room_id)) in
       let! v := try_room (state_get_content from_HistoryVisibility shortstatehash RoomHistoryVisibility "") in
       match default VisibleShared v with
       | VisibleInvited => user_was_invited evict get_pdu fuel shortstatehash user_id
       | VisibleJoined => user_was_joined evict get_pdu fuel shortstatehash user_id
       | VisibleWorldReadable => ret true
       | _ => ret currently_member
       end) rs
  end.

Definition user_can_see_state_events c (user_id : UserId) room_id : RoomM bool :=
  let! joined := pure (must (is_joined c user_id room_id)) in
  if (joined : bool) then ret true
  else
    let! v := try_room (room_state_get_content from_HistoryVisibility room_id RoomHistoryVisibility "") in
    match default VisibleShared v with
    | VisibleInvited => pure (must (is_invited c user_id room_id))
    | VisibleWorldReadable => ret true
    | _ => ret false
    end.

(** ** [server_can.rs] *)

Fixpoint any_room {A} (f : A → RoomM bool) (l : list A) : RoomM bool :=
  match l with
  | [] => ret false
  | a :: l => let! b := f a in if (b : bool) then ret true else any_room f l
  end.
Definition server_can_see_event c (origin : ServerName) room_id event_id : RoomM bool := λ rs,
  match pdu_shortstatehash rs event_id with
  | Err _ => (Ok false, rs)
  | Panic => (Panic, rs)
  | Ok shortstatehash =>
      (let! v := try_room (state_get_content from_HistoryVisibility shortstatehash RoomHistoryVisibility "") in
       let! members := pure (must (room_members c room_id)) in
       let current_server_members := filter (λ member, user_server_name member = origin) members in
       match default VisibleShared v with
       | VisibleInvited => any_room (λ member, user_was_invited evict get_pdu fuel shortstatehash member) current_server_members
       | VisibleJoined => any_room (λ member, user_was_joined evict get_pdu fuel shortstatehash member) current_server_members
       | _ => ret true
       end) rs
  end.
End current_state.

Local Open Scope Z_scope.

(** ** The keys an event is authorized against *)

Definition auth_event_types : list EventType := [RoomCreate; RoomMember; RoomPowerLevels; RoomJoinRules; RoomThirdPartyInvite].

Lemma type_name_inj ty ty' : ty ∈ auth_event_types → ty' ∈ auth_event_types → type_name ty = type_name ty' → ty = ty'.
Proof. unfold auth_event_types. rewrite !elem_of_cons, !elem_of_nil. intros Hty Hty'. naive_solver. Qed.
Lemma type_name_utf8 ty : ty ∈ auth_event_types → utf8 (type_name ty).
Proof. unfold auth_event_types. rewrite !elem_of_cons, elem_of_nil. intros Hty. naive_solver. Qed.

Section auth_types.
Context {Content : Type} `{Ruma Content}.

Lemma member_auth_types_named fields key types :
  Forall (λ tk : TypeStateKey, tk.1 ∈ auth_event_types) types → Forall (λ tk : TypeStateKey, tk.1 ∈ auth_event_types) (member_auth_types fields key types).
Proof.
  assert (∀ ty k (l : list TypeStateKey), ty ∈ auth_event_types → Forall (λ tk : TypeStateKey, tk.1 ∈ auth_event_types) l →
    Forall (λ tk : TypeStateKey, tk.1 ∈ auth_event_types) (push_unique (ty, k) l)) as Hp.
  { intros ty k l Hty Hl. apply Forall_forall. intros tk [->|Htk]%elem_of_push_unique; [done|].
    by apply (proj1 (Forall_forall _ _) Hl). }
  assert (RoomMember ∈ auth_event_types ∧ RoomJoinRules ∈ auth_event_types ∧ RoomThirdPartyInvite ∈ auth_event_types)
    as (? & ? & ?) by (unfold auth_event_types; set_solver).
  intros Hl. unfold member_auth_types. repeat case_match; auto.
Qed.

Lemma auth_types_named rv ty snd_id key c types :
  auth_types_for_event ty snd_id key c rv = Ok types → Forall (λ tk : TypeStateKey, tk.1 ∈ auth_event_types) types.
Proof.
  unfold auth_types_for_event. case_bool_decide; [by intros [= <-]|].
  set (base := if room_ids_as_hashes rv then _ else _).
  assert (Forall (λ tk : TypeStateKey, tk.1 ∈ auth_event_types) base) as Hb.
  { unfold base, auth_event_types. case_match; repeat constructor; cbn; set_solver. }
  clearbody base. case_bool_decide; [|by intros [= <-]]. destruct key; [|by intros [= <-]].
  intros (fields & _ & [= <-])%bind_Ok_inv. by apply member_auth_types_named.
Qed.
End auth_types.

Lemma collect_map_NoDup {K A} `{Countable K} (l : list (K * A)) k a :
  NoDup l.*1 → collect_map l !! k = Some a ↔ (k, a) ∈ l.
Proof.
  unfold collect_map.
  assert (∀ m : gmap K A, NoDup l.*1 → (∀ k, k ∈ l.*1 → m !! k = None) →
    foldl (λ m kv, <[kv.1 := kv.2]> m) m l !! k = Some a ↔ m !! k = Some a ∨ (k, a) ∈ l) as Hl.
  { induction l as [|[k' a'] l IH]; intros m Hnd Hm; cbn; [rewrite elem_of_nil; tauto|].
    rewrite ?fmap_cons in *. apply NoDup_cons in Hnd as [Hk' Hnd]. cbn in Hk'. rewrite IH; [|done|].
    - rewrite lookup_insert_Some, elem_of_cons. specialize (Hm k'). cbn in Hm. specialize (Hm ltac:(by left)). split.
      + intros [[[<- <-]|[? ?]]|?]; [by right; left|by left|by right; right].
      + intros [Hk|[[= -> ->]|?]]; [|by left; left|by right]. left. right. split; [|done]. intros ->. congruence.
    - intros k2 Hk2. rewrite lookup_insert_ne; [apply Hm; by right|]. by intros ->. }
  intros Hnd. rewrite Hl; [|done|by intros; apply lookup_empty]. rewrite lookup_empty. naive_solver.
Qed.

Section props.
Context {DB : Type} `{Store DB}.
Context (sha256 : bytes → bytes) (evict : gmap Z (list ShortStateInfo) → gmap Z (list ShortStateInfo)).
Context {Content : Type} `{Ruma Content} `{!RumaLaws Content} `{RoomContents Content} `{Schedule}.
Context (get_pdu : bytes → option (Pdu Content)).
Hypothesis evict_sub : ∀ m, evict m ⊆ m.
Implicit Types (rs : RoomState (DB := DB)) (M : StateOf).
Local Abbreviation room_wf := (room_wf sha256).

(** The event a state has under a type and key. *)
Definition event_in M (ty : EventType) (key : string) : option (Pdu Content) :=
  M !! (type_name ty, key) ≫= λ e, get_pdu (bytes_of_string e).

Lemma auth_keys_spec (s : Short DB) types :
  short_wf s → NoDup types → Forall (λ tk : TypeStateKey, tk.1 ∈ auth_event_types ∧ utf8 tk.2) types →
  NoDup (auth_keys s types).*1
  ∧ ∀ k tk, (k, tk) ∈ auth_keys s types ↔ tk ∈ types ∧ number s (NStateKey (type_name tk.1) tk.2) = Ok k.
Proof.
  intros Hs Hnd Hty.
  assert (∀ k tk, (k, tk) ∈ auth_keys s types ↔ tk ∈ types ∧ number s (NStateKey (type_name tk.1) tk.2) = Ok k) as Hin.
  { intros k tk. unfold auth_keys. rewrite list_elem_of_omap. cbn [number]. split.
    - intros (tk' & Htk & E). destruct (get_shortstatekey s _ _) eqn:Hn; simplify_eq. done.
    - intros [Htk Hn]. exists tk. by rewrite Hn. }
  split; [|done]. clear Hin. induction types as [|tk types IH]; [constructor|].
  apply NoDup_cons in Hnd as [Htk Hnd]. apply Forall_cons in Hty as [[Ht Hk] Hty]. unfold auth_keys in *. cbn [omap list_omap].
  destruct (get_shortstatekey s (type_name tk.1) tk.2) as [k|e|] eqn:Hn; [|by apply IH..]. rewrite fmap_cons. constructor; [|by apply IH].
  intros ([k' tk'] & E & (tk2 & Htk2 & E2)%list_elem_of_omap)%list_elem_of_fmap. cbn in E. subst k'.
  destruct (get_shortstatekey s (type_name tk2.1) tk2.2) as [k2| |] eqn:Hn2; simplify_eq.
  apply (proj1 (Forall_forall _ _) Hty) in Htk2 as Hok. destruct Hok as [Ht2 Hk2].
  assert (NStateKey (type_name tk.1) tk.2 = NStateKey (type_name tk'.1) tk'.2) as [= E1 E2].
  { eapply (number_inj s _ _ k); [done|..]; try done; split; by apply type_name_utf8 || done. }
  apply type_name_inj in E1; [|done..]. destruct tk, tk'; cbn in *; subst. done.
Qed.

(** The rows of a state whose keys are listed. *)
Definition listed_rows (m : gmap Z TypeStateKey) (rows : list Row) : list (TypeStateKey * Row) :=
  omap (λ r : Row, tk ← m !! r.2.1; Some (tk, r)) rows.

Lemma listed_rows_found m rows :
  omap (λ id : Z * Z, tk ← m !! id.1; Some (tk, id.2)) rows.*2 = (λ x : TypeStateKey * Row, (x.1, x.2.2.2)) <$> listed_rows m rows.
Proof. induction rows as [|r rows IH]; [done|]. unfold listed_rows. cbn. rewrite IH. by destruct (m !! r.2.1). Qed.

Lemma listed_rows_spec s types rows M :
  short_wf s → NoDup types → Forall (λ tk : TypeStateKey, tk.1 ∈ auth_event_types ∧ utf8 tk.2) types →
  Forall (row_ok s) rows → NoDup rows.*1.*1 → (∀ ty key e, (ty, key, e) ∈ rows.*1 ↔ M !! (ty, key) = Some e) →
  ∀ m, (∀ k tk, m !! k = Some tk ↔ (k, tk) ∈ auth_keys s types) →
  NoDup (listed_rows m rows).*1
  ∧ (∀ tk r, (tk, r) ∈ listed_rows m rows → r ∈ rows ∧ (type_name tk.1, tk.2) = r.1.1)
  ∧ ∀ tk e, (∃ r, (tk, r) ∈ listed_rows m rows ∧ r.1.2 = e) ↔ tk ∈ types ∧ M !! (type_name tk.1, tk.2) = Some e.
Proof.
  intros Hs Hnd Hty Hok Hk HM m Hm. destruct (auth_keys_spec s types Hs Hnd Hty) as [_ Hkeys].
  assert (∀ tk r, (tk, r) ∈ listed_rows m rows ↔ r ∈ rows ∧ tk ∈ types ∧ (type_name tk.1, tk.2) = r.1.1) as Hin.
  { intros tk r. unfold listed_rows. rewrite list_elem_of_omap. split.
    - intros (r' & Hr & E). destruct (m !! r'.2.1) as [tk'|] eqn:Hmk; cbn in E; simplify_eq.
      apply Hm, Hkeys in Hmk as [Htk Hn]. split_and!; [done..|].
      apply (proj1 (Forall_forall _ _) Hok) in Hr. apply (proj1 (Forall_forall _ _) Hty) in Htk as [? ?].
      destruct r as [[[ty key] e] [k v]]. destruct Hr as (? & ? & _ & Hn' & _). cbn in *.
      assert (NStateKey (type_name tk.1) tk.2 = NStateKey ty key) as [= -> ->]; [|done].
      eapply (number_inj s _ _ k); try done. split; [by apply type_name_utf8|done].
    - intros (Hr & Htk & E). exists r. split; [done|]. apply (proj1 (Forall_forall _ _) Hok) in Hr.
      destruct r as [[[ty key] e] [k v]]. destruct Hr as (_ & _ & _ & Hn & _). cbn in *. injection E as <- <-.
      assert (m !! k = Some tk) as -> by by apply Hm, Hkeys. done. }
  split_and!.
  - assert (∀ l : list Row, NoDup l.*1.*1 → (∀ tk r, (tk, r) ∈ listed_rows m l → (type_name tk.1, tk.2) = r.1.1) → NoDup (listed_rows m l).*1) as Hl.
    { induction l as [|r l IH]; intros Hndl Hkl; [constructor|]. rewrite !fmap_cons in Hndl. apply NoDup_cons in Hndl as [Hr Hndl].
      unfold listed_rows in *. cbn [omap list_omap] in *. destruct (m !! r.2.1) as [tk|]; cbn in *; [|by apply IH].
      constructor; [|apply IH; [done|]; intros; apply Hkl; by right].
      intros ([tk' r'] & E & Hin')%list_elem_of_fmap. cbn in E. subst tk'. apply Hr.
      rewrite <- (Hkl tk r ltac:(by left)), (Hkl tk r' ltac:(by right)). apply list_elem_of_omap in Hin' as (r2 & Hr2 & E).
      destruct (m !! r2.2.1); cbn in E; simplify_eq. rewrite <- list_fmap_compose. by apply (list_elem_of_fmap_2 (fst ∘ fst)). }
    apply Hl; [done|]. intros tk r. by intros (_ & _ & ?)%Hin.
  - intros tk r (? & _ & ?)%Hin. done.
  - intros tk e. rewrite <- HM, list_elem_of_fmap. split.
    + intros (r & (Hr & Htk & E)%Hin & <-). split; [done|]. exists r. rewrite E. destruct r as [[[??]?]?]. done.
    + intros (Htk & r & E & Hr). exists r. destruct r as [[[??]?]?]. cbn in *. simplify_eq. split; [|done]. by apply Hin.
Qed.

Lemma fetch_listed s (l : list (TypeStateKey * Row)) :
  short_wf s → Forall (λ x : TypeStateKey * Row, row_ok s x.2) l →
  fetch_auth_events get_pdu (zip ((λ x : TypeStateKey * Row, (x.1, x.2.2.2)) <$> l).*1 (multi_get_eventid_from_short s ((λ x : TypeStateKey * Row, (x.1, x.2.2.2)) <$> l).*2))
  = omap (λ x : TypeStateKey * Row, pdu ← get_pdu (bytes_of_string x.2.1.2); Some (x.1, pdu)) l.
Proof.
  intros Hs. induction 1 as [|[tk [[[ty key] e] [k v]]] l (_ & _ & ? & _ & ?) _ IH]; [done|].
  rewrite !fmap_cons. cbn [fst snd]. rewrite (multi_get_event s e) by done. unfold fetch_auth_events in *. cbn [zip zip_with omap list_omap fst snd].
  by rewrite IH.
Qed.

Lemma fetched_auth_lookup (l : list (TypeStateKey * Row)) ty key :
  NoDup l.*1 →
  collect_map (order 32 (omap (λ x : TypeStateKey * Row, pdu ← get_pdu (bytes_of_string x.2.1.2); Some (x.1, pdu)) l)) !! (ty, key)
  = (r ← (list_to_map l : gmap TypeStateKey Row) !! (ty, key); get_pdu (bytes_of_string r.1.2)).
Proof.
  intros Hnd. apply option_eq. intros pdu. rewrite collect_map_NoDup.
  2:{ rewrite order_perm. induction l as [|[tk r] l IH]; [constructor|]. rewrite fmap_cons in Hnd. apply NoDup_cons in Hnd as [Hx Hnd].
      cbn. destruct (get_pdu _) as [p|]; cbn; [|by apply IH]. constructor; [|by apply IH].
      intros ([tk' p'] & E & ([tk2 r2] & Hin & E2)%list_elem_of_omap)%list_elem_of_fmap. cbn in *. destruct (get_pdu (bytes_of_string r2.1.2)); cbn in E2; simplify_eq.
      apply Hx. by apply (list_elem_of_fmap_2 fst) in Hin. }
  rewrite order_perm, list_elem_of_omap. rewrite bind_Some. split.
  - intros ([tk r] & Hin & E). cbn in E. destruct (get_pdu _) as [p|] eqn:Hp; cbn in E; simplify_eq. exists r. split; [|done].
    by apply elem_of_list_to_map_1.
  - intros (r & Hr & Hp). apply elem_of_list_to_map_2 in Hr. exists ((ty, key), r). split; [done|]. cbn. by rewrite Hp.
Qed.

(** [get_auth_events] fetches what the current state has under the keys an event is
    authorized against. *)
Lemma get_auth_events_spec rs fuel room h M rv ty snd_id key c types :
  room_wf rs → (4 ≤ fuel)%nat → get_room_shortstatehash rs room = Ok h → room_state rs h M →
  auth_types_for_event ty snd_id key c rv = Ok types → NoDup types → Forall (λ tk : TypeStateKey, utf8 tk.2) types →
  ∃ evs rs', get_auth_events evict get_pdu fuel room ty snd_id key c rv rs = (Ok evs, rs') ∧ same_tables sha256 rs rs'
    ∧ ∀ ty k, evs !! (ty, k) = if bool_decide ((ty, k) ∈ types) then event_in M ty k else None.
Proof.
  intros Hw Hf Hh Hst Ht Hnd Hu. pose proof (auth_types_named _ _ _ _ _ _ Ht) as Hnamed.
  assert (Forall (λ tk : TypeStateKey, tk.1 ∈ auth_event_types ∧ utf8 tk.2) types) as Hty by (by apply Forall_and).
  destruct (full_shortids_spec sha256 evict evict_sub rs fuel h M Hw Hf Hst) as (rows & rs' & Hl & Hsame & Hok & Hkeys & HM).
  pose proof Hsame as (Hw' & _ & Hsh). pose proof (rw_short _ rs' Hw') as Hs. rewrite Hsh in Hok, Hs.
  destruct (auth_keys_spec (short rs) types Hs Hnd Hty) as [Hknd _].
  set (m := collect_map (order 31 (auth_keys (short rs) types)) : gmap Z TypeStateKey).
  assert (∀ k tk, m !! k = Some tk ↔ (k, tk) ∈ auth_keys (short rs) types) as Hm.
  { intros k tk. unfold m. rewrite collect_map_NoDup; [by rewrite order_perm|by rewrite order_perm]. }
  destruct (listed_rows_spec (short rs) types rows M Hs Hnd Hty Hok Hkeys HM m Hm) as (Hlnd & Hlr & Hle).
  eexists _, rs'. split; [|split; [exact Hsame|]].
  - unfold get_auth_events. rewrite Hh, Ht. unfold bind, pure, read_tables. fold m. rewrite Hl, Hsh, listed_rows_found.
    rewrite fetch_listed; [done|done|]. apply Forall_forall. intros [tk r] [Hr _]%Hlr. by apply (proj1 (Forall_forall _ _) Hok).
  - intros ty' k'. cbn. rewrite fetched_auth_lookup by done. apply option_eq. intros pdu. rewrite bind_Some. unfold event_in. split.
    + intros (r & Hr%elem_of_list_to_map_2 & Hp). destruct (proj1 (Hle (ty', k') r.1.2)) as [Hin HMe]; [by exists r|].
      rewrite bool_decide_eq_true_2 by done. cbn in HMe. by rewrite HMe.
    + case_bool_decide as Hin; [|done]. intros (e & He & Hp)%bind_Some. destruct (proj2 (Hle (ty', k') e)) as (r & Hr & <-); [done|].
      exists r. split; [|done]. by apply elem_of_list_to_map_1.
Qed.

(** Authorizing an event against the events [get_auth_events] fetches is authorizing it
    against the whole current state: the decision, the error or the panic is the same.  For a
    membership event this is a join, an invite or a knock. *)
Theorem get_auth_events_sufficient rs fuel room h M rv ev tpi ce types :
  room_wf rs → (4 ≤ fuel)%nat → get_room_shortstatehash rs room = Ok h → room_state rs h M →
  auth_types_for_event (kind ev) (sender ev) (state_key ev) (content ev) rv = Ok types →
  Forall (λ tk : TypeStateKey, utf8 tk.2) types →
  (∀ f m, kind ev = RoomMember → from_RoomMemberContentFields (content ev) = Some f →
          membership f = Some (Some m) → m ∈ [Join; Invite; Knock]) →
  ∃ evs rs', get_auth_events evict get_pdu fuel room (kind ev) (sender ev) (state_key ev) (content ev) rv rs = (Ok evs, rs')
    ∧ same_tables sha256 rs rs'
    ∧ auth_check rv ev tpi (λ ty k, evs !! (ty, k)) ce = auth_check rv ev tpi (event_in M) ce.
Proof.
  intros Hw Hf Hh Hst Ht Hu Hent. destruct (auth_types_listed_once rv ev types Ht) as [Hnd _].
  destruct (get_auth_events_spec rs fuel room h M rv _ _ _ _ types Hw Hf Hh Hst Ht Hnd Hu) as (evs & rs' & He & Hsame & Hl).
  exists evs, rs'. split; [done|]. split; [done|]. apply (auth_check_reads_auth_types rv ev tpi _ _ ce types Ht); [|done].
  intros ty k Hin. by rewrite Hl, bool_decide_eq_true_2.
Qed.
End props.
