(* ===== verification/IncomingPdu.v ===== *)
(** * Canonical JSON

    [CanonicalJsonValue] and [CanonicalJsonObject] of ruma: the values an event is made of on
    the wire.  The members of a nested object are listed by name.

    * Parsing the events of other servers

    Models [src/service/rooms/event_handler/parse_incoming_pdu.rs], [pdu_fits] of
    [src/service/rooms/timeline/create.rs] and [src/core/matrix/event/id.rs]: from the text of
    an event to its room, its id and its JSON object, with the limits an event is to keep. *)

From S2P Require Import Prelude RoomVersion Event.

Local Open Scope Z_scope.

Inductive Json :=
  | JNull
  | JBool (b : bool)
  | JInteger (z : Z)
  | JString (s : string)
  | JArray (l : list Json)
  | JObject (o : list (string * Json)).

Abbreviation Object := (gmap string Json).

Definition as_str (j : Json) : option string := match j with JString s => Some s | _ => None end.
Definition as_array (j : Json) : option (list Json) := match j with JArray l => Some l | _ => None end.
Definition as_object (j : Json) : option (list (string * Json)) := match j with JObject o => Some o | _ => None end.
(** [get] of a nested object. *)
Fixpoint member (o : list (string * Json)) (name : string) : option Json :=
  match o with
  | [] => None
  | (name', j) :: o => if bool_decide (name' = name) then Some j else member o name
  end.

Local Open Scope Z_scope.

(** The errors of the requests of other servers, with the messages of the source. *)
Inductive ErrorKind := BadJson | InvalidParam | TooLarge | Forbidden | NotFoundError.
Inductive RequestError :=
  | Request (kind : ErrorKind) (message : string)
  | BadServerResponse (message : string)
  | DatabaseError (message : string)
  | OtherError.

(** serde_json and ruma on the JSON of an event. *)
Class Wire := {
  from_str : string → option Object;
  (** [serde_json::to_string]: the length of the text *)
  to_string_len : Object → option Z;
  reference_hash : Object → RoomVersionId → option string;
  room_version_from_str : string → option RoomVersionId;
}.

Section incoming.
Context {Content : Type} `{Ruma Content} `{Wire}.
Implicit Types (pdu value : Object).

(** ** [timeline/create.rs] *)

Definition short_string (j : option Json) : bool :=
  match j with Some (JString s) => bool_decide (Z.of_nat (String.length s) ≤ 255) | _ => true end.
Definition pdu_fits value : bool :=
  short_string (value !! "room_id") && short_string (value !! "event_id") && short_string (value !! "sender")
  && short_string (value !! "type") && short_string (value !! "state_key")
  && match to_string_len value with Some n => bool_decide (n ≤ 65535) | None => false end.

(** ** [event/id.rs] *)

Definition parse_event_id (s : string) : option EventId := match event_id_parse s with inl e => Some e | inr _ => None end.
Definition gen_event_id value (room_version_id : RoomVersionId) : option EventId :=
  reference_hash ← reference_hash value room_version_id; parse_event_id ("$" +:+ reference_hash).
Definition gen_event_id_canonical_json (pdu : string) (room_version_id : RoomVersionId) : option (EventId * Object) :=
  value ← from_str pdu; event_id ← gen_event_id value room_version_id; Some (event_id, value).

(** ** [parse_incoming_pdu.rs] *)

Definition requires_room_id (room_version_id : RoomVersionId) : bool :=
  match room_version_id with
  | V1 | V2 | V3 | V4 | V5 | V6 | V7 | V8 | V9 | V10 | V11 => true
  | _ => false
  end.

Definition extract_room_id (event_type : string) pdu : outcome RequestError RoomId :=
  match pdu !! "room_id" ≫= as_str with
  | Some room_id => ok_or (Request BadJson "Invalid room_id in pdu") (room_id_parse room_id)
  | None =>
      if bool_decide (event_type ≠ "m.room.create") || bool_decide (pdu !! "state_key" = None)
      then Err (Request BadJson "Missing room_id in pdu")
      else
        content ← ok_or (Request InvalidParam "Missing or invalid content in pdu") (pdu !! "content" ≫= as_object);
        room_version_id ← ok_or (Request BadJson "Invalid room_version in pdu")
          (room_version_from_str (default "1" (member content "room_version" ≫= as_str)));
        if requires_room_id room_version_id then Err (Request BadJson "Missing room_id in pdu")
        else
          event_id ← ok_or OtherError (gen_event_id pdu room_version_id);
          expect (room_id_parse (replace_char "$"%char "!"%char event_id))
  end.

Definition expect_event_id_array value (field : string) : outcome RequestError (list EventId) :=
  j ← ok_or (Request BadJson "missing field on PDU") (value !! field);
  l ← ok_or (Request BadJson "expected an array PDU field") (as_array j);
  try_map (λ v,
    s ← ok_or (Request BadJson "expected an array of event IDs") (as_str v);
    ok_or (Request BadJson "invalid event ID") (parse_event_id s)) l.

Definition validate_pdu pdu : outcome RequestError unit :=
  auth_events ← expect_event_id_array pdu "auth_events";
  if bool_decide (10 < length auth_events)%nat then Err (Request BadJson "PDU has too many auth events")
  else
    prev_events ← expect_event_id_array pdu "prev_events";
    if bool_decide (20 < length prev_events)%nat then Err (Request BadJson "PDU has too many prev events")
    else Ok tt.

(** [get_room_version] is the version of a room by its current state. *)
Definition parse_incoming_pdu (get_room_version : RoomId → option RoomVersionId) (pdu : string)
    : outcome RequestError (RoomId * EventId * Object) :=
  value ← ok_or (BadServerResponse "Error parsing incoming event") (from_str pdu);
  event_type ← ok_or (Request InvalidParam "Missing or invalid type in pdu") (value !! "type" ≫= as_str);
  room_id ← extract_room_id event_type value;
  let room_version_id := default V1 (get_room_version room_id) in
  '(event_id, value) ← ok_or (Request InvalidParam "Could not convert event to canonical json")
    (gen_event_id_canonical_json pdu room_version_id);
  _ ← validate_pdu value;
  Ok (room_id, event_id, value).

(** ** Theorems *)

Lemma expect_event_id_array_Ok value field ids :
  expect_event_id_array value field = Ok ids ↔
  ∃ l, value !! field = Some (JArray l) ∧ Forall2 (λ v id, ∃ s, v = JString s ∧ event_id_parse s = inl id) l ids.
Proof.
  unfold expect_event_id_array. split.
  - intros (j & Hj%ok_or_Ok & (l & Hl%ok_or_Ok & Hm%try_map_Ok)%bind_Ok_inv)%bind_Ok_inv.
    destruct j; try done. injection Hl as <-. eexists. split; [done|]. eapply Forall2_impl; [exact Hm|].
    intros v id (s & Hs%ok_or_Ok & Hi%ok_or_Ok)%bind_Ok_inv. destruct v; try done. injection Hs as <-. eexists. split; [done|].
    unfold parse_event_id in Hi. by destruct (event_id_parse _); simplify_eq.
  - intros (l & Hl & Hm). rewrite Hl. cbn. apply try_map_Ok. eapply Forall2_impl; [exact Hm|].
    intros v id (s & -> & Hs). cbn. unfold parse_event_id. by rewrite Hs.
Qed.

Lemma validate_pdu_Ok pdu :
  validate_pdu pdu = Ok tt ↔
  ∃ auth prev, expect_event_id_array pdu "auth_events" = Ok auth ∧ expect_event_id_array pdu "prev_events" = Ok prev
    ∧ (length auth ≤ 10)%nat ∧ (length prev ≤ 20)%nat.
Proof.
  unfold validate_pdu. split.
  - intros (auth & Ha & E)%bind_Ok_inv. case_bool_decide; [done|]. apply bind_Ok_inv in E as (prev & Hp & E).
    case_bool_decide; [done|]. exists auth, prev. split_and!; try done; lia.
  - intros (auth & prev & -> & -> & ? & ?). cbn. rewrite bool_decide_eq_false_2 by lia. cbn. by rewrite bool_decide_eq_false_2 by lia.
Qed.

(** The one error the code expects not to see is an id that does not become a room id. *)
Lemma extract_room_id_no_panic event_type pdu :
  (∀ s e, event_id_parse s = inl e → room_id_parse (replace_char "$"%char "!"%char e) ≠ None) → extract_room_id event_type pdu ≠ Panic.
Proof.
  intros Hid. unfold extract_room_id. destruct (pdu !! "room_id" ≫= as_str); [auto with srv|].
  destruct (_ || _); [done|]. repeat (apply bind_no_panic; [auto with srv|intros ? ?]). case_match; [done|].
  apply bind_no_panic; [auto with srv|]. intros e He%ok_or_Ok. unfold gen_event_id, parse_event_id in He.
  apply bind_Some in He as (h & _ & He). destruct (event_id_parse _) eqn:E; [|done]. injection He as <-.
  apply Hid in E. rewrite expect_Panic. done.
Qed.

(** C27: what is accepted from another server: the room is the one the event names, or, for a
    create event that names none, the one its id gives, which the room versions with hashes
    for room ids allow; the id is the hash of the event under the version of that room; and
    there are at most ten auth events and twenty previous events, each a valid id. *)
Theorem parse_incoming_pdu_accepts get_room_version raw room_id event_id value :
  parse_incoming_pdu get_room_version raw = Ok (room_id, event_id, value) →
  from_str raw = Some value
  ∧ (∃ hash, reference_hash value (default V1 (get_room_version room_id)) = Some hash ∧ event_id_parse ("$" +:+ hash) = inl event_id)
  ∧ (∃ auth prev, expect_event_id_array value "auth_events" = Ok auth ∧ (length auth ≤ 10)%nat
       ∧ expect_event_id_array value "prev_events" = Ok prev ∧ (length prev ≤ 20)%nat)
  ∧ match value !! "room_id" with
    | Some (JString r) => room_id_parse r = Some room_id
    | _ => value !! "type" = Some (JString "m.room.create") ∧ is_Some (value !! "state_key")
           ∧ ∃ v id, requires_room_id v = false ∧ gen_event_id value v = Some id
               ∧ room_id_parse (replace_char "$"%char "!"%char id) = Some room_id
    end.
Proof.
  unfold parse_incoming_pdu. intros (v & Hv%ok_or_Ok & E)%bind_Ok_inv. apply bind_Ok_inv in E as (ty & Hty%ok_or_Ok & E).
  apply bind_Ok_inv in E as (r & Hr & E). apply bind_Ok_inv in E as ([eid v2] & Hg%ok_or_Ok & E).
  apply bind_Ok_inv in E as ([] & Hval%validate_pdu_Ok & [= -> -> ->]).
  unfold gen_event_id_canonical_json in Hg. rewrite Hv in Hg. cbn in Hg. apply bind_Some in Hg as (e & He & [= -> ->]).
  unfold gen_event_id in He. apply bind_Some in He as (h & Hh & Hp). split; [done|]. split; [|split].
  - exists h. split; [done|]. unfold parse_event_id in Hp. by destruct (event_id_parse _); simplify_eq.
  - destruct Hval as (auth & prev & ? & ? & ? & ?). by exists auth, prev.
  - unfold extract_room_id in Hr.
    assert ((value !! "room_id" ≫= as_str) = match value !! "room_id" with Some (JString r) => Some r | _ => None end) as Hrs
      by by destruct (value !! "room_id") as [[]|].
    rewrite Hrs in Hr. clear Hrs. destruct (match value !! "room_id" with Some (JString r) => Some r | _ => None end) as [r|] eqn:Hm.
    + apply ok_or_Ok in Hr. destruct (value !! "room_id") as [[]|]; simplify_eq. done.
    + assert (value !! "type" = Some (JString ty)) as Hty' by (destruct (value !! "type") as [[]|]; cbn in Hty; simplify_eq; done).
      destruct (_ || _) eqn:Hc; [done|]. apply orb_false_iff in Hc as [Hc1%bool_decide_eq_false Hc2%bool_decide_eq_false].
      apply dec_stable in Hc1 as ->. apply bind_Ok_inv in Hr as (c & _ & Hr). apply bind_Ok_inv in Hr as (rv & _ & Hr).
      destruct (requires_room_id rv) eqn:Hrv; [done|]. apply bind_Ok_inv in Hr as (id & Hid%ok_or_Ok & Hr%expect_Ok).
      assert (value !! "type" = Some (JString "m.room.create") ∧ is_Some (value !! "state_key")
        ∧ ∃ v id, requires_room_id v = false ∧ gen_event_id value v = Some id
            ∧ room_id_parse (replace_char "$"%char "!"%char id) = Some room_id) as Hgoal.
      { split; [done|]. split; [by apply not_eq_None_Some|]. by exists rv, id. }
      by destruct (value !! "room_id") as [[]|].
Qed.
End incoming.
