(* ===== verification/EventHandler.v ===== *)
(** * Events of other servers: fetching and authorizing them

    Models [src/service/rooms/event_handler/]: [handle_outlier_pdu.rs] (an event is checked
    against its auth events and kept as an outlier), [fetch_and_handle_outliers.rs] (events
    that are missing are asked of another server, with their auth events), [fetch_prev.rs]
    (the events before an event, sorted) and the helpers of [mod.rs].

    What the other server answers, what the signature check finds and what the clock says may
    differ from one time to the next: they are functions of the number of such interactions
    so far.  The recursion between the first two files takes fuel; [None] is running out of
    it.  The rest of the server is a component of the state that is not touched here. *)

From S2P Require Import Prelude Bytes DbMap Backoff RoomVersion Event EventAuth IncomingPdu TopoSort CurrentState.
From S2P Require Timeline.

Local Open Scope Z_scope.

Inductive Verified := VerifiedAll | VerifiedSignatures.

(** The outside of the server. *)
Class World := {
  (** [Instant::now()], in nanoseconds *)
  instant : nat → Z;
  (** the federation request for an event: the text of the event *)
  get_event : nat → ServerName → EventId → option string;
  (** [server_keys.verify_event] *)
  verify_event : nat → Object → RoomVersionId → option Verified;
  (** [server.check_running()] *)
  running : nat → bool;
}.

(** What serde and ruma make of an event's JSON, and its stored form. *)
Class EventWire (Content : Type) := {
  from_value : Object → option (Pdu Content);
  redact_object : Object → RoomVersionId → option Object;
  json_to_vec : Object → bytes;
  pdu_from_slice : bytes → option (Pdu Content);
  json_from_slice : bytes → option Object;
}.

(** Events with their JSON, by id. *)
Abbreviation EventInfo Content := (gmap EventId (Pdu Content * Object)).

Section handler.
Context {DB : Type} `{Store DB} {Content : Type} `{Ruma Content} `{RoomContents Content} `{Wire} `{EventWire Content} `{World}.
Context {R : Type}.
(** Which of the two reads of [select_ok] ends first. *)
Context (accepted_first : bool).

Record Handler := mkHandler {
  timeline : Timeline.Data DB;
  bad_event_ratelimiter : gmap EventId (Z * Z);
  interactions : nat;
  rest_of_server : R;
}.
Implicit Types (h : Handler) (event_id : EventId) (value : Object) (pdu : Pdu Content).

(** ** Calls *)

Definition HM (A : Type) : Type := Handler → option (outcome RequestError A * Handler).
Definition hret {A} (a : A) : HM A := λ h, Some (Ok a, h).
Definition hfail {A} (e : RequestError) : HM A := λ h, Some (Err e, h).
Definition hpure {A} (o : outcome RequestError A) : HM A := λ h, Some (o, h).
Definition out_of_fuel {A} : HM A := λ _, None.
Definition hbind {A B} (m : HM A) (f : A → HM B) : HM B := λ h,
  match m h with
  | Some (Ok a, h) => f a h
  | Some (Err e, h) => Some (Err e, h)
  | Some (Panic, h) => Some (Panic, h)
  | None => None
  end.
Local Notation "'let!' x := m 'in' k" := (hbind m (λ x, k))
  (at level 10, x name, m at level 200, k at level 200).
(** The result of a call whose error is handled. *)
Definition try_call {A} (m : HM A) : HM (option A) := λ h,
  match m h with
  | Some (Ok a, h) => Some (Ok (Some a), h)
  | Some (Err _, h) => Some (Ok None, h)
  | Some (Panic, h) => Some (Panic, h)
  | None => None
  end.

Definition read_timeline {A} (f : Timeline.Data DB → outcome Timeline.TimelineError A) : HM (option A) := λ h,
  (match f (timeline h) with
   | Ok a => Some (Ok (Some a), h)
   | Err _ => Some (Ok None, h)
   | Panic => Some (Panic, h)
   end).
Definition get_pdu event_id : HM (option (Pdu Content)) :=
  read_timeline (λ d, Timeline.get_pdu pdu_from_slice accepted_first d event_id).
Definition pdu_exists event_id : HM bool :=
  let! r := read_timeline (λ d, Timeline.pdu_exists accepted_first d event_id) in hret (bool_decide (is_Some r)).
Definition get_outlier_pdu_json event_id : HM (option Object) :=
  read_timeline (λ d, Timeline.get_as json_from_slice (Timeline.eventid_outlierpdu d) (bytes_of_string event_id)).
Definition add_pdu_outlier event_id (pdu : Object) : HM unit := λ h,
  let d := timeline h in
  Some (Ok tt, mkHandler
    (Timeline.mkData (map_insert (Timeline.eventid_outlierpdu d) (bytes_of_string event_id) (json_to_vec pdu))
       (Timeline.eventid_pduid d) (Timeline.pduid_pdu d)
       (Timeline.userroomid_highlightcount d) (Timeline.userroomid_notificationcount d))
    (bad_event_ratelimiter h) (interactions h) (rest_of_server h)).

Definition interact {A} (f : nat → A) : HM A := λ h,
  Some (Ok (f (interactions h)), mkHandler (timeline h) (bad_event_ratelimiter h) (S (interactions h)) (rest_of_server h)).
Definition now : HM Z := interact instant.
Definition check_running : HM unit :=
  let! b := interact running in if (b : bool) then hret tt else hfail OtherError.

(** *** The rate limiter *)

Definition MINUTE : Z := 60.
Definition HOUR : Z := 60 * MINUTE.

Definition back_off event_id : HM unit :=
  let! t := now in
  λ h, let tries := match bad_event_ratelimiter h !! event_id with Some (_, n) => Z.min (n + 1) u32_max | None => 1 end in
       Some (Ok tt, mkHandler (timeline h) (<[event_id := (t, tries)]> (bad_event_ratelimiter h)) (interactions h) (rest_of_server h)).
Definition backing_off (min_duration max_duration : Z) event_id : HM bool := λ h,
  match bad_event_ratelimiter h !! event_id with
  | None => Some (Ok false, h)
  | Some (time, tries) =>
      (let! t := now in hret (continue_exponential_backoff_secs min_duration max_duration (Z.max 0 (t - time)) tries)) h
  end.

(** *** [mod.rs] *)

Definition in_room (room_id : RoomId) pdu : bool :=
  match Event.room_id pdu with Some claimed_room_id => bool_decide (claimed_room_id = room_id) | None => true end.
Definition check_room_id (room_id : RoomId) pdu : HM unit :=
  if in_room room_id pdu then hret tt else hfail (Request InvalidParam "Found event from room in room").
Definition get_room_version_id (create_event : Pdu Content) : option RoomVersionId :=
  cc_room_version <$> from_CreateContent (content create_event).
Definition to_room_version (room_version_id : RoomVersionId) : outcome RequestError RoomVersion :=
  match RoomVersion_new room_version_id with Ok v => Ok v | _ => Panic end.

(** The server asked, the room and its create event are the same in the whole recursion. *)
Context (origin : ServerName) (create_event : Pdu Content) (room_id : RoomId).

(** ** [handle_outlier_pdu.rs] *)

(** The auth events that are stored, by id. *)
Fixpoint local_auth_events (ids : list EventId) (auth_events : gmap EventId (Pdu Content)) : HM (gmap EventId (Pdu Content)) :=
  match ids with
  | [] => hret auth_events
  | aid :: ids =>
      let! auth_event := get_pdu aid in
      match auth_event with
      | Some auth_event =>
          let! _ := check_room_id room_id auth_event in
          local_auth_events ids (<[aid := auth_event]> auth_events)
      | None => local_auth_events ids auth_events
      end
  end.

Definition add_fetched (auth_events : gmap EventId (Pdu Content)) (fetched : list (Pdu Content * option Object))
    : gmap EventId (Pdu Content) :=
  foldl (λ m x, <[Event.event_id x.1 := x.1]> m) auth_events fetched.

(** The auth events by type and state key; [expect] where the code has it. *)
Fixpoint auth_events_by_key (ids : list EventId) (auth_events : gmap EventId (Pdu Content))
    (by_key : gmap TypeStateKey (Pdu Content)) : HM (gmap TypeStateKey (Pdu Content)) :=
  match ids with
  | [] => hret by_key
  | id :: ids =>
      let! auth_event := hpure (expect (auth_events !! id)) in
      let! _ := check_room_id room_id auth_event in
      let! key := hpure (expect (state_key auth_event)) in
      match by_key !! (kind auth_event, key) with
      | Some _ => hfail (Request InvalidParam "Auth event's type and state_key combination exists multiple times")
      | None => auth_events_by_key ids auth_events (<[(kind auth_event, key) := auth_event]> by_key)
      end
  end.

(** Steps 1 to 3: signatures and hashes, with the redaction of an event whose hash differs. *)
Definition verified_object event_id value (room_version_id : RoomVersionId) : HM Object :=
  let! verified := interact (λ n, verify_event n value room_version_id) in
  match verified with
  | Some VerifiedAll => hret value
  | Some VerifiedSignatures =>
      match redact_object value room_version_id with
      | None => hfail (Request InvalidParam "Redaction failed")
      | Some obj =>
          let! known := pdu_exists event_id in
          if (known : bool) then hfail (Request InvalidParam "Event was redacted and we already knew about it") else hret obj
      end
  | None => hfail (Request InvalidParam "Signature verification failed")
  end.

Definition handle_outlier_body (fetch : list EventId → HM (list (Pdu Content * option Object)))
    event_id value (auth_events_known : bool) : HM (Pdu Content * Object) :=
  if negb (pdu_fits value) then hfail (Request TooLarge "PDU is too large")
  else
    let value := delete "unsigned" value in
    let! room_version_id := hpure (ok_or OtherError (get_room_version_id create_event)) in
    let! incoming_pdu := verified_object event_id value room_version_id in
    let incoming_pdu := <["event_id" := JString event_id]> incoming_pdu in
    let! pdu_event := hpure (ok_or (Request BadJson "Event is not a valid PDU") (from_value incoming_pdu)) in
    let! _ := check_room_id room_id pdu_event in
    let! auth_events := local_auth_events (Event.auth_events pdu_event) ∅ in
    let missing_auth_events :=
      if auth_events_known then filter (λ id, auth_events !! id = None) (Event.auth_events pdu_event)
      else Event.auth_events pdu_event in
    let! auth_events :=
      (if bool_decide (missing_auth_events ≠ []) || negb auth_events_known then
         let! fetched := fetch missing_auth_events in hret (add_fetched auth_events fetched)
       else hret auth_events) in
    let still_missing := filter (λ id, auth_events !! id = None) (Event.auth_events pdu_event) in
    if bool_decide (still_missing ≠ []) then
      hfail (Request InvalidParam "Could not fetch all auth events for outlier event")
    else
      let! auth_events_by_key := auth_events_by_key (Event.auth_events pdu_event) auth_events ∅ in
      let has_create_event := match auth_events_by_key !! (RoomCreate, EmptyString) with Some _ | None => true end in
      if negb has_create_event then hfail (Request InvalidParam "Incoming event refers to wrong create event.")
      else
        let! room_version := hpure (to_room_version room_version_id) in
        let! auth_check := hpure (match auth_check room_version pdu_event None (λ ty sk, auth_events_by_key !! (ty, sk)) create_event with
                                  | Ok b => Ok b | Err _ => Err (Request Forbidden "Auth check failed") | Panic => Panic end) in
        if negb auth_check then hfail (Request Forbidden "Auth check failed")
        else
          let! _ := add_pdu_outlier (Event.event_id pdu_event) incoming_pdu in
          hret (pdu_event, incoming_pdu).

(** ** [fetch_and_handle_outliers.rs] *)

(** The ids of the auth events of an answer that are valid. *)
Definition answered_auth_events value : list EventId :=
  match value !! "auth_events" ≫= as_array with
  | Some l => omap (λ j, as_str j ≫= parse_event_id) l
  | None => []
  end.

(** The answers for an event that is missing and for its auth events, in the order asked. *)
Fixpoint fetch_missing (fuel : nat) (todo_auth_events : list EventId) (events : list (EventId * Object)) (events_all : gset EventId)
    : HM (list (EventId * Object)) :=
  match todo_auth_events with
  | [] => hret events
  | next_id :: todo =>
      match fuel with
      | O => out_of_fuel
      | S fuel =>
          let! limited := backing_off (2 * MINUTE) (8 * HOUR) next_id in
          if (limited : bool) then fetch_missing fuel todo events events_all
          else if bool_decide (next_id ∈ events_all) then fetch_missing fuel todo events events_all
          else
            let! known := pdu_exists next_id in
            if (known : bool) then fetch_missing fuel todo events events_all
            else
              let! res := interact (λ n, get_event n origin next_id) in
              match res ≫= λ text, v ← get_room_version_id create_event; gen_event_id_canonical_json text v with
              | Some (_, value) =>
                  fetch_missing fuel (todo ++ answered_auth_events value) (events ++ [(next_id, value)]) ({[next_id]} ∪ events_all)
              | None => let! _ := back_off next_id in fetch_missing fuel todo events events_all
              end
      end
  end.

(** What is stored, or else fetched, for each id. *)
Fixpoint gather (fuel : nat) (ids : list EventId) : HM (list (EventId * option (Pdu Content) * list (EventId * Object))) :=
  match ids with
  | [] => hret []
  | id :: ids =>
      let! local_pdu := get_pdu id in
      let! events := match local_pdu with Some _ => hret [] | None => fetch_missing fuel [id] [] ∅ end in
      let! gathered := gather fuel ids in
      hret ((id, local_pdu, events) :: gathered)
  end.

Fixpoint handle_fetched (handle : EventId → Object → bool → HM (Pdu Content * Object)) (id : EventId) (events : list (EventId * Object))
    : HM (list (Pdu Content * option Object)) :=
  match events with
  | [] => hret []
  | (next_id, value) :: events =>
      let! limited := backing_off (5 * MINUTE) (24 * HOUR) next_id in
      if (limited : bool) then handle_fetched handle id events
      else
        let! handled := try_call (handle next_id value true) in
        match handled with
        | Some (pdu, json) =>
            let! pdus := handle_fetched handle id events in
            hret (if bool_decide (next_id = id) then (pdu, Some json) :: pdus else pdus)
        | None => let! _ := back_off next_id in handle_fetched handle id events
        end
  end.

Fixpoint handle_gathered (handle : EventId → Object → bool → HM (Pdu Content * Object))
    (gathered : list (EventId * option (Pdu Content) * list (EventId * Object))) : HM (list (Pdu Content * option Object)) :=
  match gathered with
  | [] => hret []
  | (id, local_pdu, events) :: gathered =>
      let! pdus := handle_fetched handle id (reverse events) in
      let! more := handle_gathered handle gathered in
      hret (match local_pdu with Some local_pdu => [(local_pdu, None)] | None => [] end ++ pdus ++ more)
  end.

Definition fetch_and_handle_body (fuel : nat) (handle : EventId → Object → bool → HM (Pdu Content * Object)) (ids : list EventId)
    : HM (list (Pdu Content * option Object)) :=
  let! gathered := gather fuel ids in handle_gathered handle gathered.

(** ** The recursion *)

Fixpoint handle_outlier_pdu (fuel : nat) event_id value (auth_events_known : bool) : HM (Pdu Content * Object) :=
  match fuel with
  | O => out_of_fuel
  | S fuel => handle_outlier_body (fetch_and_handle_body fuel (handle_outlier_pdu fuel)) event_id value auth_events_known
  end.
Definition fetch_and_handle_outliers (fuel : nat) (ids : list EventId) : HM (list (Pdu Content * option Object)) :=
  fetch_and_handle_body fuel (handle_outlier_pdu fuel) ids.

(** ** [fetch_prev.rs] *)

Context (max_fetch_prev_events : Z).
Definition u16_max : Z := 2 ^ 16 - 1.

(** [fuel] bounds the rounds, [depth] is the fuel of each fetch. *)
Fixpoint prev_loop (fuel depth : nat) (first_ts_in_room : Z) (todo : list EventId) (graph : Graph) (info : EventInfo Content) (amount : Z)
    : HM (Graph * EventInfo Content) :=
  match todo with
  | [] => hret (graph, info)
  | prev_event_id :: todo =>
      match fuel with
      | O => out_of_fuel
      | S fuel =>
          let! _ := check_running in
          let! fetched := fetch_and_handle_outliers depth [prev_event_id] in
          let stop := <[prev_event_id := ∅]> graph in
          match last fetched with
          | None => prev_loop fuel depth first_ts_in_room todo stop info amount
          | Some (pdu, json_opt) =>
              let! _ := check_room_id room_id pdu in
              if bool_decide (max_fetch_prev_events < amount) then prev_loop fuel depth first_ts_in_room todo stop info amount
              else
                let! json_opt := match json_opt with Some json => hret (Some json) | None => get_outlier_pdu_json prev_event_id end in
                match json_opt with
                | None => prev_loop fuel depth first_ts_in_room todo stop info amount
                | Some json =>
                    let info := <[prev_event_id := (pdu, json)]> info in
                    if bool_decide (first_ts_in_room < origin_server_ts pdu) then
                      prev_loop fuel depth first_ts_in_room
                        (todo ++ filter (λ prev_prev, graph !! prev_prev = None) (prev_events pdu))
                        (<[prev_event_id := list_to_set (prev_events pdu)]> graph) info (Z.min (amount + 1) u16_max)
                    else prev_loop fuel depth first_ts_in_room todo stop info amount
                end
          end
      end
  end.

Definition prev_key (info : EventInfo Content) event_id : outcome Error (Z * Z) :=
  Ok (0, match info !! event_id with Some (pdu, _) => origin_server_ts pdu | None => 0 end).

Context `{Schedule}.

Definition fetch_prev (fuel depth : nat) (first_ts_in_room : Z) (initial_set : list EventId) : HM (list EventId * EventInfo Content) :=
  let! found := prev_loop fuel depth first_ts_in_room initial_set ∅ ∅ 0 in
  let '(graph, info) := found in
  let! sorted := hpure (match lexicographical_topological_sort (prev_key info) (λ X, order 33 (elements X)) graph (order 34 (map_to_list graph)) with
                        | Ok l => Ok l | Err _ => Err (DatabaseError "Error sorting prev events") | Panic => Panic end) in
  hret (sorted, info).
End handler.
Arguments Handler : clear implicits.
