(* ===== verification/EventHandlerProps.v ===== *)
(** * What the handling of outliers promises

    Whatever another server answers: an event is kept only after its auth events are stored
    and allow it, so that the stored events are closed under auth events. *)

From S2P Require Import Prelude Bytes DbMap Backoff RoomVersion Event EventAuth IncomingPdu CurrentState EventHandler.
From S2P Require Timeline.

Local Open Scope Z_scope.

(** An event is read back from its stored JSON; it has the id the object names and the auth
    events it lists, which a redaction keeps. *)
Class EventWireLaws (Content : Type) `{Ruma Content} `{Wire} `{EventWire Content} : Prop := {
  slice_of_vec o : pdu_from_slice (json_to_vec o) = from_value o;
  value_event_id o id pdu : from_value (<["event_id" := JString id]> o) = Some pdu → Event.event_id pdu = id;
  value_auth_events o pdu : from_value o = Some pdu → Event.auth_events pdu = answered_auth_events o;
  redact_auth_events o v o' : redact_object o v = Some o' → o' !! "auth_events" = o !! "auth_events";
}.

Section props.
Context {DB : Type} `{Store DB} {Content : Type} `{Ruma Content} `{RoomContents Content} `{!Wire} `{!EventWire Content} `{!EventWireLaws Content} `{World}.
Context {R : Type} (accepted_first : bool) (origin : ServerName) (create_event : Pdu Content) (room_id : RoomId).
Implicit Types (h : Handler DB R) (event_id : EventId) (value : Object) (pdu : Pdu Content).

(** ** What is stored *)

Definition outlier_event h event_id : option (Pdu Content) :=
  match Timeline.get_outlier_pdu pdu_from_slice (timeline h) event_id with Ok pdu => Some pdu | _ => None end.
Definition timeline_event h event_id : option (Pdu Content) :=
  match Timeline.get_non_outlier_pdu pdu_from_slice (timeline h) event_id with Ok pdu => Some pdu | _ => None end.
Definition knows h event_id pdu : Prop := outlier_event h event_id = Some pdu ∨ timeline_event h event_id = Some pdu.
Definition stored h event_id : Prop := ∃ pdu, knows h event_id pdu.

(** Events are under their own ids, and with an event its auth events are stored. *)
Definition auth_closed h : Prop :=
  ∀ id pdu, knows h id pdu → Event.event_id pdu = id ∧ Forall (stored h) (Event.auth_events pdu).

(** What the handling of outliers leaves alone, and that it forgets nothing. *)
Definition grows h h' : Prop :=
  (∀ id, stored h id → stored h' id) ∧ rest_of_server h' = rest_of_server h
  ∧ Timeline.eventid_pduid (timeline h') = Timeline.eventid_pduid (timeline h)
  ∧ Timeline.pduid_pdu (timeline h') = Timeline.pduid_pdu (timeline h).
#[local] Instance grows_refl : Reflexive grows.
Proof. intros h. by split_and!. Qed.
#[local] Instance grows_trans : Transitive grows.
Proof. intros h1 h2 h3 (Hs & ? & ? & ?) (Hs' & ? & ? & ?). split_and!; [auto|congruence..]. Qed.

(** ** Where an event comes from *)

(** The auth events [evs] of an event, by state key, allow it: they are in the room, no two for
    the same state. *)
Definition keyed (x : string * Pdu Content) : TypeStateKey := (kind x.2, x.1).
Definition allowed_by pdu (evs : list (string * Pdu Content)) : Prop :=
  ∃ v rv (bk : gmap TypeStateKey (Pdu Content)),
    get_room_version_id create_event = Some v ∧ RoomVersion_new v = Ok rv ∧ in_room room_id pdu = true
    ∧ Forall2 (λ a (x : string * Pdu Content), Event.event_id x.2 = a ∧ in_room room_id x.2 = true ∧ state_key x.2 = Some x.1) (Event.auth_events pdu) evs
    ∧ NoDup (keyed <$> evs)
    ∧ (∀ tk e, bk !! tk = Some e ↔ ∃ x, x ∈ evs ∧ tk = keyed x ∧ e = x.2)
    ∧ auth_check rv pdu None (λ ty sk, bk !! (ty, sk)) create_event = Ok true.

(** What a check of the signatures and the hash let through, as it came or redacted. *)
Definition verified (v : RoomVersionId) (o : Object) : Prop :=
  ∃ n value, verify_event n value v = Some VerifiedAll ∧ o = value
             ∨ verify_event n value v = Some VerifiedSignatures ∧ redact_object value v = Some o.

(** An event that is there from the start, or was verified and is allowed by auth events of
    which the same holds. *)
Context (start : EventId → Pdu Content → Prop).
Inductive vouched : EventId → Pdu Content → Prop :=
| vouched_start id pdu : start id pdu → vouched id pdu
| vouched_allowed id pdu v o evs :
    get_room_version_id create_event = Some v → verified v o → from_value (<["event_id" := JString id]> o) = Some pdu →
    allowed_by pdu evs → Forall2 (λ a (x : string * Pdu Content), vouched a x.2) (Event.auth_events pdu) evs → vouched id pdu.
Definition accepted pdu : Prop :=
  ∃ evs, allowed_by pdu evs ∧ Forall2 (λ a (x : string * Pdu Content), vouched a x.2) (Event.auth_events pdu) evs.

(** The invariant of the recursion. *)
Definition sound h : Prop := auth_closed h ∧ ∀ id pdu, knows h id pdu → vouched id pdu.

(** ** Specifications of calls *)

Definition spec {A} (P : Handler DB R → Prop) (m : HM (DB := DB) (R := R) A) (Q : A → Handler DB R → Prop) : Prop :=
  ∀ h r h', sound h → P h → m h = Some (r, h') →
    sound h' ∧ grows h h' ∧ match r with Ok a => Q a h' | _ => True end.
(** A condition that what is stored later keeps. *)
Definition lasting (P : Handler DB R → Prop) : Prop := ∀ h h', P h → grows h h' → P h'.

Lemma spec_bind {A B} P (m : HM A) (f : A → HM B) Q S :
  spec P m Q → (∀ a, spec (Q a) (f a) S) → spec P (hbind m f) S.
Proof.
  intros Hm Hf h r h' Hc HP. unfold hbind. destruct (m h) as [[[a|e|] h1]|] eqn:Em; [|intros [= <- <-]..|done];
    destruct (Hm h _ h1 Hc HP Em) as (Hc1 & Hg1 & HQ); [|by split_and!..].
  intros Ef. destruct (Hf a h1 r h' Hc1 HQ Ef) as (? & ? & ?). split_and!; [done|by etransitivity|done].
Qed.
Lemma spec_ret {A} (a : A) (P : Handler DB R → Prop) (Q : A → Handler DB R → Prop) : (∀ h, P h → Q a h) → spec P (hret a) Q.
Proof. intros HQ h r h' Hc HP [= <- <-]. split_and!; [done|reflexivity|by apply HQ]. Qed.
Lemma spec_fail {A} e (P : Handler DB R → Prop) (Q : A → Handler DB R → Prop) : spec P (hfail e) Q.
Proof. intros h r h' Hc HP [= <- <-]. split_and!; [done|reflexivity|done]. Qed.
Lemma spec_pure {A} (o : outcome RequestError A) (P : Handler DB R → Prop) (Q : A → Handler DB R → Prop) :
  (∀ a h, o = Ok a → P h → Q a h) → spec P (hpure o) Q.
Proof. intros HQ h r h' Hc HP [= <- <-]. split_and!; [done|reflexivity|]. destruct o; naive_solver. Qed.
Lemma spec_fuel {A} (P : Handler DB R → Prop) (Q : A → Handler DB R → Prop) : spec P out_of_fuel Q.
Proof. done. Qed.
Lemma spec_frame {A} F P (m : HM A) Q : lasting F → spec P m Q → spec (λ h, F h ∧ P h) m (λ a h, F h ∧ Q a h).
Proof.
  intros HF Hm h r h' Hc [Hh HP] E. destruct (Hm h r h' Hc HP E) as (? & Hg & HQ). split_and!; [done..|].
  destruct r; [|done..]. split; [by eapply HF|done].
Qed.
Lemma spec_conseq {A} (P P' : Handler DB R → Prop) (m : HM A) (Q Q' : A → Handler DB R → Prop) :
  spec P' m Q' → (∀ h, P h → P' h) → (∀ a h, Q' a h → Q a h) → spec P m Q.
Proof. intros Hm HP HQ h r h' Hc Hh E. destruct (Hm h r h' Hc (HP _ Hh) E) as (? & ? & Hr). split_and!; [done..|]. destruct r; auto. Qed.

Lemma spec_pre {A} (P P' : Handler DB R → Prop) (m : HM A) Q : spec P' m Q → (∀ h, P h → P' h) → spec P m Q.
Proof. intros Hm HP. by eapply spec_conseq. Qed.

(** Calls that store nothing. *)
Definition silent {A} (m : HM (DB := DB) (R := R) A) : Prop :=
  ∀ h r h', m h = Some (r, h') → timeline h' = timeline h ∧ rest_of_server h' = rest_of_server h.
Lemma same_timeline h h' : timeline h' = timeline h → rest_of_server h' = rest_of_server h → grows h h' ∧ (sound h → sound h').
Proof.
  intros E Er. assert (∀ id p, knows h' id p ↔ knows h id p) as Hk by (intros; unfold knows, outlier_event, timeline_event; by rewrite E).
  assert (∀ id, stored h' id ↔ stored h id) as Hs by (intros; unfold stored; by setoid_rewrite Hk).
  split; [split_and!; [intros id; by rewrite Hs|done|by rewrite E..]|].
  intros [Hc Hv]. split; [|intros id p Hp%Hk; by apply Hv].
  intros id p Hp%Hk. destruct (Hc id p Hp) as [? Ha]. split; [done|]. eapply Forall_impl; [exact Ha|]. intros a. by rewrite Hs.
Qed.
Lemma spec_silent {A} (P : Handler DB R → Prop) (m : HM A) : lasting P → silent m → spec P m (λ _, P).
Proof.
  intros HP Hm h r h' Hc Hh E. destruct (Hm h r h' E) as [Et Er]. destruct (same_timeline h h' Et Er) as [Hg Hc'].
  split_and!; [auto|done|]. destruct r; [|done..]. by eapply HP.
Qed.

Lemma silent_interact {A} (f : nat → A) : silent (interact f).
Proof. by intros h r h' [= <- <-]. Qed.
Lemma silent_ret {A} (a : A) : silent (hret a).
Proof. by intros h r h' [= <- <-]. Qed.
Lemma silent_bind {A B} (m : HM A) (f : A → HM B) : silent m → (∀ a, silent (f a)) → silent (hbind m f).
Proof.
  intros Hm Hf h r h'. unfold hbind. destruct (m h) as [[[a|e|] h1]|] eqn:Em; [|intros [= <- <-]; by eapply Hm..|done].
  intros Ef. destruct (Hm _ _ _ Em), (Hf _ _ _ _ Ef). split; congruence.
Qed.
Lemma silent_now : silent now.
Proof. apply silent_interact. Qed.
Lemma silent_back_off id : silent (back_off id).
Proof. apply silent_bind; [apply silent_now|]. by intros t h r h' [= <- <-]. Qed.
Lemma silent_backing_off lo hi id : silent (backing_off lo hi id).
Proof.
  intros h r h'. unfold backing_off. destruct (_ !! _) as [[time tries]|]; [|by intros [= <- <-]].
  apply (silent_bind now); [apply silent_now|]. intros t. apply silent_ret.
Qed.
Lemma silent_read {A} (f : Timeline.Data DB → outcome Timeline.TimelineError A) : silent (read_timeline f).
Proof. intros h r h'. unfold read_timeline. destruct (f _); by intros [= <- <-]. Qed.
Lemma silent_pdu_exists id : silent (pdu_exists accepted_first id).
Proof. apply silent_bind; [apply silent_read|]. intros a. apply silent_ret. Qed.

Lemma spec_try {A} P (m : HM A) Q :
  lasting P → spec P m Q → spec P (try_call m) (λ o h, P h ∧ match o with Some a => Q a h | None => True end).
Proof.
  intros HP Hm h r h' Hc Hh. unfold try_call. destruct (m h) as [[[a|e|] h1]|] eqn:Em; [intros [= <- <-]..|done];
    destruct (Hm h _ h1 Hc Hh Em) as (Hc1 & Hg1 & HQ); split_and!; try done; by eapply HP.
Qed.

(** An event of that id that is stored, and has come in the proper way. *)
Definition held h id pdu : Prop := Event.event_id pdu = id ∧ stored h id ∧ vouched id pdu.
Lemma held_lasting id pdu : lasting (λ h, held h id pdu).
Proof. intros h h' (? & ? & ?) (Hs & _). split_and!; auto. Qed.
Lemma spec_get_pdu P id : lasting P →
  spec P (get_pdu accepted_first id) (λ o h, P h ∧ match o with Some pdu => held h id pdu | None => True end).
Proof.
  intros HP h r h' Hc Hh E. destruct (spec_silent P _ HP (silent_read _) h r h' Hc Hh E) as (Hc' & Hg & Hr). split_and!; [done..|].
  destruct r as [o| |]; [|done..]. split; [done|]. destruct o as [pdu|]; [|done]. unfold get_pdu, read_timeline in E.
  destruct (Timeline.get_pdu _ _ _ _) as [p|e|] eqn:Hp; [|done..]. injection E as -> <-.
  destruct Hc as [Hc Hv]. assert (knows h id pdu) as Hk; [|split_and!; [by apply (Hc id)|by exists pdu|by apply Hv]].
  unfold knows, outlier_event, timeline_event. unfold Timeline.get_pdu, Timeline.select_ok in Hp.
  destruct accepted_first, (Timeline.get_non_outlier_pdu pdu_from_slice (timeline h) id) eqn:E1,
    (Timeline.get_outlier_pdu pdu_from_slice (timeline h) id) eqn:E2; simplify_eq; auto.
Qed.

(** ** The auth events of an event *)

Definition auth_ok (m : gmap EventId (Pdu Content)) h : Prop := ∀ a e, m !! a = Some e → held h a e.
Lemma auth_ok_lasting m : lasting (auth_ok m).
Proof. intros h h' Hm Hg a e Ha. eapply held_lasting; [by apply Hm|done]. Qed.

Lemma spec_check_room (P : Handler DB R → Prop) pdu : spec P (check_room_id room_id pdu) (λ _ h, P h ∧ in_room room_id pdu = true).
Proof. unfold check_room_id. destruct (in_room _ _); [by apply spec_ret|apply spec_fail]. Qed.

Lemma spec_local_auth_events ids m : spec (auth_ok m) (local_auth_events accepted_first room_id ids m) auth_ok.
Proof.
  revert m. induction ids as [|aid ids IH]; intros m; [by apply spec_ret|]. cbn. eapply spec_bind; [apply spec_get_pdu, auth_ok_lasting|].
  intros [e|]; [|eapply spec_conseq; [apply IH|by intros h [? _]|done]].
  eapply spec_bind; [apply spec_check_room|]. intros [].
  eapply spec_conseq; [apply IH| |done]. intros h [[Hm He] _] a e' [[<- <-]|[_ Ha]]%lookup_insert_Some; [done|by apply Hm].
Qed.

Lemma add_fetched_ok m fetched h :
  auth_ok m h → Forall (λ x : Pdu Content * option Object, held h (Event.event_id x.1) x.1) fetched → auth_ok (add_fetched m fetched) h.
Proof.
  intros Hm Hf. revert m Hm. induction Hf as [|x l Hx _ IH]; intros m Hm; [done|]. cbn. apply IH.
  intros a e [[<- <-]|[_ Ha]]%lookup_insert_Some; [done|by apply Hm].
Qed.

(** The map of the auth events by key: one entry for each of them. *)
Lemma auth_events_by_key_spec ids m bk bk' h h' :
  auth_events_by_key room_id ids m bk h = Some (Ok bk', h') →
  ∃ evs : list (string * Pdu Content),
    Forall2 (λ a x, m !! a = Some x.2 ∧ in_room room_id x.2 = true ∧ state_key x.2 = Some x.1) ids evs
    ∧ NoDup (keyed <$> evs) ∧ (∀ x, x ∈ evs → bk !! keyed x = None)
    ∧ ∀ tk e, bk' !! tk = Some e ↔ bk !! tk = Some e ∨ ∃ x, x ∈ evs ∧ tk = keyed x ∧ e = x.2.
Proof.
  revert bk h. induction ids as [|a ids IH]; intros bk h; cbn.
  - intros [= -> <-]. exists []. split_and!; [constructor|constructor|by intros ? ?%not_elem_of_nil|].
    intros tk e. split; [by left|]. intros [?|(? & ?%not_elem_of_nil & _)]; done.
  - unfold hbind, hpure, check_room_id. destruct (m !! a) as [e|] eqn:Ha; [|done]. cbn. destruct (in_room room_id e) eqn:Hr; [|done].
    cbn. destruct (state_key e) as [key|] eqn:Hk; [|done]. cbn. destruct (bk !! (kind e, key)) eqn:Hb; [done|].
    intros (evs & Hevs & Hnd & Hnew & Hbk)%IH. exists ((key, e) :: evs). split_and!.
    + by constructor.
    + rewrite fmap_cons. constructor; [|done]. intros (x & E & Hx)%list_elem_of_fmap. specialize (Hnew x Hx). rewrite <- E in Hnew.
      unfold keyed in Hnew. cbn in Hnew. by rewrite lookup_insert_eq in Hnew.
    + intros x [->|Hx]%elem_of_cons; [done|]. specialize (Hnew x Hx). apply lookup_insert_None in Hnew. tauto.
    + intros tk e'. rewrite Hbk, lookup_insert_Some. setoid_rewrite elem_of_cons. split.
      * intros [[[<- <-]|[_ ?]]|(x & ? & ? & ?)]; [right; exists (key, e); auto|by left|right; exists x; auto].
      * intros [Hb'|(x & [->|Hx] & -> & ->)]; [left; right; split; [congruence|done]|by left; left|right; by exists x].
Qed.

(** An event that was accepted. *)
Definition kept id (x : Pdu Content * Object) h : Prop :=
  Event.event_id x.1 = id ∧ from_value x.2 = Some x.1 ∧ stored h id ∧ Forall (stored h) (Event.auth_events x.1)
  ∧ vouched id x.1 ∧ accepted x.1.
Lemma kept_lasting id x : lasting (kept id x).
Proof.
  intros h h' (? & ? & ? & Hf & ? & ?) (Hs & _). split_and!; auto. eapply Forall_impl; [exact Hf|]. auto.
Qed.

Lemma add_outlier_spec h id pdu o :
  sound h → from_value (<["event_id" := JString id]> o) = Some pdu → Forall (stored h) (Event.auth_events pdu) → vouched id pdu →
  ∃ h', add_pdu_outlier id (<["event_id" := JString id]> o) h = Some (Ok tt, h') ∧ sound h' ∧ grows h h' ∧ knows h' id pdu.
Proof.
  intros [Hc Hvo] Hv Ha Hvouch. eexists. split; [done|]. match goal with |- sound ?x ∧ _ => set (h' := x) end.
  assert (∀ a, outlier_event h' a = if bool_decide (a = id) then Some pdu else outlier_event h a) as Ho.
  { intros a. unfold outlier_event, Timeline.get_outlier_pdu, Timeline.get_as. cbn. case_bool_decide as E.
    - subst a. rewrite map_get_insert_eq. cbn. by rewrite slice_of_vec, Hv.
    - rewrite map_get_insert_ne; [done|]. intros ?%Bytes.bytes_of_string_inj. congruence. }
  assert (∀ a, timeline_event h' a = timeline_event h a) as Ht by done.
  assert (knows h' id pdu) as Hk by (left; rewrite Ho; by rewrite bool_decide_eq_true_2).
  assert (∀ a, stored h a → stored h' a) as Hs.
  { intros a [p [Hp|Hp]]; [|exists p; right; by rewrite Ht]. destruct (decide (a = id)) as [->|Hne]; [by exists pdu|].
    exists p. left. by rewrite Ho, bool_decide_eq_false_2. }
  split_and!; [split|by split_and!|done]; intros a p [Hp|Hp].
  - rewrite Ho in Hp. case_bool_decide as E; [|].
    + injection Hp as <-. subst a. split; [by eapply value_event_id|]. eapply Forall_impl; [exact Ha|]. auto.
    + destruct (Hc a p) as [? Hf]; [by left|]. split; [done|]. eapply Forall_impl; [exact Hf|]. auto.
  - destruct (Hc a p) as [? Hf]; [by right; rewrite <- Ht|]. split; [done|]. eapply Forall_impl; [exact Hf|]. auto.
  - rewrite Ho in Hp. case_bool_decide as E; [|apply Hvo; by left]. injection Hp as <-. by subst a.
  - apply Hvo. right. by rewrite <- Ht.
Qed.

(** ** Handling and fetching *)

Definition always (h : Handler DB R) : Prop := True.
Lemma always_lasting : lasting always.
Proof. done. Qed.
Definition fetch_ok (fetch : list EventId → HM (DB := DB) (R := R) (list (Pdu Content * option Object))) : Prop :=
  ∀ ids, spec always (fetch ids) (λ l h, Forall (λ x, held h (Event.event_id x.1) x.1) l).
Definition handle_ok (handle : EventId → Object → bool → HM (DB := DB) (R := R) (Pdu Content * Object)) : Prop :=
  ∀ id value known, spec always (handle id value known) (kept id).

Lemma silent_fail {A} e : silent (hfail (A := A) e).
Proof. by intros h r h' [= <- <-]. Qed.
Lemma silent_verified id value v : silent (verified_object accepted_first id value v).
Proof.
  apply silent_bind; [apply silent_interact|]. intros [[]|]; [apply silent_ret| |apply silent_fail].
  destruct (redact_object value v); [|apply silent_fail]. apply silent_bind; [apply silent_pdu_exists|].
  intros []; [apply silent_fail|apply silent_ret].
Qed.

Lemma spec_verified P id value v : lasting P → spec P (verified_object accepted_first id value v) (λ o h, P h ∧ verified v o).
Proof.
  intros HP h r h' Hc Hh E. destruct (spec_silent P _ HP (silent_verified id value v) h r h' Hc Hh E) as (? & ? & Hr).
  split_and!; [done..|]. destruct r as [o|e|]; [|done..]. split; [done|]. exists (interactions h), value. revert E.
  unfold verified_object, hbind at 1, interact. destruct (verify_event _ value v) as [[]|] eqn:Ev; [|..|done].
  - intros [= <- _]. by left.
  - destruct (redact_object value v) as [o'|]; [|done]. unfold hbind. destruct (pdu_exists _ _ _) as [[[[]| |] ?]|]; [done| |done..].
    intros [= <- _]. by right.
Qed.

Lemma by_key_state ids (m : gmap EventId (Pdu Content)) bk h r h' : auth_events_by_key room_id ids m bk h = Some (r, h') → h' = h.
Proof.
  revert bk. induction ids as [|a ids IH]; intros bk; cbn; [by intros [= <- <-]|]. unfold hbind, hpure, check_room_id.
  destruct (m !! a) as [e|]; cbn; [|by intros [= <- <-]]. destruct (in_room room_id e); cbn; [|by intros [= <- <-]].
  destruct (state_key e) as [k|]; cbn; [|by intros [= <- <-]]. destruct (bk !! _); [by intros [= <- <-]|apply IH].
Qed.

(** The checks of an event once its auth events are at hand. *)
Lemma authorize_spec id v o pdu m :
  get_room_version_id create_event = Some v → in_room room_id pdu = true → from_value (<["event_id" := JString id]> o) = Some pdu →
  verified v o → filter (λ a, m !! a = None) (Event.auth_events pdu) = [] →
  spec (auth_ok m)
    (hbind (auth_events_by_key room_id (Event.auth_events pdu) m ∅) (λ bk,
       if negb (match bk !! (RoomCreate, EmptyString) with Some _ | None => true end)
       then hfail (Request InvalidParam "Incoming event refers to wrong create event.")
       else hbind (hpure (to_room_version v)) (λ rv,
         hbind (hpure (match auth_check rv pdu None (λ ty sk, bk !! (ty, sk)) create_event with
                       | Ok b => Ok b | Err _ => Err (Request Forbidden "Auth check failed") | Panic => Panic end)) (λ b,
           if negb b then hfail (Request Forbidden "Auth check failed")
           else hbind (add_pdu_outlier (Event.event_id pdu) (<["event_id" := JString id]> o)) (λ _,
             hret (pdu, <["event_id" := JString id]> o))))))
    (kept id).
Proof.
  intros Hv Hroom Hval Hver Hmiss h r h' Hc Hm. unfold hbind at 1.
  destruct (auth_events_by_key room_id (Event.auth_events pdu) m ∅ h) as [[[bk|e|] h1]|] eqn:Hbk; [|intros [= <- <-]..|done];
    pose proof (by_key_state _ _ _ _ _ _ Hbk) as ->; [|by split_and!; [..|reflexivity|]; done..].
  replace (negb _) with false by by case_match. unfold hbind at 1, hpure at 1, to_room_version.
  destruct (RoomVersion_new v) as [rv|e|] eqn:Hrv; [|intros [= <- <-]; by split_and!; [..|reflexivity|]..].
  unfold hbind at 1, hpure at 1. destruct (auth_check _ _ _ _ _) as [[]|e|] eqn:Hau; cbn [negb]; [|intros [= <- <-]; by split_and!; [..|reflexivity|]..].
  apply auth_events_by_key_spec in Hbk as (evs & Hevs & Hnd & _ & Hbk).
  assert (Forall (stored h) (Event.auth_events pdu)) as Hst.
  { apply Forall_forall. intros a Ha. destruct (m !! a) as [e|] eqn:Hma; [by destruct (Hm a e Hma) as (_ & ? & _)|].
    assert (a ∈ filter (λ a, m !! a = None) (Event.auth_events pdu)) as Hin by (by apply list_elem_of_filter).
    rewrite Hmiss in Hin. by apply not_elem_of_nil in Hin. }
  pose proof (value_event_id _ _ _ Hval) as Hid. rewrite Hid.
  assert (allowed_by pdu evs ∧ Forall2 (λ a (x : string * Pdu Content), vouched a x.2) (Event.auth_events pdu) evs) as [Hal Hvo].
  { split.
    - exists v, rv, bk. split_and!; [done..| |done| |done].
      + eapply Forall2_impl; [exact Hevs|]. intros a x (Ha & Hr & Hk'). by destruct (Hm a _ Ha).
      + intros tk e. rewrite Hbk, lookup_empty. naive_solver.
    - eapply Forall2_impl; [exact Hevs|]. intros a x (Ha & _). by destruct (Hm a _ Ha) as (_ & _ & ?). }
  destruct (add_outlier_spec h id pdu o Hc Hval Hst) as (h2 & Hadd & Hc2 & Hg & Hk); [by eapply vouched_allowed|].
  unfold hbind. rewrite Hadd. intros [= <- <-]. split_and!; [done..|]. split_and!; [done|done|by exists pdu| |by eapply vouched_allowed|].
  - eapply Forall_impl; [exact Hst|]. by destruct Hg.
  - by exists evs.
Qed.

Lemma spec_bind_pure {A B} (o : outcome RequestError A) (f : A → HM B) P S :
  (∀ a, o = Ok a → spec P (f a) S) → spec P (hbind (hpure o) f) S.
Proof.
  intros Hf. intros h r h' Hc Hh. unfold hbind, hpure. destruct o as [a|e|]; [by apply Hf|intros [= <- <-]..]; by split_and!; [..|reflexivity|].
Qed.
Lemma spec_bind_room {B} pdu (f : unit → HM B) P S :
  (in_room room_id pdu = true → spec P (f tt) S) → spec P (hbind (check_room_id room_id pdu) f) S.
Proof.
  intros Hf. unfold check_room_id. destruct (in_room _ _); [by apply Hf|]. intros h r h' Hc Hh [= <- <-]. by split_and!; [..|reflexivity|].
Qed.
Lemma spec_bind_silent {A B} (m : HM A) (f : A → HM B) P S :
  lasting P → silent m → (∀ a, spec P (f a) S) → spec P (hbind m f) S.
Proof. intros HP Hm Hf. eapply spec_bind; [by apply spec_silent|]. done. Qed.

Lemma spec_always {A} (m : HM A) Q : spec always m Q → ∀ h r h', sound h → m h = Some (r, h') →
  sound h' ∧ grows h h' ∧ match r with Ok a => Q a h' | _ => True end.
Proof. intros Hm h r h' Hc. by apply Hm. Qed.

Lemma handle_body_ok fetch : fetch_ok fetch → handle_ok (handle_outlier_body accepted_first create_event room_id fetch).
Proof.
  intros Hf id value known. unfold handle_outlier_body. destruct (negb _); [apply spec_fail|].
  apply spec_bind_pure. intros v Hv%ok_or_Ok. apply (spec_bind _ _ _ (λ o h, always h ∧ verified v o)); [by apply spec_verified|].
  intros o. intros h r h' Hc [_ Hver]. revert h r h' Hc. apply (spec_always (hbind _ _)).
  apply spec_bind_pure. intros pdu Hval%ok_or_Ok. apply spec_bind_room. intros Hroom.
  eapply spec_bind; [eapply spec_conseq; [apply (spec_local_auth_events _ ∅)| |done]|].
  { intros h _ a e. by rewrite lookup_empty. }
  intros m. cbv zeta. apply (spec_bind _ _ _ auth_ok).
  - destruct (_ || _); [|by apply spec_ret]. eapply spec_bind.
    + eapply (spec_conseq (auth_ok m)); [apply (spec_frame (auth_ok m) always); [apply auth_ok_lasting|apply Hf]|by intros h ?; split|done].
    + intros l. apply spec_ret. intros h [? ?]. by apply add_fetched_ok.
  - intros m'. case_bool_decide as Hmiss; [apply spec_fail|]. by apply authorize_spec.
Qed.

(** *** Fetching *)

Lemma silent_fetch_missing fuel todo events all : silent (fetch_missing accepted_first origin create_event fuel todo events all).
Proof.
  revert todo events all. induction fuel as [|fuel IH]; intros [|id todo] events all; [apply silent_ret|done|apply silent_ret|].
  cbn. apply silent_bind; [apply silent_backing_off|]. intros []; [apply IH|]. case_bool_decide; [apply IH|].
  apply silent_bind; [apply silent_pdu_exists|]. intros []; [apply IH|]. apply silent_bind; [apply silent_interact|].
  intros res. destruct (res ≫= _) as [[? value]|]; [apply IH|]. apply silent_bind; [apply silent_back_off|]. intros _. apply IH.
Qed.

Definition gathered_ok (l : list (EventId * option (Pdu Content) * list (EventId * Object))) h : Prop :=
  Forall (λ x, match x.1.2 with Some pdu => held h (Event.event_id pdu) pdu | None => True end) l.
Lemma gathered_ok_lasting l : lasting (gathered_ok l).
Proof.
  intros h h' Hl Hg. eapply Forall_impl; [exact Hl|]. intros [[id p] evs]. cbn. destruct p as [pdu|]; [|done].
  intros Hp. by eapply (held_lasting _ _ h).
Qed.

Lemma spec_gather fuel ids : spec always (gather accepted_first origin create_event fuel ids) gathered_ok.
Proof.
  induction ids as [|id ids IH]; [apply spec_ret; constructor|]. cbn. eapply spec_bind; [apply spec_get_pdu, always_lasting|]. intros p.
  apply (spec_conseq _ (gathered_ok [(id, p, [])]) _ _ gathered_ok); [| |done].
  - apply spec_bind_silent; [apply gathered_ok_lasting|destruct p; [apply silent_ret|apply silent_fetch_missing]|]. intros evs. cbv beta.
    eapply spec_bind; [eapply spec_conseq; [apply (spec_frame (gathered_ok [(id, p, [])]) always); [apply gathered_ok_lasting|exact IH]|by intros h ?; split|done]|].
    intros l. apply spec_ret. intros h [Hp Hl]. apply Forall_cons. split; [by apply Forall_inv in Hp|done].
  - intros h [_ Hp]. constructor; [|constructor]. cbn. destruct p as [pdu|]; [|done]. destruct Hp as (E & Hs & Hv). by rewrite E.
Qed.

Lemma spec_handle_fetched handle id events : handle_ok handle →
  spec always (handle_fetched handle id events) (λ l h, Forall (λ x : Pdu Content * option Object, held h (Event.event_id x.1) x.1) l).
Proof.
  intros Hh. induction events as [|[next_id value] events IH]; [apply spec_ret; constructor|]. cbn.
  apply spec_bind_silent; [done|apply silent_backing_off|]. intros []; [exact IH|].
  eapply spec_bind; [apply (spec_try always); [done|apply Hh]|]. intros [[pdu json]|].
  - eapply spec_bind; [eapply spec_conseq; [apply (spec_frame (kept next_id (pdu, json)) always); [apply kept_lasting|exact IH]|by intros h [_ ?]; split|done]|].
    intros l. apply spec_ret. intros h [(Hid & _ & Hs & _ & Hv & _) Hl]. case_bool_decide; [|done]. constructor; [|done]. cbn in *. by rewrite Hid.
  - apply (spec_pre _ always); [|done]. apply spec_bind_silent; [done|apply silent_back_off|]. intros _. exact IH.
Qed.

Lemma spec_handle_gathered handle l : handle_ok handle →
  spec (gathered_ok l) (handle_gathered handle l) (λ l h, Forall (λ x : Pdu Content * option Object, held h (Event.event_id x.1) x.1) l).
Proof.
  intros Hh. induction l as [|[[id p] events] l IH]; [apply spec_ret; constructor|]. cbn.
  set (S := λ (l : list (Pdu Content * option Object)) h, Forall (λ x, held h (Event.event_id x.1) x.1) l).
  assert (∀ l, lasting (S l)) as HS.
  { intros l' h h' Hl Hg. eapply Forall_impl; [exact Hl|]. intros x Hx. by eapply (held_lasting _ _ h). }
  eapply spec_bind; [eapply spec_conseq; [apply (spec_frame (gathered_ok ((id, p, events) :: l)) always);
    [apply gathered_ok_lasting|by apply spec_handle_fetched]|by intros h ?; split|done]|].
  intros pdus. eapply (spec_bind _ _ _ (λ more h, (gathered_ok ((id, p, events) :: l) h ∧ S pdus h) ∧ S more h)).
  - eapply spec_conseq; [apply (spec_frame (λ h, gathered_ok ((id, p, events) :: l) h ∧ S pdus h) (gathered_ok l)); [|exact IH]| |done].
    + intros h h' [? ?] ?. split; [by eapply gathered_ok_lasting|by eapply HS].
    + intros h [Hg Hp]. split; [done|]. by apply Forall_inv_tail in Hg.
  - intros more. apply spec_ret. intros h [[Hg Hp] Hm]. apply Forall_app. split; [|by apply Forall_app].
    apply Forall_inv in Hg. cbn in Hg. destruct p; [by constructor|constructor].
Qed.

Lemma fetch_body_ok fuel handle : handle_ok handle → fetch_ok (fetch_and_handle_body accepted_first origin create_event fuel handle).
Proof.
  intros Hh ids. unfold fetch_and_handle_body. eapply spec_bind; [apply spec_gather|]. intros l. by apply spec_handle_gathered.
Qed.

Lemma handle_outlier_ok fuel : handle_ok (handle_outlier_pdu accepted_first origin create_event room_id fuel).
Proof.
  induction fuel as [|fuel IH]; [intros ???; apply spec_fuel|]. intros id value known. cbn. by apply handle_body_ok, fetch_body_ok.
Qed.

End props.

Section outlier.
Context {DB : Type} `{Store DB} {Content : Type} `{Ruma Content} `{RoomContents Content} `{!Wire} `{!EventWire Content} `{!EventWireLaws Content} `{World}.
Context {R : Type} (accepted_first : bool) (origin : ServerName) (create_event : Pdu Content) (room_id : RoomId).
Implicit Types (h : Handler DB R) (event_id : EventId) (value : Object) (pdu : Pdu Content).

Lemma hbind_inv {A B} (m : HM (DB := DB) (R := R) A) (f : A → HM B) h b h' :
  hbind m f h = Some (Ok b, h') → ∃ a h1, m h = Some (Ok a, h1) ∧ f a h1 = Some (Ok b, h').
Proof. unfold hbind. destruct (m h) as [[[a|e|] h1]|]; [|done..]. eauto. Qed.
Lemma hpure_inv {A} (o : outcome RequestError A) h a h' : hpure o h = Some (Ok a, h') → o = Ok a ∧ h' = h.
Proof. unfold hpure. by intros [= -> ->]. Qed.

(** The event that is returned is the one of that id that was verified, and it was stored last. *)
Lemma handle_outlier_inv fuel event_id value known h pdu json h' :
  handle_outlier_pdu accepted_first origin create_event room_id fuel event_id value known h = Some (Ok (pdu, json), h') →
  Event.event_id pdu = event_id ∧ outlier_event h' event_id = Some pdu
  ∧ ∃ v o h1, get_room_version_id create_event = Some v
      ∧ verified_object accepted_first event_id (delete "unsigned" value) v h = Some (Ok o, h1)
      ∧ json = <["event_id" := JString event_id]> o ∧ from_value json = Some pdu.
Proof.
  destruct fuel as [|fuel]; [done|]. cbn [handle_outlier_pdu]. unfold handle_outlier_body. destruct (negb _); [done|].
  intros (v & h0 & [Hv%ok_or_Ok ->]%hpure_inv & (o & h1 & Ho & Hr)%hbind_inv)%hbind_inv.
  apply hbind_inv in Hr as (pdu' & h2 & [Hval%ok_or_Ok ->]%hpure_inv & (? & h3 & _ & (m & h4 & _ & (m' & h5 & _ & Hr)%hbind_inv)%hbind_inv)%hbind_inv).
  case_bool_decide; [done|]. apply hbind_inv in Hr as (bk & h6 & _ & Hr). destruct (negb _); [done|].
  apply hbind_inv in Hr as (rv & h7 & _ & (b & h8 & _ & Hr)%hbind_inv). destruct b; [|done]. cbn [negb] in Hr.
  apply hbind_inv in Hr as (? & h9 & Hadd & Hret). injection Hret as -> <- <-. injection Hadd as _ <-.
  pose proof (value_event_id _ _ _ Hval) as Hid. split; [done|]. split; [|by exists v, o, h1].
  unfold outlier_event, Timeline.get_outlier_pdu, Timeline.get_as. cbn. by rewrite Hid, map_get_insert_eq; cbn; rewrite slice_of_vec, Hval.
Qed.

(** C20: however often an event is handled and whatever other servers answer, and whether it is
    accepted or not: the stored events stay closed under auth events, none is forgotten and
    the timeline is as it was.  When the event is accepted, it is what the check of its
    signatures and hash left of the value; it is stored under its id, and so are all its auth
    events.  The auth events that were checked are in the room, no two of them are for the
    same type and state key, they allow the event, and each is vouched for: stored under that
    id before, or verified in the run and allowed by auth events that are vouched for too. *)
Theorem outlier_accepted fuel event_id value known h r h' :
  auth_closed h →
  handle_outlier_pdu accepted_first origin create_event room_id fuel event_id value known h = Some (r, h') →
  auth_closed h' ∧ grows h h' ∧ (∀ id pdu, knows h' id pdu → vouched create_event room_id (knows h) id pdu)
  ∧ ∀ pdu json, r = Ok (pdu, json) →
      kept create_event room_id (knows h) event_id (pdu, json) h' ∧ knows h' event_id pdu
      ∧ ∃ v o h1, get_room_version_id create_event = Some v
          ∧ verified_object accepted_first event_id (delete "unsigned" value) v h = Some (Ok o, h1)
          ∧ json = <["event_id" := JString event_id]> o.
Proof.
  intros Hc E.
  assert (sound create_event room_id (knows h) h) as Hs by (split; [done|]; by constructor).
  destruct (handle_outlier_ok accepted_first origin create_event room_id (knows h) fuel event_id value known h r h' Hs I E) as ([? ?] & ? & Hr).
  split_and!; [done..|]. intros pdu json ->. split; [exact Hr|].
  apply handle_outlier_inv in E as (_ & Ho & v & o & h1 & ? & ? & ? & _). split; [by left|]. by exists v, o, h1.
Qed.
End outlier.

(** ** The positions of events *)

(** Handling and fetching outliers gives no event a position in the timeline, whatever is stored. *)
Section positions.
Context {DB : Type} `{Store DB} {Content : Type} `{Ruma Content} `{RoomContents Content} `{!Wire} `{!EventWire Content} `{World}.
Context {R : Type}.
Local Abbreviation HM := (HM (DB := DB) (R := R)).
Implicit Types (h : Handler DB R).

Definition same_positions h h' : Prop := Timeline.eventid_pduid (timeline h') = Timeline.eventid_pduid (timeline h).
#[export] Instance same_positions_preorder : PreOrder same_positions.
Proof. split; [by intros h|]. intros h1 h2 h3 E1 E2. unfold same_positions in *. congruence. Qed.
Definition still {A} (m : HM A) : Prop := ∀ h r h', m h = Some (r, h') → same_positions h h'.

Lemma still_bind {A B} (m : HM A) (f : A → HM B) : still m → (∀ a, still (f a)) → still (hbind m f).
Proof.
  intros Hm Hf h r h'. unfold hbind. destruct (m h) as [[[a|e|] h1]|] eqn:Em; [|intros [= <- <-]; by eapply Hm..|done].
  intros Ef. etrans; [by eapply Hm|by eapply Hf].
Qed.
(** A call after one that gives no position: what holds of the positions stays so, or it depends on the second call. *)
Lemma still_then {A B} (m : HM A) (f : A → HM B) (G : Handler DB R → Prop) h :
  still m → (∀ h1, same_positions h h1 → G h1) →
  (∀ a h1, m h = Some (Ok a, h1) → same_positions h h1 → ∀ r h', f a h1 = Some (r, h') → G h') →
  ∀ r h', hbind m f h = Some (r, h') → G h'.
Proof.
  intros Hm HG Hf r h'. unfold hbind. destruct (m h) as [[[a|e|] h1]|] eqn:Em; [|intros [= <- <-]; by eapply HG, Hm..|done].
  intros Ef. eapply Hf; [done|by eapply Hm|done].
Qed.
Lemma still_ret {A} (a : A) : still (hret a).
Proof. by intros h r h' [= <- <-]. Qed.
Lemma still_fail {A} e : still (hfail (A := A) e).
Proof. by intros h r h' [= <- <-]. Qed.
Lemma still_pure {A} (o : outcome RequestError A) : still (hpure o).
Proof. by intros h r h' [= <- <-]. Qed.
Lemma still_fuel {A} : still (out_of_fuel (A := A)).
Proof. done. Qed.
Lemma still_try {A} (m : HM A) : still m → still (try_call m).
Proof. intros Hm h r h'. unfold try_call. destruct (m h) as [[[a|e|] h1]|] eqn:Em; [intros [= <- <-]; by eapply Hm..|done]. Qed.
Lemma still_interact {A} (f : nat → A) : still (interact f).
Proof. by intros h r h' [= <- <-]. Qed.
Lemma still_silent {A} (m : HM A) : silent m → still m.
Proof. intros Hm h r h' E. apply Hm in E as [E _]. unfold same_positions. by rewrite E. Qed.
Lemma still_add id o : still (add_pdu_outlier id o).
Proof. by intros h r h' [= <- <-]. Qed.
Lemma still_if {A} (b : bool) (m m' : HM A) : still m → still m' → still (if b then m else m').
Proof. by destruct b. Qed.
End positions.

Create HintDb still_db.
#[export] Hint Resolve still_bind still_ret still_fail still_pure still_fuel still_try still_interact still_add still_if : still_db.
#[export] Hint Resolve still_silent silent_read silent_now silent_back_off silent_backing_off silent_pdu_exists silent_verified
  silent_fetch_missing : still_db.

Section still_outliers.
Context {DB : Type} `{Store DB} {Content : Type} `{Ruma Content} `{RoomContents Content} `{!Wire} `{!EventWire Content} `{World}.
Context {R : Type} (accepted_first : bool) (origin : ServerName) (create_event : Pdu Content) (room_id : RoomId).
Local Abbreviation HM := (HM (DB := DB) (R := R)).

Lemma still_get_pdu id : still (DB := DB) (R := R) (get_pdu (Content := Content) accepted_first id).
Proof. apply still_silent, silent_read. Qed.
Lemma still_check_room (pdu : Pdu Content) : still (DB := DB) (R := R) (check_room_id room_id pdu).
Proof. unfold check_room_id. destruct (in_room _ _); auto with still_db. Qed.
Lemma still_local_auth_events ids (m : gmap EventId (Pdu Content)) : still (DB := DB) (R := R) (local_auth_events accepted_first room_id ids m).
Proof.
  revert m. induction ids as [|a ids IH]; intros m; cbn; [apply still_ret|]. apply still_bind; [apply still_get_pdu|].
  intros [e|]; [|apply IH]. apply still_bind; [apply still_check_room|]. intros _. apply IH.
Qed.
Lemma still_by_key ids (m bk : gmap _ (Pdu Content)) : still (DB := DB) (R := R) (auth_events_by_key room_id ids m bk).
Proof. intros h r h' ->%by_key_state. done. Qed.

Lemma still_handle_body fetch id value known :
  (∀ ids, still (fetch ids)) → still (DB := DB) (R := R) (handle_outlier_body accepted_first create_event room_id fetch id value known).
Proof.
  intros Hf. unfold handle_outlier_body. apply still_if; [apply still_fail|]. apply still_bind; [apply still_pure|]. intros v.
  apply still_bind; [apply still_silent, silent_verified|]. intros o. apply still_bind; [apply still_pure|]. intros pdu.
  apply still_bind; [apply still_check_room|]. intros _. apply still_bind; [apply still_local_auth_events|]. intros m.
  apply still_bind; [apply still_if; [apply still_bind; [apply Hf|]; intros ?; apply still_ret|apply still_ret]|]. intros m'.
  case_bool_decide; [apply still_fail|]. apply still_bind; [apply still_by_key|]. intros bk. apply still_if; [apply still_fail|].
  apply still_bind; [apply still_pure|]. intros rv. apply still_bind; [apply still_pure|]. intros b. apply still_if; [apply still_fail|].
  apply still_bind; [apply still_add|]. intros _. apply still_ret.
Qed.
Lemma still_gather fuel ids : still (DB := DB) (R := R) (gather accepted_first origin create_event fuel ids).
Proof.
  induction ids as [|id ids IH]; cbn; [apply still_ret|]. apply still_bind; [apply still_get_pdu|]. intros p.
  apply still_bind; [destruct p; [apply still_ret|apply still_silent, silent_fetch_missing]|]. intros evs.
  apply still_bind; [apply IH|]. intros l. apply still_ret.
Qed.
Lemma still_handle_fetched (handle : EventId → Object → bool → HM (Pdu Content * Object)) id events :
  (∀ i v k, still (handle i v k)) → still (handle_fetched handle id events).
Proof.
  intros Hh. induction events as [|[next_id value] events IH]; cbn; [apply still_ret|].
  apply still_bind; [apply still_silent, silent_backing_off|]. intros b. apply still_if; [apply IH|].
  apply still_bind; [apply still_try, Hh|]. intros [[pdu json]|].
  - apply still_bind; [apply IH|]. intros l. apply still_ret.
  - apply still_bind; [apply still_silent, silent_back_off|]. intros _. apply IH.
Qed.
Lemma still_fetch_body fuel (handle : EventId → Object → bool → HM (Pdu Content * Object)) ids :
  (∀ i v k, still (handle i v k)) → still (fetch_and_handle_body accepted_first origin create_event fuel handle ids).
Proof.
  intros Hh. unfold fetch_and_handle_body. apply still_bind; [apply still_gather|]. intros l.
  induction l as [|[[id p] events] l IH]; cbn; [apply still_ret|]. apply still_bind; [by apply still_handle_fetched|].
  intros pdus. apply still_bind; [apply IH|]. intros more. apply still_ret.
Qed.
Lemma still_handle_outlier fuel id value known :
  still (DB := DB) (R := R) (handle_outlier_pdu accepted_first origin create_event room_id fuel id value known).
Proof.
  revert id value known. induction fuel as [|fuel IH]; intros id value known; cbn; [apply still_fuel|].
  apply still_handle_body. intros ids. by apply still_fetch_body.
Qed.
Lemma still_fetch_outliers fuel ids : still (DB := DB) (R := R) (fetch_and_handle_outliers accepted_first origin create_event room_id fuel ids).
Proof. apply still_fetch_body. intros. apply still_handle_outlier. Qed.
Lemma still_prev_loop amount_max fuel depth ts todo graph info amount :
  still (DB := DB) (R := R) (prev_loop accepted_first origin create_event room_id amount_max fuel depth ts todo graph info amount).
Proof.
  revert todo graph info amount. induction fuel as [|fuel IH]; intros [|id todo] graph info amount; [apply still_ret|apply still_fuel|apply still_ret|].
  cbn [prev_loop]. apply still_bind.
  { apply still_bind; [apply still_interact|]. intros b. apply still_if; [apply still_ret|apply still_fail]. }
  intros _. apply still_bind; [apply still_fetch_outliers|]. intros fetched. cbv zeta. destruct (last fetched) as [[pdu json]|]; [|apply IH].
  apply still_bind; [apply still_check_room|]. intros _. apply still_if; [apply IH|].
  apply still_bind; [destruct json; [apply still_ret|apply still_silent, silent_read]|]. intros o. destruct o; [|apply IH].
  apply still_if; apply IH.
Qed.
Lemma still_fetch_prev `{Schedule} amount_max fuel depth ts ids :
  still (DB := DB) (R := R) (fetch_prev accepted_first origin create_event room_id amount_max fuel depth ts ids).
Proof.
  unfold fetch_prev. apply still_bind; [apply still_prev_loop|]. intros [graph info].
  apply still_bind; [apply still_pure|]. intros l. apply still_ret.
Qed.
End still_outliers.
#[export] Hint Resolve still_get_pdu still_check_room still_fetch_outliers still_handle_outlier still_fetch_prev : still_db.
