(* ===== verification/EventHandlerEnds.v ===== *)
(** * Whether the recursion of the event handler ends

    It does when the answers of the other server are what event ids promise: an event has
    auth events that are older.  An id that an answer does not have is only logged, though,
    so nothing makes the other server keep this promise, and then the recursion need not end.

    * Fetching the events before an event

    [fetch_prev] walks from the previous events of an incoming event backwards until events
    are known, too old or too many, and sorts what it found.  It ends however far back the
    other server claims the room to go, and the order puts an event after the events before
    it. *)

From S2P Require Import Prelude Bytes DbMap Backoff RoomVersion Event EventAuth IncomingPdu TopoSort CurrentState EventHandler EventHandlerProps.
From S2P Require Timeline.

Section ends.
Context {DB : Type} `{Store DB} {Content : Type} `{Ruma Content} `{RoomContents Content} `{!Wire} `{!EventWire Content} `{!EventWireLaws Content} `{World}.
Context {R : Type} (accepted_first : bool) (origin : ServerName) (create_event : Pdu Content) (room_id : RoomId).
Implicit Types (h : Handler DB R) (id : EventId) (value : Object).

(** ** Calls that return *)

Definition returns {A} (m : HM (DB := DB) (R := R) A) (Q : A → Prop) : Prop :=
  ∀ h, ∃ r h', m h = Some (r, h') ∧ ∀ a, r = Ok a → Q a.

Lemma returns_bind {A B} (m : HM A) (f : A → HM B) Q S : returns m Q → (∀ a, Q a → returns (f a) S) → returns (hbind m f) S.
Proof.
  intros Hm Hf h. destruct (Hm h) as ([a|e|] & h1 & Em & HQ); unfold hbind; rewrite Em; [apply Hf; auto|eauto 10..].
  all: eexists _, _; split; [done|]; done.
Qed.
Lemma returns_ret {A} (a : A) (Q : A → Prop) : Q a → returns (hret a) Q.
Proof. intros HQ h. eexists _, _. split; [done|]. by intros ? [= <-]. Qed.
Lemma returns_pure {A} (o : outcome RequestError A) (Q : A → Prop) : (∀ a, o = Ok a → Q a) → returns (hpure o) Q.
Proof. intros HQ h. eexists _, _. split; [done|]. auto. Qed.
Lemma returns_fail {A} e (Q : A → Prop) : returns (hfail e) Q.
Proof. intros h. eexists _, _. split; done. Qed.
Lemma returns_try {A} (m : HM A) Q : returns m Q → returns (try_call m) (λ o, ∀ a, o = Some a → Q a).
Proof.
  intros Hm h. destruct (Hm h) as ([a|e|] & h1 & Em & HQ); unfold try_call; rewrite Em; eexists _, _; (split; [done|]); intros ?; [|intros [= <-]; done|done].
  intros [= <-] a' [= <-]. auto.
Qed.
Lemma returns_weaken {A} (m : HM A) (Q S : A → Prop) : returns m Q → (∀ a, Q a → S a) → returns m S.
Proof. intros Hm HQ h. destruct (Hm h) as (r & h' & ? & ?). exists r, h'. split; [done|auto]. Qed.
Lemma returns_interact {A} (f : nat → A) : returns (interact f) (λ a, ∃ n, a = f n).
Proof. intros h. eexists _, _. split; [done|]. intros a [= <-]. eauto. Qed.
Lemma returns_read {A} (f : Timeline.Data DB → outcome Timeline.TimelineError A) : returns (read_timeline f) (λ _, True).
Proof. intros h. unfold read_timeline. destruct (f _); eauto. Qed.
Lemma returns_pdu_exists id : returns (pdu_exists accepted_first id) (λ _, True).
Proof. eapply returns_bind; [apply returns_read|]. intros. by apply returns_ret. Qed.
Lemma returns_back_off id : returns (back_off id) (λ _, True).
Proof. eapply returns_bind; [apply returns_interact|]. intros t _ h. eauto. Qed.
Lemma returns_backing_off lo hi id : returns (backing_off lo hi id) (λ _, True).
Proof.
  intros h. unfold backing_off. destruct (_ !! _) as [[time tries]|]; [|eauto].
  apply (returns_bind now _ (λ _, True)); [|by intros; apply returns_ret]. eapply returns_weaken; [apply returns_interact|done].
Qed.
Lemma returns_check_room (pdu : Pdu Content) : returns (check_room_id room_id pdu) (λ _, True).
Proof. unfold check_room_id. destruct (in_room _ _); [by apply returns_ret|apply returns_fail]. Qed.

(** A call that is followed by others whatever it returns. *)
Ltac after lemma := eapply returns_bind; [apply lemma|intros ? _].

Lemma returns_verified id value v :
  returns (verified_object accepted_first id value v)
    (λ o, o !! "auth_events" = value !! "auth_events").
Proof.
  eapply returns_bind; [apply returns_interact|]. intros vf _. destruct vf as [[]|]; [by apply returns_ret| |apply returns_fail].
  destruct (redact_object value v) as [o|] eqn:Ho; [|apply returns_fail]. after returns_pdu_exists.
  case_match; [apply returns_fail|]. apply returns_ret. by eapply redact_auth_events.
Qed.
Lemma returns_local ids (m : gmap EventId (Pdu Content)) : returns (local_auth_events accepted_first room_id ids m) (λ _, True).
Proof.
  revert m. induction ids as [|a ids IH]; intros m; [by apply returns_ret|]. cbn. after @returns_read. destruct a0; [|apply IH].
  after returns_check_room. apply IH.
Qed.
Lemma returns_by_key ids (m : gmap EventId (Pdu Content)) bk : returns (auth_events_by_key room_id ids m bk) (λ _, True).
Proof.
  revert bk. induction ids as [|a ids IH]; intros bk; [by apply returns_ret|]. cbn.
  apply (returns_bind _ _ (λ _, True)); [by apply returns_pure|]. intros e _. after returns_check_room.
  apply (returns_bind _ _ (λ _, True)); [by apply returns_pure|]. intros k _. destruct (bk !! _); [apply returns_fail|apply IH].
Qed.

(** An event is handled when the events it may fetch are. *)
Lemma returns_body fetch id value known :
  (∀ ids, (∀ a, a ∈ ids → a ∈ answered_auth_events value) → returns (fetch ids) (λ _, True)) →
  returns (handle_outlier_body accepted_first create_event room_id fetch id value known) (λ _, True).
Proof.
  intros Hf. unfold handle_outlier_body. destruct (negb _); [apply returns_fail|].
  apply (returns_bind _ _ (λ _, True)); [by apply returns_pure|]. intros v _.
  eapply returns_bind; [apply returns_verified|]. intros o Ho.
  apply (returns_bind _ _ (λ pdu, ∀ a, a ∈ Event.auth_events pdu → a ∈ answered_auth_events value)).
  { apply returns_pure. intros pdu Hp%ok_or_Ok a. rewrite (value_auth_events _ _ Hp). unfold answered_auth_events.
    by rewrite lookup_insert_ne, Ho, lookup_delete_ne by done. }
  intros pdu Hp. after returns_check_room. after returns_local. apply (returns_bind _ _ (λ _, True)).
  { destruct (_ || _); [|by apply returns_ret]. apply (returns_bind _ _ (λ _, True)); [|by intros; apply returns_ret].
    apply Hf. intros a' Ha. apply Hp. destruct known; [by apply list_elem_of_filter in Ha as [_ ?]|done]. }
  intros m _. case_bool_decide; [apply returns_fail|]. after returns_by_key. destruct (negb _); [apply returns_fail|].
  apply (returns_bind _ _ (λ _, True)); [by apply returns_pure|]. intros rv _.
  apply (returns_bind _ _ (λ _, True)); [by apply returns_pure|]. intros b _. destruct (negb b); [apply returns_fail|].
  apply (returns_bind _ _ (λ _, True)); [intros h; eauto|]. intros. by apply returns_ret.
Qed.

(** ** Answers with older auth events *)

Section ranked.
Context (rank : EventId → nat) (branching : nat).
Hypothesis branching_pos : 1 ≤ branching.
(** The auth events of an answer are older than the event asked for, and not too many. *)
Hypothesis answers_ranked : ∀ n id text v calculated value,
  get_event n origin id = Some text → gen_event_id_canonical_json text v = Some (calculated, value) →
  length (answered_auth_events value) ≤ branching ∧ Forall (λ a, rank a < rank id) (answered_auth_events value).

(** As many events at most are below an event of some rank. *)
Fixpoint tree_size (r : nat) : nat := match r with O => 1 | S r => 1 + branching * tree_size r end.
Lemma tree_size_pos r : 1 ≤ tree_size r.
Proof. destruct r; cbn; lia. Qed.
Lemma tree_size_step r : 1 + tree_size r ≤ tree_size (S r).
Proof. cbn. pose proof (tree_size_pos r). nia. Qed.
Lemma tree_size_mono r r' : r ≤ r' → tree_size r ≤ tree_size r'.
Proof. induction 1; [done|]. pose proof (tree_size_step m). lia. Qed.

Definition ranked (bound : nat) (l : list (EventId * Object)) : Prop :=
  Forall (λ x : EventId * Object, rank x.1 ≤ bound ∧ Forall (λ a, rank a < rank x.1) (answered_auth_events x.2)) l.
Definition work (ids : list EventId) : nat := sum_list_with (λ id, tree_size (rank id)) ids.

Lemma work_cons id ids : work (id :: ids) = tree_size (rank id) + work ids.
Proof. done. Qed.
Lemma work_app ids ids' : work (ids ++ ids') = work ids + work ids'.
Proof. apply sum_list_with_app. Qed.
Lemma work_below ids r : Forall (λ a, rank a ≤ r) ids → work ids ≤ length ids * tree_size r.
Proof.
  induction 1 as [|a ids Ha _ IH]; [cbn; lia|]. rewrite work_cons. cbn [length].
  pose proof (tree_size_mono _ _ Ha). lia.
Qed.
Lemma work_answers id ids : length ids ≤ branching → Forall (λ a, rank a < rank id) ids → S (work ids) ≤ tree_size (rank id).
Proof.
  intros Hl Hr. destruct (rank id) as [|r]; cbn.
  - destruct Hr as [|a l Ha _]; [cbn; lia|lia].
  - pose proof (work_below ids r ltac:(eapply Forall_impl; [exact Hr|]; cbn; lia)). pose proof (tree_size_pos r). nia.
Qed.

Lemma returns_fetch_missing bound fuel todo events all :
  work todo ≤ fuel → Forall (λ id, rank id ≤ bound) todo → ranked bound events →
  returns (fetch_missing accepted_first origin create_event fuel todo events all) (ranked bound).
Proof.
  revert todo events all. induction fuel as [|fuel IH]; intros [|id todo] events all Hw Ht He; [by apply returns_ret| |by apply returns_ret|].
  { rewrite work_cons in Hw. pose proof (tree_size_pos (rank id)). lia. }
  rewrite work_cons in Hw. apply Forall_cons in Ht as [Hid Ht]. cbn. pose proof (tree_size_pos (rank id)).
  after returns_backing_off. destruct a; [apply IH; [lia|done..]|]. case_bool_decide; [apply IH; [lia|done..]|].
  after returns_pdu_exists. destruct a; [apply IH; [lia|done..]|]. eapply returns_bind; [apply returns_interact|]. intros res [n ->].
  destruct (_ ≫= _) as [[calc value]|] eqn:Hres; [|after returns_back_off; apply IH; [lia|done..]].
  apply bind_Some in Hres as (text & Htext & Hres). apply bind_Some in Hres as (v & _ & Hres).
  destruct (answers_ranked n id text v calc value) as [Hl Hr]; [done..|]. pose proof (work_answers id _ Hl Hr). apply IH.
  - rewrite work_app. lia.
  - apply Forall_app. split; [done|]. eapply Forall_impl; [exact Hr|]. cbn. lia.
  - apply Forall_app. split; [done|]. by apply Forall_singleton.
Qed.

Lemma returns_gather bound fuel ids :
  tree_size bound ≤ fuel → Forall (λ id, rank id ≤ bound) ids →
  returns (gather accepted_first origin create_event fuel ids) (Forall (λ x, ranked bound x.2)).
Proof.
  intros Hf. induction 1 as [|id ids Hid _ IH]; [apply returns_ret; constructor|]. cbn. after @returns_read.
  apply (returns_bind _ _ (ranked bound)).
  - destruct a; [apply returns_ret; constructor|]. apply returns_fetch_missing; [|by constructor|constructor].
    rewrite work_cons. unfold work. cbn. pose proof (tree_size_mono _ _ Hid). lia.
  - intros evs Hevs. eapply returns_bind; [exact IH|]. intros l Hl. apply returns_ret. by constructor.
Qed.

Lemma returns_handle_fetched bound handle id events :
  (∀ id value, rank id ≤ bound → Forall (λ a, rank a < rank id) (answered_auth_events value) → returns (handle id value true) (λ _, True)) →
  ranked bound events → returns (handle_fetched handle id events) (λ _ : list (Pdu Content * option Object), True).
Proof.
  intros Hh. induction 1 as [|[next value] events [Hn Hv] _ IH]; [by apply returns_ret|]. cbn. after returns_backing_off.
  destruct a; [exact IH|]. eapply returns_bind; [apply returns_try; by apply Hh|]. intros [[pdu json]|] _.
  - eapply returns_bind; [exact IH|]. intros. by apply returns_ret.
  - after returns_back_off. exact IH.
Qed.

Lemma returns_fetch_body bound fuel handle ids :
  tree_size bound ≤ fuel → Forall (λ id, rank id ≤ bound) ids →
  (∀ id value, rank id ≤ bound → Forall (λ a, rank a < rank id) (answered_auth_events value) → returns (handle id value true) (λ _, True)) →
  returns (fetch_and_handle_body accepted_first origin create_event fuel handle ids) (λ _, True).
Proof.
  intros Hf Hids Hh. eapply returns_bind; [by apply (returns_gather bound)|]. intros l Hl.
  induction Hl as [|[[id p] events] l Hx _ IH]; [by apply returns_ret|]. cbn. eapply returns_bind; [apply (returns_handle_fetched bound); [done|by apply Forall_reverse]|].
  intros pdus _. eapply returns_bind; [exact IH|]. intros. by apply returns_ret.
Qed.

Lemma returns_handle_outlier r fuel id value known :
  tree_size r < fuel → Forall (λ a, rank a < r) (answered_auth_events value) →
  returns (handle_outlier_pdu accepted_first origin create_event room_id fuel id value known) (λ _, True).
Proof.
  revert r id value known. induction fuel as [|fuel IH]; intros r id value known Hf Hv; [lia|]. cbn. apply returns_body.
  intros ids Hids. destruct r as [|r].
  - assert (ids = []) as ->.
    { destruct ids as [|a ids]; [done|]. specialize (Hids a ltac:(by left)).
      apply (proj1 (Forall_forall _ _) Hv) in Hids. lia. }
    by apply returns_ret.
  - apply (returns_fetch_body r).
    + pose proof (tree_size_step r). lia.
    + apply Forall_forall. intros a Ha%Hids. apply (proj1 (Forall_forall _ _) Hv) in Ha. lia.
    + intros id' value' Hr' Hv'. apply (IH (rank id')); [|done]. pose proof (tree_size_step r). pose proof (tree_size_mono _ _ Hr'). lia.
Qed.

Lemma returns_fetch bound fuel ids :
  tree_size bound < fuel → Forall (λ id, rank id ≤ bound) ids →
  returns (fetch_and_handle_outliers accepted_first origin create_event room_id fuel ids) (λ _, True).
Proof.
  intros Hf Hids. apply (returns_fetch_body bound); [lia|done|]. intros id value Hr Hv.
  apply (returns_handle_outlier (rank id)); [|done]. pose proof (tree_size_mono _ _ Hr). lia.
Qed.

(** C21: when the answers of the other server list auth events that are older than the event
    asked for, the handling of an event returns: fuel for as many events as may be below the
    event is enough, whatever the server stores. *)
Theorem handle_outlier_ends r fuel id value known h :
  Forall (λ a, rank a < r) (answered_auth_events value) → tree_size r < fuel →
  ∃ res h', handle_outlier_pdu accepted_first origin create_event room_id fuel id value known h = Some (res, h').
Proof. intros Hv Hf. destruct (returns_handle_outlier r fuel id value known Hf Hv h) as (res & h' & ? & _). eauto. Qed.
End ranked.

(** ** An answer that names itself *)

Section cyclic.
Context (A calculated : EventId) (text : string) (value : Object) (v : RoomVersionId) (pdu : Pdu Content).
Hypothesis version : get_room_version_id create_event = Some v.
(** The other server answers the request for [A] with an event of the room that lists [A] as
    its auth event, well signed and within the limits. *)
Hypothesis answer : ∀ n, get_event n origin A = Some text.
Hypothesis answer_object : gen_event_id_canonical_json text v = Some (calculated, value).
Hypothesis names_itself : answered_auth_events value = [A].
Hypothesis fits : pdu_fits value = true.
Hypothesis signed : ∀ n, verify_event n (delete "unsigned" value) v = Some VerifiedAll.
Hypothesis is_pdu : from_value (<["event_id" := JString A]> (delete "unsigned" value)) = Some pdu.
Hypothesis room_fits : in_room room_id pdu = true.

(** The event is not stored and requests for it are not limited. *)
Definition unknown h : Prop :=
  get_pdu accepted_first A h = Some (Ok None, h) ∧ pdu_exists accepted_first A h = Some (Ok false, h)
  ∧ bad_event_ratelimiter h !! A = None.

Lemma unknown_interact h n : unknown h → unknown (mkHandler (timeline h) (bad_event_ratelimiter h) n (rest_of_server h)).
Proof.
  unfold unknown, get_pdu, pdu_exists, read_timeline, hbind, hret. cbn. intros (H1' & H2' & ?). split_and!; [| |done].
  - by destruct (Timeline.get_pdu _ _ _ _).
  - by destruct (Timeline.pdu_exists _ _ _) as [[]| |].
Qed.

Lemma hbind_Ok {B C} (m : HM (DB := DB) (R := R) B) (f : B → HM C) h b h' : m h = Some (Ok b, h') → hbind m f h = f b h'.
Proof. intros E. unfold hbind. by rewrite E. Qed.
Lemma hbind_None {B C} (m : HM (DB := DB) (R := R) B) (f : B → HM C) h : m h = None → hbind m f h = None.
Proof. intros E. unfold hbind. by rewrite E. Qed.
Lemma not_limited lo hi h : unknown h → backing_off lo hi A h = Some (Ok false, h).
Proof. intros (_ & _ & Hl). unfold backing_off. by rewrite Hl. Qed.

Lemma fetch_missing_unknown fuel h : unknown h →
  fetch_missing accepted_first origin create_event fuel [A] [] ∅ h = None
  ∨ ∃ h', fetch_missing accepted_first origin create_event fuel [A] [] ∅ h = Some (Ok [(A, value)], h') ∧ unknown h'.
Proof.
  intros Hu. destruct fuel as [|[|fuel]]; [by left| |right]; cbn [fetch_missing];
    (erewrite hbind_Ok by by apply not_limited); rewrite bool_decide_eq_false_2 by set_solver;
    cbv iota; (erewrite hbind_Ok by apply Hu); cbv iota; (erewrite hbind_Ok by done); rewrite answer; cbn [mbind option_bind]; rewrite version;
    cbn [mbind option_bind]; rewrite answer_object, names_itself; cbn [app fetch_missing]; [by left|].
  erewrite hbind_Ok by by apply not_limited, unknown_interact. cbv iota. rewrite bool_decide_eq_true_2 by set_solver.
  eexists. split; [by destruct fuel|by apply unknown_interact].
Qed.

Lemma handle_unknown fetch h : unknown h → (∀ h', unknown h' → fetch [A] h' = None) →
  handle_outlier_body accepted_first create_event room_id fetch A value true h = None.
Proof.
  intros Hu Hf. unfold handle_outlier_body. rewrite fits. cbn [negb]. cbv zeta.
  erewrite hbind_Ok by (unfold hpure; by rewrite version).
  erewrite hbind_Ok by (unfold verified_object; erewrite hbind_Ok by done; by rewrite signed).
  erewrite hbind_Ok by (unfold hpure; by rewrite is_pdu). erewrite hbind_Ok by (unfold check_room_id; by rewrite room_fits).
  assert (Event.auth_events pdu = [A]) as ->.
  { rewrite (value_auth_events _ _ is_pdu). unfold answered_auth_events. by rewrite lookup_insert_ne, lookup_delete_ne. }
  pose proof (unknown_interact h (S (interactions h)) Hu) as Hu'. set (h1 := mkHandler _ _ _ _) in *.
  erewrite hbind_Ok by (cbn [local_auth_events]; by erewrite hbind_Ok by apply Hu').
  rewrite filter_cons_True, filter_nil by apply lookup_empty. rewrite bool_decide_eq_true_2 by done. cbn [orb].
  do 2 apply hbind_None. by apply Hf.
Qed.

(** C22: then the handling never ends: no number of rounds is enough. *)
Theorem self_reference_never_ends fuel h : unknown h → fetch_and_handle_outliers accepted_first origin create_event room_id fuel [A] h = None.
Proof.
  revert h. induction fuel as [|fuel IH]; intros h Hu; unfold fetch_and_handle_outliers, fetch_and_handle_body.
  { apply hbind_None. cbn [gather]. by erewrite hbind_Ok by apply Hu. }
  destruct (fetch_missing_unknown (S fuel) h Hu) as [E|(h' & E & Hu')].
  { apply hbind_None. cbn [gather]. erewrite hbind_Ok by apply Hu. by apply hbind_None. }
  erewrite hbind_Ok; [|cbn [gather]; erewrite hbind_Ok by apply Hu; by erewrite hbind_Ok by exact E].
  cbn [handle_gathered]. apply hbind_None. change (reverse [(A, value)]) with [(A, value)]. cbn [handle_fetched].
  erewrite hbind_Ok by by apply not_limited. apply hbind_None. unfold try_call. cbn [handle_outlier_pdu].
  rewrite handle_unknown; [done|done|]. intros h2 Hu2. by apply IH.
Qed.
End cyclic.
End ends.

Section prev.
Context {DB : Type} `{Store DB} {Content : Type} `{Ruma Content} `{RoomContents Content} `{!Wire} `{!EventWire Content} `{!EventWireLaws Content} `{World}.
Context {R : Type} (accepted_first : bool) (origin : ServerName) (create_event : Pdu Content) (room_id : RoomId).
Implicit Types (h : Handler DB R) (id : EventId) (value : Object) (pdu : Pdu Content).

Local Abbreviation returns := (EventHandlerEnds.returns (DB := DB) (R := R)).

(** ** What the returned events are read from *)

Definition yields {A} (m : HM (DB := DB) (R := R) A) (Q : A → Prop) : Prop := ∀ h a h', m h = Some (Ok a, h') → Q a.
Lemma yields_bind {A B} (m : HM A) (f : A → HM B) Q S : yields m Q → (∀ a, Q a → yields (f a) S) → yields (hbind m f) S.
Proof.
  intros Hm Hf h b h'. unfold hbind. destruct (m h) as [[[a|e|] h1]|] eqn:E; try done. intros Ef. eapply Hf; [|exact Ef]. by eapply Hm.
Qed.
Lemma yields_ret {A} (a : A) (Q : A → Prop) : Q a → yields (hret a) Q.
Proof. by intros HQ h a' h' [= <- _]. Qed.
Lemma yields_any {A} (m : HM A) : yields m (λ _, True).
Proof. done. Qed.
Lemma yields_pure {A} (o : outcome RequestError A) (Q : A → Prop) : (∀ a, o = Ok a → Q a) → yields (hpure o) Q.
Proof. intros HQ h a h' [= E _]. auto. Qed.
Lemma yields_fail {A} e (Q : A → Prop) : yields (hfail e) Q.
Proof. done. Qed.
Lemma yields_try {A} (m : HM A) Q : yields m Q → yields (try_call m) (λ o, ∀ a, o = Some a → Q a).
Proof.
  intros Hm h o h'. unfold try_call. destruct (m h) as [[[a|e|] h1]|] eqn:E; intros [= <- _]; [|done].
  intros a' [= <-]. by eapply Hm.
Qed.

Section good.
Context (good : Pdu Content → Prop).
Hypothesis good_slice : ∀ b pdu, pdu_from_slice b = Some pdu → good pdu.
Hypothesis good_value : ∀ o pdu, from_value o = Some pdu → good pdu.

Lemma yields_get_pdu id : yields (get_pdu accepted_first id) (λ o, ∀ pdu, o = Some pdu → good pdu).
Proof.
  intros h o h'. unfold get_pdu, read_timeline. destruct (Timeline.get_pdu _ _ _ _) as [p|e|] eqn:E; intros [= <- _]; [|done].
  intros ? [= <-]. unfold Timeline.get_pdu, Timeline.select_ok in E.
  assert (∀ d e p, Timeline.get_outlier_pdu pdu_from_slice d e = Ok p → good p) as Ho.
  { intros d e p' (b & _ & ?%ok_or_Ok)%bind_Ok_inv. by eapply good_slice. }
  assert (∀ d e p, Timeline.get_non_outlier_pdu pdu_from_slice d e = Ok p → good p) as Hn.
  { intros d e p' (i & _ & (b & _ & ?%ok_or_Ok)%bind_Ok_inv)%bind_Ok_inv. by eapply good_slice. }
  destruct accepted_first; case_match; simplify_eq; eauto.
Qed.

Lemma yields_handle fuel id value known :
  yields (handle_outlier_pdu accepted_first origin create_event room_id fuel id value known) (λ x, good x.1).
Proof.
  destruct fuel as [|fuel]; [done|]. cbn [handle_outlier_pdu]. unfold handle_outlier_body. destruct (negb _); [apply yields_fail|].
  eapply yields_bind; [apply yields_any|]. intros v _. eapply yields_bind; [apply yields_any|]. intros o _.
  eapply yields_bind; [by apply (yields_pure _ good); intros p ?%ok_or_Ok; eapply good_value|]. intros pdu Hp.
  do 3 (eapply yields_bind; [apply yields_any|]; intros ? _). case_bool_decide; [apply yields_fail|].
  eapply yields_bind; [apply yields_any|]. intros bk _. destruct (negb _); [apply yields_fail|].
  do 2 (eapply yields_bind; [apply yields_any|]; intros ? _). destruct (negb _); [apply yields_fail|].
  eapply yields_bind; [apply yields_any|]. intros. by apply yields_ret.
Qed.

Lemma yields_fetch fuel ids :
  yields (fetch_and_handle_outliers accepted_first origin create_event room_id fuel ids) (Forall (λ x, good x.1)).
Proof.
  unfold fetch_and_handle_outliers, fetch_and_handle_body. eapply (yields_bind _ _ (Forall (λ x, ∀ pdu, x.1.2 = Some pdu → good pdu))).
  - induction ids as [|id ids IH]; cbn; [by apply yields_ret|]. eapply yields_bind; [apply yields_get_pdu|]. intros p Hp.
    eapply yields_bind; [apply yields_any|]. intros evs _. eapply yields_bind; [exact IH|]. intros l Hl. apply yields_ret. by constructor.
  - intros l Hl. induction Hl as [|[[id p] evs] l Hx _ IH]; [by apply yields_ret|]. cbn.
    apply (yields_bind _ _ (Forall (λ x, good x.1))).
    + induction (reverse evs) as [|[next value] es IHe]; [by apply yields_ret|]. cbn. eapply yields_bind; [apply yields_any|].
      intros [] _; [exact IHe|]. eapply yields_bind; [apply yields_try, yields_handle|]. intros [[pdu json]|] Hp.
      * eapply yields_bind; [exact IHe|]. intros pdus Hpdus. apply yields_ret. case_bool_decide; [|done]. constructor; [|done]. by apply (Hp (pdu, json)).
      * eapply yields_bind; [apply yields_any|]. intros _ _. exact IHe.
    + intros pdus Hpdus. eapply yields_bind; [exact IH|]. intros more Hmore. apply yields_ret.
      apply Forall_app. split; [|by apply Forall_app]. destruct p; [|done]. apply Forall_singleton. by apply Hx.
Qed.
End good.

(** ** The walk ends *)

Section walk.
Context (max_fetch_prev_events : Z) (depth : nat) (ts : Z).
Local Abbreviation loop := (prev_loop accepted_first origin create_event room_id max_fetch_prev_events).
Local Abbreviation fetch1 id := (fetch_and_handle_outliers accepted_first origin create_event room_id depth [id]).

(** Events have at most [width] previous events: their size is limited. *)
Context (width : nat).
Hypothesis width_slice : ∀ b pdu, pdu_from_slice b = Some pdu → length (prev_events pdu) ≤ width.
Hypothesis width_value : ∀ o pdu, from_value o = Some pdu → length (prev_events pdu) ≤ width.
Hypothesis limit_u16 : (0 ≤ max_fetch_prev_events < u16_max)%Z.
Hypothesis fetch_ends : ∀ id, returns (fetch1 id) (λ _, True).

Lemma fetch1_width id : returns (fetch1 id) (Forall (λ x, length (prev_events x.1) ≤ width)).
Proof.
  intros h. destruct (fetch_ends id h) as (r & h' & E & _). exists r, h'. split; [done|]. intros l ->.
  by eapply (yields_fetch (λ pdu, length (prev_events pdu) ≤ width)); eauto.
Qed.

(** How many rounds remain, at most. *)
Definition remaining (todo : list EventId) (amount : Z) : nat :=
  length todo + Z.to_nat (max_fetch_prev_events + 1 - amount) * width.

Lemma returns_prev_loop fuel todo graph (info : EventInfo Content) amount :
  remaining todo amount ≤ fuel → (0 ≤ amount ≤ max_fetch_prev_events + 1)%Z →
  returns (loop fuel depth ts todo graph info amount) (λ _, True).
Proof.
  revert todo graph info amount. induction fuel as [|fuel IH]; intros [|id todo] graph info amount Hf Ha;
    [by apply returns_ret|unfold remaining in Hf; cbn in Hf; lia|by apply returns_ret|]. cbn [prev_loop].
  assert (∀ graph info, returns (loop fuel depth ts todo graph info amount) (λ _, True)) as Hnext.
  { intros. apply IH; [|done]. unfold remaining in *. cbn [length] in Hf. lia. }
  eapply (returns_bind _ _ (λ _, True)).
  { intros h. unfold check_running, hbind, interact. case_match; eexists _, _; by split. }
  intros _ _. eapply returns_bind; [apply fetch1_width|]. intros l Hl. cbv zeta.
  destruct (last l) as [[pdu json]|] eqn:Hlast; [|apply Hnext].
  eapply returns_bind; [apply returns_check_room|]. intros _ _. case_bool_decide; [apply Hnext|].
  apply (returns_bind _ _ (λ _, True)); [destruct json; [by apply returns_ret|apply returns_read]|]. intros [j|] _; [|apply Hnext].
  case_bool_decide; [|apply Hnext]. apply last_Some_elem_of in Hlast. apply (proj1 (Forall_forall _ _) Hl) in Hlast. cbn in Hlast.
  rewrite Z.min_l by lia. apply IH; [|lia]. unfold remaining in *. cbn [length] in Hf. rewrite length_app.
  pose proof (length_filter (λ prev_prev, graph !! prev_prev = None) (prev_events pdu)).
  replace (Z.to_nat (max_fetch_prev_events + 1 - amount)) with (S (Z.to_nat (max_fetch_prev_events + 1 - (amount + 1)))) in Hf by lia. lia.
Qed.
End walk.

(** ** What it finds *)

Section found.
Context (max_fetch_prev_events : Z) `{Schedule}.

(** A node of the graph has no edges or those to the previous events of its event. *)
Definition node_ok (ts : Z) (info : EventInfo Content) id (targets : gset EventId) : Prop :=
  targets = ∅ ∨ ∃ pdu json, info !! id = Some (pdu, json) ∧ (ts < origin_server_ts pdu)%Z ∧ targets = list_to_set (prev_events pdu).
Definition graph_ok (ts : Z) (todo : list EventId) (graph : Graph) (info : EventInfo Content) : Prop :=
  (∀ id targets, graph !! id = Some targets → node_ok ts info id targets)
  ∧ (∀ id e, e ∈ edges graph id → e ∈ dom graph ∨ e ∈ todo)
  ∧ dom info ⊆ dom graph.

Lemma graph_ok_init ts ids : graph_ok ts ids ∅ ∅.
Proof.
  split_and!; [by intros id targets ?%lookup_empty_Some|intros id e; unfold edges; rewrite lookup_empty; set_solver|set_solver].
Qed.
Lemma edges_insert (graph : Graph) id X n e : e ∈ edges (<[id:=X]> graph) n → (n = id ∧ e ∈ X) ∨ e ∈ edges graph n.
Proof.
  unfold edges. destruct (decide (n = id)) as [->|Hne]; [rewrite lookup_insert_eq; cbn; auto|rewrite lookup_insert_ne by done; auto].
Qed.
Lemma graph_ok_stop ts id todo graph info info' :
  graph_ok ts (id :: todo) graph info →
  info' = info ∨ (∃ x, info' = <[id := x]> info) →
  graph_ok ts todo (<[id := ∅]> graph) info'.
Proof.
  intros (Hn & He & Hd) Hi. split_and!.
  - intros n targets [[<- <-]|[Hne Ht]]%lookup_insert_Some; [by left|]. destruct (Hn n targets Ht) as [?|(pdu & json & Hpdu & ? & ?)]; [by left|].
    right. exists pdu, json. split_and!; [|done..]. destruct Hi as [->|[x ->]]; [done|]. by rewrite lookup_insert_ne.
  - intros n e [[_ ?]|Hedge]%edges_insert; [set_solver|]. destruct (He _ _ Hedge) as [?|[->|?]%elem_of_cons]; set_solver.
  - destruct Hi as [->|[x ->]]; set_solver.
Qed.
Lemma graph_ok_expand ts id todo graph info pdu json :
  graph_ok ts (id :: todo) graph info → (ts < origin_server_ts pdu)%Z →
  graph_ok ts (todo ++ filter (λ p, graph !! p = None) (prev_events pdu)) (<[id := list_to_set (prev_events pdu)]> graph) (<[id := (pdu, json)]> info).
Proof.
  intros (Hn & He & Hd) Hts. split_and!.
  - intros n targets [[<- <-]|[Hne Ht]]%lookup_insert_Some; [right; exists pdu, json; by rewrite lookup_insert_eq|].
    destruct (Hn n targets Ht) as [?|(pdu' & json' & Hpdu & ? & ?)]; [by left|]. right. exists pdu', json'. by rewrite lookup_insert_ne.
  - intros n e [[-> Hin%elem_of_list_to_set]|Hedge]%edges_insert.
    + destruct (graph !! e) as [x|] eqn:Hg; [left; apply elem_of_dom; destruct (decide (e = id)) as [->|]; [rewrite lookup_insert_eq|rewrite lookup_insert_ne by done]; eauto|].
      right. apply elem_of_app. right. by apply list_elem_of_filter.
    + destruct (He _ _ Hedge) as [?|[->|?]%elem_of_cons]; set_solver.
  - set_solver.
Qed.

Lemma prev_loop_found fuel depth ts todo graph info amount :
  graph_ok ts todo graph info →
  yields (prev_loop accepted_first origin create_event room_id max_fetch_prev_events fuel depth ts todo graph info amount)
    (λ x, graph_ok ts [] x.1 x.2 ∧ (∀ id, id ∈ dom graph ∨ id ∈ todo → id ∈ dom x.1)).
Proof.
  revert todo graph info amount. induction fuel as [|fuel IH]; intros [|id todo] graph info amount Hok;
    [apply yields_ret; split; [done|by intros id [?|?%not_elem_of_nil]]|done|apply yields_ret; split; [done|by intros id [?|?%not_elem_of_nil]]|].
  cbn [prev_loop]. eapply yields_bind; [apply yields_any|]. intros _ _. eapply yields_bind; [apply yields_any|]. intros l _. cbv zeta.
  set (Q := λ x : Graph * EventInfo Content, graph_ok ts [] x.1 x.2 ∧ (∀ id', id' ∈ dom graph ∨ id' ∈ id :: todo → id' ∈ dom x.1)).
  assert (∀ info' amount', info' = info ∨ (∃ x, info' = <[id := x]> info) →
    yields (prev_loop accepted_first origin create_event room_id max_fetch_prev_events fuel depth ts todo (<[id := ∅]> graph) info' amount') Q) as Hstop.
  { intros info' amount' Hi h a h' E. destruct (IH todo (<[id := ∅]> graph) info' amount' (graph_ok_stop _ _ _ _ _ _ Hok Hi) h a h' E) as [? Hd].
    split; [done|]. intros id' Hid'. apply Hd. set_solver. }
  destruct (last l) as [[pdu json]|]; [|apply Hstop; by left]. eapply yields_bind; [apply yields_any|]. intros _ _.
  case_bool_decide; [apply Hstop; by left|]. eapply yields_bind; [apply yields_any|]. intros [j|] _; [|apply Hstop; by left].
  case_bool_decide; [|apply Hstop; right; by eexists]. intros h a h' E.
  destruct (IH _ _ _ _ (graph_ok_expand ts id todo graph info pdu j Hok ltac:(done)) h a h' E) as [? Hd]. split; [done|].
  intros id' Hid'. apply Hd. set_solver.
Qed.

Lemma graph_ok_sortable ts graph info : graph_ok ts [] graph info → sortable (prev_key info) graph.
Proof.
  intros (_ & He & _). split; [|intros; by eexists]. intros n e Hin. destruct (He n e Hin) as [?|?%not_elem_of_nil]; done.
Qed.
End found.

Section claims.
Context (max_fetch_prev_events : Z) `{Schedule}.
Local Abbreviation prev := (fetch_prev accepted_first origin create_event room_id max_fetch_prev_events).

(** What [fetch_prev] returns is in order: it lists events it has seen, none twice, and the
    edges of an event in its graph, which are to its previous events if it was walked past,
    all come before it. *)
Theorem fetch_prev_sorted fuel depth ts initial h sorted info h' :
  prev fuel depth ts initial h = Some (Ok (sorted, info), h') →
  ∃ graph, graph_ok ts [] graph info ∧ (∀ id, id ∈ initial → id ∈ dom graph)
    ∧ NoDup sorted ∧ (∀ id, id ∈ sorted → id ∈ dom graph)
    ∧ (∀ l1 id l2, sorted = l1 ++ id :: l2 → ∀ e, e ∈ edges graph id → e ∈ l1)
    ∧ ∀ rank : string → nat, (∀ n e, e ∈ edges graph n → rank e < rank n) → ∀ id, id ∈ dom graph → id ∈ sorted.
Proof.
  unfold prev, fetch_prev, hbind. destruct (prev_loop _ _ _ _ _ _ _ _ _ _ _ _ h) as [[[[graph info']|e|] h1]|] eqn:E; try done.
  apply (prev_loop_found max_fetch_prev_events _ _ ts initial ∅ ∅) in E as [Hok Hd]; [|apply graph_ok_init]. cbn in Hok, Hd.
  pose proof (graph_ok_sortable _ _ _ Hok) as Hs.
  destruct (sort_lex_topo (prev_key info') graph (λ X, order 33 (elements X)) (order 34 (map_to_list graph))) as (l & -> & Hl);
    [done|intros; apply order_perm|apply order_perm|].
  unfold hpure, hret. intros [= -> -> ->]. destruct (lex_topo_topological _ _ _ _ Hl) as (Hnd & Hin & Htopo).
  exists graph. split_and!; [done|intros; apply Hd; by right|done|by intros id [? _]%Hin|intros l1 id l2 -> e He; by apply (Htopo l1 id l2)|].
  intros rank Hr id Hid. apply (lex_topo_complete graph (key_of (prev_key info)) rank [] sorted); [|done|done].
  intros n e He. split; [by apply (proj1 Hs n)|by apply Hr].
Qed.

(** With a limit below the largest one of its type, fetching previous events ends: the
    initial events and one more than the limit times the most previous events of an event
    bound the rounds, if each fetch ends. *)
Theorem fetch_prev_ends width fuel depth ts initial h :
  (∀ b pdu, pdu_from_slice b = Some pdu → length (prev_events pdu) ≤ width) →
  (∀ o pdu, from_value o = Some pdu → length (prev_events pdu) ≤ width) →
  (0 ≤ max_fetch_prev_events < u16_max)%Z →
  (∀ id, returns (fetch_and_handle_outliers accepted_first origin create_event room_id depth [id]) (λ _, True)) →
  length initial + Z.to_nat (max_fetch_prev_events + 1) * width ≤ fuel →
  ∃ r h', prev fuel depth ts initial h = Some (r, h').
Proof.
  intros Hs Hv Hm Hf Hfuel. assert (returns (prev fuel depth ts initial) (λ _, True)) as Hr.
  { eapply returns_bind; [apply (returns_prev_loop _ _ _ width); try done; [|lia]|].
    - unfold remaining. by rewrite Z.sub_0_r.
    - intros [graph info] _. apply (returns_bind _ _ (λ _, True)); [by apply returns_pure|]. intros. by apply returns_ret. }
  destruct (Hr h) as (r & h' & ? & _). eauto.
Qed.
End claims.
End prev.
