(* ===== verification/EventHandlerDemo.v ===== *)
(** * Events of another server

    A coding of the events of the demonstration room as JSON, a server that answers for them
    and one that answers with an event that names itself: inputs at which the theorems about
    the event handler apply. *)

From S2P Require Import Prelude Bytes PduId DbMap RoomVersion Event EventAuth AuthDemo DemoText IncomingPdu CurrentState EventHandler.
From S2P Require Import EventHandlerProps EventHandlerEnds.
From S2P Require Timeline.

Local Open Scope Z_scope.

(** ** JSON of events *)

(** What is read of an object: id, type, sender, state key, auth events, previous events, time. *)
Definition Fields : Type := (string * string * string * option string) * (list string * list string * Z).

Definition strings (o : Object) (field : string) : list string :=
  match o !! field ≫= as_array with Some l => omap (λ j, as_str j ≫= λ s, Some s) l | None => [] end.
Definition fields_of (o : Object) : option Fields :=
  id ← o !! "event_id" ≫= as_str; ty ← o !! "type" ≫= as_str; who ← o !! "sender" ≫= as_str;
  Some ((id, ty, who, o !! "state_key" ≫= as_str),
        (strings o "auth_events", strings o "prev_events", match o !! "origin_server_ts" with Some (JInteger z) => z | _ => 0 end)).
Definition type_of_name (name : string) : EventType :=
  if bool_decide (name = "m.room.create") then RoomCreate
  else if bool_decide (name = "m.room.member") then RoomMember
  else if bool_decide (name = "m.room.power_levels") then RoomPowerLevels else OtherType name.
Definition content_of (ty : EventType) : DemoContent :=
  match ty with
  | RoomCreate => content create
  | RoomMember => member_content Join
  | RoomPowerLevels => levels_content levels
  | _ => no_content
  end.
Definition event_of (f : Fields) : Pdu DemoContent :=
  let '((id, ty, who, key), (auth, prev, ts)) := f in
  {| event_id := id; room_id := Some "!r:a"; sender := who; origin := None; origin_server_ts := ts; kind := type_of_name ty;
     content := content_of (type_of_name ty); state_key := key; prev_events := take 20 prev; depth := 1; auth_events := auth;
     redacts := None; unsigned := None; hashes := mkEventHash EmptyString; signatures := None |}.
Definition object_of (f : Fields) : Object :=
  let '((id, ty, who, key), (auth, prev, ts)) := f in
  let o : Object := <["event_id" := JString id]> (<["type" := JString ty]> (<["sender" := JString who]>
    (<["auth_events" := JArray (JString <$> auth)]> (<["prev_events" := JArray (JString <$> prev)]> (<["room_id" := JString "!r:a"]> {["origin_server_ts" := JInteger ts]}))))) in
  match key with Some k => <["state_key" := JString k]> o | None => o end.

#[export] Instance demo_contents : RoomContents DemoContent := {
  from_CreateContent c := match d_create c with Some _ => Some (mkCreateContent V10 None) | None => None end;
  from_HistoryVisibility c := None;
  from_GuestAccess c := None;
  from_Redaction c := None;
  from_Acl c := None;
  acl_is_allowed a s := true;
  user_can_redact_event_of_other pl u := false;
  user_can_redact_own_event pl u := true;
}.

(** The texts of events are their ids. *)
Definition demo_fields_of (id : string) : Fields :=
  if bool_decide (id = "$create") then ((id, "m.room.create", "@alice:a", Some ""), ([], [], 1))
  else if bool_decide (id = "$alice") then ((id, "m.room.member", "@alice:a", Some "@alice:a"), (["$create"], ["$create"], 2))
  else if bool_decide (id = "$levels") then ((id, "m.room.power_levels", "@alice:a", Some ""), (["$create"; "$alice"], ["$alice"], 3))
  else if bool_decide (id = "$loop") then ((id, "m.room.topic", "@alice:a", Some ""), (["$loop"], [], 4))
  else ((id, "m.room.message", "@alice:a", None), (["$create"; "$levels"; "$alice"], ["$levels"], 5)).

#[export] Instance demo_wire : Wire := {
  from_str text := Some (object_of (demo_fields_of text));
  to_string_len o := Some 100;
  reference_hash o v := Some "hash";
  room_version_from_str s := if bool_decide (s = "10") then Some V10 else None;
}.
#[export] Instance demo_event_wire : EventWire DemoContent := {
  from_value o := event_of <$> fields_of o;
  redact_object o v := Some o;
  json_to_vec o := any_text (fields_of o);
  pdu_from_slice b := event_of <$> (read_any b ≫= λ o : option Fields, o);
  json_from_slice b := object_of <$> (read_any b ≫= λ o : option Fields, o);
}.
#[export] Instance demo_wire_laws : EventWireLaws DemoContent.
Proof.
  split.
  - intros o. cbn -[read_any any_text fields_of]. by rewrite read_any_text.
  - intros o id pdu. cbn. unfold fields_of. rewrite lookup_insert_eq. cbn.
    intros (f & E & ->)%fmap_Some. apply bind_Some in E as (ty & _ & E). apply bind_Some in E as (who & _ & E). by injection E as <-.
  - intros o pdu. cbn. intros (f & E & ->)%fmap_Some. unfold fields_of in E. apply bind_Some in E as (id & _ & E).
    apply bind_Some in E as (ty & _ & E). apply bind_Some in E as (who & _ & E). by injection E as <-.
  - by intros o v o' [= ->].
Qed.

Definition no_rest : Type := unit.
Definition handler0 : Handler (gmap bytes bytes) no_rest := mkHandler (Timeline.mkData ∅ ∅ ∅ ∅ ∅) ∅ 0 tt.

Lemma handler0_closed : auth_closed handler0.
Proof. intros id pdu [Hp|Hp]; unfold outlier_event, timeline_event in Hp; by vm_compute in Hp. Qed.

Lemma parse_incoming_pdu_accepts_witness :
  parse_incoming_pdu (Content := DemoContent) (λ _, Some V10) "$msg" = Ok ("!r:a", "$hash", object_of (demo_fields_of "$msg"))
  ∧ room_id_parse "!r:a" = Some "!r:a".
Proof.
  assert (parse_incoming_pdu (Content := DemoContent) (λ _, Some V10) "$msg" = Ok ("!r:a", "$hash", object_of (demo_fields_of "$msg"))) as E
    by (vm_compute; reflexivity).
  split; [exact E|]. by destruct (parse_incoming_pdu_accepts (λ _, Some V10) "$msg" "!r:a" "$hash" _ E) as (_ & _ & _ & Hr).
Defined.

(** ** An honest server *)

Module Honest.
#[local] Instance world : World := {
  instant n := Z.of_nat n;
  get_event n origin id := if bool_decide (id = "$loop") then None else Some id;
  verify_event n o v := Some VerifiedAll;
  running n := true;
}.
Definition age (id : string) : nat :=
  if bool_decide (id = "$create") then 0 else if bool_decide (id = "$alice") then 1 else if bool_decide (id = "$levels") then 2 else 3.

Lemma answers_aged n id text v calculated value :
  get_event n "a" id = Some text → gen_event_id_canonical_json (Content := DemoContent) text v = Some (calculated, value) →
  (length (answered_auth_events (Content := DemoContent) value) ≤ 3)%nat
  ∧ Forall (λ a, (age a < age id)%nat) (answered_auth_events (Content := DemoContent) value).
Proof.
  cbn [get_event world]. case_bool_decide as Hl; [done|]. intros [= <-] E. unfold gen_event_id_canonical_json in E.
  cbn [from_str demo_wire mbind option_bind] in E. destruct (gen_event_id _ _); [|done]. injection E as _ <-.
  assert (∀ l : list string, answered_auth_events (Content := DemoContent) (object_of ((id, "m.room.message", "@alice:a", None), (l, ["$levels"], 5))) = l) as Hmsg.
  { intros l. unfold answered_auth_events, object_of. rewrite !lookup_insert_ne, lookup_insert_eq by done. cbn. induction l as [|a l IH]; [done|]. cbn. by rewrite IH. }
  unfold demo_fields_of, age. repeat case_bool_decide; subst; try done; rewrite ?Hmsg; vm_compute; (split; [lia|]); repeat constructor.
Qed.

(** A message whose auth events are fetched with it. *)
Definition message_object : Object := object_of (demo_fields_of "$msg").
Definition handle (fuel : nat) := handle_outlier_pdu (R := no_rest) true "a" create "!r:a" fuel "$msg" message_object false.
Definition handled := handle 9 handler0.
Definition accepted_ids : list bytes :=
  match handled with Some (Ok _, h) => (map_to_list (Timeline.eventid_outlierpdu (timeline h))).*1 | _ => [] end.
Lemma accepted_ids_stored :
  accepted_ids = [bytes_of_string "$levels"; bytes_of_string "$msg"; bytes_of_string "$create"; bytes_of_string "$alice"].
Proof. by vm_compute. Qed.

Definition succeeds {A S} (r : option (outcome RequestError A * S)) : bool := match r with Some (Ok _, _) => true | _ => false end.
Lemma succeeds_inv {A S} (r : option (outcome RequestError A * S)) : succeeds r = true → ∃ a s, r = Some (Ok a, s).
Proof. destruct r as [[[]]|]; cbn; eauto; done. Qed.

Lemma outlier_accepted_witness :
  ∃ x h', handle 9 handler0 = Some (Ok x, h') ∧ kept create "!r:a" (knows handler0) "$msg" x h'.
Proof.
  destruct (succeeds_inv (handle 9 handler0)) as ([pdu json] & h' & E); [vm_compute; reflexivity|].
  exists (pdu, json), h'. split; [exact E|].
  destruct (outlier_accepted true "a" create "!r:a" 9 "$msg" message_object false handler0 _ h' handler0_closed E) as (_ & _ & _ & Hk).
  by apply Hk.
Defined.

Lemma handle_outlier_ends_witness : ∃ res h', handle 41 handler0 = Some (res, h').
Proof.
  apply (handle_outlier_ends true "a" create "!r:a" age 3 ltac:(lia) answers_aged 3).
  - vm_compute. repeat constructor.
  - vm_compute. lia.
Defined.

(** The message's previous event is fetched with what is before it. *)
#[local] Instance in_order : Schedule := { order _ _ l := l; order_perm _ _ l := reflexivity l }.
Definition previous (fuel : nat) := fetch_prev (R := no_rest) true "a" create "!r:a" 5 fuel 42 1 ["$levels"] handler0.

Lemma demo_width pdu f : event_of f = pdu → (length (prev_events pdu) ≤ 20)%nat.
Proof. intros <-. destruct f as [[[[? ?] ?] ?] [[? prev] ?]]. cbn. rewrite length_take. lia. Qed.
Lemma age_bound id : (age id ≤ 3)%nat.
Proof. unfold age. repeat case_bool_decide; lia. Qed.

Lemma fetch_prev_ends_witness : ∃ r h', previous 121 = Some (r, h').
Proof.
  apply (fetch_prev_ends true "a" create "!r:a" 5 20).
  - intros b pdu. cbn [pdu_from_slice demo_event_wire]. intros (f & _ & ->)%fmap_Some. by eapply demo_width.
  - intros o pdu. cbn [from_value demo_event_wire]. intros (f & _ & ->)%fmap_Some. by eapply demo_width.
  - by vm_compute.
  - intros id. apply (returns_fetch true "a" create "!r:a" age 3 ltac:(lia) answers_aged 3); [vm_compute; lia|].
    apply Forall_singleton, age_bound.
  - by vm_compute.
Defined.

Definition previous_ids (r : option (outcome RequestError (list string * EventInfo DemoContent) * Handler (gmap bytes bytes) no_rest)) : list string :=
  match r with Some (Ok (l, _), _) => l | _ => [] end.
Lemma previous_found : previous_ids (fetch_prev (R := no_rest) true "a" create "!r:a" 5 9 9 1 ["$levels"] handler0) = ["$create"; "$alice"; "$levels"].
Proof. vm_compute. reflexivity. Qed.

Lemma fetch_prev_sorted_witness :
  ∃ sorted info h', fetch_prev (R := no_rest) true "a" create "!r:a" 5 9 9 1 ["$levels"] handler0 = Some (Ok (sorted, info), h') ∧ NoDup sorted.
Proof.
  destruct (succeeds_inv (fetch_prev (R := no_rest) true "a" create "!r:a" 5 9 9 1 ["$levels"] handler0)) as ([sorted info] & h' & E); [vm_compute; reflexivity|].
  exists sorted, info, h'. split; [exact E|].
  destruct (fetch_prev_sorted true "a" create "!r:a" 5 9 9 1 ["$levels"] handler0 sorted info h' E) as (graph & _ & _ & Hnd & _).
  exact Hnd.
Defined.
End Honest.

(** ** A server that answers with an event that names itself *)

Module Cyclic.
#[local] Instance world : World := {
  instant n := Z.of_nat n;
  get_event n origin id := Some "$loop";
  verify_event n o v := Some VerifiedAll;
  running n := true;
}.
Lemma self_reference_never_ends_witness :
  fetch_and_handle_outliers true "a" create "!r:a" 1000 ["$loop"] handler0 = None.
Proof.
  apply (self_reference_never_ends true "a" create "!r:a" "$loop" "$hash" "$loop" (object_of (demo_fields_of "$loop")) V10
    (event_of (demo_fields_of "$loop"))); try done; vm_compute; reflexivity.
Defined.
End Cyclic.
