(* ===== verification/StateAtEvent.v ===== *)
(** * The state at an event, resolved

    Models [state_at_incoming.rs], [resolve_state.rs] and [fetch_state.rs] of
    [src/service/rooms/event_handler/]: the state a new event comes in from the states its
    previous events were made in, resolved if there are several; the current state of a room
    resolved with another; and the state asked of another server.  The tables of rooms, short
    ids and auth chains are one record, [Rooms]; the timeline is only read.

    Futures that run side by side are run one after the other; [broad] is the order in which
    those of a [broad_and_then] end, [order] that of a hash map.

    * What the state at an event promises

    The state a single previous event leaves behind is the state it was made in with its own
    entry.  Several previous events that were made in the same state are taken for one of
    them.  The state another server gives has every key once, and the create event of the
    room. *)

From S2P Require Import Prelude Bytes DbMap DbSer DbScan Short ShortProps RoomVersion Event EventAuth StateRes StateCompressor CompressorProps.
From S2P Require Import AuthGraph.
From S2P Require Import RoomState StateAccessor RoomStateProps RoomStateRefine StateAccessorProps CurrentState.
From S2P Require Import AuthChain IncomingPdu TopoSort EventHandler.
From S2P Require Timeline.

Local Open Scope Z_scope.

(** [From<&str>] of the event types of ruma. *)
Definition event_type_of (s : string) : EventType :=
  match find (λ t, bool_decide (type_name t = s))
          [RoomCreate; RoomMember; RoomPowerLevels; RoomJoinRules; RoomAliases; RoomRedaction; RoomThirdPartyInvite] with
  | Some t => t
  | None => OtherType s
  end.

(** The state ids another server answers with. *)
Class StateIdsWorld := { get_room_state_ids : nat → ServerName → RoomId → EventId → option (list EventId) }.

Section state_at_event.
Context {DB : Type} `{Store DB} {C : Type} `{LruCache C} {Content : Type} `{Ruma Content} `{EventWire Content} `{Schedule}.
Context (evict : gmap Z (list ShortStateInfo) → gmap Z (list ShortStateInfo)).
Context (hash_order : list Z → list Z) (broad : ∀ A, list A → list A) (batches : list string → list (list string)).
Context (accepted_first : bool) (fuel : nat).

Record Rooms := mkRooms {
  rooms : RoomState (DB := DB);
  chain_table : DB;
  chain_cache : C;
}.
(** The short ids of the state at an event with the events. *)
Abbreviation Ids := (gmap Z EventId).
Implicit Types (w : Rooms) (tl : Timeline.Data DB) (room_id event_id : string) (pdu : Pdu Content).

(** ** Calls *)

Definition RoomsM (A : Type) : Type := Rooms → outcome RoomError A * Rooms.
Definition rret {A} (a : A) : RoomsM A := λ w, (Ok a, w).
Definition rpure {A} (o : outcome RoomError A) : RoomsM A := λ w, (o, w).
Definition rbind {A B} (m : RoomsM A) (f : A → RoomsM B) : RoomsM B := λ w,
  match m w with
  | (Ok a, w) => f a w
  | (Err e, w) => (Err e, w)
  | (Panic, w) => (Panic, w)
  end.
Local Notation "'let!' x := m 'in' k" := (rbind m (λ x, k))
  (at level 10, x name, m at level 200, k at level 200).
(** [Result::ok] of a call. *)
Definition rtry {A} (m : RoomsM A) : RoomsM (option A) := λ w,
  match m w with
  | (Ok a, w) => (Ok (Some a), w)
  | (Err _, w) => (Ok None, w)
  | (Panic, w) => (Panic, w)
  end.
Fixpoint rmap {A B} (f : A → RoomsM B) (l : list A) : RoomsM (list B) :=
  match l with
  | [] => rret []
  | a :: l => let! b := f a in let! bs := rmap f l in rret (b :: bs)
  end.

(** A call of the room state services, and one of the auth chain service. *)
Definition in_rooms {A} (m : RoomM (DB := DB) A) : RoomsM A := λ w,
  let '(r, rs) := m (rooms w) in (r, mkRooms rs (chain_table w) (chain_cache w)).
Definition set_shorts (rs : RoomState (DB := DB)) (s : Short DB) : RoomState :=
  mkRoomState s (state_compressor rs) (shorteventid_shortstatehash rs) (roomid_shortstatehash rs) (roomid_pduleaves rs).
Definition chains w : AuthChain (DB := DB) (C := C) := mkAuthChain (RoomState.short (rooms w)) (chain_table w) (chain_cache w).
Definition set_chains w (a : AuthChain (DB := DB) (C := C)) : Rooms :=
  mkRooms (set_shorts (rooms w) (AuthChain.short a)) (shorteventid_authchain a) (auth_chain_cache a).
Definition auth_chain_ids tl room_id (starting_events : list EventId) : RoomsM (gset EventId) := λ w,
  let '(a, r) := event_ids_iter (H1 := timeline_source pdu_from_slice accepted_first) hash_order broad batches
                   fuel tl room_id (chains w) starting_events in
  (match r with
   | Ok ids => Ok (list_to_set ids)
   | Err _ => Err (ForbiddenRequest "auth event of another room")
   | Panic => Panic
   end, set_chains w a).

Definition stored tl event_id : outcome RoomError (option (Pdu Content)) :=
  match Timeline.get_pdu pdu_from_slice accepted_first tl event_id with
  | Ok pdu => Ok (Some pdu)
  | Err _ => Ok None
  | Panic => Panic
  end.
Definition hash_of event_id : RoomsM (option Z) := λ w,
  match pdu_shortstatehash (rooms w) event_id with
  | Ok h => (Ok (Some h), w)
  | Err _ => (Ok None, w)
  | Panic => (Panic, w)
  end.
Definition shortstatekey (event_type : EventType) (key : string) : RoomsM Z :=
  in_rooms (lift_short (λ s, get_or_create_shortstatekey s (type_name event_type) key)).
Definition number_key (p : TypeStateKey * EventId) : RoomsM (Z * EventId) :=
  let! k := shortstatekey p.1.1 p.1.2 in rret (k, p.2).

(** [state_full_ids(..).collect()] *)
Definition ids_of_state (sstatehash : Z) : RoomsM Ids :=
  let! ids := in_rooms (state_full_ids evict fuel sstatehash) in
  rret (collect_map (prod_map id string_of_bytes <$> ids)).
(** The state before an event, with its own entry. *)
Definition with_own_entry pdu event_id (state : Ids) : RoomsM Ids :=
  match state_key pdu with
  | Some key => let! k := shortstatekey (kind pdu) key in rret (<[k := event_id]> state)
  | None => rret state
  end.
(** Keys by their numbers; a number without a key is left out. *)
Definition named_entries (s : Short DB) (l : list (Z * EventId)) : outcome RoomError (list (TypeStateKey * EventId)) :=
  ignore_err (zip_with (λ (k : outcome ShortError (bytes * bytes)) e,
                k ← k; Ok ((event_type_of (string_of_bytes k.1), string_of_bytes k.2), e))
               (multi_get_statekey_from_short s l.*1) l.*2).

(** ** [state_resolution] *)

Definition event_fetch tl event_id : option (Pdu Content) := match stored tl event_id with Ok pdu => pdu | _ => None end.
Definition event_exists tl event_id : bool :=
  match Timeline.pdu_exists accepted_first tl event_id with Ok _ => true | _ => false end.
Definition state_resolution tl (room_version : RoomVersionId) (state_sets : list StateMap) (auth_chain_sets : list (gset EventId))
    : outcome RoomError StateMap :=
  match resolve (event_fetch tl) (event_exists tl) fuel room_version state_sets auth_chain_sets with
  | Ok state => Ok state
  | Err e => Err (StateResFailed e)
  | Panic => Panic
  end.

(** ** [state_at_incoming.rs] *)

Definition state_at_incoming_degree_one tl (incoming_pdu : Pdu Content) : RoomsM (option Ids) :=
  let! prev_event := rpure (expect (head (prev_events incoming_pdu))) in
  let! prev_event_sstatehash := hash_of prev_event in
  match prev_event_sstatehash with
  | None => rret None
  | Some prev_event_sstatehash =>
      let! state := ids_of_state prev_event_sstatehash in
      let! prev_pdu := rpure (stored tl prev_event) in
      let! prev_pdu := rpure (ok_or MissingStateIds prev_pdu) in
      let! state := with_own_entry prev_pdu prev_event state in
      rret (Some state)
  end.

Definition state_at_incoming_fork tl room_id (sstatehash : Z) (prev_event : Pdu Content) : RoomsM (StateMap * gset EventId) :=
  let! leaf_state := ids_of_state sstatehash in
  let! leaf_state := with_own_entry prev_event (event_id prev_event) leaf_state in
  let entries := order 41 (map_to_list leaf_state) in
  let! fork_state := in_rooms (read_tables (λ s, named_entries s (broad _ entries))) in
  let! auth_chain := auth_chain_ids tl room_id entries.*2 in
  rret (collect_map fork_state, auth_chain).

(** The states the previous events were made in, by their hashes; [None] if one is missing. *)
Definition extremity_sstatehashes tl (prev_events : list EventId) : RoomsM (option (gmap Z (Pdu Content))) :=
  rtry (let! found := rmap (λ prev_eventid,
                        let! prev_event := rpure (stored tl prev_eventid) in
                        let! prev_event := rpure (ok_or MissingStateIds prev_event) in
                        rret (prev_eventid, prev_event)) prev_events in
        let! hashes := rmap (λ p : EventId * Pdu Content,
                         let! sstatehash := hash_of p.1 in
                         let! sstatehash := rpure (ok_or MissingStateIds sstatehash) in
                         rret (sstatehash, p.2)) (broad _ found) in
        rret (collect_map (broad _ hashes))).

Definition state_at_incoming_resolved tl (incoming_pdu : Pdu Content) room_id (room_version_id : RoomVersionId) : RoomsM (option Ids) :=
  let! extremities := extremity_sstatehashes tl (prev_events incoming_pdu) in
  match extremities with
  | None => rret None
  | Some extremities =>
      let! forks := rmap (λ p : Z * Pdu Content, state_at_incoming_fork tl room_id p.1 p.2) (order 42 (map_to_list extremities)) in
      let! new_state := rtry (rpure (state_resolution tl room_version_id forks.*1 forks.*2)) in
      match new_state with
      | None => rret None
      | Some new_state =>
          let! ids := rmap number_key
                        (order 43 (map_to_list new_state)) in
          rret (Some (collect_map (broad _ ids)))
      end
  end.

(** ** [resolve_state.rs] *)

Definition resolve_state tl room_id (room_version_id : RoomVersionId) (incoming_state : Ids) : RoomsM CompressedState :=
  let! current_sstatehash := in_rooms (current_shortstatehash room_id) in
  let! current_state_ids := ids_of_state current_sstatehash in
  let fork_states := [order 44 (map_to_list current_state_ids); order 45 (map_to_list incoming_state)] in
  let! state_sets := rmap (λ state, in_rooms (read_tables (λ s, named_entries s state))) fork_states in
  let! auth_chain_sets := rmap (λ state : list (Z * EventId), auth_chain_ids tl room_id state.*2) fork_states in
  let! state := rpure (state_resolution tl room_version_id (collect_map <$> state_sets) auth_chain_sets) in
  let! state_events := rmap number_key
                         (order 46 (map_to_list state)) in
  let! new_room_state := in_rooms (compress_state_events state_events (batches state_events.*2)) in
  rret (list_to_set new_room_state).
End state_at_event.
Arguments Rooms : clear implicits.

(** ** [fetch_state.rs] *)

Section fetch_state.
Context {DB : Type} `{Store DB} {C : Type} {Content : Type} `{Ruma Content} `{RoomContents Content} `{Wire}.
Context `{EventWire Content} `{World} `{StateIdsWorld}.
Context (accepted_first : bool) (origin : ServerName) (create_event : Pdu Content) (room_id : RoomId).
(** The rooms among the rest of the server. *)
Context {R : Type} (rooms_of : R → Rooms DB C) (set_rooms : R → Rooms DB C → R).
Local Abbreviation Handler := (Handler DB R).
Local Notation "'let!' x := m 'in' k" := (hbind m (λ x, k))
  (at level 10, x name, m at level 200, k at level 200).

(** A call of the other services from the event handler. *)
Definition with_rooms {A} (m : RoomsM A) : HM (R := R) A := λ h : Handler,
  let '(r, w) := m (rooms_of (rest_of_server h)) in
  Some (match r with Ok a => Ok a | Err _ => Err OtherError | Panic => Panic end,
        mkHandler (timeline h) (bad_event_ratelimiter h) (interactions h) (set_rooms (rest_of_server h) w)).

(** A type and state key that comes twice is an error. *)
Fixpoint state_of_events (pdus : list (Pdu Content)) (state : gmap Z EventId) : HM (R := R) (gmap Z EventId) :=
  match pdus with
  | [] => hret state
  | pdu :: pdus =>
      let! key := hpure (ok_or (DatabaseError "Found non-state pdu in state events.") (state_key pdu)) in
      let! k := with_rooms (shortstatekey (kind pdu) key) in
      match state !! k with
      | None => state_of_events pdus (<[k := event_id pdu]> state)
      | Some _ => hfail (DatabaseError "State event's type and state_key combination exists multiple times")
      end
  end.

Definition fetch_state (fuel : nat) (event_id : EventId) : HM (R := R) (option (gmap Z EventId)) :=
  let! res := interact (λ n, get_room_state_ids n origin room_id event_id) in
  let! state_ids := hpure (ok_or OtherError res) in
  let! state_vec := fetch_and_handle_outliers accepted_first origin create_event room_id fuel state_ids in
  let! state := state_of_events state_vec.*1 ∅ in
  let! create_shortstatekey := with_rooms (in_rooms (read_short (λ s, get_shortstatekey s (type_name RoomCreate) EmptyString))) in
  if bool_decide (state !! create_shortstatekey = Some (Event.event_id create_event)) then hret (Some state)
  else hfail (DatabaseError "Incoming event refers to wrong create event.").
End fetch_state.

Local Open Scope Z_scope.

(** The types of ruma, from their names and back. *)
Lemma type_name_event_type_of s : type_name (event_type_of s) = s.
Proof.
  unfold event_type_of. destruct (find _ _) as [t|] eqn:E; [|done].
  by apply find_Some in E as [_ E%bool_decide_eq_true_1].
Qed.

Section ids.
Context {DB : Type} `{Store DB}.
Implicit Types (s : Short DB) (M : StateOf) (ids : gmap Z EventId).

Definition key_number s (ty key : string) (k : Z) : Prop := utf8 ty ∧ utf8 key ∧ number s (NStateKey ty key) = Ok k.

(** The events by the numbers of their keys. *)
Definition stands_for s ids M : Prop :=
  (∀ ty key e, M !! (ty, key) = Some e → ∃ k, key_number s ty key k ∧ ids !! k = Some e)
  ∧ (∀ k e, ids !! k = Some e → ∃ ty key, key_number s ty key k ∧ M !! (ty, key) = Some e).

Lemma key_number_inj s ty key k ty' key' :
  short_wf s → key_number s ty key k → key_number s ty' key' k → ty = ty' ∧ key = key'.
Proof.
  intros Hw (? & ? & Hn) (? & ? & Hn'). enough (NStateKey ty key = NStateKey ty' key') as [= -> ->] by done.
  by apply (number_inj s _ _ k).
Qed.
Lemma key_number_grows s s' ty key k :
  short_wf s → (∀ n, grows (table_of s n) (table_of s' n)) → key_number s ty key k → key_number s' ty key k.
Proof. intros Hw Hg (? & ? & ?). split_and!; [done..|]. by eapply number_grows. Qed.
Lemma stands_for_grows s s' ids M :
  short_wf s → (∀ n, grows (table_of s n) (table_of s' n)) → stands_for s ids M → stands_for s' ids M.
Proof.
  intros Hw Hg [H1 H2]. split.
  - intros ty key e (k & ? & ?)%H1. exists k. split; [by eapply key_number_grows|done].
  - intros k e (ty & key & ? & ?)%H2. exists ty, key. split; [by eapply key_number_grows|done].
Qed.
Lemma stands_for_empty s : stands_for s ∅ ∅.
Proof. split; by intros *; rewrite lookup_empty. Qed.
Lemma stands_for_insert s ids M ty key e k :
  short_wf s → stands_for s ids M → key_number s ty key k → stands_for s (<[k := e]> ids) (<[(ty, key) := e]> M).
Proof.
  intros Hw [H1 H2] Hk. split.
  - intros ty' key' e'. rewrite lookup_insert_Some. intros [[[= <- <-] ->]|[Hne (k' & Hk' & He)%H1]].
    { exists k. by rewrite lookup_insert_eq. }
    exists k'. split; [done|]. rewrite lookup_insert_ne; [done|]. intros <-.
    by destruct (key_number_inj s ty key k ty' key') as [-> ->].
  - intros k' e'. rewrite lookup_insert_Some. intros [[<- <-]|[Hne (ty' & key' & Hk' & He)%H2]].
    { exists ty, key. by rewrite lookup_insert_eq. }
    exists ty', key'. split; [done|]. rewrite lookup_insert_ne; [done|]. intros [= <- <-].
    destruct Hk as (_ & _ & Hk), Hk' as (_ & _ & Hk'). congruence.
Qed.

(** Of rows with numbers. *)
Lemma row_numbers_NoDup s (rows : list Row) : short_wf s → Forall (row_ok s) rows → NoDup (rows.*1.*1) → NoDup ((λ r : Row, r.2.1) <$> rows).
Proof.
  intros Hw Hok Hnd. rewrite <- list_fmap_compose in Hnd.
  apply NoDup_fmap_2_strong; [|by eapply NoDup_fmap_1]. intros r r' Hr Hr' E.
  apply (NoDup_fmap_inj _ rows r r' Hnd); [done..|].
  pose proof (proj1 (Forall_forall _ _) Hok _ Hr) as H1. pose proof (proj1 (Forall_forall _ _) Hok _ Hr') as H2.
  destruct r as [[[ty key] e] [k v]], r' as [[[ty' key'] e'] [k' v']]. cbn in *. subst k'.
  destruct H1 as (? & ? & _ & ? & _), H2 as (? & ? & _ & ? & _).
  by destruct (key_number_inj s ty key k ty' key') as [-> ->].
Qed.
Lemma stands_for_rows s M (rows : list Row) :
  short_wf s → Forall (row_ok s) rows → NoDup (rows.*1.*1) → (∀ ty key e, (ty, key, e) ∈ rows.*1 ↔ M !! (ty, key) = Some e) →
  stands_for s (collect_map ((λ r : Row, (r.2.1, r.1.2)) <$> rows)) M.
Proof.
  intros Hw Hok Hnd HM. assert (NoDup ((λ r : Row, (r.2.1, r.1.2)) <$> rows).*1) as Hnd'.
  { rewrite <- list_fmap_compose. by apply (row_numbers_NoDup s). }
  split.
  - intros ty key e He. apply HM in He. apply list_elem_of_fmap in He as ([[[ty' key'] e'] [k v]] & [= -> -> ->] & Hin).
    pose proof (proj1 (Forall_forall _ _) Hok _ Hin) as (? & ? & ? & ? & ?). exists k. split; [done|].
    apply collect_map_NoDup; [done|]. apply list_elem_of_fmap. by exists (ty', key', e', (k, v)).
  - intros k e He. apply collect_map_NoDup in He; [|done]. apply list_elem_of_fmap in He as ([[[ty key] e'] [k' v]] & [= -> ->] & Hin).
    pose proof (proj1 (Forall_forall _ _) Hok _ Hin) as (? & ? & ? & ? & ?). exists ty, key. split; [done|].
    apply HM, list_elem_of_fmap. by exists (ty, key, e', (k', v)).
Qed.
End ids.

Section props.
Context {DB : Type} `{Store DB} {C : Type} `{LruCache C} {Content : Type} `{Ruma Content} `{EventWire Content} `{Schedule}.
Context (sha256 : bytes → bytes) (evict : gmap Z (list ShortStateInfo) → gmap Z (list ShortStateInfo)).
Context (hash_order : list Z → list Z) (broad : ∀ A, list A → list A) (batches : list string → list (list string)).
Context (accepted_first : bool) (fuel : nat).
Hypothesis evict_sub : ∀ m, evict m ⊆ m.
Implicit Types (w : Rooms DB C) (M : StateOf) (tl : Timeline.Data DB) (pdu : Pdu Content).
Local Abbreviation room_wf := (room_wf sha256).
Local Abbreviation shorts w := (RoomState.short (rooms w)).
Local Abbreviation stored := (stored accepted_first).

(** What a call may change: it adds numbers and fills the cache. *)
Definition grows_to w w' : Prop :=
  room_wf (rooms w') ∧ extends (rooms w) (rooms w')
  ∧ chain_table w' = chain_table w ∧ chain_cache w' = chain_cache w.

Lemma ids_of_state_spec w h M :
  room_wf (rooms w) → (4 ≤ fuel)%nat → room_state (rooms w) h M →
  ∃ ids w', ids_of_state evict fuel h w = (Ok ids, w') ∧ grows_to w w' ∧ shorts w' = shorts w ∧ stands_for (shorts w') ids M.
Proof.
  intros Hw Hf HM. unfold ids_of_state, rbind, in_rooms, state_full_ids, bind.
  destruct (full_shortids_spec sha256 evict evict_sub (rooms w) fuel h M Hw Hf HM) as (rows & rs' & -> & (Hw' & Hx & Hs) & Hok & Hnd & HR).
  unfold read_tables.
  assert (rows.*2 = (λ r : Row, (r.2.1, r.2.2)) <$> rows) as -> by (apply list_fmap_ext; by intros _ [r [k v]] _).
  rewrite (with_event_ids_rows _ (λ r : Row, r.2.1)) by (done || apply Hw').
  eexists _, _. split; [done|]. cbn [rooms]. split_and!; [done..|].
  rewrite <- list_fmap_compose. erewrite list_fmap_ext; [apply (stands_for_rows _ M rows); [apply Hw'|done..]|].
  intros i r _. unfold compose, prod_map, row_event. cbn [fst snd]. by rewrite string_of_bytes_of_string.
Qed.

(** The state after an event. *)
Definition state_after pdu (e : EventId) M : StateOf :=
  match state_key pdu with Some key => <[(type_name (kind pdu), key) := e]> M | None => M end.
Definition utf8_key pdu : Prop := utf8 (type_name (kind pdu)) ∧ from_option utf8 True (state_key pdu).

Lemma with_own_entry_spec w pdu e ids M :
  room_wf (rooms w) → counter (globals (shorts w)) < u64_max → utf8_key pdu → stands_for (shorts w) ids M →
  ∃ ids' w', with_own_entry pdu e ids w = (Ok ids', w') ∧ grows_to w w' ∧ stands_for (shorts w') ids' (state_after pdu e M).
Proof.
  intros Hw Hc [Hty Hkey] HM. unfold with_own_entry, state_after. destruct (state_key pdu) as [key|]; cbn in Hkey.
  - unfold rbind, shortstatekey, in_rooms.
    destruct (lift_assign sha256 (rooms w) (λ s, get_or_create_shortstatekey s (type_name (kind pdu)) key) (NStateKey (type_name (kind pdu)) key))
      as (k & s & -> & Hw' & Hx & Hk & _); [done..|].
    eexists _, _. split; [done|]. cbn [rooms]. split; [done|].
    apply stands_for_insert; [apply Hw'| |by split_and!].
    eapply stands_for_grows; [apply Hw|apply Hx|done].
  - eexists _, _. split; [done|]. split; [|done]. split_and!; [done|apply extends_refl|done..].
Qed.

(** The state a new event with one previous event comes in is the one the previous event was
    made in, with its own entry if it is a state event; it stands for it by the numbers of
    its keys.  No number given before is changed. *)
Theorem degree_one_is_state_after w tl incoming_pdu e h M prev :
  room_wf (rooms w) → (4 ≤ fuel)%nat → counter (globals (shorts w)) < u64_max →
  head (prev_events incoming_pdu) = Some e → pdu_shortstatehash (rooms w) e = Ok h → room_state (rooms w) h M →
  stored tl e = Ok (Some prev) → utf8_key prev →
  ∃ ids w', state_at_incoming_degree_one evict accepted_first fuel tl incoming_pdu w = (Ok (Some ids), w')
    ∧ grows_to w w' ∧ stands_for (shorts w') ids (state_after prev e M).
Proof.
  intros Hw Hf Hc Hhd Hh HM Hst Hu. unfold state_at_incoming_degree_one. rewrite Hhd. unfold rbind at 1, rpure at 1. cbn [expect].
  unfold rbind at 1, hash_of. rewrite Hh. unfold rbind at 1.
  destruct (ids_of_state_spec w h M Hw Hf HM) as (ids & w1 & -> & (Hw1 & Hx1 & Ht1 & Hc1) & Hs1 & Hst1).
  unfold rbind at 1, rpure at 1. rewrite Hst. unfold rbind at 1, rpure at 1. cbn [ok_or]. unfold rbind at 1.
  destruct (with_own_entry_spec w1 prev e ids M) as (ids2 & w2 & -> & (Hw2 & Hx2 & Ht2 & Hc2) & Hst2); [done|by rewrite Hs1|done..|].
  exists ids2, w2. split; [done|]. split; [|done]. split_and!; [done|by eapply extends_trans|congruence..].
Qed.
End props.

(** ** The current state of a room *)

Section current.
Context {DB : Type} `{Store DB} (sha256 : bytes → bytes).

Lemma set_room_state_spec (rs : RoomState (DB := DB)) room_id h M :
  room_wf sha256 rs → room_state rs h M →
  ∃ rs', set_room_state room_id h rs = (Ok tt, rs') ∧ room_wf sha256 rs' ∧ get_room_shortstatehash rs' room_id = Ok h
    ∧ RoomState.short rs' = RoomState.short rs ∧ (∀ q M', room_state rs q M' → room_state rs' q M')
    ∧ ∀ room', room' ≠ room_id → get_room_shortstatehash rs' room' = get_room_shortstatehash rs room'.
Proof.
  intros Hw (X & m & HX & Hm & HM). destruct (holds_good _ _ _ HX) as (_ & Hu & _).
  unfold set_room_state. rewrite raw_aput_u64. eexists. split; [done|]. unfold get_room_shortstatehash. cbn [roomid_shortstatehash].
  split_and!; [|by rewrite map_get_insert_eq, deserialized_u64_be|done| |].
  - destruct Hw as [Hs Hc Hr Hh Hro]. split; cbn; [done..|]. intros k v. rewrite map_get_insert. case_decide; [|apply Hro].
    intros [= <-]. by exists h, X.
  - intros q M' (X' & m' & ? & ? & ?). by exists X', m'.
  - intros room' Hne. rewrite map_get_insert_ne; [done|]. by intros ?%bytes_of_string_inj.
Qed.
End current.

(** ** Several previous events made in one state *)

Section collapse.
Context {DB : Type} `{Store DB} {C : Type} `{LruCache C} {Content : Type} `{Ruma Content} `{EventWire Content} `{Schedule}.
Context (evict : gmap Z (list ShortStateInfo) → gmap Z (list ShortStateInfo)).
Context (hash_order : list Z → list Z) (broad : ∀ A, list A → list A) (batches : list string → list (list string)).
Context (broad_perm : ∀ A l, broad A l ≡ₚ l) (accepted_first : bool) (fuel : nat).
Implicit Types (w : Rooms DB C) (tl : Timeline.Data DB).
Local Abbreviation stored := (stored accepted_first).

Lemma rmap_reads {A B} (f : A → RoomsM (DB := DB) (C := C) B) (g : A → B) l w :
  (∀ a, a ∈ l → f a w = (Ok (g a), w)) → rmap f l w = (Ok (g <$> l), w).
Proof.
  induction l as [|a l IH]; intros Hf; [done|]. cbn [rmap]. unfold rbind at 1. rewrite Hf by by left.
  unfold rbind at 1. rewrite IH; [done|]. intros a' ?. apply Hf. by right.
Qed.

Lemma rbind_Ok {A B} (m : RoomsM (DB := DB) (C := C) A) (f : A → RoomsM B) w a w' : m w = (Ok a, w') → rbind m f w = f a w'.
Proof. intros E. unfold rbind. by rewrite E. Qed.
Lemma hash_of_found w e h : pdu_shortstatehash (rooms w) e = Ok h → hash_of e w = (Ok (Some h), w).
Proof. intros E. unfold hash_of. by rewrite E. Qed.

(** What is collected of the events with the hashes of their states. *)
Definition by_hash (hash : EventId → Z) (pdu_of : EventId → Pdu Content) (prevs : list EventId) : gmap Z (Pdu Content) :=
  collect_map (broad _ ((λ p : EventId * Pdu Content, (hash p.1, p.2)) <$> broad _ ((λ e : EventId, (e, pdu_of e)) <$> prevs))).
Lemma by_hash_perm (hash : EventId → Z) (pdu_of : EventId → Pdu Content) (prevs : list EventId) :
  broad _ ((λ p : EventId * Pdu Content, (hash p.1, p.2)) <$> broad _ ((λ e : EventId, (e, pdu_of e)) <$> prevs))
  ≡ₚ (λ e, (hash e, pdu_of e)) <$> prevs.
Proof. rewrite broad_perm, broad_perm, <- list_fmap_compose. done. Qed.
Lemma extremities_by_hash tl w prevs hash (pdu_of : EventId → Pdu Content) :
  (∀ e, e ∈ prevs → stored tl e = Ok (Some (pdu_of e)) ∧ pdu_shortstatehash (rooms w) e = Ok (hash e)) →
  extremity_sstatehashes broad accepted_first tl prevs w = (Ok (Some (by_hash hash pdu_of prevs)), w).
Proof.
  intros Hprevs. unfold extremity_sstatehashes, rtry. unfold rbind at 1.
  rewrite (rmap_reads _ (λ e, (e, pdu_of e))).
  2:{ intros e [He _]%Hprevs. unfold rbind at 1, rpure at 1. rewrite He. done. }
  unfold rbind at 1. rewrite (rmap_reads _ (λ p : EventId * Pdu Content, (hash p.1, p.2))); [done|].
  intros p Hp. rewrite broad_perm in Hp. apply list_elem_of_fmap in Hp as (e & -> & [_ He]%Hprevs).
  unfold rbind at 1. cbn [fst]. by rewrite (hash_of_found w e (hash e)).
Qed.

(** One event for each of the hashes. *)
Lemma one_for_each (hash : EventId → Z) (pdu_of : EventId → Pdu Content) (prevs : list EventId) :
  ∃ kept : list EventId, (∀ e, e ∈ kept → e ∈ prevs) ∧ NoDup (hash <$> kept)
    ∧ (∀ e, e ∈ prevs → hash e ∈ hash <$> kept) ∧ by_hash hash pdu_of kept = by_hash hash pdu_of prevs.
Proof.
  set (M := by_hash hash pdu_of prevs).
  assert (∀ h p, M !! h = Some p → ∃ e, e ∈ prevs ∧ h = hash e ∧ p = pdu_of e) as HM.
  { intros h p Hp%collect_map_elem. rewrite by_hash_perm in Hp. by apply list_elem_of_fmap in Hp as (e & [= -> ->] & ?); exists e. }
  assert (∃ kept, (∀ e, e ∈ kept → e ∈ prevs) ∧ (λ e, (hash e, pdu_of e)) <$> kept = map_to_list M) as (kept & Hin & Ek).
  { assert (∀ x, x ∈ map_to_list M → M !! x.1 = Some x.2) as Hl by (intros [h p]; apply elem_of_map_to_list).
    induction (map_to_list M) as [|[h p] l IH]; [by exists []; split; [intros e ?%not_elem_of_nil|]|].
    destruct IH as (kept & Hin & Ek); [intros x Hx; apply Hl; by right|].
    destruct (HM h p) as (e & He & -> & ->); [apply (Hl (h, p)); by left|].
    exists (e :: kept). split; [|by rewrite fmap_cons, Ek]. intros e' [->|?]%elem_of_cons; auto. }
  assert (hash <$> kept = (map_to_list M).*1) as Eh by (rewrite <- Ek, <- list_fmap_compose; done).
  exists kept. split_and!; [done|rewrite Eh; apply NoDup_fst_map_to_list| |].
  - intros e He. rewrite Eh.
    assert (is_Some (M !! hash e)) as [p Hp].
    { apply (collect_map_dom _ _ (pdu_of e)). rewrite by_hash_perm. apply list_elem_of_fmap. by exists e. }
    apply list_elem_of_fmap. exists (hash e, p). split; [done|]. by apply elem_of_map_to_list.
  - apply map_eq. intros h. apply option_eq. intros p. split.
    + intros Hp%collect_map_elem. rewrite by_hash_perm, Ek in Hp. by apply elem_of_map_to_list.
    + intros Hp%elem_of_map_to_list. rewrite <- Ek in Hp. apply collect_map_functional; [|by rewrite by_hash_perm].
      intros p'. rewrite by_hash_perm, Ek, elem_of_map_to_list. rewrite Ek in Hp. apply elem_of_map_to_list in Hp. congruence.
Qed.

(** C24: of the previous events that were made in one state only one has a part in the state
    of an event: there is a list with one of them for each of the states, and the event
    comes in the state it would come in with these previous events alone.  The entries of
    the others are lost. *)
Theorem same_state_collapses tl w (incoming_pdu : Pdu Content) room_id v (hash : EventId → Z) (pdu_of : EventId → Pdu Content) :
  (∀ e, e ∈ prev_events incoming_pdu → stored tl e = Ok (Some (pdu_of e)) ∧ pdu_shortstatehash (rooms w) e = Ok (hash e)) →
  ∃ kept, (∀ e, e ∈ kept → e ∈ prev_events incoming_pdu) ∧ NoDup (hash <$> kept)
    ∧ (∀ e, e ∈ prev_events incoming_pdu → hash e ∈ hash <$> kept)
    ∧ ∀ other : Pdu Content, prev_events other = kept →
      state_at_incoming_resolved evict hash_order broad batches accepted_first fuel tl incoming_pdu room_id v w
      = state_at_incoming_resolved evict hash_order broad batches accepted_first fuel tl other room_id v w.
Proof.
  intros Hprevs. destruct (one_for_each hash pdu_of (prev_events incoming_pdu)) as (kept & Hin & Hnd & Hall & Esame).
  exists kept. split_and!; [done..|]. intros other Ho. unfold state_at_incoming_resolved. rewrite Ho.
  rewrite (rbind_Ok _ _ _ _ _ (extremities_by_hash tl w _ hash pdu_of Hprevs)).
  rewrite (rbind_Ok _ _ _ _ _ (extremities_by_hash tl w kept hash pdu_of (λ e He, Hprevs e (Hin e He)))). by rewrite Esame.
Qed.
End collapse.
