(* ===== verification/ResolveState.v ===== *)
(** * Resolving the state of a room with another one

    [resolve_state] of [src/service/rooms/event_handler/resolve_state.rs] is state resolution
    on the maps from type and state key to event that the stored state of the room and the
    incoming one stand for, with the closures of their auth events; the compressed state it
    returns stands for the resolved map.

    * A room whose topic is contested

    The state of the demonstration room with a topic and an incoming state with another one:
    inputs at which the theorems about states at events apply. *)

From S2P Require Import Prelude Bytes DbMap DbSer DbScan Short ShortProps RoomVersion Event EventAuth AuthDemo DemoText StateRes Resolve StateCompressor CompressorProps.
From S2P Require Import RoomState StateAccessor RoomStateProps RoomStateRefine StateAccessorProps RoomStateDemo AuthChain AuthChainProps IncomingPdu TopoSort CurrentState EventHandler EventHandlerDemo.
From S2P Require Import StateAtEvent.
From S2P Require Timeline.

Local Open Scope Z_scope.

(** ** Maps by type *)

Definition typed (tk : string * string) : TypeStateKey := (event_type_of tk.1, tk.2).
#[export] Instance typed_inj : Inj (=) (=) typed.
Proof.
  intros [ty key] [ty' key'] [= E ->]. apply (f_equal type_name) in E. by rewrite !type_name_event_type_of in E; subst.
Qed.
Definition by_type (M : StateOf) : StateMap := kmap typed M.
Lemma lookup_by_type M tk e : by_type M !! tk = Some e ↔ ∃ ty key, tk = (event_type_of ty, key) ∧ M !! (ty, key) = Some e.
Proof.
  unfold by_type. rewrite lookup_kmap_Some by apply _. split.
  - intros ([ty key] & -> & ?). by exists ty, key.
  - intros (ty & key & -> & ?). by exists (ty, key).
Qed.

Section ids.
Context {DB : Type} `{Store DB}.
Implicit Types (s : Short DB) (M : StateOf) (ids : gmap Z EventId).

(** Keys translated back. *)
Definition names_entry s M (x : Z * EventId) (y : TypeStateKey * EventId) : Prop :=
  y.2 = x.2 ∧ ∃ ty key, y.1 = (event_type_of ty, key) ∧ key_number s ty key x.1 ∧ M !! (ty, key) = Some x.2.
Lemma named_entries_Forall2 s M (l : list (Z * EventId)) :
  short_wf s → (∀ k e, (k, e) ∈ l → ∃ ty key, key_number s ty key k ∧ M !! (ty, key) = Some e) →
  ∃ l', named_entries s l = Ok l' ∧ Forall2 (names_entry s M) l l'.
Proof.
  intros Hw. induction l as [|[k e] l IH]; intros Hl; [by exists []|].
  destruct IH as (l' & E & Hl'); [by intros; apply Hl; right|].
  destruct (Hl k e) as (ty & key & (? & ? & ?) & HM); [by left|].
  exists (((event_type_of ty, key), e) :: l'). split.
  - unfold named_entries in *. rewrite !fmap_cons. cbn [fst snd].
    rewrite (multi_get_statekey s ty key k) by done. cbn [zip_with ignore_err mbind outcome_bind fst snd].
    by rewrite E, !string_of_bytes_of_string.
  - constructor; [|done]. split; [done|]. by exists ty, key.
Qed.

Lemma named_entries_spec s ids M l :
  short_wf s → stands_for s ids M → l ≡ₚ map_to_list ids →
  ∃ l', named_entries s l = Ok l' ∧ collect_map l' = by_type M.
Proof.
  intros Hw [H1 H2] Hl. assert (∀ k e, (k, e) ∈ l ↔ ids !! k = Some e) as Hin by (intros; by rewrite Hl, elem_of_map_to_list).
  destruct (named_entries_Forall2 s M l Hw) as (l' & E & HF); [by intros k e ?%Hin%H2|]. exists l'. split; [done|].
  assert (NoDup l'.*1) as Hnd.
  { assert (NoDup l.*1) as Hnd by (rewrite Hl; apply NoDup_fst_map_to_list). clear -Hw HF Hnd.
    induction HF as [|x y l l' (Ey & ty & key & Ek & Hk & HM) HF IH]; [constructor|]. rewrite !fmap_cons in *.
    apply NoDup_cons in Hnd as [Hx Hnd]. constructor; [|by apply IH]. intros Hy. apply Hx.
    apply list_elem_of_fmap in Hy as (y' & Eq & Hy'). apply list_elem_of_lookup in Hy' as [i Hi].
    destruct (Forall2_lookup_r _ _ _ _ _ HF Hi) as (x' & Hx' & _ & ty' & key' & Ek' & Hk' & _).
    apply list_elem_of_fmap. exists x'. split; [|by eapply list_elem_of_lookup_2].
    rewrite Ek, Ek' in Eq. apply (typed_inj (ty, key) (ty', key')) in Eq as [= <- <-].
    destruct Hk as (_ & _ & Hk), Hk' as (_ & _ & Hk'). congruence. }
  apply map_eq. intros tk. apply option_eq. intros e. rewrite collect_map_NoDup, lookup_by_type by done. split.
  - intros [i Hi]%list_elem_of_lookup. destruct (Forall2_lookup_r _ _ _ _ _ HF Hi) as ([k e'] & _ & Ee & ty & key & Etk & _ & HM).
    cbn in *. subst e'. by exists ty, key.
  - intros (ty & key & -> & (k & Hk & He)%H1). apply Hin, list_elem_of_lookup in He as [i Hi].
    destruct (Forall2_lookup_l _ _ _ _ _ HF Hi) as ([tk e'] & Hi' & Ee & ty' & key' & Etk & Hk' & _). cbn in *. subst.
    destruct (key_number_inj s ty key k ty' key') as [-> ->]; [done..|]. by eapply list_elem_of_lookup_2.
Qed.

(** Rows with numbers, compressed. *)
Lemma rows_describe s (rows : list Row) :
  short_wf s → Forall (row_ok s) rows → NoDup rows.*1.*1 →
  let m := list_to_map rows.*2 in
  represents (list_to_set ((λ r : Row, compress_state_event r.2.1 r.2.2) <$> rows)) m
  ∧ describes s m (list_to_map ((λ r : Row, ((r.1.1.1, r.1.1.2), r.1.2)) <$> rows)).
Proof.
  intros Hw Hok Hnd m. rewrite Forall_forall in Hok.
  assert (NoDup rows.*2.*1) as Hnd2.
  { rewrite <- list_fmap_compose. apply (row_numbers_NoDup s); [done|by apply Forall_forall|done]. }
  set (M := list_to_map _). assert (∀ k v, m !! k = Some v ↔ ∃ x, (x, (k, v)) ∈ rows) as Hm.
  { intros k v. unfold m. rewrite <- elem_of_list_to_map by done. rewrite list_elem_of_fmap. split.
    - intros ([x [k' v']] & [= -> ->] & ?). by exists x.
    - intros [x ?]. by exists (x, (k, v)). }
  assert (∀ ty key e, M !! (ty, key) = Some e ↔ ∃ n, ((ty, key, e), n) ∈ rows) as HM.
  { intros ty key e. unfold M. rewrite <- elem_of_list_to_map.
    - rewrite list_elem_of_fmap. split.
      + intros ([[[ty' key'] e'] n] & [= -> -> ->] & ?). by exists n.
      + intros [n ?]. by exists ((ty, key, e), n).
    - rewrite <- list_fmap_compose in *. erewrite list_fmap_ext; [exact Hnd|]. by intros i [[[? ?] ?] ?] _. }
  split; split.
  - intros e. rewrite elem_of_list_to_set, list_elem_of_fmap. split.
    + intros ([x [k v]] & -> & ?). exists k, v. split; [apply Hm; by exists x|done].
    + intros (k & v & [x ?]%Hm & ->). by exists (x, (k, v)).
  - intros k v [[[ty key] e] Hx]%Hm. destruct (Hok _ Hx) as (? & ? & ? & Hk & Hv).
    destruct (number_bounds s _ _ Hw Hk), (number_bounds s _ _ Hw Hv). by split_and!.
  - intros ty key e [[k v] Hx]%HM. exists k, v. split; [exact (Hok _ Hx)|]. apply Hm. by eexists.
  - intros k v [[[ty key] e] Hx]%Hm. exists ty, key, e. split; [exact (Hok _ Hx)|]. apply HM. by eexists.
Qed.
End ids.

Section resolve.
Context {DB : Type} `{Store DB} {C : Type} `{LruCache C} `{!LruLaws C} {Content : Type} `{Ruma Content} `{EventWire Content} `{Schedule}.
Context (sha256 : bytes → bytes) (evict : gmap Z (list ShortStateInfo) → gmap Z (list ShortStateInfo)).
Context (hash_order : list Z → list Z) (broad : ∀ A, list A → list A) (batches : list string → list (list string)).
Context (hash_order_perm : ∀ l, hash_order l ≡ₚ l) (broad_perm : ∀ A l, broad A l ≡ₚ l) (batches_concat : ∀ l, concat (batches l) = l).
Context (evict_sub : ∀ m, evict m ⊆ m) (accepted_first : bool) (fuel : nat) (tl : Timeline.Data DB).
Implicit Types (w : Rooms DB C) (M : StateOf) (s : Short DB).
Local Abbreviation room_wf := (room_wf sha256).
Local Abbreviation shorts w := (RoomState.short (rooms w)).
Local Abbreviation fetch := (event_fetch accepted_first tl).

(** The timeline as a source of events. *)
#[local] Instance events : EventSource (Timeline.Data DB) Content := timeline_source pdu_from_slice accepted_first.
#[local] Instance events_laws : EventSourceLaws (Timeline.Data DB) Content := timeline_source_laws pdu_from_slice accepted_first.

Lemma fetch_stored e : fetch e = stored_pdu tl e.
Proof.
  unfold event_fetch, stored. cbn [stored_pdu events timeline_source].
  by destruct (Timeline.get_pdu pdu_from_slice accepted_first tl e).
Qed.

(** Stored events have the ids they are stored under and names that are texts. *)
Definition events_valid : Prop := ∀ e p, fetch e = Some p →
  Event.event_id p = e ∧ utf8 e ∧ utf8_key p ∧ event_type_of (type_name (kind p)) = kind p ∧ Forall utf8 (auth_events p).
(** Each entry of a state is a stored event with that type and key. *)
Definition entry_stored (tk : TypeStateKey) (e : EventId) : Prop :=
  ∃ p key, fetch e = Some p ∧ state_key p = Some key ∧ tk = (kind p, key).
Definition state_stored M : Prop := ∀ tk e, by_type M !! tk = Some e → entry_stored tk e.

(** Every event whose number may be asked for. *)
Definition all_events : list EventId := known_events tl ++ all_auth_events tl.
Local Abbreviation spent := (spent all_events).
Local Abbreviation room_left := (room_left all_events).

Context (Hvalid : events_valid).

Lemma entry_known tk e : entry_stored tk e → e ∈ known_events tl ∧ utf8 e.
Proof. intros (p & key & Hp & _). split; [rewrite fetch_stored in Hp; by eapply stored_known|by apply Hvalid in Hp as (_ & ? & _)]. Qed.
Lemma entry_inj tk tk' e : entry_stored tk e → entry_stored tk' e → tk = tk'.
Proof. intros (p & key & Hp & Hk & ->) (p' & key' & Hp' & Hk' & ->). congruence. Qed.

Lemma auth_events_utf8 : Forall utf8 (all_auth_events tl).
Proof.
  apply Forall_forall. intros e He. apply elem_of_concat in He as (l & He & Hl).
  apply list_elem_of_fmap in Hl as (e' & -> & _). destruct (stored_pdu tl e') as [p|] eqn:Ep; [|by apply not_elem_of_nil in He].
  rewrite <- fetch_stored in Ep. apply Hvalid in Ep as (_ & _ & _ & _ & Hu). by eapply Forall_forall in Hu.
Qed.

(** *** Calls of the auth chain service *)

Definition rooms_ok w : Prop := room_wf (rooms w) ∧ chains_wf tl (chains w).
(** Where a call may lead: numbers are added. *)
Definition leads_to w w' : Prop :=
  rooms_ok w' ∧ extends (rooms w) (rooms w') ∧ spent (shorts w') ≤ spent (shorts w)
  ∧ counter (globals (shorts w)) ≤ counter (globals (shorts w')).

Lemma leads_to_trans w1 w2 w3 : leads_to w1 w2 → leads_to w2 w3 → leads_to w1 w3.
Proof. intros (_ & Hx & Hs & Hc) (Hw & Hx' & Hs' & Hc'). split; [done|]. split; [by eapply extends_trans|lia]. Qed.
Lemma leads_to_shorts w w' : leads_to w w' → ∀ n, grows (table_of (shorts w) n) (table_of (shorts w') n).
Proof. by intros (_ & (_ & Hg & _) & _). Qed.

Lemma auth_chain_ids_spec room_id w starts :
  rooms_ok w → room_left (shorts w) → enough tl fuel → NoDup starts → (∀ e, e ∈ starts → e ∈ known_events tl ∧ utf8 e) →
  ∃ r w', auth_chain_ids hash_order broad batches accepted_first fuel tl room_id starts w = (r, w') ∧ leads_to w w'
    ∧ match r with
      | Ok ids => ∀ e, e ∈ ids ↔ led_to tl starts e
      | Err _ => ∃ e e', e ∈ starts ∧ rtc (auth_edge tl) e e' ∧ misplaced tl room_id e'
      | Panic => False
      end.
Proof.
  intros [Hw Hc] Hr Hf Hnd Hst. unfold auth_chain_ids.
  assert (Forall utf8 (starts ++ all_auth_events tl)) as Hu.
  { apply Forall_app. split; [|exact auth_events_utf8]. apply Forall_forall. intros e He. by apply Hst. }
  pose proof (event_ids_iter_closure hash_order broad batches hash_order_perm broad_perm batches_concat tl starts Hu all_events) as Hcl.
  specialize (Hcl ltac:(intros e; unfold all_events; rewrite !elem_of_app; intros [?|?]; [left; by apply Hst|by right])).
  specialize (Hcl room_id fuel (chains w) Hc Hr Hf Hnd).
  destruct (event_ids_iter _ _ _ _ _ _ _ _) as [a r]. destruct Hcl as (Ha & Hev & Hres).
  eexists _, (set_chains w a). split; [done|]. split.
  - split; [split|].
    + apply (room_wf_short sha256 (rooms w)); [done|apply Ha|apply (ev_count _ _ _ Hev)|].
      apply (ev_others _ _ _ Hev (NStateHash [])). by intros [].
    + by destruct a.
    + split; [split_and!; [by intros q Y|apply (ev_grows _ _ _ Hev)|done]|].
      split; [apply (ev_spent _ _ _ Hev)|apply (ev_count _ _ _ Hev)].
  - destruct r as [ids|err|]; [|done..]. destruct Hres as [_ Hres]. intros e. by rewrite elem_of_list_to_set, Hres.
Qed.

Lemma grows_leads w w' : rooms_ok w → grows_to sha256 w w' → shorts w' = shorts w → leads_to w w'.
Proof.
  intros [Hw Hc] (Hw' & Hx & Ht & Hca) Hs. split; [split; [done|]|split; [done|by rewrite Hs]].
  unfold chains. by rewrite Hs, Ht, Hca.
Qed.

(** The events of a state, as starting events. *)
Definition has_event M (e : EventId) : Prop := ∃ ty key, M !! (ty, key) = Some e.
Lemma starting_events s ids M (l : list (Z * EventId)) :
  short_wf s → stands_for s ids M → state_stored M → l ≡ₚ map_to_list ids →
  NoDup l.*2 ∧ (∀ e, e ∈ l.*2 → e ∈ known_events tl ∧ utf8 e) ∧ ∀ e, e ∈ l.*2 ↔ has_event M e.
Proof.
  intros Hw [Hkey Hid] HM Hl. assert (∀ k e, (k, e) ∈ l ↔ ids !! k = Some e) as Hin by (intros; by rewrite Hl, elem_of_map_to_list).
  assert (∀ ty key e, M !! (ty, key) = Some e → entry_stored (event_type_of ty, key) e) as Hent.
  { intros ty key e He. apply HM, lookup_by_type. by exists ty, key. }
  assert (∀ e, e ∈ l.*2 ↔ has_event M e) as Hev.
  { intros e. rewrite list_elem_of_fmap. split.
    - intros ([k e'] & -> & (ty & key & _ & ?)%Hin%Hid). by exists ty, key.
    - intros (ty & key & (k & _ & ?)%Hkey). exists (k, e). split; [done|]. by apply Hin. }
  split_and!; [|by intros e (ty & key & ?%Hent%entry_known)%Hev|done].
  assert (NoDup l) as Hnd by (rewrite Hl; apply NoDup_map_to_list).
  apply NoDup_fmap_2_strong; [|done]. intros [k e] [k' e'] Hk%Hin%Hid Hk'%Hin%Hid E. cbn in E. subst e'.
  destruct Hk as (ty & key & (_ & _ & Hk) & He), Hk' as (ty' & key' & (_ & _ & Hk') & He').
  pose proof (entry_inj _ _ e (Hent _ _ _ He) (Hent _ _ _ He')) as E.
  apply (typed_inj (ty, key) (ty', key')) in E as [= <- <-]. congruence.
Qed.

(** *** Numbers for the keys and events of the resolved state *)

Lemma unnumbered_le s s' :
  short_wf s → (∀ n, grows (table_of s n) (table_of s' n)) →
  (length (filter (unnumbered s') all_events) ≤ length (filter (unnumbered s) all_events))%nat.
Proof.
  intros Hw Hg. assert (∀ e, unnumbered s' e → unnumbered s e) as Hn.
  { intros e. unfold unnumbered. destruct (get_shorteventid s e) as [z|err|] eqn:E; [|done..].
    pose proof (number_grows s s' (NEvent e) z Hw (Hg _) E) as E'. cbn [number] in E'. by rewrite E'. }
  generalize all_events. intros l. induction l as [|e l IH]; [done|]. rewrite !filter_cons.
  repeat case_decide; cbn; [lia|naive_solver|lia|lia].
Qed.

Definition numbered_key s (x : TypeStateKey * EventId) (y : Z * EventId) : Prop :=
  y.2 = x.2 ∧ key_number s (type_name x.1.1) x.1.2 y.1.
Lemma number_key_spec w ty key e :
  room_wf (rooms w) → counter (globals (shorts w)) < u64_max → utf8 (type_name ty) → utf8 key →
  ∃ k w', number_key ((ty, key), e) w = (Ok (k, e), w') ∧ room_wf (rooms w') ∧ extends (rooms w) (rooms w')
    ∧ counter (globals (shorts w')) ≤ counter (globals (shorts w)) + 1 ∧ key_number (shorts w') (type_name ty) key k.
Proof.
  intros Hw Hc Hty Hkey. unfold number_key, rbind, shortstatekey, in_rooms. cbn [fst snd].
  destruct (lift_assign sha256 (rooms w) (λ s, get_or_create_shortstatekey s (type_name ty) key) (NStateKey (type_name ty) key))
    as (k & s1 & -> & Hw1 & Hx1 & Hk & Hc1); [done..|].
  eexists k, _. split; [done|]. cbn. split_and!; [done..|lia|by split_and!].
Qed.
Lemma number_keys_spec w (l : list (TypeStateKey * EventId)) :
  room_wf (rooms w) → counter (globals (shorts w)) + Z.of_nat (length l) ≤ u64_max →
  (∀ x, x ∈ l → utf8 (type_name x.1.1) ∧ utf8 x.1.2) →
  ∃ ks w', rmap number_key l w = (Ok ks, w') ∧ room_wf (rooms w') ∧ extends (rooms w) (rooms w')
    ∧ counter (globals (shorts w')) ≤ counter (globals (shorts w)) + Z.of_nat (length l)
    ∧ Forall2 (numbered_key (shorts w')) l ks.
Proof.
  revert w. induction l as [|[[ty key] e] l IH]; intros w Hw Hc Hu; cbn [rmap].
  { exists [], w. split_and!; [done|done|apply extends_refl|lia|constructor]. }
  destruct (Hu ((ty, key), e)) as [Hty Hkey]; [by left|]. cbn [length fst snd] in *.
  destruct (number_key_spec w ty key e) as (k & w1 & E & Hw1 & Hx1 & Hc1 & Hk); [done|lia|done..|].
  unfold rbind at 1. rewrite E. unfold rbind at 1.
  destruct (IH w1) as (ks & w2 & -> & Hw2 & Hx2 & Hc2 & Hks); [done|lia|by intros; apply Hu; right|].
  exists ((k, e) :: ks), w2. split_and!; [done|done|by eapply extends_trans|lia|].
  constructor; [|done]. split; [done|]. eapply key_number_grows; [apply Hw1|apply Hx2|done].
Qed.

Lemma number_events_spec rs (ks : list (Z * EventId)) :
  room_wf rs → room_left (RoomState.short rs) → NoDup ks.*2 → (∀ e, e ∈ ks.*2 → e ∈ known_events tl ∧ utf8 e) →
  ∃ nums rs', compress_state_events ks (batches ks.*2) rs = (Ok (zip_with compress_state_event ks.*1 nums), rs')
    ∧ room_wf rs' ∧ extends rs rs' ∧ shorts_of (RoomState.short rs') ks.*2 nums.
Proof.
  intros Hw Hr Hnd Hk. unfold compress_state_events, bind, lift_short.
  destruct (multi_get_or_create_spec all_events (RoomState.short rs) (batches ks.*2)) as (nums & s' & -> & Hs & Hev);
    rewrite ?batches_concat in *; [apply Hw|done|done|apply Forall_forall; by intros e [_ ?]%Hk| |].
  { apply Forall_forall. intros e [He _]%Hk. by apply elem_of_app; left. }
  exists nums, (RoomStateProps.with_short rs s'). split; [done|]. split_and!; [|split_and!; [by intros q Y|apply (ev_grows _ _ _ Hev)|done]|done].
  apply (room_wf_short sha256 rs); [done|apply (ev_wf _ _ _ Hev), Hw|apply (ev_count _ _ _ Hev)|].
  apply (ev_others _ _ _ Hev (NStateHash [])). by intros [].
Qed.

Definition row_of (x : TypeStateKey * EventId) : string * string * string := (type_name x.1.1, x.1.2, x.2).
Lemma numbered_rows s (l : list (TypeStateKey * EventId)) ks nums :
  Forall (λ x, utf8 x.2) l → Forall2 (numbered_key s) l ks → shorts_of s ks.*2 nums →
  ∃ rows : list Row, rows.*1 = row_of <$> l ∧ Forall (row_ok s) rows
    ∧ (λ r : Row, compress_state_event r.2.1 r.2.2) <$> rows = zip_with compress_state_event ks.*1 nums.
Proof.
  intros Hu Hl. revert nums. induction Hl as [|[[ty key] e] [k e'] l ks (Ee & Hty & Hkey & Hk) _ IH]; intros nums Hn.
  { exists []. by inversion Hn. }
  cbn in Ee. subst e'. apply Forall_cons in Hu as [Hue Hu]. inversion Hn as [|x v ? nums' [_ Hv] Hn' E1 E2]; subst. cbn in *.
  destruct (IH Hu nums' Hn') as (rows & E & Hok & Ec). exists (((type_name ty, key, e), (k, v)) :: rows).
  rewrite !fmap_cons, E, Ec. split; [done|]. split; [|done]. constructor; [by split_and!|done].
Qed.

Lemma resolved_rows s (R : StateMap) (l : list (TypeStateKey * EventId)) ks nums :
  short_wf s → l ≡ₚ map_to_list R → (∀ tk e, R !! tk = Some e → entry_stored tk e) →
  Forall2 (numbered_key s) l ks → shorts_of s ks.*2 nums →
  ∃ m M, represents (list_to_set (zip_with compress_state_event ks.*1 nums)) m ∧ describes s m M ∧ by_type M = R.
Proof.
  intros Hw Hl HR Hks Hn. assert (∀ tk e, (tk, e) ∈ l ↔ R !! tk = Some e) as Hin by (intros; by rewrite Hl, elem_of_map_to_list).
  assert (∀ tk e, R !! tk = Some e → event_type_of (type_name tk.1) = tk.1) as Hnorm.
  { intros tk e (p & key & Hp & _ & ->)%HR. by apply Hvalid in Hp as (_ & _ & _ & ? & _). }
  destruct (numbered_rows s l ks nums) as (rows & E1 & Hok & Ec); [|done..|].
  { apply Forall_forall. intros [tk e] He%Hin%HR. by apply entry_known in He as [_ ?]. }
  assert (NoDup rows.*1.*1) as Hnd.
  { rewrite E1, <- list_fmap_compose. apply NoDup_fmap_2_strong; [|rewrite Hl; apply NoDup_map_to_list].
    intros [[ty key] e] [[ty' key'] e'] Hx%Hin Hx'%Hin [= Et ->]. apply (f_equal event_type_of) in Et.
    pose proof (Hnorm _ _ Hx) as N. pose proof (Hnorm _ _ Hx') as N'. cbn in N, N', Et. rewrite N, N' in Et. subst. congruence. }
  destruct (rows_describe s rows Hw Hok Hnd) as [Hrep Hdes]. rewrite Ec in Hrep. eexists _, _. split; [exact Hrep|].
  split; [exact Hdes|]. apply map_eq. intros tk. apply option_eq. intros e. rewrite lookup_by_type.
  assert (∀ ty key, list_to_map (M := StateOf) ((λ r : Row, ((r.1.1.1, r.1.1.2), r.1.2)) <$> rows) !! (ty, key) = Some e
    ↔ ∃ x, x ∈ l ∧ row_of x = (ty, key, e)) as Hlook.
  { intros ty key. rewrite <- elem_of_list_to_map.
    - transitivity ((ty, key, e) ∈ rows.*1); [|rewrite E1, list_elem_of_fmap; naive_solver].
      rewrite !list_elem_of_fmap. split; intros ([[[ty' key'] e'] n] & [= -> -> ->] & ?); by exists (ty', key', e', n).
    - rewrite <- list_fmap_compose in *. erewrite list_fmap_ext; [exact Hnd|]. by intros i [[[? ?] ?] ?] _. }
  setoid_rewrite Hlook. split.
  - intros (ty & key & -> & [[ty' key'] e'] & Hx%Hin & [= <- <- <-]). pose proof (Hnorm _ _ Hx) as E. cbn in E. by rewrite E.
  - intros He. destruct tk as [ty key]. exists (type_name ty), key. pose proof (Hnorm _ _ He) as E. cbn in E. rewrite E.
    split; [done|]. exists ((ty, key), e). split; [by apply Hin|done].
Qed.

(** *** The chains of the forks *)

(** What the auth events of a state's events lead to. *)
Definition chain_of M (c : gset EventId) : Prop := ∀ e', e' ∈ c ↔ ∃ e, has_event M e ∧ tc (auth_edge tl) e e'.
Definition fork_of (l : list (Z * EventId)) M : Prop :=
  NoDup l.*2 ∧ (∀ e, e ∈ l.*2 → e ∈ known_events tl ∧ utf8 e) ∧ ∀ e, e ∈ l.*2 ↔ has_event M e.

Lemma fork_chains_spec room_id w (forks : list (list (Z * EventId))) Ms :
  rooms_ok w → room_left (shorts w) → enough tl fuel → Forall2 fork_of forks Ms →
  ∃ r w', rmap (λ state : list (Z * EventId), auth_chain_ids hash_order broad batches accepted_first fuel tl room_id state.*2) forks w = (r, w')
    ∧ leads_to w w'
    ∧ match r with
      | Ok cs => Forall2 chain_of Ms cs
      | Err _ => ∃ M e e', M ∈ Ms ∧ has_event M e ∧ rtc (auth_edge tl) e e' ∧ misplaced tl room_id e'
      | Panic => False
      end.
Proof.
  intros Hw Hr Hf HF. revert w Hw Hr. induction HF as [|l M forks Ms (Hnd & Hk & He) HF IH]; intros w Hw Hr; cbn [rmap].
  { exists (Ok []), w. split; [done|]. split; [|constructor]. split; [done|]. split; [apply extends_refl|done]. }
  destruct (auth_chain_ids_spec room_id w l.*2 Hw Hr Hf Hnd Hk) as (r & w1 & E & L1 & Hres).
  unfold rbind at 1. rewrite E. destruct r as [c|err|]; [| |done].
  2:{ exists (Err err), w1. split; [done|]. split; [done|]. destruct Hres as (e & e' & Hin & ? & ?).
      exists M, e, e'. split_and!; [by left|by apply He|done|done]. }
  destruct (IH w1) as (r2 & w2 & E2 & L2 & Hres2); [apply L1|unfold AuthChainProps.room_left in *; destruct L1 as (_ & _ & ? & _); lia|].
  unfold rbind at 1. rewrite E2. pose proof (leads_to_trans _ _ _ L1 L2) as L12. destruct r2 as [cs|err|]; [| |done].
  - exists (Ok (c :: cs)), w2. split; [done|]. split; [done|]. constructor; [|done].
    intros e'. rewrite Hres. unfold led_to. by setoid_rewrite He.
  - exists (Err err), w2. split; [done|]. split; [done|]. destruct Hres2 as (M' & e & e' & ? & ?). exists M', e, e'. split; [by right|done].
Qed.

(** Numbering a resolved state and compressing it. *)
Definition stands (w : Rooms DB C) (X : CompressedState) M : Prop := ∃ m, represents X m ∧ describes (shorts w) m M.
Lemma compress_resolved w (R : StateMap) (l : list (TypeStateKey * EventId)) :
  rooms_ok w → spent (shorts w) + Z.of_nat (size R) ≤ u64_max → l ≡ₚ map_to_list R →
  (∀ tk e, R !! tk = Some e → entry_stored tk e) →
  ∃ X M w', rbind (rmap number_key l) (λ state_events,
      rbind (in_rooms (compress_state_events state_events (batches state_events.*2))) (λ X, rret (list_to_set X))) w = (Ok X, w')
    ∧ room_wf (rooms w') ∧ extends (rooms w) (rooms w') ∧ stands w' X M ∧ by_type M = R.
Proof.
  intros [Hw _] Hs Hl HR. assert (∀ tk e, (tk, e) ∈ l ↔ R !! tk = Some e) as Hin by (intros; by rewrite Hl, elem_of_map_to_list).
  assert (length l = size R) as Hlen by (by rewrite Hl, length_map_to_list).
  destruct (number_keys_spec w l) as (ks & w1 & E1 & Hw1 & Hx1 & Hc1 & Hks); [done| | |].
  { unfold AuthChainProps.spent in Hs. lia. }
  { intros [tk e] (p & key & Hp & Hk & ->)%Hin%HR. apply Hvalid in Hp as (_ & _ & [Hty Hkey] & _). rewrite Hk in Hkey. done. }
  assert (ks.*2 = l.*2) as Eks.
  { clear -Hks. induction Hks as [|x y l ks [E _] _ IH]; [done|]. rewrite !fmap_cons. by rewrite IH, E. }
  assert (∀ e, e ∈ ks.*2 ↔ ∃ tk, R !! tk = Some e) as Hev.
  { intros e. rewrite Eks, list_elem_of_fmap. split; [intros ([tk e'] & -> & ?%Hin); by exists tk|]. intros [tk ?%Hin]. by exists (tk, e). }
  destruct (number_events_spec (rooms w1) ks) as (nums & rs & E2 & Hw2 & Hx2 & Hn); [done| | |by intros e [tk ?%HR%entry_known]%Hev|].
  { pose proof (unnumbered_le (shorts w) (shorts w1) (rw_short _ _ Hw) (proj1 (proj2 Hx1))).
    unfold AuthChainProps.room_left, AuthChainProps.spent in *. lia. }
  { rewrite Eks. apply NoDup_fmap_2_strong; [|rewrite Hl; apply NoDup_map_to_list].
    intros [tk e] [tk' e'] Hx%Hin Hx'%Hin Ee. cbn in Ee. subst e'. f_equal. by eapply entry_inj; apply HR. }
  set (w2 := mkRooms rs (chain_table w1) (chain_cache w1)).
  destruct (resolved_rows (RoomState.short rs) R l ks nums) as (m & M & Hm & HM & E); [apply Hw2|done|done| |done|].
  { eapply Forall2_impl; [exact Hks|]. intros x y [Ey Hk]. split; [done|]. eapply key_number_grows; [apply Hw1|apply Hx2|done]. }
  exists (list_to_set (zip_with compress_state_event ks.*1 nums)), M, w2. split.
  - rewrite (rbind_Ok _ _ _ _ _ E1). unfold rbind, in_rooms. by rewrite E2.
  - split_and!; [done|by eapply extends_trans|by exists m|done].
Qed.

Lemma resolved_size (R : StateMap) :
  (∀ tk e, R !! tk = Some e → entry_stored tk e) → (size R ≤ length (known_events (Content := Content) tl))%nat.
Proof.
  intros HR. rewrite <- length_map_to_list, <- (length_fmap snd). apply submseteq_length, NoDup_submseteq.
  - apply NoDup_fmap_2_strong; [|apply NoDup_map_to_list].
    intros [tk e] [tk' e'] Hx%elem_of_map_to_list Hx'%elem_of_map_to_list Ee. cbn in Ee. subst e'.
    f_equal. by eapply entry_inj; apply HR.
  - intros e ([tk e'] & -> & Hx%elem_of_map_to_list)%list_elem_of_fmap. by apply (entry_known tk), HR.
Qed.

Lemma resolved_stored (Ms : list StateOf) (v : RoomVersionId) (sets : list StateMap) (cs : list (gset EventId)) (R : StateMap) :
  Forall state_stored Ms → sets = by_type <$> Ms →
  resolve fetch (event_exists accepted_first tl) fuel v sets cs = Ok R → ∀ tk e, R !! tk = Some e → entry_stored tk e.
Proof.
  intros HMs -> HR tk e He. destruct (resolve_entry _ _ _ _ _ _ _ _ _ HR He) as [[Hne Ha]|(csg & init & _ & Ha)].
  - destruct Ms as [|M Ms]; [done|]. apply Forall_cons in HMs as [HM _]. apply HM, Ha. by left.
  - apply admitted_in_rounds_from in Ha as (i & ev & key & _ & Hi & <- & Hk & ->). exists ev, key.
    pose proof (Hvalid _ _ Hi) as (-> & _). done.
Qed.

End resolve.

Local Open Scope Z_scope.

Module Contested.
#[local] Instance in_order : Schedule := { order _ _ l := l; order_perm _ _ l := reflexivity l }.

(** ** The timeline *)

Definition topic_fields (id : string) (prev : list string) (ts : Z) : Fields :=
  ((id, "m.room.topic", "@alice:a", Some ""), (["$create"; "$levels"; "$alice"], prev, ts)).
Definition events : list Fields :=
  [demo_fields_of "$create"; demo_fields_of "$alice"; demo_fields_of "$levels"; topic_fields "$t" ["$levels"] 5; topic_fields "$u" ["$levels"] 6].
Definition tl : Timeline.Data (gmap bytes bytes) :=
  Timeline.mkData (list_to_map ((λ f : Fields, (bytes_of_string f.1.1.1.1, any_text (Some f))) <$> events)) ∅ ∅ ∅ ∅.
Local Abbreviation fetch := (event_fetch (Content := DemoContent) true tl).
Example fetched : (λ e, event_id <$> fetch e) <$> ["$create"; "$t"; "$u"; "$other"] = [Some "$create"; Some "$t"; Some "$u"; None].
Proof. by vm_compute. Qed.

(** ** The room *)

Definition start : RoomState := (set_room_state "!r:a" 3 room2).2.
Definition w0 : Rooms (gmap bytes bytes) LruList := mkRooms start ∅ (mkLruList [] 2).
Definition incoming : gmap Z string := {[2 := "$u"]}.
Definition incoming_state : StateOf := {[("m.room.topic", "") := "$u"]}.

Lemma start_stored : room_wf plain_digest start ∧ get_room_shortstatehash start "!r:a" = Ok 3 ∧ room_state start 3 topic_state.
Proof.
  destruct room2_stored as (Hw & _ & Hs). destruct (set_room_state_spec plain_digest room2 "!r:a" 3 topic_state Hw Hs) as (rs & E & Hw' & Hg & _ & Hk & _).
  unfold start. rewrite E. split_and!; [done..|by apply Hk].
Qed.
#[local] Instance source : EventSource (Timeline.Data (gmap bytes bytes)) DemoContent := timeline_source pdu_from_slice true.
Definition known : list string := known_events (Content := DemoContent) tl.

Lemma fetch_known e p : fetch e = Some p → e ∈ ["$create"; "$alice"; "$levels"; "$t"; "$u"].
Proof.
  intros Hp. assert (e ∈ known) as He.
  { rewrite fetch_stored in Hp. eapply (stored_known (EventSourceLaws := timeline_source_laws pdu_from_slice true)), Hp. }
  clear p Hp. revert e He. apply Forall_forall, (bool_decide_unpack _). by vm_compute.
Qed.
Definition text_ok (s : string) : bool := utf8_valid (bytes_of_string s).
Definition event_ok (e : string) (p : Pdu DemoContent) : bool :=
  bool_decide (Event.event_id p = e) && text_ok e && (text_ok (type_name (kind p)) && from_option text_ok true (state_key p))
  && bool_decide (event_type_of (type_name (kind p)) = kind p) && forallb text_ok (auth_events p).
Lemma events_ok : forallb (λ e, from_option (event_ok e) true (fetch e)) ["$create"; "$alice"; "$levels"; "$t"; "$u"] = true.
Proof. vm_cast_no_check (eq_refl true). Qed.
Lemma events_are_valid : events_valid (Content := DemoContent) true tl.
Proof.
  intros e p Hp. pose proof (proj1 (forallb_forall _ _) events_ok e) as Hok. cbn beta in Hok.
  rewrite Hp in Hok. cbn [from_option] in Hok. specialize (Hok (proj1 (list_elem_of_In _ _) (fetch_known e p Hp))).
  unfold event_ok in Hok. rewrite !andb_true_iff in Hok. destruct Hok as ((((Hid & Hu) & (Hty & Hkey)) & Hnorm) & Hauth).
  split; [by apply bool_decide_eq_true_1 in Hid|]. split; [done|]. split; [|split].
  - split; [done|]. by destruct (state_key p).
  - by apply bool_decide_eq_true_1 in Hnorm.
  - apply Forall_forall. intros a Ha. rewrite forallb_forall in Hauth. by apply Hauth, list_elem_of_In.
Qed.

Definition topic_ok (e : string) : bool :=
  match fetch e with Some p => bool_decide (kind p = OtherType "m.room.topic") && bool_decide (state_key p = Some "") | None => false end.
Lemma topics_ok : topic_ok "$t" && topic_ok "$u" = true.
Proof. vm_cast_no_check (eq_refl true). Qed.
Lemma topic_found e : topic_ok e = true → ∃ p, fetch e = Some p ∧ kind p = OtherType "m.room.topic" ∧ state_key p = Some "".
Proof.
  unfold topic_ok. generalize (fetch e). intros [p|] Hp; [|done]. exists p. rewrite andb_true_iff in Hp.
  destruct Hp as [Hk%bool_decide_eq_true_1 Hkey%bool_decide_eq_true_1]. done.
Qed.
Lemma topic_stored e : topic_ok e = true → state_stored (Content := DemoContent) true tl {[("m.room.topic", "") := e]}.
Proof.
  intros (p & Hp & Hk & Hkey)%topic_found tk e'. rewrite lookup_by_type.
  intros (ty & key & -> & [[= <- <-] <-]%lookup_singleton_Some). exists p, "". split; [exact Hp|]. split; [exact Hkey|]. by rewrite Hk.
Qed.

Lemma w0_ok : rooms_ok plain_digest true tl w0.
Proof.
  destruct start_stored as (Hw & _). split; [done|]. split; [apply Hw|intros key v Hk; by rewrite lru_peek_list in Hk|].
  intros k b Hk. cbn in Hk. by rewrite lookup_empty in Hk.
Qed.
Lemma incoming_stands : stands_for (RoomState.short start) incoming incoming_state.
Proof.
  apply (stands_for_insert _ ∅ ∅ "m.room.topic" "" "$u" 2); [apply start_stored|apply stands_for_empty|].
  split_and!; by vm_compute.
Qed.

(** ** The theorems *)

Definition one_batch (l : list string) : list (list string) := [l].
Definition resolved := resolve_state (Content := DemoContent) keep_all id (λ _ l, l) one_batch true 30 tl "!r:a" V10 incoming w0.
(** The later topic wins. *)
Lemma resolved_computed :
  (let '(r, w) := resolved in (r, get_shorteventid (RoomState.short (rooms w)) "$u")) = (Ok {[compress_state_event 2 7]}, Ok 7).
Proof. vm_cast_no_check (eq_refl (Ok (E := RoomError) ({[compress_state_event 2 7]} : CompressedState), Ok (E := ShortError) 7)). Qed.
Example resolved_state :
  resolved.1 = Ok {[compress_state_event 2 7]} ∧ get_shorteventid (RoomState.short (rooms resolved.2)) "$u" = Ok 7.
Proof. pose proof resolved_computed as E. destruct resolved as [r w]. by injection E. Qed.


(** Two previous events that were made in one state: the power levels are lost, or the
    topic. *)
Definition new_event (prev : list string) : Pdu DemoContent := event_of (topic_fields "$n" prev 7).
Definition made_in_3 (e : string) : RoomM unit :=
  bind (lift_short (λ s, get_or_create_shorteventid s e)) (λ n, put_event_state n 3).
Definition w1 : Rooms (gmap bytes bytes) LruList :=
  mkRooms (bind (made_in_3 "$levels") (λ _, made_in_3 "$u") start).2 ∅ (mkLruList [] 2).
Definition state_before (prev : list string) : list (Z * string) :=
  match (state_at_incoming_resolved keep_all id (λ _ l, l) one_batch true 30 tl (new_event prev) "!r:a" V10 w1).1 with
  | Ok (Some state) => map_to_list state
  | _ => []
  end.
Example lost_levels : state_before ["$levels"; "$u"] = [(2, "$u")] ∧ state_before ["$u"; "$levels"] = [(6, "$levels"); (2, "$t")].
Proof. split; vm_compute; reflexivity. Qed.

Definition stored_pdu_of (e : string) : Pdu DemoContent := default (new_event []) (fetch e).
Lemma same_state_collapses_witness :
  ∃ kept, (∀ e, e ∈ kept → e ∈ ["$levels"; "$u"]) ∧ length kept = 1%nat ∧
    state_at_incoming_resolved keep_all id (λ _ l, l) one_batch true 30 tl (new_event ["$levels"; "$u"]) "!r:a" V10 w1
    = state_at_incoming_resolved keep_all id (λ _ l, l) one_batch true 30 tl (new_event kept) "!r:a" V10 w1.
Proof.
  destruct (same_state_collapses keep_all id (λ _ l, l) one_batch (λ _ l, reflexivity l) true 30 tl w1 (new_event ["$levels"; "$u"]) "!r:a" V10
    (λ _, 3) stored_pdu_of) as (kept & Hin & Hnd & Hcov & Hall).
  - intros e He. apply elem_of_cons in He as [->|He]; [|apply elem_of_cons in He as [->|He]; [|by apply not_elem_of_nil in He]];
      (split; vm_compute; reflexivity).
  - exists kept. split; [exact Hin|]. assert (length kept = 1%nat) as Hl.
    { destruct kept as [|e1 [|e2 kept]]; [|done|].
      - specialize (Hcov "$u"). apply not_elem_of_nil in Hcov; [done|]. apply (bool_decide_unpack _). vm_compute. exact I.
      - apply NoDup_cons in Hnd as [Hnd _]. destruct Hnd. left. }
    split; [exact Hl|]. apply Hall. destruct kept as [|e1 [|e2 kept]]; try discriminate Hl. reflexivity.
Defined.

Lemma made_in_3_spec (rs : RoomState) e :
  room_wf plain_digest rs → counter (globals (RoomState.short rs)) < u64_max →
  ∃ rs', made_in_3 e rs = (Ok tt, rs') ∧ room_wf plain_digest rs' ∧ extends rs rs'
    ∧ counter (globals (RoomState.short rs')) ≤ counter (globals (RoomState.short rs)) + 1.
Proof.
  intros Hw Hc. unfold made_in_3, bind.
  destruct (lift_assign plain_digest rs (λ s, get_or_create_shorteventid s e) (NEvent e)) as (n & s & -> & Hw1 & Hx1 & _ & Hc1); [done..|].
  rewrite put_event_state_spec. destruct (room_wf_event_states plain_digest _ (map_insert (shorteventid_shortstatehash (RoomStateProps.with_short rs s)) (u64_be n) (u64_be 3)) Hw1) as [Hw2 Hx2].
  eexists. split; [done|]. split; [done|]. split; [by eapply extends_trans|]. cbn. lia.
Qed.
Lemma w1_stored : room_wf plain_digest (rooms w1) ∧ room_state (rooms w1) 3 topic_state.
Proof.
  destruct start_stored as (Hw & _ & Hs). assert (counter (globals (RoomState.short start)) = 3) as Hc by by vm_compute.
  destruct (made_in_3_spec start "$levels" Hw) as (rs1 & E1 & Hw1 & Hx1 & Hc1); [by rewrite Hc|].
  destruct (made_in_3_spec rs1 "$u" Hw1) as (rs2 & E2 & Hw2 & Hx2 & _); [unfold u64_max; lia|].
  assert (rooms w1 = rs2) as -> by (unfold w1, bind; cbn [rooms]; by rewrite E1, E2). split; [done|].
  eapply room_state_extends; [apply Hw1|done|]. by eapply room_state_extends; [apply Hw|..].
Qed.

Lemma degree_one_is_state_after_witness :
  ∃ ids w', state_at_incoming_degree_one keep_all true 30 tl (new_event ["$u"]) w1 = (Ok (Some ids), w')
    ∧ stands_for (RoomState.short (rooms w')) ids incoming_state.
Proof.
  destruct topic_found with (e := "$u") as (p & Hp & Hk & Hkey); [vm_compute; reflexivity|].
  assert (stored (Content := DemoContent) true tl "$u" = Ok (Some p)) as Hst.
  { revert Hp. unfold event_fetch. destruct (stored _ _ _) as [o|?|]; [|discriminate..]. by intros ->. }
  destruct w1_stored as [Hw Hs].
  destruct (degree_one_is_state_after plain_digest keep_all true 30 keep_all_sub w1 tl (new_event ["$u"]) "$u" 3 topic_state p)
    as (ids & w' & E & _ & Hids).
  - exact Hw.
  - lia.
  - vm_compute. reflexivity.
  - reflexivity.
  - vm_compute. reflexivity.
  - exact Hs.
  - exact Hst.
  - unfold utf8_key. rewrite Hk, Hkey. split; reflexivity.
  - exists ids, w'. split; [exact E|]. unfold state_after in Hids. rewrite Hk, Hkey in Hids.
    unfold topic_state in Hids. rewrite insert_singleton_eq in Hids. exact Hids.
Defined.
End Contested.
