(* ===== verification/Unsigned.v ===== *)
(** * The unsigned data of an event

    Models [src/core/matrix/pdu/unsigned.rs] and [redact.rs]: what a client is told about an
    event beside what is signed, and the redaction of a stored event. *)

From S2P Require Import Prelude RoomVersion Event.

Local Open Scope Z_scope.

(** serde_json on the raw text of an object: its members as texts, and back. *)
Class RawJson := {
  raw_object : string → option (gmap string string);
  raw_text : gmap string string → string;
  integer_text : Z → string;
}.

Section unsigned.
Context {Content : Type} `{RawJson}.
Implicit Types (pdu : Pdu Content).

Definition with_unsigned pdu (u : option string) : Pdu Content :=
  mkPdu (event_id pdu) (room_id pdu) (sender pdu) (origin pdu) (origin_server_ts pdu) (kind pdu) (content pdu) (state_key pdu)
    (prev_events pdu) (depth pdu) (auth_events pdu) (redacts pdu) u (hashes pdu) (signatures pdu).

(** The errors of the two parts are logged and dropped. *)
Definition remove_transaction_id pdu : option (Pdu Content) :=
  match unsigned pdu with
  | None => Some pdu
  | Some u => unsigned ← raw_object u; Some (with_unsigned pdu (Some (raw_text (delete "transaction_id" unsigned))))
  end.
Definition add_age (now : Z) pdu : option (Pdu Content) :=
  unsigned ← match unsigned pdu with None => Some ∅ | Some u => raw_object u end;
  Some (with_unsigned pdu (Some (raw_text (<["age" := integer_text (now - origin_server_ts pdu)]> unsigned)))).
Definition set_unsigned (now : Z) (user_id : option UserId) pdu : Pdu Content :=
  let pdu := if bool_decide (Some (sender pdu) ≠ user_id) then default pdu (remove_transaction_id pdu) else pdu in
  default pdu (add_age now pdu).

(** [redact_content_in_place] of ruma, and the event that redacts as JSON text. *)
Context (redact_content : Content → RoomVersionId → EventType → option Content) (redacted_because : string → string).
Definition redact pdu (room_version_id : RoomVersionId) (reason : string) : option (Pdu Content) :=
  content ← redact_content (content pdu) room_version_id (kind pdu);
  Some (mkPdu (event_id pdu) (room_id pdu) (sender pdu) (origin pdu) (origin_server_ts pdu) (kind pdu) content (state_key pdu)
    (prev_events pdu) (depth pdu) (auth_events pdu) (redacts pdu) (Some (redacted_because reason)) (hashes pdu) (signatures pdu)).

Hypothesis raw_round_trip : ∀ o, raw_object (raw_text o) = Some o.

(** A client sees the transaction id of its own events only, and the age of every event
    whose unsigned data can be read. *)
Lemma set_unsigned_spec now user_id pdu o :
  match unsigned pdu with None => Some ∅ | Some u => raw_object u end = Some o →
  ∃ o', unsigned (set_unsigned now user_id pdu) = Some (raw_text o')
    ∧ o' !! "age" = Some (integer_text (now - origin_server_ts pdu))
    ∧ (user_id = Some (sender pdu) → delete "age" o' = delete "age" o)
    ∧ (user_id ≠ Some (sender pdu) → delete "age" o' = delete "age" (delete "transaction_id" o)).
Proof.
  intros Ho. unfold set_unsigned. case_bool_decide as Hu.
  - assert (∃ p, default pdu (remove_transaction_id pdu) = p ∧ origin_server_ts p = origin_server_ts pdu
      ∧ match unsigned p with None => Some ∅ | Some u => raw_object u end = Some (delete "transaction_id" o)) as (p & -> & Hts & Hp).
    { eexists. split; [done|]. unfold remove_transaction_id. destruct (unsigned pdu) as [u|] eqn:Eu; cbn.
      - rewrite Ho. cbn. by rewrite raw_round_trip.
      - rewrite Eu. split; [done|]. injection Ho as <-. by rewrite delete_empty. }
    unfold add_age. rewrite Hp. cbn. eexists. split; [done|]. rewrite lookup_insert_eq, Hts. split; [done|]. split; [by intros ->|].
    intros _. by rewrite delete_insert_eq.
  - subst user_id. unfold add_age. rewrite Ho. cbn. eexists. split; [done|]. rewrite lookup_insert_eq.
    split; [done|]. split; [|done]. intros _. by rewrite delete_insert_eq.
Qed.
End unsigned.
