(* ===== verification/PduMetadata.v ===== *)
(** * What is kept about events beside the events

    Models [src/service/rooms/pdu_metadata/] ([data.rs], [mod.rs]): which events others relate
    to, which are referenced by later ones and which were soft failed.

    * Relations, references and soft failures: what the tables hold

    The relations of an event that are read are exactly those beyond a position; reading
    forwards from the first position finds none at all.  The recursion
    through relations of relations ends. *)

From S2P Require Import Prelude Bytes PduId DbMap DbSer DbScan DbWindow Short RoomVersion Event Unsigned.
From S2P Require Timeline.

Import Count.

Local Open Scope Z_scope.

Inductive MetadataError := NoSuchRoomOrEvent.

Section pdu_metadata.
Context {DB : Type} `{Store DB} {Content : Type} `{RawJson} (pdu_from_slice : bytes → option (Pdu Content)).

Record PduMetadata := mkPduMetadata {
  tofrom_relation : DB;
  referencedevents : DB;
  softfailedeventids : DB;
}.
Implicit Types (s : PduMetadata) (room_id event_id user_id : string) (tl : Timeline.Data DB).

(** ** [data.rs] *)

(** [&[u64]] as a key. *)
Definition relation_value (to from : Z) : Value := VSeq [VU64 to; VU64 from].
Definition data_add_relation s (from to : Z) : outcome MetadataError PduMetadata :=
  m ← aput_raw 16 (tofrom_relation s) (relation_value to from) [];
  Ok (mkPduMetadata m (referencedevents s) (softfailedeventids s)).

(** The counts of the events that relate to the one at [target], beyond [from]. *)
Definition beyond (from : Count) (dir : Direction) (count : Count) : Prop :=
  from = Count.min ∨ from = Count.max
  ∨ match dir with
    | Forward => into_unsigned from < into_unsigned count
    | Backward => into_unsigned count < into_unsigned from
    end.
#[export] Instance beyond_dec from dir count : Decision (beyond from dir count).
Proof. unfold beyond. destruct dir; apply _. Defined.
(** [u64_from_u8(&to_from[8..16])] *)
Definition read_from (to_from : bytes) : outcome MetadataError Count :=
  match u64_from_u8 (take 8 (drop 8 to_from)) with Ok n => Ok (from_unsigned n) | _ => Panic end.
Definition relation_counts s (target : Z) (from : Count) (dir : Direction) : outcome MetadataError (list Count) :=
  let current := u64_be target ++ u64_be (into_unsigned from) in
  let keys := (match dir with
               | Forward => raw_stream_from (tofrom_relation s) current
               | Backward => rev_raw_stream_from (tofrom_relation s) current
               end).*1 in
  let keys := take_while (λ key, starts_with key (u64_be target)) keys in
  match try_map read_from keys with Ok counts => Ok (filter (beyond from dir) counts) | Err e => Err e | Panic => Panic end.

(** [now] is the time of the answer; the user it is for sees his transaction ids. *)
Definition load_relations (now : Z) tl user_id (shortroomid : Z) (counts : list Count) : list (Count * Pdu Content) :=
  omap (λ shorteventid,
    match Timeline.get_pdu_from_id pdu_from_slice tl (raw_of_id (mkId shortroomid shorteventid)) with
    | Ok pdu => Some (shorteventid, set_unsigned now (Some user_id) pdu)
    | _ => None
    end) counts.
Definition data_get_relations (now : Z) s tl user_id (shortroomid target : Z) (from : Count) (dir : Direction)
    : outcome MetadataError (list (Count * Pdu Content)) :=
  load_relations now tl user_id shortroomid <$> relation_counts s target from dir.

Fixpoint mark_all (m : DB) room_id (event_ids : list string) : outcome MetadataError DB :=
  match event_ids with
  | [] => Ok m
  | prev :: event_ids => m ← put_raw m (pair_value room_id prev) []; mark_all m room_id event_ids
  end.
Definition mark_as_referenced s room_id (event_ids : list string) : outcome MetadataError PduMetadata :=
  m ← mark_all (referencedevents s) room_id event_ids; Ok (mkPduMetadata (tofrom_relation s) m (softfailedeventids s)).
Definition is_event_referenced s room_id event_id : outcome MetadataError bool :=
  r ← qry (referencedevents s) (pair_value room_id event_id); Ok (bool_decide (is_Some r)).

Definition mark_event_soft_failed s event_id : PduMetadata :=
  mkPduMetadata (tofrom_relation s) (referencedevents s) (map_insert (softfailedeventids s) (bytes_of_string event_id) []).
Definition is_event_soft_failed s event_id : bool :=
  bool_decide (is_Some (map_get (softfailedeventids s) (bytes_of_string event_id))).

(** ** [mod.rs] *)

Definition add_relation s (from to : Count) : outcome MetadataError PduMetadata :=
  match from, to with
  | Normal f, Normal t => data_add_relation s f t
  | _, _ => Ok s
  end.

(** The count relations are stored under: none are under zero. *)
Definition target_count (c : Count) : Z := match c with Normal c => c | Backfilled _ => 0 end.

Section walk.
Context (relations : Z → outcome MetadataError (list (Count * Pdu Content))) (limit : nat) (max_depth : Z).

(** Taking over the relations of one event until there are enough. *)
Fixpoint take_relations (level : Z) (found : list (Count * Pdu Content)) (stack : list (Count * Pdu Content * Z))
    (pdus : list (Count * Pdu Content)) : bool * list (Count * Pdu Content * Z) * list (Count * Pdu Content) :=
  match found with
  | [] => (false, stack, pdus)
  | relation :: found =>
      let stack := if bool_decide (level < max_depth) then (relation, saturate 0 255 (level + 1)) :: stack else stack in
      let pdus := pdus ++ [relation] in
      if bool_decide (limit ≤ length pdus)%nat then (true, stack, pdus) else take_relations level found stack pdus
  end.

(** The stack is popped from its end: here it is listed top first. *)
Fixpoint relation_walk (fuel : nat) (stack : list (Count * Pdu Content * Z)) (pdus : list (Count * Pdu Content))
    : option (outcome MetadataError (list (Count * Pdu Content))) :=
  match stack with
  | [] => Some (Ok pdus)
  | stack_pdu :: stack =>
      match fuel with
      | O => None
      | S fuel =>
          match relations (target_count stack_pdu.1.1) with
          | Ok found =>
              let '(enough, stack, pdus) := take_relations stack_pdu.2 found stack pdus in
              if (enough : bool) then Some (Ok pdus) else relation_walk fuel stack pdus
          | Err e => Some (Err e)
          | Panic => Some Panic
          end
      end
  end.
End walk.

Definition get_relations (fuel : nat) (now : Z) s (shorts : Short DB) tl user_id room_id (target : string) (from : Count)
    (limit : nat) (max_depth : Z) (dir : Direction) : option (outcome MetadataError (list (Count * Pdu Content))) :=
  match get_shortroomid shorts room_id, Timeline.get_pdu_count tl target with
  | Ok shortroomid, Ok target =>
      match data_get_relations now s tl user_id shortroomid (target_count target) from dir with
      | Ok pdus =>
          let stack := if bool_decide (0 < max_depth) then (λ pdu, (pdu, 1)) <$> pdus else [] in
          relation_walk (λ target, data_get_relations now s tl user_id shortroomid target from dir) limit max_depth
            fuel (reverse stack) pdus
      | Err e => Some (Err e)
      | Panic => Some Panic
      end
  | Panic, _ | _, Panic => Some Panic
  | _, _ => Some (Ok [])
  end.
End pdu_metadata.
Arguments PduMetadata : clear implicits.

Import Count.

Local Open Scope Z_scope.

Section relations.
Context {DB : Type} `{Store DB}.
Implicit Types (s : PduMetadata DB) (m : DB) (room_id event_id : string).

(** ** Relations *)

Definition relation_row (kv : KeyVal) : option (Z * Z * unit) :=
  to ← u64_from_bytes (take 8 kv.1); from ← u64_from_bytes (drop 8 kv.1); Some (to, from, tt).
Definition relation_key (to from : Z) : bytes := row_key u64_be to from.
Definition related m (to from : Z) : Prop := is_Some (map_get m (relation_key to from)).
(** Relations are between events of the timeline that were not backfilled. *)
Definition relations_wf m : Prop :=
  ∀ k v, map_get m k = Some v → ∃ to from, is_u64 to ∧ 0 < from < 2 ^ 63 ∧ k = relation_key to from.

Lemma relations_window m : relations_wf m → window_keys u64_be is_u64 m.
Proof. intros Hm k v Hk. destruct (Hm k v Hk) as (to & from & ? & ? & ->). exists to, from. split_and!; [done|int_solve|done]. Qed.
Lemma u64_be_split w w' (k k' : bytes) : is_u64 w → is_u64 w' → u64_be w ++ k = u64_be w' ++ k' → w = w' ∧ k = k'.
Proof.
  intros Hw Hw' E. apply app_inj_1 in E as [E ->]; [|by rewrite !length_u64_be]. split; [|done]. by apply u64_be_inj.
Qed.
Lemma split_relation to from : take 8 (relation_key to from) = u64_be to ∧ drop 8 (relation_key to from) = u64_be from.
Proof.
  unfold relation_key, row_key. assert (length (u64_be to) = 8%nat) as Hl by apply length_u64_be.
  split; [rewrite take_app_le by lia; by rewrite take_ge by lia|]. rewrite drop_app_ge by lia. by rewrite Hl, Nat.sub_diag, drop_0.
Qed.
Lemma read_relation to from v : is_u64 to → is_u64 from → relation_row (relation_key to from, v) = (λ x, (to, from, x)) <$> Some tt.
Proof.
  intros Ht Hf. unfold relation_row. cbn [fst]. destruct (split_relation to from) as [-> ->].
  rewrite !u64_from_be by done. done.
Qed.
Lemma read_from_relation to from : is_u64 from → read_from (relation_key to from) = Ok (from_unsigned from).
Proof.
  intros Hf. unfold read_from, u64_from_u8. destruct (split_relation to from) as [_ ->].
  rewrite take_ge by (by rewrite length_u64_be). by rewrite u64_from_be.
Qed.

Lemma relations_wf_empty : relations_wf store_empty.
Proof. intros k v. by rewrite map_get_empty. Qed.

Lemma data_add_relation_spec s from to s' :
  is_u64 to → 0 < from < 2 ^ 63 → relations_wf (tofrom_relation s) →
  data_add_relation s from to = Ok s' →
  relations_wf (tofrom_relation s')
  ∧ (∀ to' from', is_u64 to' → is_u64 from' →
       related (tofrom_relation s') to' from' ↔ (to' = to ∧ from' = from) ∨ related (tofrom_relation s) to' from').
Proof.
  intros Ht Hf Hwf. unfold data_add_relation, aput_raw, bput_raw, relation_value.
  assert (serialize (Some 16%nat) (VSeq [VU64 to; VU64 from]) = Ok (relation_key to from)) as Hs.
  { unfold serialize, relation_key, row_key. cbn [serialize_value ser_elements mbind outcome_bind]. unfold write. cbn [out sep capacity app].
    rewrite length_u64_be, bool_decide_eq_true_2 by lia. cbn [mbind outcome_bind out sep capacity app].
    rewrite length_app, !length_u64_be, bool_decide_eq_true_2 by lia. done. }
  rewrite Hs. cbn [must mbind outcome_bind]. intros [= <-]. cbn [tofrom_relation]. split.
  - intros k v. unfold map_get, map_insert. rewrite store_get_put. case_bool_decide as E; [|apply Hwf]. intros _. by exists to, from.
  - intros to' from' Ht' Hf'. unfold related, map_get, map_insert. rewrite store_get_put. case_bool_decide as E.
    + unfold relation_key in E. apply u64_be_split in E as [-> E]; [|done..]. apply u64_be_inj in E as ->; [|int_solve|done]. naive_solver.
    + split; [by right|]. intros [[-> ->]|?]; [|done]. by destruct E.
Qed.

(** The keys that are read, as rows. *)
Lemma try_map_relations m target (l : list KeyVal) :
  relations_wf m → is_u64 target → (∀ k v, (k, v) ∈ l → map_get m k = Some v) →
  try_map read_from (take_while (λ key, starts_with key (u64_be target)) l.*1)
  = Ok ((λ r : Z * Z * unit, from_unsigned r.1.2) <$> take_while (λ r : Z * Z * unit, r.1.1 = target) (omap relation_row l)).
Proof.
  intros Hm Ht. induction l as [|[k v] l IH]; intros Hl; [done|].
  destruct (Hm k v) as (to & from & Hto & Hfrom & ->); [apply Hl; by left|]. rewrite fmap_cons, omap_cons.
  rewrite read_relation by int_solve. cbn [fmap option_fmap option_map fst take_while].
  assert (starts_with (relation_key to from) (u64_be target) ↔ to = target) as Hst.
  { unfold starts_with. rewrite length_u64_be. destruct (split_relation to from) as [-> _]. split; [by apply u64_be_inj|congruence]. }
  destruct (decide (starts_with _ _)), (decide (to = target)); try tauto. cbn [try_map].
  rewrite read_from_relation by int_solve. cbn [mbind outcome_bind]. rewrite IH; [done|]. intros ???. apply Hl. by right.
Qed.

(** The relations of an event beyond a position, in the order of the reading. *)
Lemma into_unsigned_normal n : 0 < n < 2 ^ 63 → from_unsigned n = Normal n.
Proof. intros Hn. apply (from_unsigned_into_unsigned (Normal n)). cbn. lia. Qed.

Lemma relation_counts_elem s target from dir :
  relations_wf (tofrom_relation s) → is_u64 target → Count.valid from →
  ∃ l, relation_counts s target from dir = Ok l
    ∧ ∀ c, c ∈ l ↔ beyond from dir c ∧ ∃ n, c = Normal n ∧ 0 < n < 2 ^ 63 ∧ related (tofrom_relation s) target n
        ∧ match dir with Forward => into_unsigned from ≤ n | Backward => n ≤ into_unsigned from end.
Proof.
  intros Hm Ht Hv. assert (is_u64 (into_unsigned from)) as Hf by (destruct from; cbn in *; int_solve).
  pose proof (relations_window _ Hm) as Hw. unfold relation_counts. destruct dir; cbv zeta.
  - rewrite (try_map_relations (tofrom_relation s)); [|done..|].
    2:{ intros k v. unfold raw_stream_from. rewrite store_seek_spec, list_elem_of_filter, store_scan_spec. by intros [_ ?]. }
    eexists. split; [done|]. intros c. rewrite list_elem_of_filter, list_elem_of_fmap.
    destruct (window_forward u64_be is_u64 (λ _, Some tt) relation_row u64_be_split
      (λ w n v Hw' Hn, read_relation w n v Hw' Hn) (tofrom_relation s) target (into_unsigned from)
      (λ r : Z * Z * unit, r.1.1 = target) None Hw Ht Hf) as [_ Hin]; [intros r; cbn; tauto|].
    split; intros [Hb Hc]; (split; [done|]).
    + destruct Hc as ([[w n] []] & -> & (-> & Hn & Hle & _ & v & Hg & _)%Hin). cbn [fst snd].
      destruct (Hm _ _ Hg) as (to' & from' & ? & ? & E). apply u64_be_split in E as [<- E]; [|done..].
      apply u64_be_inj in E as <-; [|int_solve..]. exists n. rewrite into_unsigned_normal by done. split_and!; try done; try lia. by exists v.
    + destruct Hc as (n & -> & Hn & [v Hg] & Hle). exists (target, n, tt). cbn [fst snd]. rewrite into_unsigned_normal by done. split; [done|].
      apply Hin. split_and!; try done; try int_solve. by exists v.
  - rewrite (try_map_relations (tofrom_relation s)); [|done..|].
    2:{ intros k v. unfold rev_raw_stream_from. rewrite store_seek_for_prev_spec, elem_of_reverse, list_elem_of_filter, store_scan_spec.
        by intros [_ ?]. }
    eexists. split; [done|]. intros c. rewrite list_elem_of_filter, list_elem_of_fmap.
    pose proof (window_backward u64_be is_u64 (λ _, Some tt) relation_row u64_be_split
      (λ w n v Hw' Hn, read_relation w n v Hw' Hn) (tofrom_relation s) target (into_unsigned from)
      (λ r : Z * Z * unit, r.1.1 = target) Hw Ht Hf) as Hin. cbv zeta in Hin. specialize (Hin ltac:(done)).
    split; intros [Hb Hc]; (split; [done|]).
    + destruct Hc as ([[w n] []] & -> & (-> & Hn & Hle & v & Hg & _)%Hin). cbn [fst snd].
      destruct (Hm _ _ Hg) as (to' & from' & ? & ? & E). apply u64_be_split in E as [<- E]; [|done..].
      apply u64_be_inj in E as <-; [|int_solve..]. exists n. rewrite into_unsigned_normal by done. split_and!; try done; try lia. by exists v.
    + destruct Hc as (n & -> & Hn & [v Hg] & Hle). exists (target, n, tt). cbn [fst snd]. rewrite into_unsigned_normal by done. split; [done|].
      apply Hin. split_and!; try done; try int_solve. by exists v.
Qed.

(** Backwards from the last position all relations are read, forwards from the first one none:
    the first position comes after every other one in the byte order of the keys. *)
Lemma all_relations_backward s target :
  relations_wf (tofrom_relation s) → is_u64 target →
  ∃ l, relation_counts s target Count.max Backward = Ok l
    ∧ ∀ c, c ∈ l ↔ ∃ n, c = Normal n ∧ 0 < n < 2 ^ 63 ∧ related (tofrom_relation s) target n.
Proof.
  intros Hm Ht. destruct (relation_counts_elem s target Count.max Backward) as (l & E & Hl); [done..|].
  exists l. split; [done|]. intros c. rewrite Hl. split.
  - intros (_ & n & ? & ? & ? & _). eauto.
  - intros (n & -> & Hn & Hr). split; [by right; left|]. exists n. assert (into_unsigned Count.max = 2 ^ 63 - 1) as -> by done. split_and!; (done || lia).
Qed.
(** C26: reading the relations of an event forwards from the start of the timeline finds none:
    every stored count is below the start, whose count is the largest as an unsigned number. *)
Theorem forward_from_start_empty s target :
  relations_wf (tofrom_relation s) → is_u64 target → relation_counts s target Count.min Forward = Ok [].
Proof.
  intros Hm Ht. destruct (relation_counts_elem s target Count.min Forward) as (l & E & Hl); [done..|].
  rewrite E. destruct l as [|c l]; [done|]. exfalso.
  destruct (Hl c) as [(_ & n & _ & Hn & _ & Hle) _]; [by left|].
  assert (into_unsigned Count.min = 2 ^ 63) as E' by done. rewrite E' in Hle. lia.
Qed.

(** ** References and soft failures *)

Lemma mark_all_spec m room_id event_ids :
  utf8 room_id → pair_keys m → Forall utf8 event_ids →
  ∃ m', mark_all m room_id event_ids = Ok m' ∧ pair_keys m'
    ∧ ∀ r e, utf8 r → has_pair m' r e ↔ (r = room_id ∧ e ∈ event_ids) ∨ has_pair m r e.
Proof.
  intros Hr. revert m. induction event_ids as [|prev ids IH]; intros m Hm Hids; cbn [mark_all].
  { exists m. split_and!; [done..|]. intros r e _. split; [by right|]. intros [[_ ?%elem_of_nil]|?]; done. }
  apply Forall_cons in Hids as [Hp Hids]. unfold put_raw, bput_raw. rewrite serialize_pair. cbn [must mbind outcome_bind].
  destruct (IH (map_insert m (pair_key room_id prev) [])) as (m' & E & Hk & Hm'); [by apply pair_keys_insert|done|].
  exists m'. split_and!; [done..|]. intros r e Hr'. rewrite Hm', has_pair_insert, elem_of_cons by done. naive_solver.
Qed.
Lemma is_event_referenced_iff s room_id event_id :
  is_event_referenced s room_id event_id = Ok (bool_decide (has_pair (referencedevents s) room_id event_id)).
Proof. unfold is_event_referenced, qry, bqry. by rewrite serialize_pair. Qed.

(** Marking events as referenced adds exactly them, in that room only. *)
Lemma mark_as_referenced_spec s room_id event_ids :
  utf8 room_id → pair_keys (referencedevents s) → Forall utf8 event_ids →
  ∃ s', mark_as_referenced s room_id event_ids = Ok s' ∧ pair_keys (referencedevents s')
    ∧ tofrom_relation s' = tofrom_relation s ∧ softfailedeventids s' = softfailedeventids s
    ∧ ∀ r e, utf8 r → has_pair (referencedevents s') r e ↔ (r = room_id ∧ e ∈ event_ids) ∨ has_pair (referencedevents s) r e.
Proof.
  intros Hr Hm Hids. destruct (mark_all_spec _ _ _ Hr Hm Hids) as (m' & E & Hk & Hm').
  unfold mark_as_referenced. rewrite E. eexists. split; [done|]. by split_and!.
Qed.

Lemma soft_failed_spec s event_id event_id' :
  is_event_soft_failed (mark_event_soft_failed s event_id) event_id' = bool_decide (event_id' = event_id) || is_event_soft_failed s event_id'.
Proof.
  unfold is_event_soft_failed, mark_event_soft_failed, map_get, map_insert. cbn [softfailedeventids]. rewrite store_get_put.
  destruct (bool_decide_reflect (bytes_of_string event_id = bytes_of_string event_id')) as [E%bytes_of_string_inj|Hne].
  - subst. rewrite (bool_decide_eq_true_2 (event_id' = event_id')) by done. by rewrite bool_decide_eq_true_2 by by eexists.
  - rewrite (bool_decide_eq_false_2 (event_id' = event_id)) by congruence. done.
Qed.

(** ** Relations of relations *)

Section walk_ends.
Context {Content : Type} (relations : Z → outcome MetadataError (list (Count * Pdu Content))) (limit : nat) (max_depth : Z).

Lemma take_relations_measure level (found pdus pdus' : list (Count * Pdu Content)) (stack stack' : list (Count * Pdu Content * Z)) enough :
  take_relations limit max_depth level found stack pdus = (enough, stack', pdus') →
  (enough = false → length stack' + (limit - length pdus') ≤ length stack + (limit - length pdus))%nat
  ∧ (length pdus' ≤ Nat.max limit (length pdus + 1))%nat ∧ (length pdus ≤ length pdus')%nat.
Proof.
  revert stack pdus. induction found as [|r found IH]; intros stack pdus; cbn [take_relations].
  { intros [= <- <- <-]. split_and!; [done|lia|lia]. }
  case_bool_decide as Hl; rewrite length_app in Hl; cbn in Hl.
  { intros [= <- <- <-]. rewrite length_app. cbn. split_and!; [done|lia|lia]. }
  intros (He & Hlen & Hge)%IH. rewrite length_app in *. cbn in *. split_and!; [|lia|lia].
  intros Hf. specialize (He Hf). case_bool_decide; cbn in *; lia.
Qed.

Lemma relation_walk_ends fuel stack pdus :
  (length stack + (limit - length pdus) ≤ fuel)%nat → relation_walk relations limit max_depth fuel stack pdus ≠ None.
Proof.
  revert stack pdus. induction fuel as [|fuel IH]; intros [|x stack] pdus; cbn [relation_walk]; try done; cbn; [lia|].
  intros Hf. destruct (relations _) as [found|e|]; [|done..].
  destruct (take_relations limit max_depth x.2 found stack pdus) as [[enough stack'] pdus'] eqn:E. destruct enough; [done|].
  apply take_relations_measure in E as (He & _ & _). apply IH. specialize (He eq_refl). lia.
Qed.

(** The limit is respected but for the direct relations, of which all are kept. *)
Lemma relation_walk_limit fuel stack pdus l :
  relation_walk relations limit max_depth fuel stack pdus = Some (Ok l) → (length l ≤ Nat.max limit (length pdus + 1))%nat.
Proof.
  revert stack pdus. induction fuel as [|fuel IH]; intros [|x stack] pdus; cbn [relation_walk].
  1,3: intros [= <-]; lia. { done. }
  destruct (relations _) as [found|e|]; [|done..].
  destruct (take_relations limit max_depth x.2 found stack pdus) as [[enough stack'] pdus'] eqn:E.
  pose proof (take_relations_measure _ _ _ _ _ _ _ E) as (_ & Hlen & Hge). destruct enough; [by intros [= <-]|].
  destruct (decide (length pdus' < limit)%nat) as [Hlt|Hge'].
  - intros Hl%IH. lia.
  - destruct (decide (limit ≤ length pdus)%nat); [|].
    + destruct found as [|r found]; cbn [take_relations] in E; [injection E as <- <-; apply IH|].
      rewrite bool_decide_eq_true_2 in E by (rewrite length_app; lia). done.
    + intros Hl. exfalso. clear IH Hl. revert stack pdus E Hlen Hge n. induction found as [|r found IHf]; intros stack pdus; cbn [take_relations].
      { intros [= <- <-] _ _ Hn. lia. }
      case_bool_decide as Hb; [done|]. rewrite length_app in Hb. cbn in Hb. intros E _ _ Hn.
      pose proof (take_relations_measure _ _ _ _ _ _ _ E) as (_ & Hlen & Hge). eapply IHf; [exact E|done|done|]. rewrite length_app. cbn. lia.
Qed.
End walk_ends.

Theorem get_relations_ends {Content} `{RawJson} (pdu_from_slice : bytes → option (Pdu Content)) now s shorts tl user_id room_id target from limit max_depth dir :
  ∃ bound, ∀ fuel, (bound ≤ fuel)%nat →
    get_relations pdu_from_slice fuel now s shorts tl user_id room_id target from limit max_depth dir ≠ None.
Proof.
  unfold get_relations. destruct (get_shortroomid shorts room_id) as [short|e|]; [| |by exists 0%nat];
    (destruct (Timeline.get_pdu_count tl target) as [count|e'|]; [|by exists 0%nat..]); [|by exists 0%nat].
  destruct (data_get_relations _ _ _ _ _ _ _ _ _) as [pdus|e|]; [|by exists 0%nat..].
  exists (length pdus + limit)%nat. intros fuel Hf. apply relation_walk_ends. rewrite length_reverse.
  case_bool_decide; [rewrite length_fmap|cbn]; lia.
Qed.
End relations.

(** ** Concrete tables *)

Module MetadataDemo.
Definition empty : PduMetadata (gmap bytes bytes) := mkPduMetadata ∅ ∅ ∅.
(** The events at 7 and 9 relate to the one at 5. *)
Definition relations : PduMetadata (gmap bytes bytes) :=
  match (s ← add_relation empty (Normal 7) (Normal 5); add_relation s (Normal 9) (Normal 5)) with Ok s => s | _ => empty end.
Lemma relations_are_wf : relations_wf (tofrom_relation relations).
Proof.
  assert (data_add_relation empty 7 5 = Ok (mkPduMetadata {[relation_key 5 7 := []]} ∅ ∅)) as E1 by (vm_compute; reflexivity).
  assert (relations_wf (tofrom_relation empty)) as H0 by (intros k v Hk; by vm_compute in Hk).
  destruct (data_add_relation_spec empty 7 5 _ ltac:(int_solve) ltac:(int_solve) H0 E1) as [H1 _].
  assert (data_add_relation (mkPduMetadata {[relation_key 5 7 := []]} ∅ ∅) 9 5 = Ok relations) as E2 by (vm_compute; reflexivity).
  by destruct (data_add_relation_spec _ 9 5 _ ltac:(int_solve) ltac:(int_solve) H1 E2) as [H2 _].
Qed.
Example backward_relations : relation_counts relations 5 Count.max Backward = Ok [Normal 9; Normal 7].
Proof. by vm_compute. Qed.
Example forward_relations : relation_counts relations 5 (Normal 7) Forward = Ok [Normal 9].
Proof. by vm_compute. Qed.
Lemma forward_from_start_empty_witness :
  relation_counts relations 5 Count.min Forward = Ok [] ∧ relation_counts relations 5 Count.max Backward = Ok [Normal 9; Normal 7].
Proof. split; [apply (forward_from_start_empty relations 5 relations_are_wf); int_solve|by vm_compute]. Defined.
End MetadataDemo.
