(* ===== verification/RoomUser.v ===== *)
(** * Unread counts

    Models [src/service/rooms/user/mod.rs]: the unread counts of a user in a room, whose
    tables the timeline increments ([increment_notification_counts] of
    [src/service/rooms/timeline/data.rs]), and the room state a sync token stands for.

    The table of the last reads is opened under the name of the table of highlight counts, so
    it is that table. *)

From S2P Require Import Prelude Bytes DbMap DbSer DbScan Short ShortProps.
From S2P Require Timeline.
Import Timeline (userroomid_highlightcount, userroomid_notificationcount, increment_notification_counts, increment_key, userroom_key).

Local Open Scope Z_scope.

Inductive UnreadError := UnreadRead (e : ShortError).

Section room_user.
Context {DB : Type} `{Store DB}.
Implicit Types (d : Timeline.Data DB) (user_id room_id : string).

Definition with_counts d (highlight notification : DB) : Timeline.Data DB :=
  Timeline.mkData (Timeline.eventid_outlierpdu d) (Timeline.eventid_pduid d) (Timeline.pduid_pdu d) highlight notification.

Definition reset_notification_counts d (g : Globals DB) user_id room_id : outcome UnreadError (Timeline.Data DB * Globals DB) :=
  highlight ← bput (userroomid_highlightcount d) (pair_value user_id room_id) (VU64 0) (None, None);
  notification ← bput (userroomid_notificationcount d) (pair_value user_id room_id) (VU64 0) (None, None);
  let '(count, g) := next_count g in
  highlight ← bput highlight (pair_value room_id user_id) (VU64 count) (None, None);
  Ok (with_counts d highlight notification, g).

Definition read_count (m : DB) (a b : string) : outcome UnreadError Z :=
  r ← qry m (pair_value a b);
  match deserialized_u64 r with Ok n => Ok n | Err _ => Ok 0 | Panic => Panic end.
Definition notification_count d user_id room_id := read_count (userroomid_notificationcount d) user_id room_id.
Definition highlight_count d user_id room_id := read_count (userroomid_highlightcount d) user_id room_id.
Definition last_notification_read d user_id room_id := read_count (userroomid_highlightcount d) room_id user_id.

(** *** The states of sync tokens *)

Definition token_key (shortroomid token : Z) : Value := VSeq [VU64 shortroomid; VU64 token].
Definition associate_token_shortstatehash (roomsynctoken_shortstatehash : DB) (s : Short DB) room_id (token shortstatehash : Z)
    : outcome UnreadError DB :=
  shortroomid ← must (get_shortroomid s room_id);
  bput roomsynctoken_shortstatehash (token_key shortroomid token) (VU64 shortstatehash) (None, None).
Definition get_token_shortstatehash (roomsynctoken_shortstatehash : DB) (s : Short DB) room_id (token : Z) : outcome UnreadError Z :=
  match get_shortroomid s room_id with
  | Ok shortroomid =>
      r ← qry roomsynctoken_shortstatehash (token_key shortroomid token);
      match deserialized_u64 r with Ok n => Ok n | Err e => Err (UnreadRead e) | Panic => Panic end
  | Err e => Err (UnreadRead e)
  | Panic => Panic
  end.

(** ** Theorems *)

Lemma userroom_pair user room : userroom_key user room = pair_key user room.
Proof. done. Qed.
Lemma bput_pair_u64 {E} (m : DB) a b n :
  bput (E := E) m (pair_value a b) (VU64 n) (None, None) = Ok (map_insert m (pair_key a b) (u64_be n)).
Proof. unfold bput, bput_raw. cbn [fst snd]. by rewrite serialize_u64_vec, serialize_pair. Qed.
Lemma read_count_get m a b :
  read_count m a b = match deserialized_u64 (map_get m (pair_key a b)) with Ok n => Ok n | Err _ => Ok 0 | Panic => Panic end.
Proof. unfold read_count, qry, bqry. by rewrite serialize_pair. Qed.

(** A table of counts: each row reads as a number. *)
Definition count_at m (k : bytes) : option Z := map_get m k ≫= u64_from_bytes.
Definition counts_wf m : Prop := ∀ k v, map_get m k = Some v → is_Some (u64_from_bytes v).
Lemma read_count_at m a b : counts_wf m → read_count m a b = Ok (default 0 (count_at m (pair_key a b))).
Proof.
  intros Hm. rewrite read_count_get. unfold count_at. destruct (map_get m (pair_key a b)) as [v|] eqn:Ev; [|done].
  destruct (Hm _ _ Ev) as [n Hn]. pose proof Hn as [-> Hu]%u64_from_bytes_Some. rewrite deserialized_u64_be by done.
  cbn [mbind option_bind]. by rewrite Hn.
Qed.

Lemma counts_wf_insert m k n : is_u64 n → counts_wf m → counts_wf (map_insert m k (u64_be n)).
Proof.
  intros Hn Hm k' v. unfold map_get, map_insert. rewrite store_get_put. case_bool_decide; [|apply Hm].
  intros [= <-]. rewrite u64_from_be by done. by eexists.
Qed.
Lemma count_at_insert m k n k' : is_u64 n → count_at (map_insert m k (u64_be n)) k' = if bool_decide (k = k') then Some n else count_at m k'.
Proof.
  intros Hn. unfold count_at, map_get, map_insert. rewrite store_get_put. case_bool_decide; [|done].
  cbn [mbind option_bind]. by rewrite u64_from_be.
Qed.
Lemma is_u64_wrap z : is_u64 (as_u64 z).
Proof. unfold is_u64, as_u64. apply Z.mod_pos_bound. lia. Qed.
Lemma increment_key_spec m k : counts_wf m →
  counts_wf (increment_key m k) ∧ ∀ k', count_at (increment_key m k) k' =
    if bool_decide (k = k') then Some (as_u64 (default 0 (count_at m k) + 1)) else count_at m k'.
Proof.
  intros Hm. assert (increment_key m k = map_insert m k (u64_be (as_u64 (default 0 (count_at m k) + 1)))) as ->.
  { unfold increment_key, increment, count_at. do 4 f_equal. destruct (map_get m k) as [v|] eqn:Ev; [|done].
    destruct (Hm _ _ Ev) as [n Hn]. unfold u64_from_bytes_or_zero. cbn [mbind option_bind from_option]. by rewrite Hn. }
  split; [apply counts_wf_insert; [apply is_u64_wrap|done]|]. intros k'. apply count_at_insert, is_u64_wrap.
Qed.

(** Incrementing for a list of users adds the times a user is listed, in that room only. *)
Lemma increment_users_spec m (users : list string) room :
  utf8 room → Forall utf8 users → counts_wf m →
  let m' := foldl (λ m user, increment_key m (userroom_key user room)) m users in
  counts_wf m' ∧ ∀ u r, utf8 u → utf8 r →
    0 ≤ default 0 (count_at m (pair_key u r)) → default 0 (count_at m (pair_key u r)) + Z.of_nat (length users) < 2 ^ 64 →
    default 0 (count_at m' (pair_key u r))
    = default 0 (count_at m (pair_key u r)) + (if bool_decide (r = room) then Z.of_nat (multiplicity u users) else 0).
Proof.
  intros Hroom. revert m. induction users as [|x users IH]; intros m Hus Hm; cbn [foldl].
  { split; [done|]. intros u r _ _ ? ?. case_bool_decide; cbn; lia. }
  apply Forall_cons in Hus as [Hx Hus]. destruct (increment_key_spec m (userroom_key x room) Hm) as [Hm1 Hat].
  destruct (IH (increment_key m (userroom_key x room)) Hus Hm1) as [Hm' Hc]. split; [done|]. intros u r Hu Hr Hge Hlt.
  cbn [length] in Hlt. specialize (Hc u r Hu Hr). rewrite Hat, userroom_pair in Hc.
  assert (pair_key x room = pair_key u r ↔ x = u ∧ room = r) as Hk by (split; [by apply pair_key_inj|by intros [-> ->]]).
  rewrite (bool_decide_ext _ _ Hk) in Hc.
  destruct (bool_decide_reflect (x = u ∧ room = r)) as [[-> ->]|Hne].
  - cbn [from_option] in Hc.
    assert (as_u64 (default 0 (count_at m (pair_key u r)) + 1) = default 0 (count_at m (pair_key u r)) + 1) as E
      by (unfold as_u64; apply Z.mod_small; lia).
    unfold id in *. rewrite E in Hc. etrans; [apply Hc; lia|].
    rewrite !bool_decide_eq_true_2 by done. unfold multiplicity. rewrite filter_cons_True by done. cbn [length]. lia.
  - etrans; [apply Hc; lia|]. case_bool_decide as Hrr; [|done]. unfold multiplicity. rewrite filter_cons_False; [done|].
    intros E. by apply Hne; subst.
Qed.

(** ** The unread counts of users

    Resetting makes the counts of the user in the room zero and records the read under a
    fresh count; an event that notifies some users and highlights for some adds one to the
    counts of these in its room.  Nothing else is changed. *)
Definition unread_wf d : Prop := counts_wf (userroomid_highlightcount d) ∧ counts_wf (userroomid_notificationcount d).

Theorem reset_notification_counts_spec d g user room :
  utf8 user → utf8 room → room ≠ user → is_u64 (counter g) → unread_wf d →
  ∃ d' g', reset_notification_counts d g user room = Ok (d', g') ∧ unread_wf d'
    ∧ notification_count d' user room = Ok 0 ∧ highlight_count d' user room = Ok 0
    ∧ last_notification_read d' user room = Ok (counter g')
    ∧ ∀ u r, utf8 u → utf8 r → (u, r) ≠ (user, room) → (u, r) ≠ (room, user) →
        notification_count d' u r = notification_count d u r ∧ highlight_count d' u r = highlight_count d u r.
Proof.
  intros Hu Hr Hne Hg [Hh Hn]. unfold reset_notification_counts. rewrite !bput_pair_u64. cbn [mbind outcome_bind].
  destruct (next_count g) as [count g'] eqn:Eg. rewrite bput_pair_u64. cbn [mbind outcome_bind].
  assert (count = counter g' ∧ is_u64 count) as [-> Hc].
  { unfold next_count in Eg. injection Eg as <- <-. cbn [counter]. split; [done|]. unfold u64_checked, checked, in_range, u64_max.
    unfold is_u64 in *. case_bool_decide; cbn; [unfold u64_max in *; lia|done]. }
  assert (is_u64 0) as H0 by int_solve. eexists _, g'. split; [done|].
  assert (counts_wf (map_insert (map_insert (userroomid_highlightcount d) (pair_key user room) (u64_be 0)) (pair_key room user)
    (u64_be (counter g')))) as Hh' by (by repeat apply counts_wf_insert).
  assert (counts_wf (map_insert (userroomid_notificationcount d) (pair_key user room) (u64_be 0))) as Hn' by (by apply counts_wf_insert).
  split; [split; done|]. unfold notification_count, highlight_count, last_notification_read, with_counts.
  cbn [userroomid_highlightcount userroomid_notificationcount]. split_and!.
  - rewrite read_count_at by done. rewrite count_at_insert by done. by rewrite bool_decide_eq_true_2.
  - rewrite read_count_at by done. rewrite !count_at_insert by done. rewrite bool_decide_eq_false_2.
    + by rewrite bool_decide_eq_true_2.
    + intros E. apply pair_key_inj in E as [E _]; done.
  - rewrite read_count_at by done. rewrite count_at_insert by done. by rewrite bool_decide_eq_true_2.
  - intros u r Hu' Hr' Hne1 Hne2. rewrite !read_count_at by done. rewrite !count_at_insert by done.
    rewrite (bool_decide_eq_false_2 (pair_key user room = pair_key u r)), (bool_decide_eq_false_2 (pair_key room user = pair_key u r)); [done|..];
      intros E; apply pair_key_inj in E as [-> ->]; done.
Qed.

Theorem notification_counts_add d room notifies highlights :
  utf8 room → Forall utf8 notifies → Forall utf8 highlights → unread_wf d →
  let d' := increment_notification_counts d room notifies highlights in
  unread_wf d' ∧ ∀ u r n h, utf8 u → utf8 r → notification_count d u r = Ok n → highlight_count d u r = Ok h →
    n + Z.of_nat (length notifies) < 2 ^ 64 → h + Z.of_nat (length highlights) < 2 ^ 64 →
    notification_count d' u r = Ok (n + if bool_decide (r = room) then Z.of_nat (multiplicity u notifies) else 0)
    ∧ highlight_count d' u r = Ok (h + if bool_decide (r = room) then Z.of_nat (multiplicity u highlights) else 0).
Proof.
  intros Hr Hn Hh [Hwh Hwn] d'. destruct (increment_users_spec _ _ _ Hr Hn Hwn) as [Hwn' En].
  destruct (increment_users_spec _ _ _ Hr Hh Hwh) as [Hwh' Eh]. cbv zeta in *.
  split; [by split|]. intros u r n h Hu Hr' Hcn Hch Hln Hlh.
  unfold notification_count, highlight_count in *. rewrite read_count_at in Hcn, Hch by done. injection Hcn as <-. injection Hch as <-.
  assert (∀ m, counts_wf m → 0 ≤ default 0 (count_at m (pair_key u r))) as Hpos.
  { intros m Hm. unfold count_at. destruct (map_get m _) as [v|] eqn:Ev; [|done]. cbn [mbind option_bind].
    destruct (Hm _ _ Ev) as [z Hz]. rewrite Hz. apply u64_from_bytes_Some in Hz as [_ Hz]. cbn. unfold id, is_u64 in *. lia. }
  unfold d', increment_notification_counts. cbn [userroomid_highlightcount userroomid_notificationcount].
  rewrite !read_count_at by done. rewrite En, Eh by auto. done.
Qed.
End room_user.

(** ** Concrete tables *)

Module UnreadDemo.
Definition start : Timeline.Data (gmap bytes bytes) := Timeline.mkData ∅ ∅ ∅ ∅ ∅.
Lemma start_wf : unread_wf start.
Proof. split; intros k v Hk; by vm_compute in Hk. Qed.
Definition notified := increment_notification_counts start "!r" ["@a:s"; "@b:s"] ["@b:s"].
Lemma notification_counts_add_witness :
  unread_wf notified ∧ notification_count notified "@b:s" "!r" = Ok 1 ∧ highlight_count notified "@a:s" "!r" = Ok 0
  ∧ notification_count notified "@b:s" "!other" = Ok 0.
Proof.
  destruct (notification_counts_add start "!r" ["@a:s"; "@b:s"] ["@b:s"] eq_refl
    ltac:(repeat constructor) ltac:(repeat constructor) start_wf) as [Hwf Hc].
  split; [exact Hwf|]. unfold notified. split_and!.
  - by destruct (Hc "@b:s" "!r" 0 0) as [-> _]; vm_compute.
  - by destruct (Hc "@a:s" "!r" 0 0) as [_ ->]; vm_compute.
  - by destruct (Hc "@b:s" "!other" 0 0) as [-> _]; vm_compute.
Defined.
Lemma reset_notification_counts_spec_witness :
  ∃ d g, reset_notification_counts notified (mkGlobals (∅ : gmap bytes bytes) 4) "@b:s" "!r" = Ok (d, g)
    ∧ notification_count d "@b:s" "!r" = Ok 0 ∧ last_notification_read d "@b:s" "!r" = Ok (counter g).
Proof.
  destruct notification_counts_add_witness as [Hwf _].
  destruct (reset_notification_counts_spec notified (mkGlobals (∅ : gmap bytes bytes) 4) "@b:s" "!r" eq_refl eq_refl
    ltac:(done) ltac:(cbn; int_solve) Hwf) as (d & g & E & _ & Hn & _ & Hl & _).
  exists d, g. split_and!; [exact E|exact Hn|exact Hl].
Defined.
End UnreadDemo.
