(* ===== verification/Search.v ===== *)
(** * Searching the messages of a room

    Models [src/service/rooms/search/mod.rs] and [intersection] of [src/core/utils/set.rs]: the
    inverted index from words to the positions of messages, and the search for the messages
    that have all words of a query.

    Texts are lists of characters; what Unicode says about characters, and UTF-8, are the
    class [Unicode].

    * What the search promises

    Indexing a message adds its position under each of its words, taking it out removes just
    that, and a search lists exactly the positions indexed under every word of the query.  A
    word that becomes too long when its letters are made lower case makes the search panic. *)

From S2P Require Import Prelude Bytes PduId DbMap DbSer DbScan Short.

Import Count.

Local Open Scope Z_scope.

(** [char::is_alphanumeric], [str::to_lowercase] and [str::as_bytes]. *)
Class Unicode (Char : Type) := {
  is_alphanumeric : Char → bool;
  to_lowercase : list Char → list Char;
  utf8_bytes : list Char → bytes;
}.
Class UnicodeLaws (Char : Type) `{Unicode Char} : Prop := {
  utf8_bytes_inj : ∀ a b, utf8_bytes a = utf8_bytes b → a = b;
  utf8_bytes_no_sep : ∀ a, SEP ∉ utf8_bytes a;
}.

#[export] Instance RawId_eq_dec : EqDecision RawId.
Proof. solve_decision. Defined.

Inductive SearchError := SearchRoom (e : ShortError).

Section search.
Context {DB : Type} `{Store DB} {Char : Type} `{Unicode Char}.
Implicit Types (tokenids : DB) (word body : list Char) (pdu_id : RawId).

(** ** Words *)

(** [split_terminator]: the pieces between the characters that satisfy the predicate; an
    empty last piece is left out. *)
Fixpoint pieces (p : Char → bool) (piece : list Char) (l : list Char) : list (list Char) :=
  match l with
  | [] => [reverse piece]
  | c :: l => if p c then reverse piece :: pieces p [] l else pieces p (c :: piece) l
  end.
Definition split_terminator (p : Char → bool) (l : list Char) : list (list Char) :=
  match last (pieces p [] l) with
  | Some [] => removelast (pieces p [] l)
  | _ => pieces p [] l
  end.

Definition WORD_MAX_LEN : nat := 50.
Definition RAW_ID_SIZE : nat := 25.
Definition TOKEN_ID_MAX_LEN : nat := 8 + WORD_MAX_LEN + 1 + RAW_ID_SIZE.

Definition tokenize body : list (list Char) :=
  to_lowercase <$> filter (λ word, (length (utf8_bytes word) ≤ WORD_MAX_LEN)%nat)
    (filter (λ s, s ≠ []) (split_terminator (λ c, negb (is_alphanumeric c)) body)).

(** ** Keys *)

(** [ArrayVec::extend_from_slice] of [src/core/utils/arrayvec.rs]: a token id has a fixed capacity. *)
Definition extend_from_slice {E} (capacity : nat) (key other : bytes) : outcome E bytes :=
  if bool_decide (length key + length other ≤ capacity)%nat then Ok (key ++ other) else Panic.
Definition make_prefix {E} (shortroomid : Z) word : outcome E bytes :=
  key ← extend_from_slice TOKEN_ID_MAX_LEN [] (u64_be shortroomid);
  key ← extend_from_slice TOKEN_ID_MAX_LEN key (utf8_bytes word);
  extend_from_slice TOKEN_ID_MAX_LEN key [SEP].
Definition make_tokenid {E} (shortroomid : Z) word pdu_id : outcome E bytes :=
  key ← make_prefix shortroomid word; extend_from_slice TOKEN_ID_MAX_LEN key (as_bytes pdu_id).
Definition prefix_len word : nat := 8 + length (utf8_bytes word) + 1.

(** The keys that are written have no limit. *)
Definition index_key (shortroomid : Z) word pdu_id : bytes := u64_be shortroomid ++ utf8_bytes word ++ SEP :: as_bytes pdu_id.

(** ** The index *)

Definition index_pdu tokenids (shortroomid : Z) pdu_id (message_body : list Char) : DB :=
  insert_batch tokenids ((λ word, (index_key shortroomid word pdu_id, [])) <$> tokenize message_body).
Definition deindex_pdu tokenids (shortroomid : Z) pdu_id (message_body : list Char) : DB :=
  foldl map_remove tokenids ((λ word, index_key shortroomid word pdu_id) <$> tokenize message_body).

(** ** Queries *)

Definition search_pdu_ids_query_word {E} tokenids (shortroomid : Z) word : outcome E (list bytes) :=
  let end_id := raw_of_id (mkId shortroomid Count.max) in
  end_key ← make_tokenid shortroomid word end_id;
  prefix ← make_prefix shortroomid word;
  Ok (take_while (λ key, starts_with key prefix) (rev_raw_stream_from tokenids end_key).*1).
Definition search_pdu_ids_query_words {E} tokenids (shortroomid : Z) word : outcome E (list RawId) :=
  keys ← search_pdu_ids_query_word tokenids shortroomid word;
  try_map (λ key : bytes, must (raw_of_slice (drop (prefix_len word) key))) keys.
Definition search_pdu_ids_query_room {E} tokenids (shortroomid : Z) (search_term : list Char) : outcome E (list (list RawId)) :=
  try_map (search_pdu_ids_query_words tokenids shortroomid) (tokenize search_term).

Definition intersection {A} `{EqDecision A} (input : list (list A)) : list A :=
  match input with
  | [] => []
  | first :: input => filter (λ targ, Forall (λ other, targ ∈ other) input) first
  end.

Definition search_pdu_ids tokenids (s : Short DB) room_id (search_term : list Char) : outcome SearchError (list RawId) :=
  match get_shortroomid s room_id with
  | Ok shortroomid =>
      pdu_ids ← search_pdu_ids_query_room tokenids shortroomid search_term; Ok (intersection pdu_ids)
  | Err e => Err (SearchRoom e)
  | Panic => Panic
  end.
End search.

Import Count.

Local Open Scope Z_scope.

Section search.
Context {DB : Type} `{Store DB} {Char : Type} `{UnicodeLaws Char}.
Implicit Types (t : DB) (w word body : list Char) (sid : Z) (c : Count).

Definition position sid c : RawId := raw_of_id (mkId sid c).
Definition entry sid w c : bytes := index_key sid w (position sid c).
Definition indexed t sid w c : Prop := is_Some (map_get t (entry sid w c)).
Definition index_wf t : Prop := ∀ k v, map_get t k = Some v → ∃ sid w c, is_u64 sid ∧ keyable c ∧ k = entry sid w c.

Lemma entry_split sid w c : entry sid w c = u64_be sid ++ utf8_bytes w ++ SEP :: raw_key sid c.
Proof. unfold entry, index_key, position. by rewrite as_bytes_of_id. Qed.
Lemma index_entry_inj sid w c sid' w' c' :
  is_u64 sid → is_u64 sid' → keyable c → keyable c' → entry sid w c = entry sid' w' c' → sid = sid' ∧ w = w' ∧ c = c'.
Proof.
  intros Hs Hs' [Hc _] [Hc' _]. rewrite !entry_split. intros E. apply app_inj_1 in E as [E1 E]; [|by rewrite !length_u64_be].
  apply u64_be_inj in E1 as ->; [|done..]. apply split_at_sep in E as [E1 E]; [|apply utf8_bytes_no_sep..].
  apply utf8_bytes_inj in E1 as ->. apply raw_key_inj in E as [_ ->]; done.
Qed.

Lemma index_wf_empty : index_wf store_empty.
Proof. intros k v. by rewrite map_get_empty. Qed.

(** ** Indexing *)

Lemma get_insert_words t (keys : list bytes) k :
  map_get (insert_batch t ((λ key, (key, [])) <$> keys)) k = if bool_decide (k ∈ keys) then Some [] else map_get t k.
Proof.
  revert t. induction keys as [|key keys IH]; intros t; cbn; [by rewrite bool_decide_eq_false_2 by apply not_elem_of_nil|].
  unfold insert_batch in IH. rewrite IH. destruct (decide (key = k)) as [->|Hne].
  - rewrite map_get_insert_eq, (bool_decide_eq_true_2 (k ∈ k :: keys)) by set_solver. by case_bool_decide.
  - rewrite map_get_insert_ne by done. by rewrite (bool_decide_ext (k ∈ key :: keys) (k ∈ keys)) by set_solver.
Qed.

(** Indexing a message adds its position under its words. *)
Theorem index_pdu_spec t sid c body :
  is_u64 sid → keyable c → index_wf t →
  let t' := index_pdu t sid (position sid c) body in
  index_wf t' ∧ ∀ sid' w c', is_u64 sid' → keyable c' →
    indexed t' sid' w c' ↔ (sid' = sid ∧ c' = c ∧ w ∈ tokenize body) ∨ indexed t sid' w c'.
Proof.
  intros Hs Hc Hwf t'. assert (∀ k, map_get t' k = if bool_decide (k ∈ (λ w, entry sid w c) <$> tokenize body) then Some [] else map_get t k) as Hget.
  { intros k. unfold t', index_pdu. rewrite <- get_insert_words. do 2 f_equal. by rewrite <- list_fmap_compose. }
  split.
  - intros k v. rewrite Hget. case_bool_decide as Hk; [|apply Hwf]. intros _. apply list_elem_of_fmap in Hk as (w & -> & _). by exists sid, w, c.
  - intros sid' w c' Hs' Hc'. unfold indexed. rewrite Hget. case_bool_decide as Hk.
    + apply list_elem_of_fmap in Hk as (w' & E & Hw'). apply index_entry_inj in E as (-> & -> & ->); [|done..].
      split; [by left|]. by intros _.
    + split; [by right|]. intros [(-> & -> & Hw)|?]; [|done]. exfalso. apply Hk. apply list_elem_of_fmap. by exists w.
Qed.

(** Taking a message out removes its position from under its words. *)
Lemma deindex_pdu_spec t sid c body :
  is_u64 sid → keyable c → index_wf t →
  let t' := deindex_pdu t sid (position sid c) body in
  index_wf t' ∧ ∀ sid' w c', is_u64 sid' → keyable c' →
    indexed t' sid' w c' ↔ ¬ (sid' = sid ∧ c' = c ∧ w ∈ tokenize body) ∧ indexed t sid' w c'.
Proof.
  intros Hs Hc Hwf t'. assert (∀ k, map_get t' k = if bool_decide (k ∈ (λ w, entry sid w c) <$> tokenize body) then None else map_get t k) as Hget
    by (intros k; apply get_remove_keys).
  split.
  - intros k v. rewrite Hget. case_bool_decide as Hk; [done|apply Hwf].
  - intros sid' w c' Hs' Hc'. unfold indexed. rewrite Hget. case_bool_decide as Hk.
    + apply list_elem_of_fmap in Hk as (w' & E & Hw'). apply index_entry_inj in E as (-> & -> & ->); [|done..].
      split; [by intros []|]. intros [Hn _]. by destruct Hn.
    + split; [|by intros []]. intros Hi. split; [|done]. intros (-> & -> & Hw). apply Hk. apply list_elem_of_fmap. by exists w.
Qed.

(** ** Searching *)

(** The longest word a token id has room for, with the position of an event. *)
Definition fits_token w : Prop := (length (utf8_bytes w) ≤ 59)%nat.
#[export] Instance fits_token_dec w : Decision (fits_token w).
Proof. unfold fits_token. apply _. Defined.

Lemma make_prefix_fits {E} sid w : fits_token w →
  make_prefix (E := E) sid w = Ok (u64_be sid ++ utf8_bytes w ++ [SEP]).
Proof.
  unfold fits_token, make_prefix, extend_from_slice, TOKEN_ID_MAX_LEN, WORD_MAX_LEN, RAW_ID_SIZE. intros Hw.
  rewrite bool_decide_eq_true_2 by (rewrite length_u64_be; cbn; lia). cbn [mbind outcome_bind app].
  rewrite bool_decide_eq_true_2 by (rewrite length_u64_be; lia). cbn [mbind outcome_bind].
  rewrite bool_decide_eq_true_2 by (rewrite length_app, length_u64_be; cbn; lia). by rewrite <- (assoc_L (++)).
Qed.
Lemma make_prefix_cases {E} sid w :
  make_prefix (E := E) sid w = Ok (u64_be sid ++ utf8_bytes w ++ [SEP]) ∨ make_prefix (E := E) sid w = Panic.
Proof.
  unfold make_prefix, extend_from_slice. repeat (case_bool_decide; cbn [mbind outcome_bind app]; [|by right]).
  left. by rewrite <- (assoc_L (++)).
Qed.
Lemma make_tokenid_max {E} sid w :
  make_tokenid (E := E) sid w (position sid Count.max) = if bool_decide (fits_token w) then Ok (entry sid w Count.max) else Panic.
Proof.
  unfold make_tokenid. case_bool_decide as Hw.
  - rewrite make_prefix_fits by done. cbn [mbind outcome_bind]. unfold extend_from_slice. rewrite bool_decide_eq_true_2.
    + rewrite entry_split. unfold position. rewrite as_bytes_of_id. by rewrite <- !(assoc_L (++)).
    + unfold position. rewrite as_bytes_of_id, length_raw_key, !length_app, length_u64_be.
      unfold fits_token in Hw. unfold TOKEN_ID_MAX_LEN, WORD_MAX_LEN, RAW_ID_SIZE, NORMAL_LEN, INT_LEN. cbn. lia.
  - destruct (make_prefix_cases (E := E) sid w) as [->| ->]; [|done]. cbn [mbind outcome_bind]. unfold extend_from_slice.
    rewrite bool_decide_eq_false_2; [done|]. unfold fits_token in Hw. unfold position. rewrite as_bytes_of_id, length_raw_key, !length_app, length_u64_be.
    unfold TOKEN_ID_MAX_LEN, WORD_MAX_LEN, RAW_ID_SIZE, NORMAL_LEN, INT_LEN. cbn. lia.
Qed.

Lemma entry_prefix sid w c : starts_with (entry sid w c) (u64_be sid ++ utf8_bytes w ++ [SEP]).
Proof.
  rewrite entry_split. unfold starts_with. replace (u64_be sid ++ utf8_bytes w ++ SEP :: raw_key sid c)
    with ((u64_be sid ++ utf8_bytes w ++ [SEP]) ++ raw_key sid c) by by rewrite <- !(assoc_L (++)). apply take_app_length.
Qed.
Lemma entry_of_prefix sid w sid' w' c' :
  is_u64 sid → is_u64 sid' → starts_with (entry sid' w' c') (u64_be sid ++ utf8_bytes w ++ [SEP]) → sid' = sid ∧ w' = w.
Proof.
  intros Hs Hs' E%starts_with_split. rewrite entry_split in E. rewrite <- !(assoc_L (++)) in E.
  apply app_inj_1 in E as [E1 E]; [|by rewrite !length_u64_be]. apply u64_be_inj in E1 as ->; [|done..].
  cbn [app] in E. apply split_at_sep in E as [E _]; [|apply utf8_bytes_no_sep..]. by apply utf8_bytes_inj in E as ->.
Qed.
Lemma entry_below_max sid w c : is_u64 sid → keyable c → bytes_le (entry sid w c) (entry sid w Count.max).
Proof.
  intros Hs Hc. rewrite !entry_split. unfold bytes_le. rewrite !bytes_cmp_app_same. change (SEP :: ?l) with ([SEP] ++ l).
  rewrite bytes_cmp_app_same, raw_key_cmp by (done || by vm_compute). unfold cmp. rewrite Z.compare_gt_iff.
  destruct Hc as [Hc _]. pose proof (into_signed_valid c Hc). assert (into_signed Count.max = 2 ^ 63 - 1) as -> by done. unfold is_i64 in *. lia.
Qed.

(** Reading the positions back from the keys. *)
Lemma try_map_positions {E} sid w (keys : list bytes) :
  (∀ k, k ∈ keys → ∃ c, k = entry sid w c) →
  ∃ l, try_map (λ key : bytes, must (E' := E) (raw_of_slice (drop (prefix_len w) key))) keys = Ok l
    ∧ ∀ r, r ∈ l ↔ ∃ c, r = position sid c ∧ entry sid w c ∈ keys.
Proof.
  induction keys as [|k keys IH]; intros Hk.
  { exists []. split; [done|]. intros r. split; [by intros ?%elem_of_nil|]. by intros (c & _ & ?%elem_of_nil). }
  destruct IH as (l & El & Hl); [intros; apply Hk; by right|]. destruct (Hk k) as [c ->]; [by left|].
  assert (raw_of_slice (drop (prefix_len w) (entry sid w c)) = Ok (position sid c)) as Hc.
  { rewrite entry_split. unfold prefix_len. change (SEP :: raw_key sid c) with ([SEP] ++ raw_key sid c). rewrite !(assoc_L (++)).
    rewrite drop_app_ge by (rewrite !length_app, length_u64_be; cbn; lia). rewrite !length_app, length_u64_be. cbn [length].
    rewrite Nat.sub_diag, drop_0. apply raw_of_slice_key. }
  exists (position sid c :: l). cbn [try_map]. rewrite Hc. cbn [must mbind outcome_bind]. rewrite El. split; [done|].
  intros r. rewrite elem_of_cons, Hl. split.
  - intros [->|(c' & -> & ?)]; [exists c|exists c']; split; try done; [by left|by right].
  - intros (c' & -> & [E'|?]%elem_of_cons); [left|right; eauto]. rewrite !entry_split in E'. do 2 apply (inj (app _)) in E'. injection E' as E'.
    apply (f_equal raw_of_slice) in E'. rewrite !raw_of_slice_key in E'. by injection E'.
Qed.

Lemma query_words_spec {E} t sid w : is_u64 sid → index_wf t →
  if bool_decide (fits_token w)
  then ∃ l, search_pdu_ids_query_words (E := E) t sid w = Ok l ∧ ∀ r, r ∈ l ↔ ∃ c, keyable c ∧ r = position sid c ∧ indexed t sid w c
  else search_pdu_ids_query_words (E := E) t sid w = Panic.
Proof.
  intros Hs Hwf. unfold search_pdu_ids_query_words, search_pdu_ids_query_word. fold (position sid Count.max). rewrite make_tokenid_max.
  case_bool_decide as Hw; [|done]. cbn [mbind outcome_bind]. rewrite make_prefix_fits by done. cbn [mbind outcome_bind].
  set (prefix := u64_be sid ++ utf8_bytes w ++ [SEP]). set (keys := take_while _ _).
  assert (∀ k, k ∈ keys ↔ ∃ c, keyable c ∧ k = entry sid w c ∧ indexed t sid w c) as Hk.
  { assert (∀ k, k ∈ (rev_raw_stream_from t (entry sid w Count.max)).*1 ↔ bytes_le k (entry sid w Count.max) ∧ is_Some (map_get t k)) as Hraw.
    { intros k. unfold rev_raw_stream_from. rewrite list_elem_of_fmap. setoid_rewrite store_seek_for_prev_spec. setoid_rewrite elem_of_reverse. split.
      - intros ([k' v] & -> & [? Hin]%list_elem_of_filter). split; [done|]. apply store_scan_spec in Hin. by exists v.
      - intros [Hle [v Hv]]. exists (k, v). split; [done|]. apply list_elem_of_filter. split; [done|]. by apply store_scan_spec. }
    unfold keys. rewrite (take_while_filter (flip bytes_lt)).
    - intros k. rewrite list_elem_of_filter, Hraw. split.
      + intros (Hp & _ & [v Hv]). destruct (Hwf _ _ Hv) as (sid' & w' & c & Hs' & Hc & ->). apply entry_of_prefix in Hp as [-> ->]; [|done..].
        exists c. split_and!; [done..|]. by exists v.
      + intros (c & Hc & -> & Hi). split; [apply entry_prefix|]. split; [by apply entry_below_max|done].
    - unfold rev_raw_stream_from. rewrite store_seek_for_prev_spec. rewrite fmap_reverse. apply (StronglySorted_reverse bytes_lt).
      apply (sorted_fmap fst key_lt); [done|]. apply StronglySorted_filter, store_scan_sorted.
    - intros k1 k2 [Hle1 Hk1]%Hraw [_ [v2 Hk2]]%Hraw Hlt Hp. unfold flip in Hlt.
      assert (entry sid w Count.max = prefix ++ raw_key sid Count.max) as Emax by (rewrite entry_split; unfold prefix; by rewrite <- !(assoc_L (++))).
      apply bytes_le_lteq in Hle1 as [Hle1| ->]; [|apply entry_prefix]. rewrite Emax in Hle1. eapply between_prefix; [|exact Hle1].
      apply bytes_le_lteq. left. apply starts_with_above, bytes_le_lteq in Hp as [Hp| ->]; [by trans k2|done]. }
  destruct (try_map_positions (E := E) sid w keys) as (l & El & Hl); [by intros k (c & _ & -> & _)%Hk; eauto|].
  exists l. split; [exact El|]. intros r. rewrite Hl. split.
  - intros (c & -> & (c' & Hc & E' & Hi)%Hk). exists c'. rewrite !entry_split in E'. do 2 apply (inj (app _)) in E'. injection E' as E'.
    split; [done|]. split; [|done]. unfold position. apply (f_equal raw_of_slice) in E'. rewrite !raw_of_slice_key in E'. by injection E'.
  - intros (c & Hc & -> & Hi). exists c. split; [done|]. apply Hk. eauto.
Qed.

Lemma elem_of_intersection {A} `{EqDecision A} (first : list A) rest x :
  x ∈ intersection (first :: rest) ↔ ∀ l, l ∈ first :: rest → x ∈ l.
Proof.
  cbn. rewrite list_elem_of_filter, Forall_forall. split.
  - intros [Hr Hf] l [->|Hl]%elem_of_cons; [done|by apply Hr].
  - intros Hl. split; [intros other Ho; apply Hl; by right|apply Hl; by left].
Qed.

(** The lists of positions of the words of a query. *)
Lemma query_room_spec {E} t sid (words : list (list Char)) : is_u64 sid → index_wf t →
  if bool_decide (Forall fits_token words)
  then ∃ ls, try_map (search_pdu_ids_query_words (E := E) t sid) words = Ok ls
    ∧ Forall2 (λ w l, ∀ r, r ∈ l ↔ ∃ c, keyable c ∧ r = position sid c ∧ indexed t sid w c) words ls
  else try_map (search_pdu_ids_query_words (E := E) t sid) words = Panic.
Proof.
  intros Hs Hwf. induction words as [|w words IH].
  { rewrite bool_decide_eq_true_2 by constructor. exists []. split; [done|constructor]. }
  pose proof (query_words_spec (E := E) t sid w Hs Hwf) as Hw. cbn [try_map].
  destruct (decide (fits_token w)) as [Hf|Hf].
  - rewrite bool_decide_eq_true_2 in Hw by done. destruct Hw as (l & -> & Hl). cbn [mbind outcome_bind].
    destruct (decide (Forall fits_token words)) as [Hws|Hws].
    + rewrite bool_decide_eq_true_2 in IH by done. destruct IH as (ls & -> & Hls).
      rewrite bool_decide_eq_true_2 by by constructor. exists (l :: ls). split; [done|by constructor].
    + rewrite bool_decide_eq_false_2 in IH by done. rewrite IH. rewrite bool_decide_eq_false_2; [done|].
      by intros [_ ?]%Forall_cons.
  - rewrite bool_decide_eq_false_2 in Hw by done. rewrite Hw. cbn [mbind outcome_bind]. rewrite bool_decide_eq_false_2; [done|].
    by intros [? _]%Forall_cons.
Qed.

(** C25: a search in a room lists exactly the positions indexed under every word of the query; a
    query without words finds nothing, and one with a word of more than 59 bytes, which a
    word of 50 can become in lower case, panics. *)
Theorem search_pdu_ids_spec t s room_id sid term :
  get_shortroomid s room_id = Ok sid → is_u64 sid → index_wf t →
  if bool_decide (Forall fits_token (tokenize term))
  then ∃ l, search_pdu_ids t s room_id term = Ok l
    ∧ ∀ r, r ∈ l ↔ tokenize term ≠ [] ∧ ∃ c, keyable c ∧ r = position sid c ∧ ∀ w, w ∈ tokenize term → indexed t sid w c
  else search_pdu_ids t s room_id term = Panic.
Proof.
  intros Hr Hs Hwf. unfold search_pdu_ids, search_pdu_ids_query_room. rewrite Hr.
  pose proof (query_room_spec (E := SearchError) t sid (tokenize term) Hs Hwf) as Hq. case_bool_decide as Hf.
  - destruct Hq as (ls & -> & Hls). cbn [mbind outcome_bind]. exists (intersection ls). split; [done|]. intros r.
    inversion Hls as [|w l words ls' Hw Hls' E1 E2]; subst.
    { cbn. split; [by intros ?%elem_of_nil|]. by intros []. }
    rewrite elem_of_intersection. split.
    + intros Hall. split; [done|]. destruct (Hw r) as [(c & Hc & -> & _) _]; [apply Hall; by left|]. exists c. split_and!; [done..|].
      intros w' Hw'. rewrite E1 in Hw'. apply list_elem_of_lookup in Hw' as [i Hi].
      destruct (Forall2_lookup_l _ _ _ _ _ Hls Hi) as (l' & Hl' & Hin).
      destruct (Hin (position sid c)) as [(c' & Hc' & E & Hx) _]; [apply Hall; by eapply list_elem_of_lookup_2|].
      unfold indexed, entry. by rewrite E.
    + intros (_ & c & Hc & -> & Hall) l' [i Hi]%list_elem_of_lookup.
      destruct (Forall2_lookup_r _ _ _ _ _ Hls Hi) as (w' & Hw' & Hin). apply Hin. exists c. split_and!; [done..|].
      apply Hall. rewrite E1. by eapply list_elem_of_lookup_2.
  - by rewrite Hq.
Qed.
End search.

(** ** Some letters *)

Module SearchDemo.
(** a, b, i, the capital I with a dot (whose lower case is i with a combining dot), the
    combining dot and the space. *)
Inductive letter := a | b | i | I_dot | dot | space.
#[export] Instance letter_eq_dec : EqDecision letter.
Proof. solve_decision. Defined.
Definition letter_bytes (l : letter) : bytes :=
  match l with a => [x61] | b => [x62] | i => [x69] | I_dot => [xc4; xb0] | dot => [xcc; x87] | space => [x20] end.
#[export] Instance letters : Unicode letter := {
  is_alphanumeric l := match l with dot | space => false | _ => true end;
  to_lowercase := mbind (λ l, match l with I_dot => [i; dot] | l => [l] end);
  utf8_bytes := mbind letter_bytes;
}.
Fixpoint letters_of (l : bytes) : list letter :=
  match l with
  | x61 :: l => a :: letters_of l
  | x62 :: l => b :: letters_of l
  | x69 :: l => i :: letters_of l
  | x20 :: l => space :: letters_of l
  | xc4 :: xb0 :: l => I_dot :: letters_of l
  | xcc :: x87 :: l => dot :: letters_of l
  | _ => []
  end.
#[export] Instance letters_laws : UnicodeLaws letter.
Proof.
  split.
  - assert (∀ l, letters_of (utf8_bytes l) = l) as Hl by (intros l; induction l as [|[] l IH]; cbn; f_equal; done).
    intros l l' E. by rewrite <- (Hl l), E.
  - intros l. cbn. induction l as [|x l IH]; cbn; [by intros ?%elem_of_nil|].
    rewrite elem_of_app. intros [Hx|?]; [|done]. destruct x; cbn in Hx; set_solver.
Qed.

Definition shorts : Short (gmap bytes bytes) :=
  match get_or_create_shortroomid (mkShort ∅ ∅ ∅ ∅ ∅ ∅ (mkGlobals ∅ 6)) "!r" with Ok (_, s) => s | _ => mkShort ∅ ∅ ∅ ∅ ∅ ∅ (mkGlobals ∅ 0) end.
Definition table : gmap bytes bytes :=
  index_pdu (index_pdu ∅ 7 (position 7 (Normal 9)) [a; space; b; b]) 7 (position 7 (Normal 12)) [b; b; space; space; i].
Definition no_words : gmap bytes bytes := ∅.
Lemma table_wf : index_wf table.
Proof.
  assert (index_wf no_words) as H0 by (intros k v Hk; by vm_compute in Hk).
  destruct (index_pdu_spec no_words 7 (Normal 9) [a; space; b; b] ltac:(int_solve) ltac:(by vm_compute) H0) as [H1 _].
  by destruct (index_pdu_spec _ 7 (Normal 12) [b; b; space; space; i] ltac:(int_solve) ltac:(by vm_compute) H1) as [H2 _].
Qed.
Example search_bb : search_pdu_ids table shorts "!r" [b; b] = Ok [position 7 (Normal 12); position 7 (Normal 9)].
Proof. by vm_compute. Qed.
Example search_bb_a : search_pdu_ids table shorts "!r" [b; b; space; a] = Ok [position 7 (Normal 9)].
Proof. by vm_compute. Qed.

(** Twenty dotted capitals are a word of forty bytes, sixty in lower case. *)
Lemma search_pdu_ids_spec_witness :
  search_pdu_ids table shorts "!r" (repeat I_dot 20) = Panic
  ∧ ∃ l, search_pdu_ids table shorts "!r" [b; b] = Ok l ∧ position 7 (Normal 9) ∈ l.
Proof.
  assert (get_shortroomid shorts "!r" = Ok 7) as Hr by by vm_compute.
  split; [exact (search_pdu_ids_spec table shorts "!r" 7 (repeat I_dot 20) Hr ltac:(int_solve) table_wf)|].
  destruct (search_pdu_ids_spec table shorts "!r" 7 [b; b] Hr ltac:(int_solve) table_wf) as (l & El & Hl).
  exists l. split; [exact El|]. rewrite search_bb in El. injection El as <-. right. left.
Defined.

Lemma index_pdu_spec_witness : index_wf (index_pdu no_words 7 (position 7 (Normal 9)) [a]).
Proof.
  assert (index_wf no_words) as H0 by (intros k v Hk; by vm_compute in Hk).
  by destruct (index_pdu_spec no_words 7 (Normal 9) [a] ltac:(int_solve) ltac:(by vm_compute) H0) as [H1 _].
Defined.
End SearchDemo.
