(* ===== verification/Threads.v ===== *)
(** * Threads, and what is known of rooms

    Models [src/service/rooms/threads/mod.rs] (the summary of a thread in its root event, the
    participants, the list of threads) and [src/service/rooms/metadata/mod.rs] (whether a room
    exists, is disabled or banned). *)

From S2P Require Import Prelude Bytes PduId DbMap DbSer DbScan Short RoomVersion Event IncomingPdu Unsigned.
From S2P Require Timeline.
Import Count.

Local Open Scope Z_scope.

(** [BundledThread] of ruma with its JSON, and [Event::to_format]. *)
Record BundledThread := mkBundledThread { latest_event : Json; thread_count : Z; current_user_participated : bool }.
Class ThreadWire (Content : Type) := {
  from_BundledThread : Json → option BundledThread;
  to_BundledThread : BundledThread → Json;
  to_format : Pdu Content → Json;
}.

Inductive ThreadError := InvalidThreadRoot | ThreadRoom (e : ShortError) | ThreadTimeline (e : Timeline.TimelineError).

Section threads.
Context {DB : Type} `{Store DB} {Content : Type} `{ThreadWire Content} `{RawJson}.
Context (pdu_from_slice : bytes → option (Pdu Content)) (json_from_slice : bytes → option Object) (json_to_vec : Object → bytes).
Implicit Types (d : Timeline.Data DB) (threadid_userids : DB) (pdu : Pdu Content) (root_id : RawId).

(** [UInt] of ruma saturates at the largest integer of JavaScript. *)
Definition uint_succ (n : Z) : Z := Z.min (n + 1) Int_MAX.

(** The summary of the thread among the unsigned data of its root. *)
Definition thread_of (unsigned : list (string * Json)) : option BundledThread :=
  r ← member unsigned "m.relations" ≫= as_object; member r "m.thread" ≫= from_BundledThread.
Definition next_thread (unsigned : list (string * Json)) (event : Json) : BundledThread :=
  match thread_of unsigned with
  | Some relations => mkBundledThread event (uint_succ (thread_count relations)) (current_user_participated relations)
  | None => mkBundledThread event 1 true
  end.
(** [insert] into a nested object, whose members are listed by name. *)
Fixpoint insert_member (o : list (string * Json)) (name : string) (j : Json) : list (string * Json) :=
  match o with
  | [] => [(name, j)]
  | (name', j') :: o => if bool_decide (name' = name) then (name, j) :: o else (name', j') :: insert_member o name j
  end.
Definition with_thread (root : Object) (event : Json) : option Object :=
  match default (JObject []) (root !! "unsigned") with
  | JObject unsigned =>
      Some (<["unsigned" := JObject (insert_member unsigned "m.relations"
                              (JObject [("m.thread", to_BundledThread (next_thread unsigned event))]))]> root)
  | _ => None
  end.

Fixpoint join_ids (users : list string) : bytes :=
  match users with [] => [] | [u] => bytes_of_string u | u :: users => bytes_of_string u ++ SEP :: join_ids users end.
Definition update_participants threadid_userids root_id (participants : list string) : DB :=
  map_insert threadid_userids (as_bytes root_id) (join_ids participants).
Definition get_participants threadid_userids root_id : outcome ThreadError (option (list string)) :=
  match deserialized (SSeq SStr) (map_get threadid_userids (as_bytes root_id)) with
  | Ok (VSeq users) => Ok (Some (omap (λ v, match v with VStr u => Some (string_of_bytes u) | _ => None end) users))
  | Err _ => Ok None
  | _ => Panic
  end.

Definition add_to_thread d threadid_userids (root_event_id : string) (event : Pdu Content) : outcome ThreadError (Timeline.Data DB * DB) :=
  match Timeline.get_pdu_id d root_event_id with
  | Ok root_id =>
      match Timeline.get_pdu_from_id pdu_from_slice d root_id, Timeline.get_pdu_json_from_id json_from_slice d root_id with
      | Ok root_pdu, Ok root_pdu_json =>
          d ← match with_thread root_pdu_json (to_format event) with
              | Some root_pdu_json =>
                  match Timeline.replace_pdu json_to_vec d root_id root_pdu_json with
                  | Ok d => Ok d | Err e => Err (ThreadTimeline e) | Panic => Panic end
              | None => Ok d
              end;
          userids ← get_participants threadid_userids root_id;
          let users := default [sender root_pdu] userids ++ [sender event] in
          Ok (d, update_participants threadid_userids root_id users)
      | Panic, _ | _, Panic => Panic
      | _, _ => Err InvalidThreadRoot
      end
  | Err _ => Err InvalidThreadRoot
  | Panic => Panic
  end.

Definition threads_until (now : Z) d threadid_userids (s : Short DB) (user_id room_id : string) (shorteventid : Count)
    : outcome ThreadError (list (Count * Pdu Content)) :=
  match get_shortroomid s room_id with
  | Ok shortroomid =>
      let current := raw_of_id (mkId shortroomid (saturating_sub shorteventid 1)) in
      ids ← try_map (λ kv : KeyVal, must (raw_of_slice kv.1)) (rev_raw_stream_from threadid_userids (as_bytes current));
      Ok (omap (λ pdu_id,
            match Timeline.get_pdu_from_id pdu_from_slice d pdu_id with
            | Ok pdu => Some (pdu_count pdu_id, set_unsigned now (Some user_id) pdu)
            | _ => None
            end) (take_while (λ pdu_id, raw_shortroomid pdu_id = u64_be shortroomid) ids))
  | Err e => Err (ThreadRoom e)
  | Panic => Panic
  end.

(** ** [metadata/mod.rs] *)

Definition room_exists (s : Short DB) d room_id : outcome ThreadError bool :=
  match get_shortroomid s room_id with
  | Ok prefix => Ok (bool_decide (raw_stream_prefix (Timeline.pduid_pdu d) (u64_be prefix) ≠ []))
  | Err _ => Ok false
  | Panic => Panic
  end.
Definition iter_ids (s : Short DB) : list bytes := (store_scan (roomid_shortroomid s)).*1.
Definition flag_room (m : DB) (room_id : string) (flag : bool) : DB :=
  if flag then map_insert m (bytes_of_string room_id) [] else map_remove m (bytes_of_string room_id).
Definition is_flagged (m : DB) (room_id : string) : bool := bool_decide (is_Some (map_get m (bytes_of_string room_id))).
Definition disable_room (disabledroomids : DB) room_id (disabled : bool) : DB := flag_room disabledroomids room_id disabled.
Definition ban_room (bannedroomids : DB) room_id (banned : bool) : DB := flag_room bannedroomids room_id banned.
Definition is_disabled (disabledroomids : DB) room_id : bool := is_flagged disabledroomids room_id.
Definition is_banned (bannedroomids : DB) room_id : bool := is_flagged bannedroomids room_id.
Definition list_banned_rooms (bannedroomids : DB) : list bytes := (store_scan bannedroomids).*1.

(** ** Theorems *)

Lemma is_flagged_flag m room_id flag room_id' :
  is_flagged (flag_room m room_id flag) room_id' = if bool_decide (room_id' = room_id) then flag else is_flagged m room_id'.
Proof.
  unfold is_flagged, flag_room. destruct (decide (room_id' = room_id)) as [->|Hne].
  - rewrite (bool_decide_eq_true_2 (room_id = room_id)) by done. destruct flag; [rewrite map_get_insert_eq|rewrite map_get_remove_eq].
    + by apply bool_decide_eq_true_2.
    + by apply bool_decide_eq_false_2; intros [].
  - rewrite (bool_decide_eq_false_2 (room_id' = room_id)) by done.
    assert (bytes_of_string room_id ≠ bytes_of_string room_id') by (intros E%bytes_of_string_inj; done).
    destruct flag; [by rewrite map_get_insert_ne|by rewrite map_get_remove_ne].
Qed.

(** A room is known to exist when its timeline has an event. *)
Lemma room_exists_iff s d room_id sid :
  Timeline.pdus_wf pdu_from_slice (Timeline.pduid_pdu d) → get_shortroomid s room_id = Ok sid → is_u64 sid →
  room_exists s d room_id = Ok (bool_decide (Timeline.room_timeline pdu_from_slice (Timeline.pduid_pdu d) sid ≠ [])).
Proof.
  intros Hwf Hr Hs. unfold room_exists. rewrite Hr. f_equal. apply bool_decide_ext. rewrite raw_stream_prefix_filter.
  unfold Timeline.room_timeline. assert (∀ l, (∀ kv, kv ∈ l → Timeline.entry_wf pdu_from_slice kv) →
    (filter (λ kv : KeyVal, starts_with kv.1 (u64_be sid)) l = [] ↔ omap (Timeline.room_entry pdu_from_slice sid) l = [])) as Hl.
  { induction l as [|[k v] l IH]; intros Hl; [done|]. destruct (Hl (k, v)) as (r & c & p & Hr' & Hc & E & Hp); [by left|].
    cbn in E, Hp. subst k. rewrite omap_cons, (Timeline.room_entry_key pdu_from_slice sid r c v p) by done.
    rewrite filter_cons. cbn [fst]. pose proof (Timeline.starts_with_key r c sid Hr' Hs) as Hst.
    case_bool_decide as Hrs; case_decide; try tauto; [done|]. apply IH. intros; apply Hl; by right. }
  rewrite Hl; [done|]. intros [k v] Hin. apply store_scan_spec in Hin. by apply Hwf.
Qed.

(** *** Adding to a thread *)

Lemma member_insert_member o name j name' :
  member (insert_member o name j) name' = if bool_decide (name = name') then Some j else member o name'.
Proof.
  induction o as [|[n x] o IH]; cbn; [by case_bool_decide|]. destruct (bool_decide_reflect (n = name)) as [->|Hn]; cbn.
  - by case_bool_decide.
  - destruct (bool_decide_reflect (n = name')) as [->|Hn']; [|exact IH]. by rewrite bool_decide_eq_false_2 by done.
Qed.

(** The count of a thread as its root event has it. *)
Definition messages (root : Object) : option Z :=
  match default (JObject []) (root !! "unsigned") with
  | JObject unsigned => Some (from_option thread_count 0 (thread_of unsigned))
  | _ => None
  end.

Context (thread_round_trip : ∀ t, from_BundledThread (to_BundledThread t) = Some t).
Context (json_round_trip : ∀ o, json_from_slice (json_to_vec o) = Some o).

(** Adding an event to a thread makes the count of its root one more, the event the latest,
    and its sender a participant; of the timeline only the root event changes. *)
Theorem add_to_thread_counts d userids root_event_id event d' userids' root_id root n :
  Timeline.get_pdu_id d root_event_id = Ok root_id → Timeline.get_pdu_json_from_id json_from_slice d root_id = Ok root →
  messages root = Some n → 0 ≤ n →
  add_to_thread d userids root_event_id event = Ok (d', userids') →
  (∃ root' unsigned t, Timeline.get_pdu_json_from_id json_from_slice d' root_id = Ok root'
     ∧ root' !! "unsigned" = Some (JObject unsigned) ∧ thread_of unsigned = Some t
     ∧ thread_count t = Z.min (n + 1) Int_MAX ∧ latest_event t = to_format event
     ∧ delete "unsigned" root' = delete "unsigned" root)
  ∧ (∀ k, k ≠ as_bytes root_id → map_get (Timeline.pduid_pdu d') k = map_get (Timeline.pduid_pdu d) k)
  ∧ (∀ k, k ≠ as_bytes root_id → map_get userids' k = map_get userids k)
  ∧ ∃ users, map_get userids' (as_bytes root_id) = Some (join_ids (users ++ [sender event])).
Proof.
  intros Hid Hroot Hn Hpos. unfold add_to_thread. rewrite Hid, Hroot.
  destruct (Timeline.get_pdu_from_id pdu_from_slice d root_id) as [root_pdu|?|]; [|done..].
  unfold messages in Hn. unfold with_thread. destruct (default (JObject []) (root !! "unsigned")) as [| | | | |unsigned] eqn:Eu; try done.
  injection Hn as Hn. set (new := next_thread unsigned (to_format event)). set (root' := <["unsigned" := _]> root).
  unfold Timeline.replace_pdu. destruct (map_contains _ _); [|done]. cbn [mbind outcome_bind].
  destruct (get_participants userids root_id) as [ids|?|]; [|done..]. cbn [mbind outcome_bind]. intros [= <- <-].
  cbn [Timeline.pduid_pdu]. unfold update_participants. split_and!.
  - exists root', (insert_member unsigned "m.relations" (JObject [("m.thread", to_BundledThread new)])), new. split_and!.
    + unfold Timeline.get_pdu_json_from_id, Timeline.get_as. cbn [Timeline.pduid_pdu]. rewrite map_get_insert_eq.
      cbn [ok_or mbind outcome_bind]. by rewrite json_round_trip.
    + apply lookup_insert_eq.
    + unfold thread_of. rewrite member_insert_member, bool_decide_eq_true_2 by done. cbn [mbind option_bind as_object member].
      rewrite bool_decide_eq_true_2 by done. cbn [mbind option_bind]. apply thread_round_trip.
    + unfold new, next_thread, uint_succ, Int_MAX. destruct (thread_of unsigned) as [t|]; cbn in *; lia.
    + unfold new, next_thread. by destruct (thread_of unsigned).
    + unfold root'. by rewrite delete_insert_eq.
  - intros k Hk. by rewrite map_get_insert_ne.
  - intros k Hk. by rewrite map_get_insert_ne.
  - rewrite map_get_insert_eq. by exists (default [sender root_pdu] ids).
Qed.
End threads.
