(* ===== verification/Services.v ===== *)
(** * The services of the server together

    The tables of the services that an event passes on its way into the timeline, as one
    state: the services of rooms (with the one counter of the server), the timeline, the
    memberships with account data and users, receipts, unread counts, references and
    relations, search, threads, and the queues of the sender.  A call of a service runs its
    definition on its part; the counter is handed to it and taken back. *)

From S2P Require Import Prelude Bytes DbMap Short Event IncomingPdu AccountData Users StateCache RoomState StateAtEvent PduMetadata ReadReceipts Sending.
From S2P Require Timeline.

Local Open Scope Z_scope.

(** A command: its text, the event it answers, the sender. *)
Inductive InvocationSource := AdminRoom | EscapedCommand.
Record CommandInput := mkCommandInput {
  command : bytes;
  reply_id : option string;
  command_source : InvocationSource;
  command_sender : option string;
}.

Section services.
Context {DB : Type} `{Store DB} {C : Type}.

Record Services := mkServices {
  srv_rooms : Rooms DB C;
  srv_timeline : Timeline.Data DB;
  srv_cache : Cache (DB := DB);
  srv_metadata : PduMetadata DB;
  srv_receipts : ReadReceipts (DB := DB);
  tokenids : DB;
  threadid_userids : DB;
  senderkey_pusher : DB;
  aliasid_alias : DB;
  alias_roomid : DB;
  srv_sending : SendingData (DB := DB);
  (** messages on their way to the worker of the sender *)
  dispatched : list Msg;
  (** the rooms whose summary is cached *)
  roomid_spacehierarchy_cache : gset string;
  (** commands on their way to the command processor *)
  admin_channel : list CommandInput;
}.
Implicit Types (sv : Services).

Definition room_tables sv : RoomState (DB := DB) := rooms (srv_rooms sv).
Definition shorts sv : Short DB := RoomState.short (room_tables sv).
(** [services.globals]: the counter. *)
Definition counters sv : Globals DB := globals (shorts sv).

Definition set_rooms_part sv (w : Rooms DB C) : Services :=
  mkServices w (srv_timeline sv) (srv_cache sv) (srv_metadata sv) (srv_receipts sv) (tokenids sv) (threadid_userids sv) (senderkey_pusher sv)
    (aliasid_alias sv) (alias_roomid sv) (srv_sending sv) (dispatched sv) (roomid_spacehierarchy_cache sv) (admin_channel sv).
Definition set_room_tables sv (rs : RoomState (DB := DB)) : Services :=
  set_rooms_part sv (mkRooms rs (chain_table (srv_rooms sv)) (chain_cache (srv_rooms sv))).
Definition set_counters sv (g : Globals DB) : Services :=
  set_room_tables sv (set_shorts (room_tables sv) (with_count (shorts sv) g)).
Definition set_timeline sv (d : Timeline.Data DB) : Services :=
  mkServices (srv_rooms sv) d (srv_cache sv) (srv_metadata sv) (srv_receipts sv) (tokenids sv) (threadid_userids sv) (senderkey_pusher sv)
    (aliasid_alias sv) (alias_roomid sv) (srv_sending sv) (dispatched sv) (roomid_spacehierarchy_cache sv) (admin_channel sv).
Definition set_metadata sv (m : PduMetadata DB) : Services :=
  mkServices (srv_rooms sv) (srv_timeline sv) (srv_cache sv) m (srv_receipts sv) (tokenids sv) (threadid_userids sv) (senderkey_pusher sv)
    (aliasid_alias sv) (alias_roomid sv) (srv_sending sv) (dispatched sv) (roomid_spacehierarchy_cache sv) (admin_channel sv).
Definition set_search sv (t : DB) : Services :=
  mkServices (srv_rooms sv) (srv_timeline sv) (srv_cache sv) (srv_metadata sv) (srv_receipts sv) t (threadid_userids sv) (senderkey_pusher sv)
    (aliasid_alias sv) (alias_roomid sv) (srv_sending sv) (dispatched sv) (roomid_spacehierarchy_cache sv) (admin_channel sv).
Definition set_threads sv (d : Timeline.Data DB) (t : DB) : Services :=
  mkServices (srv_rooms sv) d (srv_cache sv) (srv_metadata sv) (srv_receipts sv) (tokenids sv) t (senderkey_pusher sv)
    (aliasid_alias sv) (alias_roomid sv) (srv_sending sv) (dispatched sv) (roomid_spacehierarchy_cache sv) (admin_channel sv).
Definition forget_summary sv (room_id : string) : Services :=
  mkServices (srv_rooms sv) (srv_timeline sv) (srv_cache sv) (srv_metadata sv) (srv_receipts sv) (tokenids sv) (threadid_userids sv)
    (senderkey_pusher sv) (aliasid_alias sv) (alias_roomid sv) (srv_sending sv) (dispatched sv) (roomid_spacehierarchy_cache sv ∖ {[room_id]}) (admin_channel sv).
Definition enqueue_command sv (c : CommandInput) : Services :=
  mkServices (srv_rooms sv) (srv_timeline sv) (srv_cache sv) (srv_metadata sv) (srv_receipts sv) (tokenids sv) (threadid_userids sv)
    (senderkey_pusher sv) (aliasid_alias sv) (alias_roomid sv) (srv_sending sv) (dispatched sv) (roomid_spacehierarchy_cache sv)
    (admin_channel sv ++ [c]).
(** The parts that have the counter in their own state. *)
Definition cache_part sv : Cache (DB := DB) :=
  let c := srv_cache sv in
  mkCache (counters sv) (cache_db c) (account_tables c) (user_tables c) (bannedroomids c) (disabledroomids c) (appservice_in_room_cache c).
Definition set_cache sv (c : Cache (DB := DB)) : Services :=
  let sv := set_counters sv (cache_globals c) in
  mkServices (srv_rooms sv) (srv_timeline sv) c (srv_metadata sv) (srv_receipts sv) (tokenids sv) (threadid_userids sv) (senderkey_pusher sv)
    (aliasid_alias sv) (alias_roomid sv) (srv_sending sv) (dispatched sv) (roomid_spacehierarchy_cache sv) (admin_channel sv).
Definition receipts_part sv : ReadReceipts (DB := DB) :=
  let r := srv_receipts sv in
  mkReadReceipts (counters sv) (roomuserid_privateread r) (roomuserid_lastprivatereadupdate r) (readreceiptid_readreceipt r).
Definition set_receipts sv (r : ReadReceipts (DB := DB)) : Services :=
  let sv := set_counters sv (receipt_globals r) in
  mkServices (srv_rooms sv) (srv_timeline sv) (srv_cache sv) (srv_metadata sv) r (tokenids sv) (threadid_userids sv) (senderkey_pusher sv)
    (aliasid_alias sv) (alias_roomid sv) (srv_sending sv) (dispatched sv) (roomid_spacehierarchy_cache sv) (admin_channel sv).
Definition sending_part sv : SendingData (DB := DB) :=
  let d := srv_sending sv in
  mkSendingData (servercurrentevent_data d) (servernameevent_data d) (servername_educount d) (counters sv).
Definition set_sending sv (d : SendingData (DB := DB)) (more : list Msg) : Services :=
  let sv := set_counters sv (sending_globals d) in
  mkServices (srv_rooms sv) (srv_timeline sv) (srv_cache sv) (srv_metadata sv) (srv_receipts sv) (tokenids sv) (threadid_userids sv)
    (senderkey_pusher sv) (aliasid_alias sv) (alias_roomid sv) d (dispatched sv ++ more) (roomid_spacehierarchy_cache sv) (admin_channel sv).

(** ** Calls *)

Definition SM (A : Type) : Type := Services → outcome RequestError A * Services.
Definition sret {A} (a : A) : SM A := λ sv, (Ok a, sv).
Definition spure {A} (o : outcome RequestError A) : SM A := λ sv, (o, sv).
Definition sfail {A} (e : RequestError) : SM A := λ sv, (Err e, sv).
Definition sbind {A B} (m : SM A) (f : A → SM B) : SM B := λ sv,
  match m sv with
  | (Ok a, sv) => f a sv
  | (Err e, sv) => (Err e, sv)
  | (Panic, sv) => (Panic, sv)
  end.
(** A read of the state, and a change of it. *)
Definition asks {A} (f : Services → A) : SM A := λ sv, (Ok (f sv), sv).
Definition changes (f : Services → Services) : SM unit := λ sv, (Ok tt, f sv).
(** The error of another service. *)
Definition as_request {E A} (o : outcome E A) : outcome RequestError A :=
  match o with Ok a => Ok a | Err _ => Err OtherError | Panic => Panic end.
Definition try_service {A} (m : SM A) : SM (option A) := λ sv,
  match m sv with
  | (Ok a, sv) => (Ok (Some a), sv)
  | (Err _, sv) => (Ok None, sv)
  | (Panic, sv) => (Panic, sv)
  end.

Definition read_service {E A} (f : Services → outcome E A) : SM A := λ sv, (as_request (f sv), sv).
(** [Result::ok] of a read. *)
Definition read_ok {E A} (f : Services → outcome E A) : SM (option A) := λ sv,
  (match f sv with Ok a => Ok (Some a) | Err _ => Ok None | Panic => Panic end, sv).
Definition in_room_tables {A} (m : RoomM (DB := DB) A) : SM A := λ sv,
  let '(r, rs) := m (room_tables sv) in (as_request r, set_room_tables sv rs).
(** The counter. *)
Definition next_number : SM Z := λ sv, let '(n, g) := next_count (counters sv) in (Ok n, set_counters sv g).
(** A call that gives the changed part of the state; what one that fails wrote first is
    not followed. *)
Definition updates {E P} (part : Services → P) (set : Services → P → Services) (f : P → outcome E P) : SM unit := λ sv,
  match f (part sv) with
  | Ok p => (Ok tt, set sv p)
  | Err _ => (Err OtherError, sv)
  | Panic => (Panic, sv)
  end.
Definition sends (f : SendingData (DB := DB) → SendingData (DB := DB) * list Msg) : SM unit := λ sv,
  let '(d, more) := f (sending_part sv) in (Ok tt, set_sending sv d more).

Fixpoint sfor {A} (f : A → SM unit) (l : list A) : SM unit :=
  match l with [] => sret tt | a :: l => sbind (f a) (λ _, sfor f l) end.
End services.
Arguments Services : clear implicits.
