(* ===== verification/TimelineAppend.v ===== *)
(** * Appending an event to the timeline

    Models [append.rs] and [redact.rs] of [src/service/rooms/timeline/] with what they call of
    the other services: the unsigned data of a state event, the references and forward
    extremities, the read marker of the sender, the event under its new position, the unread
    counts and pushes of the users, the effect of redactions, memberships and messages, the
    relations, and the application services.  What a message to the admin room does is not
    part of it. *)

From S2P Require Import Prelude Bytes PduId DbMap DbSer DbScan Short RoomVersion Event EventAuth StateRes StateCompressor RoomState StateAccessor.
From S2P Require Import AccountData Users StateCache IncomingPdu CurrentState EventHandler StateAtEvent Unsigned PduMetadata RoomUser ReadReceipts Search.
From S2P Require Import Threads Services.
From S2P Require Timeline Sending.
Import Count.

Local Open Scope Z_scope.

(** [Relation], as far as it is looked at, and the actions of a push rule. *)
Inductive Relation := Reply (in_reply_to : EventId) | Thread (event_id : EventId) | OtherRelation.
Inductive Action := Notify | Highlight | OtherAction.
#[export] Instance Action_eq_dec : EqDecision Action.
Proof. solve_decision. Defined.

Abbreviation SpaceChild := (OtherType "m.space.child") (only parsing).
Abbreviation RoomMessage := (OtherType "m.room.message") (only parsing).

(** What a push rule is matched against beside the event. *)
Record PushContext := mkPushContext {
  push_room_id : RoomId;
  push_member_count : Z;
  push_user_id : UserId;
  push_display_name : bytes;
  push_power_levels : RoomPowerLevelsEventContent;
}.

(** serde and ruma on contents, events, user ids and push rules. *)
Class AppendWire (Content Char Ruleset : Type) := {
  from_ExtractBody : Content → option (option (list Char));
  from_RelatesToEventId : Content → option EventId;
  from_RelatesTo : Content → option Relation;
  content_object : Content → option (list (string * Json));
  to_object : Pdu Content → option Object;
  redact_content : Content → RoomVersionId → EventType → option Content;
  redacted_because : Pdu Content → string;
  localpart : UserId → bytes;
  read_push_rules : bytes → option Ruleset;
  server_default : UserId → Ruleset;
  ruleset_actions : Ruleset → Json → PushContext → list Action;
  create_predecessor : Content → option (option RoomId);
  stripped_text : list Json → bytes;
  pdu_text : Pdu Content → bytes;
  json_has : Json → string → bool;
  json_text : Json → bytes;
  json_read : bytes → option Json;
  (** the type of the account data of that name *)
  invite_permission_config : string;
  ignored_users : bytes → option (list UserId);
  user_filter_level : bytes → UserId → option FilterLevel;
  read_direct : bytes → option (list (UserId * list RoomId));
  direct_json : list (UserId * list RoomId) → Json;
  alias_text : bytes → option string;
  room_id_text : bytes → option RoomId;
}.

(** The configuration of the admin room; [admin_alias] is the local part. *)
Record AdminConfig := mkAdminConfig {
  server_user : UserId;
  admin_alias : bytes;
  admins_list : list UserId;
  admins_from_room : bool;
  emergency_password_set : bool;
  admin_escape_commands : bool;
}.

(** An application service with its compiled patterns. *)
Record RegistrationInfo := mkRegistrationInfo {
  registration_id : string;
  sender_localpart : string;
  bridge_user_id : option UserId;
  users_match : string → bool;
  aliases_match : string → bool;
  rooms_match : string → bool;
}.

(** The configuration of the server, and what the schedule of its futures and its caches
    may do: [evict] drops entries of a cache, [order] and [broad] reorder. *)
Class Settings := {
  evict : gmap Z (list ShortStateInfo) → gmap Z (list ShortStateInfo);
  sha256 : bytes → bytes;
  accepted_first : bool;
  fuel : nat;
  hash_order : list Z → list Z;
  broad : ∀ A, list A → list A;
  batches : list string → list (list string);
  own_server_name : ServerName;
  user_is_local : UserId → bool;
  forget_forced_upon_leave : bool;
  ldap : bool;
  hash_password : string → option string;
  max_fetch_prev_events : Z;
  enable_msc4284_policy_servers : bool;
  policy_server_check_own_events : bool;
  appservices : list RegistrationInfo;
  admin : AdminConfig;
}.

Section append.
Context {DB : Type} `{Store DB} {C : Type} {Content Char Ruleset : Type}.
Context `{Ruma Content} `{RoomContents Content} `{EventWire Content} `{ThreadWire Content} `{RawJson} `{Unicode Char} `{AppendWire Content Char Ruleset}.
Context `{Schedule}.
Context `{Settings}.
Local Abbreviation Services := (Services DB C).
Implicit Types (sv : Services) (room_id : RoomId) (pdu : Pdu Content).
Local Notation "'let!' x := m 'in' k" := (sbind m (λ x, k))
  (at level 10, x name, m at level 200, k at level 200).

Definition user_id_parse (s : string) : option UserId := match user_id_try_from (Content := Content) s with inl u => Some u | inr _ => None end.
(** [timeline.get_pdu], by the bytes of the id. *)
Definition stored_event sv (event_id : bytes) : option (Pdu Content) :=
  match Timeline.get_pdu pdu_from_slice accepted_first (srv_timeline sv) (string_of_bytes event_id) with Ok pdu => Some pdu | _ => None end.
Definition room_event sv room_id (ty : EventType) (key : string) : option (Pdu Content) :=
  match (room_state_get evict (stored_event sv) fuel room_id ty key (room_tables sv)).1 with Ok pdu => Some pdu | _ => None end.

(** *** Memberships *)

(** [summary_stripped] of [src/service/rooms/state/mod.rs]. *)
Definition summary_stripped sv pdu room_id : list Json :=
  let cells := [(RoomCreate, ""); (RoomJoinRules, ""); (OtherType "m.room.canonical_alias", ""); (OtherType "m.room.name", "");
                (OtherType "m.room.avatar", ""); (RoomMember, sender pdu); (RoomEncryption, ""); (OtherType "m.room.topic", "")] in
  (to_format <$> omap (λ cell : EventType * string, room_event sv room_id cell.1 cell.2) cells) ++ [to_format pdu].
Definition predecessor sv room_id : option RoomId :=
  create ← room_event sv room_id RoomCreate ""; default None (create_predecessor (content create)).
Definition update_room_membership room_id (user_id : UserId) pdu (update_count : bool) : SM unit := λ sv : Services,
  updates cache_part set_cache
    (λ c, update_membership user_is_local user_server_name forget_forced_upon_leave
            "m.ignored_user_list" invite_permission_config ignored_users user_filter_level ldap hash_password
            json_has json_text json_read "m.tag" "m.direct" read_direct direct_json (predecessor sv) (λ pdu room_id, stripped_text (summary_stripped sv pdu room_id))
            pdu_text c room_id user_id pdu update_count) sv.

(** *** Unsigned data *)

(** The members a state event gets about the event it replaces. *)
Definition previous_members pdu (unsigned : list (string * Json)) (prev_state : Pdu Content) : option (list (string * Json)) :=
  prev_content ← content_object (content prev_state);
  Some (insert_member (insert_member (insert_member unsigned "prev_content" (JObject prev_content))
          "prev_sender" (JString (sender prev_state))) "replaces_state" (JString (event_id prev_state))).
Definition with_previous pdu (pdu_json : Object) : SM Object := λ sv : Services,
  match state_key pdu with
  | None => (Ok pdu_json, sv)
  | Some key =>
      match default (JObject []) (pdu_json !! "unsigned") with
      | JObject unsigned =>
          let pdu_json := <["unsigned" := JObject unsigned]> pdu_json in
          match pdu_shortstatehash (room_tables sv) (event_id pdu) with
          | Ok shortstatehash =>
              let '(prev_state, rs) := state_get evict (stored_event sv) fuel shortstatehash (type_name (kind pdu)) key (room_tables sv) in
              let sv := set_room_tables sv rs in
              match prev_state with
              | Ok prev_state =>
                  (ok_or (DatabaseError "Failed to convert prev_state to canonical JSON")
                     ((λ unsigned, <["unsigned" := JObject unsigned]> pdu_json) <$> previous_members pdu unsigned prev_state), sv)
              | Err _ => (Ok pdu_json, sv)
              | Panic => (Panic, sv)
              end
          | Err _ => (Ok pdu_json, sv)
          | Panic => (Panic, sv)
          end
      | _ => (Ok pdu_json, sv)
      end
  end.

(** *** Redaction *)

(** A call of [state.get_room_version] and of [state_accessor.user_can_redact]. *)
Definition room_version_of room_id : SM RoomVersionId := λ sv : Services, in_room_tables (get_room_version evict (stored_event sv) fuel room_id) sv.
Definition may_redact (redact_id : EventId) (sender : UserId) room_id (federation : bool) : SM bool := λ sv : Services,
  in_room_tables (user_can_redact evict (stored_event sv) fuel redact_id sender room_id federation) sv.

Definition redact_pdu (event_id : EventId) (reason : Pdu Content) (shortroomid : Z) : SM unit :=
  let! pdu_id := read_ok (λ sv : Services, Timeline.get_pdu_id (srv_timeline sv) event_id) in
  match pdu_id with
  | None => sret tt
  | Some pdu_id =>
      let! pdu := try_service (read_service (λ sv : Services, Timeline.get_pdu_from_id pdu_from_slice (srv_timeline sv) pdu_id)) in
      let! pdu := spure (ok_or (DatabaseError "PDU ID points to invalid PDU.") pdu) in
      let! _ := match from_ExtractBody (content pdu) with
                | Some (Some body) => changes (λ sv : Services, set_search sv (deindex_pdu (tokenids sv) shortroomid pdu_id body))
                | _ => sret tt
                end in
      let! room_id := spure (room_id_or_hash pdu) in
      let! room_version_id := room_version_of room_id in
      let! pdu := spure (ok_or OtherError (redact redact_content id pdu room_version_id (redacted_because reason))) in
      let! obj := spure (ok_or (DatabaseError "Failed to convert PDU to canonical JSON") (to_object pdu)) in
      updates srv_timeline set_timeline (λ d, Timeline.replace_pdu json_to_vec d pdu_id obj)
  end.
Definition redact_if_allowed (redact_id : option EventId) pdu room_id (shortroomid : Z) : SM unit :=
  match redact_id with
  | None => sret tt
  | Some redact_id =>
      let! allowed := may_redact redact_id (sender pdu) room_id false in
      if (allowed : bool) then redact_pdu redact_id pdu shortroomid else sret tt
  end.

(** *** Pushes *)

Definition own_account sv : AccountData (DB := DB) := account_of (cache_part sv).
Definition push_rules sv (user : UserId) : Ruleset :=
  match get_global read_push_rules (own_account sv) user "m.push_rules" with Ok rules => rules | _ => server_default user end.
(** [pusher.get_actions] of [src/service/pusher/mod.rs]; the count of members is an integer of JavaScript. *)
Definition get_actions sv (user : UserId) (ruleset : Ruleset) (power_levels : RoomPowerLevelsEventContent) (pdu : Json) room_id : list Action :=
  let room_joined_count := match room_joined_count (srv_cache sv) room_id with Ok n => n | _ => 1 end in
  let user_display_name := match displayname (user_tables (srv_cache sv)) user with Ok name => name | _ => localpart user end in
  ruleset_actions ruleset pdu
    (mkPushContext room_id (if bool_decide (room_joined_count ≤ Int_MAX) then room_joined_count else 0) user user_display_name power_levels).
(** [pusher.get_pushkeys]. *)
Definition get_pushkeys sv (sender : UserId) : outcome RequestError (list string) :=
  let pushkeys (l : list (outcome SerdeError Value)) := omap read_second l in
  l ← keys_prefix (STuple [SIgnore; SStr]) (senderkey_pusher sv) (VTuple [VStr (bytes_of_string sender); VInterfix]);
  Ok (pushkeys l).

(** Who is notified, and for whom the event is a highlight, among the actions of the rules. *)
Fixpoint tweaks (notify highlight : bool) (actions : list Action) : bool * bool :=
  match actions with
  | [] => (notify, highlight)
  | action :: actions =>
      let notify := notify || bool_decide (action = Notify) in
      let highlight := highlight || bool_decide (action = Highlight) in
      if notify && highlight then (notify, highlight) else tweaks notify highlight actions
  end.
Definition push_targets pdu room_id : SM (gset UserId) :=
  let! users := read_service (λ sv : Services, active_local_users_in_room user_is_local (srv_cache sv) room_id) in
  let! users := asks (λ sv : Services, filter (λ user, user ≠ sender pdu
                       ∧ user_is_ignored "m.ignored_user_list" ignored_users (own_account sv) (sender pdu) user = false) users) in
  match state_key pdu with
  | Some state_key =>
      if bool_decide (kind pdu = RoomMember) then
        let! target_user_id := spure (ok_or OtherError (user_id_parse state_key)) in
        let! active := asks (λ sv : Services, is_active_local user_is_local (user_tables (srv_cache sv)) target_user_id) in
        sret (list_to_set users ∪ (if (active : bool) then {[target_user_id]} else ∅))
      else sret (list_to_set users)
  | None => sret (list_to_set users)
  end.
Fixpoint notify_users (power_levels : RoomPowerLevelsEventContent) pdu room_id (pdu_id : RawId) (users notifies highlights : list UserId)
    : SM (list UserId * list UserId) :=
  match users with
  | [] => sret (notifies, highlights)
  | user :: users =>
      let! actions := asks (λ sv : Services, get_actions sv user (push_rules sv user) power_levels (to_format pdu) room_id) in
      let '(notify, highlight) := tweaks false false actions in
      let! pushkeys := read_service (λ sv : Services, get_pushkeys sv user) in
      let! _ := sfor (λ pushkey, sends (λ d, Sending.send_pdu_push d pdu_id user pushkey)) pushkeys in
      notify_users power_levels pdu room_id pdu_id users (if notify then notifies ++ [user] else notifies)
        (if highlight then highlights ++ [user] else highlights)
  end.

(** *** What an event does besides *)

Definition apply_kind pdu room_id (shortroomid : Z) (pdu_id : RawId) : SM unit :=
  match kind pdu with
  | RoomRedaction =>
      let! room_version_id := room_version_of room_id in
      if redacts_in_event room_version_id then redact_if_allowed (redacts pdu) pdu room_id shortroomid
      else
        let! redact_id := spure (ok_or OtherError (from_Redaction (content pdu))) in
        redact_if_allowed redact_id pdu room_id shortroomid
  | RoomMember =>
      match state_key pdu with
      | Some state_key =>
          let! target_user_id := spure (expect (user_id_parse state_key)) in
          update_room_membership room_id target_user_id pdu true
      | None => sret tt
      end
  | SpaceChild => if bool_decide (is_Some (state_key pdu)) then changes (λ sv : Services, forget_summary sv room_id) else sret tt
  | RoomMessage =>
      let! body := spure (ok_or OtherError (from_ExtractBody (content pdu))) in
      match body with
      | Some body => changes (λ sv : Services, set_search sv (index_pdu (tokenids sv) shortroomid pdu_id body))
      | None => sret tt
      end
  | _ => sret tt
  end.

(** A relation to an event that is not in the timeline is not kept. *)
Definition relate (count : Count) (event_id : EventId) : SM unit :=
  let! related_pducount := read_ok (λ sv : Services, Timeline.get_pdu_count (srv_timeline sv) event_id) in
  match related_pducount with
  | Some related_pducount => updates srv_metadata set_metadata (λ m, add_relation m count related_pducount)
  | None => sret tt
  end.
Definition thread_tables sv : Timeline.Data DB * DB := (srv_timeline sv, threadid_userids sv).
Definition relations pdu (count : Count) : SM unit :=
  let! _ := match from_RelatesToEventId (content pdu) with Some event_id => relate count event_id | None => sret tt end in
  match from_RelatesTo (content pdu) with
  | Some (Reply in_reply_to) => relate count in_reply_to
  | Some (Thread event_id) =>
      updates thread_tables (λ sv t, set_threads sv t.1 t.2)
        (λ t : Timeline.Data DB * DB, add_to_thread pdu_from_slice json_from_slice json_to_vec t.1 t.2 event_id pdu)
  | _ => sret tt
  end.

(** Whether an application service is told of the event. *)
Definition local_aliases_for_room sv room_id : outcome RequestError (list string) :=
  let aliases (l : list KeyVal) := omap (λ kv : KeyVal, alias_text kv.2) l in
  l ← stream_prefix_raw (aliasid_alias sv) (VTuple [VStr (bytes_of_string room_id); VInterfix]);
  Ok (aliases l).
Definition service_in_room room_id (a : RegistrationInfo) : SM bool := λ sv : Services,
  match appservice_in_room (srv_cache sv) room_id (registration_id a) (bridge_user_id a) (users_match a) with
  | Ok (b, c) =>
      (Ok b, set_cache sv (mkCache (counters sv) (cache_db c) (account_tables c) (user_tables c) (bannedroomids c) (disabledroomids c)
                             (appservice_in_room_cache c)))
  | Err _ => (Err OtherError, sv)
  | Panic => (Panic, sv)
  end.
Definition is_own_user pdu (a : RegistrationInfo) : bool :=
  bool_decide (kind pdu = RoomMember) && bool_decide (state_key pdu ≫= user_id_parse = Some (sender_localpart a)).
Definition matching_users pdu (a : RegistrationInfo) : bool :=
  users_match a (sender pdu)
  || bool_decide (kind pdu = RoomMember) && from_option (users_match a) false (state_key pdu).
Definition tell_appservice pdu room_id (pdu_id : RawId) (a : RegistrationInfo) : SM unit :=
  let send := sends (λ d, Sending.send_pdu_appservice d (registration_id a) pdu_id) in
  let! in_room := service_in_room room_id a in
  if (in_room : bool) then send
  else if is_own_user pdu a then send
  else
    let! aliases := read_service (λ sv : Services, local_aliases_for_room sv room_id) in
    if existsb (aliases_match a) aliases || rooms_match a room_id || matching_users pdu a then send else sret tt.

(** ** [append.rs] *)

(** Before the event has its position. *)
Definition reference_previous pdu (leaves : list EventId) room_id : SM unit :=
  let! _ := updates srv_metadata set_metadata (λ m, mark_as_referenced m room_id (prev_events pdu)) in
  λ sv : Services, in_room_tables (set_forward_extremities room_id leaves) sv.
(** The event under its position; the sender has read it. *)
Definition mark_read user_id room_id : SM unit := λ sv : Services,
  match reset_notification_counts (srv_timeline sv) (counters sv) user_id room_id with
  | Ok (d, g) => (Ok tt, set_timeline (set_counters sv g) d)
  | Err _ => (Err OtherError, sv)
  | Panic => (Panic, sv)
  end.
Definition insert_pdu pdu (pdu_json : Object) room_id (shortroomid : Z) : SM (Count * RawId) :=
  let! count1 := next_number in
  let! _ := updates receipts_part set_receipts (λ r, private_read_set r room_id (sender pdu) count1) in
  let! _ := mark_read (sender pdu) room_id in
  let! count2 := next_number in
  let pdu_id := raw_of_id (mkId shortroomid (Normal count2)) in
  let! _ := changes (λ sv : Services, set_timeline sv (Timeline.append_pdu json_to_vec Event.event_id (srv_timeline sv) pdu_id pdu pdu_json)) in
  sret (Normal count2, pdu_id).
(** After it has. *)
Definition notify pdu room_id (pdu_id : RawId) : SM unit :=
  let! pl := try_service (λ sv : Services,
    in_room_tables (room_state_get_content evict (stored_event sv) fuel from_RoomPowerLevelsEventContent room_id RoomPowerLevels EmptyString) sv) in
  let! push_target := push_targets pdu room_id in
  let! users := notify_users (default default_power_levels pl) pdu room_id pdu_id (order 51 (elements push_target)) [] [] in
  changes (λ sv : Services, set_timeline sv (Timeline.increment_notification_counts (srv_timeline sv) room_id users.1 users.2)).

Definition append_pdu pdu (pdu_json : Object) (leaves : list EventId) room_id : SM RawId :=
  let! shortroomid := try_service (read_service (λ sv : Services, get_shortroomid (shorts sv) room_id)) in
  let! shortroomid := spure (ok_or (DatabaseError "Room does not exist") shortroomid) in
  let! pdu_json := with_previous pdu pdu_json in
  let! _ := reference_previous pdu leaves room_id in
  let! ids := insert_pdu pdu pdu_json room_id shortroomid in
  let! _ := notify pdu room_id ids.2 in
  let! _ := apply_kind pdu room_id shortroomid ids.2 in
  let! _ := relations pdu ids.1 in
  let! _ := sfor (tell_appservice pdu room_id ids.2) appservices in
  sret ids.2.

(** *** Commands of [src/service/admin/mod.rs] *)

Definition resolve_local_alias sv (alias : bytes) : option RoomId := map_get (alias_roomid sv) alias ≫= room_id_text.
Definition joined sv (user_id : UserId) room_id : bool :=
  match is_joined (srv_cache sv) user_id room_id with Ok b => b | _ => false end.
Definition get_admin_room sv : option RoomId :=
  room_id ← resolve_local_alias sv (admin_alias admin);
  if joined sv (server_user admin) room_id then Some room_id else None.
Definition user_is_admin sv (user_id : UserId) : bool :=
  bool_decide (user_id = server_user admin) || bool_decide (user_id ∈ admins_list admin)
  || admins_from_room admin && from_option (joined sv user_id) false (get_admin_room sv).
Definition is_admin_room sv room_id : bool := bool_decide (get_admin_room sv = Some room_id).

Definition ADMIN_PREFIX : bytes := bytes_of_string "!admin".
Definition BACKSLASH : byte := x5c.
Fixpoint trim_start (b : byte) (l : bytes) : bytes :=
  match l with c :: l' => if bool_decide (c = b) then trim_start b l' else l | [] => [] end.
Definition is_admin_command sv pdu (body : bytes) (sent_locally : bool) : option InvocationSource :=
  if negb (user_is_admin sv (sender pdu)) then None
  else if from_option (is_admin_room sv) false (Event.room_id pdu) then
    if negb (bool_decide (starts_with body ADMIN_PREFIX) || bool_decide (starts_with body (bytes_of_string (server_user admin)))) then None
    else if bool_decide (sender pdu = server_user admin) && negb (emergency_password_set admin) then None
    else Some AdminRoom
  else
    let is_public_escape := bool_decide (starts_with body [BACKSLASH]) && bool_decide (starts_with (trim_start BACKSLASH body) ADMIN_PREFIX) in
    if negb is_public_escape then None
    else if negb (user_is_local (sender pdu)) then None
    else if negb (admin_escape_commands admin) then None
    else if negb sent_locally then None
    else Some EscapedCommand.
Definition command_with_sender (c : CommandInput) : SM unit := changes (λ sv : Services, enqueue_command sv c).

Definition run_commands pdu : SM unit :=
  if bool_decide (kind pdu = RoomMessage) then
    let! body := spure (ok_or OtherError (from_ExtractBody (content pdu))) in
    match body with
    | Some body =>
        let! source := asks (λ sv : Services, is_admin_command sv pdu (utf8_bytes body) false) in
        match source with
        | Some source => command_with_sender (mkCommandInput (utf8_bytes body) (Some (event_id pdu)) source (Some (sender pdu)))
        | None => sret tt
        end
    | None => sret tt
    end
  else sret tt.

Definition append_incoming_pdu pdu (pdu_json : Object) (new_room_leaves : list EventId) (state_ids_compressed : CompressedState)
    (soft_fail : bool) room_id : SM (option RawId) :=
  let! _ := in_room_tables (set_event_state sha256 evict fuel (event_id pdu) room_id state_ids_compressed) in
  if soft_fail then
    let! _ := updates srv_metadata set_metadata (λ m, mark_as_referenced m room_id (prev_events pdu)) in
    sret None
  else
    let! pdu_id := append_pdu pdu pdu_json new_room_leaves room_id in
    let! _ := run_commands pdu in
    sret (Some pdu_id).

(** ** [force_state] of [src/service/rooms/state/mod.rs] *)

(** The events of the new entries, and what each changes beside the room's state; the
    removed entries are not looked at. *)
Definition new_events sv (statediffnew : CompressedState) : outcome RequestError (list bytes) :=
  let ids (l : list (Z * Z)) := omap (λ e : Z * Z, match get_eventid_from_short (shorts sv) e.2 with Ok id => Some id | _ => None end) l in
  entries ← try_map (λ new, must (parse_compressed_state_event new)) (ascending statediffnew);
  Ok (ids entries).
Definition force_event room_id (event_id : bytes) : SM unit :=
  let! pdu := asks (λ sv : Services, stored_event sv event_id) in
  match pdu with
  | None => sret tt
  | Some pdu =>
      match kind pdu with
      | RoomMember =>
          match state_key pdu ≫= user_id_parse with
          | Some user_id => update_room_membership room_id user_id pdu false
          | None => sret tt
          end
      | SpaceChild => changes (λ sv : Services, forget_summary sv room_id)
      | _ => sret tt
      end
  end.
Definition force_state room_id (shortstatehash : Z) (statediffnew statediffremoved : CompressedState) : SM unit :=
  let! event_ids := read_service (λ sv : Services, new_events sv statediffnew) in
  let! _ := sfor (force_event room_id) event_ids in
  let! _ := updates cache_part set_cache (λ c, update_joined_count user_server_name c room_id) in
  λ sv : Services, in_room_tables (set_room_state room_id shortstatehash) sv.
End append.
