(* ===== verification/Promotion.v ===== *)
(** * An event on its way into the timeline

    Models [handle_incoming_pdu.rs], [handle_prev_pdu.rs], [upgrade_outlier_pdu.rs],
    [acl_check.rs] and [policy_server.rs] of [src/service/rooms/event_handler/] and
    [convert_to_outgoing_federation_event] of [src/service/sending/sender.rs]: the checks of
    an event another server sent, its previous events, and its promotion from an outlier to
    an event of the timeline.

    The services are the part of the state the event handler did not touch so far; their
    timeline is the one of the handler.  [federation_handletime], which holds the event that
    is being handled until its handler ends, is left out. *)

From S2P Require Import Prelude Bytes PduId DbMap DbSer DbScan Short RoomVersion Event EventAuth StateRes StateCompressor RoomState StateAccessor.
From S2P Require Import StateCache IncomingPdu TopoSort AuthChain CurrentState EventHandler StateAtEvent Unsigned PduMetadata Search.
From S2P Require Import Threads Services TimelineAppend.
From S2P Require Timeline.
Import Count.

Local Open Scope Z_scope.

(** Whether [acl_allow] may be trusted, and what it says. *)
Definition acl_verdict (acl_is_allowed : AclContent → ServerName → bool) (acl : option AclContent) (server_name : ServerName) : bool :=
  match acl with
  | None => true
  | Some acl =>
      bool_decide (acl_allow acl = [])
      || bool_decide ("*" ∈ acl_deny acl) && bool_decide ("*" ∈ acl_allow acl)
      || acl_is_allowed acl server_name
  end%string.

(** What policy servers answer, and how rooms name theirs: the server, and whether it has a key. *)
Class PolicyServers (Content : Type) := {
  room_policy : EventType;
  from_Policy : Content → option (option string * bool);
  server_name_parse : string → option ServerName;
  (** the recommendation, [None] if the request fails or takes too long *)
  policy_check : nat → ServerName → EventId → Object → option string;
  policy_sign : nat → ServerName → Object → option (option (gmap ServerName (gmap string string)));
}.

(** A stripped state event of an invitation; [None] is a field that cannot be read. *)
Class Invitations (Stripped : Type) := {
  read_invite : bytes → option (list Stripped);
  stripped_type : Stripped → option (option string);
  stripped_state_key : Stripped → option (option UserId);
  stripped_sender : Stripped → option (option UserId);
  stripped_membership : Stripped → option (option MembershipState);
}.

Section promotion.
Context {DB : Type} `{Store DB} {C : Type} `{LruCache C} {Content Char Ruleset Stripped : Type}.
Context `{Ruma Content} `{RoomContents Content} `{Wire} `{EventWire Content} `{World} `{StateIdsWorld}.
Context `{ThreadWire Content} `{RawJson} `{Unicode Char} `{AppendWire Content Char Ruleset} `{PolicyServers Content} `{Invitations Stripped}.
Context `{Schedule} `{Settings}.
Local Abbreviation Services := (Services DB C).
Local Abbreviation Handler := (Handler DB Services).
Local Abbreviation HM := (HM (DB := DB) (R := Services)).
Implicit Types (h : Handler) (sv : Services) (room_id : RoomId) (event_id : EventId) (pdu : Pdu Content).
Local Notation "'let!' x := m 'in' k" := (hbind m (λ x, k))
  (at level 10, x name, m at level 200, k at level 200).

(** ** Calls of the services *)

Definition services_of h : Services := set_timeline (rest_of_server h) (timeline h).
Definition in_services {A} (m : SM A) : HM A := λ h : Handler,
  let '(r, sv) := m (services_of h) in Some (r, mkHandler (srv_timeline sv) (bad_event_ratelimiter h) (interactions h) sv).
Definition ask {A} (f : Services → A) : HM A := λ h : Handler, Some (Ok (f (services_of h)), h).
Definition in_rooms_part {A} (m : RoomsM A) : HM A := with_rooms (DB := DB) srv_rooms set_rooms_part m.

(** ** [acl_check.rs] *)

Definition acl_check (server_name : ServerName) room_id : HM unit :=
  let! acl_event_content := in_services (try_service (λ sv : Services,
    in_room_tables (room_state_get_content evict (stored_event sv) fuel from_Acl room_id RoomServerAcl "") sv)) in
  if acl_verdict acl_is_allowed acl_event_content server_name then hret tt
  else hfail (Request Forbidden "Server was denied by room ACL").

(** ** [policy_server.rs] *)

Definition without (name : string) (o : list (string * Json)) : list (string * Json) := filter (λ m, m.1 ≠ name) o.
Definition convert_to_outgoing_federation_event (pdu_json : Object) : HM Object :=
  let pdu_json := match pdu_json !! "unsigned" with
                  | Some (JObject unsigned) => <["unsigned" := JObject (without "transaction_id" unsigned)]> pdu_json
                  | _ => pdu_json
                  end in
  let room : option RoomId := j ← pdu_json !! "room_id"; s ← as_str j; room_id_parse s in
  match room with
  | Some room_id =>
      let! room_version_id := in_services (try_service (room_version_of room_id)) in
      hret match room_version_id with Some V1 | Some V2 => pdu_json | _ => delete "event_id" pdu_json end
  | None => hret (delete "event_id" pdu_json)
  end.

Definition WANTED_KEY_ID : string := "ed25519:policy_server".
Definition insert_signature (signatures : Json) (via : ServerName) (sig_value : string) : option Json :=
  match signatures with
  | JObject signatures_map =>
      match member signatures_map via with
      | Some (JObject inner_map) => Some (JObject (insert_member signatures_map via (JObject (insert_member inner_map WANTED_KEY_ID (JString sig_value)))))
      | Some _ => None
      | None => Some (JObject (insert_member signatures_map via (JObject [(WANTED_KEY_ID, JString sig_value)])))
      end
  | _ => None
  end.
Definition fetch_policy_server_signature (pdu_json : Object) (via : ServerName) (outgoing : Object) : HM (bool * Object) :=
  let! response := interact (λ n, policy_sign n via outgoing) in
  let! signatures := hpure (ok_or OtherError response) in
  match signatures with
  | None => hret (false, pdu_json)
  | Some sigs =>
      hret match sigs !! via ≫= (λ keypairs, keypairs !! WANTED_KEY_ID) with
           | None => (false, pdu_json)
           | Some sig_value =>
               let signatures_entry := default (JObject []) (pdu_json !! "signatures") in
               match insert_signature signatures_entry via sig_value with
               | Some signatures => (true, <["signatures" := signatures]> pdu_json)
               | None => (false, <["signatures" := signatures_entry]> pdu_json)
               end
           end
  end.

Definition ask_policy_server pdu (pdu_json : Object) room_id (incoming : bool) : HM (bool * Object) :=
  if negb enable_msc4284_policy_servers then hret (true, pdu_json)
  else if bool_decide (kind pdu = room_policy) then hret (true, pdu_json)
  else
    let! policyserver := in_services (try_service (λ sv : Services,
      in_room_tables (room_state_get_content evict (stored_event sv) fuel from_Policy room_id room_policy "") sv)) in
    match policyserver with
    | None => hret (true, pdu_json)
    | Some (via, public_key) =>
        if policy_server_check_own_events && negb incoming && negb public_key then hret (true, pdu_json)
        else match via with
        | None => hret (true, pdu_json)
        | Some via =>
            let! via := hpure (ok_or OtherError (server_name_parse via)) in
            if bool_decide (via = "") then hret (true, pdu_json)
            else
              let! present := in_services (read_ok (λ sv : Services, server_in_room (srv_cache sv) via room_id)) in
              if negb (default false present) then hret (true, pdu_json)
              else
                let! outgoing := convert_to_outgoing_federation_event pdu_json in
                if public_key && negb incoming then fetch_policy_server_signature pdu_json via outgoing
                else
                  let! response := interact (λ n, policy_check n via (Event.event_id pdu) outgoing) in
                  let! recommendation := hpure (ok_or OtherError response) in
                  hret (bool_decide (recommendation ≠ "spam"), pdu_json)
        end
    end.

(** ** [upgrade_outlier_pdu.rs] *)

Context (origin : ServerName) (create_event : Pdu Content) (room_id : RoomId).

(** The state an event comes in: of its previous events, or else of the other server. *)
Definition state_before (depth : nat) pdu (room_version_id : RoomVersionId) : HM (gmap Z EventId) :=
  let! tl := ask srv_timeline in
  let! state :=
    (if bool_decide (length (prev_events pdu) = 1%nat)
     then in_rooms_part (state_at_incoming_degree_one evict accepted_first fuel tl pdu)
     else in_rooms_part (state_at_incoming_resolved evict hash_order broad batches accepted_first fuel tl pdu room_id room_version_id)) in
  let! state := match state with
                | None => fetch_state accepted_first origin create_event room_id srv_rooms set_rooms_part depth (Event.event_id pdu)
                | Some state => hret (Some state)
                end in
  hpure (expect state).

Definition in_state sv (state : gmap Z EventId) (k : EventType) (s : string) : option (Pdu Content) :=
  match get_shortstatekey (shorts sv) (type_name k) s with
  | Ok shortstatekey => event_id ← state !! shortstatekey; stored_event sv (bytes_of_string event_id)
  | _ => None
  end.
(** [auth_check], whose errors forbid the event. *)
Definition authorized (room_version : RoomVersion) pdu (fetch : EventType → string → option (Pdu Content)) : HM bool :=
  hpure match auth_check room_version pdu None fetch create_event with
        | Ok b => Ok b
        | Err _ => Err (Request Forbidden "Auth check failed")
        | Panic => Panic
        end.
(** Whether the event fails the checks against the current state of the room. *)
Definition soft_fails (room_version_id : RoomVersionId) (room_version : RoomVersion) pdu : HM bool :=
  let! auth_events := in_services (λ sv : Services,
    in_room_tables (get_auth_events evict (stored_event sv) fuel room_id (kind pdu) (sender pdu) (state_key pdu) (content pdu) room_version) sv) in
  let! auth_check := authorized room_version pdu (λ k s, auth_events !! (k, s)) in
  if negb auth_check then hret true
  else match redacts_id pdu room_version_id with
       | None => hret false
       | Some redact_id => let! allowed := in_services (may_redact redact_id (sender pdu) room_id true) in hret (negb allowed)
       end.
(** The forward extremities that remain, and the event. *)
Definition referenced sv event_id : bool :=
  match is_event_referenced (srv_metadata sv) room_id event_id with Ok b => b | _ => false end.
Definition next_extremities pdu : HM (list EventId) :=
  let! leaves := in_services (read_service (λ sv : Services, get_forward_extremities (room_tables sv) room_id)) in
  let! leaves := ask (λ sv : Services, filter (λ event_id, event_id ∉ prev_events pdu ∧ referenced sv event_id = false)
                                         (string_of_bytes <$> leaves)) in
  hret (broad _ leaves ++ [event_id pdu]).
(** A state event changes the current state of the room. *)
Definition derive_state pdu (room_version_id : RoomVersionId) (state_at_incoming_event : gmap Z EventId) : HM unit :=
  match state_key pdu with
  | None => hret tt
  | Some state_key =>
      let! shortstatekey := in_rooms_part (shortstatekey (kind pdu) state_key) in
      let state_after := <[shortstatekey := event_id pdu]> state_at_incoming_event in
      let! tl := ask srv_timeline in
      let! new_room_state := in_rooms_part
        (resolve_state evict hash_order broad batches accepted_first fuel tl room_id room_version_id state_after) in
      let! saved := in_services (λ sv : Services, in_room_tables (save_state sha256 evict fuel room_id new_room_state) sv) in
      in_services (force_state room_id saved.1.1 saved.1.2 saved.2)
  end.
(** What makes an event fail softly beside its authorization. *)
Definition soft_fails_later pdu (room_version_id : RoomVersionId) : HM bool :=
  let! spam :=
    (if bool_decide (state_key pdu = None) then
       let! json := hpure (expect (to_object pdu)) in
       let! answer := try_call (ask_policy_server pdu json room_id true) in
       hret (bool_decide (fst <$> answer = Some false))
     else hret false) in
  match redacts_id pdu room_version_id with
  | Some redact_id =>
      let! failed := ask (λ sv : Services, is_event_soft_failed (srv_metadata sv) redact_id) in hret (spam || failed)
  | None => hret spam
  end.

(** Steps 13 and 14: the new state of the room, and the event's place. *)
Definition place_event (room_version_id : RoomVersionId) (state_at_incoming_event : gmap Z EventId) (soft_fail : bool) pdu (val : Object)
    : HM (option RawId) :=
  let! extremities := next_extremities pdu in
  let entries := order 52 (map_to_list state_at_incoming_event) in
  let! state_ids_compressed := in_services (λ sv : Services, in_room_tables (compress_state_events entries (batches entries.*2)) sv) in
  let! _ := derive_state pdu room_version_id state_at_incoming_event in
  let! soft_fail := (if soft_fail then hret true else soft_fails_later pdu room_version_id) in
  if (soft_fail : bool) then
    let! _ := in_services (append_incoming_pdu pdu val extremities (list_to_set state_ids_compressed) true room_id) in
    let! _ := in_services (changes (λ sv : Services, set_metadata sv (mark_event_soft_failed (srv_metadata sv) (event_id pdu)))) in
    hfail (Request InvalidParam "Event has been soft failed")
  else
    in_services (append_incoming_pdu pdu val (extremities ++ [event_id pdu]) (list_to_set state_ids_compressed) false room_id).

Definition upgrade_outlier_to_timeline_pdu (depth : nat) pdu (val : Object) : HM (option RawId) :=
  let! known := read_timeline (λ d, Timeline.get_pdu_id d (event_id pdu)) in
  match known with
  | Some pduid => hret (Some pduid)
  | None =>
      let! failed := ask (λ sv : Services, is_event_soft_failed (srv_metadata sv) (event_id pdu)) in
      if (failed : bool) then hfail (Request InvalidParam "Event has been soft failed")
      else
        let! room_version_id := hpure (ok_or OtherError (get_room_version_id create_event)) in
        let! state_at_incoming_event := state_before depth pdu room_version_id in
        let! room_version := hpure (to_room_version room_version_id) in
        let! sv := ask id in
        let! auth_check := authorized room_version pdu (in_state sv state_at_incoming_event) in
        if negb auth_check then hfail (Request Forbidden "Event has failed auth check with state at the event.")
        else
          let! soft_fail := soft_fails room_version_id room_version pdu in
          place_event room_version_id state_at_incoming_event soft_fail pdu val
  end.

(** ** [handle_prev_pdu.rs] *)

Definition room_disabled sv : bool := is_disabled (disabledroomids (srv_cache sv)) room_id.
Definition handle_prev_pdu (depth : nat) (eventid_info : option (Pdu Content * Object)) (first_ts_in_room : Z) (prev_id : EventId) : HM unit :=
  let! disabled := ask room_disabled in
  if (disabled : bool) then hfail (Request Forbidden "Federaton of room is currently disabled on this server.")
  else
    let! limited := backing_off (5 * 60) (60 * 60 * 24) prev_id in
    match eventid_info with
    | None => hret tt
    | Some (pdu, json) =>
        if (limited : bool) || bool_decide (origin_server_ts pdu < first_ts_in_room) then hret tt
        else let! _ := upgrade_outlier_to_timeline_pdu depth pdu json in hret tt
    end.

(** ** [handle_incoming_pdu.rs] *)

(** Whether one of the events that came with the invitation fits. *)
Fixpoint invited_by (target_user_id sender : UserId) (pending_invite_state : list Stripped) : outcome RequestError bool :=
  match pending_invite_state with
  | [] => Ok false
  | event :: events =>
      ty ← ok_or OtherError (stripped_type event);
      if bool_decide (ty = Some "m.room.member"%string) then Ok true
      else
        key ← ok_or OtherError (stripped_state_key event);
        if bool_decide (key = Some target_user_id) then Ok true
        else
          by_ ← ok_or OtherError (stripped_sender event);
          if bool_decide (by_ = Some sender) then Ok true
          else
            membership ← ok_or OtherError (stripped_membership event);
            if bool_decide (membership = Some Invite) then Ok true else invited_by target_user_id sender events
  end.
Definition should_rescind_invite sv (content : Object) (sender : UserId) : outcome RequestError (option (Pdu Content)) :=
  pdu_event ← ok_or OtherError (from_value (<["event_id" := JString "$rescind"]> content));
  let other_room := bool_decide (Event.room_id pdu_event ≠ Some room_id) in
  let other_target := match state_key pdu_event with None => true | Some v => bool_decide (v = sender) end in
  if other_room && bool_decide (Event.sender pdu_event ≠ sender) && bool_decide (kind pdu_event ≠ RoomMember) && other_target then Ok None
  else
    key ← expect (state_key pdu_event);
    target_user_id ← ok_or OtherError (user_id_parse key);
    membership ← ok_or OtherError (from_RoomMemberEventContent (Event.content pdu_event));
    if bool_decide (membership ≠ Leave) then Ok None
    else match invite_state read_invite (srv_cache sv) target_user_id room_id with
         | Ok pending_invite_state =>
             rescinds ← invited_by target_user_id sender pending_invite_state;
             Ok (if (rescinds : bool) then Some pdu_event else None)
         | Err _ => Ok None
         | Panic => Panic
         end.

(** An event for a room this server is not in: the invitation it takes back, if it does. *)
Definition not_participating (value : Object) (sender : UserId) : HM (option RawId) :=
  let! rescinded :=
    (if bool_decide (value !! "type" ≫= as_str = Some "m.room.member"%string)
     then in_services (read_service (λ sv : Services, should_rescind_invite sv value sender)) else hret None) in
  match rescinded with
  | Some pdu =>
      let! _ := in_services (updates cache_part set_cache
        (λ c, mark_as_left user_is_local forget_forced_upon_leave c sender room_id (pdu_text pdu))) in
      hret None
  | None => hfail (Request NotFoundError "This server is not participating in that room.")
  end.

(** [first_pdu_in_room]. *)
Definition first_pdu_in_room sv : outcome RequestError (Pdu Content) :=
  let short room := match get_shortroomid (shorts sv) room with Ok n => Some n | _ => None end in
  match Timeline.try_next (Timeline.pdus pdu_from_slice short (srv_timeline sv) room_id Count.min) with
  | Ok (Some item) => Ok item.2
  | Ok None => Err (Request NotFoundError "No PDU found in room")
  | Err _ => Err OtherError
  | Panic => Panic
  end.

(** The previous events, from the oldest; one that fails is held back, and the others go on. *)
Fixpoint handle_prev_events (depth : nat) (first_ts_in_room : Z) (sorted_prev_events : list EventId) (eventid_info : EventInfo Content) : HM unit :=
  match sorted_prev_events with
  | [] => hret tt
  | prev_id :: rest =>
      let! handled := try_call (handle_prev_pdu depth (eventid_info !! prev_id) first_ts_in_room prev_id) in
      let! _ := match handled with Some _ => hret tt | None => back_off prev_id end in
      let! _ := check_running in
      handle_prev_events depth first_ts_in_room rest (delete prev_id eventid_info)
  end.
End promotion.

Section incoming.
Context {DB : Type} `{Store DB} {C : Type} `{LruCache C} {Content Char Ruleset Stripped : Type}.
Context `{Ruma Content} `{RoomContents Content} `{Wire} `{EventWire Content} `{World} `{StateIdsWorld}.
Context `{ThreadWire Content} `{RawJson} `{Unicode Char} `{AppendWire Content Char Ruleset} `{PolicyServers Content} `{Invitations Stripped}.
Context `{Schedule} `{Settings}.
Local Abbreviation Services := (Services DB C).
Local Notation "'let!' x := m 'in' k" := (hbind m (λ x, k))
  (at level 10, x name, m at level 200, k at level 200).

(** What is asked before the event is looked at: the room, and the servers in its way. *)
Definition admit_server (origin : ServerName) (room_id : RoomId) (value : Object) : HM (DB := DB) (R := Services) (UserId * bool) :=
  let! sender := hpure (ok_or (Request InvalidParam "PDU does not have a valid sender key")
                          (j ← value !! "sender"; s ← as_str j; user_id_parse s)) in
  let! meta_exists := in_services (read_service (λ sv : Services, room_exists (shorts sv) (srv_timeline sv) room_id)) in
  let! disabled := ask (room_disabled room_id) in
  let! _ := acl_check origin room_id in
  let! _ := (if bool_decide (user_server_name sender = origin) then hret tt else acl_check (user_server_name sender) room_id) in
  if (disabled : bool) then hfail (Request Forbidden "Federation of this room is disabled by this server.")
  else hret (sender, meta_exists).

(** [depth] and [rounds] are the fuel of the fetches and of the walk back. *)
Definition handle_incoming_pdu (depth rounds : nat) (origin : ServerName) (room_id : RoomId) (event_id : EventId) (value : Object)
    (is_timeline_event : bool) : HM (DB := DB) (R := Services) (option RawId) :=
  let! known := read_timeline (λ d, Timeline.get_pdu_id d event_id) in
  match known with
  | Some pdu_id => hret (Some pdu_id)
  | None =>
      if negb (pdu_fits value) then hfail (Request TooLarge "PDU is too large")
      else
        let! admitted := admit_server origin room_id value in
        let! participating := in_services (read_service (λ sv : Services, server_in_room (srv_cache sv) own_server_name room_id)) in
        if negb participating then not_participating room_id value admitted.1
        else if negb admitted.2 then hfail (Request NotFoundError "Room is unknown to this server")
        else
          let! create_event := in_services (λ sv : Services,
            in_room_tables (room_state_get evict (stored_event sv) fuel room_id RoomCreate EmptyString) sv) in
          let! checked := handle_outlier_pdu accepted_first origin create_event room_id depth event_id value false in
          let '(incoming_pdu, val) := checked in
          if negb is_timeline_event then hret None
          else
            let! first_pdu := in_services (read_service (first_pdu_in_room room_id)) in
            let first_ts_in_room := origin_server_ts first_pdu in
            let! fetched := fetch_prev accepted_first origin create_event room_id max_fetch_prev_events rounds depth first_ts_in_room
                              (prev_events incoming_pdu) in
            let! _ := handle_prev_events origin create_event room_id depth first_ts_in_room fetched.1 fetched.2 in
            upgrade_outlier_to_timeline_pdu origin create_event room_id depth incoming_pdu val
  end.
End incoming.
