(* ===== verification/TimelineAppendProps.v ===== *)
(** * What appending an event keeps and stores

    The calls that follow the insertion of an event keep it in the timeline, whatever they
    end with: an event whose effects cannot be worked out is in the timeline all the same. *)

From S2P Require Import Prelude Bytes PduId DbMap DbSer DbScan Short ShortProps RoomVersion Event EventAuth StateRes StateCompressor RoomState StateAccessor.
From S2P Require Import AccountData Users StateCache IncomingPdu CurrentState EventHandler StateAtEvent Unsigned PduMetadata RoomUser ReadReceipts Search.
From S2P Require Import Threads Services TimelineAppend.
From S2P Require Timeline Sending.
Import Count.

Local Open Scope Z_scope.

Create HintDb srv_keeps.

Section append.
Context {DB : Type} `{Store DB} {C : Type} {Content Char Ruleset : Type}.
Context `{Ruma Content} `{RoomContents Content} `{EventWire Content} `{ThreadWire Content} `{RawJson} `{Unicode Char} `{AppendWire Content Char Ruleset}.
Context `{Schedule} `{Settings}.
Local Abbreviation Services := (Services DB C).
Implicit Types (sv : Services) (room_id : RoomId) (pdu : Pdu Content).

(** ** Calls that keep the timeline *)

Definition stored_at sv (k : bytes) : Prop := is_Some (map_get (Timeline.pduid_pdu (srv_timeline sv)) k).
(** The positions of the events stay, and their rows stay where they are. *)
Definition kept sv sv' : Prop :=
  Timeline.eventid_pduid (srv_timeline sv') = Timeline.eventid_pduid (srv_timeline sv) ∧ ∀ k, stored_at sv k → stored_at sv' k.
#[export] Instance kept_preorder : PreOrder kept.
Proof. split; [by intros sv|]. intros a b c [E1 Hk1] [E2 Hk2]. split; [by rewrite E2|eauto]. Qed.
Lemma kept_timeline sv sv' : srv_timeline sv' = srv_timeline sv → kept sv sv'.
Proof. intros E. unfold kept, stored_at. rewrite E. done. Qed.

Definition keeps {A} (m : SM A) : Prop := ∀ sv, kept sv (m sv).2.

Lemma keeps_bind {A B} (m : SM A) (f : A → SM B) : keeps m → (∀ a, keeps (f a)) → keeps (sbind m f).
Proof.
  intros Hm Hf sv. specialize (Hm sv). unfold sbind. destruct (m sv) as [[a|e|] sv']; cbn in *; [|done..].
  etrans; [exact Hm|apply Hf].
Qed.
Lemma keeps_pure {A} (o : outcome RequestError A) : keeps (spure o).
Proof. done. Qed.
Lemma keeps_ret {A} (a : A) : keeps (sret a).
Proof. done. Qed.
Lemma keeps_asks {A} (f : Services → A) : keeps (asks f).
Proof. done. Qed.
Lemma keeps_read {E A} (f : Services → outcome E A) : keeps (read_service f).
Proof. done. Qed.
Lemma keeps_read_ok {E A} (f : Services → outcome E A) : keeps (read_ok f).
Proof. done. Qed.
Lemma keeps_changes (f : Services → Services) : (∀ sv, kept sv (f sv)) → keeps (changes f).
Proof. intros Hf sv. apply Hf. Qed.
Lemma keeps_try {A} (m : SM A) : keeps m → keeps (try_service m).
Proof. intros Hm sv. specialize (Hm sv). unfold try_service. by destruct (m sv) as [[]]. Qed.
Lemma keeps_in_room_tables {A} (m : RoomM (DB := DB) A) : keeps (in_room_tables m).
Proof. intros sv. unfold in_room_tables. destruct (m _). by apply kept_timeline. Qed.
(** The call may read the state it starts in. *)
Lemma keeps_at {A} (m : Services → SM A) : (∀ sv, keeps (m sv)) → keeps (λ sv, m sv sv).
Proof. intros Hm sv. apply Hm. Qed.
Lemma keeps_next : keeps next_number.
Proof. intros sv. unfold next_number. destruct (next_count _). by apply kept_timeline. Qed.
Lemma keeps_updates {E P} (part : Services → P) (set : Services → P → Services) (f : P → outcome E P) :
  (∀ sv p, f (part sv) = Ok p → kept sv (set sv p)) → keeps (updates part set f).
Proof. intros Hs sv. unfold updates. destruct (f _) eqn:Ef; [by apply Hs|done..]. Qed.
Lemma keeps_sends f : keeps (sends f).
Proof. intros sv. unfold sends. destruct (f _). by apply kept_timeline. Qed.
Lemma keeps_for {A} (f : A → SM unit) l : (∀ a, keeps (f a)) → keeps (sfor f l).
Proof. intros Hf. induction l; cbn [sfor]; [done|]. by apply keeps_bind. Qed.
Lemma keeps_if {A} (b : bool) (m m' : SM A) : keeps m → keeps m' → keeps (if b then m else m').
Proof. by destruct b. Qed.
Lemma keeps_option {A B} (o : option A) (f : A → SM B) (m : SM B) : (∀ a, keeps (f a)) → keeps m → keeps (match o with Some a => f a | None => m end).
Proof. by destruct o. Qed.

Hint Resolve keeps_bind keeps_pure keeps_ret keeps_asks keeps_read keeps_read_ok keeps_changes keeps_try keeps_in_room_tables keeps_next
  keeps_sends keeps_for keeps_if keeps_option : srv_keeps.

Lemma keeps_membership room_id user_id pdu b : keeps (update_room_membership room_id user_id pdu b).
Proof. apply (keeps_at (λ sv, updates _ _ _)). intros sv. apply keeps_updates. intros sv' c _. by apply kept_timeline. Qed.
Lemma keeps_room_version room_id : keeps (room_version_of (Content := Content) room_id).
Proof. apply (keeps_at (λ sv, in_room_tables _)). intros sv. apply keeps_in_room_tables. Qed.
Lemma keeps_may_redact e u room_id b : keeps (may_redact (Content := Content) e u room_id b).
Proof. apply (keeps_at (λ sv, in_room_tables _)). intros sv. apply keeps_in_room_tables. Qed.
Lemma replace_keeps d k obj d' :
  Timeline.replace_pdu (json_to_vec (Content := Content)) d k obj = Ok d' →
  Timeline.eventid_pduid d' = Timeline.eventid_pduid d
  ∧ ∀ x, is_Some (map_get (Timeline.pduid_pdu d) x) → is_Some (map_get (Timeline.pduid_pdu d') x).
Proof.
  unfold Timeline.replace_pdu. destruct (map_contains _ _); [|done]. intros [= <-]. cbn. split; [done|]. intros x Hx.
  destruct (decide (as_bytes k = x)) as [<-|]; [by rewrite map_get_insert_eq|by rewrite map_get_insert_ne].
Qed.
Hint Resolve keeps_membership keeps_room_version keeps_may_redact : srv_keeps.

Lemma keeps_redact e pdu srid : keeps (redact_pdu e pdu srid).
Proof.
  unfold redact_pdu. apply keeps_bind; [auto with srv_keeps|]. intros [pdu_id|]; [|auto with srv_keeps].
  repeat (apply keeps_bind; [|intros ?]); try solve [auto with srv_keeps].
  apply keeps_updates. intros sv d Hd. by eapply replace_keeps.
Qed.
Lemma keeps_redact_if o pdu room_id srid : keeps (redact_if_allowed o pdu room_id srid).
Proof. unfold redact_if_allowed. destruct o; [|auto with srv_keeps]. apply keeps_bind; [auto with srv_keeps|]. intros []; [apply keeps_redact|auto with srv_keeps]. Qed.
Hint Resolve keeps_redact_if : srv_keeps.

Lemma keeps_kind pdu room_id srid pdu_id : keeps (apply_kind pdu room_id srid pdu_id).
Proof. unfold apply_kind. destruct (kind pdu); repeat case_match; auto 8 with srv_keeps. Qed.

Lemma add_to_thread_keeps d t root event d' t' :
  add_to_thread (pdu_from_slice (Content := Content)) json_from_slice json_to_vec d t root event = Ok (d', t') →
  Timeline.eventid_pduid d' = Timeline.eventid_pduid d
  ∧ ∀ x, is_Some (map_get (Timeline.pduid_pdu d) x) → is_Some (map_get (Timeline.pduid_pdu d') x).
Proof.
  unfold add_to_thread. destruct (Timeline.get_pdu_id _ _) as [root_id| |]; [|done..].
  destruct (Timeline.get_pdu_from_id pdu_from_slice d root_id) as [p| |], (Timeline.get_pdu_json_from_id json_from_slice d root_id) as [o| |]; try done.
  destruct (with_thread _ _) as [obj|].
  - destruct (Timeline.replace_pdu _ _ _ _) eqn:Er; cbn; [|done..]. destruct (get_participants _ _); cbn; [|done..].
    intros [= <- _]. by eapply replace_keeps.
  - cbn. destruct (get_participants _ _); cbn; [|done..]. by intros [= <- _].
Qed.
Lemma keeps_relate count e : keeps (relate count e).
Proof.
  unfold relate. apply keeps_bind; [auto with srv_keeps|]. intros [c|]; [|auto with srv_keeps].
  apply keeps_updates. intros sv p _. by apply kept_timeline.
Qed.
Hint Resolve keeps_relate : srv_keeps.
Lemma keeps_relations pdu count : keeps (relations pdu count).
Proof.
  unfold relations. apply keeps_bind; [auto with srv_keeps|]. intros _. destruct (from_RelatesTo _) as [[]|]; [auto with srv_keeps| |auto with srv_keeps..].
  apply keeps_updates. intros sv [d t] Ha. by eapply add_to_thread_keeps.
Qed.

Lemma keeps_in_room room_id a : keeps (service_in_room room_id a).
Proof. intros sv. unfold service_in_room. destruct (appservice_in_room _ _ _ _ _) as [[]| |]; by apply kept_timeline. Qed.
Hint Resolve keeps_in_room : srv_keeps.
Lemma keeps_tell pdu room_id pdu_id a : keeps (tell_appservice pdu room_id pdu_id a).
Proof. unfold tell_appservice. apply keeps_bind; [auto with srv_keeps|]. intros b. repeat apply keeps_if; auto with srv_keeps. Qed.

Lemma keeps_targets pdu room_id : keeps (push_targets pdu room_id).
Proof. unfold push_targets. repeat (apply keeps_bind; [auto with srv_keeps|intros ?]). destruct (state_key _); auto 8 with srv_keeps. Qed.
Lemma keeps_users pl pdu room_id pdu_id users notifies highlights : keeps (notify_users pl pdu room_id pdu_id users notifies highlights).
Proof.
  revert notifies highlights. induction users as [|u users IH]; intros notifies highlights; cbn [notify_users]; [auto with srv_keeps|].
  apply keeps_bind; [auto with srv_keeps|]. intros actions. destruct (tweaks _ _ _). auto 6 with srv_keeps.
Qed.
Hint Resolve keeps_targets keeps_users : srv_keeps.
Lemma keeps_notify pdu room_id pdu_id : keeps (TimelineAppend.notify pdu room_id pdu_id).
Proof.
  unfold TimelineAppend.notify. apply keeps_bind.
  { apply keeps_try. apply (keeps_at (λ sv, in_room_tables _)). intros sv. apply keeps_in_room_tables. }
  intros pl. apply keeps_bind; [apply keeps_targets|]. intros users. apply keeps_bind; [apply keeps_users|]. intros us.
  by apply keeps_changes.
Qed.
Hint Resolve keeps_notify keeps_kind keeps_relations keeps_tell : srv_keeps.

(** ** Up to the insertion *)

(** Calls that put something in the cache of states at most. *)
Definition cached rs rs' : Prop :=
  ∃ c : Service (DB := DB), rs' = set_compressor rs c ∧ shortstatehash_statediff c = shortstatehash_statediff (state_compressor rs).
#[export] Instance cached_preorder : PreOrder cached.
Proof.
  split; [intros []; by eexists|]. intros rs1 rs2 rs3 (c & -> & Ec) (c' & -> & Ec'). exists c'. split; [done|]. by rewrite Ec'.
Qed.
Lemma load_statediff n c h : shortstatehash_statediff (load_shortstatehash_info (DB := DB) evict n c h).1 = shortstatehash_statediff c.
Proof.
  revert c h. induction n as [|n IH]; intros c h; cbn [load_shortstatehash_info]; destruct (stateinfo_cache c !! h); try done.
  destruct (get_statediff _ _) as [d| |]; [|done..]. destruct (parent d) as [p|]; [|done].
  specialize (IH c p). destruct (load_shortstatehash_info _ _ _ _) as [c' st]. by destruct (st ← st; _).
Qed.
Definition reads {A} (m : RoomM (DB := DB) A) : Prop := ∀ rs, cached rs (m rs).2.
Lemma reads_bind {A B} (m : RoomM (DB := DB) A) (f : A → RoomM B) : reads m → (∀ a, reads (f a)) → reads (RoomState.bind m f).
Proof.
  intros Hm Hf rs. specialize (Hm rs). unfold RoomState.bind. destruct (m rs) as [[a|e|] rs']; [|done..]. etrans; [exact Hm|apply Hf].
Qed.
Lemma reads_only {A} (f : RoomState (DB := DB) → outcome RoomError A) : reads (λ rs, (f rs, rs)).
Proof. intros rs. cbn. reflexivity. Qed.
Lemma reads_pure {A} (o : outcome RoomError A) : reads (RoomState.pure o).
Proof. apply reads_only. Qed.
Lemma reads_short {A} (f : Short DB → outcome ShortError A) : reads (read_short f).
Proof. apply (reads_only (λ rs, match f (RoomState.short rs) with Ok a => Ok a | Err e => Err (ShortFailed e) | Panic => Panic end)). Qed.
Lemma reads_try {A} (m : RoomM (DB := DB) A) : reads m → reads (try_room m).
Proof. intros Hm rs. specialize (Hm rs). unfold try_room. by destruct (m rs) as [[]]. Qed.
Lemma reads_load n h : reads (load_full_state evict n h).
Proof.
  intros rs. unfold load_full_state, load. pose proof (load_statediff n (state_compressor rs) h) as Hl.
  destruct (load_shortstatehash_info _ _ _ _) as [c st]. destruct st; by exists c.
Qed.
Lemma reads_state_get (get : bytes → option (Pdu Content)) n h ty key : reads (state_get evict get n h ty key).
Proof.
  unfold state_get, state_get_id, state_get_shortid.
  repeat (apply reads_bind; [|intros ?]); auto using reads_pure, reads_short, reads_load.
Qed.
Lemma reads_content (get : bytes → option (Pdu Content)) {T} (decode : Content → option T) n room_id ty key :
  reads (room_state_get_content evict get n decode room_id ty key).
Proof.
  unfold room_state_get_content, room_state_get.
  apply reads_bind; [apply reads_bind; [|intros ?; apply reads_state_get]|intros ?; apply reads_pure].
  apply (reads_only (λ rs, match get_room_shortstatehash rs room_id with Ok h => Ok h | Err e => Err (ShortFailed e) | Panic => Panic end)).
Qed.

(** The services but for what is in the cache. *)
Definition same_but_cache sv sv' : Prop := ∃ rs, cached (room_tables sv) rs ∧ sv' = set_room_tables sv rs.
Lemma room_tables_id sv : set_room_tables sv (room_tables sv) = sv.
Proof. by destruct sv as [[]]. Qed.
#[export] Instance same_but_cache_preorder : PreOrder same_but_cache.
Proof.
  split; [intros sv; exists (room_tables sv); split; [done|by rewrite room_tables_id]|].
  intros sv1 sv2 sv3 (rs & Hrs & ->) (rs' & Hrs' & ->). exists rs'. split; [by etrans|done].
Qed.
Lemma in_room_tables_reads {A} (m : RoomM (DB := DB) A) sv : reads m → same_but_cache sv (in_room_tables m sv).2.
Proof. intros Hm. specialize (Hm (room_tables sv)). unfold in_room_tables. destruct (m _) as [r rs]. by exists rs. Qed.

(** Calls that leave the numbers and the timeline alone. *)
Definition same sv sv' : Prop := shorts sv' = shorts sv ∧ srv_timeline sv' = srv_timeline sv.
Lemma with_previous_same pdu json sv : same sv (with_previous pdu json sv).2.
Proof.
  unfold with_previous. destruct (state_key pdu) as [key|]; [|done]. destruct (default _ _); try done.
  destruct (pdu_shortstatehash _ _) as [hash| |]; [|done..].
  pose proof (reads_state_get (stored_event sv) fuel hash (type_name (kind pdu)) key (room_tables sv)) as (c & Hs & _).
  destruct (state_get _ _ _ _ _ _ _) as [[prev| |] rs]; cbn in Hs; subst rs; by split.
Qed.

Lemma mark_all_total (m : DB) room_id ids : ∃ m', mark_all m room_id ids = Ok m'.
Proof.
  revert m. induction ids as [|e ids IH]; intros m; cbn [mark_all]; [eauto|].
  unfold put_raw, bput_raw. rewrite serialize_pair. apply IH.
Qed.
Lemma put_leaves_total (m : DB) room_id ids : ∃ m', put_leaves m room_id ids = Ok m'.
Proof.
  revert m. induction ids as [|e ids IH]; intros m; cbn [put_leaves]; [eauto|].
  unfold put_raw, bput_raw. change (VTuple _) with (pair_value room_id e). rewrite serialize_pair. apply IH.
Qed.
Lemma reference_previous_total pdu leaves room_id sv : ∃ sv', reference_previous pdu leaves room_id sv = (Ok tt, sv') ∧ same sv sv'.
Proof.
  unfold reference_previous, sbind, updates, mark_as_referenced.
  destruct (mark_all_total (referencedevents (srv_metadata sv)) room_id (prev_events pdu)) as (m & ->). cbn.
  unfold in_room_tables, set_forward_extremities, leaves_prefix. rewrite serialize_interfix. cbn.
  destruct (put_leaves_total (foldl (λ m (kv : KeyVal), map_remove m kv.1) (roomid_pduleaves (room_tables sv))
    (raw_stream_prefix (roomid_pduleaves (room_tables sv)) (bytes_of_string room_id ++ [SEP]))) room_id leaves) as (m' & Em).
  unfold room_tables in *. cbn. rewrite Em. by eexists.
Qed.

(** The counter after a number of increments. *)
Lemma next_number_spec sv c :
  counter (counters sv) = c → 0 ≤ c < u64_max →
  ∃ sv', next_number sv = (Ok (c + 1), sv') ∧ counter (counters sv') = c + 1 ∧ srv_timeline sv' = srv_timeline sv
    ∧ roomid_shortroomid (shorts sv') = roomid_shortroomid (shorts sv).
Proof.
  intros <- Hc. unfold next_number. rewrite next_count_spec by (unfold is_u64, u64_max in *; lia). by eexists.
Qed.
Lemma mark_received_spec user_id room_id n sv c :
  counter (counters sv) = c → 0 ≤ c < u64_max →
  ∃ sv', updates receipts_part set_receipts (λ r, private_read_set r room_id user_id n) sv = (Ok tt, sv')
    ∧ counter (counters sv') = c + 1 ∧ srv_timeline sv' = srv_timeline sv.
Proof.
  intros <- Hc. unfold updates, private_read_set. cbn [receipts_part receipt_globals].
  rewrite next_count_spec by (unfold is_u64, u64_max in *; lia). cbv beta iota zeta. rewrite !bput_pair_u64. cbn [mbind outcome_bind].
  by eexists.
Qed.
Lemma mark_read_spec user_id room_id sv c :
  counter (counters sv) = c → 0 ≤ c < u64_max → ∃ sv', mark_read user_id room_id sv = (Ok tt, sv') ∧ counter (counters sv') = c + 1.
Proof.
  intros <- Hc. unfold mark_read, reset_notification_counts. repeat (rewrite !bput_pair_u64; cbn [mbind outcome_bind]). rewrite next_count_spec by (unfold is_u64, u64_max in *; lia). by eexists.
Qed.

Lemma sbind_Ok {A B} (m : SM A) (f : A → SM B) sv sv' (a : A) : m sv = (Ok a, sv') → sbind m f sv = f a (sv' : Services).
Proof. intros E. unfold sbind. by rewrite E. Qed.

(** Four numbers are taken; the event has the last. *)
Lemma insert_pdu_spec pdu json room_id srid sv c :
  counter (counters sv) = c → 0 ≤ c → c + 4 ≤ u64_max →
  let id := raw_of_id (mkId srid (Normal (c + 4))) in
  ∃ d sv', insert_pdu pdu json room_id srid sv = (Ok (Normal (c + 4), id), sv')
    ∧ srv_timeline sv' = Timeline.append_pdu json_to_vec Event.event_id d id pdu json.
Proof.
  intros Hc Hlo Hhi id. unfold insert_pdu, sbind.
  destruct (next_number_spec sv c) as (sv1 & -> & Hc1 & _ & _); [done|lia|].
  destruct (mark_received_spec (sender pdu) room_id (c + 1) sv1 (c + 1)) as (sv2 & -> & Hc2 & _); [done|lia|].
  destruct (mark_read_spec (sender pdu) room_id sv2 (c + 1 + 1)) as (sv3 & -> & Hc3); [done|lia|].
  destruct (next_number_spec sv3 (c + 1 + 1 + 1)) as (sv4 & -> & _); [done|lia|].
  replace (c + 1 + 1 + 1 + 1) with (c + 4) by lia. by eexists _, _.
Qed.

Definition in_timeline sv (event_id : EventId) (id : RawId) : Prop :=
  Timeline.get_pdu_id (srv_timeline sv) event_id = Ok id ∧ stored_at sv (as_bytes id).
Lemma kept_in_timeline sv sv' e id : kept sv sv' → in_timeline sv e id → in_timeline sv' e id.
Proof. intros [E Hk] [Hi Hs]. split; [|by apply Hk]. unfold Timeline.get_pdu_id in *. by rewrite E. Qed.
Lemma appended_in_timeline sv d id pdu json :
  srv_timeline sv = Timeline.append_pdu json_to_vec Event.event_id d (raw_of_id id) pdu json → in_timeline sv (event_id pdu) (raw_of_id id).
Proof.
  intros E. unfold in_timeline, stored_at, Timeline.get_pdu_id. rewrite E. cbn.
  rewrite !map_get_insert_eq, raw_of_slice_id. split; [done|by eexists].
Qed.

(** The calls after the insertion. *)
Definition after_insertion pdu room_id (srid : Z) (ids : Count * RawId) : SM (DB := DB) (C := C) RawId :=
  sbind (TimelineAppend.notify pdu room_id ids.2) (λ _, sbind (apply_kind pdu room_id srid ids.2) (λ _,
    sbind (relations pdu ids.1) (λ _, sbind (sfor (tell_appservice pdu room_id ids.2) appservices) (λ _, sret ids.2)))).
Lemma keeps_after pdu room_id srid ids : keeps (after_insertion pdu room_id srid ids).
Proof. unfold after_insertion. repeat (apply keeps_bind; [auto with srv_keeps|intros _]). auto with srv_keeps. Qed.
Lemma after_insertion_id pdu room_id srid ids sv id : (after_insertion pdu room_id srid ids sv).1 = Ok id → id = ids.2.
Proof. unfold after_insertion, sbind. repeat case_match; cbn; by intros [=]. Qed.

(** C6: an event of a known room whose previous state can be read is in the timeline under
    the number four past the counter once [append_pdu] ends, whether it returns that position or an error: the errors of
    memberships, redactions, contents and threads come after the event is stored. *)
Theorem append_pdu_stores pdu json leaves room_id sv srid json' sv1 c :
  get_shortroomid (shorts sv) room_id = Ok srid →
  with_previous pdu json sv = (Ok json', sv1) →
  counter (counters sv) = c → 0 ≤ c → c + 4 ≤ u64_max →
  let id := raw_of_id (mkId srid (Normal (c + 4))) in
  in_timeline (append_pdu pdu json leaves room_id sv).2 (event_id pdu) id
  ∧ ∀ id', (append_pdu pdu json leaves room_id sv).1 = Ok id' → id' = id.
Proof.
  intros Hroom Hprev Hc Hlo Hhi id. pose proof (with_previous_same pdu json sv) as [Hs _]. rewrite Hprev in Hs. cbn in Hs.
  destruct (reference_previous_total pdu leaves room_id sv1) as (sv2 & Href & Hs2 & _).
  assert (counter (counters sv2) = c) as Hc2 by (unfold counters in *; by rewrite Hs2, Hs).
  destruct (insert_pdu_spec pdu json' room_id srid sv2 c Hc2 Hlo Hhi) as (d & sv3 & Hins & Ht).
  assert (append_pdu pdu json leaves room_id sv = after_insertion pdu room_id srid (Normal (c + 4), id) sv3) as ->.
  { unfold append_pdu. rewrite (sbind_Ok _ _ sv sv (Some srid)) by (unfold try_service, read_service; by rewrite Hroom).
    rewrite (sbind_Ok _ _ sv sv srid) by done. rewrite (sbind_Ok _ _ sv sv1 json') by done. rewrite (sbind_Ok _ _ sv1 sv2 tt) by done.
    by rewrite (sbind_Ok _ _ sv2 sv3 (Normal (c + 4), id)) by done. }
  split.
  - eapply kept_in_timeline; [apply keeps_after|]. by eapply appended_in_timeline.
  - intros id' E. by apply after_insertion_id in E.
Qed.

(** *** The positions of other events *)

(** Only the event [e] may have got a position. *)
Definition only (e : EventId) sv sv' : Prop :=
  ∀ e', e' ≠ e → Timeline.get_pdu_id (srv_timeline sv') e' = Timeline.get_pdu_id (srv_timeline sv) e'.
#[export] Instance only_preorder e : PreOrder (only e).
Proof. split; [by intros sv e'|]. intros a b c E1 E2 e' Hne. by rewrite E2, E1. Qed.
Lemma kept_only e sv sv' : kept sv sv' → only e sv sv'.
Proof. intros [E _] e' _. unfold Timeline.get_pdu_id. by rewrite E. Qed.
Definition touches {A} (e : EventId) (m : SM A) : Prop := ∀ sv, only e sv (m sv).2.
Lemma keeps_touches {A} e (m : SM A) : keeps m → touches e m.
Proof. intros Hm sv. by apply kept_only. Qed.
Lemma touches_bind {A B} e (m : SM A) (f : A → SM B) : touches e m → (∀ a, touches e (f a)) → touches e (sbind m f).
Proof.
  intros Hm Hf sv. specialize (Hm sv). unfold sbind. destruct (m sv) as [[a|x|] sv']; cbn in *; [|done..].
  etrans; [exact Hm|apply Hf].
Qed.

Lemma keeps_with_previous pdu json : keeps (with_previous pdu json).
Proof. intros sv. apply kept_timeline. by destruct (with_previous_same pdu json sv). Qed.
Lemma keeps_reference pdu leaves room_id : keeps (reference_previous pdu leaves room_id).
Proof. intros sv. apply kept_timeline. destruct (reference_previous_total pdu leaves room_id sv) as (sv' & E & _ & Ht). by rewrite E. Qed.
Lemma keeps_mark_read user_id room_id : keeps (mark_read user_id room_id).
Proof.
  intros sv. unfold mark_read. destruct (reset_notification_counts _ _ _ _) as [[d g]| |] eqn:Er; [|done..].
  unfold reset_notification_counts in Er. rewrite !bput_pair_u64 in Er. cbn [mbind outcome_bind] in Er.
  destruct (next_count _). rewrite bput_pair_u64 in Er. injection Er as <- _. by split.
Qed.
Lemma touches_insert pdu json room_id srid : touches (event_id pdu) (insert_pdu pdu json room_id srid).
Proof.
  unfold insert_pdu. apply touches_bind; [apply keeps_touches, keeps_next|]. intros c1.
  apply touches_bind; [apply keeps_touches, keeps_updates; intros sv p _; by apply kept_timeline|]. intros _.
  apply touches_bind; [apply keeps_touches, keeps_mark_read|]. intros _.
  apply touches_bind; [apply keeps_touches, keeps_next|]. intros c2.
  apply touches_bind; [|intros _ sv; reflexivity]. intros sv e' Hne. unfold Timeline.get_pdu_id. cbn.
  rewrite map_get_insert_ne; [done|]. intros ?%Bytes.bytes_of_string_inj. congruence.
Qed.
Lemma touches_append pdu json leaves room_id : touches (event_id pdu) (append_pdu pdu json leaves room_id).
Proof.
  unfold append_pdu. apply touches_bind; [apply keeps_touches; auto with srv_keeps|]. intros o.
  apply touches_bind; [apply keeps_touches; auto with srv_keeps|]. intros srid.
  apply touches_bind; [apply keeps_touches, keeps_with_previous|]. intros json'.
  apply touches_bind; [apply keeps_touches, keeps_reference|]. intros _.
  apply touches_bind; [apply touches_insert|]. intros ids. apply keeps_touches, keeps_after.
Qed.
Lemma keeps_commands pdu : keeps (run_commands pdu).
Proof.
  unfold run_commands. destruct (bool_decide _); [|done]. apply keeps_bind; [done|]. intros [body|]; [|done].
  apply keeps_bind; [done|]. by intros [source|].
Qed.
Lemma touches_append_incoming pdu json leaves X b room_id : touches (event_id pdu) (append_incoming_pdu pdu json leaves X b room_id).
Proof.
  unfold append_incoming_pdu. apply touches_bind; [apply keeps_touches, keeps_in_room_tables|]. intros _. destruct b.
  - apply keeps_touches. apply keeps_bind; [|done]. apply keeps_updates. intros sv p _. by apply kept_timeline.
  - apply touches_bind; [apply touches_append|]. intros id. apply keeps_touches. apply keeps_bind; [apply keeps_commands|done].
Qed.
Lemma keeps_append_soft pdu json leaves X room_id : keeps (append_incoming_pdu pdu json leaves X true room_id).
Proof.
  unfold append_incoming_pdu. apply keeps_bind; [apply keeps_in_room_tables|]. intros _.
  apply keeps_bind; [|done]. apply keeps_updates. intros sv p _. by apply kept_timeline.
Qed.
Lemma keeps_force_state room_id hash new gone : keeps (force_state room_id hash new gone).
Proof.
  unfold force_state. apply keeps_bind; [done|]. intros ids. apply keeps_bind.
  { apply keeps_for. intros id. unfold force_event. apply keeps_bind; [done|]. intros [pdu|]; [|done].
    destruct (kind pdu); try done.
    - destruct (state_key pdu ≫= user_id_parse); [apply keeps_membership|apply keeps_ret].
    - by repeat case_match. }
  intros _. apply keeps_bind; [apply keeps_updates; intros sv p _; by apply kept_timeline|]. intros _. apply keeps_in_room_tables.
Qed.

(** ** Events that fail softly *)

(** Calls that leave the current states of rooms and the forward extremities alone. *)
Definition rooms_stay rs rs' : Prop := roomid_shortstatehash rs' = roomid_shortstatehash (rs : RoomState (DB := DB)) ∧ roomid_pduleaves rs' = roomid_pduleaves rs.
#[export] Instance rooms_stay_preorder : PreOrder rooms_stay.
Proof. split; [by intros rs|]. intros a b c [E1 E2] [E3 E4]. split; congruence. Qed.
Definition stays {A} (m : RoomM (DB := DB) A) : Prop := ∀ rs, rooms_stay rs (m rs).2.
Lemma stays_bind {A B} (m : RoomM (DB := DB) A) (f : A → RoomM B) : stays m → (∀ a, stays (f a)) → stays (RoomState.bind m f).
Proof.
  intros Hm Hf rs. specialize (Hm rs). unfold RoomState.bind. destruct (m rs) as [[a|e|] rs']; [|done..]. etrans; [exact Hm|apply Hf].
Qed.
Lemma stays_lift {A} (f : Short DB → outcome ShortError (A * Short DB)) : stays (lift_short f).
Proof. intros rs. unfold lift_short. by destruct (f _) as [[]| |]. Qed.
Lemma set_event_state_stays n e room_id X : stays (set_event_state (DB := DB) sha256 evict n e room_id X).
Proof.
  unfold set_event_state. apply stays_bind; [apply stays_lift|]. intros short. apply stays_bind.
  { intros rs. unfold room_shortstatehash. by destruct (get_room_shortstatehash _ _). }
  intros previous. apply stays_bind; [apply stays_lift|]. intros [hash old]. apply stays_bind.
  - destruct old; [done|]. apply stays_bind.
    { destruct previous; [|done]. intros rs. unfold current_parents, load. by destruct (load_shortstatehash_info _ _ _ _). }
    intros parents. destruct (state_diff _ _). intros rs. unfold save_diff. by destruct (save_state_from_diff _ _ _ _ _ _).
  - intros _. apply stays_bind; [|done]. intros rs. unfold put_event_state. by destruct (aput _ _ _ _ _).
Qed.
Lemma append_soft_failed pdu json leaves X room_id sv r sv' :
  append_incoming_pdu pdu json leaves X true room_id sv = (r, sv') →
  (∀ id, r ≠ Ok (Some id)) ∧ srv_timeline sv' = srv_timeline sv ∧ rooms_stay (room_tables sv) (room_tables sv').
Proof.
  unfold append_incoming_pdu, sbind, in_room_tables. pose proof (set_event_state_stays fuel (event_id pdu) room_id X (room_tables sv)) as Hs.
  destruct (set_event_state _ _ _ _ _ _ _) as [[h| |] rs]; cbn -[updates]; [|by intros [= <- <-]..].
  unfold updates. destruct (mark_as_referenced _ _ _); by intros [= <- <-].
Qed.
End append.
