(* ===== verification/PromotionProps.v ===== *)
(** * What an event passes on its way into the timeline

    An event that becomes one of the timeline passed its authorization twice: against the
    state before it and against the current state of its room; and one that is accepted from
    another server passed the checks of the room and the servers before that.  An event that
    fails softly stays out of the timeline and the forward extremities, but not out of the
    state of its room.  An invitation that is taken back stays.

    * A room of one server and an event that comes to it

    A room is built by appending its first events; then another server sends a message.
    Inputs at which the theorems about appending and promoting events apply. *)

From S2P Require Import Prelude Bytes PduId DbMap DbSer DbScan Short ShortProps RoomVersion Event EventAuth AuthDemo DemoText StateRes StateCompressor RoomState StateAccessor.
From S2P Require Import RoomStateDemo AuthChain AuthChainProps AccountData Users StateCache StateCacheProps IncomingPdu TopoSort CurrentState EventHandler EventHandlerProps EventHandlerDemo.
From S2P Require Import StateAtEvent Unsigned PduMetadata ReadReceipts Search Threads Services TimelineAppend TimelineAppendProps Promotion.
From S2P Require Timeline Sending.

Local Open Scope Z_scope.

Section promotion.
Context {DB : Type} `{Store DB} {C : Type} `{LruCache C} {Content Char Ruleset Stripped : Type}.
Context `{Ruma Content} `{RoomContents Content} `{Wire} `{EventWire Content} `{World} `{StateIdsWorld}.
Context `{ThreadWire Content} `{RawJson} `{Unicode Char} `{AppendWire Content Char Ruleset} `{PolicyServers Content} `{Invitations Stripped}.
Context `{Schedule} `{Settings}.
Local Abbreviation Services := (Services DB C).
Local Abbreviation Handler := (Handler DB Services).
Local Abbreviation HM := (HM (DB := DB) (R := Services)).
Implicit Types (h : Handler) (sv : Services) (event_id : EventId) (pdu : Pdu Content).

(** ** Calls that end well *)

Lemma hfail_inv {A} e h (a : A) h' : hfail e h ≠ Some (Ok a, h').
Proof. done. Qed.
Lemma ask_inv {A} (f : Services → A) h a h' : ask f h = Some (Ok a, h') → a = f (services_of h) ∧ h' = h.
Proof. unfold ask. by intros [= -> ->]. Qed.
Lemma sbind_inv {A B} (m : SM A) (f : A → SM B) sv b sv' :
  sbind m f sv = (Ok b, sv') → ∃ a sv1, m sv = (Ok a, sv1 : Services) ∧ f a sv1 = (Ok b, sv').
Proof. unfold sbind. destruct (m sv) as [[a|e|] sv1]; [|done..]. eauto. Qed.

(** ** Appending *)

Lemma append_pdu_ok pdu json leaves room_id sv id sv' :
  append_pdu pdu json leaves room_id sv = (Ok id, sv') → in_timeline sv' (event_id pdu) id.
Proof.
  intros (srid & ? & _ & (n & sv1 & _ & (json' & sv2 & _ & (? & sv3 & _ & (ids & sv4 & Hins & Ha)%sbind_inv)%sbind_inv)%sbind_inv)%sbind_inv)%sbind_inv.
  change (after_insertion pdu room_id n ids sv4 = (Ok id, sv')) in Ha.
  assert (id = ids.2) as -> by (apply (after_insertion_id pdu room_id n ids sv4); by rewrite Ha).
  pose proof (keeps_after pdu room_id n ids sv4) as Hk. rewrite Ha in Hk. eapply kept_in_timeline; [exact Hk|].
  unfold insert_pdu in Hins.
  apply sbind_inv in Hins as (c1 & s1 & _ & (? & s2 & _ & (? & s3 & _ & (c2 & s4 & _ & (? & s5 & Hch & Hr)%sbind_inv)%sbind_inv)%sbind_inv)%sbind_inv).
  injection Hr as <- <-. injection Hch as _ <-. exact (appended_in_timeline (set_timeline s4 _) (srv_timeline s4) _ pdu json' eq_refl).
Qed.
Lemma append_incoming_ok pdu json leaves X room_id sv o sv' :
  append_incoming_pdu pdu json leaves X false room_id sv = (Ok o, sv') → ∃ id, o = Some id ∧ in_timeline sv' (event_id pdu) id.
Proof.
  intros (? & sv1 & _ & (id & sv2 & Ha%append_pdu_ok & (? & sv3 & Hr & Ho)%sbind_inv)%sbind_inv)%sbind_inv. injection Ho as <- <-.
  exists id. split; [done|]. pose proof (keeps_commands pdu sv2) as Hk. rewrite Hr in Hk. by eapply kept_in_timeline.
Qed.

(** ** Promotion *)

Context (origin : ServerName) (create_event : Pdu Content) (room_id : RoomId).

Lemma authorized_inv ver pdu fetch h b h' :
  authorized create_event ver pdu fetch h = Some (Ok b, h') → auth_check ver pdu None fetch create_event = Ok b ∧ h' = h.
Proof. intros [E ->]%hpure_inv. by destruct (auth_check _ _ _ _ _); try injection E as ->. Qed.
Lemma in_services_inv {A} (m : SM A) h a h' :
  in_services m h = Some (Ok a, h') →
  m (services_of h) = (Ok a, rest_of_server h') ∧ timeline h' = srv_timeline (rest_of_server h')
  ∧ interactions h' = interactions h ∧ bad_event_ratelimiter h' = bad_event_ratelimiter h.
Proof. unfold in_services. destruct (m _) as [r sv]. by intros [= -> <-]. Qed.
Lemma read_timeline_inv {A} (f : Timeline.Data DB → outcome Timeline.TimelineError A) h o h' :
  read_timeline f h = Some (Ok o, h') → h' = h ∧ match o with Some a => f (timeline h) = Ok a | None => ∀ a, f (timeline h) ≠ Ok a end.
Proof. unfold read_timeline. destruct (f _); intros [= <- <-]; done. Qed.

Lemma soft_fails_inv v ver pdu h h' :
  soft_fails create_event room_id v ver pdu h = Some (Ok false, h') →
  ∃ auth_events h1,
    in_services (λ sv : Services, in_room_tables (get_auth_events evict (stored_event sv) fuel room_id (kind pdu) (sender pdu) (state_key pdu) (content pdu) ver) sv) h
      = Some (Ok auth_events, h1)
    ∧ auth_check ver pdu None (λ k s, auth_events !! (k, s)) create_event = Ok true
    ∧ match redacts_id pdu v with
      | Some redact_id => in_services (may_redact redact_id (sender pdu) room_id true) h1 = Some (Ok true, h')
      | None => h' = h1
      end.
Proof.
  intros (auth_events & h1 & Hev & (b & h2 & [Hb ->]%authorized_inv & Hr)%hbind_inv)%hbind_inv.
  exists auth_events, h1. destruct b; [|done]. split_and!; [done..|]. cbn in Hr. destruct (redacts_id pdu v) as [redact_id|].
  - apply hbind_inv in Hr as (allowed & h3 & Ha & Hret). injection Hret as Hn <-. by destruct allowed.
  - by injection Hr as <-.
Qed.

(** The event gets its place: nothing failed on the way, and it does not fail softly in the end. *)
Definition placeable pdu (v : RoomVersionId) (state : gmap Z EventId) h : Prop :=
  ∃ extremities h1 ids h2 h3 h4,
    next_extremities room_id pdu h = Some (Ok extremities, h1)
    ∧ in_services (λ sv : Services, in_room_tables (compress_state_events (order 52 (map_to_list state)) (batches (order 52 (map_to_list state)).*2)) sv) h1
      = Some (Ok ids, h2)
    ∧ derive_state room_id pdu v state h2 = Some (Ok tt, h3)
    ∧ soft_fails_later room_id pdu v h3 = Some (Ok false, h4).

(** What lets an event into the timeline when it is promoted by the handler [h]. *)
Definition cleared (depth : nat) pdu h : Prop :=
  ∃ v ver state h1 auth_events h2 h3,
    is_event_soft_failed (srv_metadata (services_of h)) (event_id pdu) = false
    ∧ get_room_version_id create_event = Some v ∧ RoomVersion_new v = Ok ver
    ∧ state_before origin create_event room_id depth pdu v h = Some (Ok state, h1)
    ∧ auth_check ver pdu None (in_state (services_of h1) state) create_event = Ok true
    ∧ in_services (λ sv : Services, in_room_tables (get_auth_events evict (stored_event sv) fuel room_id (kind pdu) (sender pdu) (state_key pdu) (content pdu) ver) sv) h1
      = Some (Ok auth_events, h2)
    ∧ auth_check ver pdu None (λ k s, auth_events !! (k, s)) create_event = Ok true
    ∧ match redacts_id pdu v with
      | Some redact_id => in_services (may_redact redact_id (sender pdu) room_id true) h2 = Some (Ok true, h3)
      | None => h3 = h2
      end
    ∧ placeable pdu v state h3.
Definition placed h (event_id : EventId) (id : RawId) : Prop :=
  in_timeline (rest_of_server h) event_id id ∧ timeline h = srv_timeline (rest_of_server h).

(** *** Calls that give no event a position *)

Lemma still_services {A} (m : SM (DB := DB) (C := C) A) : keeps m → still (in_services m).
Proof.
  intros Hm h r h'. unfold in_services. specialize (Hm (services_of h)). destruct (m _) as [r' sv]. intros [= _ <-].
  by destruct Hm as [E _].
Qed.
Lemma still_ask {A} (f : Services → A) : still (ask (C := C) f).
Proof. by intros h r h' [= <- <-]. Qed.
Lemma still_rooms {A} (m : RoomsM (DB := DB) (C := C) A) : still (in_rooms_part m).
Proof. intros h r h'. unfold in_rooms_part, with_rooms. destruct (m _). by intros [= _ <-]. Qed.
Lemma still_authorized ver pdu fetch : still (DB := DB) (R := Services) (authorized create_event ver pdu fetch).
Proof. apply still_pure. Qed.
Lemma keeps_reading {A} (m : Services → RoomM (DB := DB) A) : keeps (λ sv : Services, in_room_tables (m sv) sv).
Proof. apply (keeps_at (λ sv : Services, in_room_tables (m sv))). intros sv. apply keeps_in_room_tables. Qed.

Lemma still_state_before depth pdu v : still (DB := DB) (R := Services) (state_before origin create_event room_id depth pdu v).
Proof.
  unfold state_before. apply still_bind; [apply still_ask|]. intros tl. apply still_bind; [apply still_if; apply still_rooms|].
  intros o. apply still_bind; [|intros o'; apply still_pure]. destruct o; [apply still_ret|].
  unfold fetch_state. apply still_bind; [apply still_interact|]. intros res. apply still_bind; [apply still_pure|]. intros ids.
  apply still_bind; [apply still_fetch_outliers|]. intros vec. apply still_bind.
  - generalize (∅ : gmap Z EventId). induction vec.*1 as [|p l IH]; intros m; cbn; [apply still_ret|].
    apply still_bind; [apply still_pure|]. intros key. apply still_bind; [apply still_rooms|]. intros k.
    destruct (m !! k); [apply still_fail|apply IH].
  - intros state. apply still_bind; [apply still_rooms|]. intros k. apply still_if; [apply still_ret|apply still_fail].
Qed.
Lemma still_soft_fails v ver pdu : still (DB := DB) (R := Services) (soft_fails create_event room_id v ver pdu).
Proof.
  unfold soft_fails. apply still_bind; [apply still_services, keeps_reading|]. intros ev.
  apply still_bind; [apply still_authorized|]. intros b. apply still_if; [apply still_ret|]. destruct (redacts_id pdu v); [|apply still_ret].
  apply still_bind; [apply still_services, keeps_may_redact|]. intros a. apply still_ret.
Qed.
Lemma still_next_extremities pdu : still (DB := DB) (R := Services) (next_extremities room_id pdu).
Proof.
  unfold next_extremities. apply still_bind; [by apply still_services|]. intros l.
  apply still_bind; [apply still_ask|]. intros l'. apply still_ret.
Qed.
Lemma still_derive pdu v state : still (DB := DB) (R := Services) (derive_state room_id pdu v state).
Proof.
  unfold derive_state. destruct (state_key pdu); [|apply still_ret]. apply still_bind; [apply still_rooms|]. intros k.
  apply still_bind; [apply still_ask|]. intros tl. apply still_bind; [apply still_rooms|]. intros X.
  apply still_bind; [apply still_services, keeps_in_room_tables|]. intros saved. apply still_services, keeps_force_state.
Qed.
Lemma still_policy pdu json b : still (DB := DB) (R := Services) (ask_policy_server pdu json room_id b).
Proof.
  unfold ask_policy_server. repeat (apply still_if; [apply still_ret|]).
  apply still_bind; [apply still_services, keeps_try, keeps_reading|]. intros [[via key]|]; [|apply still_ret].
  apply still_if; [apply still_ret|]. destruct via as [via|]; [|apply still_ret].
  apply still_bind; [apply still_pure|]. intros via'. apply still_if; [apply still_ret|].
  apply still_bind; [by apply still_services|]. intros present. apply still_if; [apply still_ret|]. apply still_bind.
  - unfold convert_to_outgoing_federation_event. cbv zeta. destruct (_ ≫= _); [|apply still_ret].
    apply still_bind; [|intros o; apply still_ret]. apply still_services, keeps_try, keeps_room_version.
  - intros outgoing. apply still_if.
    + unfold fetch_policy_server_signature. apply still_bind; [apply still_interact|]. intros response.
      apply still_bind; [apply still_pure|]. intros [sigs|]; apply still_ret.
    + apply still_bind; [apply still_interact|]. intros response. apply still_bind; [apply still_pure|]. intros o. apply still_ret.
Qed.
Lemma still_fails_later pdu v : still (DB := DB) (R := Services) (soft_fails_later room_id pdu v).
Proof.
  unfold soft_fails_later. apply still_bind.
  - apply still_if; [|apply still_ret]. apply still_bind; [apply still_pure|]. intros json.
    apply still_bind; [apply still_try, still_policy|]. intros a. apply still_ret.
  - intros spam. destruct (redacts_id pdu v); [|apply still_ret]. apply still_bind; [apply still_ask|]. intros f. apply still_ret.
Qed.

(** *** What gets a position *)

(** Beyond the positions of [h], only events have one of which [P] holds. *)
Definition new_only (P : EventId → Prop) h h' : Prop :=
  ∀ e id, Timeline.get_pdu_id (timeline h') e = Ok id → Timeline.get_pdu_id (timeline h) e = Ok id ∨ P e.
Lemma same_new_only P h h' : same_positions h h' → new_only P h h'.
Proof. intros E e id. unfold Timeline.get_pdu_id. rewrite E. by left. Qed.
Lemma same_then_new_only P h h1 h' : same_positions h h1 → new_only P h1 h' → new_only P h h'.
Proof. intros E Hn e id Hi%Hn. unfold Timeline.get_pdu_id in *. by rewrite E in Hi. Qed.

Lemma place_new pdu val v state soft h r h' :
  place_event room_id v state soft pdu val h = Some (r, h') →
  new_only (λ e, e = event_id pdu ∧ soft = false ∧ placeable pdu v state h) h h'.
Proof.
  unfold place_event. apply still_then; [apply still_next_extremities|intros; by apply same_new_only|].
  intros extremities h1 Hex E1. cbv zeta. apply still_then; [apply still_services, keeps_in_room_tables|intros h2 E2; apply same_new_only; by etrans|].
  intros ids h2 Hids E2. apply still_then; [apply still_derive|intros h3 E3; apply same_new_only; by repeat (etrans; [eassumption|])|].
  intros [] h3 Hd E3. assert (same_positions h h3) as E by (by etrans; [|etrans]).
  apply still_then.
  { apply still_if; [apply still_ret|apply still_fails_later]. }
  { intros h4 E4. apply same_new_only. by etrans. }
  intros b h4 Hb E4. assert (same_positions h h4) as E' by (by etrans). intros r0 h0 Hr. destruct b.
  - eapply same_new_only. etrans; [exact E'|]. revert Hr. apply still_bind; [apply still_services, keeps_append_soft|]. intros _.
    apply still_bind; [apply still_services; apply keeps_changes; intros sv; by apply kept_timeline|]. intros _. apply still_fail.
  - destruct soft; [done|]. eapply same_then_new_only; [exact E'|]. intros e id.
    unfold in_services in Hr. pose proof (touches_append_incoming pdu val (extremities ++ [event_id pdu]) (list_to_set ids) false room_id (services_of h4)) as Ht.
    destruct (append_incoming_pdu _ _ _ _ _ _ _) as [r1 sv]. injection Hr as _ <-. cbn.
    destruct (decide (e = event_id pdu)) as [->|Hne].
    + right. split_and!; [done..|]. by exists extremities, h1, ids, h2, h3, h4.
    + specialize (Ht e Hne). cbn in Ht. rewrite Ht. by left.
Qed.

(** Promoting an event gives a position to no other event, and to that one only if it is cleared. *)
Lemma upgrade_new depth pdu val h r h' :
  upgrade_outlier_to_timeline_pdu origin create_event room_id depth pdu val h = Some (r, h') →
  new_only (λ e, e = event_id pdu ∧ cleared depth pdu h) h h'.
Proof.
  unfold upgrade_outlier_to_timeline_pdu. apply still_then; [apply still_silent, silent_read|intros; by apply same_new_only|].
  intros known h0 [-> Hknown]%read_timeline_inv _. destruct known as [pduid|]; [intros ? ? [= <- <-]; by apply same_new_only|].
  apply still_then; [apply still_ask|intros; by apply same_new_only|]. intros failed h0 [Hfailed ->]%ask_inv _.
  destruct failed; [intros ? ? [= <- <-]; by apply same_new_only|].
  apply still_then; [apply still_pure|intros; by apply same_new_only|]. intros v h0 [Hv%ok_or_Ok ->]%hpure_inv _.
  apply still_then; [apply still_state_before|intros; by apply same_new_only|]. intros state h1 Hstate E1.
  apply still_then; [apply still_pure|intros h2 E2; apply same_new_only; by etrans|]. intros ver h0 [Hver ->]%hpure_inv _.
  apply still_then; [apply still_ask|intros h2 E2; apply same_new_only; by etrans|]. intros sv h0 [-> ->]%ask_inv _.
  apply still_then; [apply still_authorized|intros h2 E2; apply same_new_only; by etrans|]. intros ok h0 [Hauth ->]%authorized_inv _.
  destruct ok; [cbn [negb]|intros ? ? [= <- <-]; by apply same_new_only].
  apply still_then; [apply still_soft_fails|intros h2 E2; apply same_new_only; by etrans|]. intros soft h3 Hsoft E3 r0 h0 Hp%place_new.
  intros e id Hi%Hp. destruct Hi as [Hi|(-> & -> & Hpl)].
  - left. unfold Timeline.get_pdu_id in *. by rewrite <- E1, <- E3.
  - right. split; [done|]. apply soft_fails_inv in Hsoft as (auth_events & h2 & Hev & Hcheck & Hredact).
    exists v, ver, state, h1, auth_events, h2, h3. split_and!; try done.
    unfold to_room_version in Hver. by destruct (RoomVersion_new v); [injection Hver as ->|..].
Qed.

(** An event that is promoted to the timeline, and was not there, is cleared, and is in the
    timeline at the position that is returned. *)
Lemma upgrade_admitted depth pdu val h o h' :
  upgrade_outlier_to_timeline_pdu origin create_event room_id depth pdu val h = Some (Ok o, h') →
  (∀ id, Timeline.get_pdu_id (timeline h) (event_id pdu) ≠ Ok id) →
  ∃ id, o = Some id ∧ cleared depth pdu h ∧ placed h' (event_id pdu) id.
Proof.
  intros Hup Hnew. assert (∃ id, o = Some id ∧ placed h' (event_id pdu) id) as (id & -> & Hpl).
  2: { exists id. split_and!; [done| |done]. destruct (upgrade_new _ _ _ _ _ _ Hup (event_id pdu) id) as [Hi|[_ ?]]; [|by destruct (Hnew id)|done].
       destruct Hpl as [[Hi _] E]. by rewrite E. }
  revert Hup. intros (known & h0 & [-> Hknown]%read_timeline_inv & Hu)%hbind_inv. destruct known as [pduid|]; [by destruct (Hnew pduid)|].
  apply hbind_inv in Hu as (failed & h0 & _ & Hu). destruct failed; [done|].
  apply hbind_inv in Hu as (v & h1 & _ & (state & h2 & _ & (ver & h3 & _ & (sv & h4 & _ & (ok & h5 & _ & Hu)%hbind_inv)%hbind_inv)%hbind_inv)%hbind_inv).
  destruct ok; [|done]. apply hbind_inv in Hu as (soft & h6 & _ & Hu).
  apply hbind_inv in Hu as (extremities & h7 & _ & (ids & h8 & _ & (? & h9 & _ & (soft' & h10 & _ & Hu)%hbind_inv)%hbind_inv)%hbind_inv).
  destruct soft'; [by apply hbind_inv in Hu as (? & ? & _ & (? & ? & _ & Hf)%hbind_inv)|].
  apply in_services_inv in Hu as ((id & -> & Hid)%append_incoming_ok & Ht & _). by exists id.
Qed.

(** ** Events that fail softly *)

Lemma force_state_sets rm hash new gone sv sv' :
  force_state rm hash new gone sv = (Ok tt, sv') →
  map_get (roomid_shortstatehash (room_tables sv')) (bytes_of_string rm) = Some (u64_be hash).
Proof.
  intros (ids & sv1 & _ & (? & sv2 & _ & (? & sv3 & _ & Hs)%sbind_inv)%sbind_inv)%sbind_inv.
  unfold in_room_tables, set_room_state in Hs. rewrite raw_aput_u64 in Hs. injection Hs as <-. cbn. by rewrite map_get_insert_eq.
Qed.
Lemma derive_state_sets pdu v state key h h' :
  state_key pdu = Some key → derive_state room_id pdu v state h = Some (Ok tt, h') →
  ∃ k h1 X h2 saved h3,
    in_rooms_part (shortstatekey (kind pdu) key) h = Some (Ok k, h1)
    ∧ in_rooms_part (resolve_state evict hash_order broad batches accepted_first fuel (srv_timeline (services_of h1)) room_id v (<[k := event_id pdu]> state)) h1
      = Some (Ok X, h2)
    ∧ in_services (λ sv : Services, in_room_tables (save_state sha256 evict fuel room_id X) sv) h2 = Some (Ok saved, h3)
    ∧ map_get (roomid_shortstatehash (room_tables (services_of h'))) (bytes_of_string room_id) = Some (u64_be saved.1.1).
Proof.
  intros Hk. unfold derive_state. rewrite Hk.
  intros (k & h1 & Hkey & (tl & h0 & [-> ->]%ask_inv & (X & h2 & HX & (saved & h3 & Hsave & Hf)%hbind_inv)%hbind_inv)%hbind_inv)%hbind_inv.
  exists k, h1, X, h2, saved, h3. split_and!; [done..|]. apply in_services_inv in Hf as (Hf & _).
  apply force_state_sets in Hf. exact Hf.
Qed.

(** C9: a state event that fails softly, and for which the state of its room can be derived, is left out
    of the timeline and the forward extremities and is no answer to the server that sent it; but the current state
    of the room is the one derived with the event: the number under which the state is saved that resolving the
    current state with the state before the event, and the event under the number of its own type and state key, gives. *)
Theorem soft_failed_state_stays pdu val v state key h extremities h1 ids h2 h3 :
  state_key pdu = Some key →
  next_extremities room_id pdu h = Some (Ok extremities, h1) →
  in_services (λ sv : Services, in_room_tables (compress_state_events (order 52 (map_to_list state)) (batches (order 52 (map_to_list state)).*2)) sv) h1
    = Some (Ok ids, h2) →
  derive_state room_id pdu v state h2 = Some (Ok tt, h3) →
  ∃ r h', place_event room_id v state true pdu val h = Some (r, h') ∧ (∀ o, r ≠ Ok o)
    ∧ timeline h' = timeline h3
    ∧ roomid_pduleaves (room_tables (services_of h')) = roomid_pduleaves (room_tables (services_of h3))
    ∧ ∃ k h4 X h5 saved h6,
        in_rooms_part (shortstatekey (kind pdu) key) h2 = Some (Ok k, h4)
        ∧ in_rooms_part (resolve_state evict hash_order broad batches accepted_first fuel (srv_timeline (services_of h4)) room_id v (<[k := event_id pdu]> state)) h4
          = Some (Ok X, h5)
        ∧ in_services (λ sv : Services, in_room_tables (save_state sha256 evict fuel room_id X) sv) h5 = Some (Ok saved, h6)
        ∧ map_get (roomid_shortstatehash (room_tables (services_of h'))) (bytes_of_string room_id) = Some (u64_be saved.1.1).
Proof.
  intros Hk Hex Hids Hd. destruct (derive_state_sets _ _ _ _ _ _ Hk Hd) as (k & h4 & X & h5 & saved & h6 & Hkey & HX & Hsave & Hset).
  unfold place_event, hbind. rewrite Hex. cbv beta iota zeta. rewrite Hids, Hd. cbv beta iota.
  destruct (append_incoming_pdu pdu val extremities (list_to_set ids) true room_id (services_of h3)) as [r sv] eqn:Ea.
  assert (in_services (append_incoming_pdu pdu val extremities (list_to_set ids) true room_id) h3
    = Some (r, mkHandler (srv_timeline sv) (bad_event_ratelimiter h3) (interactions h3) sv)) as Ein by (unfold in_services; by rewrite Ea).
  cbn [hret] in Ein |- *. rewrite Ein.
  apply append_soft_failed in Ea as (Hr & Ht & Hst & Hl). cbn in Ht.
  assert (∀ h', rooms_stay (room_tables (services_of h3)) (room_tables (services_of h')) →
    map_get (roomid_shortstatehash (room_tables (services_of h'))) (bytes_of_string room_id) = Some (u64_be saved.1.1)) as Hkept.
  { intros h' [E _]. by rewrite E. }
  destruct r as [o|e|]; eexists _, _; (split; [reflexivity|]); (split; [done|]); cbn; (split; [exact Ht|]); (split; [exact Hl|]);
    exists k, h4, X, h5, saved, h6; (split; [exact Hkey|split; [exact HX|split; [exact Hsave|]]]).
  - apply (Hkept (mkHandler _ _ _ (set_metadata _ _))). by split.
  - apply (Hkept (mkHandler _ _ _ sv)). by split.
  - apply (Hkept (mkHandler _ _ _ sv)). by split.
Qed.
End promotion.

Section incoming.
Context {DB : Type} `{Store DB} {C : Type} `{LruCache C} {Content Char Ruleset Stripped : Type}.
Context `{Ruma Content} `{RoomContents Content} `{!Wire} `{!EventWire Content} `{!EventWireLaws Content} `{World} `{StateIdsWorld}.
Context `{ThreadWire Content} `{RawJson} `{Unicode Char} `{AppendWire Content Char Ruleset} `{PolicyServers Content} `{Invitations Stripped}.
Context `{Schedule} `{Settings}.
Local Abbreviation Services := (Services DB C).
Local Abbreviation Handler := (Handler DB Services).
Implicit Types (h : Handler) (sv : Services) (pdu : Pdu Content).

(** ** What an event of another server passes *)

Lemma services_of_in {A} (m : SM A) h r h' : in_services m h = Some (r, h') → services_of h' = (m (services_of h)).2.
Proof. unfold in_services, services_of. destruct (m _) as [r' [? ? ? ? ? ? ? ? ? ? ? ? ? ?]]. by intros [= _ <-]. Qed.
Lemma acl_check_same server room_id h h' : acl_check server room_id h = Some (Ok tt, h') → same_but_cache (services_of h) (services_of h').
Proof.
  unfold acl_check. intros (acl & h1 & Ha & Hr)%hbind_inv. apply services_of_in in Ha.
  assert (services_of h' = services_of h1) as -> by (destruct (acl_verdict _ _ _); [by injection Hr as ->|done]).
  rewrite Ha. unfold try_service.
  pose proof (in_room_tables_reads (room_state_get_content evict (stored_event (services_of h)) fuel from_Acl room_id RoomServerAcl EmptyString)
    (services_of h) (reads_content _ _ _ _ _ _)) as Hs.
  by destruct (in_room_tables _ _) as [[]].
Qed.

(** The access list of a room lets the server that sends an event send, and the server of its sender. *)
Definition may_send h h' (room_id : RoomId) (origin : ServerName) (sender : UserId) : Prop :=
  ∃ ha hb, services_of ha = services_of h ∧ acl_check origin room_id ha = Some (Ok tt, hb)
    ∧ if bool_decide (user_server_name sender = origin) then h' = hb
      else acl_check (user_server_name sender) room_id hb = Some (Ok tt, h').
Definition named_sender (value : Object) : option UserId := j ← value !! "sender"; s ← as_str j; user_id_parse s.

Lemma admit_server_inv origin room_id value h sender meta h' :
  admit_server origin room_id value h = Some (Ok (sender, meta), h') →
  room_exists (shorts (services_of h)) (timeline h) room_id = Ok meta
  ∧ room_disabled room_id (services_of h) = false ∧ named_sender value = Some sender
  ∧ may_send h h' room_id origin sender ∧ same_but_cache (services_of h) (services_of h').
Proof.
  intros (who & h0 & [Hwho%ok_or_Ok ->]%hpure_inv & (exists_ & h1 & Hm & Ha)%hbind_inv)%hbind_inv.
  assert (services_of h1 = services_of h) as E1 by (by rewrite (services_of_in _ _ _ _ Hm)).
  apply in_services_inv in Hm as (Hm & _).
  apply hbind_inv in Ha as (disabled & h0 & [-> ->]%ask_inv & (u1 & h2 & Hacl & (u2 & h3 & Hacl2 & Hr)%hbind_inv)%hbind_inv).
  destruct u1, u2. rewrite E1 in Hr. destruct (room_disabled room_id (services_of h)); [done|]. injection Hr as -> -> ->.
  assert (same_but_cache (services_of h) (services_of h2)) as Hsame2 by (rewrite <-E1; by eapply acl_check_same).
  split; [unfold read_service in Hm; injection Hm as Hm; by destruct (room_exists _ _ _); try injection Hm as ->|].
  split; [done|]. split; [done|]. split.
  - exists h1, h2. split_and!; [done..|]. case_bool_decide; [by injection Hacl2 as ->|done].
  - case_bool_decide; [by injection Hacl2 as ->|]. etrans; [exact Hsame2|]. by eapply acl_check_same.
Qed.

Lemma still_acl server room_id : still (DB := DB) (R := Services) (acl_check server room_id).
Proof.
  unfold acl_check. apply still_bind; [apply still_services, keeps_try, keeps_reading|]. intros acl.
  apply still_if; [apply still_ret|apply still_fail].
Qed.
Lemma still_admit origin room_id value : still (DB := DB) (R := Services) (admit_server origin room_id value).
Proof.
  unfold admit_server. apply still_bind; [apply still_pure|]. intros sender. apply still_bind; [by apply still_services|]. intros b.
  apply still_bind; [apply still_ask|]. intros d. apply still_bind; [apply still_acl|]. intros _.
  apply still_bind; [apply still_if; [apply still_ret|apply still_acl]|]. intros _. apply still_if; [apply still_fail|apply still_ret].
Qed.

(** *** The previous events *)

(** The [n]-th of the previous events was promoted, after the ones before it, and is the event
    that got its position so. *)
Definition cleared_as_previous origin (create_event : Pdu Content) room_id depth first_ts sorted (info : EventInfo Content) h (e : EventId) : Prop :=
  ∃ n prev_id pdu json hn ha,
    sorted !! n = Some prev_id ∧ info !! prev_id = Some (pdu, json) ∧ event_id pdu = e
    ∧ handle_prev_events origin create_event room_id depth first_ts (take n sorted) info h = Some (Ok tt, hn)
    ∧ room_disabled room_id (services_of hn) = false
    ∧ backing_off (5 * 60) (60 * 60 * 24) prev_id hn = Some (Ok false, ha)
    ∧ first_ts ≤ origin_server_ts pdu
    ∧ cleared origin create_event room_id depth pdu ha.

Lemma handle_prev_new origin create_event room_id depth info first_ts prev_id h r h' :
  handle_prev_pdu origin create_event room_id depth info first_ts prev_id h = Some (r, h') →
  new_only (λ e, ∃ pdu json ha, info = Some (pdu, json) ∧ event_id pdu = e ∧ room_disabled room_id (services_of h) = false
              ∧ backing_off (5 * 60) (60 * 60 * 24) prev_id h = Some (Ok false, ha) ∧ first_ts ≤ origin_server_ts pdu
              ∧ cleared origin create_event room_id depth pdu ha) h h'.
Proof.
  unfold handle_prev_pdu. apply still_then; [apply still_ask|intros; by apply same_new_only|].
  intros disabled h0 [Hd ->]%ask_inv _. destruct disabled; [intros ? ? [= <- <-]; by apply same_new_only|].
  apply still_then; [apply still_silent, silent_backing_off|intros; by apply same_new_only|].
  intros limited h1 Hl E1. destruct info as [[pdu json]|]; [|intros ? ? [= <- <-]; by apply same_new_only].
  destruct limited; [intros ? ? [= <- <-]; by apply same_new_only|]. cbn [orb].
  case_bool_decide; [intros ? ? [= <- <-]; by apply same_new_only|]. intros r0 h0 Hu.
  assert (∃ r1, upgrade_outlier_to_timeline_pdu origin create_event room_id depth pdu json h1 = Some (r1, h0)) as (r1 & Hup).
  { unfold hbind in Hu. destruct (upgrade_outlier_to_timeline_pdu _ _ _ _ _ _ _) as [[[o|e|] h2]|]; [|injection Hu as _ <-; eauto..|done].
    injection Hu as _ <-. eauto. }
  eapply same_then_new_only; [exact E1|]. intros e id Hi%(upgrade_new _ _ _ _ _ _ _ _ _ Hup).
  destruct Hi as [?|[-> Hc]]; [by left|right]. exists pdu, json, h1. split_and!; [done..|lia|done].
Qed.

Lemma handle_prev_events_new origin create_event room_id depth first_ts sorted info h r h' :
  handle_prev_events origin create_event room_id depth first_ts sorted info h = Some (r, h') →
  new_only (cleared_as_previous origin create_event room_id depth first_ts sorted info h) h h'.
Proof.
  revert info h. induction sorted as [|prev_id sorted IH]; intros info h; cbn [handle_prev_events].
  { intros [= _ <-]. by apply same_new_only. }
  intros Hrun.
  assert (∀ ho h1, try_call (handle_prev_pdu origin create_event room_id depth (info !! prev_id) first_ts prev_id) h = Some (ho, h1) →
    new_only (cleared_as_previous origin create_event room_id depth first_ts (prev_id :: sorted) info h) h h1) as Hfirst.
  { intros ho h1 Ht.
    assert (∃ r1, handle_prev_pdu origin create_event room_id depth (info !! prev_id) first_ts prev_id h = Some (r1, h1)) as (r1 & Hp).
    { unfold try_call in Ht. destruct (handle_prev_pdu _ _ _ _ _ _ _ _) as [[[]]|]; [injection Ht as _ <-; eauto..|done]. }
    intros e id Hi%(handle_prev_new _ _ _ _ _ _ _ _ _ _ Hp). destruct Hi as [?|(pdu & json & ha & ? & ? & ? & ? & ? & ?)]; [by left|right].
    exists 0%nat, prev_id, pdu, json, h, ha. by split_and!. }
  unfold hbind at 1 in Hrun.
  destruct (try_call _ h) as [[[handled|x|] h1]|] eqn:Ht; [|injection Hrun as _ <-; by eapply Hfirst..|done].
  pose proof (Hfirst _ _ eq_refl) as H01. unfold hbind at 1 in Hrun.
  set (m := match handled with Some _ => _ | None => _ end) in Hrun.
  assert (still m) as Hm by (subst m; destruct handled; [apply still_ret|apply still_silent, silent_back_off]).
  destruct (m h1) as [[o2 h2]|] eqn:E2; [|done]. pose proof (Hm _ _ _ E2) as S2.
  assert (new_only (cleared_as_previous origin create_event room_id depth first_ts (prev_id :: sorted) info h) h h2) as H02.
  { intros e id Hi. apply H01. unfold Timeline.get_pdu_id in *. by rewrite <- S2. }
  destruct o2 as [[]|x|]; [|injection Hrun as _ <-; exact H02..]. unfold hbind at 1 in Hrun.
  assert (still (DB := DB) (R := Services) check_running) as Hc.
  { apply still_bind; [apply still_interact|]. intros b. apply still_if; [apply still_ret|apply still_fail]. }
  destruct (check_running h2) as [[o3 h3]|] eqn:E3; [|done]. pose proof (Hc _ _ _ E3) as S3.
  assert (new_only (cleared_as_previous origin create_event room_id depth first_ts (prev_id :: sorted) info h) h h3) as H03.
  { intros e id Hi. apply H02. unfold Timeline.get_pdu_id in *. by rewrite <- S3. }
  destruct o3 as [[]|x|]; [|injection Hrun as _ <-; exact H03..].
  intros e id Hi%(IH _ _ Hrun). destruct Hi as [Hi|(n & pid & pdu & json & hn & ha & Hn & Hinfo & He & Hrun' & Hrest)]; [by apply H03|right].
  exists (S n), pid, pdu, json, hn, ha. apply lookup_delete_Some in Hinfo as [_ Hinfo]. split_and!; try done; try apply Hrest.
  cbn [take handle_prev_events]. unfold hbind at 1. rewrite Ht. unfold hbind at 1. fold m. rewrite E2. unfold hbind at 1. by rewrite E3.
Qed.

(** C4: an event of another server that is let into the timeline, and was not there, fits the limits of its
    size; its room is not disabled, the access list of the room allows the server that sent
    it and the server of the sender it names, and this server is in the room.  It was handled as an outlier of
    the room's create event, and its previous events before it; then it was cleared, as itself or
    among the previous events: it had not failed softly, is authorized by the state before it and by the current state
    of the room, may redact what it redacts, and does not fail softly in the end.  It is
    in the timeline at the position that is returned. *)
Theorem handle_incoming_sound depth rounds origin room_id event_id value h id h' :
  handle_incoming_pdu depth rounds origin room_id event_id value true h = Some (Ok (Some id), h') →
  (∀ id, Timeline.get_pdu_id (timeline h) event_id ≠ Ok id) →
  pdu_fits value = true ∧ room_disabled room_id (services_of h) = false
  ∧ server_in_room (srv_cache (services_of h)) own_server_name room_id = Ok true
  ∧ ∃ sender h0 h1 create_event h2 incoming_pdu val h3 first_pdu h4 sorted info h5 h6,
      named_sender value = Some sender ∧ may_send h h0 room_id origin sender
      ∧ services_of h1 = services_of h0
      ∧ in_services (λ sv : Services, in_room_tables (room_state_get evict (stored_event sv) fuel room_id RoomCreate EmptyString) sv) h1
        = Some (Ok create_event, h2)
      ∧ handle_outlier_pdu accepted_first origin create_event room_id depth event_id value false h2 = Some (Ok (incoming_pdu, val), h3)
      ∧ Event.event_id incoming_pdu = event_id
      ∧ in_services (read_service (first_pdu_in_room room_id)) h3 = Some (Ok first_pdu, h4)
      ∧ fetch_prev accepted_first origin create_event room_id max_fetch_prev_events rounds depth (origin_server_ts first_pdu)
          (prev_events incoming_pdu) h4 = Some (Ok (sorted, info), h5)
      ∧ handle_prev_events origin create_event room_id depth (origin_server_ts first_pdu) sorted info h5 = Some (Ok tt, h6)
      ∧ (cleared origin create_event room_id depth incoming_pdu h6 ∧ placed h' event_id id
         ∨ cleared_as_previous origin create_event room_id depth (origin_server_ts first_pdu) sorted info h5 event_id
           ∧ Timeline.get_pdu_id (timeline h') event_id = Ok id).
Proof.
  intros (known & h0 & [-> Hknown]%read_timeline_inv & Hu)%hbind_inv Hnew. destruct known as [pduid|]; [by destruct (Hnew pduid)|].
  destruct (pdu_fits value); [cbn [negb] in Hu|done].
  apply hbind_inv in Hu as ([sender meta] & h0 & Hadmit & Hu).
  pose proof Hadmit as (_ & Hdis & Hsender & Hmay & Hsame)%admit_server_inv.
  apply hbind_inv in Hu as (here & h1 & Hread & Hu). pose proof (services_of_in _ _ _ _ Hread) as Eserv. cbn in Eserv.
  pose proof Hread as (Hhere & _)%in_services_inv.
  assert (server_in_room (srv_cache (services_of h)) own_server_name room_id = Ok here) as Hin.
  { destruct Hsame as (rs & _ & E). unfold read_service in Hhere. apply (f_equal fst) in Hhere. cbn [fst] in Hhere. rewrite E in Hhere.
    change (srv_cache (set_room_tables (services_of h) rs)) with (srv_cache (services_of h)) in Hhere.
    by destruct (server_in_room _ _ _); try injection Hhere as ->. }
  destruct here; cbn [negb] in Hu.
  2: { apply hbind_inv in Hu as (o & h2 & _ & Hr). destruct o; [|done]. by apply hbind_inv in Hr as (? & ? & _ & [=]). }
  split_and!; [done..|]. destruct meta; [|done]. cbn [negb snd fst] in Hu.
  apply hbind_inv in Hu as (create_event & h2 & Hcreate & ([incoming_pdu val] & h3 & Hout & Hu)%hbind_inv).
  apply hbind_inv in Hu as (first_pdu & h4 & Hfirst & ([sorted info] & h5 & Hfetch & ([] & h6 & Hprev & Hu)%hbind_inv)%hbind_inv).
  pose proof (handle_outlier_inv _ _ _ _ _ _ _ _ _ _ _ _ Hout) as (Hid & _).
  assert (same_positions h h5) as Hpos.
  { etrans; [by eapply still_admit|]. etrans; [refine (still_services _ _ _ _ _ Hread); apply keeps_read|].
    etrans; [refine (still_services _ _ _ _ _ Hcreate); apply keeps_reading|]. etrans; [by eapply still_handle_outlier|].
    etrans; [refine (still_services _ _ _ _ _ Hfirst); apply keeps_read|]. by eapply still_fetch_prev. }
  exists sender, h0, h1, create_event, h2, incoming_pdu, val, h3, first_pdu, h4, sorted, info, h5, h6. split_and!; try done.
  cbn [fst snd] in Hu. destruct (Timeline.get_pdu_id (timeline h6) event_id) as [id'| |] eqn:Eid.
  - right. unfold upgrade_outlier_to_timeline_pdu, hbind, read_timeline in Hu. rewrite Hid, Eid in Hu. injection Hu as <- <-. split; [|done].
    destruct (handle_prev_events_new _ _ _ _ _ _ _ _ _ _ Hprev event_id id' Eid) as [Hi|?]; [|done].
    destruct (Hnew id'). unfold Timeline.get_pdu_id in *. by rewrite <- Hpos.
  - left. destruct (upgrade_admitted _ _ _ _ _ _ _ _ _ Hu) as (id' & [= <-] & Hc & Hp); [by rewrite Hid, Eid|]. by rewrite Hid in Hp.
  - left. destruct (upgrade_admitted _ _ _ _ _ _ _ _ _ Hu) as (id' & [= <-] & Hc & Hp); [by rewrite Hid, Eid|]. by rewrite Hid in Hp.
Qed.

(** ** What is left where it is *)

(** C23: when an event is taken to take back an invitation, the member whose place changes is the
    sender of the event: whoever else is invited to the room is invited still. *)
Theorem rescinding_leaves_invited room_id value sender h o h' A :
  cache_wf (cache_part (services_of h)) A → utf8 sender → utf8 room_id → counter (counters (services_of h)) < u64_max →
  not_participating room_id value sender h = Some (Ok o, h') →
  o = None ∧ ∃ A', cache_wf (cache_part (services_of h')) A'
    ∧ ∀ u r, (u, r) ≠ (sender, room_id) → A' !! (u, r) = A !! (u, r).
Proof.
  intros HA Hu Hr Hc (rescinded & h1 & Hask & Hrest)%hbind_inv.
  assert (services_of h1 = services_of h) as E1.
  { case_bool_decide; [by rewrite (services_of_in _ _ _ _ Hask)|by injection Hask as _ ->]. }
  destruct rescinded as [pdu|]; [|done].
  apply hbind_inv in Hrest as (? & h2 & Hleft & Hret). injection Hret as <- ->. split; [done|].
  pose proof (services_of_in _ _ _ _ Hleft) as E2. apply in_services_inv in Hleft as (Hleft & _). rewrite E1 in Hleft, E2. rewrite E2. clear E1 E2.
  unfold updates in *.
  destruct (mark_as_left_wf user_is_local forget_forced_upon_leave _ A sender room_id (pdu_text pdu) HA Hu Hr) as (c & Ec & Hc'); [done|].
  rewrite Ec in Hleft |- *. cbn [snd].
  replace (cache_part (set_cache (services_of h) c)) with c by (by destruct c).
  eexists. split; [exact Hc'|]. intros u r Hne. destruct (forgets _ _ _ _ _).
  - by rewrite lookup_delete_ne by congruence.
  - by rewrite lookup_insert_ne by congruence.
Qed.
End incoming.

Local Open Scope Z_scope.

Module Promoted.
#[local] Existing Instance SearchDemo.letters.
#[local] Instance in_order : Schedule := { order _ _ l := l; order_perm _ _ l := reflexivity l }.

(** ** The outside *)

#[local] Instance world : World := {
  instant n := Z.of_nat n;
  get_event n origin id := None;
  verify_event n o v := Some VerifiedAll;
  running n := true;
}.
#[local] Instance no_state_ids : StateIdsWorld := { get_room_state_ids n o r e := None }.
#[local] Instance threads : ThreadWire DemoContent := {
  from_BundledThread j := None;
  to_BundledThread t := JInteger (thread_count t);
  to_format pdu := JString (Event.event_id pdu);
}.
#[local] Instance raw_json : RawJson := {
  raw_object s := None;
  raw_text o := EmptyString;
  integer_text z := EmptyString;
}.
#[local] Instance append_wire : AppendWire DemoContent SearchDemo.letter unit := {
  from_ExtractBody c := Some (Some [SearchDemo.a]);
  from_RelatesToEventId c := None;
  from_RelatesTo c := None;
  content_object c := Some [];
  to_object pdu := Some ∅;
  redact_content c v ty := Some c;
  redacted_because pdu := EmptyString;
  localpart u := bytes_of_string u;
  read_push_rules b := Some tt;
  server_default u := tt;
  ruleset_actions r j ctx := [Notify];
  create_predecessor c := None;
  stripped_text l := [];
  pdu_text pdu := bytes_of_string (Event.event_id pdu);
  json_has j name := true;
  json_text j := [];
  json_read b := None;
  invite_permission_config := "m.invite_permission_config";
  ignored_users b := None;
  user_filter_level b u := None;
  read_direct b := None;
  direct_json l := JObject [];
  alias_text b := None;
  room_id_text b := None;
}.
#[local] Instance policy : PolicyServers DemoContent := {
  room_policy := OtherType "org.matrix.msc4284.policy";
  from_Policy c := None;
  server_name_parse s := Some s;
  policy_check n s e o := None;
  policy_sign n s o := None;
}.
(** An invitation is one stripped event, of a member of that name. *)
#[local] Instance invitations : Invitations string := {
  read_invite b := Some [string_of_bytes b];
  stripped_type s := Some (Some "m.room.member");
  stripped_state_key s := Some (Some s);
  stripped_sender s := Some None;
  stripped_membership s := Some (Some Invite);
}.
#[local] Instance settings : Settings := {
  evict := keep_all;
  sha256 := plain_digest;
  accepted_first := true;
  fuel := 40;
  hash_order := id;
  broad _ l := l;
  batches l := [l];
  own_server_name := "a";
  user_is_local u := bool_decide (user_server_name (Content := DemoContent) u = "a");
  forget_forced_upon_leave := false;
  ldap := false;
  hash_password s := Some s;
  max_fetch_prev_events := 5;
  enable_msc4284_policy_servers := false;
  policy_server_check_own_events := false;
  appservices := [];
  admin := mkAdminConfig "@server:a" [] [] false false false;
}.
Local Abbreviation Tables := (gmap bytes bytes).
Local Abbreviation Server := (Services Tables LruList).

Definition message : Object := object_of (demo_fields_of "$msg").

(** ** The room *)

Definition no_services : Server :=
  mkServices (mkRooms room0 ∅ (mkLruList [] 2)) (Timeline.mkData ∅ ∅ ∅ ∅ ∅)
    (mkCache (globals fresh_short) (λ _, ∅) (λ _, ∅) (λ _, ∅) ∅ ∅ ∅) (mkPduMetadata ∅ ∅ ∅) (mkReadReceipts (globals fresh_short) ∅ ∅ ∅) ∅ ∅ ∅ ∅ ∅
    (Sending.mkSendingData ∅ ∅ ∅ (globals fresh_short)) [] ∅ [].
Definition new_room : SM (DB := Tables) (C := LruList) unit :=
  in_room_tables (RoomState.bind (lift_short (λ s, get_or_create_shortroomid s "!r:a")) (λ _, RoomState.ret tt)).
(** As for an event made here: its state, then its place. *)
Definition make (id : string) : SM (DB := Tables) (C := LruList) RawId :=
  let pdu := event_of (demo_fields_of id) in
  sbind (in_room_tables (append_to_state keep_all 9 pdu "!r:a")) (λ hash,
  sbind (append_pdu pdu (object_of (demo_fields_of id)) [id] "!r:a") (λ pdu_id,
  sbind (in_room_tables (set_room_state "!r:a" hash)) (λ _, sret pdu_id))).
Definition server : outcome RequestError RawId * Server :=
  sbind new_room (λ _, sbind (make "$create") (λ _, sbind (make "$alice") (λ _, make "$levels"))) no_services.
Definition sv1 : Server := server.2.

(** ** The message *)

Definition h1 : Handler Tables Server := mkHandler (srv_timeline sv1) ∅ 0 sv1.
Definition incoming := handle_incoming_pdu 9 9 "b" "!r:a" "$msg" message true h1.

(** The value and the state of a call that ends well. *)
Definition value_of {A S} (r : option (outcome RequestError A * S)) (a : A) (s : S) : A * S :=
  match r with Some (Ok a, s) => (a, s) | _ => (a, s) end.
Lemma value_of_ok {A S} (r : option (outcome RequestError A * S)) a s :
  Honest.succeeds r = true → r = Some (Ok (value_of r a s).1, (value_of r a s).2).
Proof. by destruct r as [[[]]|]. Qed.

Lemma incoming_accepted : Honest.succeeds incoming && bool_decide (is_Some (value_of incoming None h1).1) = true.
Proof. vm_cast_no_check (eq_refl true). Qed.
Lemma message_is_new : Timeline.get_pdu_id (timeline h1) "$msg" = Err Timeline.PduNotFound.
Proof. by vm_compute. Qed.

Lemma incoming_found : ∃ id h', incoming = Some (Ok (Some id), h').
Proof.
  pose proof incoming_accepted as Ha. apply andb_true_iff in Ha as [Hs Hid%bool_decide_eq_true_1].
  pose proof (value_of_ok incoming None h1 Hs) as E. destruct Hid as [id Hid]. rewrite Hid in E. eauto.
Qed.
Lemma handle_incoming_sound_witness :
  ∃ id h', incoming = Some (Ok (Some id), h') ∧ room_disabled "!r:a" (services_of h1) = false
    ∧ ∃ sender h0, named_sender message = Some sender ∧ may_send h1 h0 "!r:a" "b" sender.
Proof.
  destruct incoming_found as (id & h' & E). exists id, h'. split; [exact E|]. unfold incoming in E.
  destruct (handle_incoming_sound _ _ _ _ _ _ _ _ _ E) as (_ & Hdis & _ & sender & h0 & Hrest).
  - intros id' Hid'. rewrite message_is_new in Hid'. discriminate Hid'.
  - split; [exact Hdis|]. exists sender, h0. destruct Hrest as (? & ? & ? & ? & ? & ? & ? & ? & ? & ? & ? & ? & Hs & Hm & _).
    split; [exact Hs|exact Hm].
Defined.

(** ** An event that cannot be applied *)

Definition bad_member : Pdu DemoContent := demo_pdu "$bad" "@alice:a" RoomMember (Some "@alice:a") no_content [] [].
Definition appended := append_pdu bad_member message [] "!r:a" sv1.
Example append_fails : appended.1 = Err OtherError.
Proof. vm_cast_no_check (eq_refl (Err (A := RawId) OtherError)). Qed.
Definition previous := with_previous bad_member message sv1.
Lemma previous_ok : Honest.succeeds (Some previous) = true.
Proof. by vm_compute. Qed.

Lemma room_number : get_shortroomid (shorts sv1) "!r:a" = Ok 1.
Proof. by vm_compute. Qed.
Lemma counter_at : counter (counters sv1) = 22.
Proof. by vm_compute. Qed.
Lemma append_pdu_stores_witness :
  appended.1 = Err OtherError ∧ in_timeline appended.2 "$bad" (raw_of_id (mkId 1 (Count.Normal 26))).
Proof.
  split; [exact append_fails|].
  pose proof (Some_inj _ _ (value_of_ok (Some previous) message sv1 previous_ok)) as E. unfold previous at 1 in E.
  pose proof (append_pdu_stores bad_member message [] "!r:a" sv1 1 _ _ 22 room_number E counter_at ltac:(lia) ltac:(unfold u64_max; lia)) as [Hin _].
  exact Hin.
Defined.

(** ** A state event that fails softly *)

Definition topic_fields : Fields :=
  (("$topic", "m.room.topic", "@alice:a", Some EmptyString), (["$create"; "$levels"; "$alice"], ["$levels"], 6)).
Definition topic : Pdu DemoContent := event_of topic_fields.
(** The state before it. *)
Definition entries : gmap Z string := {[3 := "$create"; 10 := "$alice"; 17 := "$levels"]}.
(** The event is kept as an outlier. *)
Definition h0 : Handler Tables Server :=
  let d := timeline h1 in
  mkHandler (Timeline.mkData {[bytes_of_string "$topic" := any_text (Some topic_fields)]} (Timeline.eventid_pduid d) (Timeline.pduid_pdu d)
    (Timeline.userroomid_highlightcount d) (Timeline.userroomid_notificationcount d)) ∅ 0 sv1.
Definition extremities := next_extremities "!r:a" topic h0.
Definition h2 := (value_of extremities [] h0).2.
Definition compressed := in_services (λ sv : Server, in_room_tables (compress_state_events (order 52 (map_to_list entries)) (batches (order 52 (map_to_list entries)).*2)) sv) h2.
Definition h3 := (value_of compressed [] h2).2.
Definition derived := derive_state "!r:a" topic V10 entries h3.
Lemma pieces_ok : Honest.succeeds extremities && Honest.succeeds compressed && Honest.succeeds derived = true.
Proof. vm_cast_no_check (eq_refl true). Qed.

Lemma soft_failed_state_stays_witness :
  ∃ r h', place_event "!r:a" V10 entries true topic message h0 = Some (r, h') ∧ (∀ o, r ≠ Ok o).
Proof.
  pose proof pieces_ok as Hok. rewrite !andb_true_iff in Hok. destruct Hok as ((Hex & Hc) & Hd).
  pose proof (value_of_ok extremities [] h0 Hex) as Eex. unfold extremities at 1 in Eex. fold h2 in Eex.
  pose proof (value_of_ok compressed [] h2 Hc) as Ec. unfold compressed at 1 in Ec. fold h3 in Ec.
  pose proof (value_of_ok derived tt h3 Hd) as Ed. unfold derived at 1 in Ed. destruct (value_of derived tt h3).1.
  destruct (soft_failed_state_stays "!r:a" topic message V10 entries EmptyString h0 _ h2 _ h3 _ eq_refl Eex Ec Ed) as (r & h' & E & Hr & _).
  exists r, h'. split; [exact E|exact Hr].
Defined.

(** ** An invitation that is taken back *)

(** Events that are read from values are leaves. *)
#[local] Instance leaves : EventWire DemoContent := {
  from_value o := Some (demo_pdu "$rescind" "@eve:b" RoomMember (Some "@bob:a") (member_content Leave) [] []);
  redact_object o v := None;
  json_to_vec o := [];
  pdu_from_slice b := None;
  json_from_slice b := None;
}.
Definition no_list (b : bytes) : option (list string) := None.
Definition no_level (b : bytes) (s : string) : option FilterLevel := None.
Definition invited_cache : Cache (DB := Tables) :=
  match mark_as_invited "l" "p" no_list no_level StateCacheDemo.cache0 "@bob:a" "!x:b" "@eve:b" None None with Ok c => c | _ => StateCacheDemo.cache0 end.
Definition invited_places : Places := {[("@bob:a", "!x:b") := Invited]}.
Lemma invited_cache_wf : cache_wf invited_cache invited_places.
Proof.
  pose proof (mark_as_invited_wf "l" "p" no_list no_level StateCacheDemo.cache0 ∅ "@bob:a" "!x:b" "@eve:b" None
    StateCacheDemo.cache0_wf ltac:(by vm_compute) ltac:(by vm_compute) ltac:(by vm_compute)) as Hw.
  assert (blocked "l" "p" no_list no_level StateCacheDemo.cache0 "@eve:b" "@bob:a" = false) as Eb by (vm_compute; reflexivity).
  rewrite Eb in Hw.
  destruct Hw as (c & Ec & Hw). unfold invited_cache. rewrite Ec. exact Hw.
Qed.
Definition invited : Handler Tables Server := mkHandler (Timeline.mkData ∅ ∅ ∅ ∅ ∅) ∅ 0 (set_cache no_services invited_cache).
Definition value : Object := {["type" := JString "m.room.member"]}.
Definition rescinded := not_participating "!x:b" value "@eve:b" invited.
Lemma rescinded_ok : Honest.succeeds rescinded = true.
Proof. by vm_compute. Qed.
(** Bob is invited still; Eve, who is not of this server, has left. *)
Lemma rescinding_leaves_invited_witness :
  ∃ A', cache_wf (cache_part (services_of (value_of rescinded None invited).2)) A' ∧ A' !! ("@bob:a", "!x:b") = Some Invited.
Proof.
  pose proof (value_of_ok rescinded None invited rescinded_ok) as E. unfold rescinded at 1 in E.
  destruct (rescinding_leaves_invited "!x:b" value "@eve:b" invited _ _ invited_places invited_cache_wf ltac:(by vm_compute) ltac:(by vm_compute)
    ltac:(by vm_compute) E) as (_ & A' & Hw & Hsame).
  exists A'. split; [exact Hw|]. rewrite Hsame by congruence. apply lookup_singleton_eq.
Defined.
End Promoted.
